(* ===== verification/_CoqProject ===== *)
-Q . S2P
Prelude.v
Domain.v
WorkflowGraph.v
SessionCwd.v
SessionTypes.v
SessionOps.v
SessionGoverned.v
SessionSystem.v
SessionInvariant.v
SessionEffects.v
SessionSections.v
SessionLock.v
SessionTheorems.v
TurnLiveness.v
ExecutionPolicy.v
FanOut.v
Scheduler.v
Checkout.v
AttemptActivity.v
Framing.v
Permission.v
PermissionFlow.v
Fallback.v
FlightJournal.v
ResourceFlight.v
FlightFaults.v
FlightTheorems.v
FlightRegistry.v
TaskStore.v
TaskProgress.v
TaskRows.v
Batch.v
Lifecycles.v
FramePath.v
CustodyFrame.v
FrameDecode.v
FrameAccept.v
FrameEncode.v
FrameSafety.v
FrameBounds.v
DirTxn.v
DirLogic.v
DirSteps.v
DirRecover.v
DirDecide.v
DirCreate.v
DirCalls.v
DirSafety.v
DirCodec.v
DirTheorems.v
DirInspect.v
Marker.v
MarkerTheory.v
MarkerQuote.v
Json.v
Harvest.v
HarvestTheory.v
Wrapper.v
WrapperTheory.v
WrapperSystem.v
PrefixControl.v
Translator.v
TurnStream.v
AttestedTurn.v
