(* ===== verification/Prelude.v ===== *)
(** * a2a-bridge: verification library (root file)

    [a2a-bridge] fronts coding agents that speak ACP with an A2A server. A
    client's task is dispatched to an agent; a warm session keeps the agent's
    context between turns; workflows run graphs of agent turns with retries,
    fan-out policies, deadlines and durable evidence. This library models the
    deciding code of that system in Rocq and proves what makes it correct. The
    sources are the Rust crates under [src/crates] and [src/bin].

    ** Files and what they model

    - [Prelude] (this file): Rust's [Result], machine integers with their
      saturating and checked operations, byte-wise string order, the stable sort
      of slices, neighbour scans, labelled transition systems with their
      invariant rule.
    - [Domain]: errors and their closed classifications
      ([bridge-core/src/error.rs]), identifiers ([ids.rs]), agent configuration
      ([domain.rs]), session fingerprints ([session_fingerprint.rs]).
    - [WorkflowGraph]: [bridge-core/src/graph.rs]: validation of workflow graphs
      (Kahn's loop included), the terminal node, the order-independent workload
      fingerprint, the retry back-off.
    - [SessionCwd]: [bridge-core/src/session_cwd.rs]: lexical normalisation.
    - [SessionTypes], [SessionOps], [SessionGoverned], [SessionSystem]: the warm
      session manager, [bridge-coordinator/src/session_manager.rs]. Types and
      table; one function per critical section (the code between two lock
      operations); the sections of a governed turn; and the interleaving system.
      A thread of the system is an operation suspended at an [await]; an event
      starts an operation, resumes one with any outcome of the awaited call,
      drops the caller's future, or is one of the unsynchronised writes (arming
      an expiry intent, retiring a registry entry, time). A dropped operation is
      gone, except for the parts that run on spawned tasks ([detach]). [Sys]
      holds the session table, the suspended operations, the holder of the
      [children] mutex and where dropped operations had stopped.
    - [SessionInvariant], [SessionEffects], [SessionLock], [SessionSections],
      [SessionTheorems]: the ownership invariant, its preservation by every
      section and event, the lock and termination arguments, the properties of
      single sections, the properties of reachable states and the runs that
      witness them.
    - [TurnLiveness]: [bridge-core/src/turn_liveness.rs]: the silence and work
      cutoffs, the tracker, display truncation, the board of in-flight turns
      (class [TurnLivenessProbe] is the trait the board reads turns through).
    - [ExecutionPolicy]: [bridge-core/src/execution_policy.rs]: profiles, policy
      resolution, cleanup settlement, cleanup records, the custody contract.
    - [FanOut]: [bridge-workflow/src/fanout.rs]: the fan-out trigger controller.
    - [Scheduler]: [bridge-workflow/src/scheduler_arbitration.rs] and
      [cancellation_settlement.rs].
    - [Checkout]: minted identifiers and frozen worktree checkouts
      ([execution_policy.rs], [ids.rs]) over [SessionCwd].
    - [AttemptActivity]: [bridge-core/src/attempt_activity.rs] and
      [no_progress_warning.rs]: recorders, the bounded tally, turn scopes and the
      warning cadence. The recorder trait is a class; turn scopes are verified
      against its laws, which the two recorders discharge.
    - [Framing]: NDJSON ([bridge-acp/src/framing.rs]), MCP line and LSP
      [Content-Length] frames ([lsp-mcp/src/mcp/transport.rs],
      [lsp-mcp/src/lsp/codec.rs]), the SSE decoder
      ([bridge-a2a-outbound/src/sse.rs]).
    - [Permission], [PermissionFlow]: the permission registry with its channels
      and guards ([bridge-core/src/permission.rs], [bridge-policy]), and the
      request handler racing a cancellation ([bridge-acp/src/acp_backend.rs]).
    - [Fallback]: provider fallback ([bridge-core/src/routing.rs],
      [fallback_runtime.rs]): the decision, the live walk, its durable progress
      and its recovery.
    - [FlightJournal], [ResourceFlight], [FlightFaults], [FlightTheorems],
      [FlightRegistry]: retained resource flights
      ([bridge-core/src/resource_flight.rs], [retained_resource_flight.rs]):
      journal accounting, calls of the file journal that fail before or after
      their row is on disk, every section of a flight as a program of a state and
      error monad, what holds of a flight under all failures, and the registry
      with restarts.
    - [TaskStore], [TaskProgress], [TaskRows]: the task store
      ([bridge-core/src/task_store.rs], the in-memory implementation): tasks,
      attempts, batches, node checkpoints, the orchestration journal, withheld
      terminals; each method is one step, a schedule is a list of them.
    - [Batch]: [bridge-coordinator/src/batch.rs]: roll-ups, settlement by status
      queries under interleaving, cancellation, queue counters.
    - [Lifecycles]: the task and session typestates ([task.rs], [session.rs]),
      the fixed-grace timer, the classifier of mechanical impossibility.
    - [FramePath], [CustodyFrame], [FrameDecode], [FrameAccept], [FrameEncode],
      [FrameSafety], [FrameBounds]: custody coverage frames
      ([bridge-core/src/custody_frame.rs]): paths with their order and the
      streaming order check; the streaming encoder and decoder as programs of a
      state and error monad over scripts of reads and writes; the grammar of
      frames; two-way specifications of the decoder's and the encoder's steps;
      runs after a refusal; the account of what a decoder takes from its source.
    - [DirTxn], [DirLogic], [DirSteps], [DirRecover], [DirDecide], [DirCreate],
      [DirCalls], [DirSafety], [DirCodec], [DirTheorems], [DirInspect]: namespace
      transactions ([bridge-core/src/namespace_transaction.rs], [fs_custody.rs]):
      replacement, retirement, recovery and inspection of one directory entry as
      programs over a directory with system calls that fail or crash; phases of a
      transaction and a crash-aware program logic ([wp]); specifications of every
      step, of recovery and of the calls; histories of calls with faults.
    - [Marker], [MarkerTheory], [MarkerQuote], [Json], [Wrapper], [WrapperTheory],
      [WrapperSystem]: the attesting wrapper between bridge and agent
      ([bin/a2a-bridge/src/acp/attested_wrapper.rs]): the scan for commit markers
      over tagged chunks with the grammar it implements and the quoting that the
      prompt contract asks for; JSON values and the filter of reserved metadata;
      the spooled buffer, turns, the flush; both proxy loops as steps over shared
      state, with a search for a finished turn and what follows it as two steps.
    - [Harvest], [HarvestTheory]: [bridge-core/src/attestation.rs], [harvest.rs]:
      statuses, validation of an attestation, audit records, the store's interface
      (class [RetainsBundles]) and the memory store ([task_store.rs]).
    - [Translator]: [bridge-core/src/translator.rs]: the stream of a backend's
      updates as the stream of a caller's events.
    - [PrefixControl], [TurnStream], [AttestedTurn]: control frames at the bridge;
      its notification handler and the stream of a turn
      ([bridge-acp/src/acp_backend.rs]) with the loop of a node's turn
      ([bridge-workflow/src/executor.rs]); and wrapper, protocol library, bridge
      and node composed (classes [JsonCodec], [NotificationCodec] and [AcpSchema]
      say what the libraries between them promise).

    ** What the theorems show

    - Session ownership: in every interleaving a claimed context has exactly one
      owner, or none and one dropped caller that stranded it, for good, as one
      theorem exhibits; the owner finds its claim when it resumes, two owners
      never use one backend session at once, and the table, tombstones, retry
      capabilities and inject queues stay consistent.
    - Session progress: the [children] mutex has one holder that never waits for
      it, and every operation ends after a bounded number of resumptions.
    - Session sections: armed expiry intents bar successors, late arms are inert,
      every expiry path fires its abort tokens (compaction, which does not, has
      a theorem of its own), stale completions are inert, failed cleanups stay
      retryable, releases sweep children, the reaper takes only expired idle
      sessions, pending work is taken once. One theorem exhibits the release of
      a retired child that overlaps the configuration of its successor.
    - Workflows: graph validation is exact, the terminal collects every node, the
      fingerprint ignores order, back-off is the capped exponential.
    - Liveness: the tracker refines the observation history, overflow of its
      table included, which is safe;
      the board refines the list of live turns. Turn scopes report progress
      exactly, the tally is complete or marked, and no-progress warnings keep
      their cadence whatever else an agent reports.
    - Policy and scheduling: resolved policies keep their promises; the fan-out
      controller stops nodes at most once and survives a restart; arbitration is
      total and accounts for every node; cleanup settles by its deadline and
      never loses its owner; cleanup records follow the documented table.
    - Identities: checkout preimages are injective, frozen targets stay below
      their root, the custody contract is canonical; minted ids parse.
    - Framing: chunking of the input is invisible (of NDJSON, up to the first line
      that is too large; one lemma exhibits what may follow it), written frames
      and events are read back, and reading ends.
    - Permissions: a request is answered once, a guard removes only its own
      entry, a cancellation is never lost to a racing request, and an answer
      selects an option of the decided kind.
    - Fallback: a walk tries each frozen candidate once, under the source's
      posture and only with affirmative replay evidence; publications keep
      earlier evidence; a restart continues where the live walk would have.
    - Flights: one durable result, told once to exactly the owners as long as no
      journal call fails after its row is written, and never twice or otherwise
      whatever fails (one theorem exhibits the result that nobody is told); one
      dispatch behind its intent; one flight per resource across restarts; room
      for the settlement is reserved, with the two cases where it is missing.
    - Task store: the snapshot of the tables is the fold of the journal's rows; a
      reader that folds and then follows misses and repeats nothing; settled
      rows stay, resumes stay within their cap, attempts form one gapless line
      per task, a batch item has one child. One lemma exhibits the snapshot that
      loses its starts while a terminal is withheld.
    - Batches complete only when drained; queue counters are exact. The types of
      a task are its lifecycle; a grace timer fires once, on time.
    - Coverage frames: the decoder accepts exactly the frames of canonical
      entries within its budget, however reads are chunked and contents are
      consumed; the encoder writes exactly these; what is written is read back;
      the order check, which remembers one path and a stack of lengths, is
      exact; refusals are final; no source makes a decoder take more than its
      budget and one byte.
    - Namespace transactions: whatever fails or crashes, a name keeps one of its
      versions in full or a capture does, and no other entry changes; outcomes
      are truthful and completed ones durable; a recovery without faults brings
      the name back; calls without faults complete; an inspection reads exactly
      the captured version.
    - Attested completions: the scan computes the marker grammar whatever the
      chunking; quoted text is read back; a buffer gives its frames back through
      memory or spool; a flush cannot fail and changes text only; a child cannot
      attest anything; turns are linear; a turn has its control frame's status only
      when there was exactly one; a body is cut exactly by an attestation that
      passes every check; a release is audited first and the first one stands. For
      an agent that follows the contract the node's turn releases the deliverable
      alone, or the whole text without the marker where there is no process text
      or it is more than nine tenths.
    - Translation: all text in order in bounded chunks, and one artifact or one
      error at the end. One lemma exhibits usage that overtakes held text.

    ** Choices and bounds

    - Kahn's loop gets the number of nodes as fuel; each round with work left
      removes a node, so validation never runs out ([validate_spec] covers it).
      The reading loops of [Framing] get the bytes and reads left as fuel; each
      round takes one, and the round trip theorems show they never run out.
      The frame codec's loops get the bytes wanted or the size of the source,
      and a session one round per byte: the theorems on frames are about every
      outcome, so they show that this is enough.
      Recovery of a directory calls itself once at most, after it has put a
      capture back; the model unfolds it twice.
      The scan for markers gets a round per byte, the metadata filter the depth of
      its value, [chars] and the chunk loop of the translator a round per byte;
      that each is enough is part of the theorems on them.
      Every other recursion is structural.
    - A method that holds its mutexes from its first check to its last write is
      one step. Journal faults of a flight, what other callers do between the
      store calls of a batch query, and wall clocks are arguments, so the
      theorems hold for all of them. Ordered sets are finite sets.
    - Journal and task sequence numbers are unbounded; usage snapshots, event
      payloads and attempt evidence of the task store are type parameters.
    - Generations, operation numbers and flight numbers of the session manager
      are unbounded naturals instead of [u64]; they only ever grow by one.
      Elsewhere integers are [Z] with the saturating, checked or wrapping
      operation the code uses; a theorem that needs a counter not to wrap says
      so by bounding the number of events.
    - Hash set and map iteration orders are fixed by the finite map library;
      no theorem but the sorted ones depends on them.
    - A cleanup task that the code spawns is a thread of the session system; the
      claims of one sweep run as independent threads. The number of a turn abort
      names both its token and its expiry intent.
    - A journal call that fails has written its whole row or nothing; a torn row
      is not modelled. A flight's settlement and its publication, which follows
      the release of the lock, are one step.
    - A system call is one atomic step; a crash returns a directory to one of its
      states since the last directory sync and cuts file contents no shorter than
      what was synced. Object identities are not reused. Other processes do not
      touch the directory during a call. The JSON of an intent is any encoding
      that is read back and of which no proper beginning is read.
    - A write to a pipe does not fail, and a frame fits a [Vec]; a refusal of the
      file system under the spool is an argument. Sessions of the wrapper are a
      list, searched in any order.
    - The protocol library delivers the notifications of a connection one at a
      time and in order. Evidence sinks and progress counters of a turn are left
      out of its route.
    - SHA-256, the JSON encoder and agent backends are parameters: outcomes of
      backend calls are arbitrary, digests are functions with the hypotheses
      each theorem states (no collision, also only of the ids observed, 32 bytes, a
      total encoder). JSON that is printed is read back; serde_json's limit on
      nesting is left out.

    ** Plan, and what is not modelled

    Left for later: the workflow executor around a node's turn, the batch admission
    driver, preparation and remote request flights, the canonical encodings with
    their truncation loops, the journal root's own writes, custody export and
    restore, the accounting envelope around a translated prompt. The V3 terminal
    rows and the turn log of the task store, the listing of audit bundles and the
    SQLite stores are left out. Network servers, agent processes and their pipes,
    CLI commands, containers, language servers and configuration
    files are I/O around this logic and are not modelled. *)
From Stdlib Require Export ZArith Lia Sorted.
From stdpp Require Export base gmap sets list strings option sorting.

#[global] Set Default Goal Selector "!".
Declare Scope bridge_scope.
Delimit Scope bridge_scope with bridge.

(** ** Rust's [Result] *)
Inductive result (A E : Type) : Type :=
| Ok (a : A)
| Err (e : E).
Arguments Ok {A E} _.
Arguments Err {A E} _.

Definition is_ok {A E} (r : result A E) : bool :=
  match r with Ok _ => true | Err _ => false end.

(** The [?] operator: stop at the first error. *)
Definition result_bind {A B E} (r : result A E) (k : A -> result B E) : result B E :=
  match r with Ok a => k a | Err e => Err e end.

(** [Option::ok_or]. *)
Definition ok_or {A E} (o : option A) (e : E) : result A E :=
  match o with Some a => Ok a | None => Err e end.

Notation "'let?' x := r 'in' k" := (result_bind r (fun x => k))
  (at level 10, x name, r at level 100, k at level 200) : bridge_scope.
Open Scope bridge_scope.

#[global] Instance result_eq_dec {A E} `{EqDecision A, EqDecision E} : EqDecision (result A E).
Proof. solve_decision. Defined.

(** ** Machine integers

    A [u64] (or [u32], [u16], [usize] on a 64-bit target) is a [Z] in range;
    the operations below are the saturating and checked operations of the
    Rust standard library, and wrapping is written out where the code wraps. *)
Open Scope Z_scope.

Definition u64_max : Z := 18446744073709551615.
Definition u32_max : Z := 4294967295.

Definition is_u64 (x : Z) : Prop := 0 <= x <= u64_max.
Definition is_u32 (x : Z) : Prop := 0 <= x <= u32_max.

Definition saturating_add (a b : Z) : Z := Z.min (a + b) u64_max.
Definition saturating_sub (a b : Z) : Z := Z.max (a - b) 0.
Definition saturating_mul (a b : Z) : Z := Z.min (a * b) u64_max.
Definition checked_add (a b : Z) : option Z :=
  if a + b <=? u64_max then Some (a + b) else None.
Definition checked_mul (a b : Z) : option Z :=
  if a * b <=? u64_max then Some (a * b) else None.
Definition saturating_add_u32 (a b : Z) : Z := Z.min (a + b) u32_max.

(** Unfold every machine operation and reflect boolean comparisons, then
    decide linear arithmetic. *)
Ltac machine :=
  unfold is_u64, is_u32, saturating_add, saturating_sub, saturating_mul, saturating_add_u32,
    checked_add, checked_mul, u64_max, u32_max in *;
  repeat match goal with
  | H : context [ (?a <=? ?b)%Z ] |- _ => destruct (Z.leb_spec a b); simplify_eq/=
  | |- context [ (?a <=? ?b)%Z ] => destruct (Z.leb_spec a b); simplify_eq/=
  | H : context [ (?a <? ?b)%Z ] |- _ => destruct (Z.ltb_spec a b); simplify_eq/=
  | |- context [ (?a <? ?b)%Z ] => destruct (Z.ltb_spec a b); simplify_eq/=
  | H : context [ (?a =? ?b)%Z ] |- _ => destruct (Z.eqb_spec a b); simplify_eq/=
  | |- context [ (?a =? ?b)%Z ] => destruct (Z.eqb_spec a b); simplify_eq/=
  end; try lia.

Lemma saturating_add_range a b : is_u64 a -> is_u64 b -> is_u64 (saturating_add a b).
Proof. machine. Qed.
Lemma saturating_sub_range a b : is_u64 a -> is_u64 b -> is_u64 (saturating_sub a b).
Proof. machine. Qed.
Lemma checked_add_some a b c : checked_add a b = Some c -> c = a + b /\ c <= u64_max.
Proof. unfold checked_add. destruct (Z.leb_spec (a + b) u64_max); intros; by simplify_eq. Qed.
Lemma checked_add_none a b : checked_add a b = None <-> u64_max < a + b.
Proof. unfold checked_add. destruct (Z.leb_spec (a + b) u64_max); split; intros; try done; lia. Qed.

Create HintDb bridge discriminated.
#[export] Hint Resolve saturating_add_range saturating_sub_range : bridge.

(** Break every [match]/[if] of the goal or of a hypothesis and clean up. *)
Ltac crush_match :=
  repeat first
    [ progress simplify_eq/=
    | case_match
    | progress case_bool_decide ].

(** ** Byte-wise ordering of strings ([str::cmp]) *)
Fixpoint str_leb (a b : string) : bool :=
  match a, b with
  | EmptyString, _ => true
  | String _ _, EmptyString => false
  | String x a', String y b' =>
      if (Ascii.N_of_ascii x <? Ascii.N_of_ascii y)%N then true
      else if (Ascii.N_of_ascii x =? Ascii.N_of_ascii y)%N then str_leb a' b'
      else false
  end.

Lemma str_leb_total a b : str_leb a b = true \/ str_leb b a = true.
Proof.
  revert b; induction a as [|x a IH]; intros [|y b]; simpl; auto.
  destruct (N.ltb_spec (Ascii.N_of_ascii x) (Ascii.N_of_ascii y)); auto.
  destruct (N.ltb_spec (Ascii.N_of_ascii y) (Ascii.N_of_ascii x)); auto.
  replace (Ascii.N_of_ascii y) with (Ascii.N_of_ascii x) by lia.
  rewrite N.eqb_refl. apply IH.
Qed.

Lemma str_leb_antisym a b : str_leb a b = true -> str_leb b a = true -> a = b.
Proof.
  revert b; induction a as [|x a IH]; intros [|y b]; simpl; try done.
  destruct (N.ltb_spec (Ascii.N_of_ascii x) (Ascii.N_of_ascii y));
    destruct (N.ltb_spec (Ascii.N_of_ascii y) (Ascii.N_of_ascii x)); try lia;
    destruct (N.eqb_spec (Ascii.N_of_ascii x) (Ascii.N_of_ascii y)) as [E|E];
    destruct (N.eqb_spec (Ascii.N_of_ascii y) (Ascii.N_of_ascii x)); try done; try lia.
  intros. f_equal; auto.
  rewrite <- (Ascii.ascii_N_embedding x), <- (Ascii.ascii_N_embedding y), E. done.
Qed.

Lemma str_leb_trans a b c : str_leb a b = true -> str_leb b c = true -> str_leb a c = true.
Proof.
  revert b c; induction a as [|x a IH]; intros [|y b] [|z c]; simpl; try done.
  destruct (N.ltb_spec (Ascii.N_of_ascii x) (Ascii.N_of_ascii y));
    destruct (N.ltb_spec (Ascii.N_of_ascii y) (Ascii.N_of_ascii z));
    destruct (N.ltb_spec (Ascii.N_of_ascii x) (Ascii.N_of_ascii z));
    destruct (N.eqb_spec (Ascii.N_of_ascii x) (Ascii.N_of_ascii y));
    destruct (N.eqb_spec (Ascii.N_of_ascii y) (Ascii.N_of_ascii z));
    destruct (N.eqb_spec (Ascii.N_of_ascii x) (Ascii.N_of_ascii z)); try done; try lia; eauto.
Qed.

(** ** [slice::sort_by]: a stable sort by a total preorder *)
Section StableSort.
Context {A : Type} (leb : A -> A -> bool).

Fixpoint insert_sorted (x : A) (l : list A) : list A :=
  match l with
  | [] => [x]
  | y :: l' => if leb x y then x :: y :: l' else y :: insert_sorted x l'
  end.

Definition sort_by (l : list A) : list A := foldr insert_sorted [] l.

Lemma insert_sorted_perm x l : insert_sorted x l ≡ₚ x :: l.
Proof.
  induction l as [|y l IH]; simpl; [done|].
  destruct (leb x y); [done|]. rewrite IH. constructor.
Qed.

Lemma sort_by_perm l : sort_by l ≡ₚ l.
Proof. induction l as [|x l IH]; simpl; [done|]. by rewrite insert_sorted_perm, IH. Qed.

Lemma sort_by_elem x l : x ∈ sort_by l <-> x ∈ l.
Proof. by rewrite sort_by_perm. Qed.

Lemma sort_by_length l : length (sort_by l) = length l.
Proof. by rewrite sort_by_perm. Qed.

Context (leb_total : forall a b, leb a b = true \/ leb b a = true).
Context (leb_trans : forall a b c, leb a b = true -> leb b c = true -> leb a c = true).

Lemma insert_sorted_sorted x l :
  StronglySorted (fun a b => leb a b = true) l ->
  StronglySorted (fun a b => leb a b = true) (insert_sorted x l).
Proof.
  induction 1 as [|y l Hl IH Hy]; simpl; [repeat constructor|].
  destruct (leb x y) eqn:E.
  - constructor; [by constructor|]. constructor; [done|].
    eapply Forall_impl; [exact Hy|]. simpl; eauto.
  - constructor; [done|]. rewrite insert_sorted_perm. constructor; [|done].
    destruct (leb_total x y); congruence.
Qed.

Lemma sort_by_sorted l : StronglySorted (fun a b => leb a b = true) (sort_by l).
Proof. induction l; simpl; [constructor|]. by apply insert_sorted_sorted. Qed.

Lemma sort_by_idem l : sort_by (sort_by l) = sort_by l.
Proof.
  induction (sort_by_sorted l) as [|x l' Hl IH Hx]; simpl; [done|]. rewrite IH.
  destruct Hx as [|y l'' Hy _]; simpl; [done|]. by rewrite Hy.
Qed.
End StableSort.

(** ** Lists and finite sets *)
Lemma nodup_fmap_inj {A B} (f : A -> B) l x y :
  NoDup (f <$> l) -> x ∈ l -> y ∈ l -> f x = f y -> x = y.
Proof.
  intros Hn (i & Hi)%list_elem_of_lookup (j & Hj)%list_elem_of_lookup E.
  assert (i = j) as ->; [|congruence].
  eapply NoDup_lookup; [exact Hn|by rewrite list_lookup_fmap, Hi|by rewrite list_lookup_fmap, Hj, E].
Qed.

Lemma filter_all {A} (Q : A -> Prop) `{forall x, Decision (Q x)} l : Forall Q l -> filter Q l = l.
Proof. induction 1; [done|]. by rewrite filter_cons_True, IHForall. Qed.

Lemma size_list_to_set_le `{Countable K} (l : list K) :
  (size (list_to_set (C:=gset K) l) <= length l)%nat.
Proof.
  induction l as [|k l IH]; [by rewrite list_to_set_nil, size_empty|].
  rewrite list_to_set_cons, size_union_alt, size_singleton.
  pose proof (subseteq_size (list_to_set (C:=gset K) l ∖ {[k]}) (list_to_set l)) as Hs.
  specialize (Hs ltac:(set_solver)). cbn [length]. lia.
Qed.

Lemma strongly_sorted_impl {A} (R1 R2 : A -> A -> Prop) l :
  StronglySorted R1 l -> (forall a b, R1 a b -> R2 a b) -> StronglySorted R2 l.
Proof. induction 1 as [|a l Hl IH Ha]; intros Hi; constructor; [auto|]. by eapply Forall_impl; [exact Ha|auto]. Qed.

(** [slice::windows(2).any(..)]. *)
Fixpoint any_adjacent {A} (f : A -> A -> bool) (l : list A) : bool :=
  match l with
  | a :: (b :: _) as l' => f a b || any_adjacent f l'
  | _ => false
  end.

(** In a list sorted by a string key, comparing neighbours finds repeated keys. *)
Lemma sorted_adjacent_nodup {A} (key : A -> string) l :
  StronglySorted (fun a b => str_leb (key a) (key b) = true) l ->
  any_adjacent (fun a b => String.eqb (key a) (key b)) l = false <-> NoDup (key <$> l).
Proof.
  induction 1 as [|a l Hl IH Ha]; [split; [constructor|done]|].
  destruct l as [|b l]; [split; [intros _; apply NoDup_singleton|done]|].
  cbn [any_adjacent]. rewrite orb_false_iff, IH, !fmap_cons, (NoDup_cons (key a)), String.eqb_neq.
  split; intros [Hab Hn]; (split; [|done]); [|set_solver].
  intros [|Hin]%elem_of_cons; [done|]. apply list_elem_of_fmap in Hin as (c & Ec & Hin).
  apply Forall_cons in Ha as [Hab' _]. apply StronglySorted_inv in Hl as [_ Hb].
  rewrite Forall_forall in Hb. apply Hab, str_leb_antisym; [done|]. rewrite Ec. by apply Hb.
Qed.

(** ** Labelled transition systems

    The state machines below are executable step functions; reachability and
    the induction principle for invariants are shared. *)
Section Transitions.
Context {S E : Type} (step : S -> E -> S).

Definition run (s : S) (es : list E) : S := foldl step s es.

Definition reachable (init : S -> Prop) (s : S) : Prop :=
  exists s0 es, init s0 /\ s = run s0 es.

Lemma run_app s es1 es2 : run s (es1 ++ es2) = run (run s es1) es2.
Proof. apply foldl_app. Qed.

Lemma run_snoc s es e : run s (es ++ [e]) = step (run s es) e.
Proof. by rewrite run_app. Qed.

Lemma run_invariant (P : S -> Prop) :
  (forall s e, P s -> P (step s e)) -> forall es s, P s -> P (run s es).
Proof. intros Hstep es. induction es; simpl; eauto. Qed.

Lemma reachable_invariant (init P : S -> Prop) :
  (forall s, init s -> P s) -> (forall s e, P s -> P (step s e)) ->
  forall s, reachable init s -> P s.
Proof. intros Hi Hs s (s0 & es & H0 & ->). by apply run_invariant, Hi. Qed.
End Transitions.

(** ** Text *)

(** [str::trim().is_empty()] on UTF-8 text: the [White_Space] code points are
    9-13 and 32, then U+0085, U+00A0, U+1680, U+2000-200A, U+2028, U+2029,
    U+202F, U+205F and U+3000. *)
Fixpoint all_white_space (s : string) : bool :=
  let n c := Ascii.N_of_ascii c in
  match s with
  | EmptyString => true
  | String a s1 =>
      if bool_decide (n a ∈ [9; 10; 11; 12; 13; 32]%N) then all_white_space s1 else
      match s1 with
      | EmptyString => false
      | String b s2 =>
          if bool_decide (n a = 194%N) && bool_decide (n b ∈ [133; 160]%N) then all_white_space s2 else
          match s2 with
          | EmptyString => false
          | String c s3 =>
              if (bool_decide (n a = 225%N) && bool_decide (n b = 154%N) && bool_decide (n c = 128%N))
                 || (bool_decide (n a = 226%N) && bool_decide (n b = 128%N)
                     && bool_decide (n c ∈ [128; 129; 130; 131; 132; 133; 134; 135; 136; 137; 138;
                                            168; 169; 175]%N))
                 || (bool_decide (n a = 226%N) && bool_decide (n b = 129%N) && bool_decide (n c = 159%N))
                 || (bool_decide (n a = 227%N) && bool_decide (n b = 128%N) && bool_decide (n c = 128%N))
              then all_white_space s3 else false
          end
      end
  end.
