(* ===== verification/Domain.v ===== *)
(** * Domain types shared by every component

    The identifiers ([bridge-core/src/ids.rs]), the effective agent
    configuration ([domain.rs]), the frozen session fingerprint
    ([session_fingerprint.rs]) and the error taxonomy with its closed
    classifications ([error.rs]). *)
From S2P Require Import Prelude.
From stdpp Require Import pretty.
Open Scope Z_scope.
Open Scope bridge_scope.

(** ** Errors ([error.rs]) *)
Inductive A2aState :=
| A2aSubmitted | A2aWorking | A2aInputRequired | A2aAuthRequired
| A2aCompleted | A2aFailed | A2aCanceled.

Inductive A2aDisposition :=
| RejectRequest
| SetState (s : A2aState).

Inductive DiagnosticFailureClass :=
| ClsConfig | ClsAuthentication | ClsModel | ClsProtocol | ClsTransport | ClsAgentProcess
| ClsContainerRuntime | ClsContainerImage | ClsContainerNetwork | ClsContainerMount
| ClsContainerCredentials | ClsTimeout | ClsOverloaded | ClsQuotaExhausted
| ClsRegionRestricted | ClsBillingFailure | ClsRateLimited | ClsProviderLimit
| ClsPersistence | ClsCanceled | ClsUnknown.

Inductive FailureDisposition :=
| Fatal | RetrySameTarget | ContainerFallbackCandidate.

(** The three fields of [FailureDiagnostic] that the modelled code reads; the
    remaining fields are display text. *)
Record FailureDiagnostic := mkDiagnostic {
  fd_class : DiagnosticFailureClass;
  fd_disposition : FailureDisposition;
  fd_prompt_may_have_been_accepted : bool }.

(** [BudgetRefused] carries a boxed refusal record that no modelled function
    opens; it is kept as an opaque reference. *)
Inductive BridgeError :=
| A2aVersionMismatch
| InvalidRequest (field : string)
| IdentityUnavailable
| DurableEvidenceUnavailable (reason : string)
| TaskNotFound
| SessionNotFound
| ConfigMismatch (field : string)
| ConfigReseedRequired (field : string)
| BoundSessionUnsupported
| BindUnsupported
| ResourceFlightUnsupported
| SessionExpired
| HandleBusy
| AuthRequired (request_id : string)
| PermissionRequired (request_id : string)
| PermissionDenied
| AgentNotAuthenticated
| ModelNotAvailable
| CancelTimeout
| AgentTimedOut
| FrameError
| MissingTerminal
| MessageTooLarge
| EmptyFinal
| AgentCrashed (reason : string)
| AgentFailure (diagnostic : FailureDiagnostic)
| AgentOverloaded
| UpstreamA2aError
| BudgetRefused (refusal : N)
| StoreFailure
| HarvestAuditPersistFailed (audit_id : string)
| InvalidStateTransition
| UnknownAgent (id : string)
| ConfigInvalid (reason : string)
| TaskSpecInvalid (message : string).

#[global] Instance failure_class_eq_dec : EqDecision DiagnosticFailureClass.
Proof. solve_decision. Defined.
#[global] Instance failure_disposition_eq_dec : EqDecision FailureDisposition.
Proof. solve_decision. Defined.
#[global] Instance failure_diagnostic_eq_dec : EqDecision FailureDiagnostic.
Proof. solve_decision. Defined.
#[global] Instance bridge_error_eq_dec : EqDecision BridgeError.
Proof. solve_decision. Defined.

Inductive WarmSessionSurvivability := PreserveOwnerBehavior | Expire.

Definition warm_session_survivability (error : BridgeError) : WarmSessionSurvivability :=
  match error with
  | DurableEvidenceUnavailable _ => Expire
  | AgentFailure diagnostic =>
      match fd_class diagnostic with
      | ClsConfig | ClsAuthentication | ClsModel | ClsProtocol | ClsTransport | ClsAgentProcess
      | ClsContainerRuntime | ClsContainerImage | ClsContainerNetwork | ClsContainerMount
      | ClsContainerCredentials | ClsTimeout | ClsOverloaded | ClsQuotaExhausted
      | ClsRegionRestricted | ClsBillingFailure | ClsRateLimited | ClsProviderLimit
      | ClsPersistence | ClsCanceled | ClsUnknown => Expire
      end
  | EmptyFinal | MissingTerminal => Expire
  | _ => PreserveOwnerBehavior
  end.

Definition disposition (error : BridgeError) : A2aDisposition :=
  match error with
  | A2aVersionMismatch | InvalidRequest _ | TaskNotFound | SessionNotFound | ConfigMismatch _
  | ConfigReseedRequired _ | ResourceFlightUnsupported | SessionExpired | HandleBusy => RejectRequest
  | IdentityUnavailable | DurableEvidenceUnavailable _ => RejectRequest
  | AuthRequired _ | AgentNotAuthenticated => SetState A2aAuthRequired
  | PermissionRequired _ => SetState A2aInputRequired
  | CancelTimeout => SetState A2aCanceled
  | TaskSpecInvalid _ => RejectRequest
  | _ => SetState A2aFailed
  end.

Definition is_resumable (error : BridgeError) : bool :=
  match error with AuthRequired _ | PermissionRequired _ => true | _ => false end.

Definition is_transient (error : BridgeError) : bool :=
  match error with
  | AgentFailure diagnostic =>
      match fd_disposition diagnostic with
      | Fatal => false | RetrySameTarget => true | ContainerFallbackCandidate => false
      end
  | AgentCrashed _ | AgentOverloaded | AgentTimedOut => true
  | _ => false
  end.

(** ** Identifiers ([ids.rs]) *)
Definition is_ascii_lowercase (c : Ascii.ascii) : bool :=
  ((97 <=? Ascii.N_of_ascii c) && (Ascii.N_of_ascii c <=? 122))%N.
Definition is_ascii_uppercase (c : Ascii.ascii) : bool :=
  ((65 <=? Ascii.N_of_ascii c) && (Ascii.N_of_ascii c <=? 90))%N.
Definition is_ascii_digit (c : Ascii.ascii) : bool :=
  ((48 <=? Ascii.N_of_ascii c) && (Ascii.N_of_ascii c <=? 57))%N.

(** [str::bytes().all(f)]. *)
Fixpoint bytes_all (f : Ascii.ascii -> bool) (s : string) : bool :=
  match s with EmptyString => true | String c s' => f c && bytes_all f s' end.

(** [id_newtype!]: [TaskId], [SessionId], [AgentId], [OperationId], [ContextId], ... *)
Definition id_parse (type_name : string) (s : string) : result string BridgeError :=
  if String.eqb s "" then Err (InvalidRequest type_name) else Ok s.

(** [id_newtype_strict!]: [WorkflowId], [NodeId]. *)
Definition id_strict_byte (c : Ascii.ascii) : bool :=
  is_ascii_lowercase c || is_ascii_digit c
  || (Ascii.N_of_ascii c =? 95)%N || (Ascii.N_of_ascii c =? 45)%N.
Definition id_strict_parse (type_name : string) (s : string) : result string BridgeError :=
  if String.eqb s "" || negb (bytes_all id_strict_byte s)
  then Err (InvalidRequest type_name) else Ok s.

(** [str::strip_prefix]. *)
Fixpoint strip_prefix (p s : string) : option string :=
  match p, s with
  | EmptyString, _ => Some s
  | String a p', String b s' => if Ascii.eqb a b then strip_prefix p' s' else None
  | _, EmptyString => None
  end.

(** [format!("{byte:02x}")], for a byte given as a number below 256. *)
Definition hex_digit (n : N) : Ascii.ascii :=
  Ascii.ascii_of_N (if (n <? 10)%N then 48 + n else 87 + n)%N.
Definition hex_byte (b : N) : string :=
  String (hex_digit (b / 16)) (String (hex_digit (b mod 16)) EmptyString).
Definition hex_bytes (bytes : list N) : string := foldr (fun b s => hex_byte b +:+ s) "" bytes.

Definition is_hex_lower (c : Ascii.ascii) : bool :=
  is_ascii_digit c || ((97 <=? Ascii.N_of_ascii c) && (Ascii.N_of_ascii c <=? 102))%N.
Definition is_zero_digit (c : Ascii.ascii) : bool := (Ascii.N_of_ascii c =? 48)%N.

(** [high_entropy_id!]: the identifier [PREFIX ++ 32 hex digits] minted from 16
    random bytes, and its parser. *)
Definition high_entropy_mint (prefix : string) (bytes : list N) : string :=
  prefix +:+ hex_bytes bytes.
Definition high_entropy_parse (prefix field value : string) : result string BridgeError :=
  let? suffix := ok_or (strip_prefix prefix value) (InvalidRequest field) in
  if negb (String.length value =? String.length prefix + 32)%nat
     || bytes_all is_zero_digit suffix
     || negb (bytes_all is_hex_lower suffix)
  then Err (InvalidRequest field)
  else Ok value.

(** [AttemptIdentity]; [resume] is given the freshly minted attempt id. *)
Record AttemptIdentity := mkAttemptIdentity {
  execution_id : string;
  attempt_id : string;
  ordinal : Z;
  parent_attempt_id : option string }.

Definition attempt_identity_resume (self : AttemptIdentity) (minted : string)
  : result AttemptIdentity BridgeError :=
  if u32_max <? ordinal self + 1
  then Err (InvalidRequest "attempt ordinal overflow")
  else Ok {| execution_id := execution_id self; attempt_id := minted;
             ordinal := ordinal self + 1; parent_attempt_id := Some (attempt_id self) |}.

(** ** Agent configuration ([domain.rs]) *)
Inductive Effort := EMinimal | ELow | EMedium | EHigh | EXhigh | EMax.
#[global] Instance effort_eq_dec : EqDecision Effort.
Proof. solve_decision. Defined.

(** The lower-case name of an effort level, as the bridge prints it. *)
Definition effort_name (e : Effort) : string :=
  match e with
  | EMinimal => "minimal" | ELow => "low" | EMedium => "medium"
  | EHigh => "high" | EXhigh => "xhigh" | EMax => "max"
  end.

Record AgentOverride := mkOverride {
  ov_model : option string; ov_effort : option Effort; ov_mode : option string }.
Record EffectiveConfig := mkConfig {
  model : option string; effort : option Effort; mode : option string }.
#[global] Instance effective_config_eq_dec : EqDecision EffectiveConfig.
Proof. solve_decision. Defined.

(** The three defaults of a registry entry that configuration reads. *)
Record AgentEntry := mkEntry {
  entry_model : option string; entry_effort : option Effort; entry_mode : option string }.
#[global] Instance agent_entry_eq_dec : EqDecision AgentEntry.
Proof. solve_decision. Defined.

Definition effective_config (entry : AgentEntry) (ov : option AgentOverride) : EffectiveConfig :=
  let eff := {| model := entry_model entry; effort := entry_effort entry; mode := entry_mode entry |} in
  match ov with
  | None => eff
  | Some o =>
      {| model := match ov_model o with Some _ => ov_model o | None => model eff end;
         effort := match ov_effort o with Some _ => ov_effort o | None => effort eff end;
         mode := match ov_mode o with Some _ => ov_mode o | None => mode eff end |}
  end.

(** ** Session fingerprints ([session_fingerprint.rs]) *)
Record SessionSpecFingerprint := mkFingerprint {
  fp_agent : string; fp_config : EffectiveConfig; fp_cwd : option string }.
#[global] Instance fingerprint_eq_dec : EqDecision SessionSpecFingerprint.
Proof. solve_decision. Defined.

Definition first_mismatch (self other : SessionSpecFingerprint) : option string :=
  if bool_decide (fp_agent self <> fp_agent other) then Some "agent"
  else if bool_decide (model (fp_config self) <> model (fp_config other)) then Some "model"
  else if bool_decide (effort (fp_config self) <> effort (fp_config other)) then Some "effort"
  else if bool_decide (mode (fp_config self) <> mode (fp_config other)) then Some "mode"
  else if bool_decide (fp_cwd self <> fp_cwd other) then Some "cwd"
  else None.

Definition diff (self other : SessionSpecFingerprint) : list string :=
  (if bool_decide (fp_agent self <> fp_agent other) then ["agent"] else [])
  ++ (if bool_decide (model (fp_config self) <> model (fp_config other)) then ["model"] else [])
  ++ (if bool_decide (effort (fp_config self) <> effort (fp_config other)) then ["effort"] else [])
  ++ (if bool_decide (mode (fp_config self) <> mode (fp_config other)) then ["mode"] else [])
  ++ (if bool_decide (fp_cwd self <> fp_cwd other) then ["cwd"] else []).

Lemma diff_nil_iff self other : diff self other = [] <-> self = other.
Proof.
  destruct self as [a [m e o] c], other as [a' [m' e' o'] c']; unfold diff; simpl.
  split.
  - repeat case_bool_decide; simpl; intros; simplify_eq; try done.
    all: repeat match goal with H : ¬ (?x <> ?y) |- _ => apply dec_stable in H; subst end; done.
  - intros ?; simplify_eq. by rewrite !bool_decide_eq_false_2 by (intros H; by apply H).
Qed.
#[export] Hint Rewrite diff_nil_iff : bridge.

(** ** String facts *)
Lemma strip_prefix_app p s : strip_prefix p (p +:+ s) = Some s.
Proof. induction p as [|a p IH]; simpl; [done|]. by rewrite Ascii.eqb_refl. Qed.

Lemma string_length_app p s : String.length (p +:+ s) = (String.length p + String.length s)%nat.
Proof. induction p; simpl; auto. Qed.

Lemma bytes_all_app f p s : bytes_all f (p +:+ s) = bytes_all f p && bytes_all f s.
Proof. induction p as [|a p IH]; simpl; [done|]. by rewrite IH, andb_assoc. Qed.

Lemma string_app_nil s : s +:+ "" = s.
Proof. induction s as [|c s IH]; [done|]. change (String c (s +:+ "") = String c s). by rewrite IH. Qed.
