(* ===== verification/WorkflowGraph.v ===== *)
(** * Workflow graphs ([bridge-core/src/graph.rs])

    The workflow DAG, its validator (Kahn's algorithm), the retry back-off and
    the canonical text behind the workload fingerprint. *)
From S2P Require Import Prelude Domain.
From stdpp Require Import pretty relations.
Open Scope Z_scope.
Open Scope bridge_scope.

(** ** Data *)
Record RetryPolicy := mkRetryPolicy {
  max_attempts : Z; backoff_ms : Z; backoff_cap_ms : option Z }.

(** The two variants of [HarvestSanitizationMode]. *)
Inductive HarvestSanitizationMode := HarvestOff | AttestedPrefixV1.

Record WorkflowNode := mkNode {
  node_id : string;
  node_agent : string;
  node_model : option string;
  node_effort : option Effort;
  node_mode : option string;
  prompt_template : string;
  inputs : list string;
  retry : option RetryPolicy;
  harvest_sanitization : option HarvestSanitizationMode }.

(** A panel weight is an [f64]; only its bit pattern is read. The map is a
    [BTreeMap], here its key-sorted association list. *)
Record PanelConfig := mkPanel { weights : list (string * N) }.

Record WorkflowGraph := mkGraph {
  graph_id : string; nodes : list WorkflowNode; panel : option PanelConfig }.

Inductive WorkflowError :=
| Empty
| DuplicateNode (id : string)
| UnknownInput (node input : string)
| Cyclic
| NotSingleTerminal (n : nat).

(** ** Retry back-off *)
Definition attempts (self : RetryPolicy) : Z := Z.max (max_attempts self) 1.

Definition backoff_for (self : RetryPolicy) (attempt : Z) : Z :=
  let cap := default 30000 (backoff_cap_ms self) in
  let shift := saturating_sub attempt 1 in
  let base := if 64 <=? shift then u64_max
              else saturating_mul (backoff_ms self) (Z.shiftl 1 shift) in
  Z.min base cap.

(** ** Validation *)
Definition referenced (g : WorkflowGraph) : list string := nodes g ≫= inputs.

Definition is_terminal (g : WorkflowGraph) (n : WorkflowNode) : bool :=
  bool_decide (node_id n ∉ referenced g).

Fixpoint check_unique (seen : gset string) (ns : list WorkflowNode) : result unit WorkflowError :=
  match ns with
  | [] => Ok tt
  | n :: ns' =>
      if bool_decide (node_id n ∈ seen) then Err (DuplicateNode (node_id n))
      else check_unique ({[node_id n]} ∪ seen) ns'
  end.

Fixpoint check_node_inputs (ids : gset string) (node : string) (ins : list string)
  : result unit WorkflowError :=
  match ins with
  | [] => Ok tt
  | i :: ins' => if bool_decide (i ∈ ids) then check_node_inputs ids node ins'
                 else Err (UnknownInput node i)
  end.

Fixpoint check_inputs (ids : gset string) (ns : list WorkflowNode) : result unit WorkflowError :=
  match ns with
  | [] => Ok tt
  | n :: ns' => let? _ := check_node_inputs ids (node_id n) (inputs n) in check_inputs ids ns'
  end.

(** One round of Kahn's loop: the ids whose inputs are all done. *)
Definition kahn_ready (done : gset string) (remaining : list WorkflowNode) : list string :=
  node_id <$> filter (fun n => Forall (fun i => i ∈ done) (inputs n)) remaining.

(** The [while] loop of [assert_acyclic], bounded by [fuel]; [None] would be
    running out of fuel, which [kahn_fuel] excludes. *)
Fixpoint kahn (fuel : nat) (done : gset string) (remaining : list WorkflowNode)
  : option (result unit WorkflowError) :=
  match remaining with
  | [] => Some (Ok tt)
  | _ :: _ =>
      match fuel with
      | O => None
      | S fuel' =>
          let ready := kahn_ready done remaining in
          match ready with
          | [] => Some (Err Cyclic)
          | _ :: _ =>
              kahn fuel' (list_to_set ready ∪ done)
                   (filter (fun n => node_id n ∉ ready) remaining)
          end
      end
  end.

Definition assert_acyclic (g : WorkflowGraph) : option (result unit WorkflowError) :=
  kahn (length (nodes g)) ∅ (nodes g).

Definition terminal_count (g : WorkflowGraph) : nat :=
  length (filter (fun n => is_terminal g n = true) (nodes g)).

Definition validate (g : WorkflowGraph) : option (result unit WorkflowError) :=
  match nodes g with
  | [] => Some (Err Empty)
  | _ :: _ =>
      match check_unique ∅ (nodes g) with
      | Err e => Some (Err e)
      | Ok _ =>
          match check_inputs (list_to_set (node_id <$> nodes g)) (nodes g) with
          | Err e => Some (Err e)
          | Ok _ =>
              match assert_acyclic g with
              | Some (Ok _) =>
                  if (terminal_count g =? 1)%nat then Some (Ok tt)
                  else Some (Err (NotSingleTerminal (terminal_count g)))
              | r => r
              end
          end
      end
  end.

Definition terminal (g : WorkflowGraph) : option WorkflowNode :=
  snd <$> list_find (fun n => is_terminal g n = true) (nodes g).

(** ** Specification *)

(** [edge g a b]: node [b] reads the output of node [a]. *)
Definition edge (g : WorkflowGraph) (a b : string) : Prop :=
  exists n, n ∈ nodes g /\ node_id n = b /\ a ∈ inputs n.

Record well_formed (g : WorkflowGraph) : Prop := {
  wf_nonempty : nodes g <> [];
  wf_unique : NoDup (node_id <$> nodes g);
  wf_closed : forall n i, n ∈ nodes g -> i ∈ inputs n -> i ∈ node_id <$> nodes g;
  wf_acyclic : forall x, ~ tc (edge g) x x;
  wf_terminal : terminal_count g = 1%nat }.

(** ** Uniqueness and closure *)
Lemma check_unique_ok seen ns :
  check_unique seen ns = Ok tt <->
  NoDup (node_id <$> ns) /\ (forall x, x ∈ node_id <$> ns -> x ∉ seen).
Proof.
  revert seen; induction ns as [|n ns IH]; intros seen; simpl.
  - split; [intros _; split; [constructor|set_solver]|done].
  - rewrite NoDup_cons. case_bool_decide as E.
    + split; [done|]. intros [_ H]. exfalso. eapply H; [left|done].
    + rewrite IH. split.
      * intros [Hnd H]. split; [split|]; [|done|].
        -- intros Hin. eapply H; [exact Hin|set_solver].
        -- intros x [->|Hx]%elem_of_cons; [done|]. specialize (H x Hx). set_solver.
      * intros [[Hni Hnd] H]. split; [done|]. intros x Hx [->%elem_of_singleton|Hs]%elem_of_union;
          [done|]. eapply H; [right; exact Hx|done].
Qed.

Lemma check_node_inputs_ok ids node ins :
  check_node_inputs ids node ins = Ok tt <-> Forall (fun i => i ∈ ids) ins.
Proof.
  induction ins as [|i ins IH]; simpl; [by split|].
  rewrite Forall_cons. case_bool_decide; [rewrite IH; tauto|]. split; [done|tauto].
Qed.

Lemma check_inputs_ok ids ns :
  check_inputs ids ns = Ok tt <-> (forall n i, n ∈ ns -> i ∈ inputs n -> i ∈ ids).
Proof.
  induction ns as [|n ns IH]; simpl; [split; [set_solver|done]|].
  destruct (check_node_inputs ids (node_id n) (inputs n)) as [[]|e] eqn:E; simpl.
  - apply check_node_inputs_ok in E. rewrite Forall_forall in E. rewrite IH. set_solver.
  - split; [done|]. intros H. assert (check_node_inputs ids (node_id n) (inputs n) = Ok tt) as E'.
    { apply check_node_inputs_ok, Forall_forall. set_solver. }
    congruence.
Qed.

(** ** Kahn's algorithm *)
Lemma node_id_inj g n n' :
  NoDup (node_id <$> nodes g) -> n ∈ nodes g -> n' ∈ nodes g -> node_id n = node_id n' -> n = n'.
Proof.
  generalize (nodes g) as ns. induction ns as [|m ns IH]; [set_solver|].
  rewrite fmap_cons, NoDup_cons. intros [Hm Hnd] [->|Hn]%elem_of_cons [->|Hn']%elem_of_cons E; auto.
  - exfalso. apply Hm. rewrite E. by apply list_elem_of_fmap_2.
  - exfalso. apply Hm. rewrite <- E. by apply list_elem_of_fmap_2.
Qed.

Section Kahn.
Context (g : WorkflowGraph).
Context (Huniq : NoDup (node_id <$> nodes g)).
Context (Hclosed : forall n i, n ∈ nodes g -> i ∈ inputs n -> i ∈ node_id <$> nodes g).

(** The loop invariant: [done] and [remaining] partition the nodes. *)
Definition kahn_inv (done : gset string) (remaining : list WorkflowNode) : Prop :=
  (forall n, n ∈ remaining -> n ∈ nodes g /\ node_id n ∉ done) /\
  (forall n, n ∈ nodes g -> node_id n ∈ done \/ n ∈ remaining).

Lemma kahn_inv_init : kahn_inv ∅ (nodes g).
Proof. split; set_solver. Qed.

Lemma kahn_ready_elem done remaining x :
  x ∈ kahn_ready done remaining <->
  exists n, n ∈ remaining /\ node_id n = x /\ Forall (fun i => i ∈ done) (inputs n).
Proof.
  unfold kahn_ready. rewrite list_elem_of_fmap. setoid_rewrite list_elem_of_filter. naive_solver.
Qed.

Lemma kahn_inv_step done remaining :
  kahn_inv done remaining ->
  kahn_inv (list_to_set (kahn_ready done remaining) ∪ done)
           (filter (fun n => node_id n ∉ kahn_ready done remaining) remaining).
Proof.
  intros [H1 H2]. split.
  - intros n [Hni Hn]%list_elem_of_filter. destruct (H1 n Hn). split; [done|].
    rewrite elem_of_union, elem_of_list_to_set. tauto.
  - intros n Hn. rewrite elem_of_union, elem_of_list_to_set, list_elem_of_filter.
    destruct (H2 n Hn); [tauto|].
    destruct (decide (node_id n ∈ kahn_ready done remaining)); tauto.
Qed.

Lemma kahn_fuel fuel done remaining :
  (length remaining <= fuel)%nat -> is_Some (kahn fuel done remaining).
Proof.
  revert done remaining; induction fuel as [|fuel IH]; intros done [|n ns] Hlen; simpl in *;
    try done; try lia.
  destruct (kahn_ready done (n :: ns)) as [|x xs] eqn:E; [done|].
  apply IH. assert (x ∈ kahn_ready done (n :: ns)) as Hx by (rewrite E; left).
  apply kahn_ready_elem in Hx as (m & Hm & <- & _).
  apply Nat.lt_succ_r, (Nat.lt_le_trans _ (length (n :: ns))); [|simpl; lia].
  eapply length_filter_lt; [exact Hm|]. intros H. apply H. left.
Qed.

Lemma kahn_sound fuel done remaining :
  kahn_inv done remaining -> (forall x, x ∈ done -> Acc (edge g) x) ->
  kahn fuel done remaining = Some (Ok tt) ->
  forall n, n ∈ nodes g -> Acc (edge g) (node_id n).
Proof.
  revert done remaining; induction fuel as [|fuel IH]; intros done [|n ns] Hinv Hacc Hk m Hm;
    simpl in Hk; try discriminate Hk.
  - destruct Hinv as [_ H2]. destruct (H2 m Hm); [eauto|set_solver].
  - destruct Hinv as [_ H2]. destruct (H2 m Hm); [eauto|set_solver].
  - destruct (kahn_ready done (n :: ns)) as [|x xs] eqn:E; [discriminate Hk|].
    eapply IH; [| |exact Hk|exact Hm].
    + rewrite <- E. by apply kahn_inv_step.
    + rewrite <- E. intros y [Hy|Hy]%elem_of_union; [|eauto].
      apply elem_of_list_to_set, kahn_ready_elem in Hy as (k & Hk' & <- & Hin).
      constructor. intros z (k' & Hk1 & Hk2 & Hz).
      assert (k' = k) as -> by (apply (node_id_inj g); [done|done|by apply Hinv|done]).
      rewrite Forall_forall in Hin. eauto.
Qed.

Lemma edge_source x y : edge g x y -> x ∈ node_id <$> nodes g.
Proof. intros (n & Hn & _ & Hx). eauto. Qed.
Lemma edge_target x y : edge g x y -> y ∈ node_id <$> nodes g.
Proof. intros (n & Hn & <- & _). by apply list_elem_of_fmap_2. Qed.

Lemma tc_flip_edge x y : tc (flip (edge g)) x y -> tc (edge g) y x.
Proof. induction 1; [by apply tc_once|]. eapply tc_r; eauto. Qed.
Lemma tc_edge_source x y : tc (edge g) x y -> x ∈ node_id <$> nodes g.
Proof. destruct 1; eauto using edge_source. Qed.
Lemma tc_edge_last x y : tc (edge g) x y -> exists z, rtc (edge g) x z /\ edge g z y.
Proof.
  induction 1 as [x y H|x y z H _ (w & Hw & Hwz)]; [by exists x|].
  exists w. split; [by eapply rtc_l|done].
Qed.
Lemma acc_no_loop x : Acc (edge g) x -> ~ tc (edge g) x x.
Proof.
  induction 1 as [x _ IH]. intros Hx. destruct (tc_edge_last x x Hx) as (y & Hxy & Hyx).
  apply (IH y Hyx). eapply tc_rtc_r; [by apply tc_once|done].
Qed.

Lemma acyclic_acc x : (forall x, ~ tc (edge g) x x) -> Acc (edge g) x.
Proof.
  intros Hac. change (edge g) with (flip (flip (edge g))). apply tc_finite_sn.
  - intros y Hy. by apply (Hac y), tc_flip_edge.
  - exists (node_id <$> nodes g). intros y Hy. by eapply tc_edge_source, tc_flip_edge.
Qed.

Lemma kahn_complete fuel done remaining :
  (forall x, ~ tc (edge g) x x) -> kahn_inv done remaining ->
  kahn fuel done remaining <> Some (Err Cyclic).
Proof.
  intros Hac. revert done remaining; induction fuel as [|fuel IH];
    intros done [|n ns] Hinv; simpl; try done.
  destruct (kahn_ready done (n :: ns)) as [|x xs] eqn:E.
  - intros _. assert (forall m, m ∈ n :: ns -> False) as Hstuck; [|apply (Hstuck n); left].
    intros m. remember (node_id m) as x eqn:Hx. revert m Hx.
    induction (acyclic_acc x Hac) as [x _ IHx]. intros m -> Hm.
    destruct Hinv as [H1 H2]. destruct (H1 m Hm) as [Hmn _].
    assert (¬ Forall (fun i => i ∈ done) (inputs m)) as Hnf.
    { intros HF. assert (node_id m ∈ kahn_ready done (n :: ns)) as Hr
        by (apply kahn_ready_elem; eauto). rewrite E in Hr. set_solver. }
    apply not_Forall_Exists, Exists_exists in Hnf as (i & Hi & Hnd); [|apply _].
    destruct (proj1 (list_elem_of_fmap _ _ _) (Hclosed m i Hmn Hi)) as (k & -> & Hk).
    destruct (H2 k Hk) as [?|Hkr]; [done|].
    eapply (IHx (node_id k)); [|done|exact Hkr]. by exists m.
  - apply IH. rewrite <- E. by apply kahn_inv_step.
Qed.

Lemma kahn_err fuel done remaining e : kahn fuel done remaining = Some (Err e) -> e = Cyclic.
Proof.
  revert done remaining; induction fuel as [|fuel IH]; intros done [|n ns]; simpl; try congruence.
  destruct (kahn_ready done (n :: ns)); [congruence|]. apply IH.
Qed.

Lemma assert_acyclic_ok :
  assert_acyclic g = Some (Ok tt) <-> forall x, ~ tc (edge g) x x.
Proof.
  unfold assert_acyclic. split.
  - intros Hk x Hx.
    assert (forall n, n ∈ nodes g -> Acc (edge g) (node_id n)) as Hacc.
    { eapply kahn_sound; [apply kahn_inv_init|set_solver|exact Hk]. }
    destruct (tc_edge_last x x Hx) as (y & _ & Hy). apply edge_target in Hy.
    apply list_elem_of_fmap in Hy as (n & -> & Hn). by apply (acc_no_loop (node_id n)); auto.
  - intros Hac. destruct (kahn_fuel (length (nodes g)) ∅ (nodes g)) as [[[]|e] Hr]; [done|done|].
    exfalso. assert (e = Cyclic) as -> by (eapply kahn_err; exact Hr).
    eapply kahn_complete; [exact Hac|apply kahn_inv_init|exact Hr].
Qed.
End Kahn.

(** ** Workload fingerprint: the canonical text that is hashed *)
Definition push_field (value : string) : string :=
  pretty (N.of_nat (String.length value)) +:+ ":" +:+ value.
Definition push_optional (value : option string) : string :=
  match value with Some v => "1" +:+ push_field v | None => "0" end.
Definition push_effective_config (c : EffectiveConfig) : string :=
  push_optional (model c) +:+ push_optional (effort_name <$> effort c) +:+ push_optional (mode c).

(** [{:016x}] of a 64-bit pattern. *)
Fixpoint hex_fixed (width : nat) (n : N) : string :=
  match width with
  | O => ""
  | S w => hex_fixed w (n / 16) +:+ String (hex_digit (n mod 16)) EmptyString
  end.

Inductive DeadlineActivationV2 := ManualOnlyR2f1a | AutomaticR2f1b.

Definition concat_str (l : list string) : string := foldr String.append "" l.
Definition sort_strings (l : list string) : list string := sort_by str_leb l.

Definition node_text (configured_effective : string -> option EffectiveConfig) (n : WorkflowNode)
  : string :=
  "n" +:+ push_field (node_id n) +:+ push_field (node_agent n)
  +:+ (match configured_effective (node_agent n) with
       | Some c =>
           "1" +:+ push_effective_config
             {| model := match node_model n with Some m => Some m | None => model c end;
                effort := match node_effort n with Some e => Some e | None => effort c end;
                mode := match node_mode n with Some m => Some m | None => mode c end |}
       | None => "0"
       end)
  +:+ "i" +:+ pretty (N.of_nat (length (inputs n))) +:+ ":"
  +:+ concat_str (push_field <$> sort_strings (inputs n))
  +:+ (match retry n with
       | Some r => "1" +:+ pretty (max_attempts r) +:+ ":" +:+ pretty (backoff_ms r) +:+ ":"
                   +:+ pretty (default u64_max (backoff_cap_ms r)) +:+ ";"
       | None => "0"
       end).

Definition sorted_nodes (g : WorkflowGraph) : list WorkflowNode :=
  sort_by (fun a b => str_leb (node_id a) (node_id b)) (nodes g).

Definition canonical_workload (g : WorkflowGraph) (activation : DeadlineActivationV2)
    (configured_effective : string -> option EffectiveConfig) : string :=
  push_field (graph_id g)
  +:+ concat_str (node_text configured_effective <$> sorted_nodes g)
  +:+ (match activation with
       | ManualOnlyR2f1a => ""
       | AutomaticR2f1b => "a" +:+ push_field "automatic_r2f1b"
       end)
  +:+ (match panel g with
       | Some p => "p" +:+ concat_str ((fun kv => push_field (fst kv) +:+ hex_fixed 16 (snd kv) +:+ ";")
                                         <$> weights p)
       | None => "q"
       end).

(** [workload_fingerprint_with_activation]: the digest [hash] (SHA-256 in
    [workflow_history]) is a parameter. *)
Definition workload_fingerprint_with_activation (hash : string -> string)
    (g : WorkflowGraph) (activation : DeadlineActivationV2)
    (configured_effective : string -> option EffectiveConfig) : string * bool :=
  (hash (canonical_workload g activation configured_effective),
   forallb (fun n => if configured_effective (node_agent n) then true else false) (sorted_nodes g)).

(** Two graphs that differ only in the order of their nodes and of each
    node's inputs. *)
Definition same_node (a b : WorkflowNode) : Prop :=
  inputs a ≡ₚ inputs b /\
  b = mkNode (node_id a) (node_agent a) (node_model a) (node_effort a) (node_mode a)
             (prompt_template a) (inputs b) (retry a) (harvest_sanitization a).

Lemma sort_strings_perm l l' : l ≡ₚ l' -> sort_strings l = sort_strings l'.
Proof.
  intros H. apply (StronglySorted_unique_strong (fun a b => str_leb a b = true)).
  - intros; by apply str_leb_antisym.
  - apply sort_by_sorted; eauto using str_leb_total, str_leb_trans.
  - apply sort_by_sorted; eauto using str_leb_total, str_leb_trans.
  - unfold sort_strings. by rewrite !sort_by_perm.
Qed.

Lemma node_text_same cfg a b : same_node a b -> node_text cfg a = node_text cfg b.
Proof.
  intros [Hp ->]. unfold node_text; simpl.
  by rewrite (sort_strings_perm _ _ Hp), (Permutation_length Hp).
Qed.

Lemma sorted_nodes_perm g g' :
  NoDup (node_id <$> nodes g) -> nodes g ≡ₚ nodes g' -> sorted_nodes g = sorted_nodes g'.
Proof.
  intros Hnd Hp. apply (StronglySorted_unique_strong
    (fun a b => str_leb (node_id a) (node_id b) = true)).
  - intros x y Hx Hy H1 H2. unfold sorted_nodes in *. rewrite sort_by_elem in Hx, Hy.
    apply (node_id_inj g); [done|done|by rewrite Hp|by apply str_leb_antisym].
  - apply sort_by_sorted; eauto using str_leb_total, str_leb_trans.
  - apply sort_by_sorted; eauto using str_leb_total, str_leb_trans.
  - unfold sorted_nodes. by rewrite !sort_by_perm.
Qed.

Lemma insert_sorted_same a b l l' :
  same_node a b -> Forall2 same_node l l' ->
  Forall2 same_node (insert_sorted (fun a b => str_leb (node_id a) (node_id b)) a l)
                    (insert_sorted (fun a b => str_leb (node_id a) (node_id b)) b l').
Proof.
  intros Hab. induction 1 as [|x y l l' Hxy Hl IH]; simpl; [by constructor|].
  replace (node_id b) with (node_id a) by (by destruct Hab as [_ ->]).
  replace (node_id y) with (node_id x) by (by destruct Hxy as [_ ->]).
  destruct (str_leb (node_id a) (node_id x)); constructor; auto.
Qed.

Lemma sorted_nodes_same l l' :
  Forall2 same_node l l' ->
  Forall2 same_node (sort_by (fun a b => str_leb (node_id a) (node_id b)) l)
                    (sort_by (fun a b => str_leb (node_id a) (node_id b)) l').
Proof. induction 1; simpl; [constructor|]. by apply insert_sorted_same. Qed.

Lemma forall2_same_fmap cfg l l' :
  Forall2 same_node l l' -> node_text cfg <$> l = node_text cfg <$> l'.
Proof.
  induction 1 as [|a b l l' Hab _ IH]; [done|].
  rewrite !fmap_cons, IH. by rewrite (node_text_same cfg a b).
Qed.

Lemma forall2_same_agents cfg l l' :
  Forall2 same_node l l' ->
  forallb (fun n => if cfg (node_agent n) : option EffectiveConfig then true else false) l
  = forallb (fun n => if cfg (node_agent n) : option EffectiveConfig then true else false) l'.
Proof. induction 1 as [|a b l l' [_ ->] _ IH]; simpl; [done|]. by rewrite IH. Qed.

(** ** Properties *)

(** What each error of [validate] tells about the graph. *)
Definition explains (g : WorkflowGraph) (e : WorkflowError) : Prop :=
  match e with
  | Empty => nodes g = []
  | DuplicateNode x =>
      exists l1 n l2, nodes g = l1 ++ n :: l2 /\ node_id n = x /\ x ∈ node_id <$> l1
  | UnknownInput a i =>
      exists n, n ∈ nodes g /\ node_id n = a /\ i ∈ inputs n /\ i ∉ node_id <$> nodes g
  | Cyclic => ~ (forall x, ~ tc (edge g) x x)
  | NotSingleTerminal k => k = terminal_count g /\ k <> 1%nat
  end.

Lemma check_unique_err seen ns e :
  check_unique seen ns = Err e ->
  exists l1 n l2, ns = l1 ++ n :: l2 /\ e = DuplicateNode (node_id n)
                  /\ (node_id n ∈ seen \/ node_id n ∈ node_id <$> l1).
Proof.
  revert seen; induction ns as [|n ns IH]; intros seen; simpl; [done|].
  case_bool_decide as E.
  - intros [= <-]. exists [], n, ns. auto.
  - intros (l1 & m & l2 & -> & -> & Hm)%IH. exists (n :: l1), m, l2. split; [done|]. split; [done|].
    destruct Hm as [Hm|Hm]; [|right; by right].
    apply elem_of_union in Hm as [Hm%elem_of_singleton|Hm]; [right|by left]. rewrite Hm. by left.
Qed.

Lemma check_node_inputs_err ids node ins e :
  check_node_inputs ids node ins = Err e -> exists i, i ∈ ins /\ i ∉ ids /\ e = UnknownInput node i.
Proof.
  induction ins as [|i ins IH]; simpl; [done|]. case_bool_decide as E.
  - intros (j & ? & ? & ?)%IH. exists j. split_and!; try done. by right.
  - intros [= <-]. exists i. split_and!; try done. by left.
Qed.

Lemma check_inputs_err ids ns e :
  check_inputs ids ns = Err e ->
  exists n i, n ∈ ns /\ i ∈ inputs n /\ i ∉ ids /\ e = UnknownInput (node_id n) i.
Proof.
  induction ns as [|n ns IH]; simpl; [done|].
  destruct (check_node_inputs ids (node_id n) (inputs n)) as [u|e'] eqn:E; simpl.
  - intros (m & i & ? & ?)%IH. exists m, i. split; [by right|done].
  - intros [= <-]. apply check_node_inputs_err in E as (i & ? & ? & ?). exists n, i. split; [by left|done].
Qed.

Lemma validate_decides g :
  is_Some (validate g) /\ (validate g = Some (Ok tt) <-> well_formed g).
Proof.
  unfold validate. destruct (nodes g) as [|n0 ns] eqn:E.
  { split; [done|]. split; [done|]. by intros [H]. }
  rewrite <- E. pose proof (check_unique_ok ∅ (nodes g)) as Hu.
  destruct (check_unique ∅ (nodes g)) as [[]|e].
  2: { split; [done|]. split; [done|]. intros [_ H _ _ _]. assert (Err e = Ok tt); [|done].
       apply Hu. split; [done|set_solver]. }
  destruct Hu as [[Hnd _] _]; [done|].
  pose proof (check_inputs_ok (list_to_set (node_id <$> nodes g)) (nodes g)) as Hi.
  setoid_rewrite elem_of_list_to_set in Hi.
  destruct (check_inputs _ (nodes g)) as [[]|e].
  2: { split; [done|]. split; [done|]. intros [_ _ H _ _]. assert (Err e = Ok tt); [|done].
       apply Hi. exact H. }
  destruct Hi as [Hcl _]; specialize (Hcl eq_refl).
  pose proof (assert_acyclic_ok g Hnd Hcl) as Ha.
  destruct (assert_acyclic g) as [[[]|e]|] eqn:Ek.
  - destruct Ha as [Hac _]; specialize (Hac eq_refl).
    destruct (Nat.eqb_spec (terminal_count g) 1).
    + split; [done|]. split; [|done]. intros _. split; try done. by rewrite E.
    + split; [done|]. split; [done|]. by intros [].
  - split; [done|]. split; [done|]. intros [_ _ _ H _]. apply Ha in H. done.
  - exfalso. destruct (kahn_fuel (length (nodes g)) ∅ (nodes g)) as [r Hr]; [done|].
    unfold assert_acyclic in Ek. congruence.
Qed.

(** C35: [WorkflowGraph::validate] always returns. It accepts a graph exactly
    when the graph is non-empty, has unique node ids, only references its own
    nodes, has no dependency cycle and has exactly one terminal node; and the
    error of a refusal names a defect the graph really has. *)
Theorem validate_spec g :
  exists r, validate g = Some r /\ (r = Ok tt <-> well_formed g)
            /\ match r with Ok _ => True | Err e => explains g e end.
Proof.
  destruct (validate_decides g) as [[r Hr] Hok]. exists r. split; [done|].
  split; [rewrite <- Hok, Hr; split; congruence|]. destruct r as [[]|e]; [done|].
  unfold validate in Hr. destruct (nodes g) as [|n0 ns] eqn:En; [injection Hr as <-; exact En|].
  rewrite <- En in Hr. destruct (check_unique ∅ (nodes g)) as [[]|e1] eqn:Eu.
  2: { injection Hr as ->. apply check_unique_err in Eu as (l1 & n & l2 & ? & -> & [?|?]); [set_solver|].
       simpl. eauto 6. }
  destruct (check_inputs _ (nodes g)) as [[]|e1] eqn:Ei.
  2: { injection Hr as ->. apply check_inputs_err in Ei as (n & i & ? & ? & Hni & ->). simpl.
       rewrite elem_of_list_to_set in Hni. eauto. }
  apply check_unique_ok in Eu as [Hnd _].
  assert (Hcl : forall n i, n ∈ nodes g -> i ∈ inputs n -> i ∈ node_id <$> nodes g).
  { intros n i Hn Hi. pose proof (proj1 (check_inputs_ok _ _) Ei n i Hn Hi) as Hx.
    by rewrite elem_of_list_to_set in Hx. }
  destruct (assert_acyclic g) as [[[]|e1]|] eqn:Ek; [| |done].
  - destruct (Nat.eqb_spec (terminal_count g) 1); [done|]. injection Hr as <-. done.
  - injection Hr as ->. assert (e = Cyclic) as -> by (eapply kahn_err; exact Ek). simpl.
    rewrite <- (assert_acyclic_ok g Hnd Hcl). congruence.
Qed.

Definition diamond : WorkflowGraph :=
  let nd i ins := mkNode i "codex" None None None "" ins None None in
  mkGraph "w" [nd "d" ["b"; "c"]; nd "a" []; nd "b" ["a"]; nd "c" ["a"]] None.

Lemma edge_fwd_acc g x :
  (forall n i, n ∈ nodes g -> i ∈ inputs n -> i ∈ node_id <$> nodes g) ->
  (forall x, ~ tc (edge g) x x) -> sn (edge g) x.
Proof.
  intros Hcl Hac. apply tc_finite_sn; [exact Hac|].
  exists (node_id <$> nodes g). intros y Hy.
  destruct (tc_edge_last g x y Hy) as (z & _ & Hz). eauto using edge_target.
Qed.

Lemma terminal_unique g t n :
  terminal_count g = 1%nat -> terminal g = Some t ->
  n ∈ nodes g -> is_terminal g n = true -> n = t.
Proof.
  unfold terminal_count, terminal. intros Hc Ht Hn Hnt.
  apply fmap_Some in Ht as ([i t'] & Hf & ->). simpl.
  apply list_find_Some in Hf as (Hl & Htt & _). apply list_elem_of_lookup_2 in Hl.
  destruct (filter (fun n => is_terminal g n = true) (nodes g)) as [|a [|b l]] eqn:E;
    [done| |done].
  assert (n ∈ [a]) as Hna by (rewrite <- E; by apply list_elem_of_filter).
  assert (t' ∈ [a]) as Hta by (rewrite <- E; by apply list_elem_of_filter).
  set_solver.
Qed.

Lemma terminal_exists g :
  terminal_count g = 1%nat -> exists t, terminal g = Some t /\ t ∈ nodes g /\ is_terminal g t = true.
Proof.
  unfold terminal_count, terminal. intros Hc.
  destruct (filter (fun n => is_terminal g n = true) (nodes g)) as [|a l] eqn:E; [done|].
  assert (a ∈ filter (fun n => is_terminal g n = true) (nodes g)) as [Ha Hin]%list_elem_of_filter
    by (rewrite E; left).
  destruct (list_find_elem_of (fun n => is_terminal g n = true) (nodes g) a) as [[i t] Hf]; try done.
  exists t. rewrite Hf. apply list_find_Some in Hf as (Hl & Ht & _).
  apply list_elem_of_lookup_2 in Hl. done.
Qed.

(** On a validated graph [terminal] returns the one node nothing reads, and
    every node of the workflow feeds it through the dependency edges. *)
Theorem terminal_collects g :
  validate g = Some (Ok tt) ->
  exists t, terminal g = Some t /\ t ∈ nodes g /\ node_id t ∉ referenced g /\
    forall n, n ∈ nodes g -> rtc (edge g) (node_id n) (node_id t).
Proof.
  intros Hv%validate_decides. destruct Hv as [_ Hnd Hcl Hac Hc].
  destruct (terminal_exists g Hc) as (t & Ht & Hin & Htt).
  exists t. repeat split; try done; [by apply bool_decide_eq_true in Htt|].
  intros n. remember (node_id n) as x eqn:Hx. revert n Hx.
  induction (edge_fwd_acc g x Hcl Hac) as [x _ IH]. intros n -> Hn.
  destruct (is_terminal g n) eqn:Hnt.
  - by rewrite (terminal_unique g t n).
  - apply bool_decide_eq_false, dec_stable in Hnt. unfold referenced in Hnt.
    apply list_elem_of_bind in Hnt as (m & Hm1 & Hm2).
    assert (edge g (node_id n) (node_id m)) as He by (exists m; done).
    eapply rtc_l; [exact He|]. by apply (IH (node_id m) He m).
Qed.

Lemma terminal_collects_witness :
  validate diamond = Some (Ok tt) /\
  exists t, terminal diamond = Some t /\ t ∈ nodes diamond /\ node_id t ∉ referenced diamond /\
    forall n, n ∈ nodes diamond -> rtc (edge diamond) (node_id n) (node_id t).
Proof. split; [vm_compute; reflexivity|]. apply (terminal_collects diamond). vm_compute; reflexivity. Defined.

(** The workload fingerprint does not depend on the order in which a
    workflow lists its nodes or a node lists its inputs. *)
Theorem fingerprint_order_independent hash g g' mid act cfg :
  NoDup (node_id <$> nodes g) ->
  graph_id g = graph_id g' -> panel g = panel g' ->
  nodes g ≡ₚ mid -> Forall2 same_node mid (nodes g') ->
  workload_fingerprint_with_activation hash g act cfg
  = workload_fingerprint_with_activation hash g' act cfg.
Proof.
  intros Hnd Hid Hpanel Hp Hs.
  pose proof (sorted_nodes_perm g (mkGraph (graph_id g) mid (panel g)) Hnd Hp) as E.
  apply sorted_nodes_same in Hs.
  change (Forall2 same_node (sorted_nodes (mkGraph (graph_id g) mid (panel g))) (sorted_nodes g')) in Hs.
  unfold workload_fingerprint_with_activation, canonical_workload.
  rewrite <- Hid, <- Hpanel, E, (forall2_same_fmap cfg _ _ Hs), (forall2_same_agents cfg _ _ Hs).
  done.
Qed.

Lemma fingerprint_order_independent_witness :
  let nd i ins := mkNode i "codex" None None None "" ins None None in
  let g := mkGraph "w" [nd "b" ["a"; "c"]; nd "a" []; nd "c" []] None in
  let g' := mkGraph "w" [nd "c" []; nd "b" ["c"; "a"]; nd "a" []] None in
  workload_fingerprint_with_activation id g AutomaticR2f1b (fun _ => None)
  = workload_fingerprint_with_activation id g' AutomaticR2f1b (fun _ => None).
Proof.
  intros nd g g'.
  apply (fingerprint_order_independent id g g' [nd "c" []; nd "b" ["a"; "c"]; nd "a" []]).
  - vm_compute. repeat (constructor; [set_solver|]). constructor.
  - reflexivity.
  - reflexivity.
  - simpl. rewrite (Permutation_swap (nd "a" []) (nd "b" ["a"; "c"]) [nd "c" []]).
    solve_Permutation.
  - repeat constructor; simpl; solve_Permutation.
Defined.

(** For every attempt, the back-off is the capped exponential
    [min(backoff_ms * 2^(attempt-1), cap)] computed without overflow, provided
    the base delay is positive or the attempt is at most 64. *)
Theorem backoff_exact p attempt :
  is_u64 (backoff_ms p) -> is_u64 (default 30000 (backoff_cap_ms p)) -> 1 <= attempt ->
  (0 < backoff_ms p \/ attempt <= 64) ->
  backoff_for p attempt
  = Z.min (backoff_ms p * 2 ^ (attempt - 1)) (default 30000 (backoff_cap_ms p)).
Proof.
  intros Hb Hc Ha Hcase. unfold backoff_for, saturating_sub, saturating_mul.
  rewrite Z.max_l by lia. set (cap := default 30000 (backoff_cap_ms p)) in *.
  destruct (Z.leb_spec 64 (attempt - 1)).
  - assert (2 ^ 64 <= 2 ^ (attempt - 1)) as Hp by (apply Z.pow_le_mono_r; lia).
    assert (0 < backoff_ms p) by lia. unfold is_u64, u64_max in *.
    change (2 ^ 64) with 18446744073709551616 in Hp. nia.
  - rewrite Z.shiftl_mul_pow2, Z.mul_1_l by lia. unfold is_u64 in *. lia.
Qed.

Lemma backoff_exact_witness :
  backoff_for (mkRetryPolicy 5 250 (Some 60000)) 7 = 16000.
Proof.
  rewrite (backoff_exact (mkRetryPolicy 5 250 (Some 60000)) 7); [reflexivity|..];
    unfold is_u64, u64_max; simpl; lia.
Defined.

(** With a zero base delay the documented formula gives zero, but from
    attempt 65 on the code returns the full cap. *)
Theorem backoff_zero_base_jumps cap attempt :
  0 < cap <= u64_max -> 65 <= attempt ->
  backoff_for (mkRetryPolicy 1 0 (Some cap)) attempt = cap /\
  Z.min (0 * 2 ^ (attempt - 1)) cap = 0.
Proof.
  intros Hc Ha. unfold backoff_for, saturating_sub; simpl. rewrite Z.max_l by lia.
  destruct (Z.leb_spec 64 (attempt - 1)); [|lia]. lia.
Qed.

Lemma backoff_zero_base_jumps_witness :
  backoff_for (mkRetryPolicy 1 0 (Some 30000)) 65 = 30000 /\ Z.min (0 * 2 ^ (65 - 1)) 30000 = 0.
Proof. apply (backoff_zero_base_jumps 30000 65); unfold u64_max; lia. Defined.
