(* ===== verification/SessionCwd.v ===== *)
(** * Session working directories ([bridge-core/src/session_cwd.rs])

    Lexical normalisation of an absolute path. A Unix path is split at every
    slash; empty and [.] segments vanish, [..] pops, and popping the root is
    an error. *)
From S2P Require Import Prelude Domain.
Open Scope Z_scope.
Open Scope bridge_scope.

Definition slash : Ascii.ascii := Ascii.ascii_of_N 47.

(** The segments of a string between slashes. *)
Fixpoint split_slash (s : string) : list string :=
  match s with
  | EmptyString => [""]
  | String c s' =>
      if Ascii.eqb c slash then "" :: split_slash s'
      else match split_slash s' with
           | seg :: rest => String c seg :: rest
           | [] => [String c ""]
           end
  end.

(** One component of the fold; the accumulator is the reversed output path
    below the root. *)
Definition push_component (acc : option (list string)) (seg : string) : option (list string) :=
  match acc with
  | None => None
  | Some out =>
      if String.eqb seg "" || String.eqb seg "." then Some out
      else if String.eqb seg ".." then match out with [] => None | _ :: out' => Some out' end
      else Some (seg :: out)
  end.

#[global] Arguments push_component : simpl never.

Definition normalize (s : string) : option (list string) :=
  reverse <$> foldl push_component (Some []) (split_slash s).

Fixpoint render (segs : list string) : string :=
  match segs with
  | [] => ""
  | seg :: rest => String slash EmptyString +:+ seg +:+ render rest
  end.

Definition render_path (segs : list string) : string :=
  match segs with [] => String slash EmptyString | _ => render segs end.

Definition is_absolute (s : string) : bool :=
  match s with String c _ => Ascii.eqb c slash | EmptyString => false end.

Definition not_nul (c : Ascii.ascii) : bool := negb (Ascii.eqb c (Ascii.ascii_of_N 0)).
#[global] Arguments not_nul : simpl never.

Definition cwd_error : BridgeError := InvalidRequest "a2a-bridge.cwd".

Definition session_cwd_parse (s : string) : result string BridgeError :=
  if String.eqb s "" || negb (bytes_all not_nul s)
  then Err cwd_error
  else if negb (is_absolute s) then Err cwd_error
  else match normalize s with
       | None => Err cwd_error
       | Some segs => Ok (render_path segs)
       end.

(** [Path::components] of an already-normalised path, and [is_under]. *)
Definition components (s : string) : list string :=
  filter (fun seg => seg <> "") (split_slash s).
Definition is_under (self root : string) : bool :=
  bool_decide (take (length (components root)) (components self) = components root).

(** ** Facts *)
Definition plain (seg : string) : Prop :=
  seg <> "" /\ seg <> "." /\ seg <> ".." /\ bytes_all (fun c => negb (Ascii.eqb c slash)) seg = true.

Lemma split_slash_nonempty s : split_slash s <> [].
Proof. destruct s as [|c s]; simpl; [done|]. destruct (Ascii.eqb c slash); [done|]. by destruct (split_slash s). Qed.

Lemma split_slash_no_slash s :
  Forall (fun seg => bytes_all (fun c => negb (Ascii.eqb c slash)) seg = true) (split_slash s).
Proof.
  induction s as [|c s IH]; simpl; [by repeat constructor|].
  destruct (Ascii.eqb c slash) eqn:E; [by constructor|].
  destruct (split_slash s) as [|seg rest]; [constructor; [|constructor]; simpl; by rewrite E|].
  apply Forall_cons in IH as [H1 H2]. constructor; [|done]. simpl. by rewrite E, H1.
Qed.

Lemma split_slash_app seg s :
  bytes_all (fun c => negb (Ascii.eqb c slash)) seg = true ->
  split_slash (seg +:+ String slash s) = seg :: split_slash s.
Proof.
  induction seg as [|c seg IH]; simpl; [done|].
  destruct (Ascii.eqb c slash) eqn:E; [done|]. simpl. intros H. by rewrite IH.
Qed.

Lemma split_slash_plain seg :
  bytes_all (fun c => negb (Ascii.eqb c slash)) seg = true -> split_slash seg = [seg].
Proof.
  induction seg as [|c seg IH]; simpl; [done|].
  destruct (Ascii.eqb c slash) eqn:E; [done|]. simpl. intros H. by rewrite IH.
Qed.

Lemma split_slash_render segs :
  segs <> [] -> Forall plain segs -> split_slash (render segs) = "" :: segs.
Proof.
  intros Hne Hp. induction Hp as [|seg rest (_ & _ & _ & Hs) Hp IH]; [done|].
  change (render (seg :: rest)) with (String slash (seg +:+ render rest)).
  change (split_slash (String slash (seg +:+ render rest))) with ("" :: split_slash (seg +:+ render rest)).
  f_equal. destruct rest as [|seg' rest].
  - change (render []) with "". rewrite string_app_nil. by apply split_slash_plain.
  - specialize (IH ltac:(done)). change (render (seg' :: rest)) with
      (String slash (seg' +:+ render rest)) in IH |- *.
    rewrite split_slash_app by done. f_equal.
    change (split_slash (String slash (seg' +:+ render rest))) with
      ("" :: split_slash (seg' +:+ render rest)) in IH. by injection IH.
Qed.

Lemma push_component_plain out seg : plain seg -> push_component (Some out) seg = Some (seg :: out).
Proof.
  intros (H1 & H2 & H3 & _). unfold push_component.
  apply String.eqb_neq in H1, H2, H3. by rewrite H1, H2, H3.
Qed.

Lemma fold_plain segs out :
  Forall plain segs -> foldl push_component (Some out) segs = Some (reverse segs ++ out).
Proof.
  revert out; induction segs as [|seg segs IH]; intros out Hp; simpl; [done|].
  apply Forall_cons in Hp as [H1 H2].
  rewrite push_component_plain, IH, reverse_cons by done. by rewrite <- (assoc_L (++)).
Qed.

Lemma fold_push_none segs : foldl push_component None segs = None.
Proof. induction segs; auto. Qed.

Lemma fold_invariant segs out out' :
  Forall (fun seg => bytes_all (fun c => negb (Ascii.eqb c slash)) seg = true) segs ->
  Forall plain out -> foldl push_component (Some out) segs = Some out' -> Forall plain out'.
Proof.
  revert out; induction segs as [|seg segs IH]; intros out Hs Ho Hf; simpl in Hf; [by simplify_eq|].
  apply Forall_cons in Hs as [H1 H2].
  destruct (push_component (Some out) seg) as [out1|] eqn:E; [|by rewrite fold_push_none in Hf].
  eapply IH; [done| |exact Hf]. clear Hf IH. unfold push_component in E.
  destruct (String.eqb_spec seg "") as [->|N1]; simpl in E; [by simplify_eq|].
  destruct (String.eqb_spec seg ".") as [->|N2]; simpl in E; [by simplify_eq|].
  destruct (String.eqb_spec seg "..") as [->|N3].
  - destruct out as [|a out2]; simplify_eq. by apply Forall_cons in Ho as [_ ?].
  - simplify_eq. by constructor.
Qed.

Lemma normalize_plain s segs : normalize s = Some segs -> Forall plain segs.
Proof.
  unfold normalize. intros H. apply fmap_Some in H as (out & Hf & ->).
  apply Forall_reverse. eapply fold_invariant; [apply split_slash_no_slash|constructor|exact Hf].
Qed.

Lemma normalize_render segs : Forall plain segs -> normalize (render_path segs) = Some segs.
Proof.
  intros Hp. destruct segs as [|seg segs]; [reflexivity|].
  unfold normalize. change (render_path (seg :: segs)) with (render (seg :: segs)).
  rewrite split_slash_render by done.
  change (foldl push_component (Some []) ("" :: seg :: segs))
    with (foldl push_component (Some []) (seg :: segs)).
  rewrite fold_plain by done.
  simpl. by rewrite app_nil_r, reverse_involutive.
Qed.

Lemma nul_free_render segs :
  Forall (fun s => bytes_all not_nul s = true) segs ->
  bytes_all not_nul (render_path segs) = true.
Proof.
  destruct segs as [|seg segs]; [done|]. change (render_path (seg :: segs)) with (render (seg :: segs)).
  generalize (seg :: segs) as l. induction 1 as [|x l Hx _ IH]; [done|].
  change (render (x :: l)) with (String slash "" +:+ (x +:+ render l)).
  by rewrite !bytes_all_app, Hx, IH.
Qed.

Lemma split_slash_nul_free s :
  bytes_all not_nul s = true ->
  Forall (fun s => bytes_all not_nul s = true) (split_slash s).
Proof.
  induction s as [|c s IH]; simpl; [by repeat constructor|].
  intros [H1 H2]%andb_true_iff. specialize (IH H2).
  destruct (Ascii.eqb c slash); [by constructor|].
  destruct (split_slash s) as [|seg rest]; [constructor; [|constructor]; simpl; by rewrite H1|].
  apply Forall_cons in IH as [H3 H4]. constructor; [|done]. simpl. by rewrite H1, H3.
Qed.

Lemma fold_subset segs out out' :
  foldl push_component (Some out) segs = Some out' -> forall x, x ∈ out' -> x ∈ out \/ x ∈ segs.
Proof.
  revert out; induction segs as [|seg segs IH]; intros out Hf x Hx; simpl in Hf; [simplify_eq; auto|].
  destruct (push_component (Some out) seg) as [out1|] eqn:E; [|by rewrite fold_push_none in Hf].
  destruct (IH out1 Hf x Hx) as [H|H]; [|set_solver].
  unfold push_component in E. destruct (String.eqb seg "" || String.eqb seg "."); [simplify_eq; auto|].
  destruct (String.eqb seg ".."); [destruct out; simplify_eq; set_solver|]. simplify_eq. set_solver.
Qed.

(** Parsing a session directory is idempotent: the normalised path parses
    to itself, so re-parsing a stored directory (as a reset does) cannot fail. *)
Theorem session_cwd_parse_idempotent s p :
  session_cwd_parse s = Ok p -> session_cwd_parse p = Ok p.
Proof.
  unfold session_cwd_parse. intros H.
  destruct (String.eqb s ""); simpl in H; [done|].
  destruct (bytes_all _ s) eqn:Hnul; simpl in H; [|done].
  destruct (is_absolute s); simpl in H; [|done].
  destruct (normalize s) as [segs|] eqn:Hn; [|done]. simplify_eq.
  pose proof (normalize_plain s segs Hn) as Hp.
  rewrite (normalize_render segs Hp).
  rewrite nul_free_render.
  2: { unfold normalize in Hn. apply fmap_Some in Hn as (out & Hf & ->).
       apply Forall_forall. intros x Hx. rewrite elem_of_reverse in Hx.
       destruct (fold_subset _ _ _ Hf x Hx) as [?|Hs]; [set_solver|].
       pose proof (split_slash_nul_free s Hnul) as HF. rewrite Forall_forall in HF. auto. }
  by destruct segs.
Qed.

Lemma session_cwd_parse_idempotent_witness :
  session_cwd_parse "/work//a/./b/../c/" = Ok "/work/a/c" /\
  session_cwd_parse "/work/a/c" = Ok "/work/a/c".
Proof.
  split; [reflexivity|]. apply (session_cwd_parse_idempotent "/work//a/./b/../c/"). reflexivity.
Defined.

Example cwd_escape : session_cwd_parse "/a/../../b" = Err cwd_error.
Proof. reflexivity. Qed.
Example cwd_under : is_under "/work-evil/x" "/work" = false /\ is_under "/work/x" "/work" = true.
Proof. split; reflexivity. Qed.
