(* ===== verification/SessionTypes.v ===== *)
(** * Warm sessions: data ([bridge-coordinator/src/session_manager.rs])

    The types of the serve-side session manager. The program shares three
    kinds of objects through [Arc]s: cancellation tokens, expiry intents and
    leases. They live in a store (the [World]) and handles refer to them by
    number, so that aliasing is explicit: cancelling a token or arming an
    intent is visible to every holder. *)
From S2P Require Import Prelude Domain.
From stdpp Require Import pretty.
Open Scope Z_scope.
Open Scope bridge_scope.

Notation ContextId := string.
Notation AgentId := string.
Notation OperationId := string.
Notation SessionId := string.
Notation SessionHandleId := string.
(** Pointer identities ([Arc::ptr_eq]) of backends and registry entries, and
    the identity of a registry lease. *)
Notation BackendId := N.
Notation EntryId := N.
Notation LeaseId := N.

Inductive SessionState :=
| Idle | Running | Reconciling | Expiring | Resetting | Compacting | Cancelling | Configuring.
#[global] Instance session_state_eq_dec : EqDecision SessionState.
Proof. solve_decision. Defined.

Definition is_claimed (s : SessionState) : bool :=
  match s with
  | Reconciling | Expiring | Resetting | Compacting | Cancelling | Configuring => true
  | Idle | Running => false
  end.

(** The three states of the atomic byte behind a [WarmExpiryIntent]. *)
Inductive IntentState := IntentOpen | IntentArmed | IntentSuccessorReserved.
#[global] Instance intent_state_eq_dec : EqDecision IntentState.
Proof. solve_decision. Defined.

(** [ta_token] names both the turn's cancellation token and its expiry intent,
    which are created together. *)
Record TurnAbort := mkTurnAbort { ta_op : OperationId; ta_token : N }.

Record GovernedOperation := mkGoverned { go_abort : N; go_ready : bool }.

Record AgentSessionCaps := mkCaps {
  load_session : bool; resume : bool; close : bool; caps_list : bool; caps_delete : bool }.

(** Cost amounts are [f64] bit patterns. *)
Record UsageCost := mkCost { amount : N; currency : string }.
Record TerminalUsage := mkTerminalUsage {
  total_tokens : Z; input_tokens : Z; output_tokens : Z; thought_tokens : option Z;
  cached_read_tokens : option Z; cached_write_tokens : option Z }.
Record UsageSnapshot := mkUsage {
  used : option Z; size_ : option Z; cost : option UsageCost;
  terminal_usage : option TerminalUsage; at_ms : Z }.
Definition usage_default : UsageSnapshot := mkUsage None None None None 0.

Definition merge_missing_from (self previous : UsageSnapshot) : UsageSnapshot :=
  {| used := match used self with None => used previous | u => u end;
     size_ := match size_ self with None => size_ previous | s => s end;
     cost := match cost self with None => cost previous | c => c end;
     terminal_usage := match terminal_usage self with None => terminal_usage previous | t => t end;
     at_ms := at_ms self |}.

Inductive InjectMode := PrependNextTurn | AppendNextTurn.
Record QueuedInject := mkInject {
  qi_text : string; qi_mode : InjectMode; qi_dedupe_key : option string }.

Record WarmHandle := mkHandle {
  h_id : SessionHandleId;
  h_agent : AgentId;
  h_backend : BackendId;
  h_session : SessionId;
  h_caps : AgentSessionCaps;
  h_generation : N;
  h_fingerprint : SessionSpecFingerprint;
  h_lease : LeaseId;
  h_state : SessionState;
  h_usage : UsageSnapshot;
  h_expire : bool;
  h_op : option OperationId;
  h_turn_aborts : list TurnAbort;
  h_governed : option GovernedOperation;
  h_pending_seed : option string;
  h_pending_injects : list QueuedInject;
  h_last_used : Z }.

Inductive TombstoneState := TExpiring | TCleanupFailed (code : string).
Record ExpiringTombstone := mkTombstone {
  tb_generation : N; tb_op : OperationId; tb_claim_id : N; tb_state : TombstoneState }.

Record CleanupRetryOwner := mkRetry { ro_backend : BackendId; ro_session : SessionId }.

Inductive BackendCleanupDispositionV1 := CleanupComplete | CleanupRetained | CleanupPreserved | CleanupUnknown.
Inductive ReconcileOutcome := Applied | NotAdvertised | Rejected.

(** IEEE-754 doubles, as bit patterns: the three operations of [f64] that the
    usage threshold needs. *)
Class F64 := {
  f64_of_u64 : Z -> N;
  f64_div : N -> N -> N;
  f64_ge : N -> N -> bool }.

Record UsageWarning := mkWarning {
  warn_used : Z; warn_size : Z; warn_fraction : N; warn_threshold : N }.

Definition eval_warn `{F64} (warn_at : option N) (u : UsageSnapshot) : option UsageWarning :=
  match warn_at, used u, size_ u with
  | Some thr, Some us, Some sz =>
      let fraction := f64_div (f64_of_u64 us) (f64_of_u64 sz) in
      if (0 <? sz) && f64_ge fraction thr
      then Some {| warn_used := us; warn_size := sz; warn_fraction := fraction; warn_threshold := thr |}
      else None
  | _, _, _ => None
  end.

Definition over_threshold `{F64} (warn_at : option N) (u : UsageSnapshot) : option bool :=
  match warn_at, used u, size_ u with
  | Some thr, Some us, Some sz =>
      if 0 <? sz then Some (f64_ge (f64_div (f64_of_u64 us) (f64_of_u64 sz)) thr) else None
  | _, _, _ => None
  end.

Record WarmTurn := mkTurn {
  wt_backend : BackendId; wt_session : SessionId; wt_usage_warning : option UsageWarning;
  wt_generation : N; wt_op : OperationId; wt_token : N; wt_seed : option string;
  wt_injects : list QueuedInject; wt_agent : AgentId; wt_model : option string;
  wt_effort : option string; wt_mode : option string }.

Inductive ResetOutcome := Cleared (generation : N) | NotFound.

Record CompactionSnapshot := mkSnapshot {
  cs_handle : SessionHandleId; cs_generation : N; cs_agent : AgentId; cs_config : EffectiveConfig }.
#[global] Instance compaction_snapshot_eq_dec : EqDecision CompactionSnapshot.
Proof. solve_decision. Defined.
Definition compaction_snapshot (h : WarmHandle) : CompactionSnapshot :=
  {| cs_handle := h_id h; cs_generation := h_generation h; cs_agent := h_agent h;
     cs_config := fp_config (h_fingerprint h) |}.

(** What [AgentRegistry::resolve_observed] returns. *)
Record Resolved := mkResolved {
  rs_backend : BackendId; rs_lease : LeaseId; rs_entry_id : EntryId; rs_entry : AgentEntry;
  rs_caps : AgentSessionCaps }.

(** The shared state of a [SessionManager]: the table behind the [by_context]
    lock ([w_live], [w_tombstones], [w_retries]), the [children] map, the
    store of shared objects, the counters, the clock, and the state of the
    environment it reads (retired leases, current registry entries). The last
    two fields log effects on the permission registry and the leases. *)
Record World := mkWorld {
  w_live : gmap ContextId WarmHandle;
  w_tombstones : gmap ContextId ExpiringTombstone;
  w_retries : gmap ContextId CleanupRetryOwner;
  w_children : gmap ContextId (gset ContextId);
  w_cancelled : gset N;
  w_intents : gmap N IntentState;
  w_seq : N;
  w_turn_op_seq : N;
  w_cleanup_claim_seq : N;
  w_next_token : N;
  w_now : Z;
  w_retired : gset LeaseId;
  w_entries : gmap AgentId EntryId;
  w_perm_cancelled : list ContextId;
  w_dropped_leases : list LeaseId }.

(** ** Field updates *)
Definition set_h_session (v : SessionId) (x : WarmHandle) : WarmHandle :=
    {| h_id := h_id x; h_agent := h_agent x; h_backend := h_backend x; h_session := v; h_caps :=
     h_caps x; h_generation := h_generation x; h_fingerprint := h_fingerprint x; h_lease :=
     h_lease x; h_state := h_state x; h_usage := h_usage x; h_expire := h_expire x; h_op := h_op
     x; h_turn_aborts := h_turn_aborts x; h_governed := h_governed x; h_pending_seed :=
     h_pending_seed x; h_pending_injects := h_pending_injects x; h_last_used := h_last_used x |}.
Definition set_h_generation (v : N) (x : WarmHandle) : WarmHandle :=
    {| h_id := h_id x; h_agent := h_agent x; h_backend := h_backend x; h_session := h_session x;
     h_caps := h_caps x; h_generation := v; h_fingerprint := h_fingerprint x; h_lease := h_lease
     x; h_state := h_state x; h_usage := h_usage x; h_expire := h_expire x; h_op := h_op x;
     h_turn_aborts := h_turn_aborts x; h_governed := h_governed x; h_pending_seed :=
     h_pending_seed x; h_pending_injects := h_pending_injects x; h_last_used := h_last_used x |}.
Definition set_h_fingerprint (v : SessionSpecFingerprint) (x : WarmHandle) : WarmHandle :=
    {| h_id := h_id x; h_agent := h_agent x; h_backend := h_backend x; h_session := h_session x;
     h_caps := h_caps x; h_generation := h_generation x; h_fingerprint := v; h_lease := h_lease x;
     h_state := h_state x; h_usage := h_usage x; h_expire := h_expire x; h_op := h_op x;
     h_turn_aborts := h_turn_aborts x; h_governed := h_governed x; h_pending_seed :=
     h_pending_seed x; h_pending_injects := h_pending_injects x; h_last_used := h_last_used x |}.
Definition set_h_state (v : SessionState) (x : WarmHandle) : WarmHandle :=
    {| h_id := h_id x; h_agent := h_agent x; h_backend := h_backend x; h_session := h_session x;
     h_caps := h_caps x; h_generation := h_generation x; h_fingerprint := h_fingerprint x; h_lease
     := h_lease x; h_state := v; h_usage := h_usage x; h_expire := h_expire x; h_op := h_op x;
     h_turn_aborts := h_turn_aborts x; h_governed := h_governed x; h_pending_seed :=
     h_pending_seed x; h_pending_injects := h_pending_injects x; h_last_used := h_last_used x |}.
Definition set_h_usage (v : UsageSnapshot) (x : WarmHandle) : WarmHandle :=
    {| h_id := h_id x; h_agent := h_agent x; h_backend := h_backend x; h_session := h_session x;
     h_caps := h_caps x; h_generation := h_generation x; h_fingerprint := h_fingerprint x; h_lease
     := h_lease x; h_state := h_state x; h_usage := v; h_expire := h_expire x; h_op := h_op x;
     h_turn_aborts := h_turn_aborts x; h_governed := h_governed x; h_pending_seed :=
     h_pending_seed x; h_pending_injects := h_pending_injects x; h_last_used := h_last_used x |}.
Definition set_h_expire (v : bool) (x : WarmHandle) : WarmHandle :=
    {| h_id := h_id x; h_agent := h_agent x; h_backend := h_backend x; h_session := h_session x;
     h_caps := h_caps x; h_generation := h_generation x; h_fingerprint := h_fingerprint x; h_lease
     := h_lease x; h_state := h_state x; h_usage := h_usage x; h_expire := v; h_op := h_op x;
     h_turn_aborts := h_turn_aborts x; h_governed := h_governed x; h_pending_seed :=
     h_pending_seed x; h_pending_injects := h_pending_injects x; h_last_used := h_last_used x |}.
Definition set_h_op (v : option OperationId) (x : WarmHandle) : WarmHandle :=
    {| h_id := h_id x; h_agent := h_agent x; h_backend := h_backend x; h_session := h_session x;
     h_caps := h_caps x; h_generation := h_generation x; h_fingerprint := h_fingerprint x; h_lease
     := h_lease x; h_state := h_state x; h_usage := h_usage x; h_expire := h_expire x; h_op := v;
     h_turn_aborts := h_turn_aborts x; h_governed := h_governed x; h_pending_seed :=
     h_pending_seed x; h_pending_injects := h_pending_injects x; h_last_used := h_last_used x |}.
Definition set_h_turn_aborts (v : list TurnAbort) (x : WarmHandle) : WarmHandle :=
    {| h_id := h_id x; h_agent := h_agent x; h_backend := h_backend x; h_session := h_session x;
     h_caps := h_caps x; h_generation := h_generation x; h_fingerprint := h_fingerprint x; h_lease
     := h_lease x; h_state := h_state x; h_usage := h_usage x; h_expire := h_expire x; h_op :=
     h_op x; h_turn_aborts := v; h_governed := h_governed x; h_pending_seed := h_pending_seed x;
     h_pending_injects := h_pending_injects x; h_last_used := h_last_used x |}.
Definition set_h_governed (v : option GovernedOperation) (x : WarmHandle) : WarmHandle :=
    {| h_id := h_id x; h_agent := h_agent x; h_backend := h_backend x; h_session := h_session x;
     h_caps := h_caps x; h_generation := h_generation x; h_fingerprint := h_fingerprint x; h_lease
     := h_lease x; h_state := h_state x; h_usage := h_usage x; h_expire := h_expire x; h_op :=
     h_op x; h_turn_aborts := h_turn_aborts x; h_governed := v; h_pending_seed := h_pending_seed
     x; h_pending_injects := h_pending_injects x; h_last_used := h_last_used x |}.
Definition set_h_pending_seed (v : option string) (x : WarmHandle) : WarmHandle :=
    {| h_id := h_id x; h_agent := h_agent x; h_backend := h_backend x; h_session := h_session x;
     h_caps := h_caps x; h_generation := h_generation x; h_fingerprint := h_fingerprint x; h_lease
     := h_lease x; h_state := h_state x; h_usage := h_usage x; h_expire := h_expire x; h_op :=
     h_op x; h_turn_aborts := h_turn_aborts x; h_governed := h_governed x; h_pending_seed := v;
     h_pending_injects := h_pending_injects x; h_last_used := h_last_used x |}.
Definition set_h_pending_injects (v : list QueuedInject) (x : WarmHandle) : WarmHandle :=
    {| h_id := h_id x; h_agent := h_agent x; h_backend := h_backend x; h_session := h_session x;
     h_caps := h_caps x; h_generation := h_generation x; h_fingerprint := h_fingerprint x; h_lease
     := h_lease x; h_state := h_state x; h_usage := h_usage x; h_expire := h_expire x; h_op :=
     h_op x; h_turn_aborts := h_turn_aborts x; h_governed := h_governed x; h_pending_seed :=
     h_pending_seed x; h_pending_injects := v; h_last_used := h_last_used x |}.
Definition set_h_last_used (v : Z) (x : WarmHandle) : WarmHandle :=
    {| h_id := h_id x; h_agent := h_agent x; h_backend := h_backend x; h_session := h_session x;
     h_caps := h_caps x; h_generation := h_generation x; h_fingerprint := h_fingerprint x; h_lease
     := h_lease x; h_state := h_state x; h_usage := h_usage x; h_expire := h_expire x; h_op :=
     h_op x; h_turn_aborts := h_turn_aborts x; h_governed := h_governed x; h_pending_seed :=
     h_pending_seed x; h_pending_injects := h_pending_injects x; h_last_used := v |}.
Definition set_w_live (v : gmap ContextId WarmHandle) (x : World) : World :=
    {| w_live := v; w_tombstones := w_tombstones x; w_retries := w_retries x; w_children :=
     w_children x; w_cancelled := w_cancelled x; w_intents := w_intents x; w_seq := w_seq x;
     w_turn_op_seq := w_turn_op_seq x; w_cleanup_claim_seq := w_cleanup_claim_seq x; w_next_token
     := w_next_token x; w_now := w_now x; w_retired := w_retired x; w_entries := w_entries x;
     w_perm_cancelled := w_perm_cancelled x; w_dropped_leases := w_dropped_leases x |}.
Definition set_w_tombstones (v : gmap ContextId ExpiringTombstone) (x : World) : World :=
    {| w_live := w_live x; w_tombstones := v; w_retries := w_retries x; w_children := w_children
     x; w_cancelled := w_cancelled x; w_intents := w_intents x; w_seq := w_seq x; w_turn_op_seq :=
     w_turn_op_seq x; w_cleanup_claim_seq := w_cleanup_claim_seq x; w_next_token := w_next_token
     x; w_now := w_now x; w_retired := w_retired x; w_entries := w_entries x; w_perm_cancelled :=
     w_perm_cancelled x; w_dropped_leases := w_dropped_leases x |}.
Definition set_w_retries (v : gmap ContextId CleanupRetryOwner) (x : World) : World :=
    {| w_live := w_live x; w_tombstones := w_tombstones x; w_retries := v; w_children :=
     w_children x; w_cancelled := w_cancelled x; w_intents := w_intents x; w_seq := w_seq x;
     w_turn_op_seq := w_turn_op_seq x; w_cleanup_claim_seq := w_cleanup_claim_seq x; w_next_token
     := w_next_token x; w_now := w_now x; w_retired := w_retired x; w_entries := w_entries x;
     w_perm_cancelled := w_perm_cancelled x; w_dropped_leases := w_dropped_leases x |}.
Definition set_w_children (v : gmap ContextId (gset ContextId)) (x : World) : World :=
    {| w_live := w_live x; w_tombstones := w_tombstones x; w_retries := w_retries x; w_children :=
     v; w_cancelled := w_cancelled x; w_intents := w_intents x; w_seq := w_seq x; w_turn_op_seq :=
     w_turn_op_seq x; w_cleanup_claim_seq := w_cleanup_claim_seq x; w_next_token := w_next_token
     x; w_now := w_now x; w_retired := w_retired x; w_entries := w_entries x; w_perm_cancelled :=
     w_perm_cancelled x; w_dropped_leases := w_dropped_leases x |}.
Definition set_w_cancelled (v : gset N) (x : World) : World :=
    {| w_live := w_live x; w_tombstones := w_tombstones x; w_retries := w_retries x; w_children :=
     w_children x; w_cancelled := v; w_intents := w_intents x; w_seq := w_seq x; w_turn_op_seq :=
     w_turn_op_seq x; w_cleanup_claim_seq := w_cleanup_claim_seq x; w_next_token := w_next_token
     x; w_now := w_now x; w_retired := w_retired x; w_entries := w_entries x; w_perm_cancelled :=
     w_perm_cancelled x; w_dropped_leases := w_dropped_leases x |}.
Definition set_w_intents (v : gmap N IntentState) (x : World) : World :=
    {| w_live := w_live x; w_tombstones := w_tombstones x; w_retries := w_retries x; w_children :=
     w_children x; w_cancelled := w_cancelled x; w_intents := v; w_seq := w_seq x; w_turn_op_seq
     := w_turn_op_seq x; w_cleanup_claim_seq := w_cleanup_claim_seq x; w_next_token :=
     w_next_token x; w_now := w_now x; w_retired := w_retired x; w_entries := w_entries x;
     w_perm_cancelled := w_perm_cancelled x; w_dropped_leases := w_dropped_leases x |}.
Definition set_w_seq (v : N) (x : World) : World :=
    {| w_live := w_live x; w_tombstones := w_tombstones x; w_retries := w_retries x; w_children :=
     w_children x; w_cancelled := w_cancelled x; w_intents := w_intents x; w_seq := v;
     w_turn_op_seq := w_turn_op_seq x; w_cleanup_claim_seq := w_cleanup_claim_seq x; w_next_token
     := w_next_token x; w_now := w_now x; w_retired := w_retired x; w_entries := w_entries x;
     w_perm_cancelled := w_perm_cancelled x; w_dropped_leases := w_dropped_leases x |}.
Definition set_w_turn_op_seq (v : N) (x : World) : World :=
    {| w_live := w_live x; w_tombstones := w_tombstones x; w_retries := w_retries x; w_children :=
     w_children x; w_cancelled := w_cancelled x; w_intents := w_intents x; w_seq := w_seq x;
     w_turn_op_seq := v; w_cleanup_claim_seq := w_cleanup_claim_seq x; w_next_token :=
     w_next_token x; w_now := w_now x; w_retired := w_retired x; w_entries := w_entries x;
     w_perm_cancelled := w_perm_cancelled x; w_dropped_leases := w_dropped_leases x |}.
Definition set_w_cleanup_claim_seq (v : N) (x : World) : World :=
    {| w_live := w_live x; w_tombstones := w_tombstones x; w_retries := w_retries x; w_children :=
     w_children x; w_cancelled := w_cancelled x; w_intents := w_intents x; w_seq := w_seq x;
     w_turn_op_seq := w_turn_op_seq x; w_cleanup_claim_seq := v; w_next_token := w_next_token x;
     w_now := w_now x; w_retired := w_retired x; w_entries := w_entries x; w_perm_cancelled :=
     w_perm_cancelled x; w_dropped_leases := w_dropped_leases x |}.
Definition set_w_next_token (v : N) (x : World) : World :=
    {| w_live := w_live x; w_tombstones := w_tombstones x; w_retries := w_retries x; w_children :=
     w_children x; w_cancelled := w_cancelled x; w_intents := w_intents x; w_seq := w_seq x;
     w_turn_op_seq := w_turn_op_seq x; w_cleanup_claim_seq := w_cleanup_claim_seq x; w_next_token
     := v; w_now := w_now x; w_retired := w_retired x; w_entries := w_entries x; w_perm_cancelled
     := w_perm_cancelled x; w_dropped_leases := w_dropped_leases x |}.
Definition set_w_now (v : Z) (x : World) : World :=
    {| w_live := w_live x; w_tombstones := w_tombstones x; w_retries := w_retries x; w_children :=
     w_children x; w_cancelled := w_cancelled x; w_intents := w_intents x; w_seq := w_seq x;
     w_turn_op_seq := w_turn_op_seq x; w_cleanup_claim_seq := w_cleanup_claim_seq x; w_next_token
     := w_next_token x; w_now := v; w_retired := w_retired x; w_entries := w_entries x;
     w_perm_cancelled := w_perm_cancelled x; w_dropped_leases := w_dropped_leases x |}.
Definition set_w_retired (v : gset LeaseId) (x : World) : World :=
    {| w_live := w_live x; w_tombstones := w_tombstones x; w_retries := w_retries x; w_children :=
     w_children x; w_cancelled := w_cancelled x; w_intents := w_intents x; w_seq := w_seq x;
     w_turn_op_seq := w_turn_op_seq x; w_cleanup_claim_seq := w_cleanup_claim_seq x; w_next_token
     := w_next_token x; w_now := w_now x; w_retired := v; w_entries := w_entries x;
     w_perm_cancelled := w_perm_cancelled x; w_dropped_leases := w_dropped_leases x |}.
Definition set_w_entries (v : gmap AgentId EntryId) (x : World) : World :=
    {| w_live := w_live x; w_tombstones := w_tombstones x; w_retries := w_retries x; w_children :=
     w_children x; w_cancelled := w_cancelled x; w_intents := w_intents x; w_seq := w_seq x;
     w_turn_op_seq := w_turn_op_seq x; w_cleanup_claim_seq := w_cleanup_claim_seq x; w_next_token
     := w_next_token x; w_now := w_now x; w_retired := w_retired x; w_entries := v;
     w_perm_cancelled := w_perm_cancelled x; w_dropped_leases := w_dropped_leases x |}.
Definition set_w_perm_cancelled (v : list ContextId) (x : World) : World :=
    {| w_live := w_live x; w_tombstones := w_tombstones x; w_retries := w_retries x; w_children :=
     w_children x; w_cancelled := w_cancelled x; w_intents := w_intents x; w_seq := w_seq x;
     w_turn_op_seq := w_turn_op_seq x; w_cleanup_claim_seq := w_cleanup_claim_seq x; w_next_token
     := w_next_token x; w_now := w_now x; w_retired := w_retired x; w_entries := w_entries x;
     w_perm_cancelled := v; w_dropped_leases := w_dropped_leases x |}.
Definition set_w_dropped_leases (v : list LeaseId) (x : World) : World :=
    {| w_live := w_live x; w_tombstones := w_tombstones x; w_retries := w_retries x; w_children :=
     w_children x; w_cancelled := w_cancelled x; w_intents := w_intents x; w_seq := w_seq x;
     w_turn_op_seq := w_turn_op_seq x; w_cleanup_claim_seq := w_cleanup_claim_seq x; w_next_token
     := w_next_token x; w_now := w_now x; w_retired := w_retired x; w_entries := w_entries x;
     w_perm_cancelled := w_perm_cancelled x; w_dropped_leases := v |}.
