(* ===== verification/SessionOps.v ===== *)
(** * Warm sessions: the critical sections

    Every function here is one stretch of [session_manager.rs] that runs while
    the [by_context] lock is held, with no [await] inside: it maps the world
    to the world and the values the section leaves to the code after it. *)
From S2P Require Import Prelude Domain SessionCwd SessionTypes.
From stdpp Require Import pretty.
Open Scope Z_scope.
Open Scope bridge_scope.

(** [format!("ctx-{}-g{}", ctx, generation)]. *)
Definition session_id (ctx : ContextId) (generation : N) : SessionId :=
  "ctx-" +:+ ctx +:+ "-g" +:+ pretty generation.

(** ** Shared objects *)
Definition intent (w : World) (token : N) : IntentState :=
  default IntentOpen (w_intents w !! token).
Definition intent_armed (w : World) (token : N) : bool := bool_decide (intent w token = IntentArmed).
Definition is_cancelled (w : World) (token : N) : bool := bool_decide (token ∈ w_cancelled w).

Definition cancel_token (token : N) (w : World) : World :=
  set_w_cancelled ({[token]} ∪ w_cancelled w) w.

(** [WarmExpiryIntent::arm]: compare-exchange OPEN -> ARMED. *)
Definition arm_intent (token : N) (w : World) : World :=
  match intent w token with
  | IntentOpen => set_w_intents (<[token := IntentArmed]> (w_intents w)) w
  | _ => w
  end.

(** [WarmExpiryIntent::reserve_successor]: compare-exchange OPEN -> RESERVED;
    [false] exactly when the intent is armed. *)
Definition reserve_successor (token : N) (w : World) : bool * World :=
  match intent w token with
  | IntentOpen => (true, set_w_intents (<[token := IntentSuccessorReserved]> (w_intents w)) w)
  | IntentSuccessorReserved => (true, w)
  | IntentArmed => (false, w)
  end.

Definition fire_tokens (aborts : list TurnAbort) (w : World) : World :=
  set_w_cancelled (list_to_set (ta_token <$> aborts) ∪ w_cancelled w) w.

(** [fire_lingering_turn_abort]: drain and cancel every abort token. *)
Definition fire_lingering_turn_abort (h : WarmHandle) (w : World) : WarmHandle * World :=
  (set_h_turn_aborts [] h, fire_tokens (h_turn_aborts h) w).

Definition has_armed_expiry_intent (w : World) (h : WarmHandle) (op : OperationId) : bool :=
  existsb (fun t => bool_decide (ta_op t = op) && intent_armed w (ta_token t)) (h_turn_aborts h).

Definition first_armed (w : World) (aborts : list TurnAbort) : option OperationId :=
  (fun p => ta_op (snd p)) <$> list_find (fun t => intent_armed w (ta_token t) = true) aborts.

Definition first_armed_idle_expiry (w : World) (h : WarmHandle) : option OperationId :=
  if bool_decide (h_state h <> Idle) || (if h_op h then true else false) then None
  else first_armed w (h_turn_aborts h).

(** [reserve_idle_successor_or_armed]: reserve every retained intent in order;
    stop at the first that was armed and return its operation. *)
Fixpoint reserve_aborts (aborts : list TurnAbort) (w : World) : option OperationId * World :=
  match aborts with
  | [] => (None, w)
  | t :: rest =>
      let (reserved, w') := reserve_successor (ta_token t) w in
      if reserved then reserve_aborts rest w' else (Some (ta_op t), w')
  end.
Definition reserve_idle_successor_or_armed (h : WarmHandle) (w : World)
  : option OperationId * World := reserve_aborts (h_turn_aborts h) w.

(** ** Counters *)
Definition mint_turn_op (w : World) : OperationId * World :=
  ("turn-" +:+ pretty (w_turn_op_seq w), set_w_turn_op_seq (w_turn_op_seq w + 1)%N w).
Definition next_handle_id (w : World) : SessionHandleId * World :=
  ("h-" +:+ pretty (w_seq w), set_w_seq (w_seq w + 1)%N w).
Definition next_claim_id (w : World) : N * World :=
  (w_cleanup_claim_seq w, set_w_cleanup_claim_seq (w_cleanup_claim_seq w + 1)%N w).
(** [CancellationToken::new()] with [WarmExpiryIntent::new()]. *)
Definition new_token (w : World) : N * World :=
  (w_next_token w, set_w_next_token (w_next_token w + 1)%N w).

(** ** The table *)
Definition put_live (ctx : ContextId) (h : WarmHandle) (w : World) : World :=
  set_w_live (<[ctx := h]> (w_live w)) w.
Definition remove_live (ctx : ContextId) (w : World) : World :=
  set_w_live (delete ctx (w_live w)) w.
Definition contains_key (w : World) (ctx : ContextId) : bool :=
  bool_decide (is_Some (w_live w !! ctx)) || bool_decide (is_Some (w_tombstones w !! ctx)).
Definition drop_lease (l : LeaseId) (w : World) : World :=
  set_w_dropped_leases (l :: w_dropped_leases w) w.
Definition is_retired (w : World) (h : WarmHandle) : bool := bool_decide (h_lease h ∈ w_retired w).
Definition resolve_context_cancelled (ctx : ContextId) (w : World) : World :=
  set_w_perm_cancelled (ctx :: w_perm_cancelled w) w.

(** [prune_child_registration] and [prune_child_registration_locked]. *)
Definition prune_children (expired : list ContextId) (w : World) : World :=
  set_w_children
    (filter (fun kv => snd kv <> ∅) ((fun s => filter (fun c => c ∉ expired) s) <$> w_children w)) w.

(** An [ExpiryClaim]: the removed handle (or the retry capability) with the
    exact tombstone identity it may settle. *)
Record ExpiryClaim := mkClaim {
  ec_ctx : ContextId; ec_generation : N; ec_op : OperationId; ec_claim_id : N;
  ec_prune : bool; ec_lease : option LeaseId; ec_retry : CleanupRetryOwner }.

(** The tail shared by every path that expires a live handle: fire the abort
    tokens, publish the tombstone and take ownership of the resources. *)
Definition expire_with (cid : N) (ctx : ContextId) (h : WarmHandle) (op : OperationId) (prune : bool)
    (w : World) : ExpiryClaim * World :=
  let w := remove_live ctx w in
  let (h, w) := fire_lingering_turn_abort h w in
  let w := set_w_tombstones
             (<[ctx := mkTombstone (h_generation h) op cid TExpiring]> (w_tombstones w)) w in
  (mkClaim ctx (h_generation h) op cid prune (Some (h_lease h)) (mkRetry (h_backend h) (h_session h)), w).

Definition expire_handle (ctx : ContextId) (h : WarmHandle) (op : OperationId) (prune : bool)
    (w : World) : ExpiryClaim * World :=
  let (cid, w) := next_claim_id w in expire_with cid ctx h op prune w.

(** [take_expiry_claim_locked], [claim_armed_idle_locked] and
    [claim_or_reserve_idle_successor_locked] on a present handle. *)
Definition take_expiry_claim (ctx : ContextId) (h : WarmHandle) (op : OperationId) (w : World)
  : ExpiryClaim * World := expire_handle ctx h op true w.

(** [claim_release_locked]. *)
Definition claim_release (ctx : ContextId) (prune : bool) (w : World) : option ExpiryClaim * World :=
  match w_tombstones w !! ctx with
  | Some t =>
      match tb_state t with
      | TExpiring => (None, w)
      | TCleanupFailed _ =>
          match w_retries w !! ctx with
          | None => (None, w)
          | Some r =>
              let w := set_w_retries (delete ctx (w_retries w)) w in
              let (cid, w) := next_claim_id w in
              let w := set_w_tombstones
                         (<[ctx := mkTombstone (tb_generation t) (tb_op t) cid TExpiring]>
                            (w_tombstones w)) w in
              (Some (mkClaim ctx (tb_generation t) (tb_op t) cid prune None r), w)
          end
      end
  | None =>
      match w_live w !! ctx with
      | None => (None, w)
      | Some h =>
          match h_governed h with
          | Some g => (None, put_live ctx (set_h_expire true h) (cancel_token (go_abort g) w))
          | None =>
              if is_claimed (h_state h) then (None, put_live ctx (set_h_expire true h) w)
              else
                let w := resolve_context_cancelled ctx w in
                match h_op h with
                | Some op => let (c, w) := expire_handle ctx h op prune w in (Some c, w)
                | None => let (op, w) := mint_turn_op w in
                          let (c, w) := expire_handle ctx h op prune w in (Some c, w)
                end
          end
      end
  end.

(** [CleanupClaimSettlement::settle]: only the exact claim may settle. *)
Definition settle_cleanup (c : ExpiryClaim) (res : result BackendCleanupDispositionV1 BridgeError)
    (w : World) : World :=
  match w_tombstones w !! ec_ctx c with
  | Some t =>
      if bool_decide (tb_generation t = ec_generation c) && bool_decide (tb_op t = ec_op c)
         && bool_decide (tb_claim_id t = ec_claim_id c)
      then match res with
           | Ok _ => set_w_retries (delete (ec_ctx c) (w_retries w))
                       (set_w_tombstones (delete (ec_ctx c) (w_tombstones w)) w)
           | Err _ =>
               set_w_retries (<[ec_ctx c := ec_retry c]> (w_retries w))
                 (set_w_tombstones
                    (<[ec_ctx c := mkTombstone (tb_generation t) (tb_op t) (tb_claim_id t)
                                     (TCleanupFailed "warm.cleanup.release_failed")]>
                       (w_tombstones w)) w)
           end
      else w
  | None => w
  end.

(** ** Turns *)
Section Turns.
Context `{F64} (warn_at : option N).

(** [warm_turn_from_handle]: the turn takes the pending seed and injects
    off the handle. *)
Definition warm_turn_from_handle (h : WarmHandle) (warning : option UsageWarning)
    (op : OperationId) (token : N) : WarmTurn * WarmHandle :=
  ({| wt_backend := h_backend h; wt_session := h_session h; wt_usage_warning := warning;
      wt_generation := h_generation h; wt_op := op; wt_token := token;
      wt_seed := h_pending_seed h; wt_injects := h_pending_injects h; wt_agent := h_agent h;
      wt_model := model (fp_config (h_fingerprint h));
      wt_effort := effort_name <$> effort (fp_config (h_fingerprint h));
      wt_mode := mode (fp_config (h_fingerprint h)) |},
   set_h_pending_injects [] (set_h_pending_seed None h)).

(** Mint a turn on a handle: the block that every successful checkout ends
    with. *)
Definition start_turn (ctx : ContextId) (h : WarmHandle) (warning : option UsageWarning)
    (w : World) : WarmTurn * World :=
  let (op, w) := mint_turn_op w in
  let (token, w) := new_token w in
  let h := set_h_last_used (w_now w)
             (set_h_turn_aborts (h_turn_aborts h ++ [mkTurnAbort op token])
                (set_h_op (Some op) (set_h_state Running h))) in
  let (turn, h) := warm_turn_from_handle h warning op token in
  (turn, put_live ctx h w).

(** [checkout_existing_turn]. *)
Definition checkout_existing_turn (ctx : ContextId) (w : World)
  : result WarmTurn BridgeError * option ExpiryClaim * World :=
  if bool_decide (is_Some (w_tombstones w !! ctx)) then (Err SessionExpired, None, w) else
  match w_live w !! ctx with
  | None => (Err SessionNotFound, None, w)
  | Some h =>
      if is_retired w h then (Err SessionExpired, None, w) else
      if bool_decide (h_state h <> Idle) then (Err HandleBusy, None, w) else
      let (armed, w) := reserve_idle_successor_or_armed h w in
      match armed with
      | Some op => let (c, w) := take_expiry_claim ctx h op w in (Err SessionExpired, Some c, w)
      | None => let (turn, w) := start_turn ctx h (eval_warn warn_at (h_usage h)) w in
                (Ok turn, None, w)
      end
  end.

(** Lock #1 of [checkout_turn_inner]: the precedence checks. [inl] is an
    early return, [inr saw_handle] continues off-lock. *)
Definition checkout_lock1 (ctx : ContextId) (w : World)
  : (BridgeError * option ExpiryClaim + bool) * World :=
  if bool_decide (is_Some (w_tombstones w !! ctx)) then (inl (SessionExpired, None), w) else
  match w_live w !! ctx with
  | None => (inr false, w)
  | Some h =>
      if is_retired w h then (inl (SessionExpired, None), w) else
      if bool_decide (h_state h <> Idle) then (inl (HandleBusy, None), w) else
      match first_armed_idle_expiry w h with
      | Some op => let (c, w) := take_expiry_claim ctx h op w in (inl (SessionExpired, Some c), w)
      | None => (inr true, w)
      end
  end.

(** What lock #2 of [checkout_turn_inner] decides. *)
Inductive Lock2 :=
| L2Return (r : result WarmTurn BridgeError) (c : option ExpiryClaim)
| L2Reconcile (claimed_id : SessionHandleId) (backend : BackendId) (session : SessionId)
    (reseed_field : string)
| L2Configure (handle_id : SessionHandleId) (claim : OperationId) (backend : BackendId)
    (session : SessionId).

(** The routing of a fingerprint difference that is not empty: an error, or
    the field a failed reconcile reports. *)
Definition route_diff (d : list string) (fp : SessionSpecFingerprint) : result string BridgeError :=
  if bool_decide ("agent" ∈ d) then Err (ConfigMismatch "agent")
  else if bool_decide ("cwd" ∈ d) then Err (ConfigMismatch "cwd")
  else if bool_decide ("mode" ∈ d) then Err (ConfigReseedRequired "mode")
  else if bool_decide ("model" ∈ d) && bool_decide (model (fp_config fp) = None)
       then Err (ConfigReseedRequired "model")
  else if bool_decide ("effort" ∈ d) && bool_decide (effort (fp_config fp) = None)
       then Err (ConfigReseedRequired "effort")
  else Ok (if bool_decide ("model" ∈ d) then "model" else "effort").

(** Lock #2, existing-handle path. *)
Definition checkout_existing_handle (ctx : ContextId) (h : WarmHandle)
    (fp : SessionSpecFingerprint) (w : World) : Lock2 * World :=
  let d := diff (h_fingerprint h) fp in
  if bool_decide (d = []) then
    let (armed, w) := reserve_idle_successor_or_armed h w in
    match armed with
    | Some op => let (c, w) := take_expiry_claim ctx h op w in
                 (L2Return (Err SessionExpired) (Some c), w)
    | None => let (turn, w) := start_turn ctx h (eval_warn warn_at (h_usage h)) w in
              (L2Return (Ok turn) None, w)
    end
  else
    match route_diff d fp with
    | Err e => (L2Return (Err e) None, w)
    | Ok reseed_field =>
        let (armed, w) := reserve_idle_successor_or_armed h w in
        match armed with
        | Some op => let (c, w) := take_expiry_claim ctx h op w in
                     (L2Return (Err SessionExpired) (Some c), w)
        | None =>
            let h' := set_h_last_used (w_now w) (set_h_expire false (set_h_state Reconciling h)) in
            (L2Reconcile (h_id h) (h_backend h) (h_session h) reseed_field, put_live ctx h' w)
        end
    end.

(** Lock #2, fresh path: claim the context as [Configuring]. *)
Definition checkout_fresh (ctx : ContextId) (agent : AgentId) (fp : SessionSpecFingerprint)
    (rs : Resolved) (w : World) : Lock2 * World :=
  let (hid, w) := next_handle_id w in
  match id_parse "SessionId" (session_id ctx 0) with
  | Err _ => (L2Return (Err (InvalidRequest "contextId")) None, w)
  | Ok session =>
      let (claim, w) := mint_turn_op w in
      let h := {| h_id := hid; h_agent := agent; h_backend := rs_backend rs; h_session := session;
                  h_caps := rs_caps rs; h_generation := 0; h_fingerprint := fp;
                  h_lease := rs_lease rs; h_state := Configuring; h_usage := usage_default;
                  h_expire := false; h_op := Some claim; h_turn_aborts := []; h_governed := None;
                  h_pending_seed := None; h_pending_injects := []; h_last_used := w_now w |} in
      (L2Configure hid claim (rs_backend rs) session, put_live ctx h w)
  end.

Definition checkout_lock2 (ctx : ContextId) (agent : AgentId) (ov : option AgentOverride)
    (cwd : option string) (saw_handle : bool) (rs : Resolved) (w : World) : Lock2 * World :=
  let fp := mkFingerprint agent (effective_config (rs_entry rs) ov) cwd in
  if bool_decide (is_Some (w_tombstones w !! ctx)) then (L2Return (Err SessionExpired) None, w) else
  match w_live w !! ctx with
  | Some h =>
      if is_retired w h then (L2Return (Err SessionExpired) None, w) else
      if bool_decide (h_state h <> Idle) then (L2Return (Err HandleBusy) None, w) else
      checkout_existing_handle ctx h fp w
  | None =>
      if saw_handle then (L2Return (Err SessionExpired) None, w)
      else checkout_fresh ctx agent fp rs w
  end.

(** The exact-claim test that every settle performs. *)
Definition still_ours (w : World) (ctx : ContextId) (hid : SessionHandleId) (s : SessionState)
  : option WarmHandle :=
  match w_live w !! ctx with
  | Some h => if bool_decide (h_id h = hid) && bool_decide (h_state h = s) then Some h else None
  | None => None
  end.

Inductive ReconcileSettle :=
| RSDone (r : result WarmTurn BridgeError)
| RSExpire (cancelled_or_released : bool).

(** The lock taken after [reconcile_config]: commit the new fingerprint and
    mint the turn, or tombstone the handle as [Expiring]. *)
Definition settle_reconcile (ctx : ContextId) (claimed_id : SessionHandleId)
    (fp : SessionSpecFingerprint) (outcome : result ReconcileOutcome BridgeError) (w : World)
  : ReconcileSettle * World :=
  match still_ours w ctx claimed_id Reconciling with
  | None => (RSDone (Err SessionExpired), w)
  | Some h =>
      let clean := match outcome with Ok Applied => negb (h_expire h) | _ => false end in
      if clean then
        let (turn, w) := start_turn ctx (set_h_fingerprint fp h) (eval_warn warn_at (h_usage h)) w in
        (RSDone (Ok turn), w)
      else
        let (h', w) := fire_lingering_turn_abort h w in
        (RSExpire (h_expire h), put_live ctx (set_h_state Expiring h') w)
  end.

Inductive ConfigureSettle :=
| CSDone (r : result WarmTurn BridgeError)   (* settled; an error removed the handle *)
| CSLost (r : result unit BridgeError)       (* the claim is no longer ours *)
| CSExpire.                                  (* deferred expiry *)

(** Lock #3: settle the exact [Configuring] claim. *)
Definition settle_configure (ctx : ContextId) (handle_id : SessionHandleId) (claim : OperationId)
    (cfg : result unit BridgeError) (w : World) : ConfigureSettle * World :=
  match still_ours w ctx handle_id Configuring with
  | Some h =>
      if bool_decide (h_op h = Some claim) then
        if h_expire h then (CSExpire, put_live ctx (set_h_state Expiring h) w)
        else match cfg with
             | Ok _ => let (turn, w) := start_turn ctx h None w in (CSDone (Ok turn), w)
             | Err e => (CSDone (Err e), drop_lease (h_lease h) (remove_live ctx w))
             end
      else (CSLost cfg, w)
  | None => (CSLost cfg, w)
  end.

(** [if let Some(h) = tab.remove(ctx) { drop(h.lease) }]. *)
Definition remove_and_drop (ctx : ContextId) (w : World) : World :=
  match w_live w !! ctx with
  | Some h => drop_lease (h_lease h) (remove_live ctx w)
  | None => w
  end.

(** [expire_retired_idle_child], first half. *)
Definition take_retired_idle_child (child : ContextId) (w : World)
  : option (BackendId * SessionId) * World :=
  match w_live w !! child with
  | Some h =>
      if bool_decide (h_state h <> Idle) || negb (is_retired w h) then (None, w)
      else let (h', w') := fire_lingering_turn_abort h (remove_live child w) in
           (Some (h_backend h', h_session h'), drop_lease (h_lease h') w')
  | None => (None, w)
  end.

(** [begin_expire_current]. *)
Definition begin_expire_current (ctx : ContextId) (generation : N) (op : OperationId) (w : World)
  : option ExpiryClaim * World :=
  if bool_decide (is_Some (w_tombstones w !! ctx)) then (None, w) else
  match w_live w !! ctx with
  | None => (None, w)
  | Some h =>
      if negb (bool_decide (h_generation h = generation)) then (None, w) else
      match (if negb (bool_decide (h_op h = Some op)) && has_armed_expiry_intent w h op
             then h_governed h else None) with
      | Some g => (None, put_live ctx (set_h_expire true h) (cancel_token (go_abort g) w))
      | None =>
          if bool_decide (h_op h = Some op) && bool_decide (h_state h = Cancelling)
          then (None, put_live ctx (set_h_expire true h) w)
          else if (bool_decide (h_op h = Some op) && bool_decide (h_state h = Running))
                  || (bool_decide (h_op h = None) && bool_decide (h_state h = Idle)
                      && has_armed_expiry_intent w h op)
          then let (c, w) := take_expiry_claim ctx h op w in (Some c, w)
          else (None, w)
      end
  end.

(** [finish_owned_turn]. *)
Definition finish_owned_turn (ctx : ContextId) (gen : N) (op : OperationId) (w : World)
  : option ExpiryClaim * World :=
  match w_live w !! ctx with
  | None => (None, w)
  | Some h =>
      let owned_ready := bool_decide (h_generation h = gen) && bool_decide (h_op h = Some op)
                         && match h_governed h with Some g => go_ready g | None => false end in
      if owned_ready && h_expire h then
        let (c, w) := take_expiry_claim ctx h op w in (Some c, w)
      else
        let h := if owned_ready then set_h_governed None h else h in
        let h := if bool_decide (h_generation h = gen)
                 then set_h_turn_aborts (filter (fun a => ta_op a <> op) (h_turn_aborts h)) h
                 else h in
        let h := if (match h_governed h with None => true | Some _ => false end)
                    && bool_decide (h_generation h = gen) && bool_decide (h_op h = Some op)
                    && bool_decide (h_state h = Running)
                 then set_h_last_used (w_now w) (set_h_op None (set_h_state Idle h))
                 else h in
        (None, put_live ctx h w)
  end.

(** [record_usage]; [wall_ms] is the injected wall clock. *)
Definition record_usage (ctx : ContextId) (gen : N) (op : OperationId) (snap : UsageSnapshot)
    (wall_ms : Z) (w : World) : World :=
  let snap := mkUsage (used snap) (size_ snap) (cost snap) (terminal_usage snap) wall_ms in
  match w_live w !! ctx with
  | Some h =>
      if bool_decide (h_generation h = gen) && bool_decide (h_op h = Some op)
         && bool_decide (h_state h = Running)
      then put_live ctx (set_h_usage (merge_missing_from snap (h_usage h)) h) w
      else w
  | None => w
  end.

(** [inject]. *)
Definition MAX_INJECTS : nat := 32.
Definition MAX_INJECT_BYTES : nat := 65536.
Definition inject_bytes (l : list QueuedInject) : nat := sum_list_with (fun q => String.length (qi_text q)) l.

Definition inject_candidate (q : QueuedInject) (queue : list QueuedInject) : list QueuedInject :=
  match qi_dedupe_key q with
  | Some key =>
      match list_find (fun e => qi_dedupe_key e = Some key) queue with
      | Some (idx, _) => <[idx := q]> queue
      | None => queue ++ [q]
      end
  | None => queue ++ [q]
  end.

Definition inject (ctx : ContextId) (q : QueuedInject) (w : World) : result nat BridgeError * World :=
  match w_live w !! ctx with
  | None => (Err SessionNotFound, w)
  | Some h =>
      match h_state h with
      | Idle | Running =>
          let candidate := inject_candidate q (h_pending_injects h) in
          if ((MAX_INJECTS <? length candidate) || (MAX_INJECT_BYTES <? inject_bytes candidate))%nat
          then (Err HandleBusy, w)
          else (Ok (length candidate), put_live ctx (set_h_pending_injects candidate h) w)
      | _ => (Err HandleBusy, w)
      end
  end.

(** [status]; [idle_age] is in the unit of the clock. *)
Record SessionStatusInfo := mkStatus {
  st_state : string; st_agent : string; st_generation : N; st_idle_age : Z;
  st_capabilities : AgentSessionCaps; st_usage : UsageSnapshot; st_over_threshold : option bool }.

Definition state_name (s : SessionState) : string :=
  match s with
  | Idle => "idle" | Running => "running" | Reconciling => "reconciling"
  | Expiring => "expiring" | Resetting => "resetting" | Compacting => "compacting"
  | Cancelling => "cancelling" | Configuring => "configuring"
  end.

Definition status (ctx : ContextId) (w : World) : option SessionStatusInfo :=
  match w_tombstones w !! ctx with
  | Some t =>
      Some (mkStatus (match tb_state t with TExpiring => "expiring" | TCleanupFailed _ => "cleanup_failed" end)
              "" (tb_generation t) 0 (mkCaps false false false false false) usage_default None)
  | None =>
      (fun h => mkStatus (state_name (h_state h)) (h_agent h) (h_generation h)
                  (Z.max 0 (w_now w - h_last_used h)) (h_caps h) (h_usage h)
                  (over_threshold warn_at (h_usage h))) <$> w_live w !! ctx
  end.

(** *** Cancel *)

(** The claim half of [cancel_inner_expected]: [inl] answers the caller,
    [inr] calls [backend.cancel] with the handle claimed as [Cancelling]. *)
Definition cancel_claim (ctx : ContextId) (expected : option (N * OperationId)) (w : World)
  : (result unit BridgeError
     + (BackendId * SessionId * SessionHandleId * N * OperationId)) * World :=
  if bool_decide (is_Some (w_tombstones w !! ctx)) then (inl (Err SessionExpired), w) else
  match w_live w !! ctx with
  | None => (inl (Err SessionNotFound), w)
  | Some h =>
      let unexpected := match expected with
                        | Some (generation, op) =>
                            bool_decide (h_generation h <> generation)
                            || bool_decide (h_op h <> Some op) || bool_decide (h_state h <> Running)
                        | None => false
                        end in
      if unexpected then (inl (Ok tt), w) else
      match h_governed h with
      | Some g => (inl (Ok tt), cancel_token (go_abort g) w)
      | None =>
          if bool_decide (h_state h = Cancelling) then (inl (Ok tt), w)
          else if is_claimed (h_state h) then (inl (Ok tt), put_live ctx (set_h_expire true h) w)
          else
            let w := resolve_context_cancelled ctx w in
            if bool_decide (h_state h <> Running) then
              (inl (Ok tt), put_live ctx (set_h_op None (set_h_state Idle h)) w)
            else
              let w := put_live ctx (set_h_last_used (w_now w) (set_h_state Cancelling h)) w in
              let (cid, w) := next_claim_id w in
              let (fallback, w) := mint_turn_op w in
              (inr (h_backend h, h_session h, h_id h, cid, fallback), w)
      end
  end.

Inductive CancelSettle :=
| CnKept                               (* keep-warm: back to Idle *)
| CnExpired (c : ExpiryClaim)
| CnLost (gone : bool).                (* the claim is no longer ours *)

(** The lock taken after [backend.cancel]. *)
Definition settle_cancel (ctx : ContextId) (claimed_id : SessionHandleId) (cid : N)
    (fallback : OperationId) (prune : bool) (cancel_result : result unit BridgeError) (w : World)
  : CancelSettle * World :=
  match still_ours w ctx claimed_id Cancelling with
  | None => (CnLost (negb (contains_key w ctx)), w)
  | Some h =>
      let deferred := h_expire h || match h_op h with
                                    | Some op => has_armed_expiry_intent w h op
                                    | None => false
                                    end in
      if is_ok cancel_result && negb deferred
      then (CnKept, put_live ctx (set_h_op None (set_h_state Idle h)) w)
      else let op := default fallback (h_op h) in
           let (c, w) := expire_with cid ctx h op prune w in (CnExpired c, w)
  end.

(** How the cancel flight combines the two results. *)
Definition cancel_reply (cancel_result : result unit BridgeError)
    (cleanup : result BackendCleanupDispositionV1 BridgeError) (gone_or_expired : bool)
  : result unit BridgeError :=
  match cancel_result, cleanup with
  | Err e, c => if gone_or_expired then Err e
                else match c with Ok _ => Ok tt | Err ce => Err ce end
  | Ok _, Err ce => Err ce
  | Ok _, Ok _ => Ok tt
  end.

(** *** Reset *)
Record ResetPlan := mkPlan {
  rp_backend : BackendId; rp_old : SessionId; rp_claimed_id : SessionHandleId;
  rp_new_generation : N; rp_new : SessionId; rp_config : EffectiveConfig; rp_cwd : option string }.

(** The fallible part shared by reset and compact: the next session id and
    the re-parsed directory. *)
Definition reset_plan (ctx : ContextId) (h : WarmHandle) : result ResetPlan BridgeError :=
  let new_gen := (h_generation h + 1)%N in
  match id_parse "SessionId" (session_id ctx new_gen) with
  | Err _ => Err (InvalidRequest "contextId")
  | Ok new_id =>
      let plan cwd := mkPlan (h_backend h) (h_session h) (h_id h) new_gen new_id
                             (fp_config (h_fingerprint h)) cwd in
      match fp_cwd (h_fingerprint h) with
      | None => Ok (plan None)
      | Some s => match session_cwd_parse s with
                  | Ok c => Ok (plan (Some c))
                  | Err _ => Err (ConfigInvalid "session cwd")
                  end
      end
  end.

(** The retry surface at the start of [reset_session_inner]. *)
Definition reset_retry (ctx : ContextId) (w : World) : option (ExpiryClaim * N) * World :=
  match w_tombstones w !! ctx with
  | Some (mkTombstone generation _ _ (TCleanupFailed _)) =>
      let (c, w) := claim_release ctx false w in ((fun c => (c, generation)) <$> c, w)
  | _ => (None, w)
  end.

(** The claim half of [reset_session_inner]. *)
Definition reset_claim (ctx : ContextId) (force : bool) (w : World)
  : (result ResetOutcome BridgeError + ResetPlan) * World :=
  match w_live w !! ctx with
  | None => (inl (Ok NotFound), w)
  | Some h =>
      match h_governed h with
      | Some g =>
          if negb force then (inl (Err HandleBusy), w)
          else (inl (Ok (Cleared (h_generation h))),
                put_live ctx (set_h_expire true h) (cancel_token (go_abort g) w))
      | None =>
          let proceed :=
            match reset_plan ctx h with
            | Err e => (inl (Err e), w)
            | Ok plan =>
                let w := resolve_context_cancelled ctx w in
                let (h', w) := fire_lingering_turn_abort h w in
                (inr plan, put_live ctx (set_h_expire false (set_h_state Resetting h')) w)
            end in
          match h_state h, force with
          | Idle, _ => proceed
          | Running, true => proceed
          | Configuring, true =>
              (inl (Ok (Cleared (h_generation h))), put_live ctx (set_h_expire true h) w)
          | _, _ => (inl (Err HandleBusy), w)
          end
      end
  end.

Inductive ResetSettle :=
| RtDone (r : result ResetOutcome BridgeError)
| RtLost                    (* the claim is no longer ours *)
| RtAbandon.                (* configure failed or expiry deferred *)

(** The lock taken after the new session is configured; [seed] is the
    summary of a compaction, which also keeps the queued injects. *)
Definition settle_reset (ctx : ContextId) (state : SessionState) (plan : ResetPlan)
    (cfg : result unit BridgeError) (seed : option string) (keep_injects : bool) (w : World)
  : ResetSettle * World :=
  match still_ours w ctx (rp_claimed_id plan) state with
  | None => (RtLost, w)
  | Some h =>
      if negb (is_ok cfg) || h_expire h then (RtAbandon, w)
      else
        let h := set_h_op None (set_h_usage usage_default
                   (set_h_generation (rp_new_generation plan) (set_h_session (rp_new plan) h))) in
        let h := set_h_pending_seed seed (set_h_turn_aborts [] h) in
        let h := if keep_injects then h else set_h_pending_injects [] h in
        (RtDone (Ok (Cleared (rp_new_generation plan))),
         put_live ctx (set_h_last_used (w_now w) (set_h_state Idle h)) w)
  end.

(** *** Compact: the claim half of [compact_session_prepared] *)
Definition compact_claim (ctx : ContextId) (expected : option CompactionSnapshot) (w : World)
  : (result ResetOutcome BridgeError + ResetPlan) * World :=
  if negb (bool_decide (expected = compaction_snapshot <$> w_live w !! ctx))
  then (inl (Err (ConfigMismatch "accounting selection")), w)
  else match w_live w !! ctx with
  | None => (inl (Ok NotFound), w)
  | Some h =>
      if bool_decide (h_state h <> Idle) then (inl (Err HandleBusy), w)
      else if (if h_pending_seed h then true else false) then (inl (Err HandleBusy), w)
      else if negb (bool_decide (h_pending_injects h = [])) then (inl (Err HandleBusy), w)
      else match reset_plan ctx h with
           | Err e => (inl (Err e), w)
           | Ok plan => (inr plan, put_live ctx (set_h_expire false (set_h_state Compacting h)) w)
           end
  end.

(** The first lock of [expire_after_summarize]. *)
Definition expire_compacting (ctx : ContextId) (claimed_id : SessionHandleId) (w : World)
  : bool * World :=
  match still_ours w ctx claimed_id Compacting with
  | None => (false, w)
  | Some h => (true, put_live ctx (set_h_state Expiring h) w)
  end.

(** *** Reaping *)
(** [Instant::duration_since] saturates at zero. *)
Definition reapable (ttl now : Z) (h : WarmHandle) : bool :=
  bool_decide (h_state h = Idle) && (ttl <=? Z.max 0 (now - h_last_used h)).

Definition reap_snapshot (ttl : Z) (w : World) : list ContextId :=
  fst <$> filter (fun kv => reapable ttl (w_now w) (snd kv) = true) (map_to_list (w_live w)).

(** One iteration of the second lock of [reap_idle]. *)
Definition reap_one (ttl now : Z) (ctx : ContextId) (w : World) : option ExpiryClaim * World :=
  match w_live w !! ctx with
  | Some h =>
      if reapable ttl now h then
        let w := resolve_context_cancelled ctx w in
        let (op, w) := match h_op h with Some op => (op, w) | None => mint_turn_op w end in
        let (c, w) := expire_handle ctx h op true w in (Some c, w)
      else (None, w)
  | None => (None, w)
  end.

Fixpoint reap_all (ttl now : Z) (ctxs : list ContextId) (w : World) : list ExpiryClaim * World :=
  match ctxs with
  | [] => ([], w)
  | c :: rest =>
      let (claim, w) := reap_one ttl now c w in
      let (claims, w) := reap_all ttl now rest w in
      (option_list claim ++ claims, w)
  end.

(** The children are pruned of every reaped context, under the same locks. *)
Definition reap_commit (ttl now : Z) (ctxs : list ContextId) (w : World) : list ExpiryClaim * World :=
  let (claims, w) := reap_all ttl now ctxs w in
  (claims, if bool_decide (claims = []) then w else prune_children (ec_ctx <$> claims) w).

(** *** Release with children: parent and registered children are claimed
    under both locks. *)
Fixpoint claim_release_all (ctxs : list ContextId) (w : World) : list ExpiryClaim * World :=
  match ctxs with
  | [] => ([], w)
  | c :: rest =>
      let (claim, w) := claim_release c false w in
      let (claims, w) := claim_release_all rest w in
      (option_list claim ++ claims, w)
  end.

Definition release_with_children (ctx : ContextId) (w : World) : list ExpiryClaim * World :=
  let snapshot := default ∅ (w_children w !! ctx) in
  let (claims, w) := claim_release_all (ctx :: elements snapshot) w in
  (claims, set_w_children (delete ctx (w_children w)) w).
End Turns.
