(* ===== verification/SessionGoverned.v ===== *)
(** * Warm sessions: governed turn claims

    [GovernedTurnClaim]: reversible ownership of one exact governed operation
    ([claim_existing_turn], [claim_turn_observed], the two critical sections
    of [apply_session], [settle] and the first-poll prompt gate). Accounting
    admission is the caller's; a claim arrives here already admitted. *)
From S2P Require Import Prelude Domain SessionCwd SessionTypes SessionOps.
From stdpp Require Import pretty.
Open Scope Z_scope.
Open Scope bridge_scope.

Record GovernedTurnClaim := mkGovernedClaim {
  gc_ctx : ContextId; gc_handle : SessionHandleId; gc_generation : N; gc_op : OperationId;
  gc_backend : BackendId; gc_before : SessionSpecFingerprint; gc_intended : SessionSpecFingerprint;
  gc_fresh : bool; gc_applying : bool; gc_entry : option EntryId; gc_abort : N }.

Definition set_applying (c : GovernedTurnClaim) : GovernedTurnClaim :=
  mkGovernedClaim (gc_ctx c) (gc_handle c) (gc_generation c) (gc_op c) (gc_backend c)
    (gc_before c) (gc_intended c) (gc_fresh c) true (gc_entry c) (gc_abort c).

(** [AccountingFailureV1], as far as the claim produces it. *)
Inductive ApplyFailure :=
| CanceledBeforePrompt
| ApplyError (e : BridgeError).

Section Governed.
Context `{F64} (warn_at : option N).

(** The intended fingerprint: overrides on top of the retained one; a mode
    change needs a reseed. *)
Definition intended_fingerprint (fp : SessionSpecFingerprint) (ov : option AgentOverride)
  : result SessionSpecFingerprint BridgeError :=
  match ov with
  | None => Ok fp
  | Some o =>
      let c := fp_config fp in
      let c := match ov_model o with
               | Some m => mkConfig (Some m) (effort c) (mode c) | None => c end in
      let c := match ov_effort o with
               | Some e => mkConfig (model c) (Some e) (mode c) | None => c end in
      match ov_mode o with
      | Some m => if bool_decide (Some m <> mode c) then Err (ConfigReseedRequired "mode")
                  else Ok (mkFingerprint (fp_agent fp) c (fp_cwd fp))
      | None => Ok (mkFingerprint (fp_agent fp) c (fp_cwd fp))
      end
  end.

(** [claim_governed_locked]. *)
Definition claim_governed (ctx : ContextId) (agent : option AgentId) (ov : option AgentOverride)
    (cwd : option string) (fresh : bool) (w : World)
  : result GovernedTurnClaim BridgeError * option ExpiryClaim * World :=
  if bool_decide (is_Some (w_tombstones w !! ctx)) then (Err SessionExpired, None, w) else
  match w_live w !! ctx with
  | None => (Err SessionNotFound, None, w)
  | Some h =>
      if is_retired w h then (Err SessionExpired, None, w) else
      if bool_decide (h_state h <> Idle) then (Err HandleBusy, None, w) else
      match first_armed w (h_turn_aborts h) with
      | Some op => let (c, w) := take_expiry_claim ctx h op w in (Err SessionExpired, Some c, w)
      | None =>
          if (match agent with Some a => bool_decide (a <> h_agent h) | None => false end)
          then (Err (ConfigMismatch "agent"), None, w) else
          if (match cwd with
              | Some c => bool_decide (Some c <> fp_cwd (h_fingerprint h)) | None => false end)
          then (Err (ConfigMismatch "cwd"), None, w) else
          match intended_fingerprint (h_fingerprint h) ov with
          | Err e => (Err e, None, w)
          | Ok intended =>
              let (op, w) := mint_turn_op w in
              let (token, w) := new_token w in
              let claim := mkGovernedClaim ctx (h_id h) (h_generation h) op (h_backend h)
                             (h_fingerprint h) intended fresh false
                             (w_entries w !! h_agent h) token in
              let h := set_h_governed (Some (mkGoverned token false))
                         (set_h_op (Some op) (set_h_state Running h)) in
              (Ok claim, None, put_live ctx h w)
          end
      end
  end.

(** The second lock of [claim_turn_observed]: insert a fresh Idle handle and
    claim it. *)
Definition claim_fresh (ctx : ContextId) (agent : AgentId) (ov : option AgentOverride)
    (cwd : option string) (rs : Resolved) (w : World)
  : result GovernedTurnClaim BridgeError * option ExpiryClaim * World :=
  if contains_key w ctx then (Err HandleBusy, None, w) else
  match id_parse "SessionId" (session_id ctx 0) with
  | Err e => (Err e, None, w)
  | Ok session =>
      let (hid, w) := next_handle_id w in
      let h := {| h_id := hid; h_agent := agent; h_backend := rs_backend rs; h_session := session;
                  h_caps := rs_caps rs; h_generation := 0;
                  h_fingerprint := mkFingerprint agent (effective_config (rs_entry rs) ov) cwd;
                  h_lease := rs_lease rs; h_state := Idle; h_usage := usage_default;
                  h_expire := false; h_op := None; h_turn_aborts := []; h_governed := None;
                  h_pending_seed := None; h_pending_injects := []; h_last_used := w_now w |} in
      let '(r, c, w) := claim_governed ctx None None None true (put_live ctx h w) in
      (r, c, if is_ok r then w else remove_and_drop ctx w)
  end.

(** [owns] and [registry_is_current]. *)
Definition owns (c : GovernedTurnClaim) (h : WarmHandle) : bool :=
  bool_decide (h_id h = gc_handle c) && bool_decide (h_generation h = gc_generation c)
  && bool_decide (h_op h = Some (gc_op c)) && (if h_governed h then true else false).

Definition registry_is_current (w : World) (c : GovernedTurnClaim) (h : WarmHandle) : bool :=
  negb (is_retired w h) && bool_decide (h_backend h = gc_backend c)
  && match gc_entry c with
     | None => true
     | Some e => bool_decide (w_entries w !! fp_agent (gc_intended c) = Some e)
     end.

Definition owned_handle (w : World) (c : GovernedTurnClaim) : option WarmHandle :=
  match w_live w !! gc_ctx c with
  | Some h => if owns c h then Some h else None
  | None => None
  end.

Definition any_armed (w : World) (h : WarmHandle) : bool :=
  existsb (fun t => intent_armed w (ta_token t)) (h_turn_aborts h).

Inductive ApplyBegin :=
| ABFail (f : ApplyFailure) (applying : bool)
| ABConfigure (session : SessionId)          (* fresh: configure_session *)
| ABReconcile (session : SessionId)          (* changed selection: reconcile_config *)
| ABReady.                                   (* nothing to apply *)

(** First critical section of [apply_session]. [late] are the intents that
    another thread arms between the two intent checks. *)
Definition apply_begin (c : GovernedTurnClaim) (rs : Resolved) (late : list N) (w : World)
  : ApplyBegin * World :=
  match owned_handle w c with
  | None => (ABFail (ApplyError SessionExpired) false, w)
  | Some h =>
      if is_cancelled w (gc_abort c) then (ABFail CanceledBeforePrompt false, w)
      else if h_expire h then (ABFail (ApplyError SessionExpired) false, w)
      else if negb (registry_is_current w c h) || bool_decide (rs_lease rs ∈ w_retired w)
              || bool_decide (rs_backend rs <> gc_backend c)
              || (match gc_entry c with Some e => bool_decide (e <> rs_entry_id rs) | None => false end)
              || bool_decide (h_fingerprint h <> gc_before c)
           then (ABFail (ApplyError (ConfigMismatch "claim identity")) false, w)
      else match (match fp_cwd (gc_intended c) with
                  | Some s => session_cwd_parse s | None => Ok "" end) with
           | Err e => (ABFail (ApplyError e) false, w)
           | Ok _ =>
               if any_armed w h then (ABFail (ApplyError SessionExpired) false, w)
               else
                 let w := foldl (fun w t => arm_intent t w) w late in
                 let (armed, w) := reserve_aborts (h_turn_aborts h) w in
                 match armed with
                 | Some _ => (ABFail (ApplyError SessionExpired) true, w)
                 | None =>
                     if gc_fresh c then (ABConfigure (h_session h), w)
                     else if bool_decide (gc_before c <> gc_intended c)
                          then (ABReconcile (h_session h), w)
                     else (ABReady, w)
                 end
           end
  end.

(** Second critical section of [apply_session]: commit and mint the turn. *)
Definition apply_commit (c : GovernedTurnClaim) (rs : Resolved) (w : World)
  : result WarmTurn ApplyFailure * World :=
  match owned_handle w c with
  | None => (Err (ApplyError SessionExpired), w)
  | Some h =>
      if is_cancelled w (gc_abort c) then (Err CanceledBeforePrompt, w)
      else if h_expire h then (Err (ApplyError SessionExpired), w)
      else if negb (registry_is_current w c h) || bool_decide (rs_lease rs ∈ w_retired w)
              || bool_decide (h_fingerprint h <> gc_before c)
           then (Err (ApplyError (ConfigMismatch "claim identity")), w)
      else
        let h := set_h_governed ((fun g => mkGoverned (go_abort g) true) <$> h_governed h)
                   (set_h_fingerprint (gc_intended c) h) in
        let h := set_h_last_used (w_now w)
                   (set_h_turn_aborts (h_turn_aborts h ++ [mkTurnAbort (gc_op c) (gc_abort c)]) h) in
        let (turn, h) := warm_turn_from_handle h (eval_warn warn_at (h_usage h)) (gc_op c) (gc_abort c) in
        (Ok turn, put_live (gc_ctx c) h w)
  end.

(** [settle]: roll back, or expire an uncertain apply. *)
Definition settle_claim (c : GovernedTurnClaim) (w : World)
  : result BackendCleanupDispositionV1 BridgeError * option ExpiryClaim * World :=
  match owned_handle w c with
  | None => (Ok CleanupUnknown, None, w)
  | Some h =>
      let expire := gc_applying c || h_expire h || any_armed w h in
      let h := set_h_governed None h in
      if gc_fresh c && negb (gc_applying c)
      then (Ok CleanupComplete, None, drop_lease (h_lease h) (remove_live (gc_ctx c) w))
      else if expire
      then let (ec, w) := take_expiry_claim (gc_ctx c) h (gc_op c) w in (Ok CleanupComplete, Some ec, w)
      else (Ok CleanupComplete, None,
            put_live (gc_ctx c) (set_h_op None (set_h_state Idle h)) w)
  end.

(** [first_poll]: the gate taken exactly once, with the lock held. *)
Definition first_poll (c : GovernedTurnClaim) (session : SessionId) (backend : BackendId) (w : World)
  : result unit ApplyFailure * World :=
  match owned_handle w c with
  | None => (Err (ApplyError SessionExpired), w)
  | Some h =>
      if negb (match h_governed h with Some g => go_ready g | None => false end
               && bool_decide (h_session h = session))
      then (Err (ApplyError SessionExpired), w)
      else if is_cancelled w (gc_abort c) then (Err CanceledBeforePrompt, w)
      else if h_expire h || bool_decide (backend <> gc_backend c)
              || negb (registry_is_current w c h) || bool_decide (h_fingerprint h <> gc_intended c)
           then (Err (ApplyError (ConfigMismatch "prompt identity")),
                 put_live (gc_ctx c) (set_h_expire true h) w)
      else (Ok tt, put_live (gc_ctx c) (set_h_governed None h) w)
  end.
End Governed.
