(* ===== verification/SessionSystem.v ===== *)
(** * Warm sessions: the interleaving system

    The async operations of [session_manager.rs] as resumable flights. A
    flight is the program point of one operation at an [await] together with
    the locals it keeps; resuming it with the outcome of that [await] runs the
    next critical section. A step of the system starts an operation, resumes
    any thread, or lets the environment act, so a run is an arbitrary
    interleaving of all operations at the granularity of the [by_context]
    lock. The [children] mutex is held across awaits by the [*_with_children]
    sweeps and the child checkout, so its holder is part of the state and the
    threads that want it wait.

    The claims of a sweep ([release_with_children], [reap_idle]) become one
    cleanup thread each. The scheduler may run them in any order, which covers
    the sequential joins of the code and the detached flights that dropping
    the claims starts.

    A caller may also drop the future of its operation at any await: [Drop].
    Cleanups, cancels and the application of a governed claim run on tasks of
    their own and go on without their caller; everything else stops where it
    is, with the table as it was left. *)
From S2P Require Import Prelude Domain SessionCwd SessionTypes SessionOps SessionGoverned.
Open Scope Z_scope.
Open Scope bridge_scope.

Inductive Reply :=
| RNone
| RTurn (r : result WarmTurn BridgeError)
| RUnit (r : result unit BridgeError)
| RReset (r : result ResetOutcome BridgeError)
| RCount (r : result nat BridgeError)
| RClaim (r : result GovernedTurnClaim BridgeError)
| RApply (r : result WarmTurn ApplyFailure)
| RGate (r : result unit ApplyFailure)
| RCleanup (r : result BackendCleanupDispositionV1 BridgeError)
| RExpired (b : bool)
| RKeys (l : list ContextId).

(** What the joiner of a cleanup flight does with its report. *)
Inductive CleanupCont :=
| KDetached
| KRelease
| KCancel (cancel_result : result unit BridgeError)
| KResetRetry (generation : N)
| KApply (failure : ApplyFailure)
| KReport.

Inductive Request :=
| QCheckout (ctx : ContextId) (agent : AgentId) (ov : option AgentOverride) (cwd : option string)
| QCheckoutExisting (ctx : ContextId)
| QFinish (ctx : ContextId) (gen : N) (op : OperationId)
| QRecordUsage (ctx : ContextId) (gen : N) (op : OperationId) (snap : UsageSnapshot) (wall_ms : Z)
| QInject (ctx : ContextId) (q : QueuedInject)
| QBeginExpire (ctx : ContextId) (gen : N) (op : OperationId)
| QRelease (ctx : ContextId)
| QReleaseWithChildren (ctx : ContextId)
| QKeys
| QCancel (ctx : ContextId) (expected : option (N * OperationId)) (prune : bool)
| QReset (ctx : ContextId) (force : bool)
| QCompact (ctx : ContextId) (expected : option CompactionSnapshot)
| QReapIdle
| QExpireRetiredChild (child : ContextId)
| QClaimExisting (ctx : ContextId)
| QClaimTurn (ctx : ContextId) (agent : AgentId) (ov : option AgentOverride) (cwd : option string)
| QApply (claim : GovernedTurnClaim) (admitted : bool)
| QRollback (claim : GovernedTurnClaim)
| QFirstPoll (claim : GovernedTurnClaim) (session : SessionId) (backend : BackendId).

Inductive Flight :=
(* the first lock of an operation; the [children] lock *)
| FStart (q : Request)
| FEnter
| FPrune (removed : list ContextId) (reply : Reply)
(* checkout_turn_inner *)
| FResolve (ctx : ContextId) (agent : AgentId) (ov : option AgentOverride) (cwd : option string)
    (saw_handle : bool)
| FReconcile (ctx : ContextId) (hid : SessionHandleId) (session : SessionId)
    (fp : SessionSpecFingerprint) (reseed_field : string)
| FReconcileRelease (ctx : ContextId) (hid : SessionHandleId) (session : SessionId)
    (cancelled_or_released : bool) (reseed_field : string)
| FConfigure (ctx : ContextId) (hid : SessionHandleId) (claim : OperationId) (session : SessionId)
| FConfigureRelease (ctx : ContextId) (hid : SessionHandleId) (session : SessionId)
    (cfg : result unit BridgeError)
| FOrphanRelease (session : SessionId) (reply : Reply)
(* cleanup flights *)
| FCleanup (c : ExpiryClaim) (k : CleanupCont)
| FCleanupPrune (c : ExpiryClaim) (res : result BackendCleanupDispositionV1 BridgeError) (k : CleanupCont)
| FSettle (c : ExpiryClaim) (res : result BackendCleanupDispositionV1 BridgeError) (k : CleanupCont)
(* cancel *)
| FCancel (ctx : ContextId) (hid : SessionHandleId) (session : SessionId) (cid : N)
    (fallback : OperationId) (prune : bool)
(* reset *)
| FResetBegin (ctx : ContextId) (force : bool)
| FResetCancel (ctx : ContextId) (plan : ResetPlan)
| FResetRelease (ctx : ContextId) (plan : ResetPlan)
| FResetConfigure (ctx : ContextId) (plan : ResetPlan)
| FResetAbandon (ctx : ContextId) (plan : ResetPlan) (cfg : result unit BridgeError)
(* compact *)
| FSummarize (ctx : ContextId) (plan : ResetPlan)
| FSummarizeRelease (ctx : ContextId) (plan : ResetPlan) (err : BridgeError)
| FCompactRelease (ctx : ContextId) (plan : ResetPlan) (summary : string)
| FCompactConfigure (ctx : ContextId) (plan : ResetPlan) (summary : string)
| FCompactAbandon (ctx : ContextId) (plan : ResetPlan) (cfg : result unit BridgeError)
(* retired children, reaping *)
| FChildRelease (child : ContextId) (session : SessionId)
| FReap (now : Z) (expired : list ContextId)
(* governed claims *)
| FClaimResolve (ctx : ContextId) (agent : AgentId) (ov : option AgentOverride) (cwd : option string)
| FApplyResolve (claim : GovernedTurnClaim)
| FApplyBegin (claim : GovernedTurnClaim) (rs : Resolved)
| FApplyConfigure (claim : GovernedTurnClaim) (rs : Resolved) (session : SessionId)
| FApplyReconcile (claim : GovernedTurnClaim) (rs : Resolved) (session : SessionId)
| FApplyCommit (claim : GovernedTurnClaim) (rs : Resolved)
| FClaimSettle (claim : GovernedTurnClaim) (failure : ApplyFailure).

(** Outcomes of the awaited calls. A panic of the cleanup worker is an [Err]
    outcome ([agent_crashed]), as [catch_unwind] makes it. *)
Inductive Outcome :=
| OResolve (r : result Resolved BridgeError)
| OReconcile (r : result ReconcileOutcome BridgeError)
| OResult (r : result unit BridgeError)             (* configure_session, cancel *)
| ORelease                                          (* release_session *)
| OCleanup (r : result BackendCleanupDispositionV1 BridgeError)
| OSummary (r : option (result string BridgeError)) (* None: timed out *)
| OLock (late : list N).                            (* only a lock was awaited *)

(** An inner operation waits at a new point, or returns its reply with the
    contexts whose child registrations its caller must prune. *)
Inductive Out :=
| Wait (f : Flight)
| Return (r : Reply) (removed : list ContextId).

(** The effect of one critical section: the new world, where the thread goes,
    and the cleanup claims it detaches. *)
Record Effect := mkEffect { ef_world : World; ef_out : Out; ef_spawn : list ExpiryClaim }.

Definition return_ (w : World) (r : Reply) : Effect := mkEffect w (Return r []) [].
Definition await (w : World) (f : Flight) : Effect := mkEffect w (Wait f) [].

Section System.
Context `{F64} (warn_at : option N) (idle_ttl : Z).

(** The first critical section of every operation. *)
Definition begin (w : World) (q : Request) : Effect :=
  match q with
  | QCheckout ctx agent ov cwd =>
      let (r, w) := checkout_lock1 ctx w in
      match r with
      | inl (e, c) => mkEffect w (Return (RTurn (Err e)) []) (option_list c)
      | inr saw => await w (FResolve ctx agent ov cwd saw)
      end
  | QCheckoutExisting ctx =>
      let '(r, c, w) := checkout_existing_turn warn_at ctx w in
      mkEffect w (Return (RTurn r) []) (option_list c)
  | QFinish ctx gen op =>
      let (c, w) := finish_owned_turn ctx gen op w in
      match c with
      | Some c => await w (FCleanup c KReport)
      | None => return_ w (RCleanup (Ok CleanupComplete))
      end
  | QRecordUsage ctx gen op snap wall_ms => return_ (record_usage ctx gen op snap wall_ms w) RNone
  | QInject ctx i => let (r, w) := inject ctx i w in return_ w (RCount r)
  | QBeginExpire ctx gen op =>
      let (c, w) := begin_expire_current ctx gen op w in
      match c with
      | Some c => await w (FCleanup c KReport)
      | None => return_ w RNone
      end
  | QRelease ctx =>
      let (c, w) := claim_release ctx true w in
      match c with
      | Some c => await w (FCleanup c KRelease)
      | None => mkEffect w (Return RNone [ctx]) []
      end
  | QReleaseWithChildren ctx =>
      let (cs, w) := release_with_children ctx w in mkEffect w (Return RNone []) cs
  | QKeys => return_ w (RKeys (elements (dom (w_live w)) ++ elements (dom (w_tombstones w))))
  | QCancel ctx expected prune =>
      let (r, w) := cancel_claim ctx expected w in
      match r with
      | inl r => return_ w (RUnit r)
      | inr (backend, session, hid, cid, fallback) =>
          await w (FCancel ctx hid session cid fallback prune)
      end
  | QReset ctx force =>
      let (c, w) := reset_retry ctx w in
      match c with
      | Some (c, generation) => await w (FCleanup c (KResetRetry generation))
      | None => await w (FResetBegin ctx force)
      end
  | QCompact ctx expected =>
      let (r, w) := compact_claim ctx expected w in
      match r with
      | inl r => return_ w (RReset r)
      | inr plan => await w (FSummarize ctx plan)
      end
  | QReapIdle => await w (FReap (w_now w) (reap_snapshot idle_ttl w))
  | QExpireRetiredChild child =>
      let (r, w) := take_retired_idle_child child w in
      match r with
      | Some (_, session) => await w (FChildRelease child session)
      | None => return_ w (RExpired false)
      end
  | QClaimExisting ctx =>
      let '(r, c, w) := claim_governed ctx None None None false w in
      mkEffect w (Return (RClaim r) []) (option_list c)
  | QClaimTurn ctx agent ov cwd =>
      if contains_key w ctx then
        let '(r, c, w) := claim_governed ctx (Some agent) ov cwd false w in
        mkEffect w (Return (RClaim r) []) (option_list c)
      else await w (FClaimResolve ctx agent ov cwd)
  | QApply claim admitted =>
      if negb admitted
      then await w (FClaimSettle claim (ApplyError (ConfigMismatch "admitted selection")))
      else await w (FApplyResolve claim)
  | QRollback claim =>
      let '(r, c, w) := settle_claim claim w in
      match c with
      | Some c => await w (FCleanup c KReport)
      | None => return_ w (RCleanup r)
      end
  | QFirstPoll claim session backend =>
      let (r, w) := first_poll claim session backend w in return_ w (RGate r)
  end.

(** The joiner's reply once a cleanup is settled, and what to prune. *)
Definition cleanup_return (c : ExpiryClaim) (k : CleanupCont)
    (res : result BackendCleanupDispositionV1 BridgeError) : Reply * list ContextId :=
  match k with
  | KDetached => (RNone, [])
  | KRelease => (RNone, [ec_ctx c])
  | KCancel cr => (RUnit (cancel_reply cr res true), [ec_ctx c])
  | KResetRetry generation =>
      match res with
      | Ok _ => (RReset (Ok (Cleared generation)), [ec_ctx c])
      | Err e => (RReset (Err e), [])
      end
  | KApply failure => (RApply (Err failure), [])
  | KReport => (RCleanup res, [])
  end.

(** The common end of the paths that hold a claimed handle across its
    release: remove it, drop the lease, report the context as removed. *)
Definition drop_claimed (ctx : ContextId) (w : World) (r : Reply) : Effect :=
  mkEffect (remove_and_drop ctx w) (Return r [ctx]) [].

(** The settle of the reset and compact tails. *)
Definition reset_tail (ctx : ContextId) (state : SessionState) (plan : ResetPlan)
    (cfg : result unit BridgeError) (seed : option string) (keep_injects : bool)
    (abandon : Flight) (w : World) : Effect :=
  let (st, w) := settle_reset ctx state plan cfg seed keep_injects w in
  match st with
  | RtDone r => return_ w (RReset r)
  | RtLost => if is_ok cfg then await w (FOrphanRelease (rp_new plan) (RReset (Err SessionExpired)))
              else return_ w (RReset (Err SessionExpired))
  | RtAbandon => await w abandon
  end.

(** The tail of [checkout_turn_inner] after each of its awaits. *)
Definition resume_checkout (w : World) (f : Flight) (o : Outcome) : Effect :=
  match f, o with
  | FResolve ctx agent ov cwd saw, OResolve (Err e) => return_ w (RTurn (Err e))
  | FResolve ctx agent ov cwd saw, OResolve (Ok rs) =>
      let (r, w) := checkout_lock2 warn_at ctx agent ov cwd saw rs w in
      match r with
      | L2Return r c => mkEffect w (Return (RTurn r) []) (option_list c)
      | L2Reconcile hid backend session reseed =>
          await w (FReconcile ctx hid session
                     (mkFingerprint agent (effective_config (rs_entry rs) ov) cwd) reseed)
      | L2Configure hid claim backend session => await w (FConfigure ctx hid claim session)
      end
  | FReconcile ctx hid session fp reseed, OReconcile r =>
      let (st, w) := settle_reconcile warn_at ctx hid fp r w in
      match st with
      | RSDone r => return_ w (RTurn r)
      | RSExpire cancelled => await w (FReconcileRelease ctx hid session cancelled reseed)
      end
  | FReconcileRelease ctx hid session cancelled reseed, ORelease =>
      drop_claimed ctx w (RTurn (Err (if cancelled then SessionExpired else ConfigReseedRequired reseed)))
  | FConfigure ctx hid claim session, OResult cfg =>
      let (st, w) := settle_configure ctx hid claim cfg w in
      match st with
      | CSDone r => mkEffect w (Return (RTurn r) (if is_ok r then [] else [ctx])) []
      | CSLost (Ok _) => await w (FOrphanRelease session (RTurn (Err SessionExpired)))
      | CSLost (Err e) => return_ w (RTurn (Err e))
      | CSExpire => await w (FConfigureRelease ctx hid session cfg)
      end
  | FConfigureRelease ctx hid session cfg, ORelease =>
      drop_claimed ctx w (RTurn (Err (match cfg with Ok _ => SessionExpired | Err e => e end)))
  | f, _ => await w f
  end.

(** Cleanup and cancel flights. *)
Definition resume_cleanup (w : World) (f : Flight) (o : Outcome) : Effect :=
  match f, o with
  | FCleanup c k, OCleanup res =>
      let w := match ec_lease c with Some l => drop_lease l w | None => w end in
      await w (if ec_prune c then FCleanupPrune c res k else FSettle c res k)
  | FCleanupPrune c res k, OLock _ => await (prune_children [ec_ctx c] w) (FSettle c res k)
  | FSettle c res k, OLock _ =>
      let (r, removed) := cleanup_return c k res in
      mkEffect (settle_cleanup c res w) (Return r removed) []
  | FCancel ctx hid session cid fallback prune, OResult cr =>
      let (st, w) := settle_cancel ctx hid cid fallback prune cr w in
      match st with
      | CnKept => return_ w (RUnit (cancel_reply cr (Ok CleanupComplete) false))
      | CnExpired c => await w (FCleanup c (KCancel cr))
      | CnLost gone => return_ w (RUnit (cancel_reply cr (Ok CleanupComplete) gone))
      end
  | f, _ => await w f
  end.

(** Reset and compact. *)
Definition resume_reset (w : World) (f : Flight) (o : Outcome) : Effect :=
  match f, o with
  | FResetBegin ctx force, OLock _ =>
      let (r, w) := reset_claim ctx force w in
      match r with
      | inl r => return_ w (RReset r)
      | inr plan => await w (if force then FResetCancel ctx plan else FResetRelease ctx plan)
      end
  | FResetCancel ctx plan, OResult _ => await w (FResetRelease ctx plan)
  | FResetRelease ctx plan, ORelease => await w (FResetConfigure ctx plan)
  | FResetConfigure ctx plan, OResult cfg =>
      reset_tail ctx Resetting plan cfg None false (FResetAbandon ctx plan cfg) w
  | FResetAbandon ctx plan cfg, ORelease =>
      mkEffect (remove_and_drop ctx w)
        (Return (RReset (Err (match cfg with Err e => e | Ok _ => SessionExpired end)))
           (if bool_decide (is_Some (w_live w !! ctx)) then [ctx] else [])) []
  | FSummarize ctx plan, OSummary r =>
      let expire err :=
        let (ours, w) := expire_compacting ctx (rp_claimed_id plan) w in
        if ours then await w (FSummarizeRelease ctx plan err) else return_ w (RReset (Err err)) in
      match r with
      | Some (Ok s) => if all_white_space s then expire (AgentCrashed "compact summary was empty")
                       else await w (FCompactRelease ctx plan s)
      | Some (Err e) => expire e
      | None => expire (AgentCrashed "compact summarize timed out")
      end
  | FSummarizeRelease ctx plan err, ORelease => drop_claimed ctx w (RReset (Err err))
  | FCompactRelease ctx plan s, ORelease => await w (FCompactConfigure ctx plan s)
  | FCompactConfigure ctx plan s, OResult cfg =>
      reset_tail ctx Compacting plan cfg (Some s) true (FCompactAbandon ctx plan cfg) w
  | FCompactAbandon ctx plan cfg, ORelease =>
      drop_claimed ctx w (RReset (Err (match cfg with Err e => e | Ok _ => SessionExpired end)))
  | f, _ => await w f
  end.

(** Governed claims. *)
Definition resume_governed (w : World) (f : Flight) (o : Outcome) : Effect :=
  let commit claim rs w :=
    let (r, w) := apply_commit warn_at claim rs w in
    match r with
    | Ok turn => return_ w (RApply (Ok turn))
    | Err failure => await w (FClaimSettle claim failure)
    end in
  match f, o with
  | FClaimResolve ctx agent ov cwd, OResolve (Err e) => return_ w (RClaim (Err e))
  | FClaimResolve ctx agent ov cwd, OResolve (Ok rs) =>
      let '(r, c, w) := claim_fresh ctx agent ov cwd rs w in
      mkEffect w (Return (RClaim r) []) (option_list c)
  | FApplyResolve claim, OResolve (Err e) => await w (FClaimSettle claim (ApplyError e))
  | FApplyResolve claim, OResolve (Ok rs) => await w (FApplyBegin claim rs)
  | FApplyBegin claim rs, OLock late =>
      let (r, w) := apply_begin claim rs late w in
      match r with
      | ABFail failure applying =>
          await w (FClaimSettle (if applying then set_applying claim else claim) failure)
      | ABConfigure session => await w (FApplyConfigure (set_applying claim) rs session)
      | ABReconcile session => await w (FApplyReconcile (set_applying claim) rs session)
      | ABReady => await w (FApplyCommit (set_applying claim) rs)
      end
  | FApplyConfigure claim rs session, OResult (Ok _) => commit claim rs w
  | FApplyConfigure claim rs session, OResult (Err e) => await w (FClaimSettle claim (ApplyError e))
  | FApplyReconcile claim rs session, OReconcile (Ok Applied) => commit claim rs w
  | FApplyReconcile claim rs session, OReconcile (Err e) =>
      await w (FClaimSettle claim (ApplyError e))
  | FApplyReconcile claim rs session, OReconcile (Ok _) =>
      await w (FClaimSettle claim (ApplyError (ConfigReseedRequired "model/effort")))
  | FApplyCommit claim rs, OLock _ => commit claim rs w
  | FClaimSettle claim failure, OLock _ =>
      let '(r, c, w) := settle_claim claim w in
      match c with
      | Some c => await w (FCleanup c (KApply failure))
      | None => return_ w (RApply (Err failure))
      end
  | f, _ => await w f
  end.

Definition resume (w : World) (f : Flight) (o : Outcome) : Effect :=
  match f with
  | FStart q => match o with OLock _ => begin w q | _ => await w f end
  | FEnter => await w f
  | FPrune removed reply =>
      match o with OLock _ => return_ (prune_children removed w) reply | _ => await w f end
  | FOrphanRelease session reply =>
      match o with ORelease => return_ w reply | _ => await w f end
  | FChildRelease child session =>
      match o with ORelease => return_ w (RExpired true) | _ => await w f end
  | FReap now expired =>
      match o with
      | OLock _ => let (cs, w) := reap_commit idle_ttl now expired w in
                   mkEffect w (Return RNone []) cs
      | _ => await w f
      end
  | FResolve _ _ _ _ _ | FReconcile _ _ _ _ _ | FReconcileRelease _ _ _ _ _
  | FConfigure _ _ _ _ | FConfigureRelease _ _ _ _ => resume_checkout w f o
  | FCleanup _ _ | FCleanupPrune _ _ _ | FSettle _ _ _ | FCancel _ _ _ _ _ _ => resume_cleanup w f o
  | FResetBegin _ _ | FResetCancel _ _ | FResetRelease _ _ | FResetConfigure _ _
  | FResetAbandon _ _ _ | FSummarize _ _ | FSummarizeRelease _ _ _ | FCompactRelease _ _ _
  | FCompactConfigure _ _ _ | FCompactAbandon _ _ _ => resume_reset w f o
  | FClaimResolve _ _ _ _ | FApplyResolve _ | FApplyBegin _ _ | FApplyConfigure _ _ _
  | FApplyReconcile _ _ _ | FApplyCommit _ _ | FClaimSettle _ _ => resume_governed w f o
  end.

(** ** Callers: what surrounds an inner operation *)
Record ChildArgs := mkChildArgs {
  ca_parent : ContextId; ca_child : ContextId; ca_agent : AgentId;
  ca_ov : option AgentOverride; ca_cwd : option string }.

(** Operations that hold the [children] mutex from their first await on. *)
Inductive ChildOp :=
| OpChild (a : ChildArgs)                     (* checkout_child_turn *)
| OpCancelAll (ctx : ContextId)               (* cancel_with_children *)
| OpClearAll (ctx : ContextId) (force : bool). (* clear_with_children *)

Inductive Frame :=
| FrPrune                                     (* reply; prune what was removed *)
| FrEnter (op : ChildOp)                      (* waits for [children] *)
| FrChild (a : ChildArgs)
| FrChildExpire (a : ChildArgs) (removed : list ContextId)
| FrChildRetry (a : ChildArgs)
| FrCancelAll (parent : option bool) (current : ContextId) (todo : list ContextId)
    (expired : list ContextId) (any_child : bool)
| FrClearAll (parent : option ResetOutcome) (force : bool) (todo : list ContextId)
    (expired : list ContextId) (any_child : bool)
| FrReleaseAll (todo : list ContextId)
| FrDetached.                                 (* the caller is gone: nobody reads the reply *)

Definition checkout_child (a : ChildArgs) : Flight :=
  FStart (QCheckout (ca_child a) (ca_agent a) (ca_ov a) (ca_cwd a)).

(** The [children] lock is acquired: take the snapshot and start. *)
Definition enter (op : ChildOp) (w : World) : Flight * Frame :=
  match op with
  | OpChild a => (checkout_child a, FrChild a)
  | OpCancelAll ctx =>
      let snapshot := elements (default ∅ (w_children w !! ctx)) in
      (FStart (QCancel ctx None false),
       FrCancelAll None ctx snapshot [] (negb (bool_decide (snapshot = []))))
  | OpClearAll ctx force =>
      let snapshot := elements (default ∅ (w_children w !! ctx)) in
      (FStart (QReset ctx force),
       FrClearAll None force snapshot [] (negb (bool_decide (snapshot = []))))
  end.

(** [prune_child_registration_locked] does nothing on an empty list. *)
Definition prune_locked (expired : list ContextId) (w : World) : World :=
  match expired with [] => w | _ => prune_children expired w end.

Definition register_child (a : ChildArgs) (w : World) : World :=
  set_w_children
    (<[ca_parent a := {[ca_child a]} ∪ default ∅ (w_children w !! ca_parent a)]> (w_children w)) w.

Definition child_finish (a : ChildArgs) (r : Reply) (removed : list ContextId) (w : World) : World :=
  let w := prune_locked removed w in
  match r with RTurn (Ok _) => register_child a w | _ => w end.

(** The loop of [cancel_with_children], entered with the verdict on the
    parent. *)
Definition cancel_loop (found : bool) (todo expired : list ContextId) (any_child : bool) (w : World)
  : World * ((Flight * Frame) + Reply) :=
  match todo with
  | c :: rest => (w, inl (FStart (QCancel c None false), FrCancelAll (Some found) c rest expired any_child))
  | [] => (prune_locked expired w, inr (RUnit (if found || any_child then Ok tt else Err SessionNotFound)))
  end.

Definition clear_loop (p : ResetOutcome) (force : bool) (todo expired : list ContextId)
    (any_child : bool) (w : World) : World * ((Flight * Frame) + Reply) :=
  match todo with
  | c :: rest => (w, inl (FStart (QReset c force), FrClearAll (Some p) force rest expired any_child))
  | [] => (prune_locked expired w,
           inr (RReset (Ok (match p with
                            | Cleared g => Cleared g
                            | NotFound => if any_child then Cleared 0 else NotFound
                            end))))
  end.

(** An inner operation returned [r] and [removed] to its caller. *)
Definition frame_return (fr : Frame) (r : Reply) (removed : list ContextId) (w : World)
  : World * ((Flight * Frame) + Reply) :=
  match fr with
  | FrPrune => match removed with [] => (w, inr r) | _ => (w, inl (FPrune removed r, FrPrune)) end
  | FrEnter _ => (w, inr r)
  | FrChild a =>
      match r with
      | RTurn (Err SessionExpired) =>
          (w, inl (FStart (QExpireRetiredChild (ca_child a)), FrChildExpire a removed))
      | _ => (child_finish a r removed w, inr r)
      end
  | FrChildExpire a removed0 =>
      match r with
      | RExpired true =>
          (prune_locked (removed0 ++ [ca_child a]) w, inl (checkout_child a, FrChildRetry a))
      | _ => (prune_locked removed0 w, inr (RTurn (Err SessionExpired)))
      end
  | FrChildRetry a => (child_finish a r removed w, inr r)
  | FrCancelAll parent current todo expired any_child =>
      match r with
      | RUnit (Ok _) =>
          cancel_loop (default true parent) todo (expired ++ removed) any_child w
      | RUnit (Err SessionNotFound) =>
          cancel_loop (default false parent) todo expired any_child w
      | _ => (prune_locked (expired ++ removed) w, inr r)
      end
  | FrClearAll parent force todo expired any_child =>
      match r with
      | RReset (Ok p) => clear_loop (default p parent) force todo (expired ++ removed) any_child w
      | _ => (prune_locked (expired ++ removed) w, inr r)
      end
  | FrReleaseAll todo =>
      match (match r with RKeys l => l | _ => todo end) with
      | c :: rest => (w, inl (FStart (QReleaseWithChildren c), FrReleaseAll rest))
      | [] => (w, inr RNone)
      end
  | FrDetached => (w, inr RNone)
  end.

(** ** The system *)
Record Thread := mkThread { th_flight : Flight; th_frame : Frame }.
Record Sys := mkSys {
  s_world : World; s_threads : gmap N Thread; s_next : N;
  s_holder : option N;                        (* owner of the [children] mutex *)
  s_replies : list (N * Reply);
  s_dropped : list Flight }.                  (* where dropped futures had stopped *)

Inductive Op :=
| OpRequest (q : Request)
| OpChildren (op : ChildOp)
| OpReleaseAll.

Definition thread_of (op : Op) : Thread :=
  match op with
  | OpRequest q => mkThread (FStart q) FrPrune
  | OpChildren op => mkThread FEnter (FrEnter op)
  | OpReleaseAll => mkThread (FStart QKeys) (FrReleaseAll [])
  end.

Inductive Event :=
| Call (op : Op)
| Resume (fid : N) (o : Outcome)
| Drop (fid : N)                              (* the caller drops the future *)
| Arm (token : N)                             (* a completion observer *)
| Retire (lease : LeaseId)                    (* registry swap *)
| SetEntry (agent : AgentId) (entry : EntryId)
| Tick (by_ : N).

(** Points at which a thread waits for the [children] mutex. *)
Definition needs_children (f : Flight) : bool :=
  match f with
  | FEnter | FPrune _ _ | FCleanupPrune _ _ _ | FReap _ _ | FStart (QReleaseWithChildren _) => true
  | _ => false
  end.

(** Points of operations that keep the mutex while they wait. *)
Definition holds_children (fr : Frame) : bool :=
  match fr with
  | FrChild _ | FrChildExpire _ _ | FrChildRetry _ | FrCancelAll _ _ _ _ _
  | FrClearAll _ _ _ _ _ => true
  | FrPrune | FrEnter _ | FrReleaseAll _ | FrDetached => false
  end.

Definition spawn (cs : list ExpiryClaim) (s : Sys) : Sys :=
  foldl (fun s c => mkSys (s_world s)
                      (<[s_next s := mkThread (FCleanup c KDetached) FrPrune]> (s_threads s))
                      (s_next s + 1)%N (s_holder s) (s_replies s) (s_dropped s)) s cs.

Definition set_thread (fid : N) (th : Thread) (s : Sys) : Sys :=
  mkSys (s_world s) (<[fid := th]> (s_threads s)) (s_next s) (s_holder s) (s_replies s) (s_dropped s).

(** A thread that ends gives back the mutex if it holds it. *)
Definition end_thread (fid : N) (r : Reply) (s : Sys) : Sys :=
  mkSys (s_world s) (delete fid (s_threads s)) (s_next s)
    (if bool_decide (s_holder s = Some fid) then None else s_holder s)
    (s_replies s ++ [(fid, r)]) (s_dropped s).

Definition set_world (w : World) (s : Sys) : Sys :=
  mkSys w (s_threads s) (s_next s) (s_holder s) (s_replies s) (s_dropped s).

Definition commit (fid : N) (fr : Frame) (e : Effect) (s : Sys) : Sys :=
  match ef_out e with
  | Wait f => spawn (ef_spawn e) (set_thread fid (mkThread f fr) (set_world (ef_world e) s))
  | Return r removed =>
      let (w, next) := frame_return fr r removed (ef_world e) in
      spawn (ef_spawn e)
        (match next with
         | inl (f, fr) => set_thread fid (mkThread f fr) (set_world w s)
         | inr r => end_thread fid r (set_world w s)
         end)
  end.

(** What goes on of an operation whose caller is gone: the cleanup worker
    ([ExpiryClaim::start_flight]), the cancel flight ([cancel_inner_expected])
    and the application of a governed claim run on spawned tasks; dropping a
    governed claim that was not yet applied or rolled back starts its
    settlement ([Drop for GovernedTurnClaim]). *)
Definition detach (f : Flight) : option Flight :=
  match f with
  | FCleanup _ _ | FCleanupPrune _ _ _ | FSettle _ _ _ | FCancel _ _ _ _ _ _
  | FApplyResolve _ | FApplyBegin _ _ | FApplyConfigure _ _ _ | FApplyReconcile _ _ _
  | FApplyCommit _ _ | FClaimSettle _ _ | FStart (QRollback _) => Some f
  | FStart (QApply claim _) => Some (FStart (QRollback claim))
  | _ => None
  end.

(** [cancel_on_drop]: the caller of an application fires its abort token. *)
Definition drop_guards (f : Flight) (w : World) : World :=
  match f with
  | FApplyResolve c | FApplyBegin c _ | FApplyConfigure c _ _ | FApplyReconcile c _ _
  | FApplyCommit c _ | FClaimSettle c _ => cancel_token (gc_abort c) w
  | _ => w
  end.

(** The guard of the [children] mutex is dropped with the future. *)
Definition drop_thread (fid : N) (f : Flight) (s : Sys) : Sys :=
  let holder := if bool_decide (s_holder s = Some fid) then None else s_holder s in
  let w := drop_guards f (s_world s) in
  match detach f with
  | Some f' => mkSys w (<[fid := mkThread f' FrDetached]> (s_threads s)) (s_next s) holder
                 (s_replies s) (s_dropped s)
  | None => mkSys w (delete fid (s_threads s)) (s_next s) holder (s_replies s) (s_dropped s ++ [f])
  end.

Definition step (s : Sys) (e : Event) : Sys :=
  match e with
  | Call op =>
      mkSys (s_world s) (<[s_next s := thread_of op]> (s_threads s)) (s_next s + 1)%N
        (s_holder s) (s_replies s) (s_dropped s)
  | Resume fid o =>
      match s_threads s !! fid with
      | None => s
      | Some th =>
          if needs_children (th_flight th) && (if s_holder s then true else false) then s
          else match th_flight th, th_frame th, o with
               | FEnter, FrEnter op, OLock _ =>
                   let (f, fr) := enter op (s_world s) in
                   mkSys (s_world s) (<[fid := mkThread f fr]> (s_threads s)) (s_next s)
                     (Some fid) (s_replies s) (s_dropped s)
               | FEnter, _, _ => s
               | f, fr, _ => commit fid fr (resume (s_world s) f o) s
               end
      end
  | Drop fid =>
      match s_threads s !! fid with
      | None => s
      | Some th => drop_thread fid (th_flight th) s
      end
  | Arm token => set_world (arm_intent token (s_world s)) s
  | Retire lease => set_world (set_w_retired ({[lease]} ∪ w_retired (s_world s)) (s_world s)) s
  | SetEntry agent entry =>
      set_world (set_w_entries (<[agent := entry]> (w_entries (s_world s))) (s_world s)) s
  | Tick by_ => set_world (set_w_now (w_now (s_world s) + Z.of_N by_) (s_world s)) s
  end.

(** [SessionManager::new]; the environment starts in any state. *)
Definition initial (s : Sys) : Prop :=
  w_live (s_world s) = ∅ /\ w_tombstones (s_world s) = ∅ /\ w_retries (s_world s) = ∅
  /\ w_children (s_world s) = ∅ /\ w_intents (s_world s) = ∅ /\ w_cancelled (s_world s) = ∅
  /\ w_seq (s_world s) = 0%N /\ w_turn_op_seq (s_world s) = 1%N
  /\ w_cleanup_claim_seq (s_world s) = 1%N /\ w_next_token (s_world s) = 0%N
  /\ s_threads s = ∅ /\ s_next s = 0%N /\ s_holder s = None /\ s_replies s = []
  /\ s_dropped s = [].
End System.

(** A started manager with nothing registered, at clock [now]. *)
Definition empty_world (now : Z) : World :=
  mkWorld ∅ ∅ ∅ ∅ ∅ ∅ 0 1 1 0 now ∅ ∅ [] [].
Definition empty_sys (now : Z) : Sys := mkSys (empty_world now) ∅ 0 None [] [].

Lemma empty_sys_initial now : initial (empty_sys now).
Proof. repeat split. Qed.
