(* ===== verification/SessionInvariant.v ===== *)
(** * Warm sessions: ownership invariants

    Every context has a slot: its live handle, its tombstone and its retained
    cleanup retry. A slot in a claimed state is owned by exactly one thread
    or by exactly one dropped future, and every thread that believes it owns a
    claim really does. The invariant is stated on slots and proved by showing that each critical section
    transfers claims correctly ([effect_ok]). *)
From S2P Require Import Prelude Domain SessionCwd SessionTypes SessionOps SessionGoverned SessionSystem.
From stdpp Require Import pretty.
Open Scope Z_scope.
Open Scope bridge_scope.

(** ** Slots and claims *)
Record Slot := mkSlot {
  sl_live : option WarmHandle; sl_tomb : option ExpiringTombstone; sl_retry : option CleanupRetryOwner }.

Definition slot (w : World) (c : ContextId) : Slot :=
  mkSlot (w_live w !! c) (w_tombstones w !! c) (w_retries w !! c).

(** The identity of a claim: a live handle in a claimed state (with the claim
    operation of a [Configuring] handle), or an [Expiring] tombstone. *)
Inductive Key :=
| KLive (hid : SessionHandleId) (st : SessionState) (op : option OperationId) (session : SessionId)
| KTomb (gen : N) (op : OperationId) (cid : N).

Definition slot_claim (sl : Slot) : option Key :=
  match sl_tomb sl with
  | Some t => match tb_state t with
              | TExpiring => Some (KTomb (tb_generation t) (tb_op t) (tb_claim_id t))
              | TCleanupFailed _ => None
              end
  | None =>
      match sl_live sl with
      | Some h => if is_claimed (h_state h)
                  then Some (KLive (h_id h) (h_state h)
                               (if bool_decide (h_state h = Configuring) then h_op h else None)
                               (h_session h))
                  else None
      | None => None
      end
  end.

(** What is true of every handle in the table. *)
Record handle_ok (ctx : ContextId) (h : WarmHandle) : Prop := {
  ho_session : h_session h = session_id ctx (h_generation h);
  ho_idle : h_state h = Idle -> h_op h = None;
  ho_running : h_state h = Running -> is_Some (h_op h);
  ho_governed : is_Some (h_governed h) -> h_state h = Running;
  ho_configuring : h_state h = Configuring -> h_turn_aborts h = [];
  ho_injects : (length (h_pending_injects h) <= MAX_INJECTS)%nat
               /\ (inject_bytes (h_pending_injects h) <= MAX_INJECT_BYTES)%nat }.

(** A context has a live handle, or a tombstone, or neither; a retry
    capability is retained exactly while its cleanup has failed. *)
Definition slot_ok (ctx : ContextId) (sl : Slot) : Prop :=
  match sl_live sl, sl_tomb sl, sl_retry sl with
  | Some h, None, None => handle_ok ctx h
  | None, Some t, r =>
      match tb_state t, r with
      | TExpiring, None => True
      | TCleanupFailed _, Some ro => ro_session ro = session_id ctx (tb_generation t)
      | _, _ => False
      end
  | None, None, None => True
  | _, _, _ => False
  end.

(** ** The claim of a thread *)
Definition plan_claim (ctx : ContextId) (st : SessionState) (p : ResetPlan) : ContextId * Key :=
  (ctx, KLive (rp_claimed_id p) st None (rp_old p)).
Definition expiry_claim (c : ExpiryClaim) : ContextId * Key :=
  (ec_ctx c, KTomb (ec_generation c) (ec_op c) (ec_claim_id c)).

Definition flight_claim (f : Flight) : option (ContextId * Key) :=
  match f with
  | FReconcile ctx hid session _ _ => Some (ctx, KLive hid Reconciling None session)
  | FReconcileRelease ctx hid session _ _ => Some (ctx, KLive hid Expiring None session)
  | FConfigure ctx hid claim session => Some (ctx, KLive hid Configuring (Some claim) session)
  | FConfigureRelease ctx hid session _ => Some (ctx, KLive hid Expiring None session)
  | FCleanup c _ | FCleanupPrune c _ _ | FSettle c _ _ => Some (expiry_claim c)
  | FCancel ctx hid session _ _ _ => Some (ctx, KLive hid Cancelling None session)
  | FResetCancel ctx p | FResetRelease ctx p | FResetConfigure ctx p
  | FResetAbandon ctx p _ => Some (plan_claim ctx Resetting p)
  | FSummarize ctx p | FCompactRelease ctx p _ | FCompactConfigure ctx p _
  | FCompactAbandon ctx p _ => Some (plan_claim ctx Compacting p)
  | FSummarizeRelease ctx p _ => Some (plan_claim ctx Expiring p)
  | _ => None
  end.

Definition plan_ok (ctx : ContextId) (p : ResetPlan) : Prop :=
  exists g, rp_old p = session_id ctx g /\ rp_new p = session_id ctx (g + 1)
            /\ rp_new_generation p = (g + 1)%N.
Definition claim_ok (c : ExpiryClaim) : Prop :=
  ro_session (ec_retry c) = session_id (ec_ctx c) (ec_generation c).

Definition flight_ok (f : Flight) : Prop :=
  match f with
  | FCleanup c _ | FCleanupPrune c _ _ | FSettle c _ _ => claim_ok c
  | FResetCancel ctx p | FResetRelease ctx p | FResetConfigure ctx p | FResetAbandon ctx p _
  | FSummarize ctx p | FSummarizeRelease ctx p _ | FCompactRelease ctx p _
  | FCompactConfigure ctx p _ | FCompactAbandon ctx p _ => plan_ok ctx p
  | FOrphanRelease _ _ => False
  | _ => True
  end.

(** ** Claim transfer *)
Definition out_claims (o : Out) : list (ContextId * Key) :=
  match o with Wait f => option_list (flight_claim f) | Return _ _ => [] end.
Definition new_claims (e : Effect) : list (ContextId * Key) :=
  out_claims (ef_out e) ++ (expiry_claim <$> ef_spawn e).

Definition owned (c0 : option (ContextId * Key)) (c : ContextId) : Prop :=
  exists k, c0 = Some (c, k).

(** The effect of a section that ran with the claim [c0]: the claims it ends
    with are exactly the new claims of the slots it owned or that were free;
    every other slot keeps its claim. *)
Record effect_ok (c0 : option (ContextId * Key)) (w : World) (e : Effect) : Prop := {
  eo_slots : forall c, slot_ok c (slot (ef_world e) c);
  eo_nodup : NoDup (new_claims e).*1;
  eo_new : forall c k, (c, k) ∈ new_claims e ->
           slot_claim (slot (ef_world e) c) = Some k
           /\ (owned c0 c \/ slot_claim (slot w c) = None);
  eo_owned : forall c, owned c0 c -> c ∉ (new_claims e).*1 -> slot_claim (slot (ef_world e) c) = None;
  eo_other : forall c, ~ owned c0 c -> c ∉ (new_claims e).*1 ->
             slot_claim (slot (ef_world e) c) = slot_claim (slot w c);
  eo_flight : match ef_out e with Wait f => flight_ok f | Return _ _ => True end;
  eo_spawn : Forall claim_ok (ef_spawn e) }.

(** A section that touches one context. *)
Definition upd (ctx : ContextId) (v : Slot) (f : ContextId -> Slot) (c : ContextId) : Slot :=
  if decide (c = ctx) then v else f c.

Lemma upd_eq ctx v f : upd ctx v f ctx = v.
Proof. unfold upd. by rewrite decide_True. Qed.
Lemma upd_ne ctx v f c : c <> ctx -> upd ctx v f c = f c.
Proof. unfold upd. intros. by rewrite decide_False. Qed.

(** It gains (or keeps, or gives up) the claim of a context that it owned or
    that was free. *)
Lemma effect_upd c0 ctx v w e :
  (forall c, slot_ok c (slot w c)) ->
  (forall c, slot (ef_world e) c = upd ctx v (slot w) c) ->
  slot_ok ctx v ->
  new_claims e = (pair ctx) <$> option_list (slot_claim v) ->
  (owned c0 ctx \/ c0 = None /\ slot_claim (slot w ctx) = None) ->
  match ef_out e with Wait f => flight_ok f | Return _ _ => True end ->
  Forall claim_ok (ef_spawn e) ->
  effect_ok c0 w e.
Proof.
  intros Hw Hs Hv Hn Ho Hf Hsp.
  assert (Hc0 : forall c, owned c0 c -> c = ctx).
  { intros c [k Hk]. destruct Ho as [[k' Hk']|[Hk' _]]; congruence. }
  split; try done.
  - intros c. rewrite Hs. destruct (decide (c = ctx)) as [->|]; [by rewrite upd_eq|by rewrite upd_ne].
  - rewrite Hn. destruct (slot_claim v); simpl; [apply NoDup_singleton|constructor].
  - intros c k. rewrite Hn, Hs. destruct (slot_claim v) eqn:E; simpl; [|set_solver].
    intros ?%list_elem_of_singleton; simplify_eq. rewrite upd_eq. split; [done|].
    destruct Ho as [|[_ ?]]; auto.
  - intros c Hoc Hc. rewrite (Hc0 c Hoc) in *. rewrite Hs, upd_eq. rewrite Hn in Hc.
    destruct (slot_claim v); simpl in *; [set_solver|done].
  - intros c Hoc Hc. rewrite Hs. destruct (decide (c = ctx)) as [->|?]; [|by rewrite upd_ne].
    rewrite upd_eq. destruct Ho as [?|[_ ->]]; [done|]. rewrite Hn in Hc.
    destruct (slot_claim v); simpl in *; [set_solver|done].
Qed.

(** It touches a context without changing who claims it. *)
Lemma effect_same ctx v w e :
  (forall c, slot_ok c (slot w c)) ->
  (forall c, slot (ef_world e) c = upd ctx v (slot w) c) ->
  slot_ok ctx v ->
  slot_claim v = slot_claim (slot w ctx) ->
  new_claims e = [] ->
  match ef_out e with Wait f => flight_ok f | Return _ _ => True end ->
  ef_spawn e = [] ->
  effect_ok None w e.
Proof.
  intros Hw Hs Hv Hc Hn Hf Hsp. split; try done.
  - intros c. rewrite Hs. destruct (decide (c = ctx)) as [->|]; [by rewrite upd_eq|by rewrite upd_ne].
  - rewrite Hn. constructor.
  - rewrite Hn. set_solver.
  - intros c [k Hk]; done.
  - intros c _ _. rewrite Hs. destruct (decide (c = ctx)) as [->|]; [by rewrite upd_eq|by rewrite upd_ne].
  - rewrite Hsp. constructor.
Qed.

(** It leaves every slot alone. *)
Lemma effect_nop c0 w e :
  (forall c, slot_ok c (slot w c)) ->
  (forall c, slot (ef_world e) c = slot w c) ->
  new_claims e = option_list c0 ->
  (forall c k, c0 = Some (c, k) -> slot_claim (slot w c) = Some k) ->
  match ef_out e with Wait f => flight_ok f | Return _ _ => True end ->
  ef_spawn e = [] ->
  effect_ok c0 w e.
Proof.
  intros Hw Hs Hn Hc Hf Hsp. split; try done.
  - intros c. by rewrite Hs.
  - rewrite Hn. destruct c0; simpl; [apply NoDup_singleton|constructor].
  - intros c k. rewrite Hn, Hs. destruct c0 as [[c' k']|]; simpl; [|set_solver].
    intros ?%list_elem_of_singleton; simplify_eq. split; [by apply Hc|]. left. by eexists.
  - intros c [k ->]. rewrite Hn. simpl. set_solver.
  - intros c _ _. by rewrite Hs.
  - rewrite Hsp. constructor.
Qed.

(** ** The invariant of the system *)
Definition claims (s : Sys) (fid : N) (c : ContextId) (k : Key) : Prop :=
  exists th, s_threads s !! fid = Some th /\ flight_claim (th_flight th) = Some (c, k).

(** The claims of the futures that were dropped while they held one. *)
Definition stranded (s : Sys) : list (ContextId * Key) := omap flight_claim (s_dropped s).

(** [pending] are claims without a thread: the stranded ones, and those that a
    section has made and not yet handed to a cleanup thread. *)
Record inv_pending (s : Sys) (pending : list (ContextId * Key)) : Prop := {
  ip_slots : forall c, slot_ok c (slot (s_world s) c);
  ip_flights : forall fid th, s_threads s !! fid = Some th -> flight_ok (th_flight th);
  ip_fresh : forall fid, is_Some (s_threads s !! fid) -> (fid < s_next s)%N;
  ip_claims : forall fid c k, claims s fid c k -> slot_claim (slot (s_world s) c) = Some k;
  ip_pending : forall c k, (c, k) ∈ pending -> slot_claim (slot (s_world s) c) = Some k;
  ip_unique : forall fid1 fid2 c k1 k2, claims s fid1 c k1 -> claims s fid2 c k2 -> fid1 = fid2;
  ip_nodup : NoDup pending.*1;
  ip_disjoint : forall fid c k, claims s fid c k -> c ∉ pending.*1;
  ip_owned : forall c k, slot_claim (slot (s_world s) c) = Some k ->
             (exists fid, claims s fid c k) \/ (c, k) ∈ pending }.

Definition inv (s : Sys) : Prop := inv_pending s (stranded s).

(** Inserting a thread changes the claims of that thread only. *)
Lemma claims_insert w ths n ho r d fid th fid' c k :
  claims (mkSys w (<[fid := th]> ths) n ho r d) fid' c k <->
  (fid' = fid /\ flight_claim (th_flight th) = Some (c, k))
  \/ (fid' <> fid /\ exists th', ths !! fid' = Some th' /\ flight_claim (th_flight th') = Some (c, k)).
Proof.
  unfold claims; simpl. destruct (decide (fid' = fid)) as [->|Hne].
  - split; [intros (th' & ? & ?); simplify_map_eq; auto|].
    intros [[_ ?]|[? _]]; [|done]. exists th. by simplify_map_eq.
  - split; [intros (th' & ? & ?); simplify_map_eq; eauto|].
    intros [[? _]|(_ & th' & ? & ?)]; [done|]. exists th'. by simplify_map_eq.
Qed.

Lemma inv_spawn_one s cl rest :
  inv_pending s (expiry_claim cl :: rest) -> claim_ok cl ->
  inv_pending (spawn [cl] s) rest.
Proof.
  intros [Hsl Hfl Hfr Hcl Hp Hu Hnd Hdj Ho] Hok. simpl.
  assert (Hnew : s_threads s !! s_next s = None).
  { apply eq_None_not_Some. intros Hs%Hfr. lia. }
  pose proof Hnd as Hnd'. rewrite fmap_cons in Hnd'. apply NoDup_cons in Hnd' as [Hni Hnd'].
  split; simpl; try done.
  - intros fid th. destruct (decide (fid = s_next s)) as [->|]; intros ?; simplify_map_eq; eauto.
  - intros fid. destruct (decide (fid = s_next s)) as [->|]; [lia|].
    rewrite lookup_insert_ne by done. intros ?%Hfr. lia.
  - intros fid c k. rewrite claims_insert. intros [[-> E]|[_ E]]; [|by eapply Hcl].
    apply Hp. simpl in E. simplify_eq. rewrite E. left.
  - intros c k Hin. apply Hp. by right.
  - intros f1 f2 c k1 k2. rewrite !claims_insert. simpl. unfold expiry_claim in *.
    intros [[-> E1]|[N1 E1]] [[-> E2]|[N2 E2]]; simplify_eq; try done.
    + destruct (Hdj f2 _ _ E2). set_solver.
    + destruct (Hdj f1 _ _ E1). set_solver.
    + by eapply Hu.
  - intros fid c k. rewrite claims_insert. intros [[-> E]|[_ E]].
    + simpl in *. unfold expiry_claim in *. by simplify_eq.
    + specialize (Hdj fid c k E). set_solver.
  - intros c k Hc. destruct (Ho c k Hc) as [[fid Hf]|Hin].
    + left. exists fid. rewrite claims_insert. right. split; [|exact Hf].
      intros ->. destruct Hf as (th & ? & _). congruence.
    + apply elem_of_cons in Hin as [E|Hin]; [|by right]. left. exists (s_next s).
      rewrite claims_insert. left. simpl. by rewrite <- E.
Qed.

Lemma inv_spawn cs s :
  inv_pending s ((expiry_claim <$> cs) ++ stranded s) -> Forall claim_ok cs -> inv (spawn cs s).
Proof.
  revert s. induction cs as [|c cs IH]; intros s Hi Hok; [exact Hi|].
  apply Forall_cons in Hok as [Hc Hok]. change (spawn (c :: cs) s) with (spawn cs (spawn [c] s)).
  apply IH; [|done]. by apply inv_spawn_one.
Qed.

(** The thread [fid] moves on with its new claims, or ends without any. *)
Lemma claims_delete w ths n ho r d fid fid' c k :
  claims (mkSys w (delete fid ths) n ho r d) fid' c k <->
  fid' <> fid /\ exists th', ths !! fid' = Some th' /\ flight_claim (th_flight th') = Some (c, k).
Proof.
  unfold claims; simpl. split.
  - intros (th & Hl & E). apply lookup_delete_Some in Hl as [? ?]. eauto.
  - intros (Hne & th & Hl & E). exists th. by rewrite lookup_delete_ne.
Qed.

Section Transfer.
Context (s : Sys) (fid : N) (th : Thread) (e : Effect) (s' : Sys).
Context (Hinv : inv s) (Hth : s_threads s !! fid = Some th).
Context (He : effect_ok (flight_claim (th_flight th)) (s_world s) e).
Context (Hworld : forall c, slot (s_world s') c = slot (ef_world e) c).
Context (Hclaims : forall fid' c k, claims s' fid' c k <->
           (fid' = fid /\ (c, k) ∈ out_claims (ef_out e)) \/ (fid' <> fid /\ claims s fid' c k)).
Context (Hflights : forall fid' th', s_threads s' !! fid' = Some th' ->
           flight_ok (th_flight th') /\ (is_Some (s_threads s !! fid'))).
Context (Hnext : s_next s' = s_next s) (Hdropped : stranded s' = stranded s).

Lemma transfer_not_owned fid' c k :
  fid' <> fid -> claims s fid' c k -> ~ owned (flight_claim (th_flight th)) c.
Proof.
  intros Hne Hc [k' Hk']. apply Hne. eapply (ip_unique _ _ Hinv); [exact Hc|]. by exists th.
Qed.

Lemma transfer_not_new fid' c k : fid' <> fid -> claims s fid' c k -> c ∉ (new_claims e).*1.
Proof.
  intros Hne Hc Hin. apply list_elem_of_fmap in Hin as ([c' k'] & -> & Hin). simpl in Hc.
  destruct (eo_new _ _ _ He _ _ Hin) as [_ [Ho|Hn]].
  - by eapply transfer_not_owned.
  - rewrite (ip_claims _ _ Hinv _ _ _ Hc) in Hn. done.
Qed.

(** A stranded claim is nobody's: no section touches it. *)
Lemma transfer_stranded c k :
  (c, k) ∈ stranded s -> ~ owned (flight_claim (th_flight th)) c /\ c ∉ (new_claims e).*1.
Proof.
  intros Hin. assert (Hno : ~ owned (flight_claim (th_flight th)) c).
  { intros [k' Hk']. eapply (ip_disjoint _ _ Hinv fid c k'); [by exists th|].
    apply list_elem_of_fmap. by exists (c, k). }
  split; [done|]. intros Hn. apply list_elem_of_fmap in Hn as ([c' k'] & -> & Hn). simpl in *.
  destruct (eo_new _ _ _ He _ _ Hn) as [_ [Ho|Hf]]; [done|].
  by rewrite (ip_pending _ _ Hinv _ _ Hin) in Hf.
Qed.

Lemma out_in_new c k : (c, k) ∈ out_claims (ef_out e) -> (c, k) ∈ new_claims e.
Proof. unfold new_claims. rewrite elem_of_app. auto. Qed.

Lemma spawn_in_new c k : (c, k) ∈ expiry_claim <$> ef_spawn e -> (c, k) ∈ new_claims e.
Proof. unfold new_claims. rewrite elem_of_app. auto. Qed.

Lemma out_claims_unique c k1 k2 :
  (c, k1) ∈ out_claims (ef_out e) -> (c, k2) ∈ out_claims (ef_out e) -> k1 = k2.
Proof.
  intros H1%out_in_new H2%out_in_new. apply (eo_new _ _ _ He) in H1 as [H1 _], H2 as [H2 _]. congruence.
Qed.

Lemma inv_transfer : inv_pending s' ((expiry_claim <$> ef_spawn e) ++ stranded s').
Proof.
  pose proof (eo_nodup _ _ _ He) as Hnd. unfold new_claims in Hnd. rewrite fmap_app in Hnd.
  apply NoDup_app in Hnd as (_ & Hdj & Hnd). rewrite Hdropped.
  assert (Hst : forall c, c ∈ (stranded s).*1 -> c ∉ (new_claims e).*1).
  { intros c ([c' k] & -> & Hin)%list_elem_of_fmap. by destruct (transfer_stranded c' k Hin). }
  split; try done.
  - intros c. rewrite Hworld. apply (eo_slots _ _ _ He).
  - intros f t Hf. by destruct (Hflights _ _ Hf).
  - intros f [t Hf]. apply Hflights in Hf as [_ Hf]. rewrite Hnext. by apply (ip_fresh _ _ Hinv).
  - intros f c k. rewrite Hclaims, Hworld. intros [[-> Hin]|[Hne Hc]].
    + apply (eo_new _ _ _ He). by apply out_in_new.
    + rewrite (eo_other _ _ _ He);
        [by eapply (ip_claims _ _ Hinv)|by eapply transfer_not_owned|by eapply transfer_not_new].
  - intros c k [Hin|Hin]%elem_of_app; rewrite Hworld.
    + apply (eo_new _ _ _ He). by apply spawn_in_new.
    + destruct (transfer_stranded c k Hin) as [Hno Hni].
      rewrite (eo_other _ _ _ He) by done. by apply (ip_pending _ _ Hinv).
  - intros f1 f2 c k1 k2. rewrite !Hclaims. intros [[-> H1]|[N1 H1]] [[-> H2]|[N2 H2]]; try done.
    + exfalso. eapply transfer_not_new; [exact N2|exact H2|].
      apply list_elem_of_fmap. eexists (c, k1). split; [done|]. by apply out_in_new.
    + exfalso. eapply transfer_not_new; [exact N1|exact H1|].
      apply list_elem_of_fmap. eexists (c, k2). split; [done|]. by apply out_in_new.
    + by eapply (ip_unique _ _ Hinv).
  - rewrite fmap_app. apply NoDup_app. split_and!; [done| |apply (ip_nodup _ _ Hinv)].
    intros c Hsp Hin. apply (Hst c Hin). unfold new_claims. rewrite fmap_app, elem_of_app. auto.
  - intros f c k. rewrite Hclaims, fmap_app, elem_of_app. intros [[-> H1]|[N1 H1]] [Hin|Hin].
    + eapply Hdj; [|exact Hin]. apply list_elem_of_fmap. by eexists (c, k).
    + apply (Hst c Hin). apply list_elem_of_fmap. exists (c, k). split; [done|]. by apply out_in_new.
    + eapply transfer_not_new; [exact N1|exact H1|]. unfold new_claims.
      rewrite fmap_app, elem_of_app. auto.
    + by eapply (ip_disjoint _ _ Hinv).
  - intros c k. rewrite Hworld. intros Hc.
    destruct (decide (c ∈ (new_claims e).*1)) as [Hin|Hni].
    + apply list_elem_of_fmap in Hin as ([c' k'] & -> & Hin). simpl in *.
      destruct (eo_new _ _ _ He _ _ Hin) as [Hk _]. simplify_eq.
      unfold new_claims in Hin. apply elem_of_app in Hin as [Hin|Hin]; [|right; apply elem_of_app; by left].
      left. exists fid. rewrite Hclaims. auto.
    + assert (Hno : ~ owned (flight_claim (th_flight th)) c).
      { intros Ho. by rewrite (eo_owned _ _ _ He c Ho Hni) in Hc. }
      rewrite (eo_other _ _ _ He c Hno Hni) in Hc.
      destruct (ip_owned _ _ Hinv c k Hc) as [[f Hf]|Hin]; [|right; apply elem_of_app; by right].
      left. exists f. rewrite Hclaims. right. split; [|done].
      intros ->. apply Hno. destruct Hf as (t & ? & ?). simplify_map_eq. by exists k.
Qed.
End Transfer.

(** What an inner operation hands to its caller never touches a slot, and the
    caller's next point claims nothing. *)
Lemma frame_return_ok fr r removed w :
  (forall c, slot (frame_return fr r removed w).1 c = slot w c)
  /\ match (frame_return fr r removed w).2 with
     | inl (f, _) => flight_claim f = None /\ flight_ok f
     | inr _ => True
     end.
Proof.
  assert (Hp : forall l w c, slot (prune_locked l w) c = slot w c) by (intros []; done).
  assert (Hc : forall a w c, slot (register_child a w) c = slot w c) by done.
  split.
  - intros c. destruct fr; simpl; try done; unfold cancel_loop, clear_loop, child_finish;
      repeat (case_match; simpl; try done); first [by rewrite Hp | by rewrite Hc, Hp | by rewrite Hc].
  - destruct fr; simpl; try done; unfold cancel_loop, clear_loop, child_finish;
      repeat (case_match; simplify_eq/=; try done).
Qed.

Lemma inv_commit s fid th fr e :
  inv s -> s_threads s !! fid = Some th ->
  effect_ok (flight_claim (th_flight th)) (s_world s) e ->
  inv (commit fid fr e s).
Proof.
  intros Hi Hth He. pose proof (eo_spawn _ _ _ He) as Hsp. unfold commit.
  destruct (ef_out e) as [f|r removed] eqn:Eo.
  - apply inv_spawn; [|done]. eapply inv_transfer; try done; simpl.
    + intros fid' c k. unfold set_thread, set_world. rewrite claims_insert, Eo; simpl. unfold claims.
      split; (intros [[? Hc]|[? Hc]]; [left|by right]); split; try done.
      * rewrite Hc. simpl. by left.
      * destruct (flight_claim f); simpl in Hc; [|set_solver]. by apply list_elem_of_singleton in Hc as ->.
    + intros fid' th'. destruct (decide (fid' = fid)) as [->|].
      * rewrite lookup_insert_eq. intros [= <-]. simpl. split; [|by eexists].
        pose proof (eo_flight _ _ _ He) as Hf. by rewrite Eo in Hf.
      * rewrite lookup_insert_ne by done. intros Hl. split; [by eapply (ip_flights _ _ Hi)|by eexists].
  - pose proof (frame_return_ok fr r removed (ef_world e)) as [Hw Hn].
    destruct (frame_return fr r removed (ef_world e)) as [w' next] eqn:Ef. simpl in *.
    apply inv_spawn; [|done]. destruct next as [[f fr']|r'].
    + destruct Hn as [Hc Hok]. eapply inv_transfer; try done; simpl.
      * intros fid' c k. unfold set_thread, set_world. rewrite claims_insert, Eo; simpl. unfold claims.
        split; (intros [[? Hk]|[? Hk]]; [|by right]); exfalso; [congruence|set_solver].
      * intros fid' th'. destruct (decide (fid' = fid)) as [->|].
        -- rewrite lookup_insert_eq. intros [= <-]. simpl. split; [done|by eexists].
        -- rewrite lookup_insert_ne by done. intros Hl. split; [by eapply (ip_flights _ _ Hi)|by eexists].
    + eapply inv_transfer; try done; simpl.
      * intros fid' c k. unfold end_thread, set_world. simpl. rewrite claims_delete, Eo; simpl. unfold claims.
        split; [by right|]. intros [[? Hk]|?]; [set_solver|done].
      * intros fid' th' Hl. apply lookup_delete_Some in Hl as [? Hl].
        split; [by eapply (ip_flights _ _ Hi)|by eexists].
Qed.
