(* ===== verification/SessionEffects.v ===== *)
(** * Warm sessions: every critical section transfers claims correctly

    For each section of the session manager, [effect_ok]: it keeps the table
    well formed and accounts for every claim it takes, hands over or gives
    up. *)
From S2P Require Import Prelude Domain SessionCwd SessionTypes SessionOps SessionGoverned SessionSystem SessionInvariant.
From stdpp Require Import pretty.
Open Scope Z_scope.
Open Scope bridge_scope.


Definition slots_ok (w : World) : Prop := forall c, slot_ok c (slot w c).
Definition same_slots (w w' : World) : Prop := forall c, slot w' c = slot w c.
Definition live_slot (h : WarmHandle) : Slot := mkSlot (Some h) None None.
Definition tomb_slot (t : ExpiringTombstone) (r : option CleanupRetryOwner) : Slot :=
  mkSlot None (Some t) r.
Definition no_slot : Slot := mkSlot None None None.

(** The thread may change the claim of [ctx]: it owns it, or nobody does. *)
Definition may_claim (c0 : option (ContextId * Key)) (w : World) (ctx : ContextId) : Prop :=
  owned c0 ctx \/ c0 = None /\ slot_claim (slot w ctx) = None.

(** Pointwise equality of tables after a section that writes one context. *)
Ltac slots :=
  intros ?; unfold slot, upd, live_slot, tomb_slot, no_slot; simpl;
  try case_decide; subst; simplify_map_eq;
  repeat match goal with H : ?m !! ?k = _ |- context [?m !! ?k] => rewrite H end; try done.

(** A handle is well formed after updates that keep the facts it needs. *)
Ltac handles :=
  match goal with
  | H : handle_ok ?c ?h |- handle_ok ?c _ =>
      destruct H; constructor; simpl in *; intros; try done; try congruence; eauto
  end;
  repeat match goal with
  | H : is_Some ?x, E : ?x = None |- _ => rewrite E in H; by destruct H
  | H : is_Some None |- _ => by destruct H
  | H : _ -> h_turn_aborts _ = [] |- filter _ _ = [] => rewrite H by done; done
  end.

(** ** Reading a well-formed table *)
Lemma live_inv w ctx h :
  slots_ok w -> w_live w !! ctx = Some h ->
  w_tombstones w !! ctx = None /\ w_retries w !! ctx = None /\ handle_ok ctx h
  /\ slot w ctx = live_slot h.
Proof.
  intros Hw Hl. specialize (Hw ctx). unfold slot_ok, slot, live_slot in *. simpl in *. rewrite Hl in *.
  destruct (w_tombstones w !! ctx), (w_retries w !! ctx); try done.
Qed.

Lemma tomb_inv w ctx t :
  slots_ok w -> w_tombstones w !! ctx = Some t ->
  w_live w !! ctx = None
  /\ match tb_state t with
     | TExpiring => w_retries w !! ctx = None
     | TCleanupFailed _ => exists r, w_retries w !! ctx = Some r
                                     /\ ro_session r = session_id ctx (tb_generation t)
     end.
Proof.
  intros Hw Hl. specialize (Hw ctx). unfold slot_ok, slot in *. simpl in *. rewrite Hl in *.
  destruct (w_live w !! ctx), (w_retries w !! ctx), (tb_state t); simpl in *; try done; eauto.
Qed.

Lemma absent_inv w ctx :
  slots_ok w -> w_live w !! ctx = None -> w_tombstones w !! ctx = None ->
  w_retries w !! ctx = None /\ slot w ctx = no_slot.
Proof.
  intros Hw Hl Ht. specialize (Hw ctx). unfold slot_ok, slot, no_slot in *. simpl in *.
  rewrite Hl, Ht in *. by destruct (w_retries w !! ctx).
Qed.

Lemma contains_key_false w ctx :
  contains_key w ctx = false <-> w_live w !! ctx = None /\ w_tombstones w !! ctx = None.
Proof.
  unfold contains_key. rewrite orb_false_iff, !bool_decide_eq_false, <- !eq_None_not_Some. done.
Qed.

Lemma may_claim_live w ctx h :
  slots_ok w -> w_live w !! ctx = Some h -> is_claimed (h_state h) = false -> may_claim None w ctx.
Proof.
  intros Hw Hl Hc. right. split; [done|]. destruct (live_inv _ _ _ Hw Hl) as (_ & _ & _ & ->).
  unfold slot_claim. simpl. by rewrite Hc.
Qed.

Lemma may_claim_absent w ctx :
  slots_ok w -> w_live w !! ctx = None -> w_tombstones w !! ctx = None -> may_claim None w ctx.
Proof. intros Hw Hl Ht. right. split; [done|]. by rewrite (proj2 (absent_inv _ _ Hw Hl Ht)). Qed.

Lemma same_slots_ok w w' : same_slots w w' -> slots_ok w -> slots_ok w'.
Proof. intros Hs Hw c. rewrite Hs. apply Hw. Qed.

(** Reserving successors writes intents only. *)
Lemma reserve_aborts_slots l w : same_slots w (reserve_aborts l w).2.
Proof.
  revert w. induction l as [|t l IH]; intros w c; simpl; [done|].
  unfold reserve_successor. destruct (intent w (ta_token t)); simpl; try done; by rewrite IH.
Qed.

Lemma reserve_aborts_live l w o w' :
  reserve_aborts l w = (o, w') -> same_slots w w' /\ w_live w' = w_live w /\ w_now w' = w_now w.
Proof.
  revert w. induction l as [|t l IH]; intros w; simpl; [by intros [= _ <-]|].
  unfold reserve_successor. destruct (intent w (ta_token t)); intros E; simplify_eq/=; try done.
  all: apply IH in E as (Hs & Hl & Hn); split_and!; try done; intros c; by rewrite Hs.
Qed.

Lemma put_live_slots ctx h w w1 :
  same_slots w w1 -> w_tombstones w !! ctx = None -> w_retries w !! ctx = None ->
  forall c, slot (put_live ctx h w1) c = upd ctx (live_slot h) (slot w) c.
Proof.
  intros Hs Ht Hr c. pose proof (Hs c) as Hc. unfold upd, slot in *. simpl.
  case_decide; subst; [|by rewrite lookup_insert_ne].
  rewrite lookup_insert_eq. injection Hc as _ -> ->. by rewrite Ht, Hr.
Qed.

Lemma remove_live_slots ctx w w1 :
  same_slots w w1 -> w_tombstones w !! ctx = None -> w_retries w !! ctx = None ->
  forall c, slot (remove_live ctx w1) c = upd ctx no_slot (slot w) c.
Proof.
  intros Hs Ht Hr c. pose proof (Hs c) as Hc. unfold upd, slot in *. simpl.
  case_decide; subst; [|by rewrite lookup_delete_ne].
  rewrite lookup_delete_eq. injection Hc as _ -> ->. by rewrite Ht, Hr.
Qed.

(** ** Sections by what they do to the slot of one context *)

(** The slot keeps a live handle; its claim, if any, is still this thread's
    (or still another's). *)
Lemma effect_live c0 ctx h' w e :
  slots_ok w -> may_claim c0 w ctx ->
  (forall c, slot (ef_world e) c = upd ctx (live_slot h') (slot w) c) ->
  handle_ok ctx h' ->
  new_claims e = (pair ctx) <$> option_list (slot_claim (live_slot h')) ->
  match ef_out e with Wait f => flight_ok f | Return _ _ => True end ->
  ef_spawn e = [] -> effect_ok c0 w e.
Proof. intros Hw Hm Hs Hh Hn Hf Hsp. eapply effect_upd; try done. by rewrite Hsp. Qed.

(** The handle changes and its claim does not, whoever holds it. *)
Lemma effect_touch ctx h h' w w' e :
  slots_ok w -> w_live w !! ctx = Some h -> same_slots w w' ->
  slot_claim (live_slot h') = slot_claim (live_slot h) -> handle_ok ctx h' ->
  ef_world e = put_live ctx h' w' -> new_claims e = [] -> ef_spawn e = [] ->
  match ef_out e with Wait f => flight_ok f | Return _ _ => True end ->
  effect_ok None w e.
Proof.
  intros Hw Hl Hs Hc Hok He Hn Hsp Hf.
  destruct (live_inv _ _ _ Hw Hl) as (Ht & Hr & _ & Hsl).
  eapply (effect_same ctx (live_slot h')); try done; [|by rewrite Hsl].
  rewrite He. by apply put_live_slots.
Qed.

(** Apply [effect_touch] to a section that returns; leaves the claim and the
    well-formedness of the handle. *)
Ltac touch :=
  eapply effect_touch; [eassumption|eassumption| | | |reflexivity|reflexivity|reflexivity|exact I];
  [done| |].

Lemma claim_none h : is_claimed (h_state h) = false -> slot_claim (live_slot h) = None.
Proof. intros E. unfold slot_claim. simpl. by rewrite E. Qed.

(** A handle becomes an [Expiring] tombstone with its cleanup claim. *)
Lemma expire_with_spec cid ctx h op prune w c w' :
  expire_with cid ctx h op prune w = (c, w') ->
  w_retries w !! ctx = None -> h_session h = session_id ctx (h_generation h) ->
  (forall x, slot w' x = upd ctx (tomb_slot (mkTombstone (h_generation h) op cid TExpiring) None) (slot w) x)
  /\ expiry_claim c = (ctx, KTomb (h_generation h) op cid) /\ claim_ok c.
Proof. intros [= <- <-] Hr Hs. split_and!; [slots|done|]. unfold claim_ok. by simpl. Qed.

Definition hands_over (e : Effect) (c : ExpiryClaim) : Prop :=
  (exists k, ef_out e = Wait (FCleanup c k)) /\ ef_spawn e = []
  \/ (exists r l, ef_out e = Return r l) /\ ef_spawn e = [c].

Lemma effect_expire c0 cid ctx h op prune w w1 c w' e :
  slots_ok w -> may_claim c0 w ctx -> same_slots w w1 -> w_retries w !! ctx = None ->
  expire_with cid ctx h op prune w1 = (c, w') ->
  h_session h = session_id ctx (h_generation h) ->
  ef_world e = w' -> hands_over e c -> effect_ok c0 w e.
Proof.
  intros Hw Hm Hs Hr Hx Hse He Ho.
  assert (Hr1 : w_retries w1 !! ctx = None). { specialize (Hs ctx). unfold slot in Hs. congruence. }
  destruct (expire_with_spec _ _ _ _ _ _ _ _ Hx Hr1 Hse) as (Hsl & Hc & Hok).
  eapply (effect_upd _ ctx (tomb_slot (mkTombstone (h_generation h) op cid TExpiring) None)); try done.
  - intros x. rewrite He, Hsl. unfold upd. by rewrite Hs.
  - unfold new_claims. destruct Ho as [[[k ->] ->]|[(r & l & ->) ->]]; simpl; by rewrite Hc.
  - destruct Ho as [[[k ->] _]|[(r & l & ->) _]]; done.
  - destruct Ho as [[_ ->]|[_ ->]]; by repeat constructor.
Qed.

(** The same through a fresh claim number. *)
Lemma effect_expire_handle c0 ctx h op prune w w1 c w' e :
  slots_ok w -> may_claim c0 w ctx -> same_slots w w1 -> w_retries w !! ctx = None ->
  expire_handle ctx h op prune w1 = (c, w') ->
  h_session h = session_id ctx (h_generation h) ->
  ef_world e = w' -> hands_over e c -> effect_ok c0 w e.
Proof.
  intros Hw Hm Hs Hr Hx. unfold expire_handle, next_claim_id in Hx. cbv beta iota in Hx.
  eapply effect_expire; [exact Hw|exact Hm| |exact Hr|exact Hx]. exact Hs.
Qed.

Lemma hands_over_wait w c k : hands_over (await w (FCleanup c k)) c.
Proof. left. split; [by eexists|done]. Qed.
Lemma hands_over_spawn w r l c : hands_over (mkEffect w (Return r l) [c]) c.
Proof. right. split; [by do 2 eexists|done]. Qed.
#[export] Hint Resolve hands_over_wait hands_over_spawn : bridge.

(** A turn starts on a handle that this thread may claim. *)
Lemma effect_start c0 ctx h warn w w1 turn w' e :
  slots_ok w -> may_claim c0 w ctx -> same_slots w w1 ->
  w_tombstones w !! ctx = None -> w_retries w !! ctx = None ->
  h_session h = session_id ctx (h_generation h) -> h_governed h = None ->
  start_turn ctx h warn w1 = (turn, w') ->
  ef_world e = w' -> (exists r l, ef_out e = Return r l) -> ef_spawn e = [] -> effect_ok c0 w e.
Proof.
  intros Hw Hm Hs Ht Hr Hse Hg Hst He (r & l & Hout) Hsp. unfold start_turn in Hst. simpl in Hst.
  injection Hst as _ <-. destruct e as [we o sp]. simpl in *. subst.
  eapply (effect_live _ ctx); [done|done|by apply put_live_slots| |done|done|done].
  constructor; simpl; intros; try done; unfold MAX_INJECTS, MAX_INJECT_BYTES; lia.
Qed.

(** Sections that leave the table alone and claim nothing. *)
Lemma effect_pure w e :
  slots_ok w -> same_slots w (ef_world e) -> new_claims e = [] -> ef_spawn e = [] ->
  match ef_out e with Wait f => flight_ok f | Return _ _ => True end -> effect_ok None w e.
Proof. intros. by apply effect_nop. Qed.

Ltac pure_ := apply effect_pure; try done.

Section Begin.
Context `{F64} (warn_at : option N) (idle_ttl : Z).
Context (w : World) (Hw : slots_ok w).
Notation begin := (begin warn_at idle_ttl w).

Lemma not_claimed_idle h : h_state h = Idle -> is_claimed (h_state h) = false.
Proof. by intros ->. Qed.
Lemma handle_session ctx h : handle_ok ctx h -> h_session h = session_id ctx (h_generation h).
Proof. by intros []. Qed.
Lemma handle_idle_governed ctx h : handle_ok ctx h -> h_state h = Idle -> h_governed h = None.
Proof.
  intros Hok E. destruct (h_governed h) eqn:Eg; [|done].
  rewrite (ho_governed _ _ Hok) in E by (rewrite Eg; by eexists). done.
Qed.

(** An idle handle expires because one of its intents is armed. *)
Lemma effect_expire_idle ctx h op w1 c w' e :
  w_live w !! ctx = Some h -> h_state h = Idle -> same_slots w w1 ->
  take_expiry_claim ctx h op w1 = (c, w') -> ef_world e = w' -> hands_over e c ->
  effect_ok None w e.
Proof.
  intros Hl Hi Hs Hx He Ho. destruct (live_inv _ _ _ Hw Hl) as (_ & Hr & Hok & _).
  eapply effect_expire_handle; eauto using handle_session.
  by eapply may_claim_live; eauto using not_claimed_idle.
Qed.

Lemma effect_start_idle ctx h warn w1 turn w' e :
  w_live w !! ctx = Some h -> h_state h = Idle -> same_slots w w1 ->
  start_turn ctx h warn w1 = (turn, w') -> ef_world e = w' ->
  (exists r l, ef_out e = Return r l) -> ef_spawn e = [] -> effect_ok None w e.
Proof.
  intros Hl Hi Hs Hx He Ho Hsp. destruct (live_inv _ _ _ Hw Hl) as (Ht & Hr & Hok & _).
  eapply effect_start; eauto using handle_session, handle_idle_governed.
  by eapply may_claim_live; eauto using not_claimed_idle.
Qed.

Lemma begin_checkout_ok ctx agent ov cwd : effect_ok None w (begin (QCheckout ctx agent ov cwd)).
Proof.
  unfold SessionSystem.begin, checkout_lock1.
  case_bool_decide; [pure_|]. destruct (w_live w !! ctx) as [h|] eqn:El; [|pure_].
  destruct (is_retired w h); [pure_|]. case_bool_decide as Ei; [pure_|].
  destruct (first_armed_idle_expiry w h) as [op|]; [|pure_].
  destruct (take_expiry_claim ctx h op w) as [c w'] eqn:Ex.
  eapply effect_expire_idle; eauto with bridge. done.
Qed.

Lemma begin_checkout_existing_ok ctx : effect_ok None w (begin (QCheckoutExisting ctx)).
Proof.
  unfold SessionSystem.begin, checkout_existing_turn.
  case_bool_decide; [pure_|]. destruct (w_live w !! ctx) as [h|] eqn:El; [|pure_].
  destruct (is_retired w h); [pure_|]. case_bool_decide as Ei; [pure_|].
  unfold reserve_idle_successor_or_armed.
  destruct (reserve_aborts (h_turn_aborts h) w) as [armed w1] eqn:Ea.
  apply reserve_aborts_live in Ea as (Hs & _ & _). destruct armed as [op|].
  - destruct (take_expiry_claim ctx h op w1) as [c w'] eqn:Ex.
    eapply effect_expire_idle; eauto with bridge.
  - destruct (start_turn ctx h _ w1) as [turn w'] eqn:Ex.
    eapply effect_start_idle; eauto; by do 2 eexists.
Qed.

Lemma begin_finish_ok ctx gen op : effect_ok None w (begin (QFinish ctx gen op)).
Proof.
  unfold SessionSystem.begin, finish_owned_turn.
  destruct (w_live w !! ctx) as [h|] eqn:El; [|pure_].
  destruct (live_inv _ _ _ Hw El) as (Ht & Hr & Hok & Hsl).
  destruct (_ && _ && match h_governed h with Some g => go_ready g | None => false end) eqn:Eo.
  - assert (Hrun : h_state h = Running).
    { apply (ho_governed _ _ Hok). destruct (h_governed h); [by eexists|]. by rewrite andb_false_r in Eo. }
    destruct (h_expire h); cbn [andb].
    + destruct (take_expiry_claim ctx h op w) as [c w'] eqn:Ex.
      eapply effect_expire_handle; eauto using handle_session with bridge; try done.
      eapply may_claim_live; eauto. by rewrite Hrun.
    + touch.
      * rewrite !claim_none; [done|by rewrite Hrun|]. repeat case_match; simpl; by rewrite ?Hrun.
      * repeat case_match; handles.
  - cbn [andb]. touch.
    + destruct (decide (h_state h = Running)) as [E|E].
      * rewrite !claim_none; [done|by rewrite E|]. repeat case_match; simpl; by rewrite ?E.
      * rewrite (bool_decide_eq_false_2 (_ = Running)) by (by case_bool_decide).
        rewrite andb_false_r. by case_bool_decide.
    + repeat case_match; handles.
Qed.

Lemma begin_record_usage_ok ctx gen op snap ms :
  effect_ok None w (begin (QRecordUsage ctx gen op snap ms)).
Proof.
  unfold SessionSystem.begin, record_usage.
  destruct (w_live w !! ctx) as [h|] eqn:El; [|pure_].
  destruct (live_inv _ _ _ Hw El) as (Ht & Hr & Hok & Hsl).
  destruct (_ && _ && _); [|pure_]. touch; [done|handles].
Qed.

Lemma begin_inject_ok ctx q : effect_ok None w (begin (QInject ctx q)).
Proof.
  unfold SessionSystem.begin, inject.
  destruct (w_live w !! ctx) as [h|] eqn:El; [|pure_].
  destruct (live_inv _ _ _ Hw El) as (Ht & Hr & Hok & Hsl).
  destruct (h_state h) eqn:Es; try by pure_.
  all: destruct (_ || _) eqn:Eb; [pure_|]; apply orb_false_iff in Eb as [E1 E2];
    apply Nat.ltb_ge in E1, E2; touch; [by rewrite !claim_none by (simpl; by rewrite Es)|].
  all: destruct Hok; constructor; simpl in *; intros; try done; eauto.
Qed.

Lemma begin_expire_ok ctx gen op : effect_ok None w (begin (QBeginExpire ctx gen op)).
Proof.
  unfold SessionSystem.begin, begin_expire_current.
  case_bool_decide; [pure_|]. destruct (w_live w !! ctx) as [h|] eqn:El; [|pure_].
  destruct (live_inv _ _ _ Hw El) as (Ht & Hr & Hok & Hsl).
  case_bool_decide as Eg; cbn [negb]; [|pure_].
  destruct (if negb (bool_decide (h_op h = Some op)) && has_armed_expiry_intent w h op
            then h_governed h else None) as [g|]; [touch; [done|handles]|].
  destruct (_ && bool_decide (h_state h = Cancelling)); [touch; [done|handles]|].
  destruct (_ || _) eqn:Eb; [|pure_].
  destruct (take_expiry_claim ctx h op w) as [c w'] eqn:Ex.
  eapply effect_expire_handle; eauto using handle_session with bridge; try done.
  eapply may_claim_live; eauto. apply orb_true_iff in Eb as [Eb|Eb]; rewrite !andb_true_iff, !bool_decide_eq_true in Eb;
    destruct_and?; match goal with E : h_state h = _ |- _ => by rewrite E end.
Qed.

(** [claim_release_locked] on its own: it marks the handle of another
    owner, or hands over one cleanup claim. *)
Lemma claim_release_none ctx prune w' r l :
  claim_release ctx prune w = (None, w') -> effect_ok None w (mkEffect w' (Return r l) []).
Proof.
  unfold claim_release. destruct (w_tombstones w !! ctx) as [t|] eqn:Et.
  - repeat case_match; intros; simplify_eq; pure_.
  - destruct (w_live w !! ctx) as [h|] eqn:El; [|intros [= <-]; pure_].
    destruct (live_inv _ _ _ Hw El) as (Ht & Hr & Hok & Hsl).
    destruct (h_governed h) as [g|] eqn:Eg; [intros [= <-]; touch; [done|handles]|].
    destruct (is_claimed (h_state h)); [intros [= <-]; touch; [done|handles]|].
    destruct (h_op h); simpl; unfold expire_handle, expire_with; simpl; done.
Qed.

Lemma claim_release_some ctx prune c w' e :
  claim_release ctx prune w = (Some c, w') -> ef_world e = w' -> hands_over e c ->
  effect_ok None w e.
Proof.
  unfold claim_release. destruct (w_tombstones w !! ctx) as [t|] eqn:Et.
  - destruct (tomb_inv _ _ _ Hw Et) as [El Hst].
    destruct (tb_state t) as [|code] eqn:Es; [done|]. destruct Hst as (ro & Hro & Hse).
    rewrite Hro. intros [= <- <-] He Ho.
    eapply (effect_upd _ ctx (tomb_slot (mkTombstone (tb_generation t) (tb_op t)
                                          (w_cleanup_claim_seq w) TExpiring) None)); try done.
    + rewrite He. slots.
    + unfold new_claims. destruct Ho as [[[k ->] ->]|[(r & l & ->) ->]]; done.
    + right. split; [done|]. unfold slot_claim, slot. simpl. by rewrite Et, Es.
    + destruct Ho as [[[k ->] _]|[(r & l & ->) _]]; done.
    + destruct Ho as [[_ ->]|[_ ->]]; by repeat constructor.
  - destruct (w_live w !! ctx) as [h|] eqn:El; [|done].
    destruct (live_inv _ _ _ Hw El) as (Ht & Hr & Hok & Hsl).
    destruct (h_governed h) as [g|]; [done|]. destruct (is_claimed (h_state h)) eqn:Ec; [done|].
    assert (Hm : may_claim None w ctx) by (by eapply may_claim_live).
    destruct (h_op h) as [op|]; cbn [mint_turn_op].
    all: destruct (expire_handle ctx h _ prune _) as [c1 w1] eqn:Ex; intros [= <- <-] He Ho;
      eapply effect_expire_handle; eauto using handle_session; done.
Qed.

Lemma begin_release_ok ctx : effect_ok None w (begin (QRelease ctx)).
Proof.
  unfold SessionSystem.begin. destruct (claim_release ctx true w) as [[c|] w'] eqn:E.
  - eapply claim_release_some; eauto with bridge.
  - by eapply claim_release_none.
Qed.

Lemma begin_cancel_ok ctx ex prune : effect_ok None w (begin (QCancel ctx ex prune)).
Proof.
  unfold SessionSystem.begin, cancel_claim.
  case_bool_decide; [pure_|]. destruct (w_live w !! ctx) as [h|] eqn:El; [|pure_].
  destruct (live_inv _ _ _ Hw El) as (Ht & Hr & Hok & Hsl).
  match goal with |- context [if ?b then (inl (Ok tt), w) else _] => destruct b end; [pure_|].
  destruct (h_governed h) as [g|] eqn:Eg; [pure_|].
  case_bool_decide as Ecn; [pure_|].
  destruct (is_claimed (h_state h)) eqn:Ec; [touch; [done|handles]|].
  case_bool_decide as Er.
  - touch; [by rewrite !claim_none|handles].
  - eapply (effect_live _ ctx); [done|by eapply may_claim_live|by apply put_live_slots| |done|done|done].
    handles.
Qed.

Lemma begin_reset_ok ctx force : effect_ok None w (begin (QReset ctx force)).
Proof.
  unfold SessionSystem.begin, reset_retry.
  destruct (w_tombstones w !! ctx) as [[g op cid [|code]]|] eqn:Et; try by pure_.
  destruct (claim_release ctx false w) as [[c|] w'] eqn:E; simpl.
  - eapply claim_release_some; eauto with bridge.
  - apply (claim_release_none _ _ _ RNone []) in E as []. by constructor.
Qed.

(** A derived session id is never empty. *)
Lemma session_id_parse ctx g : id_parse "SessionId" (session_id ctx g) = Ok (session_id ctx g).
Proof. done. Qed.

Lemma reset_plan_ok ctx h p :
  handle_ok ctx h -> reset_plan ctx h = Ok p ->
  plan_ok ctx p /\ rp_claimed_id p = h_id h /\ rp_old p = h_session h.
Proof.
  intros Hok. unfold reset_plan. rewrite session_id_parse. intros E. assert (exists cwd, p = mkPlan (h_backend h) (h_session h) (h_id h)
    (h_generation h + 1) (session_id ctx (h_generation h + 1)) (fp_config (h_fingerprint h)) cwd)
    as [cwd ->] by (repeat case_match; simplify_eq; eauto).
  split_and!; try done. exists (h_generation h). split_and!; try done. by apply ho_session.
Qed.

Lemma begin_compact_ok ctx ex : effect_ok None w (begin (QCompact ctx ex)).
Proof.
  unfold SessionSystem.begin, compact_claim. destruct (negb _); [pure_|].
  destruct (w_live w !! ctx) as [h|] eqn:El; [|pure_].
  destruct (live_inv _ _ _ Hw El) as (Ht & Hr & Hok & Hsl).
  case_bool_decide as Ei; [pure_|]. destruct (h_pending_seed h); [pure_|].
  destruct (negb _); [pure_|]. destruct (reset_plan ctx h) as [p|] eqn:Ep; [|pure_].
  destruct (reset_plan_ok _ _ _ Hok Ep) as (Hp & Hid & Hold).
  assert (Hg : h_governed h = None) by (by eapply handle_idle_governed).
  eapply (effect_live _ ctx); [done| |by apply put_live_slots| | |done|done].
  - eapply may_claim_live; eauto using not_claimed_idle.
  - handles.
  - unfold new_claims, slot_claim, plan_claim. simpl. unfold plan_claim. by rewrite Hid, Hold.
Qed.

(** [reset_claim], the section of [FResetBegin]. *)
Lemma resume_reset_begin_ok ctx force late :
  effect_ok None w (resume_reset w (FResetBegin ctx force) (OLock late)).
Proof.
  unfold resume_reset, reset_claim.
  destruct (w_live w !! ctx) as [h|] eqn:El; [|pure_].
  destruct (live_inv _ _ _ Hw El) as (Ht & Hr & Hok & Hsl).
  destruct (h_governed h) as [g|] eqn:Eg.
  { destruct force; cbn [negb]; [touch; [done|handles]|pure_]. }
  assert (Hproceed : forall b, is_claimed (h_state h) = false ->
    effect_ok None w (let (r, w) := match reset_plan ctx h with
            | Err e => (inl (Err e), w)
            | Ok plan =>
                let w := resolve_context_cancelled ctx w in
                let (h', w) := fire_lingering_turn_abort h w in
                (inr plan, put_live ctx (set_h_expire false (set_h_state Resetting h')) w)
            end in
      match r with
      | inl r => return_ w (RReset r)
      | inr plan => await w (if b : bool then FResetCancel ctx plan else FResetRelease ctx plan)
      end)).
  { intros b Hc. destruct (reset_plan ctx h) as [p|] eqn:Ep; [|pure_].
    destruct (reset_plan_ok _ _ _ Hok Ep) as (Hp & Hid & Hold).
    eapply (effect_live _ ctx); [done|by eapply may_claim_live|by apply put_live_slots| | | |done].
    - handles.
    - unfold new_claims, slot_claim. destruct b; simpl; unfold plan_claim; by rewrite Hid, Hold.
    - by destruct b. }
  destruct (h_state h) eqn:Es, force; try (by apply (Hproceed true)); try (by apply (Hproceed false)); try by pure_.
  touch; [done|handles].
Qed.

Lemma begin_child_ok child : effect_ok None w (begin (QExpireRetiredChild child)).
Proof.
  unfold SessionSystem.begin, take_retired_idle_child.
  destruct (w_live w !! child) as [h|] eqn:El; [|pure_].
  destruct (live_inv _ _ _ Hw El) as (Ht & Hr & Hok & Hsl).
  case_bool_decide as Ei; cbn [orb]; [pure_|]. destruct (is_retired w h); cbn [negb]; [|pure_].
  eapply (effect_upd _ child no_slot); try done; [by apply remove_live_slots|].
  eapply may_claim_live; eauto using not_claimed_idle.
Qed.

(** Governed claims: taking one leaves the handle [Running] and unclaimed. *)
Lemma claim_governed_ok ctx agent ov cwd fresh r c w' rep :
  claim_governed ctx agent ov cwd fresh w = (r, c, w') ->
  effect_ok None w (mkEffect w' (Return rep []) (option_list c)).
Proof.
  unfold claim_governed. case_bool_decide; [intros [= <- <- <-]; pure_|].
  destruct (w_live w !! ctx) as [h|] eqn:El; [|intros [= <- <- <-]; pure_].
  destruct (live_inv _ _ _ Hw El) as (Ht & Hr & Hok & Hsl).
  destruct (is_retired w h); [intros [= <- <- <-]; pure_|].
  case_bool_decide as Ei; [intros [= <- <- <-]; pure_|].
  destruct (first_armed w (h_turn_aborts h)) as [op|].
  { destruct (take_expiry_claim ctx h op w) as [c1 w1] eqn:Ex. intros [= <- <- <-].
    eapply effect_expire_idle; eauto with bridge; done. }
  repeat (match goal with |- context [if ?b then (Err _, None, w) else _] =>
            destruct b; [intros [= <- <- <-]; pure_|] end).
  destruct (intended_fingerprint _ _); [|intros [= <- <- <-]; pure_].
  intros [= <- <- <-]. touch; [by rewrite !claim_none by (simpl; by rewrite ?Ei)|handles].
Qed.

Lemma claim_fresh_ok ctx agent ov cwd rs r c w' rep :
  claim_fresh ctx agent ov cwd rs w = (r, c, w') ->
  effect_ok None w (mkEffect w' (Return rep []) (option_list c)).
Proof.
  unfold claim_fresh. destruct (contains_key w ctx) eqn:Ek; [intros [= <- <- <-]; pure_|].
  apply contains_key_false in Ek as [El Et]. destruct (absent_inv _ _ Hw El Et) as [Hr Hsl].
  rewrite session_id_parse. unfold claim_governed, remove_and_drop. cbn [next_handle_id].
  simpl. rewrite Et, bool_decide_eq_false_2 by (by intros [? ?]). rewrite lookup_insert_eq.
  unfold is_retired. simpl. destruct (bool_decide (rs_lease rs ∈ w_retired w)).
  - simpl. rewrite lookup_insert_eq. intros [= <- <- <-]. apply effect_pure; try done.
    intros x. unfold slot. simpl. destruct (decide (x = ctx)) as [->|];
      [by rewrite lookup_delete_eq, El|by rewrite lookup_delete_ne, lookup_insert_ne].
  - simpl. intros [= <- <- <-].
    eapply (effect_live _ ctx); [done|by eapply may_claim_absent| | | |done|done].
    + intros x. unfold slot, upd. simpl. case_decide; subst; [|by rewrite !lookup_insert_ne].
      rewrite lookup_insert_eq, Et, Hr. reflexivity.
    + constructor; simpl; intros; try done. unfold MAX_INJECTS, MAX_INJECT_BYTES. lia.
    + done.
Qed.

Lemma owned_handle_inv cl h :
  owned_handle w cl = Some h ->
  w_live w !! gc_ctx cl = Some h /\ h_generation h = gc_generation cl /\ h_op h = Some (gc_op cl)
  /\ is_Some (h_governed h) /\ h_state h = Running.
Proof.
  unfold owned_handle, owns. destruct (w_live w !! gc_ctx cl) as [h'|] eqn:El; [|done].
  destruct (live_inv _ _ _ Hw El) as (_ & _ & Hok & _).
  destruct (h_governed h') as [g|] eqn:Eg; rewrite ?andb_true_r, ?andb_false_r; [|done].
  intros E. case_match eqn:Eb; simplify_eq. rewrite !andb_true_iff, !bool_decide_eq_true in Eb.
  destruct_and?. rewrite Eg. split_and!; try done. apply Hok. rewrite Eg. by eexists.
Qed.

Lemma settle_claim_ok cl r c w' e :
  settle_claim cl w = (r, c, w') -> ef_world e = w' ->
  match c with
  | Some c => hands_over e c
  | None => (exists r l, ef_out e = Return r l) /\ ef_spawn e = []
  end -> effect_ok None w e.
Proof.
  unfold settle_claim. destruct (owned_handle w cl) as [h|] eqn:Eo.
  2: { intros [= <- <- <-] He ((? & ? & Eo') & Es). apply effect_pure; try done; rewrite ?He; try done.
       - unfold new_claims. by rewrite Eo', Es.
       - by rewrite Eo'. }
  destruct (owned_handle_inv _ _ Eo) as (El & Hgen & Hop & Hgv & Hrun).
  destruct (live_inv _ _ _ Hw El) as (Ht & Hr & Hok & Hsl).
  assert (Hm : may_claim None w (gc_ctx cl)) by (eapply may_claim_live; eauto; by rewrite Hrun).
  destruct (gc_fresh cl && negb (gc_applying cl)).
  { intros [= <- <- <-] He ((? & ? & Eo') & Es). eapply (effect_upd _ (gc_ctx cl) no_slot); try done.
    - rewrite He. by apply remove_live_slots.
    - unfold new_claims. by rewrite Eo', Es.
    - by rewrite Eo'.
    - by rewrite Es. }
  destruct (gc_applying cl || _ || _).
  - destruct (take_expiry_claim _ _ _ w) as [c1 w1] eqn:Ex. intros [= <- <- <-] He Ho.
    eapply effect_expire_handle; eauto; try done. simpl. by apply handle_session.
  - intros [= <- <- <-] He ((? & ? & Eo') & Es).
    eapply (effect_live _ (gc_ctx cl)); [done|done| | | | |done].
    + rewrite He. by apply put_live_slots.
    + handles.
    + unfold new_claims. by rewrite Eo', Es.
    + by rewrite Eo'.
Qed.

Lemma begin_rollback_ok cl : effect_ok None w (begin (QRollback cl)).
Proof.
  unfold SessionSystem.begin. destruct (settle_claim cl w) as [[r [c|]] w'] eqn:E;
    (eapply settle_claim_ok; [eassumption|reflexivity|]).
  - apply hands_over_wait.
  - split; [by do 2 eexists|done].
Qed.

Lemma begin_first_poll_ok cl se b : effect_ok None w (begin (QFirstPoll cl se b)).
Proof.
  unfold SessionSystem.begin, first_poll. destruct (owned_handle w cl) as [h|] eqn:Eo; [|pure_].
  destruct (owned_handle_inv _ _ Eo) as (El & Hgen & Hop & Hgv & Hrun).
  destruct (live_inv _ _ _ Hw El) as (Ht & Hr & Hok & Hsl).
  destruct (negb _); [pure_|]. destruct (is_cancelled _ _); [pure_|].
  destruct (_ || _); touch; try done; handles.
Qed.

Lemma apply_begin_slots cl rs late : same_slots w (apply_begin cl rs late w).2.
Proof.
  assert (Harm : forall l w0, same_slots w0 (foldl (fun w t => arm_intent t w) w0 l)).
  { intros l. induction l as [|t l IH]; intros w0 c; simpl; [done|]. rewrite IH.
    unfold arm_intent. by destruct (intent w0 t). }
  intros c. unfold apply_begin. destruct (owned_handle w cl) as [h|]; [|done].
  repeat (match goal with |- context [if ?b then (ABFail _ _, w) else _] => destruct b; [done|] end).
  match goal with |- context [match ?m with Ok _ => _ | Err e => _ end] => destruct m end; [|done].
  match goal with |- context [if ?b then (ABFail _ _, w) else _] => destruct b; [done|] end.
  destruct (reserve_aborts _ _) as [o w1] eqn:Er. apply reserve_aborts_live in Er as (Hs & _ & _).
  rewrite <- (Harm late w c), <- Hs. by repeat case_match.
Qed.

Lemma apply_commit_ok cl rs w' r rep :
  apply_commit warn_at cl rs w = (r, w') ->
  effect_ok None w (match r with
                    | Ok turn => return_ w' rep
                    | Err f => await w' (FClaimSettle cl f)
                    end).
Proof.
  unfold apply_commit. destruct (owned_handle w cl) as [h|] eqn:Eo; [|intros [= <- <-]; pure_].
  destruct (owned_handle_inv _ _ Eo) as (El & Hgen & Hop & Hgv & Hrun).
  destruct (live_inv _ _ _ Hw El) as (Ht & Hr & Hok & Hsl).
  repeat (match goal with |- context [if ?b then (Err _, w) else _] =>
            destruct b; [intros [= <- <-]; pure_|] end).
  intros [= <- <-]. touch; [by rewrite !claim_none by (simpl; by rewrite Hrun)|].
  destruct Hok; constructor; simpl; intros; try done; try congruence; eauto.
  unfold MAX_INJECTS, MAX_INJECT_BYTES. lia.
Qed.
End Begin.

Section Resume.
Context `{F64} (warn_at : option N) (idle_ttl : Z).
Context (w : World) (Hw : slots_ok w).

(** ** A thread that holds a claim finds it in the table *)
Lemma live_claim_inv ctx hid st op se :
  slot_claim (slot w ctx) = Some (KLive hid st op se) ->
  exists h, w_live w !! ctx = Some h /\ h_id h = hid /\ h_state h = st /\ h_session h = se
            /\ is_claimed st = true /\ (st = Configuring -> h_op h = op)
            /\ still_ours w ctx hid st = Some h.
Proof.
  unfold slot_claim, slot, still_ours. simpl.
  destruct (w_tombstones w !! ctx) as [t|]; [by destruct (tb_state t)|].
  destruct (w_live w !! ctx) as [h|]; [|done]. destruct (is_claimed (h_state h)) eqn:Ec; [|done].
  intros [= <- <- <- <-]. exists h.
  rewrite (bool_decide_eq_true_2 (h_id h = h_id h)), (bool_decide_eq_true_2 (h_state h = h_state h)) by done.
  split_and!; try done. intros E. by rewrite bool_decide_eq_true_2.
Qed.

Lemma tomb_claim_inv c :
  slot_claim (slot w (ec_ctx c)) = Some (expiry_claim c).2 ->
  w_tombstones w !! ec_ctx c = Some (mkTombstone (ec_generation c) (ec_op c) (ec_claim_id c) TExpiring).
Proof.
  unfold slot_claim, slot. simpl. destruct (w_tombstones w !! ec_ctx c) as [[g o i [|]]|]; try done.
  - by intros [= -> -> ->].
  - repeat case_match; done.
Qed.

Lemma owned_intro ctx k : may_claim (Some (ctx, k)) w ctx.
Proof. left. by exists k. Qed.

(** The same claim goes on. *)
Lemma effect_continue c0 f w' :
  (forall c k, c0 = Some (c, k) -> slot_claim (slot w c) = Some k) ->
  flight_claim f = c0 -> flight_ok f -> same_slots w w' -> effect_ok c0 w (await w' f).
Proof.
  intros Hc Hf Hok Hs. apply effect_nop; try done. unfold new_claims. simpl. by rewrite Hf, app_nil_r.
Qed.

(** The handle behind a claim is removed. *)
Lemma effect_remove ctx k h r l :
  w_live w !! ctx = Some h ->
  effect_ok (Some (ctx, k)) w (mkEffect (remove_and_drop ctx w) (Return r l) []).
Proof.
  intros El. destruct (live_inv _ _ _ Hw El) as (Ht & Hr & _ & _).
  unfold remove_and_drop. rewrite El.
  eapply (effect_upd _ ctx no_slot); try done; [by apply remove_live_slots|apply owned_intro].
Qed.

Lemma drop_claimed_ok ctx hid st op se r :
  slot_claim (slot w ctx) = Some (KLive hid st op se) ->
  effect_ok (Some (ctx, KLive hid st op se)) w (drop_claimed ctx w r).
Proof. intros (h & El & _)%live_claim_inv. by eapply effect_remove. Qed.

(** A claimed handle moves to another claimed state with the thread. *)
Lemma effect_move ctx k h h' w' f :
  w_live w !! ctx = Some h -> handle_ok ctx h' -> same_slots w w' ->
  option_list (flight_claim f) = pair ctx <$> option_list (slot_claim (live_slot h')) ->
  flight_ok f ->
  effect_ok (Some (ctx, k)) w (await (put_live ctx h' w') f).
Proof.
  intros El Hok Hs Hf Hfo. destruct (live_inv _ _ _ Hw El) as (Ht & Hr & _ & _).
  eapply (effect_live _ ctx); [done|apply owned_intro|by apply put_live_slots|done| |done|done].
  unfold new_claims. simpl. by rewrite app_nil_r.
Qed.

Lemma handle_claimed_governed ctx h :
  handle_ok ctx h -> is_claimed (h_state h) = true -> h_governed h = None.
Proof.
  intros Hok E. destruct (h_governed h) eqn:Eg; [|done].
  rewrite (ho_governed _ _ Hok) in E by (rewrite Eg; by eexists). done.
Qed.

(** ** Checkout *)
Lemma resume_resolve_ok ctx agent ov cwd saw rs :
  effect_ok None w (resume_checkout warn_at w (FResolve ctx agent ov cwd saw) (OResolve (Ok rs))).
Proof.
  unfold resume_checkout, checkout_lock2. case_bool_decide as Et; [pure_|].
  apply eq_None_not_Some in Et.
  destruct (w_live w !! ctx) as [h|] eqn:El.
  2: { destruct saw; [pure_|]. unfold checkout_fresh. rewrite session_id_parse. simpl.
       destruct (absent_inv _ _ Hw El Et) as [Hr _].
       eapply (effect_live _ ctx); [done|by eapply may_claim_absent|by apply put_live_slots| |done|done|done].
       constructor; simpl; intros; try done. unfold MAX_INJECTS, MAX_INJECT_BYTES. lia. }
  destruct (live_inv _ _ _ Hw El) as (_ & Hr & Hok & Hsl).
  destruct (is_retired w h); [pure_|]. case_bool_decide as Ei; [pure_|].
  assert (Hg : h_governed h = None) by (by eapply handle_idle_governed).
  unfold checkout_existing_handle, reserve_idle_successor_or_armed.
  case_bool_decide as Ed.
  - destruct (reserve_aborts _ w) as [[op|] w1] eqn:Ea; apply reserve_aborts_live in Ea as (Hs & _ & _).
    + destruct (take_expiry_claim ctx h op w1) as [c w'] eqn:Ex.
      eapply effect_expire_idle; eauto with bridge.
    + destruct (start_turn ctx h _ w1) as [turn w'] eqn:Ex.
      eapply effect_start_idle; eauto; by do 2 eexists.
  - destruct (route_diff _ _) as [f|e]; [|pure_].
    destruct (reserve_aborts _ w) as [[op|] w1] eqn:Ea; apply reserve_aborts_live in Ea as (Hs & _ & _).
    + destruct (take_expiry_claim ctx h op w1) as [c w'] eqn:Ex.
      eapply effect_expire_idle; eauto with bridge.
    + eapply (effect_live _ ctx); [done| |by apply put_live_slots| |done|done|done].
      * eapply may_claim_live; eauto using not_claimed_idle.
      * handles.
Qed.

Lemma resume_reconcile_ok ctx hid se fp rf r :
  slot_claim (slot w ctx) = Some (KLive hid Reconciling None se) ->
  effect_ok (Some (ctx, KLive hid Reconciling None se)) w
    (resume_checkout warn_at w (FReconcile ctx hid se fp rf) (OReconcile r)).
Proof.
  intros (h & El & Hid & Hst & Hse & _ & _ & Hours)%live_claim_inv.
  destruct (live_inv _ _ _ Hw El) as (Ht & Hr & Hok & Hsl).
  assert (Hg : h_governed h = None) by (eapply handle_claimed_governed; eauto; by rewrite Hst).
  unfold resume_checkout, settle_reconcile. rewrite Hours.
  match goal with |- context [if ?b then _ else _] => destruct b end.
  - destruct (start_turn ctx _ _ w) as [turn w'] eqn:Ex.
    eapply effect_start; [exact Hw|apply owned_intro|done|exact Ht|exact Hr| | |exact Ex
                         |done|by do 2 eexists|done].
    { exact (handle_session _ _ Hok). } exact Hg.
  - eapply effect_move; eauto; [handles|done| |done]. simpl. by rewrite Hid, Hse.
Qed.

Lemma resume_configure_ok ctx hid cl se cfg :
  slot_claim (slot w ctx) = Some (KLive hid Configuring (Some cl) se) ->
  effect_ok (Some (ctx, KLive hid Configuring (Some cl) se)) w
    (resume_checkout warn_at w (FConfigure ctx hid cl se) (OResult cfg)).
Proof.
  intros (h & El & Hid & Hst & Hse & _ & Hop & Hours)%live_claim_inv.
  destruct (live_inv _ _ _ Hw El) as (Ht & Hr & Hok & Hsl).
  assert (Hg : h_governed h = None) by (eapply handle_claimed_governed; eauto; by rewrite Hst).
  unfold resume_checkout, settle_configure. rewrite Hours, bool_decide_eq_true_2 by (by apply Hop).
  destruct (h_expire h).
  - eapply effect_move; eauto; [handles|done| |done]. simpl. by rewrite Hid, Hse.
  - destruct cfg as [[]|err].
    + destruct (start_turn ctx _ _ w) as [turn w'] eqn:Ex.
      eapply effect_start; [exact Hw|apply owned_intro|done|exact Ht|exact Hr| | |exact Ex
                           |done|by do 2 eexists|done].
      { exact (handle_session _ _ Hok). } exact Hg.
    + eapply (effect_upd _ ctx no_slot); try done; [by apply remove_live_slots|apply owned_intro].
Qed.

(** ** Cleanup and cancel *)
Lemma resume_settle_ok c res k late :
  slot_claim (slot w (ec_ctx c)) = Some (expiry_claim c).2 -> claim_ok c ->
  effect_ok (Some (expiry_claim c)) w (resume_cleanup w (FSettle c res k) (OLock late)).
Proof.
  intros Et%tomb_claim_inv Hok. destruct (tomb_inv _ _ _ Hw Et) as [El Hr]. simpl in Hr.
  unfold resume_cleanup. destruct (cleanup_return c k res) as [r l].
  unfold settle_cleanup. rewrite Et. simpl. rewrite !bool_decide_eq_true_2 by done. simpl.
  destruct res as [d|err].
  - eapply (effect_upd _ (ec_ctx c) no_slot); try done; [slots|apply owned_intro].
  - eapply (effect_upd _ (ec_ctx c)
      (tomb_slot (mkTombstone (ec_generation c) (ec_op c) (ec_claim_id c)
                    (TCleanupFailed "warm.cleanup.release_failed")) (Some (ec_retry c)))); try done.
    + slots.
    + apply owned_intro.
Qed.

Lemma resume_cancel_ok ctx hid se cid fb prune r :
  slot_claim (slot w ctx) = Some (KLive hid Cancelling None se) ->
  effect_ok (Some (ctx, KLive hid Cancelling None se)) w
    (resume_cleanup w (FCancel ctx hid se cid fb prune) (OResult r)).
Proof.
  intros (h & El & Hid & Hst & Hse & _ & _ & Hours)%live_claim_inv.
  destruct (live_inv _ _ _ Hw El) as (Ht & Hr & Hok & Hsl).
  assert (Hg : h_governed h = None) by (eapply handle_claimed_governed; eauto; by rewrite Hst).
  unfold resume_cleanup, settle_cancel. rewrite Hours. destruct (_ && _).
  - eapply (effect_live _ ctx); [done|apply owned_intro|by apply put_live_slots|handles|done|done|done].
  - destruct (expire_with cid ctx h _ prune w) as [c w'] eqn:Ex.
    eapply effect_expire; eauto using owned_intro, handle_session with bridge; done.
Qed.

(** ** Reset and compact *)
Lemma reset_tail_ok ctx st p cfg seed keep ab :
  st = Resetting \/ st = Compacting ->
  slot_claim (slot w ctx) = Some (plan_claim ctx st p).2 -> plan_ok ctx p ->
  flight_claim ab = Some (plan_claim ctx st p) -> flight_ok ab ->
  effect_ok (Some (plan_claim ctx st p)) w (reset_tail ctx st p cfg seed keep ab w).
Proof.
  intros Hst0 Hc Hp Hab Hfo. pose proof Hc as (h & El & Hid & Hst & Hse & _ & _ & Hours)%live_claim_inv.
  destruct (live_inv _ _ _ Hw El) as (Ht & Hr & Hok & Hsl).
  assert (Hg : h_governed h = None).
  { eapply handle_claimed_governed; eauto. rewrite Hst. by destruct Hst0 as [->| ->]. }
  unfold reset_tail, settle_reset. rewrite Hours. destruct (_ || _).
  - apply effect_continue; try done. by intros c k [= <- <-].
  - eapply (effect_live _ ctx); [done|apply owned_intro|by apply put_live_slots| |done|done|done].
    destruct Hp as (g & Hold & Hnew & Hgen). destruct keep; handles.
    unfold MAX_INJECTS, MAX_INJECT_BYTES. lia.
Qed.

Lemma resume_summarize_ok ctx p r :
  slot_claim (slot w ctx) = Some (plan_claim ctx Compacting p).2 -> plan_ok ctx p ->
  effect_ok (Some (plan_claim ctx Compacting p)) w (resume_reset w (FSummarize ctx p) (OSummary r)).
Proof.
  intros Hc Hp. pose proof Hc as (h & El & Hid & Hst & Hse & _ & _ & Hours)%live_claim_inv.
  destruct (live_inv _ _ _ Hw El) as (Ht & Hr & Hok & Hsl).
  assert (Hg : h_governed h = None) by (eapply handle_claimed_governed; eauto; by rewrite Hst).
  assert (Hx : forall err, effect_ok (Some (plan_claim ctx Compacting p)) w
     (let (ours, w) := expire_compacting ctx (rp_claimed_id p) w in
      if ours then await w (FSummarizeRelease ctx p err) else return_ w (RReset (Err err)))).
  { intros err. unfold expire_compacting. rewrite Hours.
    eapply effect_move; eauto; [handles|done|]. simpl. unfold plan_claim. by rewrite Hid, Hse. }
  unfold resume_reset. destruct r as [[sm|err]|]; try apply Hx.
  destruct (all_white_space sm); [apply Hx|].
  apply effect_continue; try done. by intros c k [= <- <-].
Qed.
End Resume.

(** ** Sweeps: several contexts under one lock *)
Definition sweep_ok (w : World) (cs : list ExpiryClaim) (w' : World) : Prop :=
  effect_ok None w (mkEffect w' (Return RNone []) cs).

Lemma sweep_nil w w' : slots_ok w -> same_slots w w' -> sweep_ok w [] w'.
Proof. intros. by apply effect_pure. Qed.

Lemma sweep_app w cs1 w1 cs2 w2 :
  sweep_ok w cs1 w1 -> sweep_ok w1 cs2 w2 -> sweep_ok w (cs1 ++ cs2) w2.
Proof.
  intros [S1 D1 N1 _ O1 _ C1] [S2 D2 N2 _ O2 _ C2].
  assert (Hno : forall c, ~ owned None c) by (by intros c [k Hk]).
  unfold new_claims in *; simpl in *.
  assert (Hdj : forall c, c ∈ (expiry_claim <$> cs1).*1 -> c ∉ (expiry_claim <$> cs2).*1).
  { intros c ([c1 k1] & -> & H1)%list_elem_of_fmap ([c2 k2] & Hc & H2)%list_elem_of_fmap.
    simpl in Hc. subst. apply N1 in H1 as [H1 _]. apply N2 in H2 as [_ [H2|H2]]; [by destruct (Hno c2)|].
    congruence. }
  split; simpl; try done; unfold new_claims; simpl.
  - rewrite fmap_app, fmap_app. by apply NoDup_app.
  - intros c k Hin. rewrite fmap_app, elem_of_app in Hin. destruct Hin as [Hin|Hin].
    + destruct (N1 c k Hin) as [Hk Hf]. split; [|done]. rewrite (O2 c (Hno c)); [done|].
      apply Hdj. apply list_elem_of_fmap. by eexists (c, k).
    + destruct (N2 c k Hin) as [Hk [Hf|Hf]]; [by destruct (Hno c)|]. split; [done|]. right.
      rewrite <- (O1 c (Hno c)); [done|]. intros Hc. apply Hdj in Hc.
      apply Hc, list_elem_of_fmap. by eexists (c, k).
  - intros c Hc. by destruct (Hno c).
  - intros c _ Hni. rewrite fmap_app, fmap_app, elem_of_app in Hni.
    apply Decidable.not_or in Hni as [Hn1 Hn2]. by rewrite (O2 c (Hno c) Hn2), (O1 c (Hno c) Hn1).
  - by apply Forall_app.
Qed.

Lemma sweep_slots w cs w' : sweep_ok w cs w' -> slots_ok w'.
Proof. intros []; done. Qed.

Section Sweeps.
Context `{F64} (warn_at : option N) (idle_ttl : Z).

Lemma claim_release_sweep ctx prune w c w' :
  slots_ok w -> claim_release ctx prune w = (c, w') -> sweep_ok w (option_list c) w'.
Proof.
  intros Hw E. destruct c; simpl.
  - eapply claim_release_some; eauto with bridge.
  - by eapply claim_release_none.
Qed.

Lemma claim_release_all_sweep ctxs w cs w' :
  slots_ok w -> claim_release_all ctxs w = (cs, w') -> sweep_ok w cs w'.
Proof.
  revert w cs w'. induction ctxs as [|c ctxs IH]; intros w cs w' Hw; simpl.
  - intros [= <- <-]. by apply sweep_nil.
  - destruct (claim_release c false w) as [o w1] eqn:E1.
    destruct (claim_release_all ctxs w1) as [cs2 w2] eqn:E2. intros [= <- <-].
    pose proof (claim_release_sweep _ _ _ _ _ Hw E1) as H1.
    eapply sweep_app; [done|]. apply IH; eauto using sweep_slots.
Qed.

Lemma release_with_children_ok ctx w cs w' :
  slots_ok w -> release_with_children ctx w = (cs, w') -> sweep_ok w cs w'.
Proof.
  intros Hw. unfold release_with_children.
  destruct (claim_release_all _ w) as [cs1 w1] eqn:E. intros [= <- <-].
  pose proof (claim_release_all_sweep _ _ _ _ Hw E) as H1. destruct H1. by constructor.
Qed.

Lemma reap_one_sweep ttl now ctx w c w' :
  slots_ok w -> reap_one ttl now ctx w = (c, w') -> sweep_ok w (option_list c) w'.
Proof.
  intros Hw. unfold reap_one. destruct (w_live w !! ctx) as [h|] eqn:El; [|intros [= <- <-]; by apply sweep_nil].
  destruct (reapable ttl now h) eqn:Er; [|intros [= <- <-]; by apply sweep_nil].
  unfold reapable in Er. apply andb_true_iff in Er as [Ei%bool_decide_eq_true _].
  destruct (live_inv _ _ _ Hw El) as (Ht & Hr & Hok & Hsl).
  rewrite (ho_idle _ _ Hok Ei). cbn [mint_turn_op].
  destruct (expire_handle ctx h _ true _) as [c1 w1] eqn:Ex. intros [= <- <-]. simpl.
  eapply effect_expire_handle; eauto using handle_session with bridge; try done.
  eapply may_claim_live; eauto using not_claimed_idle.
Qed.

Lemma reap_all_sweep ttl now ctxs w cs w' :
  slots_ok w -> reap_all ttl now ctxs w = (cs, w') -> sweep_ok w cs w'.
Proof.
  revert w cs w'. induction ctxs as [|c ctxs IH]; intros w cs w' Hw; simpl.
  - intros [= <- <-]. by apply sweep_nil.
  - destruct (reap_one ttl now c w) as [o w1] eqn:E1.
    destruct (reap_all ttl now ctxs w1) as [cs2 w2] eqn:E2. intros [= <- <-].
    pose proof (reap_one_sweep _ _ _ _ _ _ Hw E1) as H1.
    eapply sweep_app; [done|]. apply IH; eauto using sweep_slots.
Qed.

Lemma reap_commit_ok ttl now ctxs w cs w' :
  slots_ok w -> reap_commit ttl now ctxs w = (cs, w') -> sweep_ok w cs w'.
Proof.
  intros Hw. unfold reap_commit. destruct (reap_all ttl now ctxs w) as [cs1 w1] eqn:E.
  intros [= <- <-]. pose proof (reap_all_sweep _ _ _ _ _ _ Hw E) as []. case_bool_decide; by constructor.
Qed.

(** ** Every section *)
Lemma begin_ok w q : slots_ok w -> effect_ok None w (begin warn_at idle_ttl w q).
Proof.
  intros Hw. destruct q.
  - by apply begin_checkout_ok.
  - by apply begin_checkout_existing_ok.
  - by apply begin_finish_ok.
  - by apply begin_record_usage_ok.
  - by apply begin_inject_ok.
  - by apply begin_expire_ok.
  - by apply begin_release_ok.
  - simpl. destruct (release_with_children ctx w) as [cs w'] eqn:E. by eapply release_with_children_ok.
  - pure_.
  - by apply begin_cancel_ok.
  - by apply begin_reset_ok.
  - by apply begin_compact_ok.
  - pure_.
  - by apply begin_child_ok.
  - simpl. destruct (claim_governed _ _ _ _ _ w) as [[r c] w'] eqn:E. by eapply claim_governed_ok.
  - simpl. destruct (contains_key w ctx); [|pure_].
    destruct (claim_governed _ _ _ _ _ w) as [[r c] w'] eqn:E. by eapply claim_governed_ok.
  - simpl. destruct (negb admitted); pure_.
  - by apply begin_rollback_ok.
  - by apply begin_first_poll_ok.
Qed.

(** A point that is resumed with the outcome of another call waits on. *)
Lemma resume_stutter w f :
  slots_ok w -> flight_ok f ->
  (forall c k, flight_claim f = Some (c, k) -> slot_claim (slot w c) = Some k) ->
  effect_ok (flight_claim f) w (await w f).
Proof. intros. by apply effect_continue. Qed.

Lemma resume_governed_ok w f o :
  slots_ok w -> flight_claim f = None -> flight_ok f ->
  effect_ok None w (resume_governed warn_at w f o).
Proof.
  intros Hw Hf Hok.
  assert (Hst : effect_ok None w (await w f)) by (rewrite <- Hf; apply resume_stutter; try done; by rewrite Hf).
  assert (Hcommit : forall claim rs, effect_ok None w
    (let (r, w) := apply_commit warn_at claim rs w in
     match r with Ok turn => return_ w (RApply (Ok turn)) | Err fl => await w (FClaimSettle claim fl) end)).
  { intros claim rs. destruct (apply_commit warn_at claim rs w) as [r w'] eqn:E.
    destruct r as [turn|err].
    - exact (apply_commit_ok warn_at w Hw _ _ _ (Ok turn) (RApply (Ok turn)) E).
    - exact (apply_commit_ok warn_at w Hw _ _ _ (Err err) RNone E). }
  destruct f; try done; destruct o; try done; simpl.
  - destruct r as [rs|e]; [|pure_].
    destruct (claim_fresh _ _ _ _ _ _) as [[r c] w'] eqn:E. by eapply claim_fresh_ok.
  - destruct r; pure_.
  - pose proof (apply_begin_slots w claim rs late) as Hs.
    destruct (apply_begin claim rs late w) as [[] w'] eqn:E; simpl in Hs; by pure_.
  - destruct r as [[]|]; [apply Hcommit|pure_].
  - destruct r as [[]|]; try by pure_. apply Hcommit.
  - apply Hcommit.
  - destruct (settle_claim claim w) as [[r [c|]] w'] eqn:E;
      (eapply settle_claim_ok; [eassumption|eassumption|reflexivity|]).
    + apply hands_over_wait.
    + split; [by do 2 eexists|done].
Qed.

Lemma resume_ok w f o :
  slots_ok w -> flight_ok f ->
  (forall c k, flight_claim f = Some (c, k) -> slot_claim (slot w c) = Some k) ->
  effect_ok (flight_claim f) w (resume warn_at idle_ttl w f o).
Proof.
  intros Hw Hok Hc. pose proof (resume_stutter w f Hw Hok Hc) as Hst.
  destruct f; try (by apply resume_governed_ok); simpl in Hc, Hok; try (specialize (Hc _ _ eq_refl));
    destruct o; try exact Hst; simpl.
  - by apply begin_ok.
  - pure_.
  - destruct r; [by apply (resume_resolve_ok warn_at w Hw)|pure_].
  - by apply (resume_reconcile_ok warn_at w Hw).
  - by apply (drop_claimed_ok w Hw).
  - by apply (resume_configure_ok warn_at w Hw).
  - by apply (drop_claimed_ok w Hw).
  - pure_.
  - apply effect_continue; [done|by intros ? ? [= <- <-]|by destruct (ec_prune c)|by destruct (ec_prune c)|].
    by destruct (ec_lease c).
  - apply effect_continue; try done. by intros ? ? [= <- <-].
  - by apply (resume_settle_ok w Hw c res k late).
  - by apply (resume_cancel_ok w Hw).
  - by apply (resume_reset_begin_ok w Hw ctx force late).
  - apply effect_continue; try done. by intros ? ? [= <- <-].
  - apply effect_continue; try done. by intros ? ? [= <- <-].
  - apply (reset_tail_ok w Hw); auto.
  - pose proof Hc as (h & El & _)%live_claim_inv. by eapply effect_remove.
  - by apply (resume_summarize_ok w Hw).
  - by apply (drop_claimed_ok w Hw).
  - apply effect_continue; try done. by intros ? ? [= <- <-].
  - apply (reset_tail_ok w Hw); auto.
  - by apply (drop_claimed_ok w Hw).
  - pure_.
  - destruct (reap_commit idle_ttl now expired w) as [cs w'] eqn:E. by eapply reap_commit_ok.
Qed.

(** ** The system *)
Lemma inv_world s w :
  same_slots (s_world s) w -> inv s -> inv (set_world w s).
Proof.
  intros Hs [Sl Fl Fr Cl Pe Un Nd Dj Ow]. split; try done; simpl; intros.
  - rewrite Hs. apply Sl.
  - rewrite Hs. by eapply Cl.
  - rewrite Hs. by apply Pe.
  - rewrite Hs in *. by apply Ow.
Qed.

(** A thread without a claim appears, or moves on without one. *)
Lemma inv_insert_pure s fid th n ho r d :
  inv s -> flight_claim (th_flight th) = None -> flight_ok (th_flight th) ->
  (forall th0, s_threads s !! fid = Some th0 -> flight_claim (th_flight th0) = None) ->
  (fid < n)%N -> (s_next s <= n)%N ->
  d = s_dropped s ->
  inv (mkSys (s_world s) (<[fid := th]> (s_threads s)) n ho r d).
Proof.
  intros [Sl Fl Fr Cl Pe Un Nd Dj Ow] Hc Hf Hold Hlt Hn ->. split; simpl; try done.
  - intros f t. destruct (decide (f = fid)) as [->|]; intros ?; simplify_map_eq; eauto.
  - intros f. destruct (decide (f = fid)) as [->|]; [done|].
    rewrite lookup_insert_ne by done. intros ?%Fr. lia.
  - intros f c k. rewrite claims_insert. intros [[-> E]|[_ E]]; [congruence|by eapply Cl].
  - intros f1 f2 c k1 k2. rewrite !claims_insert.
    intros [[-> E1]|[N1 E1]] [[-> E2]|[N2 E2]]; try congruence. by eapply Un.
  - intros f c k. rewrite claims_insert. intros [[-> E]|[_ E]]; [congruence|by eapply Dj].
  - intros c k Hk. destruct (Ow c k Hk) as [[f Hfc]|Hin]; [|by right]. left. exists f.
    rewrite claims_insert. right. split; [|done]. intros ->. destruct Hfc as (t & Ht & Htc).
    apply Hold in Ht. congruence.
Qed.

(** A flight goes on without its caller and keeps its claim. *)
Lemma inv_detach s fid th0 th ho :
  inv s -> s_threads s !! fid = Some th0 ->
  flight_claim (th_flight th) = flight_claim (th_flight th0) -> flight_ok (th_flight th) ->
  inv (mkSys (s_world s) (<[fid := th]> (s_threads s)) (s_next s) ho (s_replies s) (s_dropped s)).
Proof.
  intros [Sl Fl Fr Cl Pe Un Nd Dj Ow] Ht Hc Hf.
  assert (Hcl : forall f c k,
    claims (mkSys (s_world s) (<[fid := th]> (s_threads s)) (s_next s) ho (s_replies s) (s_dropped s)) f c k
    <-> claims s f c k).
  { intros f c k. rewrite claims_insert, Hc. split.
    - intros [[-> E]|[_ E]]; [by exists th0|exact E].
    - intros (t & E & Ek). destruct (decide (f = fid)) as [->|]; [left; by simplify_eq|right; by eauto]. }
  split; simpl; try done.
  - intros f t. destruct (decide (f = fid)) as [->|]; intros ?; simplify_map_eq; eauto.
  - intros f. destruct (decide (f = fid)) as [->|]; [intros _; apply Fr; by eexists|].
    rewrite lookup_insert_ne by done. apply Fr.
  - intros f c k. rewrite Hcl. apply Cl.
  - intros f1 f2 c k1 k2. rewrite !Hcl. apply Un.
  - intros f c k. rewrite Hcl. apply Dj.
  - intros c k Hk. destruct (Ow c k Hk) as [[f E]|]; [|by right]. left. exists f. by rewrite Hcl.
Qed.

Lemma stranded_app w ths n ho r d f :
  stranded (mkSys w ths n ho r (d ++ [f])) = omap flight_claim d ++ option_list (flight_claim f).
Proof. unfold stranded; simpl. by rewrite omap_app. Qed.

(** A future is dropped where it stands: its claim is stranded. *)
Lemma inv_strand s fid th ho :
  inv s -> s_threads s !! fid = Some th ->
  inv (mkSys (s_world s) (delete fid (s_threads s)) (s_next s) ho (s_replies s)
         (s_dropped s ++ [th_flight th])).
Proof.
  intros [Sl Fl Fr Cl Pe Un Nd Dj Ow] Ht. unfold inv. rewrite stranded_app.
  set (own := option_list (flight_claim (th_flight th))).
  assert (Hown : forall c k, (c, k) ∈ own <-> claims s fid c k).
  { intros c k. unfold own, claims. split.
    - intros Hin. exists th. split; [done|]. destruct (flight_claim _); simpl in Hin; [|set_solver].
      apply list_elem_of_singleton in Hin. by rewrite Hin.
    - intros (t & E & Ek). simplify_eq. rewrite Ek. simpl. by left. }
  assert (Hown1 : forall c, c ∈ own.*1 -> exists k, claims s fid c k).
  { intros c ([c' k] & -> & Hin%Hown)%list_elem_of_fmap. eauto. }
  split; simpl; try done.
  - intros f t [_ E]%lookup_delete_Some. eauto.
  - intros f [t [_ E]%lookup_delete_Some]. apply Fr. by eexists.
  - intros f c k. rewrite claims_delete. intros [_ E]. by eapply Cl.
  - intros c k [Hin|Hin%Hown]%elem_of_app; [by apply Pe|by eapply Cl].
  - intros f1 f2 c k1 k2. rewrite !claims_delete. intros [_ E1] [_ E2]. by eapply Un.
  - rewrite fmap_app. apply NoDup_app. split_and!; [done| |].
    + intros c Hin (k & Hk)%Hown1. by eapply Dj.
    + unfold own. destruct (flight_claim _); simpl; [apply NoDup_singleton|constructor].
  - intros f c k. rewrite claims_delete, fmap_app, elem_of_app. intros [Hne E] [Hin|(k' & Hk')%Hown1].
    + by eapply Dj.
    + apply Hne. by eapply Un.
  - intros c k Hk. destruct (Ow c k Hk) as [[f E]|Hin]; [|right; apply elem_of_app; by left].
    destruct (decide (f = fid)) as [->|]; [right; apply elem_of_app; right; by apply Hown|].
    left. exists f. by rewrite claims_delete.
Qed.

Lemma detach_ok f f' : detach f = Some f' -> flight_ok f -> flight_claim f' = flight_claim f /\ flight_ok f'.
Proof. destruct f; try done; [destruct q; try done|..]; by intros [= <-]. Qed.

Lemma inv_step s e : inv s -> inv (step warn_at idle_ttl s e).
Proof.
  intros Hi. pose proof (ip_slots _ _ Hi) as Hw. destruct e as [op|fid o|fid|t|l|a en|d]; simpl.
  - apply inv_insert_pure; try done; [by destruct op as [| []|]..| |lia|lia].
    intros th0 Ht. assert (s_next s < s_next s)%N by (by eapply (ip_fresh _ _ Hi)). lia.
  - destruct (s_threads s !! fid) as [th|] eqn:Et; [|done].
    destruct (_ && _) eqn:Eb; [done|].
    assert (He : effect_ok (flight_claim (th_flight th)) (s_world s)
                   (resume warn_at idle_ttl (s_world s) (th_flight th) o)).
    { apply resume_ok; [done|by eapply (ip_flights _ _ Hi)|].
      intros c k Hk. eapply (ip_claims _ _ Hi). by exists th. }
    destruct (th_flight th) eqn:Ef; try (eapply inv_commit; [done|exact Et|rewrite Ef; exact He]).
    destruct (th_frame th); try done. destruct o; try done.
    destruct (enter _ _) as [f fr] eqn:En.
    apply inv_insert_pure; try done; simpl.
    + destruct op; simpl in En; by simplify_eq.
    + destruct op; simpl in En; by simplify_eq.
    + intros th0 Ht. simplify_eq. by rewrite Ef.
    + by eapply (ip_fresh _ _ Hi).
  - destruct (s_threads s !! fid) as [th|] eqn:Et; [|done]. unfold drop_thread.
    apply (inv_world _ (drop_guards (th_flight th) (s_world s))) in Hi; [|intros c; by destruct (th_flight th)].
    destruct (detach (th_flight th)) as [f'|] eqn:Ed.
    + destruct (detach_ok _ _ Ed) as [Hc Hf]; [by eapply (ip_flights _ _ Hi)|].
      by eapply (inv_detach _ fid th (mkThread f' FrDetached) _ Hi).
    + by apply (inv_strand _ fid th _ Hi).
  - apply inv_world; [|done]. intros c. unfold arm_intent. by destruct (intent _ _).
  - by apply inv_world.
  - by apply inv_world.
  - by apply inv_world.
Qed.

Lemma inv_initial s : initial s -> inv s.
Proof.
  intros (E1 & E2 & E3 & _ & _ & _ & _ & _ & _ & _ & Et & _ & _ & _ & Ed).
  assert (Hn : forall fid c k, ~ claims s fid c k).
  { intros fid c k (th & Hl & _). rewrite Et in Hl. by rewrite lookup_empty in Hl. }
  unfold inv, stranded. rewrite Ed. split.
  - intros c. unfold slot_ok, slot. by rewrite E1, E2, E3, !lookup_empty.
  - intros fid th Hl. by rewrite Et, lookup_empty in Hl.
  - intros fid [th Hl]. by rewrite Et, lookup_empty in Hl.
  - intros fid c k Hc. by apply Hn in Hc.
  - intros c k E. by apply elem_of_nil in E.
  - intros f1 f2 c k1 k2 Hc. by apply Hn in Hc.
  - constructor.
  - intros f c k Hc. by apply Hn in Hc.
  - intros c k. unfold slot_claim, slot. by rewrite E1, E2, E3, !lookup_empty.
Qed.

(** Every state the system reaches is well formed and consistently owned. *)
Lemma inv_reachable s : reachable (step warn_at idle_ttl) initial s -> inv s.
Proof. apply reachable_invariant; [apply inv_initial|]. intros; by apply inv_step. Qed.
End Sweeps.
