(* ===== verification/SessionSections.v ===== *)
(** * Warm sessions: behaviour of single critical sections

    What one critical section does to the context it is called on: successor
    admission against an armed expiry intent, stale completions, the abort
    tokens of released sessions, cleanup retries, the sweeps. *)
From S2P Require Import Prelude Domain SessionCwd SessionTypes SessionOps SessionGoverned SessionSystem SessionInvariant SessionEffects.
Open Scope Z_scope.
Open Scope bridge_scope.

(** ** Intents *)
Lemma reserve_aborts_armed l w t :
  t ∈ l -> intent w (ta_token t) = IntentArmed -> exists op w', reserve_aborts l w = (Some op, w').
Proof.
  revert w. induction l as [|t' l IH]; intros w Hin Ha; [by apply elem_of_nil in Hin|]. simpl.
  unfold reserve_successor. destruct (intent w (ta_token t')) eqn:Et; [|by eauto|].
  all: apply elem_of_cons in Hin as [->|Hin]; [congruence|]; apply IH; try done.
  unfold intent in *. simpl. destruct (decide (ta_token t' = ta_token t)) as [E|E].
  - rewrite E in Et. congruence.
  - by rewrite lookup_insert_ne.
Qed.

Lemma reserve_aborts_keeps l w o w' tk :
  reserve_aborts l w = (o, w') ->
  intent w tk = IntentSuccessorReserved -> intent w' tk = IntentSuccessorReserved.
Proof.
  revert w. induction l as [|t' l IH]; intros w; simpl; [by intros [= _ <-]|].
  unfold reserve_successor. destruct (intent w (ta_token t')) eqn:Et; intros E Ha; simplify_eq/=; try done.
  - eapply IH; [exact E|]. unfold intent. simpl.
    destruct (decide (ta_token t' = tk)) as [->|Hne]; [by rewrite lookup_insert_eq|by rewrite lookup_insert_ne].
  - by eapply IH.
Qed.

Lemma reserve_aborts_reserved l w w' t :
  reserve_aborts l w = (None, w') -> t ∈ l -> intent w' (ta_token t) = IntentSuccessorReserved.
Proof.
  revert w. induction l as [|t' l IH]; intros w; simpl; [by intros _ Hin%elem_of_nil|].
  unfold reserve_successor. destruct (intent w (ta_token t')) eqn:Et; intros E Hin; simplify_eq/=.
  all: apply elem_of_cons in Hin as [->|Hin]; [|by eapply IH].
  - eapply reserve_aborts_keeps; [exact E|]. unfold intent. simpl. by rewrite lookup_insert_eq.
  - by eapply reserve_aborts_keeps.
Qed.

Lemma reserve_aborts_tables l w o w' :
  reserve_aborts l w = (o, w') ->
  w_live w' = w_live w /\ w_tombstones w' = w_tombstones w /\ w_retries w' = w_retries w
  /\ w_retired w' = w_retired w /\ w_cancelled w' = w_cancelled w.
Proof.
  revert w. induction l as [|t l IH]; intros w; simpl; [by intros [= _ <-]|].
  unfold reserve_successor. destruct (intent w (ta_token t)); intros E; simplify_eq/=; try done;
    by apply IH in E.
Qed.

Lemma fire_tokens_cancelled l w t : t ∈ l -> is_cancelled (fire_tokens l w) (ta_token t) = true.
Proof.
  intros Hin. unfold is_cancelled, fire_tokens. simpl. apply bool_decide_eq_true_2.
  apply elem_of_union_l, elem_of_list_to_set, list_elem_of_fmap. eauto.
Qed.

Lemma expire_handle_facts ctx h op prune w c w' :
  expire_handle ctx h op prune w = (c, w') ->
  w_live w' = delete ctx (w_live w)
  /\ w_tombstones w' = <[ctx := mkTombstone (h_generation h) op (w_cleanup_claim_seq w) TExpiring]>
                         (w_tombstones w)
  /\ c = mkClaim ctx (h_generation h) op (w_cleanup_claim_seq w) prune (Some (h_lease h))
           (mkRetry (h_backend h) (h_session h))
  /\ (forall t, t ∈ h_turn_aborts h -> is_cancelled w' (ta_token t) = true).
Proof.
  intros [= <- <-]. split_and!; try done. intros t Ht. by apply (fire_tokens_cancelled _ _ t).
Qed.

Section Sections.
Context `{F64} (warn_at : option N).

(** An armed expiry intent bars the successor: a checkout of an idle
    handle on which any retained turn has armed its intent returns
    [SessionExpired], replaces the handle by an expiring tombstone, hands
    its backend session to exactly one cleanup claim and cancels every
    retained abort token. *)
Theorem armed_intent_bars_successor ctx w h t :
  w_live w !! ctx = Some h -> w_tombstones w !! ctx = None -> is_retired w h = false ->
  h_state h = Idle -> t ∈ h_turn_aborts h -> intent w (ta_token t) = IntentArmed ->
  exists c w', checkout_existing_turn warn_at ctx w = (Err SessionExpired, Some c, w')
    /\ w_live w' !! ctx = None
    /\ w_tombstones w' !! ctx = Some (mkTombstone (h_generation h) (ec_op c) (ec_claim_id c) TExpiring)
    /\ ec_retry c = mkRetry (h_backend h) (h_session h) /\ ec_lease c = Some (h_lease h)
    /\ (forall t', t' ∈ h_turn_aborts h -> is_cancelled w' (ta_token t') = true).
Proof.
  intros Hl Ht Hr Hi Hin Ha. unfold checkout_existing_turn, reserve_idle_successor_or_armed, take_expiry_claim.
  rewrite Ht, Hl, Hr, Hi, !bool_decide_eq_false_2 by (by intros []).
  destruct (reserve_aborts_armed _ _ _ Hin Ha) as (op & w1 & ->).
  destruct (expire_handle ctx h op true w1) as [c w'] eqn:Ex.
  destruct (expire_handle_facts _ _ _ _ _ _ _ Ex) as (El & Et & Ec & Hc).
  exists c, w'. rewrite El, Et, Ec. split_and!; try done.
  - apply lookup_delete_eq.
  - apply lookup_insert_eq.
Qed.

(** A successor turn is linearised against late failures: once a checkout
    of an idle handle succeeds, every retained intent is reserved, so a
    failure observed later cannot expire the new turn. *)
Theorem successor_ignores_late_arm ctx w turn c w' h t :
  checkout_existing_turn warn_at ctx w = (Ok turn, c, w') ->
  w_live w !! ctx = Some h -> t ∈ h_turn_aborts h ->
  arm_intent (ta_token t) w' = w' /\ intent_armed w' (ta_token t) = false.
Proof.
  unfold checkout_existing_turn, reserve_idle_successor_or_armed. intros E Hl Hin.
  rewrite Hl in E. destruct (bool_decide (is_Some _)); [discriminate|]. destruct (is_retired w h); [discriminate|].
  destruct (bool_decide (h_state h <> Idle)); [discriminate|].
  destruct (reserve_aborts (h_turn_aborts h) w) as [[op|] w1] eqn:Er; [by destruct (take_expiry_claim _ _ _ _)|].
  pose proof (reserve_aborts_reserved _ _ _ _ Er Hin) as Hres. unfold start_turn in E. simpl in E.
  injection E as _ _ <-. unfold arm_intent, intent_armed, intent in *. simpl. rewrite Hres. done.
Qed.

(** A turn takes the queued work exactly once: the turn carries the
    pending seed and the injects of the handle, and the handle that stays
    in the table has neither. *)
Theorem turn_takes_pending_work ctx w turn c w' h :
  checkout_existing_turn warn_at ctx w = (Ok turn, c, w') -> w_live w !! ctx = Some h ->
  wt_seed turn = h_pending_seed h /\ wt_injects turn = h_pending_injects h
  /\ wt_session turn = h_session h /\ wt_generation turn = h_generation h
  /\ exists h', w_live w' !! ctx = Some h' /\ h_state h' = Running /\ h_op h' = Some (wt_op turn)
                /\ h_pending_seed h' = None /\ h_pending_injects h' = []
                /\ mkTurnAbort (wt_op turn) (wt_token turn) ∈ h_turn_aborts h'.
Proof.
  unfold checkout_existing_turn, reserve_idle_successor_or_armed. intros E Hl.
  rewrite Hl in E. destruct (bool_decide (is_Some _)); [discriminate|]. destruct (is_retired w h); [discriminate|].
  destruct (bool_decide (h_state h <> Idle)); [discriminate|].
  destruct (reserve_aborts (h_turn_aborts h) w) as [[op|] w1] eqn:Er; [by destruct (take_expiry_claim _ _ _ _)|].
  unfold start_turn in E. simpl in E. injection E as <- _ <-. simpl. split_and!; try done.
  eexists. split; [apply lookup_insert_eq|]. simpl. split_and!; try done.
  apply elem_of_app. right. by left.
Qed.

(** A stale completion changes nothing that belongs to another turn: when
    the generation or the operation is not the current one, finishing keeps
    the handle's state, operation, session, generation, usage, queues and
    expiry mark, starts no cleanup and leaves every other context alone. *)
Theorem stale_finish_is_inert ctx gen op w h :
  w_live w !! ctx = Some h -> h_generation h <> gen \/ h_op h <> Some op ->
  exists h', finish_owned_turn ctx gen op w = (None, put_live ctx h' w)
    /\ h' = set_h_turn_aborts (h_turn_aborts h') h
    /\ (h_generation h <> gen -> h' = h)
    /\ (forall t, t ∈ h_turn_aborts h' <-> t ∈ h_turn_aborts h /\ (h_generation h = gen -> ta_op t <> op)).
Proof.
  intros Hl Hs. unfold finish_owned_turn. rewrite Hl.
  assert (Eb : bool_decide (h_generation h = gen) && bool_decide (h_op h = Some op) = false).
  { destruct Hs; [rewrite bool_decide_eq_false_2 by done; done|].
    rewrite (bool_decide_eq_false_2 (h_op h = Some op)) by done. apply andb_false_r. }
  rewrite Eb. cbn [andb]. case_bool_decide as Eg.
  - exists (set_h_turn_aborts (filter (fun a => ta_op a <> op) (h_turn_aborts h)) h).
    assert (Hop : h_op h <> Some op) by (destruct Hs; [done|done]).
    simpl. rewrite (bool_decide_eq_false_2 (h_op h = Some op)) by done.
    rewrite andb_false_r. simpl. split_and!; try done; try by destruct h.
    intros t. rewrite list_elem_of_filter. naive_solver.
  - exists h. rewrite (bool_decide_eq_false_2 (h_generation h = gen)) by done.
    rewrite andb_false_r. simpl. split_and!; try done; [by destruct h|naive_solver].
Qed.

(** Every path that releases a backend session under the expiry protocol
    fires all of the handle's abort tokens in the same critical section, so
    a producer that has not polled yet aborts instead of re-minting the
    released session. *)
Theorem release_paths_fire_tokens ctx w h t :
  w_live w !! ctx = Some h -> w_tombstones w !! ctx = None -> t ∈ h_turn_aborts h ->
  (forall prune c w', claim_release ctx prune w = (Some c, w') -> is_cancelled w' (ta_token t) = true)
  /\ (forall gen op c w', begin_expire_current ctx gen op w = (Some c, w') -> is_cancelled w' (ta_token t) = true)
  /\ (forall gen op c w', finish_owned_turn ctx gen op w = (Some c, w') -> is_cancelled w' (ta_token t) = true)
  /\ (forall force p w', reset_claim ctx force w = (inr p, w') -> is_cancelled w' (ta_token t) = true)
  /\ (forall hid cid fb prune r c w',
        settle_cancel ctx hid cid fb prune r w = (CnExpired c, w') -> is_cancelled w' (ta_token t) = true)
  /\ (forall hid fp r b w',
        settle_reconcile warn_at ctx hid fp r w = (RSExpire b, w') -> is_cancelled w' (ta_token t) = true)
  /\ (forall ttl now c w', reap_one ttl now ctx w = (Some c, w') -> is_cancelled w' (ta_token t) = true).
Proof.
  intros Hl Ht Hin.
  assert (Hx : forall op prune w1 c w', expire_handle ctx h op prune w1 = (c, w') ->
                 is_cancelled w' (ta_token t) = true).
  { intros op prune w1 c w' Ex. by apply (expire_handle_facts _ _ _ _ _ _ _ Ex). }
  split_and!.
  - intros prune c w'. unfold claim_release. rewrite Ht, Hl.
    destruct (h_governed h); [done|]. destruct (is_claimed _); [done|].
    destruct (h_op h); [|cbn [mint_turn_op]]; destruct (expire_handle _ _ _ _ _) eqn:Ex;
      intros [= <- <-]; eauto.
  - intros gen op c w'. unfold begin_expire_current. rewrite Ht, Hl. destruct (bool_decide (is_Some _)); [done|].
    destruct (negb _); [done|]. match goal with |- context [match ?m with Some g => _ | None => _ end] => destruct m end; [done|].
    destruct (_ && _); [done|]. destruct (_ || _); [|done].
    destruct (take_expiry_claim ctx h op w) eqn:Ex. intros [= <- <-]. by eapply Hx.
  - intros gen op c w'. unfold finish_owned_turn. rewrite Hl. destruct (_ && h_expire h); [|done].
    destruct (take_expiry_claim ctx h op w) eqn:Ex. intros [= <- <-]. by eapply Hx.
  - intros force p w'. unfold reset_claim. rewrite Hl. destruct (h_governed h); [by destruct force|].
    destruct (h_state h), force; try done; destruct (reset_plan ctx h); try done;
      intros [= _ <-]; by apply (fire_tokens_cancelled _ _ t).
  - intros hid cid fb prune r c w'. unfold settle_cancel, still_ours. rewrite Hl.
    destruct (bool_decide (h_id h = hid) && _); [|done]. destruct (_ && _); [done|].
    destruct (expire_with _ _ _ _ _ _) as [c1 w1] eqn:Ex. intros [= <- <-].
    injection Ex as _ <-. by apply (fire_tokens_cancelled _ _ t).
  - intros hid fp r b w'. unfold settle_reconcile, still_ours. rewrite Hl.
    destruct (bool_decide (h_id h = hid) && _); [|done].
    match goal with |- context [if ?x then _ else _] => destruct x end; [done|].
    intros [= _ <-]. by apply (fire_tokens_cancelled _ _ t).
  - intros ttl now c w'. unfold reap_one. rewrite Hl. destruct (reapable ttl now h); [|done].
    destruct (h_op h); [|cbn [mint_turn_op]]; destruct (expire_handle _ _ _ _ _) eqn:Ex;
      intros [= <- <-]; eauto.
Qed.

(** A failed cleanup stays retryable: the retained capability is handed
    back to the next release as a fresh claim with a number no other claim
    has used, on the same backend session, and success then frees the
    context while a stale claim can no longer settle it. *)
Theorem cleanup_failure_is_retryable ctx w t code r :
  w_tombstones w !! ctx = Some t -> tb_state t = TCleanupFailed code -> w_retries w !! ctx = Some r ->
  (tb_claim_id t < w_cleanup_claim_seq w)%N ->
  exists c w1, claim_release ctx false w = (Some c, w1)
    /\ ec_retry c = r /\ ec_claim_id c = w_cleanup_claim_seq w
    /\ w_retries w1 !! ctx = None
    /\ (forall res stale, ec_ctx stale = ctx -> (ec_claim_id stale <= tb_claim_id t)%N ->
          settle_cleanup stale res w1 = w1)
    /\ (forall d, let w2 := settle_cleanup c (Ok d) w1 in
          w_tombstones w2 !! ctx = None /\ w_retries w2 !! ctx = None)
    /\ (forall e, let w2 := settle_cleanup c (Err e) w1 in
          w_retries w2 !! ctx = Some r
          /\ exists t2, w_tombstones w2 !! ctx = Some t2 /\ tb_generation t2 = tb_generation t
                        /\ exists code2, tb_state t2 = TCleanupFailed code2).
Proof.
  intros Ht Hs Hr Hlt. unfold claim_release. rewrite Ht, Hs, Hr. simpl.
  eexists _, _. split; [reflexivity|]. simpl. split_and!; try done.
  - apply lookup_delete_eq.
  - intros res stale Ec Hle. unfold settle_cleanup. simpl. rewrite Ec, lookup_insert_eq. simpl.
    rewrite (bool_decide_eq_false_2 (w_cleanup_claim_seq w = ec_claim_id stale)) by lia.
    by rewrite andb_false_r.
  - intros d. unfold settle_cleanup. simpl. rewrite lookup_insert_eq. simpl.
    rewrite !bool_decide_eq_true_2 by done. simpl. by rewrite !lookup_delete_eq.
  - intros e. unfold settle_cleanup. simpl. rewrite lookup_insert_eq. simpl.
    rewrite !bool_decide_eq_true_2 by done. simpl. rewrite !lookup_insert_eq.
    split; [done|]. eexists. split_and!; [reflexivity|done|by eexists].
Qed.

(** ** Sweeps *)
Lemma expire_handle_live ctx h op prune w c w' :
  expire_handle ctx h op prune w = (c, w') ->
  w_live w' = delete ctx (w_live w) /\ w_cancelled w ⊆ w_cancelled w' /\ ec_ctx c = ctx.
Proof. intros [= <- <-]. simpl. split_and!; try done. set_solver. Qed.

(** A context that a release has dealt with: gone, or marked for its owner. *)
Definition swept (w : World) (c : ContextId) : Prop :=
  match w_live w !! c with
  | None => True
  | Some h => h_expire h = true
              /\ (is_claimed (h_state h) = true
                  \/ exists g, h_governed h = Some g /\ is_cancelled w (go_abort g) = true)
  end.

Lemma claim_release_effect ctx prune w c w' :
  slots_ok w -> claim_release ctx prune w = (c, w') ->
  swept w' ctx /\ w_cancelled w ⊆ w_cancelled w'
  /\ (forall x, x <> ctx -> w_live w' !! x = w_live w !! x).
Proof.
  intros Hw. unfold claim_release, swept. destruct (w_tombstones w !! ctx) as [t|] eqn:Et.
  - destruct (tomb_inv _ _ _ Hw Et) as [El _].
    destruct (tb_state t); [|destruct (w_retries w !! ctx)]; intros [= <- <-]; simpl; by rewrite El.
  - destruct (w_live w !! ctx) as [h|] eqn:El; [|intros [= <- <-]; by rewrite El].
    destruct (h_governed h) as [g|] eqn:Eg.
    { intros [= <- <-]. simpl. rewrite lookup_insert_eq. simpl. split_and!; try done.
      - right. exists g. split; [done|]. unfold is_cancelled. simpl. apply bool_decide_eq_true_2. set_solver.
      - set_solver.
      - intros x Hx. by rewrite lookup_insert_ne. }
    destruct (is_claimed (h_state h)) eqn:Ec.
    { intros [= <- <-]. simpl. rewrite lookup_insert_eq. simpl. split_and!; try done; [by left|].
      intros x Hx. by rewrite lookup_insert_ne. }
    assert (Hx : forall op w1 c1 w2, w_live w1 = w_live w -> w_cancelled w1 = w_cancelled w ->
      expire_handle ctx h op prune w1 = (c1, w2) ->
      swept w2 ctx /\ w_cancelled w ⊆ w_cancelled w2 /\ (forall x, x <> ctx -> w_live w2 !! x = w_live w !! x)).
    { intros op w1 c1 w2 E1 E2 Ex. destruct (expire_handle_live _ _ _ _ _ _ _ Ex) as (E3 & E4 & _).
      unfold swept. rewrite E3, E1, lookup_delete_eq. split_and!; try done; [by rewrite <- E2|].
      intros x Hx. by rewrite lookup_delete_ne. }
    destruct (h_op h); [|cbn [mint_turn_op]]; destruct (expire_handle _ _ _ _ _) as [c1 w1] eqn:Ex;
      intros [= <- <-]; by eapply Hx in Ex.
Qed.

Lemma swept_mono w w' c :
  swept w c -> w_live w' !! c = w_live w !! c -> w_cancelled w ⊆ w_cancelled w' -> swept w' c.
Proof.
  unfold swept. intros Hs -> Hc. destruct (w_live w !! c) as [h|]; [|done].
  destruct Hs as [He [Hcl|(g & Hg & Ht)]]; split; auto. right. exists g. split; [done|].
  unfold is_cancelled in *. apply bool_decide_eq_true_2. apply bool_decide_eq_true_1 in Ht. set_solver.
Qed.

Lemma claim_release_all_swept ctxs w cs w' :
  slots_ok w -> claim_release_all ctxs w = (cs, w') ->
  (forall c, c ∈ ctxs -> swept w' c) /\ (forall c, swept w c -> swept w' c).
Proof.
  revert w cs w'. induction ctxs as [|x ctxs IH]; intros w cs w' Hw; simpl.
  - intros [= <- <-]. split; [|done]. intros c Hc. by apply elem_of_nil in Hc.
  - destruct (claim_release x false w) as [o w1] eqn:E1.
    destruct (claim_release_all ctxs w1) as [cs2 w2] eqn:E2. intros [= <- <-].
    pose proof (claim_release_sweep _ _ _ _ _ Hw E1) as Hs1%sweep_slots.
    destruct (claim_release_effect _ _ _ _ _ Hw E1) as (Hx & Hc & Hl).
    destruct (IH _ _ _ Hs1 E2) as [IH1 IH2]. split.
    + intros c [->|Hin]%elem_of_cons; auto.
    + intros c Hsc. apply IH2. destruct (decide (c = x)) as [->|]; [done|]. eapply swept_mono; eauto.
Qed.

(** Releasing a context with its children leaves none of them usable: the
    parent and every child registered at that moment is gone from the live
    table, or belongs to another owner and is marked to expire when that
    owner settles (with its token cancelled if it is a governed turn); and
    the registration itself is gone. *)
Theorem release_with_children_sweeps ctx w cs w' c :
  slots_ok w -> release_with_children ctx w = (cs, w') ->
  c = ctx \/ c ∈ default ∅ (w_children w !! ctx) ->
  swept w' c /\ w_children w' !! ctx = None.
Proof.
  intros Hw. unfold release_with_children.
  destruct (claim_release_all _ w) as [cs1 w1] eqn:E. intros [= <- <-] Hc.
  split; [|apply lookup_delete_eq].
  change (swept w1 c). apply (proj1 (claim_release_all_swept _ _ _ _ Hw E)).
  rewrite elem_of_cons, elem_of_elements. done.
Qed.

Lemma reap_one_frame ttl now ctx w c w' x :
  reap_one ttl now ctx w = (c, w') -> x <> ctx -> w_live w' !! x = w_live w !! x.
Proof.
  unfold reap_one. destruct (w_live w !! ctx) as [h|]; [|by intros [= <- <-]].
  destruct (reapable ttl now h); [|by intros [= <- <-]].
  destruct (h_op h); [|cbn [mint_turn_op]]; destruct (expire_handle _ _ _ _ _) as [c1 w1] eqn:Ex;
    intros [= <- <-] Hx; apply expire_handle_live in Ex as (E3 & _); rewrite E3; by rewrite lookup_delete_ne.
Qed.

Lemma reap_one_hit ttl now ctx w c w' h :
  reap_one ttl now ctx w = (c, w') -> w_live w !! ctx = Some h ->
  (reapable ttl now h = true -> w_live w' !! ctx = None /\ exists c1, c = Some c1 /\ ec_ctx c1 = ctx)
  /\ (reapable ttl now h = false -> w' = w).
Proof.
  unfold reap_one. intros E Hl. rewrite Hl in E. destruct (reapable ttl now h); split; try done.
  - intros _. destruct (h_op h); [|cbn [mint_turn_op] in E];
      destruct (expire_handle _ _ _ _ _) as [c1 w1] eqn:Ex; simplify_eq;
      apply expire_handle_live in Ex as (E3 & _ & E4); rewrite E3, lookup_delete_eq; eauto.
  - by simplify_eq.
Qed.

(** The reaper takes exactly the idle sessions past their time to live:
    among the contexts of its snapshot it revalidates each handle under the
    lock, hands an expired idle one to a cleanup claim, and leaves every
    other handle in the table untouched (in particular one that was claimed
    after the snapshot). *)
Theorem reap_takes_only_expired_idle ttl now ctxs w cs w' c h :
  reap_commit ttl now ctxs w = (cs, w') -> w_live w !! c = Some h ->
  (reapable ttl now h = true -> c ∈ ctxs ->
     w_live w' !! c = None /\ exists cl, cl ∈ cs /\ ec_ctx cl = c)
  /\ (reapable ttl now h = false \/ c ∉ ctxs -> w_live w' !! c = Some h).
Proof.
  unfold reap_commit. destruct (reap_all ttl now ctxs w) as [cs1 w1] eqn:E. intros [= <- <-].
  assert (Hch : w_live (if bool_decide (cs1 = []) then w1 else prune_children (ec_ctx <$> cs1) w1) = w_live w1)
    by (by case_bool_decide). rewrite Hch. clear Hch.
  assert (Hgone : forall ctxs w cs w' c, reap_all ttl now ctxs w = (cs, w') ->
            w_live w !! c = None -> w_live w' !! c = None).
  { clear. induction ctxs as [|x ctxs IH]; intros w cs w' c; simpl; [by intros [= <- <-]|].
    destruct (reap_one ttl now x w) as [o w1] eqn:E1.
    destruct (reap_all ttl now ctxs w1) as [cs2 w2] eqn:E2. intros [= <- <-] Hn.
    eapply IH; [exact E2|]. destruct (decide (c = x)) as [->|Hx].
    - unfold reap_one in E1. rewrite Hn in E1. by simplify_eq.
    - by rewrite (reap_one_frame _ _ _ _ _ _ _ E1 Hx). }
  revert w cs1 w1 E. induction ctxs as [|x ctxs IH]; intros w cs1 w1; simpl.
  { intros [= <- <-] Hl. split; [|done]. intros _ Hc. by apply elem_of_nil in Hc. }
  destruct (reap_one ttl now x w) as [o w2] eqn:E1.
  destruct (reap_all ttl now ctxs w2) as [cs2 w3] eqn:E2. intros [= <- <-] Hl.
  destruct (decide (c = x)) as [->|Hx].
  - destruct (reap_one_hit _ _ _ _ _ _ _ E1 Hl) as [Hy Hn]. split.
    + intros Hr _. destruct (Hy Hr) as (Hg & c1 & -> & Hc1). split; [by eapply Hgone|].
      exists c1. split; [by left|done].
    + intros [Hr|Hni]; [|by destruct Hni; left]. rewrite (Hn Hr) in E2.
      apply (IH _ _ _ E2 Hl). by left.
  - rewrite <- (reap_one_frame _ _ _ _ _ _ _ E1 Hx) in Hl.
    destruct (IH _ _ _ E2 Hl) as [IH1 IH2]. split.
    + intros Hr [->|Hin]%elem_of_cons; [done|]. destruct (IH1 Hr Hin) as (Hg & cl & Hcl & Ec).
      split; [done|]. exists cl. split; [|done]. apply elem_of_app. by right.
    + intros [Hr|Hni]; apply IH2; [by left|right]. intros Hin. apply Hni. by right.
Qed.
End Sections.
