(* ===== verification/SessionLock.v ===== *)
(** * Warm sessions: the [children] mutex and progress

    [checkout_child_turn], [cancel_with_children] and [clear_with_children]
    hold the [children] mutex across the awaits of the operations they run;
    cleanup flights, prunes, the reaper and the releasing sweep want the same
    mutex. Here: the holder is unique and never waits for the mutex itself,
    and every operation ends after a bounded number of resumptions. *)
From S2P Require Import Prelude Domain SessionCwd SessionTypes SessionOps SessionGoverned SessionSystem SessionInvariant SessionEffects.
Open Scope Z_scope.
Open Scope bridge_scope.

(** The points an operation visits when it runs under the mutex: none of them
    prunes, because [prune_children] is [false] there. *)
Definition child_flight (f : Flight) : bool :=
  match f with
  | FStart (QCheckout _ _ _ _) | FStart (QExpireRetiredChild _) | FStart (QReset _ _) => true
  | FStart (QCancel _ _ prune) | FCancel _ _ _ _ _ prune => negb prune
  | FCleanup c _ | FSettle c _ _ => negb (ec_prune c)
  | FResolve _ _ _ _ _ | FReconcile _ _ _ _ _ | FReconcileRelease _ _ _ _ _ | FConfigure _ _ _ _
  | FConfigureRelease _ _ _ _ | FOrphanRelease _ _ | FResetBegin _ _ | FResetCancel _ _
  | FResetRelease _ _ | FResetConfigure _ _ | FResetAbandon _ _ _ | FChildRelease _ _ => true
  | _ => false
  end.

Lemma child_flight_no_children f : child_flight f = true -> needs_children f = false.
Proof. destruct f; try done. by destruct q. Qed.

Lemma claim_release_prune ctx prune w c w' :
  claim_release ctx prune w = (Some c, w') -> ec_prune c = prune.
Proof.
  unfold claim_release. destruct (w_tombstones w !! ctx) as [t|].
  - destruct (tb_state t); [done|]. destruct (w_retries w !! ctx); [|done]. by intros [= <- <-].
  - destruct (w_live w !! ctx) as [h|]; [|done]. destruct (h_governed h); [done|].
    destruct (is_claimed (h_state h)); [done|]. destruct (h_op h); simpl; by intros [= <- <-].
Qed.

Section Lock.
Context `{F64} (warn_at : option N) (idle_ttl : Z).
Notation step := (step warn_at idle_ttl).
Notation resume := (resume warn_at idle_ttl).

Definition out_child (e : Effect) : Prop :=
  match ef_out e with Wait f => child_flight f = true | Return _ _ => True end.

Lemma begin_child w q : child_flight (FStart q) = true -> out_child (begin warn_at idle_ttl w q).
Proof.
  destruct q; try done; unfold out_child; simpl; intros Hp.
  - destruct (checkout_lock1 ctx w) as [[[e c]|saw] w']; done.
  - destruct (cancel_claim ctx expected w) as [[r|[[[[b se] hid] cid] fb]] w']; done.
  - unfold reset_retry. destruct (w_tombstones w !! ctx) as [[g op cid [|code]]|]; try done.
    destruct (claim_release ctx false w) as [[c|] w'] eqn:E; [|done]. simpl.
    by rewrite (claim_release_prune _ _ _ _ _ E).
  - destruct (take_retired_idle_child child w) as [[[b se]|] w']; done.
Qed.

Lemma resume_child w f o : child_flight f = true -> out_child (resume w f o).
Proof.
  intros Hf. destruct f; try done; destruct o; try exact Hf; [by apply begin_child|..];
    unfold out_child; simpl; try done.
  - destruct r as [rs|e]; [|done]. destruct (checkout_lock2 _ _ _ _ _ _ _ _) as [[] w']; done.
  - destruct (settle_reconcile _ _ _ _ _ _) as [[] w']; done.
  - destruct (settle_configure _ _ _ _ _) as [[r'|[?|?]|] w']; done.
  - apply negb_true_iff in Hf. rewrite Hf. simpl. by rewrite Hf.
  - by destruct (cleanup_return c k res).
  - destruct (settle_cancel _ _ _ _ _ _ _) as [[|c|gone] w'] eqn:E; try done. simpl.
    unfold settle_cancel in E. destruct (still_ours _ _ _ _); [|done]. destruct (_ && _); [done|].
    unfold expire_with in E. simpl in E. by injection E as <- _.
  - destruct (reset_claim _ _ _) as [[r'|p] w']; [done|]. by destruct force.
  - unfold reset_tail. destruct (settle_reset _ _ _ _ _ _ _) as [[r'| |] w']; try done.
    by destruct (is_ok r).
Qed.

(** A prune is only ever started by the frame [FrPrune]. *)
Lemma resume_not_prune w f o l r : ef_out (resume w f o) = Wait (FPrune l r) -> f = FPrune l r.
Proof.
  destruct f; destruct o; simpl; try (by intros [= -> ->]); try done;
    try (destruct q; simpl); unfold reset_tail, drop_claimed; try done;
    repeat (case_match; simplify_eq/=; try done).
Qed.

Lemma frame_return_child fr r removed w :
  match (frame_return fr r removed w).2 with
  | inl (f, fr') => holds_children fr' = holds_children fr
                    /\ (holds_children fr = true -> child_flight f = true)
                    /\ (forall l r, f = FPrune l r -> fr' = FrPrune)
  | inr _ => True
  end.
Proof.
  destruct fr; simpl; try done; unfold cancel_loop, clear_loop, child_finish;
    repeat (case_match; simplify_eq/=; try done).
Qed.

(** ** The mutex has one holder, at a point that does not want it *)
Record lock_inv (s : Sys) : Prop := {
  li_threads : forall fid th, s_threads s !! fid = Some th -> holds_children (th_frame th) = true ->
               s_holder s = Some fid /\ child_flight (th_flight th) = true;
  li_holder : forall fid, s_holder s = Some fid ->
              exists th, s_threads s !! fid = Some th /\ holds_children (th_frame th) = true;
  li_prune : forall fid th l r, s_threads s !! fid = Some th -> th_flight th = FPrune l r ->
             th_frame th = FrPrune;
  li_fresh : forall fid, is_Some (s_threads s !! fid) -> (fid < s_next s)%N }.

(** A thread that does not hold the mutex appears under a fresh number. *)
Lemma lock_inv_new s th :
  lock_inv s -> holds_children (th_frame th) = false -> (forall l r, th_flight th <> FPrune l r) ->
  lock_inv (mkSys (s_world s) (<[s_next s := th]> (s_threads s)) (s_next s + 1)
              (s_holder s) (s_replies s) (s_dropped s)).
Proof.
  intros [Ht Hh Hp Hf] Hno Hnp.
  assert (Hn : s_threads s !! s_next s = None).
  { apply eq_None_not_Some. intros Hs%Hf. lia. }
  split; simpl.
  - intros fid th' Hl. destruct (decide (fid = s_next s)) as [->|]; simplify_map_eq; [congruence|eauto].
  - intros fid (th' & Hl & Hc)%Hh. exists th'. split; [|done].
    rewrite lookup_insert_ne; [done|]. intros <-. congruence.
  - intros fid th' l r Hl E. destruct (decide (fid = s_next s)) as [->|].
    + rewrite lookup_insert_eq in Hl. injection Hl as <-. by destruct (Hnp l r).
    + rewrite lookup_insert_ne in Hl by done. eauto.
  - intros fid. destruct (decide (fid = s_next s)) as [->|]; [lia|].
    rewrite lookup_insert_ne by done. intros Hl%Hf. lia.
Qed.

Lemma lock_inv_spawn cs s : lock_inv s -> lock_inv (spawn cs s).
Proof.
  revert s. induction cs as [|c cs IH]; intros s Hi; [done|].
  change (spawn (c :: cs) s) with (spawn cs (spawn [c] s)). apply IH. by apply lock_inv_new.
Qed.

(** The thread moves on with the same hold, or ends and gives it back. *)
Lemma lock_inv_move s w fid th f fr :
  lock_inv s -> s_threads s !! fid = Some th ->
  holds_children fr = holds_children (th_frame th) ->
  (holds_children fr = true -> child_flight f = true) -> (forall l r, f = FPrune l r -> fr = FrPrune) ->
  lock_inv (set_thread fid (mkThread f fr) (set_world w s)).
Proof.
  intros [Ht Hh Hp Hf] Hl Hfr Hfl Hnp. split; simpl.
  - intros fid' th'. destruct (decide (fid' = fid)) as [->|].
    + rewrite lookup_insert_eq. intros [= <-] Hc. simpl in *. split; [|by apply Hfl].
      rewrite Hfr in Hc. by destruct (Ht _ _ Hl Hc).
    + rewrite lookup_insert_ne by done. apply Ht.
  - intros fid' (th' & Hl' & Hc)%Hh. destruct (decide (fid' = fid)) as [->|].
    + rewrite lookup_insert_eq. eexists. split; [done|]. simplify_eq. by rewrite <- Hfr in Hc.
    + rewrite lookup_insert_ne by done. eauto.
  - intros fid' th' l r Hl' E. destruct (decide (fid' = fid)) as [->|].
    + rewrite lookup_insert_eq in Hl'. injection Hl' as <-. simpl in *. eauto.
    + rewrite lookup_insert_ne in Hl' by done. eauto.
  - intros fid'. destruct (decide (fid' = fid)) as [->|].
    + intros _. apply Hf. by eexists.
    + rewrite lookup_insert_ne by done. apply Hf.
Qed.

Lemma lock_inv_end s w fid th r :
  lock_inv s -> s_threads s !! fid = Some th -> lock_inv (end_thread fid r (set_world w s)).
Proof.
  intros [Ht Hh Hp Hf] Hl. split; simpl.
  - intros fid' th' [Hne Hl']%lookup_delete_Some Hc. destruct (Ht _ _ Hl' Hc) as [E Hcf].
    split; [|done]. rewrite bool_decide_eq_false_2; [done|]. congruence.
  - intros fid'. case_bool_decide as E; [done|]. intros E'.
    destruct (Hh _ E') as (th' & Hl' & Hc). exists th'. rewrite lookup_delete_ne; [done|]. congruence.
  - intros fid' th' l r' [_ Hl']%lookup_delete_Some. eauto.
  - intros fid' [th' [_ Hl']%lookup_delete_Some]. apply Hf. by eexists.
Qed.

(** A dropped future gives the mutex back, whether its flight goes on or not. *)
Lemma lock_inv_drop s fid th :
  lock_inv s -> s_threads s !! fid = Some th -> lock_inv (drop_thread fid (th_flight th) s).
Proof.
  intros [Ht Hh Hp Hf] Hl. unfold drop_thread.
  assert (Hother : forall fid' th', fid' <> fid -> s_threads s !! fid' = Some th' ->
    holds_children (th_frame th') = true ->
    (if bool_decide (s_holder s = Some fid) then None else s_holder s) = Some fid'
    /\ child_flight (th_flight th') = true).
  { intros fid' th' Hne Hl' Hc. destruct (Ht _ _ Hl' Hc) as [E Hcf]. split; [|done].
    rewrite bool_decide_eq_false_2; [done|]. congruence. }
  assert (Hholder : forall fid', (if bool_decide (s_holder s = Some fid) then None else s_holder s) = Some fid' ->
    fid' <> fid /\ exists th', s_threads s !! fid' = Some th' /\ holds_children (th_frame th') = true).
  { intros fid'. case_bool_decide as E; [done|]. intros E'. split; [congruence|by apply Hh]. }
  destruct (detach (th_flight th)) as [f'|] eqn:Ed; split; simpl.
  - intros fid' th'. destruct (decide (fid' = fid)) as [->|];
      [rewrite lookup_insert_eq; by intros [= <-]|]. rewrite lookup_insert_ne by done. by apply Hother.
  - intros fid' (Hne & E)%Hholder. by rewrite lookup_insert_ne.
  - intros fid' th' l r. destruct (decide (fid' = fid)) as [->|];
      [|rewrite lookup_insert_ne by done; apply Hp]. rewrite lookup_insert_eq. intros [= <-]. simpl.
    intros ->. destruct (th_flight th); simpl in Ed; try done. by destruct q.
  - intros fid'. destruct (decide (fid' = fid)) as [->|]; [intros _; apply Hf; by eexists|].
    rewrite lookup_insert_ne by done. apply Hf.
  - intros fid' th' [Hne Hl']%lookup_delete_Some. by apply Hother.
  - intros fid' (Hne & E)%Hholder. by rewrite lookup_delete_ne.
  - intros fid' th' l r [_ Hl']%lookup_delete_Some. eauto.
  - intros fid' [th' [_ Hl']%lookup_delete_Some]. apply Hf. by eexists.
Qed.

Lemma lock_inv_commit s fid th o :
  lock_inv s -> s_threads s !! fid = Some th ->
  lock_inv (commit fid (th_frame th) (resume (s_world s) (th_flight th) o) s).
Proof.
  intros Hi Hl. unfold commit.
  pose proof (resume_child (s_world s) (th_flight th) o) as Hr. unfold out_child in Hr.
  pose proof (resume_not_prune (s_world s) (th_flight th) o) as Hnp.
  destruct (ef_out _) as [f|r removed].
  - apply lock_inv_spawn. eapply lock_inv_move; [done|exact Hl|done| |].
    + intros Hc. apply Hr. by destruct (li_threads _ Hi _ _ Hl Hc).
    + intros l r ->. eapply (li_prune _ Hi); eauto.
  - pose proof (frame_return_child (th_frame th) r removed
                  (ef_world (resume (s_world s) (th_flight th) o))) as Hfr.
    destruct (frame_return _ _ _ _) as [w' [[f fr']|r']]; simpl in *; apply lock_inv_spawn.
    + destruct Hfr as (E & Hc & Hp). eapply lock_inv_move; [done|exact Hl|done| |done]. by rewrite E.
    + by eapply lock_inv_end.
Qed.

Lemma lock_inv_step s e : lock_inv s -> lock_inv (step s e).
Proof.
  intros Hi. destruct e as [op|fid o|fid|t|l|a en|d]; simpl; try (destruct Hi; by constructor).
  - apply lock_inv_new; [done| |]; by destruct op as [| |].
  - destruct (s_threads s !! fid) as [th|] eqn:Et; [|done].
    destruct (needs_children (th_flight th) && _) eqn:Eb; [done|].
    pose proof (lock_inv_commit s fid th o Hi Et) as Hcm.
    destruct (th_flight th) eqn:Ef; try exact Hcm.
    destruct (th_frame th) eqn:Efr; try done. destruct o; try done.
    destruct (enter op (s_world s)) as [f fr] eqn:En.
    assert (Hnone : s_holder s = None) by (by destruct (s_holder s)).
    assert (Hfr : holds_children fr = true /\ child_flight f = true)
      by (destruct op; simpl in En; by simplify_eq).
    destruct Hi as [Ht Hh Hp Hf]. split; simpl.
    + intros fid' th'. destruct (decide (fid' = fid)) as [->|].
      * rewrite lookup_insert_eq. intros [= <-] _. simpl. by destruct Hfr.
      * rewrite lookup_insert_ne by done. intros Hl Hc. destruct (Ht _ _ Hl Hc). congruence.
    + intros fid' [= <-]. rewrite lookup_insert_eq. eexists. split; [done|]. by destruct Hfr.
    + intros fid' th' l r Hl' E. destruct (decide (fid' = fid)) as [->|].
      * rewrite lookup_insert_eq in Hl'. injection Hl' as <-. simpl in *.
        destruct Hfr as [_ Hcf]. by rewrite E in Hcf.
      * rewrite lookup_insert_ne in Hl' by done. eauto.
    + intros fid'. destruct (decide (fid' = fid)) as [->|].
      * intros _. apply Hf. by eexists.
      * rewrite lookup_insert_ne by done. apply Hf.
  - destruct (s_threads s !! fid) as [th|] eqn:Et; [|done]. by apply lock_inv_drop.
Qed.

Lemma lock_inv_initial s : initial s -> lock_inv s.
Proof.
  intros (_ & _ & _ & _ & _ & _ & _ & _ & _ & _ & Et & _ & Eh & _). split.
  - intros fid th Hl. by rewrite Et, lookup_empty in Hl.
  - by rewrite Eh.
  - intros fid th l r Hl. by rewrite Et, lookup_empty in Hl.
  - intros fid [th Hl]. by rewrite Et, lookup_empty in Hl.
Qed.

Lemma lock_inv_reachable s : reachable step initial s -> lock_inv s.
Proof. apply reachable_invariant; [apply lock_inv_initial|]. intros; by apply lock_inv_step. Qed.

(** The [children] mutex cannot deadlock: in every reachable state its
    holder is a live thread whose next step does not wait for the mutex, and
    no other thread is inside an operation that keeps it. *)
Theorem children_holder_never_blocks s fid :
  reachable step initial s -> s_holder s = Some fid ->
  (exists th, s_threads s !! fid = Some th /\ needs_children (th_flight th) = false)
  /\ (forall fid' th', s_threads s !! fid' = Some th' -> holds_children (th_frame th') = true -> fid' = fid).
Proof.
  intros Hi%lock_inv_reachable Hh.
  destruct (li_holder _ Hi _ Hh) as (th & Hl & Hc). split.
  - exists th. split; [done|]. apply child_flight_no_children. by destruct (li_threads _ Hi _ _ Hl Hc).
  - intros fid' th' Hl' Hc'. destruct (li_threads _ Hi _ _ Hl' Hc') as [E _]. congruence.
Qed.

(** ** Progress *)

(** The outcome a point waits for. *)
Definition awaits (f : Flight) (o : Outcome) : bool :=
  match f, o with
  | (FStart _ | FEnter | FPrune _ _ | FCleanupPrune _ _ _ | FSettle _ _ _ | FResetBegin _ _ | FReap _ _
     | FApplyBegin _ _ | FApplyCommit _ _ | FClaimSettle _ _), OLock _ => true
  | (FResolve _ _ _ _ _ | FClaimResolve _ _ _ _ | FApplyResolve _), OResolve _ => true
  | (FReconcile _ _ _ _ _ | FApplyReconcile _ _ _), OReconcile _ => true
  | (FReconcileRelease _ _ _ _ _ | FConfigureRelease _ _ _ _ | FOrphanRelease _ _ | FResetRelease _ _
     | FResetAbandon _ _ _ | FSummarizeRelease _ _ _ | FCompactRelease _ _ _ | FCompactAbandon _ _ _
     | FChildRelease _ _), ORelease => true
  | (FConfigure _ _ _ _ | FCancel _ _ _ _ _ _ | FResetCancel _ _ | FResetConfigure _ _
     | FCompactConfigure _ _ _ | FApplyConfigure _ _ _), OResult _ => true
  | FCleanup _ _, OCleanup _ => true
  | FSummarize _ _, OSummary _ => true
  | _, _ => false
  end.

(** How many more resumptions an inner operation can need. *)
Definition flight_rank (f : Flight) : nat :=
  match f with
  | FPrune _ _ => 0
  | FSettle _ _ _ | FOrphanRelease _ _ | FReconcileRelease _ _ _ _ _ | FConfigureRelease _ _ _ _
  | FResetAbandon _ _ _ | FCompactAbandon _ _ _ | FSummarizeRelease _ _ _ | FChildRelease _ _
  | FReap _ _ | FClaimResolve _ _ _ _ => 1
  | FCleanupPrune _ _ _ | FReconcile _ _ _ _ _ | FConfigure _ _ _ _ | FResetConfigure _ _
  | FCompactConfigure _ _ _ => 2
  | FCleanup _ _ | FResolve _ _ _ _ _ | FResetRelease _ _ | FCompactRelease _ _ _ => 3
  | FCancel _ _ _ _ _ _ | FResetCancel _ _ | FSummarize _ _ | FClaimSettle _ _ => 4
  | FResetBegin _ _ | FApplyCommit _ _ | FApplyConfigure _ _ _ | FApplyReconcile _ _ _ => 5
  | FApplyBegin _ _ => 6
  | FApplyResolve _ => 7
  | FStart _ => 8
  | FEnter => 9
  end%nat.

(** How many more inner operations the caller can start. *)
Definition frame_rank (fr : Frame) : nat :=
  match fr with
  | FrPrune | FrEnter _ | FrChildRetry _ | FrDetached => 0
  | FrChildExpire _ _ => 1
  | FrChild _ => 2
  | FrCancelAll _ _ todo _ _ | FrClearAll _ _ todo _ _ | FrReleaseAll todo => length todo
  end%nat.

Definition thread_rank (th : Thread) : nat :=
  (10 * frame_rank (th_frame th) + flight_rank (th_flight th))%nat.

Definition out_rank (f : Flight) (e : Effect) : Prop :=
  match ef_out e with
  | Wait f' => (flight_rank f' < flight_rank f)%nat
  | Return r removed => forall l, r <> RKeys l
  end.

Lemma begin_rank w q : q <> QKeys -> out_rank (FStart q) (begin warn_at idle_ttl w q).
Proof.
  intros Hq. destruct q; try done; unfold out_rank; simpl;
    repeat (case_match; simplify_eq/=; try lia; try done).
  all: first [lia|done].
Qed.

Lemma resume_rank w f o :
  awaits f o = true -> f <> FEnter -> f <> FStart QKeys -> (forall l r, f <> FPrune l r) ->
  (forall se r, f <> FOrphanRelease se r) -> out_rank f (resume w f o).
Proof.
  intros Ha He Hk Hp Ho.
  destruct f; try done; destruct o; try done;
    try (by destruct (Hp removed reply)); try (by destruct (Ho session reply));
    try (apply begin_rank; by intros ->); unfold out_rank; simpl; try lia; try done.
  all: unfold reset_tail, drop_claimed, cleanup_return in *;
    repeat (case_match; simplify_eq/=; try lia; try done).
Qed.

Lemma frame_return_rank fr r removed w :
  (forall l, r <> RKeys l) ->
  match (frame_return fr r removed w).2 with
  | inl (f, fr') => (frame_rank fr' < frame_rank fr)%nat /\ flight_rank f = 8%nat
                    \/ fr = FrPrune /\ fr' = FrPrune /\ f = FPrune removed r /\ removed <> []
  | inr _ => True
  end.
Proof.
  intros Hk. destruct fr; simpl; unfold cancel_loop, clear_loop, child_finish;
    repeat (case_match; simplify_eq/=; try (left; split; [lia|done]); try done; try by right).
  all: try done. by destruct (Hk (s :: l)).
Qed.

Lemma spawn_lookup cs s fid : (fid < s_next s)%N -> s_threads (spawn cs s) !! fid = s_threads s !! fid.
Proof.
  revert s. induction cs as [|c cs IH]; intros s Hlt; [done|].
  change (spawn (c :: cs) s) with (spawn cs (spawn [c] s)). rewrite IH; simpl; [|lia].
  rewrite lookup_insert_ne; [done|lia].
Qed.

(** Every operation of the manager is bounded: resuming a thread with the
    outcome it awaits (and the mutex free if the point wants it) strictly
    decreases its rank or ends it, so no interleaving keeps an operation
    going forever. The two points excluded take a snapshot of the table and
    so fix how many inner operations follow. *)
Theorem resume_decreases_rank s fid th o :
  reachable step initial s -> s_threads s !! fid = Some th -> awaits (th_flight th) o = true ->
  th_flight th <> FEnter -> th_flight th <> FStart QKeys ->
  (needs_children (th_flight th) = true -> s_holder s = None) ->
  match s_threads (step s (Resume fid o)) !! fid with
  | Some th' => (thread_rank th' < thread_rank th)%nat
  | None => True
  end.
Proof.
  intros Hr Hl Ha He Hk Hn. pose proof (lock_inv_reachable _ Hr) as Hi.
  apply inv_reachable in Hr. pose proof (ip_flights _ _ Hr _ _ Hl) as Hok.
  assert (Hlt : (fid < s_next s)%N) by (apply (li_fresh _ Hi); by eexists).
  assert (Hs : step s (Resume fid o) = commit fid (th_frame th) (resume (s_world s) (th_flight th) o) s).
  { simpl. rewrite Hl. destruct (needs_children (th_flight th)) eqn:En; simpl.
    - rewrite Hn by done. by destruct (th_flight th).
    - by destruct (th_flight th). }
  rewrite Hs. unfold commit.
  assert (Hd : (exists l r, th_flight th = FPrune l r) \/ forall l r, th_flight th <> FPrune l r)
    by (destruct (th_flight th); eauto; by right).
  destruct Hd as [(l & r & Ef)|Hnp].
  { rewrite Ef, (li_prune _ Hi _ _ _ _ Hl Ef) in *. destruct o; try done. simpl.
    by rewrite lookup_delete_eq. }
  assert (Hrank : out_rank (th_flight th) (resume (s_world s) (th_flight th) o)).
  { apply resume_rank; try done.
    intros se r E. by rewrite E in Hok. }
  assert (Hpos : (1 <= flight_rank (th_flight th))%nat).
  { destruct (th_flight th); simpl; try lia. by destruct (Hnp removed reply). }
  unfold out_rank in Hrank. destruct (ef_out _) as [f|r removed].
  - rewrite spawn_lookup by done. simpl. rewrite lookup_insert_eq. unfold thread_rank. simpl. lia.
  - pose proof (frame_return_rank (th_frame th) r removed
                  (ef_world (resume (s_world s) (th_flight th) o)) Hrank) as Hf.
    destruct (frame_return _ _ _ _) as [w' [[f fr']|r']]; simpl in *; rewrite spawn_lookup by done; simpl.
    + rewrite lookup_insert_eq. unfold thread_rank. simpl.
      destruct Hf as [[Hlt' Hf8]|(E1 & -> & -> & _)]; [lia|]. rewrite E1. simpl. lia.
    + by rewrite lookup_delete_eq.
Qed.
End Lock.
