(* ===== verification/SessionTheorems.v ===== *)
(** * Warm sessions: what the manager guarantees

    Consequences of the ownership invariant for every reachable state of the
    interleaving system, and the behaviour of single critical sections: who
    may settle a claim, which backend sessions may be addressed at the same
    time, when a successor turn is refused, what a sweep takes. *)
From S2P Require Import Prelude Domain SessionCwd SessionTypes SessionOps SessionGoverned SessionSystem SessionInvariant SessionEffects SessionSections SessionLock.
From stdpp Require Import pretty.
Open Scope Z_scope.
Open Scope bridge_scope.

(** ** Session ids determine their context and generation *)
Definition not_g (c : Ascii.ascii) : bool := negb (Ascii.N_of_ascii c =? 103)%N.

Lemma pretty_N_go_not_g x s : bytes_all not_g s = true -> bytes_all not_g (pretty_N_go x s) = true.
Proof.
  revert s. induction (N.lt_wf_0 x) as [x _ IH]; intros s Hs.
  destruct (N.eq_dec x 0%N) as [->|Hx]; [by rewrite pretty_N_go_0|].
  rewrite pretty_N_go_step by lia. apply IH; [apply N.div_lt; lia|]. simpl. rewrite Hs, andb_true_r.
  unfold pretty_N_char. by repeat case_match.
Qed.

Lemma pretty_N_not_g (n : N) : bytes_all not_g (pretty n) = true.
Proof. unfold pretty, pretty_N. case_decide; [done|]. by apply pretty_N_go_not_g. Qed.

Lemma app_g_not_g c d : bytes_all not_g (c +:+ "-g" +:+ d) = false.
Proof. rewrite bytes_all_app. simpl. by rewrite andb_false_r. Qed.

Lemma suffix_g_inj c1 c2 d1 d2 :
  bytes_all not_g d1 = true -> bytes_all not_g d2 = true ->
  c1 +:+ "-g" +:+ d1 = c2 +:+ "-g" +:+ d2 -> c1 = c2 /\ d1 = d2.
Proof.
  intros H1 H2. revert c2. induction c1 as [|a c1 IH]; intros c2 E.
  - destruct c2 as [|b [|b' c2]]; simpl in E; simplify_eq; [done|].
    match goal with E : _ = c2 +:+ _ |- _ => change (d1 = c2 +:+ "-g" +:+ d2) in E; subst end.
    by rewrite app_g_not_g in H1.
  - destruct c2 as [|b c2].
    + destruct c1 as [|a' c1]; simpl in E; simplify_eq.
      match goal with E : c1 +:+ _ = _ |- _ => change (c1 +:+ "-g" +:+ d1 = d2) in E; subst end.
      by rewrite app_g_not_g in H2.
    + simpl in E. injection E as -> E. destruct (IH c2 E) as [-> ->]. done.
Qed.

Lemma session_id_inj c1 g1 c2 g2 : session_id c1 g1 = session_id c2 g2 -> c1 = c2 /\ g1 = g2.
Proof.
  unfold session_id. intros E. simpl in E. injection E as E.
  destruct (suffix_g_inj c1 c2 (pretty g1) (pretty g2)) as [-> Ep]; auto using pretty_N_not_g.
  split; [done|]. by apply (inj pretty).
Qed.

(** ** The backend session an outstanding call addresses *)
Definition backend_call (f : Flight) : option SessionId :=
  match f with
  | FReconcile _ _ se _ _ | FReconcileRelease _ _ se _ _ | FConfigure _ _ _ se
  | FCancel _ _ se _ _ _ | FOrphanRelease se _ | FChildRelease _ se
  | FApplyConfigure _ _ se | FApplyReconcile _ _ se => Some se
  | FConfigureRelease _ _ se cfg => if is_ok cfg then Some se else None
  | FCleanup c _ => Some (ro_session (ec_retry c))
  | FResetCancel _ p | FResetRelease _ p | FSummarize _ p | FCompactRelease _ p _
  | FSummarizeRelease _ p _ => Some (rp_old p)
  | FResetConfigure _ p | FCompactConfigure _ p _ => Some (rp_new p)
  | FResetAbandon _ p cfg | FCompactAbandon _ p cfg => if is_ok cfg then Some (rp_new p) else None
  | _ => None
  end.

Section Reachable.
Context `{F64} (warn_at : option N) (idle_ttl : Z).
Notation reach := (reachable (step warn_at idle_ttl) initial).

(** A claiming thread only addresses sessions of its own context. *)
Lemma call_of_claim s fid th ctx k se :
  inv s -> s_threads s !! fid = Some th -> flight_claim (th_flight th) = Some (ctx, k) ->
  backend_call (th_flight th) = Some se -> exists g, se = session_id ctx g.
Proof.
  intros Hi Ht Hc Hb. pose proof (ip_flights _ _ Hi _ _ Ht) as Hok.
  assert (Hk : slot_claim (slot (s_world s) ctx) = Some k) by (eapply (ip_claims _ _ Hi); by exists th).
  assert (Hl : forall hid st op se', k = KLive hid st op se' -> exists g, se' = session_id ctx g).
  { intros hid st op se' ->. apply live_claim_inv in Hk as (h & El & _ & _ & <- & _).
    destruct (live_inv _ _ _ (ip_slots _ _ Hi) El) as (_ & _ & Hh & _).
    eexists. apply (ho_session _ _ Hh). }
  destruct (th_flight th); simpl in *; try done; try (injection Hc as <- <-);
    try (destruct (is_ok cfg); [|done]); injection Hb as <-; eauto.
  all: destruct Hok as (g & Ho & Hn & _); eauto.
Qed.

(** The points whose claim is lost when the caller drops the future there:
    the awaits of a checkout, a reset and a compaction. *)
Definition strands (f : Flight) : bool :=
  match f with
  | FReconcile _ _ _ _ _ | FReconcileRelease _ _ _ _ _ | FConfigure _ _ _ _ | FConfigureRelease _ _ _ _
  | FResetCancel _ _ | FResetRelease _ _ | FResetConfigure _ _ | FResetAbandon _ _ _
  | FSummarize _ _ | FSummarizeRelease _ _ _ | FCompactRelease _ _ _ | FCompactConfigure _ _ _
  | FCompactAbandon _ _ _ => true
  | _ => false
  end.

Lemma detached_or_strands f ck : detach f = None -> flight_claim f = Some ck -> strands f = true.
Proof. by destruct f. Qed.

(** Only futures that could not go on without their caller are given up. *)
Lemma step_dropped s e :
  exists l, s_dropped (step warn_at idle_ttl s e) = s_dropped s ++ l /\ Forall (fun f => detach f = None) l.
Proof.
  assert (Hs : forall cs s, s_dropped (spawn cs s) = s_dropped s).
  { intros cs. induction cs as [|c cs IH]; intros s0; [done|]. apply (IH (spawn [c] s0)). }
  assert (Hc : forall fid fr e, s_dropped (commit fid fr e s) = s_dropped s).
  { intros fid fr e'. unfold commit. destruct (ef_out e'); rewrite ?Hs; [done|].
    destruct (frame_return _ _ _ _) as [w' [[f fr']|r']]; by rewrite Hs. }
  assert (Hsame : forall s', s_dropped s' = s_dropped s ->
    exists l, s_dropped s' = s_dropped s ++ l /\ Forall (fun f => detach f = None) l).
  { intros s' ->. exists []. split; [by rewrite app_nil_r|constructor]. }
  destruct e as [op|fid o|fid|t|l|a en|d]; simpl; try (by apply Hsame);
    (destruct (s_threads s !! fid) as [th|]; [|by apply Hsame]).
  - apply Hsame. destruct (_ && _); [done|]. destruct (th_flight th); rewrite ?Hc; try done.
    destruct (th_frame th); try done. destruct o; try done. by destruct (enter _ _).
  - unfold drop_thread. destruct (detach (th_flight th)) eqn:Ed; [by apply Hsame|].
    exists [th_flight th]. split; [done|]. by constructor.
Qed.

Lemma dropped_not_detached s : reach s -> Forall (fun f => detach f = None) (s_dropped s).
Proof.
  apply (reachable_invariant _ _ (fun s => Forall (fun f => detach f = None) (s_dropped s))); clear s.
  - intros s Hi. assert (s_dropped s = []) as -> by apply Hi. constructor.
  - intros s e Hf. destruct (step_dropped s e) as (l & -> & Hl). by apply Forall_app.
Qed.

Lemma run_dropped es s : exists l, s_dropped (run (step warn_at idle_ttl) s es) = s_dropped s ++ l.
Proof.
  revert s. induction es as [|e es IH]; intros s; [exists []; by rewrite app_nil_r|].
  destruct (IH (step warn_at idle_ttl s e)) as [l El], (step_dropped s e) as (l' & El' & _).
  exists (l' ++ l). simpl. unfold run in *. by rewrite El, El', app_assoc.
Qed.

(** C1: Exclusive ownership. In every reachable state, with callers free to
    drop the future of any operation at any await, a context is in a claimed
    state ([Reconciling] ... [Configuring], or an expiring tombstone) exactly
    when its claim has one owner, with that exact identity: one live thread
    and no dropped future, or no thread and one future that was dropped at an
    await of a checkout, a reset or a compaction, the only operations whose
    claim does not outlive their caller. *)
Theorem claims_have_one_owner s ctx k :
  reach s ->
  slot_claim (slot (s_world s) ctx) = Some k <->
  (exists fid, claims s fid ctx k /\ (forall fid' k', claims s fid' ctx k' -> fid' = fid)
               /\ forall k', (ctx, k') ∉ stranded s)
  \/ ((forall fid' k', ~ claims s fid' ctx k')
      /\ exists i f, s_dropped s !! i = Some f /\ flight_claim f = Some (ctx, k) /\ strands f = true
                     /\ forall k', (ctx, k') ∈ stranded s -> k' = k).
Proof.
  intros Hr. pose proof (inv_reachable _ _ _ Hr) as Hi.
  assert (Hst : forall k', (ctx, k') ∈ stranded s -> forall fid' k'', ~ claims s fid' ctx k'').
  { intros k' Hin fid' k'' Hc. apply (ip_disjoint _ _ Hi _ _ _ Hc). apply list_elem_of_fmap. by exists (ctx, k'). }
  split.
  - intros Hk. destruct (ip_owned _ _ Hi _ _ Hk) as [[fid Hf]|Hin]; [left|right].
    + exists fid. split_and!; [done| |].
      * intros fid' k' Hf'. by eapply (ip_unique _ _ Hi).
      * intros k' Hin. by eapply Hst.
    + split; [by eapply Hst|]. pose proof Hin as (f & Hf & Hc)%list_elem_of_omap.
      apply list_elem_of_lookup in Hf as [i Hl]. exists i, f. split_and!; try done.
      * eapply detached_or_strands; [|done]. by eapply Forall_lookup_1 in Hl; [|by apply dropped_not_detached].
      * intros k' Hk'%(ip_pending _ _ Hi). congruence.
  - intros [(fid & Hf & _)|(_ & i & f & Hl & Hc & _)]; [by eapply (ip_claims _ _ Hi)|].
    apply (ip_pending _ _ Hi). apply list_elem_of_omap. exists f. split; [|done].
    by eapply list_elem_of_lookup_2.
Qed.

(** A stranded claim stays for good: whatever runs afterwards, no operation,
    reaper included, gets the context out of its claimed state. *)
Theorem stranded_claim_stays s es ctx k :
  reach s -> (ctx, k) ∈ stranded s ->
  let s' := run (step warn_at idle_ttl) s es in
  slot_claim (slot (s_world s') ctx) = Some k /\ forall fid k', ~ claims s' fid ctx k'.
Proof.
  intros Hr Hin s'.
  assert (Hin' : (ctx, k) ∈ stranded s').
  { unfold stranded, s' in *. destruct (run_dropped es s) as [l ->]. rewrite omap_app, elem_of_app. by left. }
  assert (Hi : inv s') by (apply (run_invariant _ inv); [intros; by apply inv_step|by eapply inv_reachable]).
  split; [by apply (ip_pending _ _ Hi)|]. intros fid k' Hc.
  apply (ip_disjoint _ _ Hi _ _ _ Hc). apply list_elem_of_fmap. by exists (ctx, k).
Qed.

(** C2: A settle always finds its own claim: when a thread that claimed a live
    handle resumes, the handle is still there, in the claimed state, with
    the session it was claimed with; so the defensive branches for a lost
    claim are dead and no thread ever releases an orphaned session. *)
Theorem settle_finds_its_claim s fid th :
  reach s -> s_threads s !! fid = Some th ->
  (forall ctx hid st op se, flight_claim (th_flight th) = Some (ctx, KLive hid st op se) ->
     exists h, still_ours (s_world s) ctx hid st = Some h /\ h_session h = se
               /\ (st = Configuring -> h_op h = op))
  /\ (forall c, flight_claim (th_flight th) = Some (expiry_claim c) ->
        w_tombstones (s_world s) !! ec_ctx c
        = Some (mkTombstone (ec_generation c) (ec_op c) (ec_claim_id c) TExpiring))
  /\ (forall se r, th_flight th <> FOrphanRelease se r).
Proof.
  intros Hi%inv_reachable Ht. split_and!.
  - intros ctx hid st op se Hc.
    assert (Hk : slot_claim (slot (s_world s) ctx) = Some (KLive hid st op se))
      by (eapply (ip_claims _ _ Hi); by exists th).
    apply live_claim_inv in Hk as (h & ? & ? & ? & ? & ? & ? & ?). eauto.
  - intros c Hc. apply tomb_claim_inv. eapply (ip_claims _ _ Hi). exists th. split; [done|].
    by rewrite Hc.
  - intros se r E. apply (ip_flights _ _ Hi) in Ht. by rewrite E in Ht.
Qed.

(** C4: The table stays well formed. A context never has a live handle and a
    tombstone at once (the two debug assertions of [SessionTable::insert]
    hold); a retry capability is retained exactly for a failed cleanup and
    names that cleanup's session; a live handle's session id is the one
    derived from its context and generation; an [Idle] handle runs no
    operation and a [Running] one does; only a [Running] handle is governed;
    and the inject queue respects both of its bounds. *)
Theorem table_consistent s ctx :
  reach s ->
  let w := s_world s in
  (forall h, w_live w !! ctx = Some h ->
     w_tombstones w !! ctx = None /\ w_retries w !! ctx = None
     /\ h_session h = session_id ctx (h_generation h)
     /\ (h_state h = Idle -> h_op h = None)
     /\ (h_state h = Running -> is_Some (h_op h))
     /\ (is_Some (h_governed h) -> h_state h = Running)
     /\ (length (h_pending_injects h) <= 32)%nat
     /\ (inject_bytes (h_pending_injects h) <= 65536)%nat)
  /\ (forall t, w_tombstones w !! ctx = Some t ->
        match tb_state t with
        | TExpiring => w_retries w !! ctx = None
        | TCleanupFailed _ => exists r, w_retries w !! ctx = Some r
                                        /\ ro_session r = session_id ctx (tb_generation t)
        end)
  /\ (w_tombstones w !! ctx = None -> w_retries w !! ctx = None).
Proof.
  intros Hi%inv_reachable w. pose proof (ip_slots _ _ Hi) as Hw. split_and!.
  - intros h Hl. destruct (live_inv _ _ _ Hw Hl) as (Ht & Hr & [] & _). by destruct_and!.
  - intros t Ht. by destruct (tomb_inv _ _ _ Hw Ht).
  - intros Ht. destruct (w_live w !! ctx) eqn:El.
    + by destruct (live_inv _ _ _ Hw El) as (_ & ? & _).
    + by destruct (absent_inv _ _ Hw El Ht).
Qed.

(** C3: Backend exclusivity. Two different threads that each own a claim never
    have calls outstanding on the same backend session, so no release,
    cancel or reconcile overlaps the configure of the same session id. *)
Theorem backend_calls_disjoint s fid1 fid2 th1 th2 se1 se2 :
  reach s -> fid1 <> fid2 ->
  s_threads s !! fid1 = Some th1 -> s_threads s !! fid2 = Some th2 ->
  is_Some (flight_claim (th_flight th1)) -> is_Some (flight_claim (th_flight th2)) ->
  backend_call (th_flight th1) = Some se1 -> backend_call (th_flight th2) = Some se2 ->
  se1 <> se2.
Proof.
  intros Hi%inv_reachable Hne H1 H2 [[c1 k1] Hc1] [[c2 k2] Hc2] Hb1 Hb2 ->.
  destruct (call_of_claim _ _ _ _ _ _ Hi H1 Hc1 Hb1) as [g1 ->].
  destruct (call_of_claim _ _ _ _ _ _ Hi H2 Hc2 Hb2) as [g2 E].
  apply session_id_inj in E as [-> _]. apply Hne.
  eapply (ip_unique _ _ Hi); [by exists th1|by exists th2].
Qed.
End Reachable.

(** ** Concrete runs *)
Definition f64_demo : F64 :=
  {| f64_of_u64 := Z.to_N; f64_div := N.div; f64_ge := fun a b => (b <=? a)%N |}.
Definition demo_resolved (lease : LeaseId) : Resolved :=
  mkResolved 1 lease 3 (mkEntry (Some "gpt") (Some EHigh) None) (mkCaps true true true false false).
Definition demo_run : list Event -> Sys := run (@step f64_demo None 600) (empty_sys 0).
Definition demo_checkout (fid : N) (c : ContextId) (lease : LeaseId) : list Event :=
  [Call (OpRequest (QCheckout c "codex" None None)); Resume fid (OLock []);
   Resume fid (OResolve (Ok (demo_resolved lease)))].
(** Context [c] has run one turn and is idle again. *)
Definition demo_idle : list Event :=
  demo_checkout 0 "c" 7 ++ [Resume 0 (OResult (Ok tt));
    Call (OpRequest (QFinish "c" 0 "turn-2")); Resume 1 (OLock [])].

Lemma demo_reachable es : reachable (@step f64_demo None 600) initial (demo_run es).
Proof. exists (empty_sys 0), es. split; [apply empty_sys_initial|done]. Qed.

Definition demo_key : Key := KLive "h-0" Configuring (Some "turn-1") "ctx-c-g0".

(** The context is [Configuring], owned by the thread of its checkout; after
    the caller dropped that future, owned by no thread. *)
Lemma claims_have_one_owner_witness :
  (exists fid, claims (demo_run (demo_checkout 0 "c" 7)) fid "c" demo_key
               /\ forall fid' k', claims (demo_run (demo_checkout 0 "c" 7)) fid' "c" k' -> fid' = fid)
  /\ (forall fid k, ~ claims (demo_run (demo_checkout 0 "c" 7 ++ [Drop 0])) fid "c" k).
Proof.
  split.
  - destruct (proj1 (@claims_have_one_owner f64_demo None 600 (demo_run (demo_checkout 0 "c" 7)) "c"
                       demo_key (demo_reachable _))) as [(fid & Hc & Hu & _)|(_ & i & f & Hl & _)].
    + vm_compute. reflexivity.
    + exists fid. by split.
    + by destruct i.
  - destruct (proj1 (@claims_have_one_owner f64_demo None 600 (demo_run (demo_checkout 0 "c" 7 ++ [Drop 0])) "c"
                       demo_key (demo_reachable _))) as [(fid & _ & _ & Hs)|[Hn _]].
    + vm_compute. reflexivity.
    + destruct (Hs demo_key). vm_compute. by left.
    + exact Hn.
Defined.

Lemma settle_finds_its_claim_witness :
  exists h, still_ours (s_world (demo_run (demo_checkout 0 "c" 7))) "c" "h-0" Configuring = Some h
            /\ h_session h = "ctx-c-g0" /\ (Configuring = Configuring -> h_op h = Some "turn-1").
Proof.
  refine (proj1 (@settle_finds_its_claim f64_demo None 600 (demo_run (demo_checkout 0 "c" 7)) 0
                   (mkThread (FConfigure "c" "h-0" "turn-1" "ctx-c-g0") FrPrune) (demo_reachable _) _)
            "c" "h-0" Configuring (Some "turn-1") "ctx-c-g0" _); vm_compute; reflexivity.
Defined.

Lemma table_consistent_witness :
  exists h, w_live (s_world (demo_run demo_idle)) !! "c" = Some h
            /\ h_session h = session_id "c" (h_generation h) /\ h_op h = None.
Proof.
  destruct (w_live (s_world (demo_run demo_idle)) !! "c") as [h|] eqn:E; [|vm_compute in E; done].
  exists h. pose proof (proj1 (@table_consistent f64_demo None 600 (demo_run demo_idle) "c"
                                 (demo_reachable _)) h E) as (_ & _ & Hs & Hi & _).
  split; [done|]. split; [exact Hs|]. apply Hi. vm_compute in E. injection E as <-. reflexivity.
Defined.

(** Two contexts configured at the same time. *)
Lemma backend_calls_disjoint_witness : "ctx-c-g0" <> "ctx-d-g0".
Proof.
  refine (@backend_calls_disjoint f64_demo None 600
            (demo_run (demo_checkout 0 "c" 7 ++ demo_checkout 1 "d" 8)) 0 1
            (mkThread (FConfigure "c" "h-0" "turn-1" "ctx-c-g0") FrPrune)
            (mkThread (FConfigure "d" "h-1" "turn-2" "ctx-d-g0") FrPrune) _ _ (demo_reachable _)
            _ _ _ _ _ _ _); try (vm_compute; reflexivity); try (by eexists). done.
Defined.

(** A keep-warm cancel left the token of its turn on the idle handle. *)
Definition demo_lingering : list Event :=
  demo_checkout 0 "c" 7 ++ [Resume 0 (OResult (Ok tt));
    Call (OpRequest (QCancel "c" None true)); Resume 1 (OLock []); Resume 1 (OResult (Ok tt))].
Definition demo_world (es : list Event) : World := s_world (demo_run es).
Definition demo_token : TurnAbort := mkTurnAbort "turn-2" 0.

(** Read the handle of context [c] of a concrete world. *)
Ltac demo_handle w h E :=
  destruct (w_live w !! "c") as [h|] eqn:E; [|vm_compute in E; discriminate].
Ltac demo_side E := vm_compute in E; injection E as <-; vm_compute; first [reflexivity|by left].

Lemma armed_intent_bars_successor_witness :
  exists c w', checkout_existing_turn (H := f64_demo) None "c" (demo_world (demo_lingering ++ [Arm 0]))
               = (Err SessionExpired, Some c, w').
Proof.
  demo_handle (demo_world (demo_lingering ++ [Arm 0])) h E.
  destruct (@armed_intent_bars_successor f64_demo None "c" (demo_world (demo_lingering ++ [Arm 0])) h
              demo_token E) as (c & w' & Hc & _).
  - vm_compute; reflexivity.
  - demo_side E.
  - demo_side E.
  - demo_side E.
  - vm_compute; reflexivity.
  - exists c, w'. exact Hc.
Defined.

Lemma successor_ignores_late_arm_witness :
  exists turn c w', checkout_existing_turn (H := f64_demo) None "c" (demo_world demo_lingering) = (Ok turn, c, w')
                    /\ arm_intent 0 w' = w'.
Proof.
  demo_handle (demo_world demo_lingering) h E.
  destruct (checkout_existing_turn (H := f64_demo) None "c" (demo_world demo_lingering)) as [[r c] w'] eqn:Er.
  destruct r as [turn|]; [|vm_compute in Er; discriminate]. exists turn, c, w'. split; [done|].
  apply (@successor_ignores_late_arm f64_demo None "c" (demo_world demo_lingering) turn c w' h demo_token Er E).
  demo_side E.
Defined.

Lemma turn_takes_pending_work_witness :
  exists turn c w', checkout_existing_turn (H := f64_demo) None "c" (demo_world demo_idle) = (Ok turn, c, w')
                    /\ wt_session turn = "ctx-c-g0".
Proof.
  demo_handle (demo_world demo_idle) h E.
  destruct (checkout_existing_turn (H := f64_demo) None "c" (demo_world demo_idle)) as [[r c] w'] eqn:Er.
  destruct r as [turn|]; [|vm_compute in Er; discriminate]. exists turn, c, w'. split; [done|].
  destruct (@turn_takes_pending_work f64_demo None "c" (demo_world demo_idle) turn c w' h Er E)
    as (_ & _ & Hs & _). rewrite Hs. demo_side E.
Defined.

Lemma stale_finish_is_inert_witness :
  exists h, w_live (demo_world demo_lingering) !! "c" = Some h
            /\ exists h', finish_owned_turn "c" 5 "turn-2" (demo_world demo_lingering)
                          = (None, put_live "c" h' (demo_world demo_lingering)).
Proof.
  demo_handle (demo_world demo_lingering) h E. exists h. split; [done|].
  destruct (stale_finish_is_inert "c" 5 "turn-2" (demo_world demo_lingering) h E) as (h' & Hf & _).
  - left. vm_compute in E. injection E as <-. vm_compute. discriminate.
  - exists h'. exact Hf.
Defined.

Lemma release_paths_fire_tokens_witness :
  exists c w', claim_release "c" true (demo_world demo_lingering) = (Some c, w')
               /\ is_cancelled w' 0 = true.
Proof.
  demo_handle (demo_world demo_lingering) h E.
  destruct (claim_release "c" true (demo_world demo_lingering)) as [[c|] w'] eqn:Er;
    [|vm_compute in Er; discriminate]. exists c, w'. split; [done|].
  refine (proj1 (@release_paths_fire_tokens f64_demo None "c" (demo_world demo_lingering) h demo_token E _ _)
            true c w' Er); [vm_compute; reflexivity|demo_side E].
Defined.

(** The cleanup of a released context failed. *)
Definition demo_failed : list Event :=
  demo_idle ++ [Call (OpRequest (QRelease "c")); Resume 2 (OLock []); Resume 2 (OCleanup (Err FrameError));
                Resume 2 (OLock []); Resume 2 (OLock [])].

Lemma cleanup_failure_is_retryable_witness :
  exists c w1, claim_release "c" false (demo_world demo_failed) = (Some c, w1) /\ ec_claim_id c = 2%N.
Proof.
  destruct (cleanup_failure_is_retryable "c" (demo_world demo_failed)
              (mkTombstone 0 "turn-3" 1 (TCleanupFailed "warm.cleanup.release_failed"))
              "warm.cleanup.release_failed" (mkRetry 1 "ctx-c-g0")) as (c & w1 & Hc & _ & Hid & _);
    try (vm_compute; reflexivity).
  exists c, w1. split; [exact Hc|]. rewrite Hid. vm_compute. reflexivity.
Defined.

(** A child registered under [p] is claimed by the release of [p]. *)
Definition demo_child : list Event :=
  [Call (OpChildren (OpChild (mkChildArgs "p" "c" "codex" None None))); Resume 0 (OLock []);
   Resume 0 (OLock []); Resume 0 (OResolve (Ok (demo_resolved 7))); Resume 0 (OResult (Ok tt))].

Lemma demo_slots_ok es : slots_ok (demo_world es).
Proof. exact (ip_slots _ _ (@inv_reachable f64_demo None 600 _ (demo_reachable es))). Qed.

Lemma release_with_children_sweeps_witness :
  exists cs w', release_with_children "p" (demo_world demo_child) = (cs, w') /\ length cs = 1%nat
                /\ swept w' "c".
Proof.
  destruct (release_with_children "p" (demo_world demo_child)) as [cs w'] eqn:E. exists cs, w'.
  split; [done|]. split; [vm_compute in E; injection E as <- _; reflexivity|].
  apply (release_with_children_sweeps "p" (demo_world demo_child) cs w' "c" (demo_slots_ok _) E).
  right. vm_compute. reflexivity.
Defined.

Lemma reap_takes_only_expired_idle_witness :
  exists cs w', reap_commit 600 700 ["c"] (demo_world demo_idle) = (cs, w') /\ w_live w' !! "c" = None.
Proof.
  demo_handle (demo_world demo_idle) h E.
  destruct (reap_commit 600 700 ["c"] (demo_world demo_idle)) as [cs w'] eqn:Er. exists cs, w'. split; [done|].
  refine (proj1 (proj1 (reap_takes_only_expired_idle 600 700 ["c"] (demo_world demo_idle) cs w' "c" h Er E) _ _)).
  - demo_side E.
  - by left.
Defined.

Lemma children_holder_never_blocks_witness :
  exists th, s_threads (demo_run (take 3 demo_child)) !! 0%N = Some th
             /\ needs_children (th_flight th) = false.
Proof.
  refine (proj1 (@children_holder_never_blocks f64_demo None 600 (demo_run (take 3 demo_child)) 0
                   (demo_reachable _) _)). vm_compute. reflexivity.
Defined.

Lemma resume_decreases_rank_witness :
  match s_threads (step (H := f64_demo) None 600 (demo_run (take 2 (demo_checkout 0 "c" 7)))
          (Resume 0 (OResolve (Ok (demo_resolved 7))))) !! 0%N with
  | Some th' => (thread_rank th' < 3)%nat
  | None => True
  end.
Proof.
  refine (@resume_decreases_rank f64_demo None 600 (demo_run (take 2 (demo_checkout 0 "c" 7))) 0
            (mkThread (FResolve "c" "codex" None None false) FrPrune)
            (OResolve (Ok (demo_resolved 7))) (demo_reachable _) _ _ _ _ _); try done.
Defined.

(** The one release outside the ownership protocol:
    [expire_retired_idle_child] removes a retired idle child without leaving a
    tombstone and then releases its backend session with no lock held. A plain
    checkout of the same context can meanwhile claim it afresh, and then a
    [configure_session] and a [release_session] of the same session id are in
    flight together, which the comment in [checkout_turn_inner] calls a race
    that can corrupt the new session. *)
Theorem child_release_races_configure :
  exists s fid1 fid2 se,
    reachable (@step f64_demo None 600) initial s /\ fid1 <> fid2
    /\ (exists fr, s_threads s !! fid1 = Some (mkThread (FChildRelease "c" se) fr))
    /\ (exists hid claim fr, s_threads s !! fid2 = Some (mkThread (FConfigure "c" hid claim se) fr)).
Proof.
  exists (demo_run (demo_idle ++ [Retire 7%N;
     Call (OpChildren (OpChild (mkChildArgs "p" "c" "codex" None None)));
     Resume 2 (OLock []); Resume 2 (OLock []); Resume 2 (OLock [])] ++ demo_checkout 3 "c" 8)),
    2%N, 3%N, "ctx-c-g0".
  split; [apply demo_reachable|]. split; [done|].
  split.
  - exists (FrChildExpire (mkChildArgs "p" "c" "codex" None None) []). vm_compute. reflexivity.
  - exists "h-1", "turn-3", FrPrune. vm_compute. reflexivity.
Qed.

(** Dropping the future of a forced clear while the old session is being
    cancelled (a disconnected client, a request timeout) leaves the context
    [Resetting] with no owner, and nothing that runs later changes that. *)
Theorem dropped_clear_strands_context :
  exists s k, reachable (@step f64_demo None 600) initial s
    /\ k = KLive "h-0" Resetting None "ctx-c-g0"
    /\ forall es, let s' := run (@step f64_demo None 600) s es in
         slot_claim (slot (s_world s') "c") = Some k /\ forall fid k', ~ claims s' fid "c" k'.
Proof.
  exists (demo_run (demo_idle ++ [Call (OpRequest (QReset "c" true)); Resume 2 (OLock []); Resume 2 (OLock []);
                                  Drop 2])), (KLive "h-0" Resetting None "ctx-c-g0").
  split; [apply demo_reachable|]. split; [done|]. intros es.
  apply stranded_claim_stays; [apply demo_reachable|]. vm_compute. by left.
Qed.

(** Compaction releases the old session without firing the abort tokens
    that a keep-warm cancel left on the handle, although
    [fire_lingering_turn_abort] documents that every releasing path fires them
    first: here the session is being released, and its turn's token is
    neither cancelled nor finished. *)
Theorem compact_release_skips_abort_tokens :
  exists s fid h t plan fr,
    reachable (@step f64_demo None 600) initial s
    /\ s_threads s !! fid = Some (mkThread (FCompactRelease "c" plan "summary") fr)
    /\ w_live (s_world s) !! "c" = Some h /\ h_session h = rp_old plan
    /\ t ∈ h_turn_aborts h /\ is_cancelled (s_world s) (ta_token t) = false.
Proof.
  pose (es := demo_checkout 0 "c" 7 ++ [Resume 0 (OResult (Ok tt));
     Call (OpRequest (QCancel "c" None true)); Resume 1 (OLock []); Resume 1 (OResult (Ok tt));
     Call (OpRequest (QCompact "c" (Some (mkSnapshot "h-0" 0 "codex" (mkConfig (Some "gpt") (Some EHigh) None)))));
     Resume 2 (OLock []); Resume 2 (OSummary (Some (Ok "summary")))]).
  destruct (w_live (s_world (demo_run es)) !! "c") as [h|] eqn:E; [|vm_compute in E; done].
  exists (demo_run es), 2%N, h, (mkTurnAbort "turn-2" 0).
  exists (mkPlan 1 "ctx-c-g0" "h-0" 1 "ctx-c-g1" (mkConfig (Some "gpt") (Some EHigh) None) None), FrPrune.
  split; [apply demo_reachable|]. split; [vm_compute; reflexivity|].
  split; [done|]. vm_compute in E. injection E as <-. split; [reflexivity|].
  split; [by left|vm_compute; reflexivity].
Qed.
