(* ===== verification/TurnLiveness.v ===== *)
(** * Turn liveness: the silence cutoff, the work cutoff and the liveness board

    [bridge-core/src/turn_liveness.rs]. The tracker is a state record with one
    function per observation; the time of an observation is an argument, as in
    the code, and a turn is a list of timed observations. The SHA-256 digest
    that keys the open-tool table is a parameter (it comes from the [ring]
    crate); the theorems that speak about raw tool ids assume that no two of
    the ids observed in the turn collide. The board of in-flight turns is parametric in the probe, an
    instance of the class [TurnLivenessProbe]. *)
From S2P Require Import Prelude Domain.
Open Scope Z_scope.
Open Scope bridge_scope.

Definition DEFAULT_WORK_CUTOFF_MS : Z := 7200000.
Definition DEFAULT_SILENCE_CUTOFF_MS : Z := 1800000.
Definition MAX_LIVENESS_SECS : Z := 30 * 24 * 3600.
Definition MAX_OPEN_TOOL_CALLS : nat := 4096.
Definition TOOL_ID_PREVIEW_MAX_BYTES : nat := 64.
Definition TOOL_TITLE_MAX_BYTES : nat := 128.
Definition SNAPSHOT_OPEN_TOOLS_MAX : nat := 8.

(** ** Durations *)
Inductive LivenessOverride := LivenessOff | LivenessMs (ms : Z).
#[global] Instance liveness_override_eq_dec : EqDecision LivenessOverride.
Proof. solve_decision. Defined.

Inductive LivenessDurationError := TooLong (secs : Z).
#[global] Instance liveness_duration_error_eq_dec : EqDecision LivenessDurationError.
Proof. solve_decision. Defined.

Definition parse_liveness_secs_v1 (secs : Z) : result LivenessOverride LivenessDurationError :=
  if secs =? 0 then Ok LivenessOff
  else if MAX_LIVENESS_SECS <? secs then Err (TooLong secs)
  else ok_or (LivenessMs <$> checked_mul secs 1000) (TooLong secs).

Inductive TurnLivenessValue := Inherit | ValueOff | ValueMs (ms : Z).

Record TurnLivenessRequest := mkLivenessRequest {
  lr_silence : TurnLivenessValue;
  lr_work_cutoff : TurnLivenessValue;
  lr_client_watching : bool;
  lr_observer_key : option string }.

Record AgentLivenessConfig := mkAgentLiveness {
  al_silence_cutoff : option LivenessOverride;
  al_work_cutoff : option LivenessOverride }.

Record ResolvedTurnLiveness := mkResolvedLiveness {
  silence_ms : option Z;
  work_cutoff_ms : option Z }.

Definition resolve_value (request : TurnLivenessValue) (agent : option LivenessOverride)
    (default : option Z) : option Z :=
  let ms :=
    match request with
    | ValueOff => None
    | ValueMs ms => Some ms
    | Inherit =>
        match agent with
        | Some LivenessOff => None
        | Some (LivenessMs ms) => Some ms
        | None => default
        end
    end in
  match ms with Some m => if m =? 0 then None else Some m | None => None end.

Definition resolve_turn_liveness_v1 (request : TurnLivenessRequest)
    (agent : option AgentLivenessConfig) : ResolvedTurnLiveness :=
  let silence_default := Some DEFAULT_SILENCE_CUTOFF_MS in
  let work_default := if lr_client_watching request then None else Some DEFAULT_WORK_CUTOFF_MS in
  {| silence_ms := resolve_value (lr_silence request) (agent ≫= al_silence_cutoff) silence_default;
     work_cutoff_ms := resolve_value (lr_work_cutoff request) (agent ≫= al_work_cutoff) work_default |}.

(** ** Observations *)
Inductive TurnLivenessCause := LegacyWatchdog | WorkCutoff | Silence.
#[global] Instance turn_liveness_cause_eq_dec : EqDecision TurnLivenessCause.
Proof. solve_decision. Defined.

(** The cost amount is kept as its IEEE bits, as [f64::to_bits] gives them. *)
Record UsageTotalsKey := mkUsageKey {
  uk_used : Z; uk_size : Z; uk_cost : option (Z * string) }.
#[global] Instance usage_totals_key_eq_dec : EqDecision UsageTotalsKey.
Proof. solve_decision. Defined.

Inductive ToolCallPhase := Pending | InProgress | Completed | Failed.

Record ToolObservation := mkToolObservation {
  raw_id : string; to_status : option ToolCallPhase;
  to_title : option string; to_kind : option string }.

Inductive TurnActivity :=
| Update
| Usage (key : UsageTotalsKey)
| Tool (tool : ToolObservation).

Record OpenTool := mkOpenTool {
  id_preview : string; ot_title : string; ot_kind : string; opened_ms : Z }.

Record TurnLivenessTransition := mkTransition {
  tr_counted : bool; tr_unpaused : bool; tr_overflowed : bool }.
Definition no_transition : TurnLivenessTransition := mkTransition false false false.

(** ** Bounded display text

    [str::is_char_boundary]: the start, the end, or a byte that is not a UTF-8
    continuation byte (0x80 to 0xBF). *)
Definition is_char_boundary (text : string) (i : nat) : bool :=
  if (i =? 0)%nat then true else
  match String.get i text with
  | Some c => negb ((128 <=? Ascii.N_of_ascii c) && (Ascii.N_of_ascii c <? 192))%N
  | None => (i =? String.length text)%nat
  end.

(** The [while] loop that lowers [end]; it stops at 0 at the latest. *)
Fixpoint floor_boundary (text : string) (stop : nat) : nat :=
  if is_char_boundary text stop then stop
  else match stop with S stop' => floor_boundary text stop' | O => O end.

Definition bounded (text : string) (max_bytes : nat) : string :=
  String.substring 0 (floor_boundary text (Nat.min (String.length text) max_bytes)) text.

(** ** The tracker *)
Section Tracker.
Context {K : Type} `{Countable K}.
(** [ring::digest::digest(&SHA256, _)]. *)
Context (digest : string -> K).

Record TurnLivenessTracker := mkTracker {
  resolved : ResolvedTurnLiveness;
  last_activity_ms : Z;
  last_unpause_ms : Z;
  open : gmap K OpenTool;
  open_capacity : nat;
  open_overflowed : bool;
  pending_permissions : Z;
  last_usage : option UsageTotalsKey }.

Definition with_open_tool_capacity (r : ResolvedTurnLiveness) (capacity : nat) : TurnLivenessTracker :=
  mkTracker r 0 0 ∅ capacity false 0 None.

Definition new_tracker (r : ResolvedTurnLiveness) : TurnLivenessTracker :=
  with_open_tool_capacity r MAX_OPEN_TOOL_CALLS.

Definition paused (self : TurnLivenessTracker) : bool :=
  bool_decide (open self <> ∅) || open_overflowed self || (0 <? pending_permissions self).

Definition set_open (self : TurnLivenessTracker) (o : gmap K OpenTool) : TurnLivenessTracker :=
  mkTracker (resolved self) (last_activity_ms self) (last_unpause_ms self) o (open_capacity self)
    (open_overflowed self) (pending_permissions self) (last_usage self).
Definition set_overflowed (self : TurnLivenessTracker) : TurnLivenessTracker :=
  mkTracker (resolved self) (last_activity_ms self) (last_unpause_ms self) (open self)
    (open_capacity self) true (pending_permissions self) (last_usage self).
Definition set_permissions (self : TurnLivenessTracker) (p : Z) : TurnLivenessTracker :=
  mkTracker (resolved self) (last_activity_ms self) (last_unpause_ms self) (open self)
    (open_capacity self) (open_overflowed self) p (last_usage self).
Definition set_usage (self : TurnLivenessTracker) (u : option UsageTotalsKey) : TurnLivenessTracker :=
  mkTracker (resolved self) (last_activity_ms self) (last_unpause_ms self) (open self)
    (open_capacity self) (open_overflowed self) (pending_permissions self) u.
Definition set_clocks (self : TurnLivenessTracker) (activity unpause : Z) : TurnLivenessTracker :=
  mkTracker (resolved self) activity unpause (open self)
    (open_capacity self) (open_overflowed self) (pending_permissions self) (last_usage self).

Definition counted (now_ms : Z) (was_paused overflowed : bool) (self : TurnLivenessTracker)
  : TurnLivenessTransition * TurnLivenessTracker :=
  let unpaused := was_paused && negb (paused self) in
  let activity := Z.max (last_activity_ms self) now_ms in
  let unpause := if unpaused then Z.max (last_unpause_ms self) now_ms else last_unpause_ms self in
  (mkTransition true unpaused overflowed, set_clocks self activity unpause).

Definition observe_tool (now_ms : Z) (tool : ToolObservation) (self : TurnLivenessTracker)
  : bool * TurnLivenessTracker :=
  let key := digest (raw_id tool) in
  match to_status tool with
  | Some (Pending | InProgress) =>
      match open self !! key with
      | Some o =>
          let title := from_option (fun t => bounded t TOOL_TITLE_MAX_BYTES) (ot_title o) (to_title tool) in
          let kind := from_option (fun k => bounded k TOOL_TITLE_MAX_BYTES) (ot_kind o) (to_kind tool) in
          (false, set_open self (<[key := mkOpenTool (id_preview o) title kind (opened_ms o)]> (open self)))
      | None =>
          if (open_capacity self <=? size (open self))%nat
          then (negb (open_overflowed self), set_overflowed self)
          else (false, set_open self
                 (<[key := mkOpenTool (bounded (raw_id tool) TOOL_ID_PREVIEW_MAX_BYTES)
                             (bounded (default "?" (to_title tool)) TOOL_TITLE_MAX_BYTES)
                             (bounded (default "?" (to_kind tool)) TOOL_TITLE_MAX_BYTES)
                             now_ms]> (open self)))
      end
  | Some (Completed | Failed) => (false, set_open self (delete key (open self)))
  | None => (false, self)
  end.

Definition observe (now_ms : Z) (activity : TurnActivity) (self : TurnLivenessTracker)
  : TurnLivenessTransition * TurnLivenessTracker :=
  let was_paused := paused self in
  match activity with
  | Update => counted now_ms was_paused false self
  | Usage key =>
      if bool_decide (last_usage self = Some key) then (no_transition, self)
      else counted now_ms was_paused false (set_usage self (Some key))
  | Tool tool =>
      let (overflowed, self) := observe_tool now_ms tool self in
      counted now_ms was_paused overflowed self
  end.

Definition permission_arrived (now_ms : Z) (self : TurnLivenessTracker)
  : TurnLivenessTransition * TurnLivenessTracker :=
  counted now_ms (paused self) false
    (set_permissions self (saturating_add (pending_permissions self) 1)).

Definition permission_resolved (now_ms : Z) (self : TurnLivenessTracker)
  : TurnLivenessTransition * TurnLivenessTracker :=
  counted now_ms (paused self) false
    (set_permissions self (saturating_sub (pending_permissions self) 1)).

Definition silence_due_ms (self : TurnLivenessTracker) : option Z :=
  if paused self then None
  else silence_ms (resolved self) ≫= checked_add (Z.max (last_activity_ms self) (last_unpause_ms self)).

Definition work_due_ms (self : TurnLivenessTracker) : option Z := work_cutoff_ms (resolved self).

(** [Option::is_some_and(|due| now_ms >= due)]. *)
Definition is_due (now_ms : Z) (due : option Z) : bool :=
  match due with Some d => d <=? now_ms | None => false end.

Definition due_cause (now_ms : Z) (legacy_watchdog_due : bool) (self : TurnLivenessTracker)
  : option TurnLivenessCause :=
  if legacy_watchdog_due then Some LegacyWatchdog
  else if is_due now_ms (work_due_ms self) then Some WorkCutoff
  else if is_due now_ms (silence_due_ms self) then Some Silence
  else None.

(** ** Snapshots *)
Record OpenToolSnapshot := mkToolSnapshot {
  os_title : string; os_kind : string; os_age_ms : Z }.

Record TurnLivenessSnapshot := mkSnapshot {
  sn_turn_id : string;
  sn_agent : string;
  sn_elapsed_ms : Z;
  sn_last_activity_age_ms : Z;
  sn_open_tool_count : Z;
  sn_open_tools : list OpenToolSnapshot;
  sn_open_overflowed : bool;
  sn_pending_permissions : Z;
  sn_paused : bool;
  sn_silence_cutoff_ms : option Z;
  sn_work_cutoff_ms : option Z }.

Definition older (a b : OpenTool) : bool :=
  (opened_ms a <? opened_ms b)
  || ((opened_ms a =? opened_ms b) && str_leb (id_preview a) (id_preview b)).

(** The iteration order of the hash map is the order of [map_to_list]; it only
    shows between tools opened at the same instant with the same preview. *)
Definition snapshot (now_ms : Z) (agent : string) (self : TurnLivenessTracker) : TurnLivenessSnapshot :=
  let tools := sort_by older (snd <$> map_to_list (open self)) in
  {| sn_turn_id := "";
     sn_agent := agent;
     sn_elapsed_ms := now_ms;
     sn_last_activity_age_ms := saturating_sub now_ms (last_activity_ms self);
     sn_open_tool_count := Z.min (Z.of_nat (size (open self))) u64_max;
     sn_open_tools :=
       (fun t => mkToolSnapshot (ot_title t) (ot_kind t) (saturating_sub now_ms (opened_ms t)))
         <$> take SNAPSHOT_OPEN_TOOLS_MAX tools;
     sn_open_overflowed := open_overflowed self;
     sn_pending_permissions := pending_permissions self;
     sn_paused := paused self;
     sn_silence_cutoff_ms := silence_ms (resolved self);
     sn_work_cutoff_ms := work_cutoff_ms (resolved self) |}.

(** ** Turns as timed observation sequences *)
Inductive Observation :=
| Observe (a : TurnActivity)
| PermissionArrived
| PermissionResolved.

Definition track (self : TurnLivenessTracker) (e : Z * Observation) : TurnLivenessTracker :=
  match e.2 with
  | Observe a => snd (observe e.1 a self)
  | PermissionArrived => snd (permission_arrived e.1 self)
  | PermissionResolved => snd (permission_resolved e.1 self)
  end.

(** *** What the history says, independently of the tracker.

    A history lists the latest observation first. *)
Definition tool_phase (id : string) (e : Z * Observation) : option ToolCallPhase :=
  match e.2 with
  | Observe (Tool t) => if bool_decide (raw_id t = id) then to_status t else None
  | _ => None
  end.

Definition opens (p : ToolCallPhase) : bool :=
  match p with Pending | InProgress => true | Completed | Failed => false end.

(** A tool call is open when its latest reported status is an open one. *)
Fixpoint tool_open (h : list (Z * Observation)) (id : string) : bool :=
  match h with
  | [] => false
  | e :: h' => match tool_phase id e with Some p => opens p | None => tool_open h' id end
  end.

(** Permission requests still waiting; a resolution without request is ignored. *)
Fixpoint permissions_waiting (h : list (Z * Observation)) : Z :=
  match h with
  | [] => 0
  | (_, PermissionArrived) :: h' => permissions_waiting h' + 1
  | (_, PermissionResolved) :: h' => Z.max (permissions_waiting h' - 1) 0
  | _ :: h' => permissions_waiting h'
  end.

Fixpoint latest_usage (h : list (Z * Observation)) : option UsageTotalsKey :=
  match h with
  | [] => None
  | (_, Observe (Usage k)) :: _ => Some k
  | _ :: h' => latest_usage h'
  end.

(** An observation is activity unless it repeats the latest usage totals. *)
Fixpoint activity_times (h : list (Z * Observation)) : list Z :=
  match h with
  | [] => []
  | (t, o) :: h' =>
      match o with
      | Observe (Usage k) =>
          if bool_decide (latest_usage h' = Some k) then activity_times h' else t :: activity_times h'
      | _ => t :: activity_times h'
      end
  end.

Definition raw_ids (h : list (Z * Observation)) : list string :=
  omap (fun e => match e.2 with Observe (Tool t) => Some (raw_id t) | _ => None end) h.

(** The tool calls that are open, each once. *)
Definition open_ids (h : list (Z * Observation)) : list string :=
  filter (fun id => tool_open h id = true) (remove_dups (raw_ids h)).

(** A tool call was opened while [cap] others were open. *)
Fixpoint overflows (cap : nat) (h : list (Z * Observation)) : bool :=
  match h with
  | [] => false
  | e :: h' =>
      overflows cap h'
      || match e.2 with
         | Observe (Tool t) =>
             match to_status t with
             | Some p => opens p && negb (tool_open h' (raw_id t)) && (cap <=? length (open_ids h'))%nat
             | None => false
             end
         | _ => false
         end
  end.

(** No two of the observed ids have the same digest. *)
Definition collision_free (h : list (Z * Observation)) : Prop :=
  forall a b, a ∈ raw_ids h -> b ∈ raw_ids h -> digest a = digest b -> a = b.

(** *** The tracker follows the history *)
Definition max_time (ts : list Z) : Z := foldr Z.max 0 ts.

Lemma max_time_le ts n : max_time ts <= n <-> Forall (fun t => t <= n) (0 :: ts).
Proof.
  rewrite Forall_cons. induction ts as [|t ts IH]; simpl; [by rewrite Forall_nil; intuition lia|].
  rewrite Forall_cons, Z.max_lub_iff. fold (max_time ts). rewrite IH. tauto.
Qed.

(** The digests of the tool ids seen so far bound the open-tool table. *)
Definition seen (h : list (Z * Observation)) : gset K := list_to_set (digest <$> raw_ids h).

Record follows (r : ResolvedTurnLiveness) (cap : nat) (h : list (Z * Observation))
    (t : TurnLivenessTracker) : Prop := {
  fo_resolved : resolved t = r;
  fo_capacity : open_capacity t = cap;
  fo_activity : last_activity_ms t = max_time (activity_times h);
  fo_unpause : last_unpause_ms t <= last_activity_ms t;
  fo_usage : last_usage t = latest_usage h;
  fo_permissions : pending_permissions t = permissions_waiting h;
  fo_size : (size (open t) <= cap)%nat;
  fo_seen : dom (open t) ⊆ seen h;
  fo_overflow : open_overflowed t = true -> (cap < size (seen h))%nat;
  fo_open : collision_free h -> open_overflowed t = overflows cap h /\
            (overflows cap h = false -> forall id, id ∈ raw_ids h -> is_Some (open t !! digest id) <-> tool_open h id = true) }.

Lemma permissions_waiting_bound h : 0 <= permissions_waiting h <= Z.of_nat (length h).
Proof. induction h as [|[t []] h IH]; simpl; lia. Qed.

(** [counted] advances the activity clock to the observation, and the unpause
    clock never overtakes it. *)
Lemma counted_fields now was ov t :
  let t' := snd (counted now was ov t) in
  resolved t' = resolved t /\ open_capacity t' = open_capacity t /\ open t' = open t
  /\ open_overflowed t' = open_overflowed t /\ pending_permissions t' = pending_permissions t
  /\ last_usage t' = last_usage t /\ last_activity_ms t' = Z.max (last_activity_ms t) now
  /\ (last_unpause_ms t <= last_activity_ms t -> last_unpause_ms t' <= last_activity_ms t').
Proof. simpl. repeat split. destruct (was && _); lia. Qed.

Lemma follows_new r cap : follows r cap [] (with_open_tool_capacity r cap).
Proof.
  split; simpl; try done; try lia.
  - rewrite map_size_empty. lia.
  - intros _. split; [done|]. intros _ id Hid. by apply elem_of_nil in Hid.
Qed.

Lemma seen_other e h :
  (forall t, e.2 <> Observe (Tool t)) -> seen (e :: h) = seen h.
Proof. destruct e as [n [[| |t]| |]]; intros Hn; try done. by destruct (Hn t). Qed.

Lemma seen_tool n t h : seen ((n, Observe (Tool t)) :: h) = {[digest (raw_id t)]} ∪ seen h.
Proof. done. Qed.

Lemma tool_open_other e h id :
  (forall t, e.2 <> Observe (Tool t)) -> tool_open (e :: h) id = tool_open h id.
Proof. destruct e as [n [[| |t]| |]]; intros Hn; try done. by destruct (Hn t). Qed.

(** The open-tool table and its overflow flag agree with a history. *)
Record tools_ok (cap : nat) (h : list (Z * Observation)) (t : TurnLivenessTracker) : Prop := {
  tk_size : (size (open t) <= cap)%nat;
  tk_seen : dom (open t) ⊆ seen h;
  tk_overflow : open_overflowed t = true -> (cap < size (seen h))%nat;
  tk_open : collision_free h -> open_overflowed t = overflows cap h /\
            (overflows cap h = false -> forall id, id ∈ raw_ids h -> is_Some (open t !! digest id) <-> tool_open h id = true) }.

Lemma follows_tools r cap h t : follows r cap h t -> tools_ok cap h t.
Proof. intros []. by split. Qed.

Lemma raw_ids_other e h : (forall t, e.2 <> Observe (Tool t)) -> raw_ids (e :: h) = raw_ids h.
Proof. destruct e as [n [[| |t]| |]]; intros Hn; try done. by destruct (Hn t). Qed.

Lemma overflows_other cap e h : (forall t, e.2 <> Observe (Tool t)) -> overflows cap (e :: h) = overflows cap h.
Proof. destruct e as [n [[| |t]| |]]; intros Hn; simpl; try apply orb_false_r. by destruct (Hn t). Qed.

Lemma collision_free_tail e h : collision_free (e :: h) -> collision_free h.
Proof. intros Hc a b Ha Hb. apply Hc; destruct e as [n [[| |t]| |]]; try done; by right. Qed.

Lemma tool_open_seen h id : tool_open h id = true -> id ∈ raw_ids h.
Proof.
  induction h as [|[n o] h IH]; [done|]. simpl. unfold tool_phase. simpl. destruct o as [[|k|t]| |]; simpl; try apply IH.
  case_bool_decide as E; [intros _; rewrite <- E; left|]. intros Ho. right. by apply IH.
Qed.

(** The table of a history without overflow, also for an id that is new. *)
Lemma table_lookup cap h t n tool :
  tools_ok cap h t -> collision_free ((n, Observe (Tool tool)) :: h) -> overflows cap h = false ->
  is_Some (open t !! digest (raw_id tool)) <-> tool_open h (raw_id tool) = true.
Proof.
  intros T Hc Ho. pose proof (proj2 (tk_open _ _ _ T (collision_free_tail _ _ Hc)) Ho) as Hop. split.
  - intros Hk. pose proof Hk as Hs. apply elem_of_dom, (tk_seen _ _ _ T), elem_of_list_to_set, list_elem_of_fmap in Hs as (id & Ed & Hid).
    assert (raw_id tool = id) as E by (apply Hc; [left|by right|done]). rewrite E in *. by apply Hop.
  - intros Ht. apply Hop; [by apply tool_open_seen|done].
Qed.

Lemma open_ids_elem h id : id ∈ open_ids h <-> tool_open h id = true.
Proof.
  unfold open_ids. rewrite list_elem_of_filter, elem_of_remove_dups. split; [tauto|]. intros Ho. split; [done|by apply tool_open_seen].
Qed.

Lemma table_size cap h t :
  tools_ok cap h t -> collision_free h -> overflows cap h = false -> size (open t) = length (open_ids h).
Proof.
  intros T Hc Ho. pose proof (proj2 (tk_open _ _ _ T Hc) Ho) as Hop. rewrite <- size_dom, <- (length_fmap digest).
  rewrite <- (size_list_to_set (C := gset K) (digest <$> open_ids h)).
  - f_equal. apply set_eq. intros k. rewrite elem_of_list_to_set, list_elem_of_fmap. split.
    + intros Hk. pose proof Hk as Hs. apply (tk_seen _ _ _ T), elem_of_list_to_set, list_elem_of_fmap in Hs as (id & -> & Hid).
      exists id. split; [done|]. apply open_ids_elem, Hop; [done|by apply elem_of_dom].
    + intros (id & -> & Hid%open_ids_elem). apply elem_of_dom, Hop; [by apply tool_open_seen|done].
  - apply NoDup_fmap_2_strong; [|apply NoDup_filter, NoDup_remove_dups].
    intros x y Hx%open_ids_elem Hy%open_ids_elem. apply Hc; by apply tool_open_seen.
Qed.

(** An open call that the table does not hold and has room for does not overflow it; one that it has
    no room for does. *)
Lemma overflows_open cap h t n tool p :
  tools_ok cap h t -> to_status tool = Some p -> opens p = true -> collision_free ((n, Observe (Tool tool)) :: h) ->
  overflows cap ((n, Observe (Tool tool)) :: h) =
    open_overflowed t || (bool_decide (open t !! digest (raw_id tool) = None) && (cap <=? size (open t))%nat).
Proof.
  intros T Ep Hp Hc. destruct (tk_open _ _ _ T (collision_free_tail _ _ Hc)) as [-> _]. cbn [overflows snd]. rewrite Ep, Hp.
  destruct (overflows cap h) eqn:Ho; [done|]. cbn [orb andb]. pose proof (table_lookup cap h t n tool T Hc Ho) as Hl.
  rewrite (table_size cap h t T (collision_free_tail _ _ Hc) Ho). f_equal. destruct (tool_open h (raw_id tool)) eqn:Et; simpl; symmetry.
  - apply bool_decide_eq_false. destruct (proj2 Hl eq_refl) as [o ->]. done.
  - apply bool_decide_eq_true. destruct (open t !! digest (raw_id tool)) as [o|] eqn:El; [|done]. by discriminate (proj1 Hl ltac:(eauto)).
Qed.


Lemma tools_ok_other cap e h t t' :
  tools_ok cap h t -> (forall tool, e.2 <> Observe (Tool tool)) ->
  open t' = open t -> open_overflowed t' = open_overflowed t -> tools_ok cap (e :: h) t'.
Proof.
  intros T Hn Ho Hv. destruct T as [H1 H2 H3 H4]. split; rewrite ?Ho, ?Hv, ?seen_other by done; try done.
  intros Hc%collision_free_tail. destruct (H4 Hc) as [E Hop]. rewrite overflows_other, raw_ids_other by done. split; [done|].
  intros Hf id. rewrite tool_open_other by done. auto.
Qed.

Lemma follows_counted r cap e h t t1 was ov :
  follows r cap h t -> resolved t1 = resolved t -> open_capacity t1 = open_capacity t ->
  last_activity_ms t1 = last_activity_ms t -> last_unpause_ms t1 = last_unpause_ms t ->
  activity_times (e :: h) = e.1 :: activity_times h ->
  last_usage t1 = latest_usage (e :: h) ->
  pending_permissions t1 = permissions_waiting (e :: h) ->
  tools_ok cap (e :: h) t1 ->
  follows r cap (e :: h) (snd (counted e.1 was ov t1)).
Proof.
  intros F Hr Hc Ha Hu Ht Hus Hp [].
  destruct (counted_fields e.1 was ov t1) as (E1 & E2 & E3 & E4 & E5 & E6 & E7 & E8).
  destruct F. split; rewrite ?E1, ?E2, ?E3, ?E4, ?E5, ?E6; try done; try congruence.
  - rewrite E7, Ht, Ha, fo_activity0. simpl. unfold max_time. lia.
  - apply E8. lia.
Qed.

Lemma tool_open_same t n h id p :
  to_status t = Some p -> raw_id t = id -> tool_open ((n, Observe (Tool t)) :: h) id = opens p.
Proof. intros E <-. unfold tool_open, tool_phase; simpl. by rewrite bool_decide_eq_true_2, E by done. Qed.

Lemma tool_open_distinct t n h id :
  raw_id t <> id -> tool_open ((n, Observe (Tool t)) :: h) id = tool_open h id.
Proof. intros E. simpl. unfold tool_phase; simpl. by rewrite bool_decide_eq_false_2 by done. Qed.

(** A table that is full without the new key has seen more tools than fit. *)
Lemma overflow_seen (o : gmap K OpenTool) h n tool :
  dom o ⊆ seen h -> o !! digest (raw_id tool) = None ->
  forall cap, (cap <= size o)%nat -> (cap < size (seen ((n, Observe (Tool tool)) :: h)))%nat.
Proof.
  intros Hs El cap Hle. rewrite seen_tool.
  assert (Hsub : {[digest (raw_id tool)]} ∪ dom o ⊆ {[digest (raw_id tool)]} ∪ seen h)
    by (apply union_mono_l, Hs).
  apply subseteq_size in Hsub.
  rewrite (size_union {[_]} (dom o)), size_singleton, size_dom in Hsub; [lia|].
  apply disjoint_singleton_l. by apply not_elem_of_dom.
Qed.

Lemma seen_mono e h : seen h ⊆ seen (e :: h).
Proof. destruct e as [n [[| |t]| |]]; try done. rewrite seen_tool. apply union_subseteq_r. Qed.

Lemma tools_put cap h t t' n tool p o :
  tools_ok cap h t -> to_status tool = Some p -> opens p = true ->
  (open t !! digest (raw_id tool) = None -> (size (open t) < cap)%nat) ->
  open t' = <[digest (raw_id tool) := o]> (open t) -> open_overflowed t' = open_overflowed t ->
  tools_ok cap ((n, Observe (Tool tool)) :: h) t'.
Proof.
  intros T Ep Hpo Hlt Eo Ev. pose proof T as [Hsz Hseen Hov Hop]. split; rewrite ?Eo, ?Ev.
  - rewrite map_size_insert. destruct (open t !! _); simpl; [done|]. specialize (Hlt eq_refl). lia.
  - rewrite dom_insert_L, seen_tool. by apply union_mono_l.
  - intros Hv. specialize (Hov Hv).
    pose proof (subseteq_size _ _ (seen_mono (n, Observe (Tool tool)) h)). lia.
  - intros Hc. rewrite (overflows_open cap h t n tool p) by done. destruct (Hop (collision_free_tail _ _ Hc)) as [Ev' Hop'].
    assert (bool_decide (open t !! digest (raw_id tool) = None) && (cap <=? size (open t))%nat = false) as ->.
    { case_bool_decide as El; [|done]. simpl. apply Nat.leb_gt. by apply Hlt. }
    rewrite orb_false_r. split; [done|]. rewrite Ev'. intros Hf id Hid. destruct (decide (raw_id tool = id)) as [E|E].
    + rewrite (tool_open_same _ _ _ _ p), Hpo by done. subst. rewrite lookup_insert_eq. by split; eauto.
    + assert (id ∈ raw_ids h) by (by apply elem_of_cons in Hid as [->|]). assert (digest (raw_id tool) <> digest id) by (intros Ed; by apply E, (Hc _ _ (list_elem_of_here _ _) Hid)). rewrite tool_open_distinct, lookup_insert_ne by done. auto.
Qed.

Lemma tools_full cap h t n tool p :
  tools_ok cap h t -> to_status tool = Some p -> opens p = true -> open t !! digest (raw_id tool) = None -> (cap <= size (open t))%nat ->
  tools_ok cap ((n, Observe (Tool tool)) :: h) (set_overflowed t).
Proof.
  intros T Ep Hpo El Hle. pose proof T as [Hsz Hseen Hov Hop].
  split; cbn [open open_overflowed set_overflowed]; try done; [etrans; [exact Hseen|apply seen_mono]| |].
  - intros _. by apply (overflow_seen (open t)).
  - intros Hc. rewrite (overflows_open cap h t n tool p), bool_decide_eq_true_2, (proj2 (Nat.leb_le _ _)), orb_true_r by done. done.
Qed.

Lemma tools_gone cap h t n tool p :
  tools_ok cap h t -> to_status tool = Some p -> opens p = false ->
  tools_ok cap ((n, Observe (Tool tool)) :: h) (set_open t (delete (digest (raw_id tool)) (open t))).
Proof.
  intros [Hsz Hseen Hov Hop] Ep Hpo. split; cbn [open open_overflowed set_open].
  - rewrite map_size_delete. destruct (open t !! _); simpl; lia.
  - rewrite dom_delete_L. etrans; [|apply seen_mono]. etrans; [|exact Hseen].
    by apply subseteq_difference_l.
  - intros Hv. specialize (Hov Hv).
    pose proof (subseteq_size _ _ (seen_mono (n, Observe (Tool tool)) h)). lia.
  - intros Hc. destruct (Hop (collision_free_tail _ _ Hc)) as [Ev Hop']. cbn [overflows snd]. rewrite Ep, Hpo, orb_false_r. split; [done|].
    intros Hf id Hid. destruct (decide (raw_id tool = id)) as [E|E].
    + rewrite (tool_open_same _ _ _ _ p), Hpo by done. subst. rewrite lookup_delete_eq. by split; [intros []|].
    + assert (id ∈ raw_ids h) by (by apply elem_of_cons in Hid as [->|]). assert (digest (raw_id tool) <> digest id) by (intros Ed; by apply E, (Hc _ _ (list_elem_of_here _ _) Hid)). rewrite tool_open_distinct, lookup_delete_ne by done. auto.
Qed.

Lemma tools_silent cap h t n tool :
  tools_ok cap h t -> to_status tool = None -> tools_ok cap ((n, Observe (Tool tool)) :: h) t.
Proof.
  intros T Ep. pose proof T as [Hsz Hseen Hov Hop]. split; try done; [etrans; [exact Hseen|apply seen_mono]| |].
  - intros Hv. specialize (Hov Hv).
    pose proof (subseteq_size _ _ (seen_mono (n, Observe (Tool tool)) h)). lia.
  - intros Hc. destruct (Hop (collision_free_tail _ _ Hc)) as [Ev Hop']. cbn [overflows snd]. rewrite Ep, orb_false_r. split; [done|].
    intros Hf id Hid. simpl. unfold tool_phase; simpl. rewrite Ep.
    assert (is_Some (open t !! digest id) <-> tool_open h id = true) as E; [|by destruct (bool_decide _)].
    apply elem_of_cons in Hid as [->|Hid]; [by apply (table_lookup cap h t n)|auto].
Qed.

(** Recording a tool observation keeps the table in step with the history. *)
Lemma observe_tool_ok cap h t n tool :
  tools_ok cap h t -> open_capacity t = cap ->
  tools_ok cap ((n, Observe (Tool tool)) :: h) (snd (observe_tool n tool t)).
Proof.
  intros T Hcap. unfold observe_tool. destruct (to_status tool) as [[]|] eqn:Ep; simpl.
  1,2: destruct (open t !! digest (raw_id tool)) as [o|] eqn:El; simpl;
       [eapply tools_put; rewrite ?El; done|].
  1,2: destruct (Nat.leb_spec (open_capacity t) (size (open t))); simpl;
       [eapply tools_full; [done..|lia]|eapply tools_put; rewrite ?Hcap in *; done].
  1,2: by eapply tools_gone.
  by apply tools_silent.
Qed.

Lemma observe_tool_frame n tool t :
  let t' := snd (observe_tool n tool t) in
  resolved t' = resolved t /\ open_capacity t' = open_capacity t
  /\ last_activity_ms t' = last_activity_ms t /\ last_unpause_ms t' = last_unpause_ms t
  /\ last_usage t' = last_usage t /\ pending_permissions t' = pending_permissions t.
Proof. unfold observe_tool. repeat case_match; simpl; auto 10. Qed.

(** Equal raw ids have equal digests. *)
Lemma seen_size h : (size (seen h) <= length (remove_dups (raw_ids h)))%nat.
Proof.
  unfold seen. transitivity (size (list_to_set (C:=gset K) (digest <$> remove_dups (raw_ids h)))).
  - apply subseteq_size. intros k. rewrite !elem_of_list_to_set, !list_elem_of_fmap.
    intros (id & -> & Hid). exists id. by rewrite elem_of_remove_dups.
  - rewrite <- (length_fmap digest). apply size_list_to_set_le.
Qed.

Lemma follows_track r cap h t e :
  Z.of_nat (length h) < u64_max -> follows r cap h t -> follows r cap (e :: h) (track t e).
Proof.
  intros Hlen F. pose proof (follows_tools _ _ _ _ F) as T.
  pose proof (permissions_waiting_bound h). pose proof (fo_permissions _ _ _ _ F) as Hp.
  destruct e as [n [[|k|tool]| |]]; unfold track, observe, permission_arrived, permission_resolved;
    cbn [fst snd].
  - apply (follows_counted _ _ (n, Observe Update) _ t _ _ false); try done; try apply F.
    by apply (tools_ok_other _ _ _ t).
  - rewrite (fo_usage _ _ _ _ F). case_bool_decide as E.
    + destruct F. split; rewrite ?seen_other by done; try done; simpl;
        [by rewrite bool_decide_eq_true_2|congruence|rewrite orb_false_r; exact fo_open0].
    + apply (follows_counted _ _ (n, Observe (Usage k)) _ t _ _ false); try done;
        [simpl; by rewrite bool_decide_eq_false_2|by apply (tools_ok_other _ _ _ t)].
  - destruct (observe_tool n tool t) as [ov t1] eqn:E. cbn [snd].
    destruct (observe_tool_frame n tool t) as (E1 & E2 & E3 & E4 & E5 & E6).
    rewrite E in *. simpl in *.
    apply (follows_counted _ _ (n, Observe (Tool tool)) _ t _ _ ov); try done.
    + rewrite E5. apply F.
    + rewrite E6. apply F.
    + replace t1 with (snd (observe_tool n tool t)) by (by rewrite E).
      apply observe_tool_ok; [done|apply F].
  - apply (follows_counted _ _ (n, PermissionArrived) _ t _ _ false); try done; [apply F| |by apply (tools_ok_other _ _ _ t)].
    simpl. rewrite Hp. machine.
  - apply (follows_counted _ _ (n, PermissionResolved) _ t _ _ false); try done; [apply F| |by apply (tools_ok_other _ _ _ t)].
    simpl. rewrite Hp. machine.
Qed.

Lemma follows_run r cap es :
  Z.of_nat (length es) <= u64_max ->
  follows r cap (reverse es) (run track (with_open_tool_capacity r cap) es).
Proof.
  induction es as [|e es IH] using rev_ind; intros Hlen; [apply follows_new|].
  rewrite length_app in Hlen. simpl in Hlen.
  rewrite run_snoc, reverse_app. apply follows_track; [|apply IH]; rewrite ?length_reverse; lia.
Qed.

Lemma gmap_digest_empty r cap h t :
  follows r cap h t -> collision_free h -> overflows cap h = false ->
  (open t = ∅ <-> forall id, tool_open h id = false).
Proof.
  intros F Hi Hf. pose proof (proj2 (fo_open _ _ _ _ F Hi) Hf) as Ho. split.
  - intros E id. destruct (tool_open h id) eqn:Et; [|done]. apply Ho in Et; [|by apply tool_open_seen]. rewrite E, lookup_empty in Et.
    by destruct Et.
  - intros Hall. apply map_empty. intros k. destruct (open t !! k) eqn:El; [|done].
    assert (Hk : k ∈ seen h) by (apply (fo_seen _ _ _ _ F), elem_of_dom; eauto).
    unfold seen in Hk. apply elem_of_list_to_set, list_elem_of_fmap in Hk as (id & -> & Hid).
    assert (Hs : is_Some (open t !! digest id)) by eauto. apply Ho in Hs; [|done]. by rewrite Hall in Hs.
Qed.

(** When the silence cutoff is due, as a statement about the history alone: no
    tool call is open, no permission request waits, and the last activity (the
    start of the turn counts) is at least [silence] ago. *)
Definition silent_since (h : list (Z * Observation)) (silence now_ms : Z) : Prop :=
  (forall id, tool_open h id = false) /\ permissions_waiting h = 0
  /\ Forall (fun t => t + silence <= now_ms) (0 :: activity_times h).

Lemma silence_due_anchor r cap h t :
  follows r cap h t -> silence_due_ms t =
    if paused t then None else silence_ms r ≫= checked_add (max_time (activity_times h)).
Proof.
  intros F. unfold silence_due_ms. rewrite (fo_resolved _ _ _ _ F), <- (fo_activity _ _ _ _ F).
  pose proof (fo_unpause _ _ _ _ F). by rewrite Z.max_l by lia.
Qed.

Lemma silent_since_max h silence now_ms :
  Forall (fun t => t + silence <= now_ms) (0 :: activity_times h)
  <-> max_time (activity_times h) + silence <= now_ms.
Proof.
  transitivity (max_time (activity_times h) <= now_ms - silence); [|lia].
  rewrite max_time_le. split; intros Hf; (eapply Forall_impl; [exact Hf|]); simpl; lia.
Qed.

Lemma is_due_silence r cap h t silence now_ms :
  follows r cap h t -> silence_ms r = Some silence -> is_u64 now_ms ->
  is_due now_ms (silence_due_ms t) = true <->
  paused t = false /\ max_time (activity_times h) + silence <= now_ms.
Proof.
  intros F Hs Hn. rewrite (silence_due_anchor _ _ _ _ F), Hs. destruct (paused t); simpl; [by intuition|].
  unfold is_u64, checked_add in *. destruct (Z.leb_spec (max_time (activity_times h) + silence) u64_max); simpl;
    rewrite ?Z.leb_le; intuition lia.
Qed.

(** C36: the silence cutoff is exact. For every turn observed by a fresh tracker
    whose tool ids do not collide under the digest, it is due exactly when the
    history has been silent for the whole bound, with no tool call open and no
    permission request waiting, and no tool call was ever opened while the
    table's capacity of others was open: after such an overflow it is never
    due. While no more tool ids than the capacity were seen, there is none. *)
Theorem silence_cutoff_exact r cap es silence now_ms :
  collision_free (reverse es) -> silence_ms r = Some silence -> is_u64 now_ms ->
  Z.of_nat (length es) <= u64_max ->
  let t := run track (with_open_tool_capacity r cap) es in
  (is_due now_ms (silence_due_ms t) = true <->
   silent_since (reverse es) silence now_ms /\ overflows cap (reverse es) = false)
  /\ ((length (remove_dups (raw_ids (reverse es))) <= cap)%nat -> overflows cap (reverse es) = false).
Proof.
  intros Hi Hs Hn Hlen t. pose proof (follows_run r cap es Hlen) as F. fold t in F.
  destruct (fo_open _ _ _ _ F Hi) as [Ev _]. split.
  - rewrite (is_due_silence _ _ _ _ _ _ F Hs Hn). unfold silent_since. rewrite silent_since_max.
    unfold paused. rewrite (fo_permissions _ _ _ _ F), Ev, !orb_false_iff, bool_decide_eq_false, Z.ltb_ge.
    pose proof (permissions_waiting_bound (reverse es)). pose proof (gmap_digest_empty _ _ _ _ F Hi) as Ho. split.
    + intros [[[He Hf] Hp] Hm]. split_and!; [|lia|done|done]. apply Ho; [done|]. by apply dec_stable.
    + intros [(Ht & Hp & Hm) Hf]. split_and!; [|done|lia|done]. intros Hne. by apply Hne, Ho.
  - intros Hids. rewrite <- Ev. destruct (open_overflowed t) eqn:E; [|done]. apply (fo_overflow _ _ _ _ F) in E.
    pose proof (seen_size (reverse es)). lia.
Qed.

(** Overflow of the open-tool table is one-way and safe. The table never
    holds more than its capacity, and after an overflow no later observation
    can make the silence cutoff the cause that ends the turn. *)
Theorem overflow_never_silences r cap es es' now_ms legacy :
  Z.of_nat (length (es ++ es')) <= u64_max ->
  open_overflowed (run track (with_open_tool_capacity r cap) es) = true ->
  let t := run track (with_open_tool_capacity r cap) (es ++ es') in
  (size (open t) <= cap)%nat /\ due_cause now_ms legacy t <> Some Silence.
Proof.
  intros Hlen Hov t. split; [apply (fo_size _ _ _ _ (follows_run r cap _ Hlen))|].
  assert (Hp : open_overflowed t = true).
  { unfold t. rewrite run_app. apply (run_invariant _ (fun t => open_overflowed t = true)); [|done].
    clear. intros t e E. unfold track, observe, observe_tool, permission_arrived, permission_resolved.
    repeat case_match; simplify_eq/=; done. }
  unfold due_cause, silence_due_ms, paused. rewrite Hp, orb_true_r. simpl. by repeat case_match.
Qed.

End Tracker.
Arguments track {K _ _} _ _ _.

(** ** Bounded display text *)
Lemma floor_boundary_spec text n :
  (floor_boundary text n <= n)%nat /\ is_char_boundary text (floor_boundary text n) = true.
Proof.
  induction n as [|n IH]; simpl; [done|].
  destruct (is_char_boundary text (S n)) eqn:E; [done|]. destruct IH. split; [lia|done].
Qed.

Lemma floor_boundary_greatest text n k :
  (floor_boundary text n < k <= n)%nat -> is_char_boundary text k = false.
Proof.
  induction n as [|n IH]; simpl; [lia|].
  destruct (is_char_boundary text (S n)) eqn:E; [lia|]. intros Hk.
  destruct (decide (k = S n)) as [->|]; [done|]. apply IH. lia.
Qed.

Lemma substring_prefix n text :
  (n <= String.length text)%nat ->
  String.length (String.substring 0 n text) = n
  /\ exists rest, text = String.substring 0 n text +:+ rest.
Proof.
  revert text; induction n as [|n IH]; intros [|c text]; simpl; try lia; try by eauto.
  intros Hn. destruct (IH text ltac:(lia)) as [El [rest Er]]. split; [by rewrite El|].
  exists rest. rewrite Er at 1. done.
Qed.

(** Display truncation never cuts a character: the kept text is a prefix of
    at most the byte bound that ends at a character boundary, and it is the
    longest such prefix. *)
Theorem bounded_longest_prefix text max_bytes :
  let kept := bounded text max_bytes in
  (exists rest, text = kept +:+ rest)
  /\ (String.length kept <= max_bytes)%nat
  /\ is_char_boundary text (String.length kept) = true
  /\ forall k, (String.length kept < k)%nat -> (k <= max_bytes)%nat ->
       (k <= String.length text)%nat -> is_char_boundary text k = false.
Proof.
  unfold bounded. set (stop := Nat.min (String.length text) max_bytes).
  destruct (floor_boundary_spec text stop) as [Hle Hb].
  destruct (substring_prefix (floor_boundary text stop) text) as [El Hp]; [lia|].
  rewrite El. split_and!; [done|lia|done|].
  intros k H1 H2 H3. apply (floor_boundary_greatest _ stop). lia.
Qed.

(** ** The board of in-flight turns

    [TurnLivenessProbeV1]: what a registered turn promises to the board. *)
Class TurnLivenessProbe (P : Type) := probe_snapshot : P -> TurnLivenessSnapshot.

Section Board.
Context {P : Type} `{TurnLivenessProbe P}.

Record BoardEntry := mkBoardEntry { serial : Z; turn_id : string; probe : P }.
Record TurnLivenessBoard := mkBoard { next_serial : Z; turns : gmap string (list BoardEntry) }.

Definition empty_board : TurnLivenessBoard := mkBoard 0 ∅.

(** [register] takes a serial from the atomic counter first and inserts the
    entry under the lock afterwards, so two registrations may interleave. *)
Definition alloc_serial (b : TurnLivenessBoard) : Z * TurnLivenessBoard :=
  (next_serial b, mkBoard ((next_serial b + 1) mod (u64_max + 1)) (turns b)).

Definition push_entry (key : string) (e : BoardEntry) (b : TurnLivenessBoard) : TurnLivenessBoard :=
  mkBoard (next_serial b) (<[key := default [] (turns b !! key) ++ [e]]> (turns b)).

(** Dropping a [TurnLivenessRegistrationV1]. *)
Definition drop_registration (key : string) (s : Z) (b : TurnLivenessBoard) : TurnLivenessBoard :=
  match turns b !! key with
  | None => b
  | Some entries =>
      let entries := filter (fun e => serial e <> s) entries in
      mkBoard (next_serial b)
        (if bool_decide (entries = []) then delete key (turns b) else <[key := entries]> (turns b))
  end.

Definition with_turn_id (id : string) (s : TurnLivenessSnapshot) : TurnLivenessSnapshot :=
  mkSnapshot id (sn_agent s) (sn_elapsed_ms s) (sn_last_activity_age_ms s) (sn_open_tool_count s)
    (sn_open_tools s) (sn_open_overflowed s) (sn_pending_permissions s) (sn_paused s)
    (sn_silence_cutoff_ms s) (sn_work_cutoff_ms s).

Definition board_snapshot (key : string) (b : TurnLivenessBoard) : list TurnLivenessSnapshot :=
  (fun e => with_turn_id (turn_id e) (probe_snapshot (probe e))) <$> default [] (turns b !! key).

(** *** Abstract board: the list of live turns in the order they were inserted,
    and the serials taken but not inserted yet. *)
Record LiveTurns := mkLive { al_next : Z; al_taken : list Z; al_live : list (string * BoardEntry) }.

Inductive BoardEvent :=
| BTake                                          (* the counter of one [register] call *)
| BInsert (key : string) (s : Z) (id : string) (p : P)   (* its insertion *)
| BDrop (key : string) (s : Z).                  (* its registration is dropped *)

(** An insertion uses a serial its thread has taken; a drop belongs to a live
    registration. Anything else cannot happen and changes nothing. *)
Definition allowed (a : LiveTurns) (ev : BoardEvent) : bool :=
  match ev with
  | BTake => true
  | BInsert _ s _ _ => bool_decide (s ∈ al_taken a)
  | BDrop key s => bool_decide ((key, s) ∈ (fun ke : string * BoardEntry => (ke.1, serial ke.2)) <$> al_live a)
  end.

Definition live_step (a : LiveTurns) (ev : BoardEvent) : LiveTurns :=
  if allowed a ev then
    match ev with
    | BTake => mkLive (al_next a + 1) (al_next a :: al_taken a) (al_live a)
    | BInsert key s id p =>
        mkLive (al_next a) (filter (fun x => x <> s) (al_taken a))
          (al_live a ++ [(key, mkBoardEntry s id p)])
    | BDrop key s => mkLive (al_next a) (al_taken a) (filter (fun ke => serial ke.2 <> s) (al_live a))
    end
  else a.

Definition board_step (ab : LiveTurns * TurnLivenessBoard) (ev : BoardEvent)
  : LiveTurns * TurnLivenessBoard :=
  (live_step ab.1 ev,
   if allowed ab.1 ev then
     match ev with
     | BTake => snd (alloc_serial ab.2)
     | BInsert key s id p => push_entry key (mkBoardEntry s id p) ab.2
     | BDrop key s => drop_registration key s ab.2
     end
   else ab.2).

Definition live_under (key : string) (live : list (string * BoardEntry)) : list BoardEntry :=
  snd <$> filter (fun ke => ke.1 = key) live.

Record board_inv (a : LiveTurns) (b : TurnLivenessBoard) : Prop := {
  bi_next : next_serial b = al_next a;
  bi_fresh : Forall (fun s => 0 <= s < al_next a) (al_taken a ++ ((fun ke => serial ke.2) <$> al_live a));
  bi_nodup : NoDup (al_taken a ++ ((fun ke => serial ke.2) <$> al_live a));
  bi_turns : forall key, turns b !! key =
    match live_under key (al_live a) with [] => None | l => Some l end }.

Lemma live_under_snoc key k e live :
  live_under key (live ++ [(k, e)]) = live_under key live ++ (if decide (k = key) then [e] else []).
Proof.
  unfold live_under. rewrite filter_app, fmap_app. f_equal.
  rewrite filter_cons, filter_nil. simpl. by destruct (decide (k = key)).
Qed.

Lemma live_under_filter key (Q : BoardEntry -> Prop) `{forall e, Decision (Q e)} live :
  live_under key (filter (fun ke => Q ke.2) live) = filter Q (live_under key live).
Proof.
  unfold live_under. induction live as [|[k e] live IH]; [done|].
  destruct (decide (Q e)) as [HQ|HQ]; destruct (decide (k = key)) as [E|E];
    repeat first [rewrite filter_cons_True by done | rewrite filter_cons_False by done | rewrite fmap_cons];
    csimpl; repeat first [rewrite filter_cons_True by done | rewrite filter_cons_False by done];
    rewrite ?IH; done.
Qed.

Lemma elem_of_live_under key e live : e ∈ live_under key live <-> (key, e) ∈ live.
Proof.
  unfold live_under. rewrite list_elem_of_fmap. split.
  - intros ([k e'] & -> & [? ?]%list_elem_of_filter). by simplify_eq/=.
  - intros He. exists (key, e). by rewrite list_elem_of_filter.
Qed.

Lemma board_inv_empty : board_inv (mkLive 0 [] []) empty_board.
Proof. split; simpl; try done. constructor. Qed.

Lemma board_inv_take a b :
  al_next a < u64_max -> 0 <= al_next a -> board_inv a b ->
  board_inv (live_step a BTake) (snd (alloc_serial b)).
Proof.
  intros Hlt H0 [Hn Hf Hd Ht]. split; simpl; try done.
  - rewrite Hn. apply Z.mod_small. lia.
  - constructor; [lia|]. eapply Forall_impl; [exact Hf|]. simpl; lia.
  - constructor; [|done]. intros Hin. rewrite Forall_forall in Hf. specialize (Hf _ Hin). lia.
Qed.

Lemma board_inv_insert a b key s id p :
  s ∈ al_taken a -> board_inv a b ->
  board_inv (live_step a (BInsert key s id p)) (push_entry key (mkBoardEntry s id p) b).
Proof.
  intros Hin [Hn Hf Hd Ht]. unfold live_step; simpl. rewrite bool_decide_eq_true_2 by done.
  apply Forall_app in Hf as [Hf1 Hf2]. apply NoDup_app in Hd as (Hd1 & Hd2 & Hd3).
  split; simpl; try done.
  - rewrite fmap_app, !Forall_app. split_and!; [|done|].
    + rewrite Forall_forall in Hf1 |- *. intros x [_ Hx]%list_elem_of_filter. by apply Hf1.
    + rewrite Forall_forall in Hf1. repeat constructor; by apply Hf1.
  - rewrite fmap_app. apply NoDup_app. split_and!; [by apply NoDup_filter| |].
    + intros x [Hx Hxt]%list_elem_of_filter. rewrite elem_of_app; csimpl; rewrite list_elem_of_singleton.
      intros [Hl| ->]; [by apply (Hd2 x)|done].
    + apply NoDup_app. split_and!; [done| |apply NoDup_singleton].
      intros x Hx; csimpl; rewrite list_elem_of_singleton; intros ->. by apply (Hd2 s).
  - intros key'. rewrite live_under_snoc. destruct (decide (key = key')) as [<-|E].
    + rewrite lookup_insert_eq, Ht. by destruct (live_under key (al_live a)).
    + rewrite lookup_insert_ne, Ht, app_nil_r by done. done.
Qed.

Lemma board_inv_drop a b key s :
  allowed a (BDrop key s) = true -> board_inv a b ->
  board_inv (live_step a (BDrop key s)) (drop_registration key s b).
Proof.
  intros Hal [Hn Hf Hd Ht]. unfold live_step. rewrite Hal. simpl in Hal. apply bool_decide_eq_true in Hal.
  apply list_elem_of_fmap in Hal as ([k e] & E & Hin). simplify_eq/=.
  apply Forall_app in Hf as [Hf1 Hf2]. apply NoDup_app in Hd as (Hd1 & Hd2 & Hd3).
  assert (Hsub : (fun ke => serial ke.2) <$> filter (fun ke : string * BoardEntry => serial ke.2 <> serial e) (al_live a)
                 `sublist_of` (fun ke => serial ke.2) <$> al_live a)
    by (apply fmap_sublist, sublist_filter).
  split; simpl.
  - unfold drop_registration. by case_match.
  - apply Forall_app. split; [done|]. rewrite Forall_forall in *. intros x Hx. apply Hf2. by eapply elem_of_sublist.
  - apply NoDup_app. split_and!; [done| |by eapply sublist_NoDup].
    intros x Hx Hl. apply (Hd2 x Hx). by eapply elem_of_sublist.
  - intros key'. pose proof (live_under_filter key' (fun e' => serial e' <> serial e) (al_live a)) as Hlf.
    cbv beta in Hlf. setoid_rewrite Hlf. unfold drop_registration. rewrite Ht.
    destruct (live_under k (al_live a)) as [|e0 l0] eqn:El.
    { apply elem_of_live_under in Hin. rewrite El in Hin. by apply not_elem_of_nil in Hin. }
    simpl. destruct (decide (k = key')) as [<-|Hne].
    + rewrite El. case_bool_decide as Eb; simpl; [rewrite lookup_delete_eq, Eb; done|].
      lazymatch goal with |- <[_ := ?g]> _ !! _ = match ?f with _ => _ end => change f with g end.
      rewrite lookup_insert_eq. destruct (filter _ (e0 :: l0)) eqn:Ex; [|done]. by destruct Eb.
    + assert (Hkeep : filter (fun e' => serial e' <> serial e) (live_under key' (al_live a)) = live_under key' (al_live a)).
      { apply filter_all. apply Forall_forall. intros e' He' Es. apply elem_of_live_under in He'.
        pose proof (nodup_fmap_inj _ _ _ _ Hd3 Hin He' (eq_sym Es)). by simplify_eq. }
      rewrite Hkeep, <- Ht. case_bool_decide; simpl; [by rewrite lookup_delete_ne|by rewrite lookup_insert_ne].
Qed.

Lemma board_inv_run evs :
  Z.of_nat (length evs) <= u64_max ->
  let ab := run board_step (mkLive 0 [] [], empty_board) evs in
  0 <= al_next ab.1 <= Z.of_nat (length evs) /\ board_inv ab.1 ab.2.
Proof.
  induction evs as [|ev evs IH] using rev_ind; intros Hlen ab.
  { split; [done|apply board_inv_empty]. }
  rewrite length_app in Hlen. simpl in Hlen. destruct IH as [Hn IH]; [lia|].
  unfold ab. rewrite run_snoc, length_app. set (ab0 := run _ _ evs) in *. unfold board_step. simpl.
  destruct (allowed ab0.1 ev) eqn:Ea; [|split; [unfold live_step; rewrite Ea; simpl in *; lia|unfold live_step; by rewrite Ea]].
  split; [unfold live_step; rewrite Ea; destruct ev; simpl; lia|].
  destruct ev as [|key s id p|key s].
  - apply board_inv_take; [lia..|done].
  - apply board_inv_insert; [|done]. by apply bool_decide_eq_true in Ea.
  - by apply board_inv_drop.
Qed.

(** The board shows exactly the turns that are in flight. After any
    interleaving of registrations and drops, a snapshot under an observer key
    lists the live turns of that key, in the order they were inserted, and a
    key without live turns has no entry. *)
Theorem board_shows_live_turns evs key :
  Z.of_nat (length evs) <= u64_max ->
  let ab := run board_step (mkLive 0 [] [], empty_board) evs in
  board_snapshot key ab.2 =
    (fun e => with_turn_id (turn_id e) (probe_snapshot (probe e))) <$> live_under key (al_live ab.1)
  /\ (turns ab.2 !! key = None <-> live_under key (al_live ab.1) = []).
Proof.
  intros Hlen ab. destruct (board_inv_run evs Hlen) as [_ [_ _ _ Ht]]. fold ab in Ht.
  unfold board_snapshot. rewrite Ht. by destruct (live_under key (al_live ab.1)).
Qed.

End Board.

(** ** The theorems at concrete turns *)
Definition demo_liveness : ResolvedTurnLiveness :=
  resolve_turn_liveness_v1 (mkLivenessRequest (ValueMs 100) Inherit true None) None.
Definition demo_tool (id : string) (p : ToolCallPhase) : Observation :=
  Observe (Tool (mkToolObservation id (Some p) None None)).
Definition demo_turn : list (Z * Observation) :=
  [(5, demo_tool "a" Pending); (7, PermissionArrived); (9, PermissionResolved); (10, demo_tool "a" Completed)].

(** A turn whose tool call closed at 10 falls silent at 110 and not at 109. *)
Lemma silence_cutoff_exact_witness :
  let due n := is_due n (silence_due_ms (run (track id) (with_open_tool_capacity demo_liveness 4) demo_turn)) in
  silent_since (reverse demo_turn) 100 110 /\ due 110 = true /\ due 109 = false.
Proof.
  pose proof (silence_cutoff_exact id demo_liveness 4 demo_turn 100 110) as H.
  destruct H as [Hs _]; [by intros ????|reflexivity|done|vm_compute; discriminate|].
  split; [apply Hs; vm_compute; reflexivity|split; vm_compute; reflexivity].
Defined.

(** With room for one tool call, a second open call pauses the turn for good. *)
Definition demo_overflow : list (Z * Observation) := [(1, demo_tool "a" Pending); (2, demo_tool "b" Pending)].
Definition demo_closing : list (Z * Observation) := [(3, demo_tool "a" Completed); (4, demo_tool "b" Completed)].

Lemma overflow_never_silences_witness :
  let t := run (track id) (with_open_tool_capacity demo_liveness 1) (demo_overflow ++ demo_closing) in
  (size (open t) <= 1)%nat /\ due_cause 1000000 false t <> Some Silence.
Proof. apply overflow_never_silences; [vm_compute; discriminate|vm_compute; reflexivity]. Defined.

#[global] Instance demo_probe : TurnLivenessProbe Z :=
  fun now => snapshot now "agent" (with_open_tool_capacity (K:=string) demo_liveness 4).

Lemma board_shows_live_turns_witness :
  let ab := run board_step (mkLive 0 [] [], empty_board)
    [BTake; BTake; BInsert "k" 1 "second" 20; BInsert "k" 0 "first" 10; BDrop "k" 1] in
  sn_turn_id <$> board_snapshot "k" ab.2 = ["first"].
Proof.
  destruct (board_shows_live_turns
    [BTake; BTake; BInsert "k" 1 "second" 20; BInsert "k" 0 "first" 10; BDrop "k" 1] "k") as [E _];
    [vm_compute; discriminate|].
  intros ab. unfold ab. rewrite E. vm_compute. reflexivity.
Defined.
