(* ===== verification/ExecutionPolicy.v ===== *)
(** * Frozen execution policy ([bridge-core/src/execution_policy.rs])

    The liveness profiles, the resolution of a workflow's and an invocation's
    controls into one frozen record, the settlement of a node's cleanup against
    its deadline, the product table of cleanup records, and the frozen custody
    contract. SHA-256 ([ring]) and the JSON encoder ([serde_json]) are
    parameters of the contract's definitions. *)
From S2P Require Import Prelude Domain TurnLiveness.
Open Scope Z_scope.
Open Scope bridge_scope.

Definition EXECUTION_POLICY_SCHEMA_V1 : Z := 1.
Definition CLEANUP_TAIL_MS : Z := 60000.
Definition REPORTING_TAIL_MS : Z := 10000.
Definition MAX_QUALIFICATION_REASON_BYTES : nat := 512.
Definition NODE_CLEANUP_RECORD_SCHEMA_V2 : Z := 2.
Definition R2F1B_CONTRACT_SCHEMA_V1 : Z := 1.
Definition R2F1B_RESOURCE_CONTRACT_VERSION_V1 : Z := 1.

(** ** Text: the characters of UTF-8 strings *)
Definition byte_n (c : Ascii.ascii) : N := Ascii.N_of_ascii c.

(** The characters of a valid UTF-8 string, each as its bytes. *)
Fixpoint chars (s : string) : list string :=
  match s with
  | EmptyString => []
  | String a s1 =>
      if (byte_n a <? 192)%N then String a "" :: chars s1 else
      match s1 with
      | EmptyString => [String a ""]
      | String b s2 =>
          if (byte_n a <? 224)%N then String a (String b "") :: chars s2 else
          match s2 with
          | EmptyString => [s]
          | String c s3 =>
              if (byte_n a <? 240)%N then String a (String b (String c "")) :: chars s3 else
              match s3 with
              | EmptyString => [s]
              | String d s4 => String a (String b (String c (String d ""))) :: chars s4
              end
          end
      end
  end.

Definition char_bytes (c : string) : list N := byte_n <$> String.list_ascii_of_string c.

(** [char::is_whitespace], by the UTF-8 bytes of the [White_Space] characters. *)
Definition char_is_whitespace (c : string) : bool :=
  match char_bytes c with
  | [a] => bool_decide (a ∈ [9; 10; 11; 12; 13; 32]%N)
  | [a; b] => (a =? 194)%N && bool_decide (b ∈ [133; 160]%N)
  | [a; b; c] =>
      ((a =? 225)%N && (b =? 154)%N && (c =? 128)%N)
      || ((a =? 226)%N && (b =? 128)%N
          && ((128 <=? c)%N && (c <=? 138)%N || bool_decide (c ∈ [168; 169; 175]%N)))
      || ((a =? 226)%N && (b =? 129)%N && (c =? 159)%N)
      || ((a =? 227)%N && (b =? 128)%N && (c =? 128)%N)
  | _ => false
  end.

(** [char::is_control]: U+0000-U+001F and U+007F-U+009F. *)
Definition char_is_control (c : string) : bool :=
  match char_bytes c with
  | [a] => (a <? 32)%N || (a =? 127)%N
  | [a; b] => (a =? 194)%N && (b <? 160)%N
  | _ => false
  end.

Fixpoint drop_while {A} (f : A -> bool) (l : list A) : list A :=
  match l with [] => [] | x :: l' => if f x then drop_while f l' else l end.

(** [str::trim]. *)
Definition trim (s : string) : string :=
  String.concat "" (reverse (drop_while char_is_whitespace
    (reverse (drop_while char_is_whitespace (chars s))))).

(** ** Errors *)
Inductive ExecutionPolicyError :=
| ProfileTaskClassMismatch | PartialMaxQualification | MissingMaxQualification
| UnusedMaxQualification | InvalidMaxCutoff | InvalidMaxReason | FixedGraceInactive
| InvalidFixedGrace | InvalidSilenceCutoff | ArithmeticOverflow | InvalidWorktreeOwner
| WorktreeTargetOutsideRoot | InvalidSha256 | MissingProviderEffectKey
| ProviderSelectionOutOfSet | ProviderAttemptMatrixInvalid | InvalidControlEventId
| StructuredEvidenceOverBound | InvalidStructuredEvidence.
#[global] Instance execution_policy_error_eq_dec : EqDecision ExecutionPolicyError.
Proof. solve_decision. Defined.

(** ** Liveness profiles *)
Inductive LivenessProfileId := LegacyBoundedV1 | ReviewHighXhighV1.
Inductive TaskClass := TaskOther | TaskReviewHighXhigh.
#[global] Instance liveness_profile_id_eq_dec : EqDecision LivenessProfileId.
Proof. solve_decision. Defined.
#[global] Instance task_class_eq_dec : EqDecision TaskClass.
Proof. solve_decision. Defined.

Definition profile_task_class (p : LivenessProfileId) : TaskClass :=
  match p with LegacyBoundedV1 => TaskOther | ReviewHighXhighV1 => TaskReviewHighXhigh end.
Definition task_class_profile (t : TaskClass) : LivenessProfileId :=
  match t with TaskOther => LegacyBoundedV1 | TaskReviewHighXhigh => ReviewHighXhighV1 end.

Inductive SilenceCutoff := SilenceNone | SilenceAgentDefault | SilenceActivity (ms : Z).
#[global] Instance silence_cutoff_eq_dec : EqDecision SilenceCutoff.
Proof. solve_decision. Defined.

Record LivenessProfile := mkProfile {
  lp_schema_version : Z;
  lp_id : LivenessProfileId;
  queue_wait_ms : Z;
  control_observable_ms : Z;
  no_progress_snapshot_ms : Z;
  lp_silence_cutoff : SilenceCutoff;
  lp_work_cutoff_ms : Z;
  cancel_observable_ms : Z;
  cleanup_tail_ms : Z;
  reporting_tail_ms : Z;
  terminal_bound_ms : Z }.

Definition liveness_profile_v1 (id : LivenessProfileId) : LivenessProfile :=
  mkProfile EXECUTION_POLICY_SCHEMA_V1 id 1800000 31000 1800000 SilenceNone DEFAULT_WORK_CUTOFF_MS
    6000 CLEANUP_TAIL_MS REPORTING_TAIL_MS 7270000.

(** The struct update [{ silence_cutoff, ..profile }]. *)
Definition with_silence (p : LivenessProfile) (c : SilenceCutoff) : LivenessProfile :=
  mkProfile (lp_schema_version p) (lp_id p) (queue_wait_ms p) (control_observable_ms p)
    (no_progress_snapshot_ms p) c (lp_work_cutoff_ms p) (cancel_observable_ms p)
    (cleanup_tail_ms p) (reporting_tail_ms p) (terminal_bound_ms p).

Definition bounded_reason_parse (value : string) : result string ExecutionPolicyError :=
  let trimmed := trim value in
  if String.eqb trimmed "" || (MAX_QUALIFICATION_REASON_BYTES <? String.length trimmed)%nat
     || existsb (fun c => char_is_control c && negb (bool_decide (char_bytes c = [9%N]))) (chars trimmed)
  then Err InvalidMaxReason
  else Ok trimmed.

Record MaxQualification := mkMaxQualification { mq_work_cutoff_ms : Z; mq_reason : string }.

Inductive FanOutPolicy := BoundedIndependent | FailFast | FixedGrace (grace_ms : Z).
#[global] Instance fan_out_policy_eq_dec : EqDecision FanOutPolicy.
Proof. solve_decision. Defined.
Inductive SynthesisMode := SynthStrict | SynthDegraded.
Inductive ProfileSelectionSource :=
| FromInvocation | FromWorkflowProfile | FromWorkflowTaskClass | FromCompatibilityOmission.
Inductive SchedulerActivationReadiness := Disarmed | Armed.
Inductive DeadlineActivation := ManualOnlyR2f1a | AutomaticR2f1b.
Inductive PolicyActivation := Production | ManualTest.
#[global] Instance deadline_activation_eq_dec : EqDecision DeadlineActivation.
Proof. solve_decision. Defined.

Definition scheduler_activation_readiness_v1 : SchedulerActivationReadiness := Armed.

Definition deadline_activation_v2_for (readiness : SchedulerActivationReadiness)
    (policy_activation : PolicyActivation) : DeadlineActivation :=
  match readiness, policy_activation with
  | Armed, Production => AutomaticR2f1b
  | _, _ => ManualOnlyR2f1a
  end.

Record FrozenWorkflowControls := mkControls {
  fc_schema_version : Z;
  fc_task_class : TaskClass;
  fc_profile : LivenessProfile;
  fc_profile_source : ProfileSelectionSource;
  fc_max_qualification : option MaxQualification;
  fc_fan_out : FanOutPolicy;
  fc_synthesis : SynthesisMode;
  fc_deadline_activation : DeadlineActivation }.

Definition effective_work_cutoff_ms (self : FrozenWorkflowControls) : Z :=
  match fc_max_qualification self with
  | None => lp_work_cutoff_ms (fc_profile self)
  | Some q => mq_work_cutoff_ms q
  end.

Definition effective_terminal_bound_ms (self : FrozenWorkflowControls) : result Z ExecutionPolicyError :=
  ok_or (checked_add (effective_work_cutoff_ms self) (cleanup_tail_ms (fc_profile self))
           ≫= fun value => checked_add value (reporting_tail_ms (fc_profile self)))
    ArithmeticOverflow.

(** ** Resolution *)
Record WorkflowControlDefaults := mkDefaults {
  wd_task_class : option TaskClass;
  wd_liveness_profile : option LivenessProfileId;
  wd_fan_out : option FanOutPolicy;
  wd_synthesis : option SynthesisMode;
  wd_max_work_cutoff_ms : option Z;
  wd_max_reason : option string;
  wd_silence_cutoff : option LivenessOverride }.

Record ExecutionPolicyInvocation := mkInvocation {
  in_liveness_profile : option LivenessProfileId;
  in_max_work_cutoff_ms : option Z;
  in_max_reason : option string;
  in_silence_cutoff : option LivenessOverride }.

Definition checked_silence_override (value : option LivenessOverride)
  : result (option LivenessOverride) ExecutionPolicyError :=
  match value with
  | Some (LivenessMs ms) =>
      if bool_decide (parse_liveness_secs_v1 (ms / 1000) = Ok (LivenessMs ms))
      then Ok value else Err InvalidSilenceCutoff
  | _ => Ok value
  end.

(** [Option::or]. *)
Definition option_or {A} (a b : option A) : option A := match a with Some _ => a | None => b end.

Definition resolve_silence_cutoff (workflow invocation : option LivenessOverride)
    (activation : DeadlineActivation) : result SilenceCutoff ExecutionPolicyError :=
  let? workflow := checked_silence_override workflow in
  let? invocation := checked_silence_override invocation in
  Ok match activation with
     | ManualOnlyR2f1a => SilenceNone
     | AutomaticR2f1b =>
         match option_or invocation workflow with
         | None => SilenceAgentDefault
         | Some LivenessOff => SilenceNone
         | Some (LivenessMs ms) => SilenceActivity ms
         end
     end.

Definition max_qualification (cutoff : option Z) (reason : option string)
  : result (option MaxQualification) ExecutionPolicyError :=
  match cutoff, reason with
  | None, None => Ok None
  | Some _, None | None, Some _ => Err PartialMaxQualification
  | Some work_cutoff_ms, Some reason =>
      if work_cutoff_ms <=? DEFAULT_WORK_CUTOFF_MS then Err InvalidMaxCutoff
      else let? reason := bounded_reason_parse reason in
           Ok (Some (mkMaxQualification work_cutoff_ms reason))
  end.

(** The profile, its task class and where they come from. *)
Definition select_profile (workflow : WorkflowControlDefaults) (invocation : ExecutionPolicyInvocation)
  : LivenessProfileId * TaskClass * ProfileSelectionSource :=
  match in_liveness_profile invocation, wd_liveness_profile workflow, wd_task_class workflow with
  | Some p, _, _ => (p, profile_task_class p, FromInvocation)
  | None, Some p, _ => (p, profile_task_class p, FromWorkflowProfile)
  | None, None, Some t => (task_class_profile t, t, FromWorkflowTaskClass)
  | None, None, None => (LegacyBoundedV1, TaskOther, FromCompatibilityOmission)
  end.

Definition check_fixed_grace (controls : FrozenWorkflowControls) : result unit ExecutionPolicyError :=
  match fc_fan_out controls with
  | FixedGrace grace_ms =>
      if bool_decide (fc_deadline_activation controls = ManualOnlyR2f1a) then Err FixedGraceInactive
      else if (grace_ms =? 0) || (effective_work_cutoff_ms controls <? grace_ms)
      then Err InvalidFixedGrace else Ok tt
  | _ => Ok tt
  end.

Definition resolve_execution_policy_with_readiness_v1
    (workflow : WorkflowControlDefaults) (invocation : ExecutionPolicyInvocation)
    (any_max_effort : bool) (readiness : SchedulerActivationReadiness) (activation : PolicyActivation)
  : result FrozenWorkflowControls ExecutionPolicyError :=
  if match wd_task_class workflow, wd_liveness_profile workflow with
     | Some t, Some p => bool_decide (task_class_profile t <> p)
     | _, _ => false
     end
  then Err ProfileTaskClassMismatch else
  let? workflow_max := max_qualification (wd_max_work_cutoff_ms workflow) (wd_max_reason workflow) in
  let? invocation_max := max_qualification (in_max_work_cutoff_ms invocation) (in_max_reason invocation) in
  let qualification := option_or invocation_max workflow_max in
  let? _ := match any_max_effort, qualification with
            | true, None => Err MissingMaxQualification
            | false, Some _ => Err UnusedMaxQualification
            | _, _ => Ok tt
            end in
  let '(profile_id, task_class, profile_source) := select_profile workflow invocation in
  let deadline_activation := deadline_activation_v2_for readiness activation in
  let? silence := resolve_silence_cutoff (wd_silence_cutoff workflow) (in_silence_cutoff invocation)
                    deadline_activation in
  let controls :=
    {| fc_schema_version := EXECUTION_POLICY_SCHEMA_V1;
       fc_task_class := task_class;
       fc_profile := with_silence (liveness_profile_v1 profile_id) silence;
       fc_profile_source := profile_source;
       fc_max_qualification := qualification;
       fc_fan_out := default BoundedIndependent (wd_fan_out workflow);
       fc_synthesis := default SynthDegraded (wd_synthesis workflow);
       fc_deadline_activation := deadline_activation |} in
  let? _ := check_fixed_grace controls in
  let? _ := effective_terminal_bound_ms controls in
  Ok controls.

Definition resolve_execution_policy_v1 (workflow : WorkflowControlDefaults)
    (invocation : ExecutionPolicyInvocation) (any_max_effort : bool) (activation : PolicyActivation)
  : result FrozenWorkflowControls ExecutionPolicyError :=
  resolve_execution_policy_with_readiness_v1 workflow invocation any_max_effort
    scheduler_activation_readiness_v1 activation.

(** ** What a frozen control record promises *)
Definition silence_valid (v : option LivenessOverride) : Prop :=
  forall ms, v = Some (LivenessMs ms) -> 1000 <= ms <= MAX_LIVENESS_SECS * 1000 /\ ms mod 1000 = 0.

Lemma checked_silence_override_spec v r :
  (forall ms, v = Some (LivenessMs ms) -> is_u64 ms) ->
  checked_silence_override v = r ->
  (r = Ok v /\ silence_valid v) \/ (r = Err InvalidSilenceCutoff /\ ~ silence_valid v).
Proof.
  intros Hu <-. destruct v as [[|ms]|]; simpl; [by left|..|by left].
  specialize (Hu ms eq_refl). pose proof (Z.div_mod ms 1000 ltac:(lia)). pose proof (Z.mod_pos_bound ms 1000).
  assert (Hms : silence_valid (Some (LivenessMs ms)) <-> 1000 <= ms <= MAX_LIVENESS_SECS * 1000 /\ ms mod 1000 = 0).
  { unfold silence_valid. split; [auto|]. intros ? ? ?; by simplify_eq. }
  rewrite Hms. unfold parse_liveness_secs_v1, is_u64, u64_max, MAX_LIVENESS_SECS in *.
  case_bool_decide as E; [left|right]; split; try done.
  - destruct (Z.eqb_spec (ms / 1000) 0); simplify_eq.
    destruct (Z.ltb_spec (30 * 24 * 3600) (ms / 1000)); simplify_eq.
    unfold checked_mul in E. destruct (_ <=? _); simpl in E; simplify_eq. lia.
  - intros [Hr Hm]. apply E.
    destruct (Z.eqb_spec (ms / 1000) 0); [lia|].
    destruct (Z.ltb_spec (30 * 24 * 3600) (ms / 1000)); [lia|].
    unfold checked_mul, u64_max. destruct (Z.leb_spec (ms / 1000 * 1000) 18446744073709551615); simpl; [|lia].
    do 2 f_equal. lia.
Qed.

(** A workflow or invocation gives both parts of a max qualification or none. *)
Definition qualification_valid (cutoff : option Z) (reason : option string) : Prop :=
  match cutoff, reason with
  | None, None => True
  | Some c, Some r => DEFAULT_WORK_CUTOFF_MS < c /\ is_ok (bounded_reason_parse r) = true
  | _, _ => False
  end.

Lemma max_qualification_spec cutoff reason :
  match max_qualification cutoff reason with
  | Ok None => cutoff = None /\ reason = None
  | Ok (Some q) => cutoff = Some (mq_work_cutoff_ms q) /\ qualification_valid cutoff reason
  | Err _ => ~ qualification_valid cutoff reason
  end.
Proof.
  destruct cutoff as [c|], reason as [r|]; simpl; try tauto.
  destruct (Z.leb_spec c DEFAULT_WORK_CUTOFF_MS); simpl; [lia|].
  destruct (bounded_reason_parse r); simpl; [done|]. intros [_ ?]. done.
Qed.

Record policy_promise (workflow : WorkflowControlDefaults) (invocation : ExecutionPolicyInvocation)
    (any_max_effort : bool) (c : FrozenWorkflowControls) : Prop := {
  pp_class : task_class_profile (fc_task_class c) = lp_id (fc_profile c);
  pp_invocation : forall p, in_liveness_profile invocation = Some p -> lp_id (fc_profile c) = p;
  pp_workflow : in_liveness_profile invocation = None ->
    (forall p, wd_liveness_profile workflow = Some p -> lp_id (fc_profile c) = p)
    /\ (forall t, wd_task_class workflow = Some t -> fc_task_class c = t);
  pp_max : is_Some (fc_max_qualification c) <-> any_max_effort = true;
  pp_cutoff : DEFAULT_WORK_CUTOFF_MS <= effective_work_cutoff_ms c;
  pp_grace : forall g, fc_fan_out c = FixedGrace g ->
    fc_deadline_activation c = AutomaticR2f1b /\ g <> 0 /\ g <= effective_work_cutoff_ms c;
  pp_silence : forall ms, lp_silence_cutoff (fc_profile c) = SilenceActivity ms ->
    fc_deadline_activation c = AutomaticR2f1b
    /\ 1000 <= ms <= MAX_LIVENESS_SECS * 1000 /\ ms mod 1000 = 0;
  pp_bound : effective_terminal_bound_ms c
             = Ok (effective_work_cutoff_ms c + CLEANUP_TAIL_MS + REPORTING_TAIL_MS)
    /\ effective_work_cutoff_ms c + CLEANUP_TAIL_MS + REPORTING_TAIL_MS <= u64_max }.

Lemma resolve_silence_sound w i act c :
  (forall ms, w = Some (LivenessMs ms) -> is_u64 ms) -> (forall ms, i = Some (LivenessMs ms) -> is_u64 ms) ->
  resolve_silence_cutoff w i act = Ok c ->
  forall ms, c = SilenceActivity ms ->
  act = AutomaticR2f1b /\ 1000 <= ms <= MAX_LIVENESS_SECS * 1000 /\ ms mod 1000 = 0.
Proof.
  intros Hw Hi. unfold resolve_silence_cutoff.
  destruct (checked_silence_override_spec w _ Hw eq_refl) as [[-> Vw]|[-> _]]; simpl; [|done].
  destruct (checked_silence_override_spec i _ Hi eq_refl) as [[-> Vi]|[-> _]]; simpl; [|done].
  intros E ms ->. destruct act; simplify_eq. split; [done|].
  destruct i as [[|mi]|]; simpl in E; simplify_eq; [by apply Vi|].
  destruct w as [[|mw]|]; simpl in E; simplify_eq. by apply Vw.
Qed.

Lemma effective_terminal_bound_spec c :
  cleanup_tail_ms (fc_profile c) = CLEANUP_TAIL_MS -> reporting_tail_ms (fc_profile c) = REPORTING_TAIL_MS ->
  effective_terminal_bound_ms c =
    if effective_work_cutoff_ms c + CLEANUP_TAIL_MS + REPORTING_TAIL_MS <=? u64_max
    then Ok (effective_work_cutoff_ms c + CLEANUP_TAIL_MS + REPORTING_TAIL_MS) else Err ArithmeticOverflow.
Proof.
  intros E1 E2. unfold effective_terminal_bound_ms. rewrite E1, E2.
  unfold CLEANUP_TAIL_MS, REPORTING_TAIL_MS. generalize (effective_work_cutoff_ms c). intros x.
  unfold checked_add, u64_max. destruct (Z.leb_spec (x + 60000) 18446744073709551615); simpl.
  - by destruct (_ <=? _).
  - by destruct (Z.leb_spec (x + 60000 + 10000) 18446744073709551615); [lia|].
Qed.

(** C39: a resolved policy keeps its promises. When resolution accepts, the task
    class and the profile agree, the invocation overrides the workflow, a max
    qualification is present exactly for max effort and only raises the work
    cutoff, a fixed grace is armed, non-zero and inside the cutoff, an explicit
    silence bound is whole seconds up to 30 days under automatic activation,
    and the terminal bound is the cutoff plus both tails without overflow. *)
Theorem resolved_policy_promises workflow invocation any_max_effort readiness activation c :
  (forall ms, wd_silence_cutoff workflow = Some (LivenessMs ms) -> is_u64 ms) ->
  (forall ms, in_silence_cutoff invocation = Some (LivenessMs ms) -> is_u64 ms) ->
  resolve_execution_policy_with_readiness_v1 workflow invocation any_max_effort readiness activation = Ok c ->
  policy_promise workflow invocation any_max_effort c.
Proof.
  intros Hw Hi. unfold resolve_execution_policy_with_readiness_v1.
  destruct (match wd_task_class workflow with Some _ => _ | None => _ end) eqn:Etc; [done|].
  pose proof (max_qualification_spec (wd_max_work_cutoff_ms workflow) (wd_max_reason workflow)) as Qw.
  pose proof (max_qualification_spec (in_max_work_cutoff_ms invocation) (in_max_reason invocation)) as Qi.
  destruct (max_qualification (wd_max_work_cutoff_ms workflow) _) as [qw|]; simpl; [|done].
  destruct (max_qualification (in_max_work_cutoff_ms invocation) _) as [qi|]; simpl; [|done].
  assert (Hq : forall q, option_or qi qw = Some q -> DEFAULT_WORK_CUTOFF_MS < mq_work_cutoff_ms q).
  { intros q E. destruct qi as [q'|]; simpl in E; simplify_eq; [destruct Qi as [E1 E2]|destruct Qw as [E1 E2]];
      unfold qualification_valid in E2; rewrite E1 in E2; repeat case_match; naive_solver. }
  destruct (match any_max_effort with true => _ | false => _ end) as [[]|] eqn:Emax; simpl; [|done].
  destruct (select_profile workflow invocation) as [[pid tc] src] eqn:Esel.
  destruct (resolve_silence_cutoff _ _ _) as [sil|] eqn:Esil; simpl; [|done].
  set (controls := mkControls _ _ _ _ _ _ _ _).
  destruct (check_fixed_grace controls) as [[]|] eqn:Eg; simpl; [|done].
  pose proof (effective_terminal_bound_spec controls eq_refl eq_refl) as Eb. rewrite Eb.
  destruct (Z.leb_spec (effective_work_cutoff_ms controls + CLEANUP_TAIL_MS + REPORTING_TAIL_MS) u64_max);
    simpl; [|done]. intros E. injection E as <-. fold controls.
  unfold select_profile in Esel. split; try done.
  - simpl. repeat case_match; simplify_eq; by destruct_or?; try destruct pid.
  - intros p Ep. simpl. rewrite Ep in Esel. by simplify_eq.
  - intros Ep. rewrite Ep in Esel. simpl. split.
    + intros p Epp. rewrite Epp in Esel. by simplify_eq.
    + intros t Et. rewrite Et in Esel, Etc. destruct (wd_liveness_profile workflow) as [p|]; simplify_eq; [|done].
      apply bool_decide_eq_false in Etc. apply dec_stable in Etc. subst. by destruct t.
  - simpl. destruct any_max_effort, (option_or qi qw); naive_solver.
  - unfold effective_work_cutoff_ms, controls; simpl. destruct (option_or qi qw) as [q|]; [|done].
    specialize (Hq q eq_refl). lia.
  - intros g Eg'. unfold check_fixed_grace in Eg. rewrite Eg' in Eg. case_bool_decide as Ea; [done|].
    destruct (Z.eqb_spec g 0); simpl in Eg; [done|].
    destruct (Z.ltb_spec (effective_work_cutoff_ms controls) g); [done|].
    split; [|lia]. by destruct (fc_deadline_activation controls).
  - simpl. intros ms Ems. by eapply (resolve_silence_sound _ _ _ _ Hw Hi Esil).
Qed.

(** ** Node terminals and cleanup *)
Inductive NodePrimaryDisposition :=
| PrimCompleted | PrimFailed | PrimTimedOut | PrimCanceledWorkflow | PrimCanceledPolicy
| PrimCanceledNode | PrimSkippedDependency | PrimNotStartedPolicy | PrimInterruptedLegacy
| PrimDeadline.
#[global] Instance node_primary_disposition_eq_dec : EqDecision NodePrimaryDisposition.
Proof. solve_decision. Defined.

Inductive NodeCleanupDisposition := CdComplete | CdFailed | CdNotNeeded | CdUnknownLegacy.
Record NodeCleanupV1 := mkNodeCleanup { nc_disposition : NodeCleanupDisposition; nc_duration_ms : Z }.
Record DependencySetRef := mkDependencySet { ds_count : Z; ds_sha256 : string }.
Record NodeCause := mkCause {
  ca_failure_class : DiagnosticFailureClass;
  ca_code : string;
  ca_deepest_cause : option string;
  ca_cause_truncated : bool;
  ca_evidence_overflow : bool;
  ca_dependency_set : option DependencySetRef }.
#[global] Instance node_cleanup_disposition_eq_dec : EqDecision NodeCleanupDisposition.
Proof. solve_decision. Defined.
#[global] Instance node_cleanup_v1_eq_dec : EqDecision NodeCleanupV1.
Proof. solve_decision. Defined.
#[global] Instance dependency_set_ref_eq_dec : EqDecision DependencySetRef.
Proof. solve_decision. Defined.
#[global] Instance node_cause_eq_dec : EqDecision NodeCause.
Proof. solve_decision. Defined.

Record NodeTerminal := mkTerminal {
  nt_schema_version : Z;
  primary : NodePrimaryDisposition;
  nt_cleanup : NodeCleanupV1;
  nt_cause : option NodeCause;
  nt_prompt_may_have_been_accepted : bool;
  nt_degraded_ancestry : bool;
  policy_trigger_id : option string }.
#[global] Instance node_terminal_eq_dec : EqDecision NodeTerminal.
Proof. solve_decision. Defined.

Inductive WorktreePreservationDisposition := PsPending | PsPreserved | PsRemoved | PsNotNeeded | PsUnknown.
#[global] Instance preservation_disposition_eq_dec : EqDecision WorktreePreservationDisposition.
Proof. solve_decision. Defined.
Record WorktreePreservationResult := mkPreservation {
  ps_disposition : WorktreePreservationDisposition;
  ps_custody_id : option string;
  ps_claim_digest : option string }.
Inductive CollateralDisposition := ClNone | ClComplete | ClPartial | ClUnknown.
#[global] Instance collateral_disposition_eq_dec : EqDecision CollateralDisposition.
Proof. solve_decision. Defined.
Record CollateralResult := mkCollateral { cl_disposition : CollateralDisposition; affected_owner_count : Z }.

Record RecoveryOwner := mkOwner {
  ro_attempt_id : string; ro_resource_flight_id : string; ro_reason : string }.
#[global] Instance recovery_owner_eq_dec : EqDecision RecoveryOwner.
Proof. solve_decision. Defined.

Inductive NodeCleanupV2 :=
| ClnPending (resource_flight_id : string)
| ClnComplete (duration_ms : Z)
| ClnPartial (duration_ms : Z) (recovery_owner : RecoveryOwner)
| ClnFailed (duration_ms : Z) (cause : NodeCause)
| ClnNotNeeded
| ClnUnknown (duration_ms : Z) (recovery_owner : option RecoveryOwner).
#[global] Instance node_cleanup_v2_eq_dec : EqDecision NodeCleanupV2.
Proof. solve_decision. Defined.

Definition cleanup_is_pending (c : NodeCleanupV2) : bool :=
  match c with ClnPending _ => true | _ => false end.

(** The proof carried by an ownerless observation is its flight id. *)
Inductive NodeCleanupObservation :=
| ObComplete (duration_ms : Z) (owner : RecoveryOwner)
| ObFailed (duration_ms : Z) (cause : NodeCause) (owner : RecoveryOwner)
| ObNotNeeded
| ObUnsettled (duration_ms : Z) (owner : RecoveryOwner)
| ObUnsettledUnknownOwned (duration_ms : Z) (owner : RecoveryOwner)
| ObUnsettledUnknownOwnerless (duration_ms : Z) (proof : string).

Definition observation_recovery_owner (o : NodeCleanupObservation) : option RecoveryOwner :=
  match o with
  | ObComplete _ r | ObFailed _ _ r | ObUnsettled _ r | ObUnsettledUnknownOwned _ r => Some r
  | _ => None
  end.

Definition cleanup_deadline_after_cancellation_ms_v1 (cancellation_anchor_ms work_cutoff_ms : Z) : Z :=
  saturating_sub
    (Z.min (saturating_add cancellation_anchor_ms CLEANUP_TAIL_MS)
           (saturating_add work_cutoff_ms CLEANUP_TAIL_MS))
    cancellation_anchor_ms.

Definition settle_node_cleanup_v2 (observation : NodeCleanupObservation)
    (elapsed deadline : Z) : NodeCleanupV2 :=
  let deadline_reached := deadline <=? elapsed in
  let late d := (deadline <? d) || (elapsed <? d) in
  let observation :=
    match observation with
    | ObComplete d r | ObFailed d _ r => if late d then ObUnsettled d r else observation
    | o => o
    end in
  match observation with
  | ObComplete d _ => ClnComplete d
  | ObFailed d cause _ => ClnFailed d cause
  | ObNotNeeded => ClnNotNeeded
  | ObUnsettled d r => if deadline_reached then ClnPartial d r else ClnPending (ro_resource_flight_id r)
  | ObUnsettledUnknownOwned d r =>
      if deadline_reached then ClnUnknown d (Some r) else ClnPending (ro_resource_flight_id r)
  | ObUnsettledUnknownOwnerless d proof =>
      if deadline_reached then ClnUnknown d None else ClnPending proof
  end.

Record NodeCleanupRecord := mkCleanupRecord {
  cr_schema_version : Z;
  cr_cleanup : NodeCleanupV2;
  cr_preservation : WorktreePreservationResult;
  cr_collateral : option CollateralResult }.

Definition pending_record (resource_flight_id : string) : NodeCleanupRecord :=
  mkCleanupRecord NODE_CLEANUP_RECORD_SCHEMA_V2 (ClnPending resource_flight_id)
    (mkPreservation PsPending None None) None.

(** The arms of the match, in the order the code tries them. *)
Definition validate_coherence (self : NodeCleanupRecord) : result unit ExecutionPolicyError :=
  let final_cleanup := negb (cleanup_is_pending (cr_cleanup self)) in
  let d := ps_disposition (cr_preservation self) in
  let bad := Err InvalidStructuredEvidence in
  match cr_cleanup self, d, cr_collateral self with
  | ClnPending _, PsPending, None => Ok tt
  | cleanup, d, collateral =>
      let not_needed := match cleanup with ClnNotNeeded => true | _ => false end in
      if not_needed && negb (bool_decide (d = PsPreserved) || bool_decide (d = PsPending))
         && match collateral with None => true | _ => false end then Ok tt
      else if bool_decide (d = PsPending) && final_cleanup then bad
      else if match collateral with
              | Some c => bool_decide (cl_disposition c = ClNone) && negb (affected_owner_count c =? 0)
              | None => false end then bad
      else if match collateral with
              | Some c => negb (bool_decide (cl_disposition c = ClNone)) && (affected_owner_count c =? 0)
              | None => false end then bad
      else if cleanup_is_pending cleanup || not_needed then bad
      else Ok tt
  end.

Definition validate_for_attempt (self : NodeCleanupRecord) (attempt_id resource_flight_id : string)
  : result unit ExecutionPolicyError :=
  let? _ := validate_coherence self in
  let foreign r := negb (String.eqb (ro_attempt_id r) attempt_id)
                   || negb (String.eqb (ro_resource_flight_id r) resource_flight_id) in
  match cr_cleanup self with
  | ClnPending persisted =>
      if negb (String.eqb persisted resource_flight_id) then Err InvalidStructuredEvidence else Ok tt
  | ClnPartial _ r | ClnUnknown _ (Some r) =>
      if foreign r then Err InvalidStructuredEvidence else Ok tt
  | _ => Ok tt
  end.

(** The product table as the documentation of [validate_coherence] words it. *)
Definition documented_table (r : NodeCleanupRecord) : Prop :=
  let d := ps_disposition (cr_preservation r) in
  match cr_cleanup r with
  | ClnPending _ => d = PsPending /\ cr_collateral r = None
  | ClnNotNeeded => d ∈ [PsRemoved; PsNotNeeded; PsUnknown] /\ cr_collateral r = None
  | _ => d <> PsPending
         /\ forall c, cr_collateral r = Some c -> (cl_disposition c = ClNone <-> affected_owner_count c = 0)
  end.

Lemma validate_coherence_table r : validate_coherence r = Ok tt <-> documented_table r.
Proof.
  destruct r as [sv c [d cu cd] cl]; unfold validate_coherence, documented_table; simpl.
  destruct cl as [[k n]|]; simpl;
    destruct c, d; simpl; try (split; [done|]; set_solver); try (split; [set_solver|done]).
  all: destruct (Z.eqb_spec n 0); subst; destruct k; simpl.
  all: split; [intros E; try done|intros [Hd Hc]; try done; try set_solver].
  all: try (split; [done|]; intros c' Ec; injection Ec as <-; simpl; intuition congruence).
  all: specialize (Hc _ eq_refl); simpl in Hc; intuition congruence.
Qed.

(** The recovery authority a record carries belongs to the given reservation. *)
Definition bound_to (r : NodeCleanupRecord) (attempt flight : string) : Prop :=
  match cr_cleanup r with
  | ClnPending f => f = flight
  | ClnPartial _ o | ClnUnknown _ (Some o) => ro_attempt_id o = attempt /\ ro_resource_flight_id o = flight
  | _ => True
  end.

(** A cleanup record is accepted for an attempt exactly when it is in the
    documented product table of cleanup, preservation and collateral, and
    whatever recovery authority it carries names that attempt and its flight. *)
Theorem record_accepted_for_attempt r attempt flight :
  validate_for_attempt r attempt flight = Ok tt <-> documented_table r /\ bound_to r attempt flight.
Proof.
  rewrite <- validate_coherence_table. unfold validate_for_attempt, bound_to.
  destruct (validate_coherence r) as [[]|]; simpl; [|by split; [|intros [? _]]].
  assert (Ho : forall o, (if negb (String.eqb (ro_attempt_id o) attempt)
                           || negb (String.eqb (ro_resource_flight_id o) flight)
                        then Err InvalidStructuredEvidence else Ok tt : result unit ExecutionPolicyError) = Ok tt
               <-> ro_attempt_id o = attempt /\ ro_resource_flight_id o = flight).
  { intros o. destruct (String.eqb_spec (ro_attempt_id o) attempt),
      (String.eqb_spec (ro_resource_flight_id o) flight); simpl; naive_solver. }
  destruct (cr_cleanup r) as [f|d|d o|d cause| |d [o|]]; rewrite ?Ho; try tauto.
  destruct (String.eqb_spec f flight); simpl; naive_solver.
Qed.

Lemma settle_not_pending ob elapsed deadline :
  deadline <= elapsed -> cleanup_is_pending (settle_node_cleanup_v2 ob elapsed deadline) = false.
Proof.
  unfold settle_node_cleanup_v2. intros H. destruct ob; simpl; repeat case_match; simplify_eq/=; machine; done.
Qed.

Lemma settle_stable ob elapsed deadline :
  cleanup_is_pending (settle_node_cleanup_v2 ob elapsed deadline) = false ->
  forall elapsed', elapsed <= elapsed' ->
  settle_node_cleanup_v2 ob elapsed' deadline = settle_node_cleanup_v2 ob elapsed deadline.
Proof.
  unfold settle_node_cleanup_v2. intros H el' Hel.
  destruct ob; simpl in *; try done; machine; simplify_eq/=; machine; done.
Qed.

Lemma settle_owner ob elapsed deadline owner :
  observation_recovery_owner ob = Some owner ->
  let c := settle_node_cleanup_v2 ob elapsed deadline in
  (exists d, c = ClnComplete d \/ exists cause, c = ClnFailed d cause)
  \/ c = ClnPending (ro_resource_flight_id owner)
  \/ exists d, c = ClnPartial d owner \/ c = ClnUnknown d (Some owner).
Proof.
  unfold settle_node_cleanup_v2. intros H.
  destruct ob; simpl in *; simplify_eq/=; machine; simplify_eq/=; machine; eauto 10.
Qed.

(** Cleanup settlement is final and keeps its recovery owner. Once the
    deadline has passed an observation is never pending; a settlement does not
    change when time advances; success or failure is only reported when it
    happened before the deadline and in the past; and an observation that owns
    resources either settles in time or hands exactly its owner (or its flight,
    while pending) to the record. *)
Theorem settlement_final_by_deadline ob elapsed deadline :
  let c := settle_node_cleanup_v2 ob elapsed deadline in
  (deadline <= elapsed -> cleanup_is_pending c = false)
  /\ (cleanup_is_pending c = false ->
      forall elapsed', elapsed <= elapsed' -> settle_node_cleanup_v2 ob elapsed' deadline = c)
  /\ (forall d cause, c = ClnComplete d \/ c = ClnFailed d cause -> d <= deadline /\ d <= elapsed)
  /\ (forall owner, observation_recovery_owner ob = Some owner ->
      (exists d, c = ClnComplete d \/ exists cause, c = ClnFailed d cause)
      \/ c = ClnPending (ro_resource_flight_id owner)
      \/ exists d, c = ClnPartial d owner \/ c = ClnUnknown d (Some owner)).
Proof.
  intros c. split_and!; [apply settle_not_pending|apply settle_stable| |intros owner Ho; by apply settle_owner].
  intros d cause. unfold c, settle_node_cleanup_v2.
  intros [H|H]; destruct ob; simpl in *; machine; simplify_eq/=; machine.
Qed.

(** No cleanup is given more than the cleanup tail, none runs past the work
    cutoff plus the tail, and a cancellation before the cutoff gets the whole
    tail. *)
Theorem cleanup_deadline_bounds anchor cutoff :
  is_u64 anchor -> is_u64 cutoff ->
  let d := cleanup_deadline_after_cancellation_ms_v1 anchor cutoff in
  0 <= d <= CLEANUP_TAIL_MS
  /\ anchor + d <= Z.max anchor (cutoff + CLEANUP_TAIL_MS)
  /\ (anchor <= cutoff -> anchor + CLEANUP_TAIL_MS <= u64_max -> d = CLEANUP_TAIL_MS).
Proof. unfold cleanup_deadline_after_cancellation_ms_v1, CLEANUP_TAIL_MS. machine. Qed.

(** ** The frozen custody contract *)
Record FrozenWorktreeCustodyPlan := mkPlan {
  custody_id : string; checkout_fingerprint : string; target_cwd : string }.
#[global] Instance custody_plan_eq_dec : EqDecision FrozenWorktreeCustodyPlan.
Proof. solve_decision. Defined.

Record FrozenR2f1bContract := mkContract {
  co_schema_version : Z;
  co_activation : DeadlineActivation;
  custody_plans : list FrozenWorktreeCustodyPlan;
  resource_contract_version : Z;
  contract_fingerprint : string }.

Inductive FrozenCheckoutEffect :=
| Direct (source_cwd effective_cwd : string)
| Worktree (source_cwd canonical_source_cwd canonical_worktree_root worktree_owner target_cwd
            checkout_digest : string).

Inductive CustodyPlanBindingRefusal :=
| NotAWorktreeCheckout | CheckoutDigestMismatch | TargetMismatch | NoPlanForCheckout | AttemptMismatch.

Definition select_custody_plan_v1 (contract : FrozenR2f1bContract) (checkout : FrozenCheckoutEffect)
  : result (option FrozenWorktreeCustodyPlan) CustodyPlanBindingRefusal :=
  match checkout with
  | Direct _ _ => Ok None
  | Worktree _ _ _ _ target digest =>
      let? plan := ok_or (List.find (fun p => String.eqb (checkout_fingerprint p) digest)
                            (custody_plans contract)) NoPlanForCheckout in
      if negb (String.eqb (target_cwd plan) target) then Err TargetMismatch else Ok (Some plan)
  end.

(** [left.checkout_fingerprint.cmp(..).then_with(|| left.custody_id.cmp(..))]. *)
Definition plan_leb (a b : FrozenWorktreeCustodyPlan) : bool :=
  if String.eqb (checkout_fingerprint a) (checkout_fingerprint b)
  then str_leb (custody_id a) (custody_id b)
  else str_leb (checkout_fingerprint a) (checkout_fingerprint b).

Definition plans_clash (a b : FrozenWorktreeCustodyPlan) : bool :=
  String.eqb (checkout_fingerprint a) (checkout_fingerprint b)
  || String.eqb (custody_id a) (custody_id b).

Section Contract.
Context (sha256_hex : string -> string) (canonical_json : FrozenR2f1bContract -> option string).

Definition PLACEHOLDER : string := "r2f1b-contract-fingerprint-placeholder".

Definition set_fingerprint (c : FrozenR2f1bContract) (f : string) : FrozenR2f1bContract :=
  mkContract (co_schema_version c) (co_activation c) (custody_plans c) (resource_contract_version c) f.

Definition expected_fingerprint (c : FrozenR2f1bContract) : result string ExecutionPolicyError :=
  let? encoded := ok_or (canonical_json (set_fingerprint c (sha256_hex PLACEHOLDER)))
                    InvalidStructuredEvidence in
  Ok (sha256_hex encoded).

Definition contract_validate (self : FrozenR2f1bContract) : result unit ExecutionPolicyError :=
  if negb (co_schema_version self =? R2F1B_CONTRACT_SCHEMA_V1)
     || negb (resource_contract_version self =? R2F1B_RESOURCE_CONTRACT_VERSION_V1)
  then Err InvalidStructuredEvidence
  else
    let plans := sort_by plan_leb (custody_plans self) in
    if negb (bool_decide (plans = custody_plans self)) || any_adjacent plans_clash plans
    then Err InvalidStructuredEvidence
    else
      let? expected := expected_fingerprint self in
      if negb (String.eqb (contract_fingerprint self) expected)
      then Err InvalidStructuredEvidence else Ok tt.

Definition with_computed_fingerprint (activation : DeadlineActivation)
    (plans : list FrozenWorktreeCustodyPlan) : result FrozenR2f1bContract ExecutionPolicyError :=
  let value := mkContract R2F1B_CONTRACT_SCHEMA_V1 activation (sort_by plan_leb plans)
                 R2F1B_RESOURCE_CONTRACT_VERSION_V1 (sha256_hex PLACEHOLDER) in
  let? encoded := ok_or (canonical_json value) InvalidStructuredEvidence in
  let value := set_fingerprint value (sha256_hex encoded) in
  let? _ := contract_validate value in
  Ok value.

Lemma plan_leb_total a b : plan_leb a b = true \/ plan_leb b a = true.
Proof.
  unfold plan_leb. rewrite (String.eqb_sym (checkout_fingerprint b)).
  destruct (String.eqb _ _); apply str_leb_total.
Qed.

Lemma plan_leb_trans a b c : plan_leb a b = true -> plan_leb b c = true -> plan_leb a c = true.
Proof.
  unfold plan_leb.
  destruct (String.eqb_spec (checkout_fingerprint a) (checkout_fingerprint b)) as [E1|N1];
  destruct (String.eqb_spec (checkout_fingerprint b) (checkout_fingerprint c)) as [E2|N2];
  destruct (String.eqb_spec (checkout_fingerprint a) (checkout_fingerprint c)) as [E3|N3];
    try congruence; rewrite ?E1, <- ?E2; try done.
  - apply str_leb_trans.
  - intros H1 H2. rewrite E3 in H1. by destruct N2; apply str_leb_antisym.
  - apply str_leb_trans.
Qed.

Lemma plan_leb_fingerprint a b : plan_leb a b = true -> str_leb (checkout_fingerprint a) (checkout_fingerprint b) = true.
Proof.
  unfold plan_leb. destruct (String.eqb_spec (checkout_fingerprint a) (checkout_fingerprint b)) as [->|]; [|done].
  intros _. by destruct (str_leb_total (checkout_fingerprint b) (checkout_fingerprint b)).
Qed.

Lemma sorted_plans l : StronglySorted (fun a b => plan_leb a b = true) (sort_by plan_leb l).
Proof. apply sort_by_sorted; [apply plan_leb_total|apply plan_leb_trans]. Qed.

(** In a sorted list without clashing neighbours the fingerprints are distinct. *)
Lemma no_clash_nodup l :
  StronglySorted (fun a b => plan_leb a b = true) l -> any_adjacent plans_clash l = false ->
  NoDup (checkout_fingerprint <$> l).
Proof.
  intros Hs Hc. apply sorted_adjacent_nodup.
  - eapply strongly_sorted_impl; [exact Hs|]. simpl. apply plan_leb_fingerprint.
  - clear Hs. induction l as [|a [|b l] IH]; try done. cbn [any_adjacent] in *. unfold plans_clash at 1 in Hc.
    apply orb_false_iff in Hc as [[Hf _]%orb_false_iff Hc]. by rewrite Hf, IH.
Qed.

Lemma with_computed_ok activation plans c :
  with_computed_fingerprint activation plans = Ok c ->
  contract_validate c = Ok tt /\ co_activation c = activation
  /\ custody_plans c = sort_by plan_leb plans /\ any_adjacent plans_clash (sort_by plan_leb plans) = false.
Proof.
  unfold with_computed_fingerprint. destruct (canonical_json _) as [enc|]; simpl; [|done].
  set (v := set_fingerprint _ _). destruct (contract_validate v) as [[]|] eqn:E; simpl; [|done].
  intros Ec. injection Ec as <-. fold v. split_and!; try done.
  unfold contract_validate in E. simpl in E. unfold v in E. simpl in E. rewrite sort_by_idem in E by (apply plan_leb_total || apply plan_leb_trans).
  rewrite bool_decide_eq_true_2 in E by done. simpl in E. by destruct (any_adjacent _ _).
Qed.

Lemma sort_perm_unique l l' :
  l ≡ₚ l' -> any_adjacent plans_clash (sort_by plan_leb l) = false -> sort_by plan_leb l = sort_by plan_leb l'.
Proof.
  intros Hp Hc. pose proof (no_clash_nodup _ (sorted_plans l) Hc) as Hn.
  eapply (StronglySorted_unique_strong (fun a b => plan_leb a b = true)); try apply sorted_plans.
  - intros x y Hx Hy Hxy Hyx. eapply nodup_fmap_inj; [exact Hn|done| |].
    + rewrite sort_by_elem in *. by rewrite Hp.
    + apply str_leb_antisym; by apply plan_leb_fingerprint.
  - by rewrite !sort_by_perm.
Qed.

(** The frozen custody contract is canonical and unambiguous. Its
    construction validates, does not depend on the order of the plans, keeps
    every plan, and never holds two plans for one checkout; so the plan selected
    for a worktree checkout is the only plan with its digest. *)
Theorem contract_canonical activation plans plans' c :
  plans ≡ₚ plans' -> with_computed_fingerprint activation plans = Ok c ->
  contract_validate c = Ok tt
  /\ with_computed_fingerprint activation plans' = Ok c
  /\ custody_plans c ≡ₚ plans
  /\ NoDup (checkout_fingerprint <$> custody_plans c)
  /\ forall src csrc root owner target digest plan,
       select_custody_plan_v1 c (Worktree src csrc root owner target digest) = Ok (Some plan) <->
       plan ∈ plans /\ checkout_fingerprint plan = digest /\ target_cwd plan = target.
Proof.
  intros Hp Hok. destruct (with_computed_ok _ _ _ Hok) as (Hv & Ha & Hpl & Hc).
  pose proof (no_clash_nodup _ (sorted_plans plans) Hc) as Hn.
  split_and!; [done| |by rewrite Hpl, sort_by_perm|by rewrite Hpl|].
  - unfold with_computed_fingerprint in *. by rewrite <- (sort_perm_unique _ _ Hp Hc).
  - intros src csrc root owner target digest plan. unfold select_custody_plan_v1. rewrite Hpl.
    rewrite <- (sort_by_elem plan_leb plan plans).
    destruct (List.find _ (sort_by plan_leb plans)) as [p|] eqn:Ef; simpl.
    + apply List.find_some in Ef as [Hin Hd]. apply String.eqb_eq in Hd. apply list_elem_of_In in Hin.
      destruct (String.eqb_spec (target_cwd p) target) as [Et|Et]; simpl.
      * split; [intros E; by simplify_eq|]. intros (Hin' & Hd' & Ht'). do 2 f_equal.
        eapply nodup_fmap_inj; [exact Hn|done..|congruence].
      * split; [done|]. intros (Hin' & Hd' & Ht'). destruct Et. rewrite <- Ht'. f_equal.
        eapply nodup_fmap_inj; [exact Hn|done..|congruence].
    + split; [done|]. intros (Hin' & Hd' & _). apply list_elem_of_In in Hin'.
      pose proof (List.find_none _ _ Ef _ Hin') as Hf. simpl in Hf. by apply String.eqb_neq in Hf.
Qed.

(** The uniqueness check of custody ids only compares neighbours. The plans
    are sorted by checkout fingerprint, so two plans with the same custody id
    and another plan between them pass: construction accepts a contract in
    which one custody id owns two checkouts. *)
Theorem repeated_custody_id_accepted activation :
  (forall c, is_Some (canonical_json c)) ->
  exists plans c, with_computed_fingerprint activation plans = Ok c
    /\ ~ NoDup (custody_id <$> custody_plans c).
Proof.
  intros Hj. exists [mkPlan "a" "1" "/r"; mkPlan "b" "2" "/r"; mkPlan "a" "3" "/r"].
  unfold with_computed_fingerprint, contract_validate, expected_fingerprint.
  set (pl := sort_by plan_leb _).
  assert (Epl : pl = [mkPlan "a" "1" "/r"; mkPlan "b" "2" "/r"; mkPlan "a" "3" "/r"]) by reflexivity.
  clearbody pl. subst pl. unfold set_fingerprint; simpl.
  set (v := mkContract _ _ _ _ _). destruct (Hj v) as [enc E]. rewrite E. simpl.
  rewrite String.eqb_refl. simpl. eexists. split; [done|]. simpl.
  intros Hn. inv Hn. set_solver.
Qed.
End Contract.

(** ** The theorems at concrete inputs *)
Definition demo_workflow : WorkflowControlDefaults :=
  mkDefaults (Some TaskReviewHighXhigh) None (Some (FixedGrace 5000)) None None None (Some (LivenessMs 90000)).
Definition demo_invocation : ExecutionPolicyInvocation :=
  mkInvocation None (Some 9000000) (Some " long review ") (Some LivenessOff).
Definition demo_controls : result FrozenWorkflowControls ExecutionPolicyError :=
  resolve_execution_policy_v1 demo_workflow demo_invocation true Production.

(** Max effort with a qualification resolves; the same request without max
    effort is refused, and so is a fixed grace under manual activation. *)
Lemma resolved_policy_promises_witness :
  match demo_controls with
  | Ok c => policy_promise demo_workflow demo_invocation true c /\ effective_work_cutoff_ms c = 9000000
            /\ mq_reason <$> fc_max_qualification c = Some "long review"
  | Err _ => False
  end
  /\ resolve_execution_policy_v1 demo_workflow demo_invocation false Production = Err UnusedMaxQualification
  /\ resolve_execution_policy_v1 demo_workflow demo_invocation true ManualTest = Err FixedGraceInactive.
Proof.
  split; [|split; vm_compute; reflexivity].
  assert (Hi : forall c, demo_controls = Ok c -> policy_promise demo_workflow demo_invocation true c).
  { intros c. apply resolved_policy_promises; intros ms E; simpl in E; simplify_eq; done. }
  destruct demo_controls as [c|] eqn:E; [|vm_compute in E; discriminate].
  split; [by apply Hi|]. vm_compute in E. simplify_eq. split; reflexivity.
Defined.

Definition demo_owner : RecoveryOwner := mkOwner "attempt" "flight" "crash".

Lemma settlement_final_by_deadline_witness :
  settle_node_cleanup_v2 (ObComplete 70 demo_owner) 80 60 = ClnPartial 70 demo_owner
  /\ settle_node_cleanup_v2 (ObComplete 70 demo_owner) 1000 60 = ClnPartial 70 demo_owner
  /\ settle_node_cleanup_v2 (ObComplete 50 demo_owner) 40 60 = ClnPending "flight".
Proof.
  split; [reflexivity|]. split; [|reflexivity].
  destruct (settlement_final_by_deadline (ObComplete 70 demo_owner) 80 60) as (_ & H & _).
  rewrite H; [reflexivity|reflexivity|lia].
Defined.

Lemma cleanup_deadline_bounds_witness :
  cleanup_deadline_after_cancellation_ms_v1 1000 7200000 = CLEANUP_TAIL_MS
  /\ 7230000 + cleanup_deadline_after_cancellation_ms_v1 7230000 7200000 <= 7260000.
Proof.
  split.
  - destruct (cleanup_deadline_bounds 1000 7200000) as (_ & _ & H); [machine..|]. apply H; vm_compute; discriminate.
  - destruct (cleanup_deadline_bounds 7230000 7200000) as (_ & H & _); [machine..|]. exact H.
Defined.

(** A toy digest and encoder that satisfy the hypotheses. *)
Definition toy_sha (s : string) : string := s.
Definition toy_json (c : FrozenR2f1bContract) : option string :=
  Some (String.concat "," (checkout_fingerprint <$> custody_plans c)).
Definition demo_plans : list FrozenWorktreeCustodyPlan := [mkPlan "b" "2" "/r/2"; mkPlan "a" "1" "/r/1"].

Lemma contract_canonical_witness :
  match with_computed_fingerprint toy_sha toy_json AutomaticR2f1b demo_plans with
  | Ok c => with_computed_fingerprint toy_sha toy_json AutomaticR2f1b (reverse demo_plans) = Ok c
            /\ select_custody_plan_v1 c (Worktree "/s" "/s" "/r" "o" "/r/2" "2") = Ok (Some (mkPlan "b" "2" "/r/2"))
  | Err _ => False
  end.
Proof.
  destruct (with_computed_fingerprint toy_sha toy_json AutomaticR2f1b demo_plans) as [c|] eqn:E;
    [|vm_compute in E; discriminate].
  destruct (contract_canonical toy_sha toy_json AutomaticR2f1b demo_plans (reverse demo_plans) c)
    as (_ & H2 & _ & _ & H5); [by rewrite reverse_Permutation|done|].
  split; [exact H2|]. apply H5. split_and!; [|done..]. unfold demo_plans. set_solver.
Defined.

Lemma repeated_custody_id_accepted_witness :
  exists plans c, with_computed_fingerprint toy_sha toy_json AutomaticR2f1b plans = Ok c
    /\ ~ NoDup (custody_id <$> custody_plans c).
Proof. apply repeated_custody_id_accepted. intros c. by eexists. Defined.
