(* ===== verification/FanOut.v ===== *)
(** * Fan-out trigger controller ([bridge-workflow/src/fanout.rs])

    The pure controller that selects the policy trigger of a ready batch, waits
    for its durability barrier, and turns the acknowledgement into an action.
    Every operation is a function on the controller record; a controller's life
    is a list of operations, and the actions it emits are collected in order. *)
From S2P Require Import Prelude Domain ExecutionPolicy.
From stdpp Require Import pretty.
Open Scope Z_scope.
Open Scope bridge_scope.

(** ** Data *)
Record PolicyNodeRef := mkNodeRef { sorted_ordinal : Z; id_sha256 : string }.
#[global] Instance policy_node_ref_eq_dec : EqDecision PolicyNodeRef.
Proof. solve_decision. Defined.

Inductive FanOutPolicyName := NmBoundedIndependent | NmFailFast | NmFixedGrace.
#[global] Instance fan_out_policy_name_eq_dec : EqDecision FanOutPolicyName.
Proof. solve_decision. Defined.
Definition policy_name (p : FanOutPolicy) : FanOutPolicyName :=
  match p with
  | BoundedIndependent => NmBoundedIndependent | FailFast => NmFailFast | FixedGrace _ => NmFixedGrace
  end.

Record PolicyTrigger := mkTrigger {
  tg_schema_version : Z;
  tg_id : string;
  tg_node : PolicyNodeRef;
  tg_policy : FanOutPolicyName;
  tg_grace_ms : option Z }.
#[global] Instance policy_trigger_eq_dec : EqDecision PolicyTrigger.
Proof. solve_decision. Defined.

Definition policy_trigger_validate (self : PolicyTrigger) : result unit ExecutionPolicyError :=
  let grace_valid :=
    match tg_policy self, tg_grace_ms self with
    | NmFixedGrace, Some value => 0 <? value
    | NmFixedGrace, None => false
    | _, None => true
    | _, Some _ => false
    end in
  if negb (tg_schema_version self =? EXECUTION_POLICY_SCHEMA_V1) || negb grace_valid
  then Err InvalidStructuredEvidence else Ok tt.

(** [ControlEventIdV1::for_attempt]. *)
Definition control_event_for_attempt (attempt_id : string) (ordinal : N) : string :=
  attempt_id +:+ ":policy:" +:+ pretty ordinal.

Record ReadyNodeTerminal := mkReady { rd_node : string; rd_terminal : NodeTerminal }.
#[global] Instance ready_node_terminal_eq_dec : EqDecision ReadyNodeTerminal.
Proof. solve_decision. Defined.
Record ReadyBatchSelection := mkSelection {
  sel_terminals : list ReadyNodeTerminal; sel_trigger : option PolicyTrigger }.
Inductive FanOutControllerError := MissingNodeReference | DuplicateReadyNode | InvalidRestoredTrigger.

Inductive LedgerUnavailableReason :=
| LrOpen | LrPermission | LrReadOnlyDatabase | LrReadOnlyLock | LrReadOnlyParent
| LrAdvisoryLockUnsupported | LrAdvisoryLockIo | LrLocked | LrMigration
| LrUnsupportedConfiguration | LrSchema | LrCorruption | LrIo | LrCapacityProtected | LrCollision.
#[global] Instance ledger_unavailable_reason_eq_dec : EqDecision LedgerUnavailableReason.
Proof. solve_decision. Defined.

Inductive PolicyTriggerBarrierResult :=
| ServedPrimaryCommitted
| OfflineHistoryCommitted
| OfflineTelemetryUnavailable (reason : LedgerUnavailableReason)
| PrimaryFailed.

Inductive PolicyAction :=
| NoAction | CancelRunningSiblings | ArmManualGrace (grace_ms : Z) | GlobalCancelAndDrain.
#[global] Instance policy_action_eq_dec : EqDecision PolicyAction.
Proof. solve_decision. Defined.

Definition classify_offline_barrier_error_v1 (reason : LedgerUnavailableReason) : PolicyTriggerBarrierResult :=
  match reason with
  | LrOpen | LrPermission | LrReadOnlyDatabase | LrReadOnlyLock | LrReadOnlyParent
  | LrAdvisoryLockUnsupported | LrAdvisoryLockIo | LrLocked | LrMigration | LrSchema
  | LrCorruption | LrIo | LrCapacityProtected => OfflineTelemetryUnavailable reason
  | LrCollision | LrUnsupportedConfiguration => PrimaryFailed
  end.

Record FanOutController := mkController {
  ctl_policy : FanOutPolicy;
  ctl_trigger : option PolicyTrigger;
  barrier_pending : bool;
  admission_stopped : bool;
  manual_grace_armed : bool;
  manual_grace_expired : bool }.

Definition new_controller (policy : FanOutPolicy) : FanOutController :=
  mkController policy None false false false false.

Definition policy_grace (p : FanOutPolicy) : option Z :=
  match p with FixedGrace g => Some g | _ => None end.

Definition failing (t : NodeTerminal) : bool :=
  match primary t with PrimFailed | PrimTimedOut => true | _ => false end.

(** ** Selection *)
Definition ready_leb (a b : ReadyNodeTerminal) : bool := str_leb (rd_node a) (rd_node b).
Definition ready_same_node (a b : ReadyNodeTerminal) : bool := String.eqb (rd_node a) (rd_node b).

Definition set_trigger_id (t : NodeTerminal) (id : string) : NodeTerminal :=
  mkTerminal (nt_schema_version t) (primary t) (nt_cleanup t) (nt_cause t)
    (nt_prompt_may_have_been_accepted t) (nt_degraded_ancestry t) (Some id).

(** [terminals[selected].terminal.policy_trigger_id = Some(id)]. *)
Definition mark (id : string) (r : ReadyNodeTerminal) : ReadyNodeTerminal :=
  mkReady (rd_node r) (set_trigger_id (rd_terminal r) id).

Definition finalize_ready_batch (attempt_id : string) (terminals : list ReadyNodeTerminal)
    (node_refs : gmap string PolicyNodeRef) (cancel_before_wait : bool) (self : FanOutController)
  : result ReadyBatchSelection FanOutControllerError * FanOutController :=
  let terminals := sort_by ready_leb terminals in
  if any_adjacent ready_same_node terminals then (Err DuplicateReadyNode, self)
  else if cancel_before_wait then
    (Ok (mkSelection terminals None),
     mkController (ctl_policy self) (ctl_trigger self) (barrier_pending self) true
       (manual_grace_armed self) (manual_grace_expired self))
  else if bool_decide (is_Some (ctl_trigger self)) || bool_decide (ctl_policy self = BoundedIndependent) then
    (Ok (mkSelection terminals None), self)
  else
    match list_find (fun r => failing (rd_terminal r) = true) terminals with
    | None => (Ok (mkSelection terminals None), self)
    | Some (selected, ready) =>
        match node_refs !! rd_node ready with
        | None => (Err MissingNodeReference, self)
        | Some node =>
            let id := control_event_for_attempt attempt_id 0 in
            let trigger := mkTrigger EXECUTION_POLICY_SCHEMA_V1 id node
                             (policy_name (ctl_policy self)) (policy_grace (ctl_policy self)) in
            (Ok (mkSelection (alter (mark id) selected terminals) (Some trigger)),
             mkController (ctl_policy self) (Some trigger) true true
               (manual_grace_armed self) (manual_grace_expired self))
        end
    end.

(** ** Restoring a committed trigger *)
Definition key_leb {A} (a b : string * A) : bool := str_leb a.1 b.1.
(** Iteration over a [BTreeMap] in key order. *)
Definition btree_iter {A} (m : gmap string A) : list (string * A) := sort_by key_leb (map_to_list m).

Definition mentions (id : string) (t : NodeTerminal) : bool :=
  bool_decide (policy_trigger_id t = Some id).

Definition restore_committed_trigger (attempt_id : string) (trigger : PolicyTrigger)
    (terminals : gmap string NodeTerminal) (node_refs : gmap string PolicyNodeRef) (self : FanOutController)
  : result unit FanOutControllerError * FanOutController :=
  let expected_grace := policy_grace (ctl_policy self) in
  let selected_node := fst <$> List.find (fun kr => bool_decide (kr.2 = tg_node trigger)) (btree_iter node_refs) in
  let valid_selected_terminal :=
    match selected_node ≫= fun node => terminals !! node with
    | Some t => failing t && mentions (tg_id trigger) t
    | None => false
    end in
  let values := snd <$> btree_iter terminals in
  let trigger_mentions := length (filter (fun t => mentions (tg_id trigger) t = true) values) in
  if bool_decide (is_Some (ctl_trigger self)) || barrier_pending self
     || bool_decide (ctl_policy self = BoundedIndependent)
     || negb (tg_schema_version trigger =? EXECUTION_POLICY_SCHEMA_V1)
     || negb (String.eqb (tg_id trigger) (control_event_for_attempt attempt_id 0))
     || negb (bool_decide (tg_policy trigger = policy_name (ctl_policy self)))
     || negb (bool_decide (tg_grace_ms trigger = expected_grace))
     || negb valid_selected_terminal
     || negb (trigger_mentions =? 1)%nat
     || existsb (fun t => match policy_trigger_id t with
                          | Some id => negb (String.eqb id (tg_id trigger)) | None => false end) values
  then (Err InvalidRestoredTrigger, self)
  else (Ok tt, mkController (ctl_policy self) (Some trigger) (barrier_pending self) true
                 (match ctl_policy self with FixedGrace _ => true | _ => false end)
                 (manual_grace_expired self)).

(** ** The barrier and the manual grace *)
Definition barrier_authorizes (r : PolicyTriggerBarrierResult) : bool :=
  match r with
  | ServedPrimaryCommitted | OfflineHistoryCommitted => true
  | OfflineTelemetryUnavailable reason =>
      match reason with LrCollision | LrUnsupportedConfiguration => false | _ => true end
  | PrimaryFailed => false
  end.

Definition acknowledge_barrier (r : PolicyTriggerBarrierResult) (cancel_after_ack : bool)
    (self : FanOutController) : PolicyAction * FanOutController :=
  if negb (barrier_pending self) then (NoAction, self)
  else
    let self := mkController (ctl_policy self) (ctl_trigger self) false (admission_stopped self)
                  (manual_grace_armed self) (manual_grace_expired self) in
    if cancel_after_ack then (GlobalCancelAndDrain, self)
    else if negb (barrier_authorizes r) then (GlobalCancelAndDrain, self)
    else match ctl_policy self with
         | BoundedIndependent => (NoAction, self)
         | FailFast => (CancelRunningSiblings, self)
         | FixedGrace grace_ms =>
             (ArmManualGrace grace_ms,
              mkController (ctl_policy self) (ctl_trigger self) (barrier_pending self)
                (admission_stopped self) true (manual_grace_expired self))
         end.

Definition expire_manual_grace (self : FanOutController) : PolicyAction * FanOutController :=
  if negb (manual_grace_armed self) || manual_grace_expired self then (NoAction, self)
  else (CancelRunningSiblings,
        mkController (ctl_policy self) (ctl_trigger self) (barrier_pending self)
          (admission_stopped self) (manual_grace_armed self) true).

(** ** The life of a controller *)
Inductive ControllerOp :=
| OpFinalize (attempt_id : string) (batch : list ReadyNodeTerminal)
    (node_refs : gmap string PolicyNodeRef) (cancel : bool)
| OpAcknowledge (r : PolicyTriggerBarrierResult) (cancel : bool)
| OpExpireGrace
| OpRestore (attempt_id : string) (trigger : PolicyTrigger)
    (terminals : gmap string NodeTerminal) (node_refs : gmap string PolicyNodeRef).

(** The controller and the actions it has returned, latest first. *)
Definition controller_step (s : FanOutController * list PolicyAction) (op : ControllerOp)
  : FanOutController * list PolicyAction :=
  let (self, out) := s in
  match op with
  | OpFinalize a b n c => (snd (finalize_ready_batch a b n c self), out)
  | OpAcknowledge r c => let (act, self) := acknowledge_barrier r c self in (self, act :: out)
  | OpExpireGrace => let (act, self) := expire_manual_grace self in (self, act :: out)
  | OpRestore a t ts n => (snd (restore_committed_trigger a t ts n self), out)
  end.

(** Actions that stop running nodes. *)
Definition stops (a : PolicyAction) : bool :=
  match a with CancelRunningSiblings | GlobalCancelAndDrain => true | _ => false end.
Definition count_stops (out : list PolicyAction) : nat := length (filter (fun a => stops a = true) out).

(** While no barrier was acknowledged and no grace expired, nothing was stopped. *)
Record controller_ok (policy : FanOutPolicy) (self : FanOutController) (out : list PolicyAction) : Prop := {
  ok_policy : ctl_policy self = policy;
  ok_idle : ctl_trigger self = None ->
    barrier_pending self = false /\ manual_grace_armed self = false /\ manual_grace_expired self = false
    /\ count_stops out = 0%nat;
  ok_trigger : is_Some (ctl_trigger self) -> admission_stopped self = true /\ policy <> BoundedIndependent;
  ok_pending : barrier_pending self = true ->
    is_Some (ctl_trigger self) /\ manual_grace_armed self = false /\ count_stops out = 0%nat;
  ok_armed : manual_grace_armed self = true ->
    (exists g, policy = FixedGrace g) /\ is_Some (ctl_trigger self)
    /\ (manual_grace_expired self = false -> count_stops out = 0%nat);
  ok_expired : manual_grace_expired self = true -> manual_grace_armed self = true;
  ok_count : (count_stops out <= 1)%nat }.

Lemma count_stops_cons a out :
  count_stops (a :: out) = ((if stops a then 1 else 0) + count_stops out)%nat.
Proof.
  unfold count_stops. destruct (stops a) eqn:E; [by rewrite filter_cons_True|].
  by rewrite filter_cons_False by congruence.
Qed.

Lemma new_controller_ok policy : controller_ok policy (new_controller policy) [].
Proof. split; simpl; try done; try (by intros [? ?]). unfold count_stops; simpl; lia. Qed.

Lemma finalize_ok policy a b n c self out :
  controller_ok policy self out -> controller_ok policy (snd (finalize_ready_batch a b n c self)) out.
Proof.
  intros K. unfold finalize_ready_batch. destruct (any_adjacent _ _); [done|].
  destruct c; [destruct K; split; simpl; naive_solver|].
  destruct (bool_decide (is_Some (ctl_trigger self))) eqn:Et; [done|]. simpl.
  destruct (bool_decide (ctl_policy self = BoundedIndependent)) eqn:Ep; [done|].
  destruct (list_find _ _) as [[i r]|]; [|done]. destruct (n !! rd_node r); [|done].
  apply bool_decide_eq_false in Et, Ep. destruct K as [Kp Ki Kt Kb Ka Ke Kc].
  destruct (ctl_trigger self) eqn:E; [destruct Et; eauto|]. destruct (Ki eq_refl) as (H1 & H2 & H3 & H4).
  split; simpl; try done; try congruence; eauto. intros _. split; congruence.
Qed.

Lemma acknowledge_ok policy r c self out :
  controller_ok policy self out ->
  let (act, self') := acknowledge_barrier r c self in controller_ok policy self' (act :: out).
Proof.
  intros K. destruct K as [Kp Ki Kt Kb Ka Ke Kc]. unfold acknowledge_barrier.
  destruct (barrier_pending self) eqn:Eb; simpl; [|split; rewrite ?count_stops_cons; simpl; rewrite ?Eb; naive_solver].
  destruct (Kb eq_refl) as ([tr Etr] & Harm & Hs).
  assert (Hexp : manual_grace_expired self = false) by (destruct (manual_grace_expired self); naive_solver).
  destruct c; [|destruct (barrier_authorizes r)]; simpl; [..|].
  2: destruct (ctl_policy self) eqn:Ep.
  all: split; simpl; rewrite ?count_stops_cons, ?Hs, ?Harm, ?Etr; simpl; try done; try lia; naive_solver.
Qed.

Lemma expire_ok policy self out :
  controller_ok policy self out ->
  let (act, self') := expire_manual_grace self in controller_ok policy self' (act :: out).
Proof.
  intros K. destruct K as [Kp Ki Kt Kb Ka Ke Kc]. unfold expire_manual_grace.
  destruct (manual_grace_armed self) eqn:Ea; simpl;
    [destruct (manual_grace_expired self) eqn:Ee; simpl|].
  2: { destruct (Ka eq_refl) as ([g Eg] & [tr Etr] & Hs). specialize (Hs eq_refl).
       split; simpl; rewrite ?count_stops_cons, ?Hs, ?Etr, ?Ea; simpl; try done; try lia; naive_solver. }
  all: split; rewrite ?count_stops_cons; simpl; rewrite ?Ea, ?Ee; naive_solver.
Qed.

Lemma restore_ok policy a t ts n self out :
  controller_ok policy self out -> controller_ok policy (snd (restore_committed_trigger a t ts n self)) out.
Proof.
  intros K. unfold restore_committed_trigger.
  destruct (bool_decide (is_Some (ctl_trigger self))) eqn:Et; [done|].
  destruct (barrier_pending self) eqn:Eb; [done|].
  destruct (bool_decide (ctl_policy self = BoundedIndependent)) eqn:Ep; [done|]. simpl.
  case_match; [done|]. apply bool_decide_eq_false in Et, Ep. destruct K as [Kp Ki Kt Kb Ka Ke Kc].
  destruct (ctl_trigger self) eqn:E; [destruct Et; eauto|]. destruct (Ki eq_refl) as (H1 & H2 & H3 & H4).
  split; simpl; rewrite ?H3; try done; try congruence.
  - intros _. split; congruence.
  - rewrite Kp. destruct policy; naive_solver.
Qed.

Lemma controller_ok_run policy ops :
  let s := run controller_step (new_controller policy, []) ops in controller_ok policy s.1 s.2.
Proof.
  apply (run_invariant _ (fun s => controller_ok policy s.1 s.2)); [|apply new_controller_ok].
  intros [self out] [a b n c|r c| |a t ts n] K; simpl.
  - by apply finalize_ok.
  - pose proof (acknowledge_ok policy r c self out K). by destruct (acknowledge_barrier r c self).
  - pose proof (expire_ok policy self out K). by destruct (expire_manual_grace self).
  - by apply restore_ok.
Qed.

(** C37: a fan-out controller stops the running nodes at most once in its life,
    by cancelling the siblings or by draining the whole workflow, whatever the
    order of batches, acknowledgements, grace expiries and restores; it never
    stops anything before a trigger was selected or restored, and from then on
    no new node is admitted. *)
Theorem stops_at_most_once policy ops :
  let s := run controller_step (new_controller policy, []) ops in
  (count_stops s.2 <= 1)%nat
  /\ (ctl_trigger s.1 = None -> count_stops s.2 = 0%nat)
  /\ (is_Some (ctl_trigger s.1) -> admission_stopped s.1 = true)
  /\ (policy = BoundedIndependent -> count_stops s.2 = 0%nat).
Proof.
  intros s. destruct (controller_ok_run policy ops) as [Kp Ki Kt Kb Ka Ke Kc]. fold s in Ki, Kt, Kc.
  split_and!; [done|by intros (_ & _ & _ & ?)%Ki|by intros [? _]%Kt|].
  intros ->. destruct (ctl_trigger s.1) eqn:E; [|by apply Ki].
  destruct Kt as [_ Hn]; [eauto|done].
Qed.

(** ** Selection and restoration *)
Lemma sorted_batch l : StronglySorted (fun a b => str_leb (rd_node a) (rd_node b) = true) (sort_by ready_leb l).
Proof.
  apply (sort_by_sorted ready_leb); unfold ready_leb; [intros; apply str_leb_total|].
  intros a b c. apply str_leb_trans.
Qed.

Lemma duplicate_iff l : any_adjacent ready_same_node (sort_by ready_leb l) = false <-> NoDup (rd_node <$> l).
Proof.
  etrans; [apply (sorted_adjacent_nodup rd_node), sorted_batch|]. by rewrite sort_by_perm.
Qed.

Lemma sort_batch_unique l l' :
  l ≡ₚ l' -> NoDup (rd_node <$> l) -> sort_by ready_leb l = sort_by ready_leb l'.
Proof.
  intros Hp Hn. eapply (StronglySorted_unique_strong _); [|apply sorted_batch..|by rewrite !sort_by_perm].
  intros x y Hx Hy Hxy Hyx. rewrite sort_by_elem in Hx, Hy.
  eapply nodup_fmap_inj; [exact Hn|done|by rewrite Hp|by apply str_leb_antisym].
Qed.

(** What a selected trigger says about its batch. *)
Record selected_from (attempt_id : string) (batch : list ReadyNodeTerminal)
    (node_refs : gmap string PolicyNodeRef) (policy : FanOutPolicy)
    (sel : list ReadyNodeTerminal) (tr : PolicyTrigger) (ready : ReadyNodeTerminal) : Prop := {
  sf_in : ready ∈ batch;
  sf_failing : failing (rd_terminal ready) = true;
  sf_least : forall r, r ∈ batch -> failing (rd_terminal r) = true -> str_leb (rd_node ready) (rd_node r) = true;
  sf_ref : node_refs !! rd_node ready = Some (tg_node tr);
  sf_trigger : tr = mkTrigger EXECUTION_POLICY_SCHEMA_V1 (control_event_for_attempt attempt_id 0)
                      (tg_node tr) (policy_name policy) (policy_grace policy);
  sf_rest : exists rest, batch ≡ₚ ready :: rest /\ sel ≡ₚ mark (tg_id tr) ready :: rest }.

Lemma finalize_selects a batch refs c self sel tr self' :
  finalize_ready_batch a batch refs c self = (Ok (mkSelection sel (Some tr)), self') ->
  NoDup (rd_node <$> batch) /\ ctl_trigger self = None /\ ctl_policy self <> BoundedIndependent
  /\ self' = mkController (ctl_policy self) (Some tr) true true (manual_grace_armed self) (manual_grace_expired self)
  /\ exists ready, selected_from a batch refs (ctl_policy self) sel tr ready.
Proof.
  unfold finalize_ready_batch. pose proof (duplicate_iff batch) as Hd.
  destruct (any_adjacent _ _); [done|]. destruct c; [done|].
  destruct (bool_decide (is_Some (ctl_trigger self))) eqn:Et; [done|]. apply bool_decide_eq_false in Et.
  destruct (bool_decide (ctl_policy self = BoundedIndependent)) eqn:Ep; [done|]. apply bool_decide_eq_false in Ep.
  simpl. destruct (list_find _ _) as [[i r]|] eqn:Ef; [|done].
  destruct (refs !! rd_node r) as [nr|] eqn:Er; [|done]. intros E. injection E as <- <- <-.
  split_and!; try done; [by apply Hd|by destruct (ctl_trigger self); [destruct Et; eauto|]|].
  apply list_find_Some in Ef as (Hi & Hf & Hfirst). exists r. split; simpl; try done.
  - rewrite <- (sort_by_elem ready_leb). by eapply list_elem_of_lookup_2.
  - intros r' Hin Hf'. rewrite <- (sort_by_elem ready_leb) in Hin.
    apply list_elem_of_lookup in Hin as [j Hj]. pose proof (sorted_batch batch) as Hs.
    assert (Hrr : str_leb (rd_node r) (rd_node r) = true) by (by destruct (str_leb_total (rd_node r) (rd_node r))).
    destruct (decide (i = j)) as [->|]; [by simplify_eq|].
    destruct (decide (i < j)%nat); [|exfalso; by eapply (Hfirst j r' Hj); [lia|]].
    rewrite <- (take_drop (S i) (sort_by ready_leb batch)) in Hs.
    eapply (StronglySorted_app_1_elem_of _ _ _ r r' Hs).
    + apply list_elem_of_lookup. exists i. by rewrite lookup_take_lt by lia.
    + apply list_elem_of_lookup. exists (j - S i)%nat. rewrite lookup_drop. rewrite <- Hj. f_equal. lia.
  - exists (take i (sort_by ready_leb batch) ++ drop (S i) (sort_by ready_leb batch)). split.
    + rewrite <- (sort_by_perm ready_leb batch) at 1. rewrite <- (take_drop_middle _ _ _ Hi) at 1.
      by rewrite Permutation_middle.
    + rewrite <- (take_drop_middle (alter _ i _) i (mark (control_event_for_attempt a 0) r)).
      2: { by rewrite list_lookup_alter_eq, Hi. }
      rewrite take_alter_ge, drop_alter_lt by lia. by rewrite Permutation_middle.
Qed.

(** The trigger of a ready batch is deterministic. The outcome does not
    depend on the order in which completions were drained; a selected trigger
    names the least failing node of the batch, through its frozen reference,
    and marks exactly that node's terminal. *)
Theorem ready_batch_selection a batch batch' refs c self :
  batch ≡ₚ batch' ->
  finalize_ready_batch a batch refs c self = finalize_ready_batch a batch' refs c self
  /\ forall sel tr self', finalize_ready_batch a batch refs c self = (Ok (mkSelection sel (Some tr)), self') ->
       exists ready, selected_from a batch refs (ctl_policy self) sel tr ready.
Proof.
  intros Hp. split; [|intros sel tr self' E; by destruct (finalize_selects _ _ _ _ _ _ _ _ E) as (_ & _ & _ & _ & ?)].
  unfold finalize_ready_batch. pose proof (duplicate_iff batch) as Hd. pose proof (duplicate_iff batch') as Hd'.
  assert (Hn : NoDup (rd_node <$> batch) <-> NoDup (rd_node <$> batch')) by (by rewrite Hp).
  destruct (any_adjacent ready_same_node (sort_by ready_leb batch)) eqn:E1.
  - destruct (any_adjacent ready_same_node (sort_by ready_leb batch')) eqn:E2; [done|].
    exfalso. assert (true = false) by (apply Hd, Hn, Hd'; done). done.
  - rewrite <- (sort_batch_unique _ _ Hp) by (by apply Hd). by rewrite E1.
Qed.

Lemma btree_iter_elem {A} (m : gmap string A) k x : (k, x) ∈ btree_iter m <-> m !! k = Some x.
Proof. unfold btree_iter. by rewrite sort_by_elem, elem_of_map_to_list. Qed.

Lemma filter_fmap_length {A B} (f : A -> B) (Q : B -> Prop) `{forall b, Decision (Q b)} l :
  length (filter Q (f <$> l)) = length (filter (fun x => Q (f x)) l).
Proof.
  induction l as [|x l IH]; [done|]. rewrite fmap_cons.
  destruct (decide (Q (f x))); [rewrite !filter_cons_True by done|rewrite !filter_cons_False by done]; simpl; auto.
Qed.

Lemma nodup_singleton_length {A} (l : list A) x :
  NoDup l -> x ∈ l -> (forall y, y ∈ l -> y = x) -> length l = 1%nat.
Proof.
  destruct l as [|a [|b l]]; intros Hn Hx Hall; [set_solver|done|].
  exfalso. assert (a = x) as -> by set_solver. assert (b = x) as -> by set_solver.
  apply NoDup_cons in Hn as [Hn _]. set_solver.
Qed.

Lemma btree_iter_nodup {A} (m : gmap string A) : NoDup (btree_iter m).
Proof. unfold btree_iter. rewrite sort_by_perm. apply NoDup_map_to_list. Qed.

(** The terminals a run has committed: those of the selection, and others
    that carry no trigger. *)
Definition committed (sel : list ReadyNodeTerminal) (terminals : gmap string NodeTerminal) : Prop :=
  (forall r, r ∈ sel -> terminals !! rd_node r = Some (rd_terminal r))
  /\ (forall n t, terminals !! n = Some t -> mkReady n t ∈ sel \/ policy_trigger_id t = None).

(** Of the committed terminals only the selected one mentions the trigger. *)
Lemma committed_mentions a batch refs p sel tr ready terminals :
  selected_from a batch refs p sel tr ready -> committed sel terminals ->
  (forall r, r ∈ batch -> policy_trigger_id (rd_terminal r) = None) ->
  terminals !! rd_node ready = Some (set_trigger_id (rd_terminal ready) (tg_id tr))
  /\ forall n t id, terminals !! n = Some t -> policy_trigger_id t = Some id ->
       n = rd_node ready /\ t = set_trigger_id (rd_terminal ready) (tg_id tr).
Proof.
  intros [Hin Hf Hl Hr Htr (rest & Hb & Hs)] [C1 C2] Hnone. split.
  - change (set_trigger_id _ _) with (rd_terminal (mark (tg_id tr) ready)).
    change (rd_node ready) with (rd_node (mark (tg_id tr) ready)). apply C1. rewrite Hs. by left.
  - intros n t id Et Eid. destruct (C2 n t Et) as [Hsel|]; [|congruence].
    rewrite Hs in Hsel. apply elem_of_cons in Hsel as [Em|Hrest]; [by unfold mark in Em; simplify_eq|].
    assert (Hbt : mkReady n t ∈ batch) by (rewrite Hb; by right). apply Hnone in Hbt. simpl in Hbt. congruence.
Qed.

Lemma restore_accepts a batch refs p sel tr ready terminals :
  p <> BoundedIndependent ->
  selected_from a batch refs p sel tr ready -> committed sel terminals ->
  (forall r, r ∈ batch -> policy_trigger_id (rd_terminal r) = None) ->
  (forall n n' x, refs !! n = Some x -> refs !! n' = Some x -> n = n') ->
  restore_committed_trigger a tr terminals refs (new_controller p)
  = (Ok tt, mkController p (Some tr) false true (match p with FixedGrace _ => true | _ => false end) false).
Proof.
  intros Hp S C Hnone Hinj. destruct (committed_mentions _ _ _ _ _ _ _ _ S C Hnone) as [Hsel Honly].
  destruct S as [Hin Hf Hl Hr Htr _]. unfold restore_committed_trigger.
  assert (Hnode : fst <$> List.find (fun kr => bool_decide (kr.2 = tg_node tr)) (btree_iter refs) = Some (rd_node ready)).
  { destruct (List.find _ _) as [[n x]|] eqn:Ef; simpl.
    - apply List.find_some in Ef as [Hn Hx]. apply list_elem_of_In, btree_iter_elem in Hn.
      apply bool_decide_eq_true in Hx. simpl in Hx. subst. f_equal. by eapply Hinj.
    - apply btree_iter_elem, list_elem_of_In in Hr. apply (List.find_none _ _ Ef) in Hr. simpl in Hr.
      by rewrite bool_decide_eq_true_2 in Hr. }
  assert (Hcount : length (filter (fun t => mentions (tg_id tr) t = true) (snd <$> btree_iter terminals)) = 1%nat).
  { rewrite (filter_fmap_length snd (fun t => mentions (tg_id tr) t = true)).
    apply (nodup_singleton_length _ (rd_node ready, set_trigger_id (rd_terminal ready) (tg_id tr))).
    - apply NoDup_filter, btree_iter_nodup.
    - apply list_elem_of_filter. split; [by apply bool_decide_eq_true|by apply btree_iter_elem].
    - intros [n t] [Hm Ht]%list_elem_of_filter. apply btree_iter_elem in Ht. apply bool_decide_eq_true in Hm.
      destruct (Honly n t _ Ht Hm) as [-> ->]. done. }
  assert (Hforeign : existsb (fun t => match policy_trigger_id t with
            | Some id => negb (String.eqb id (tg_id tr)) | None => false end) (snd <$> btree_iter terminals) = false).
  { apply not_true_iff_false. intros (t & Ht & Hid)%existsb_exists. apply list_elem_of_In in Ht.
    apply list_elem_of_fmap in Ht as ([n t'] & -> & Ht). apply btree_iter_elem in Ht. simpl in Hid.
    destruct (policy_trigger_id t') as [id|] eqn:Eid; [|done].
    destruct (Honly n t' id Ht Eid) as [_ ->]. simpl in Eid. injection Eid as <-. by rewrite String.eqb_refl in Hid. }
  rewrite Hnode, Hcount, Hforeign. simpl. rewrite Hsel. unfold mentions. simpl.
  replace (failing (set_trigger_id (rd_terminal ready) (tg_id tr))) with true by (by rewrite <- Hf).
  assert (E1 : tg_schema_version tr = EXECUTION_POLICY_SCHEMA_V1) by (by rewrite Htr).
  assert (E2 : tg_id tr = control_event_for_attempt a 0) by (by rewrite Htr).
  assert (E3 : tg_policy tr = policy_name p) by (by rewrite Htr).
  assert (E4 : tg_grace_ms tr = policy_grace p) by (by rewrite Htr).
  rewrite E1, E2, E3, E4, String.eqb_refl, !(bool_decide_eq_true_2 _ eq_refl).
  by rewrite (bool_decide_eq_false_2 (p = _)) by done.
Qed.

(** A committed trigger survives a restart. When a batch selects a trigger
    on a fresh controller, restoring that trigger from the committed terminals
    on another fresh controller is accepted and gives exactly the controller
    that acknowledging the committed barrier gives in the first one. *)
Theorem restore_matches_acknowledged a batch refs p c sel tr ctl terminals :
  finalize_ready_batch a batch refs c (new_controller p) = (Ok (mkSelection sel (Some tr)), ctl) ->
  committed sel terminals ->
  (forall r, r ∈ batch -> policy_trigger_id (rd_terminal r) = None) ->
  (forall n n' x, refs !! n = Some x -> refs !! n' = Some x -> n = n') ->
  restore_committed_trigger a tr terminals refs (new_controller p)
  = (Ok tt, snd (acknowledge_barrier ServedPrimaryCommitted false ctl)).
Proof.
  intros E C Hnone Hinj. destruct (finalize_selects _ _ _ _ _ _ _ _ E) as (_ & _ & Hp & -> & ready & S).
  simpl in Hp, S. rewrite (restore_accepts _ _ _ _ _ _ _ _ Hp S C Hnone Hinj). by destruct p.
Qed.

(** ** The theorems at a concrete run *)
Definition demo_terminal (d : NodePrimaryDisposition) : NodeTerminal :=
  mkTerminal 1 d (mkNodeCleanup CdNotNeeded 0) None false false None.
Definition demo_batch : list ReadyNodeTerminal :=
  [mkReady "c" (demo_terminal PrimTimedOut); mkReady "a" (demo_terminal PrimCompleted);
   mkReady "b" (demo_terminal PrimFailed)].
Definition demo_refs : gmap string PolicyNodeRef :=
  {["a" := mkNodeRef 0 "ha"; "b" := mkNodeRef 1 "hb"; "c" := mkNodeRef 2 "hc"]}.
Definition demo_trigger : PolicyTrigger :=
  mkTrigger 1 "attempt:policy:0" (mkNodeRef 1 "hb") NmFixedGrace (Some 50).
Definition demo_selection : list ReadyNodeTerminal :=
  [mkReady "a" (demo_terminal PrimCompleted);
   mkReady "b" (set_trigger_id (demo_terminal PrimFailed) "attempt:policy:0");
   mkReady "c" (demo_terminal PrimTimedOut)].
Definition demo_committed : gmap string NodeTerminal :=
  list_to_map ((fun r => (rd_node r, rd_terminal r)) <$> demo_selection).

(** The drained order does not matter, and "b" is selected before "c". *)
Lemma ready_batch_selection_witness :
  finalize_ready_batch "attempt" demo_batch demo_refs false (new_controller (FixedGrace 50))
  = (Ok (mkSelection demo_selection (Some demo_trigger)),
     mkController (FixedGrace 50) (Some demo_trigger) true true false false)
  /\ finalize_ready_batch "attempt" (reverse demo_batch) demo_refs false (new_controller (FixedGrace 50))
  = finalize_ready_batch "attempt" demo_batch demo_refs false (new_controller (FixedGrace 50)).
Proof.
  split; [vm_compute; reflexivity|]. symmetry.
  destruct (ready_batch_selection "attempt" demo_batch (reverse demo_batch) demo_refs false
    (new_controller (FixedGrace 50))) as [H _]; [by rewrite reverse_Permutation|exact H].
Defined.

Lemma demo_refs_inj n n' x : demo_refs !! n = Some x -> demo_refs !! n' = Some x -> n = n'.
Proof.
  unfold demo_refs. rewrite !lookup_insert_Some, !lookup_singleton_Some. naive_solver.
Qed.

Lemma restore_matches_acknowledged_witness :
  restore_committed_trigger "attempt" demo_trigger demo_committed demo_refs (new_controller (FixedGrace 50))
  = (Ok tt, mkController (FixedGrace 50) (Some demo_trigger) false true true false).
Proof.
  rewrite (restore_matches_acknowledged "attempt" demo_batch demo_refs (FixedGrace 50) false demo_selection
    demo_trigger (mkController (FixedGrace 50) (Some demo_trigger) true true false false)).
  - reflexivity.
  - vm_compute. reflexivity.
  - split.
    + intros r Hr. unfold demo_selection in Hr. repeat (apply elem_of_cons in Hr as [-> |Hr]; [reflexivity|]).
      by apply not_elem_of_nil in Hr.
    + intros n t Ht. left. unfold demo_committed in Ht. apply elem_of_list_to_map_2 in Ht.
      apply list_elem_of_fmap in Ht as ([m u] & E & Hin). simpl in E. by simplify_eq.
  - intros r Hr. unfold demo_batch in Hr. repeat (apply elem_of_cons in Hr as [-> |Hr]; [reflexivity|]).
    by apply not_elem_of_nil in Hr.
  - apply demo_refs_inj.
Defined.

(** A fixed grace that is acknowledged, expires twice and sees another failing
    batch stops its siblings once. *)
Example stops_once_demo :
  let s := run controller_step (new_controller (FixedGrace 50), [])
    [OpFinalize "attempt" demo_batch demo_refs false; OpExpireGrace;
     OpAcknowledge ServedPrimaryCommitted false; OpExpireGrace; OpExpireGrace;
     OpFinalize "attempt" demo_batch demo_refs false; OpAcknowledge PrimaryFailed true] in
  s.2 = [NoAction; NoAction; CancelRunningSiblings; ArmManualGrace 50; NoAction].
Proof. vm_compute. reflexivity. Qed.
