(* ===== verification/Scheduler.v ===== *)
(** * Scheduler arbitration and cancellation settlement

    [bridge-workflow/src/scheduler_arbitration.rs]: the pure choice of the arm a
    workflow's scheduler serves next, and what a cutoff tied with ready
    completions cancels. [bridge-workflow/src/cancellation_settlement.rs]: the
    preservation-first settlement of a cancelled node with its sole cleanup
    owner. The ownership guard's destructor is explicit: a settlement that is
    dropped passes its guard to [drop_guard], which counts a violation. *)
From S2P Require Import Prelude Domain ExecutionPolicy.
Open Scope Z_scope.
Open Scope bridge_scope.

(** ** Arbitration *)
Inductive SchedulerArm :=
| DrainReadyNodeCompletions | DurableTriggerBarrierAcknowledgements
| WorkflowOrExternalCancellation | FixedGraceExpiry | AbsoluteCutoff
| MechanicallyProvedImpossibility | DueNoProgressSnapshots | WaitForNodeActivityControlOrClock.
#[global] Instance scheduler_arm_eq_dec : EqDecision SchedulerArm.
Proof. solve_decision. Defined.

Definition SCHEDULER_ARM_PRIORITY_V1 : list SchedulerArm :=
  [DrainReadyNodeCompletions; DurableTriggerBarrierAcknowledgements; WorkflowOrExternalCancellation;
   FixedGraceExpiry; AbsoluteCutoff; MechanicallyProvedImpossibility; DueNoProgressSnapshots;
   WaitForNodeActivityControlOrClock].

Record ReadyNodeCompletion := mkCompletion { rc_node_id : string; ready_at_ms : Z }.
#[global] Instance ready_node_completion_eq_dec : EqDecision ReadyNodeCompletion.
Proof. solve_decision. Defined.

Record Readiness := mkReadiness {
  ready_node_completions : list ReadyNodeCompletion;
  durable_trigger_barrier_acknowledgements : bool;
  workflow_or_external_cancellation : bool;
  fixed_grace_expired : bool;
  absolute_cutoff_reached : bool;
  mechanical_impossibility_proved : bool;
  no_progress_snapshot_due : bool }.

Record TieFacts := mkTieFacts { absolute_cutoff_at_ms : Z; inflight_nodes : list string }.

Record Arbitration := mkArbitration {
  winner : SchedulerArm;
  arb_ready : list ReadyNodeCompletion;
  post_cutoff_completions : list ReadyNodeCompletion;
  nodes_to_cancel_after_winner : list string }.

Definition arm_is_ready (readiness : Readiness) (has_ready_completions : bool) (arm : SchedulerArm) : bool :=
  match arm with
  | DrainReadyNodeCompletions => has_ready_completions
  | DurableTriggerBarrierAcknowledgements => durable_trigger_barrier_acknowledgements readiness
  | WorkflowOrExternalCancellation => workflow_or_external_cancellation readiness
  | FixedGraceExpiry => fixed_grace_expired readiness
  | AbsoluteCutoff => absolute_cutoff_reached readiness
  | MechanicallyProvedImpossibility => mechanical_impossibility_proved readiness
  | DueNoProgressSnapshots => no_progress_snapshot_due readiness
  | WaitForNodeActivityControlOrClock => true
  end.

Definition completion_leb (a b : ReadyNodeCompletion) : bool := str_leb (rc_node_id a) (rc_node_id b).

Definition has_completion (node : string) (l : list ReadyNodeCompletion) : bool :=
  existsb (fun c => String.eqb (rc_node_id c) node) l.

(** [None] is the panic of [expect]. *)
Definition arbitrate_scheduler_v1 (readiness : Readiness) (tie_facts : TieFacts) : option Arbitration :=
  let in_time c := ready_at_ms c <=? absolute_cutoff_at_ms tie_facts in
  let all := ready_node_completions readiness in
  let cutoff := absolute_cutoff_reached readiness in
  let kept := if cutoff then filter (fun c => in_time c = true) all else all in
  let late := if cutoff then filter (fun c => in_time c = false) all else [] in
  let kept := sort_by completion_leb kept in
  let late := sort_by completion_leb late in
  let has := match kept with [] => false | _ => true end in
  winner ← List.find (arm_is_ready readiness has) SCHEDULER_ARM_PRIORITY_V1;
  let cancels := cutoff && match winner with
                           | DrainReadyNodeCompletions | AbsoluteCutoff => true | _ => false end in
  let nodes := if cancels
               then filter (fun n => has_completion n kept = false) (inflight_nodes tie_facts) else [] in
  Some (mkArbitration winner kept late (sort_by str_leb nodes)).

(** Position of an arm in the priority order. *)
Definition arm_rank (a : SchedulerArm) : nat :=
  match a with
  | DrainReadyNodeCompletions => 0 | DurableTriggerBarrierAcknowledgements => 1
  | WorkflowOrExternalCancellation => 2 | FixedGraceExpiry => 3 | AbsoluteCutoff => 4
  | MechanicallyProvedImpossibility => 5 | DueNoProgressSnapshots => 6
  | WaitForNodeActivityControlOrClock => 7
  end.

Lemma find_arm_spec readiness has :
  exists w, List.find (arm_is_ready readiness has) SCHEDULER_ARM_PRIORITY_V1 = Some w
    /\ arm_is_ready readiness has w = true
    /\ forall a, arm_is_ready readiness has a = true -> (arm_rank w <= arm_rank a)%nat.
Proof.
  unfold SCHEDULER_ARM_PRIORITY_V1; cbn [List.find].
  repeat match goal with |- context [if arm_is_ready readiness has ?x then _ else _] =>
    let E := fresh "E" in destruct (arm_is_ready readiness has x) eqn:E;
      [eexists; split; [reflexivity|]; split; [exact E|]; intros []; simpl arm_rank; first [lia|congruence]|] end.
  done.
Qed.

Lemma has_completion_spec node l : has_completion node l = true <-> node ∈ rc_node_id <$> l.
Proof.
  unfold has_completion. rewrite existsb_exists, list_elem_of_fmap. split.
  - intros (c & Hc & E). apply String.eqb_eq in E. exists c. by rewrite list_elem_of_In.
  - intros (c & -> & Hc). exists c. by rewrite <- list_elem_of_In, String.eqb_refl.
Qed.

(** What an arbitration promises about its inputs. *)
Record arbitrated (readiness : Readiness) (facts : TieFacts) (a : Arbitration) : Prop := {
  ar_complete : arb_ready a ++ post_cutoff_completions a ≡ₚ ready_node_completions readiness;
  ar_late : forall c, c ∈ post_cutoff_completions a ->
    absolute_cutoff_reached readiness = true /\ absolute_cutoff_at_ms facts < ready_at_ms c;
  ar_in_time : forall c, c ∈ arb_ready a -> absolute_cutoff_reached readiness = true ->
    ready_at_ms c <= absolute_cutoff_at_ms facts;
  ar_winner : arm_is_ready readiness (negb (bool_decide (arb_ready a = []))) (winner a) = true
    /\ forall w, arm_is_ready readiness (negb (bool_decide (arb_ready a = []))) w = true ->
       (arm_rank (winner a) <= arm_rank w)%nat;
  ar_accounted : absolute_cutoff_reached readiness = true ->
    winner a = DrainReadyNodeCompletions \/ winner a = AbsoluteCutoff ->
    forall n, n ∈ inflight_nodes facts -> (n ∈ rc_node_id <$> arb_ready a) <-> ~ n ∈ nodes_to_cancel_after_winner a;
  ar_only : forall n, n ∈ nodes_to_cancel_after_winner a ->
    absolute_cutoff_reached readiness = true /\ n ∈ inflight_nodes facts }.

Lemma filter_partition (cs : list ReadyNodeCompletion) (f : ReadyNodeCompletion -> bool) :
  filter (fun c => f c = true) cs ++ filter (fun c => f c = false) cs ≡ₚ cs.
Proof.
  induction cs as [|c cs IH]; [done|]. destruct (f c) eqn:E.
  - rewrite filter_cons_True, filter_cons_False by congruence. simpl. by rewrite IH.
  - rewrite filter_cons_False, filter_cons_True by congruence. by rewrite <- Permutation_middle, IH.
Qed.

(** Arbitration always decides, and what it decides is right. The winner is
    the ready arm of highest priority; every ready completion is either drained
    or reported as later than the cutoff, never both; and when a reached cutoff
    is served, each node in flight is either drained in time or cancelled. *)
Theorem arbitration_decides readiness facts :
  exists a, arbitrate_scheduler_v1 readiness facts = Some a /\ arbitrated readiness facts a.
Proof.
  unfold arbitrate_scheduler_v1.
  set (kept := sort_by completion_leb (if absolute_cutoff_reached readiness then _ else _)).
  set (late := sort_by completion_leb (if absolute_cutoff_reached readiness then _ else _)).
  assert (Hhas : match kept with [] => false | _ => true end = negb (bool_decide (kept = []))) by (by destruct kept).
  rewrite Hhas. destruct (find_arm_spec readiness (negb (bool_decide (kept = [])))) as (w & Ew & Hw & Hmin).
  rewrite Ew. simpl. eexists. split; [reflexivity|]. split; simpl.
  - unfold kept, late. rewrite !sort_by_perm. destruct (absolute_cutoff_reached readiness);
      [apply filter_partition|by rewrite app_nil_r].
  - intros c. unfold late. rewrite sort_by_elem. destruct (absolute_cutoff_reached readiness); [|set_solver].
    rewrite list_elem_of_filter, Z.leb_gt. tauto.
  - intros c. unfold kept. rewrite sort_by_elem. intros Hc Hcut. rewrite Hcut in Hc.
    apply list_elem_of_filter in Hc as [Hc _]. by apply Z.leb_le.
  - done.
  - intros Hcut Hwin n Hn. rewrite Hcut, sort_by_elem.
    replace (true && match w with DrainReadyNodeCompletions | AbsoluteCutoff => true | _ => false end)
      with true by (by destruct Hwin; subst).
    rewrite list_elem_of_filter, <- has_completion_spec. destruct (has_completion n kept); naive_solver.
  - intros n. rewrite sort_by_elem. destruct (absolute_cutoff_reached readiness); simpl; [|set_solver].
    by destruct w; rewrite ?list_elem_of_filter, ?elem_of_nil; naive_solver.
Qed.

(** ** Cancellation settlement *)
Record SoleCleanupOwnerGuard := mkGuard { recovery_owner : option RecoveryOwner }.
Definition CleanupOwnershipAudit := Z.

(** [Drop for SoleCleanupOwnerGuardV1]. *)
Definition drop_guard (g : SoleCleanupOwnerGuard) (audit : CleanupOwnershipAudit) : CleanupOwnershipAudit :=
  match recovery_owner g with Some _ => (audit + 1) mod (u64_max + 1) | None => audit end.

(** [settle] and [transfer] consume the guard: the owner is taken out before
    the destructor runs. [None] is the panic of [expect]. *)
Definition guard_settle (g : SoleCleanupOwnerGuard) (audit : CleanupOwnershipAudit) : CleanupOwnershipAudit :=
  drop_guard (mkGuard None) audit.
Definition guard_transfer (g : SoleCleanupOwnerGuard) (audit : CleanupOwnershipAudit)
  : option RecoveryOwner * CleanupOwnershipAudit :=
  (recovery_owner g, drop_guard (mkGuard None) audit).

(** [TypedWorktreePreservationV1::new]. *)
Definition typed_preservation (r : WorktreePreservationResult) : option WorktreePreservationResult :=
  if bool_decide (ps_disposition r = PsPending) then None else Some r.

(** The settlement; its type parameter is the preservation stage. *)
Record CancellationSettlement (P : Type) := mkSettlement {
  observation : NodeCleanupObservation;
  elapsed_after_cancellation_ms : Z;
  cleanup_deadline_after_cancellation_ms : Z;
  guard : option SoleCleanupOwnerGuard;
  preservation : P }.
Arguments mkSettlement {P}. Arguments observation {P}. Arguments elapsed_after_cancellation_ms {P}.
Arguments cleanup_deadline_after_cancellation_ms {P}. Arguments guard {P}. Arguments preservation {P}.

Definition settlement_new (ob : NodeCleanupObservation) (elapsed deadline : Z) : CancellationSettlement unit :=
  mkSettlement ob elapsed deadline
    ((fun owner => mkGuard (Some owner)) <$> observation_recovery_owner ob) tt.

Definition after_preservation (self : CancellationSettlement unit) (p : WorktreePreservationResult)
  : CancellationSettlement WorktreePreservationResult :=
  mkSettlement (observation self) (elapsed_after_cancellation_ms self)
    (cleanup_deadline_after_cancellation_ms self) (guard self) p.

(** Dropping a settlement drops its guard. *)
Definition drop_settlement {P} (self : CancellationSettlement P) (audit : CleanupOwnershipAudit)
  : CleanupOwnershipAudit :=
  match guard self with Some g => drop_guard g audit | None => audit end.

Inductive Disposition :=
| Resolved (record : NodeCleanupRecord)
| Unresolved (self : CancellationSettlement WorktreePreservationResult).

(** [into_disposition]; [None] would be the panic of a transfer without owner. *)
Definition into_disposition (self : CancellationSettlement WorktreePreservationResult)
    (audit : CleanupOwnershipAudit) : option (Disposition * CleanupOwnershipAudit) :=
  let settled := settle_node_cleanup_v2 (observation self) (elapsed_after_cancellation_ms self)
                   (cleanup_deadline_after_cancellation_ms self) in
  if cleanup_is_pending settled then Some (Unresolved self, audit)
  else
    let record cleanup := mkCleanupRecord NODE_CLEANUP_RECORD_SCHEMA_V2 cleanup (preservation self) None in
    match validate_coherence (record settled) with
    | Err _ => Some (Unresolved self, audit)
    | Ok _ =>
        match settled, guard self with
        | ClnPartial d _, Some g =>
            let (o, audit) := guard_transfer g audit in
            owner ← o; Some (Resolved (record (ClnPartial d owner)), audit)
        | ClnUnknown d (Some _), Some g =>
            let (o, audit) := guard_transfer g audit in
            owner ← o; Some (Resolved (record (ClnUnknown d (Some owner))), audit)
        | cleanup, Some g => Some (Resolved (record cleanup), guard_settle g audit)
        | cleanup, None => Some (Resolved (record cleanup), audit)
        end
    end.

(** A settlement resolves or comes back as it was. *)
Lemma settlement_resolves ob elapsed deadline p p' audit :
  typed_preservation p = Some p' ->
  let s := after_preservation (settlement_new ob elapsed deadline) p' in
  let settled := settle_node_cleanup_v2 ob elapsed deadline in
  exists r, into_disposition s audit = Some r
    /\ match r with
       | (Resolved record, audit') =>
           audit' = audit /\ validate_coherence record = Ok tt /\ cr_cleanup record = settled
           /\ cleanup_is_pending settled = false /\ cr_preservation record = p
       | (Unresolved s', audit') =>
           s' = s /\ audit' = audit
           /\ (cleanup_is_pending settled = true /\ elapsed < deadline
               \/ ob = ObNotNeeded /\ ps_disposition p = PsPreserved)
       end.
Proof.
  unfold typed_preservation. case_bool_decide as Hps; [done|]. intros Ep. injection Ep as <-.
  unfold into_disposition. simpl. set (settled := settle_node_cleanup_v2 ob elapsed deadline).
  destruct (cleanup_is_pending settled) eqn:Epend; unfold settled in Epend |- *.
  { eexists. split; [done|]. simpl. split_and!; try done. left. split; [done|].
    destruct (Z.lt_ge_cases elapsed deadline); [done|].
    rewrite settle_not_pending in Epend; done. }
  pose proof (settle_owner ob elapsed deadline) as Hown.
  destruct (validate_coherence _) as [[]|e] eqn:Ec.
  - destruct (settle_node_cleanup_v2 ob elapsed deadline) as [|d|d o|d cause| |d o] eqn:Es; try done;
      destruct (observation_recovery_owner ob) as [owner|] eqn:Eo; simpl;
      try (eexists; split; [reflexivity|]; simpl; by split_and!).
    all: try (specialize (Hown owner eq_refl) as [(d' & [Hc|[? Hc]])|[Hc|(d' & [Hc|Hc])]]; simplify_eq;
              eexists; (split; [reflexivity|]); simpl; by split_and!).
    all: destruct o; simpl; eexists; (split; [reflexivity|]); simpl; by split_and!.
  - eexists. split; [done|]. simpl. split_and!; try done. right.
    assert (Hn : ~ documented_table (mkCleanupRecord NODE_CLEANUP_RECORD_SCHEMA_V2
              (settle_node_cleanup_v2 ob elapsed deadline) p None)).
    { intros Hd. apply validate_coherence_table in Hd. congruence. }
    unfold documented_table in Hn. simpl in Hn.
    destruct (settle_node_cleanup_v2 ob elapsed deadline) eqn:Es; try (destruct Hn; split; naive_solver).
    split; [|destruct (ps_disposition p); try done; destruct Hn; split; set_solver].
    unfold settle_node_cleanup_v2 in Es. destruct ob; try done; machine; simplify_eq; machine; done.
Qed.

(** The violations counted when a settlement of the observation is dropped. *)
Definition abandoned (ob : NodeCleanupObservation) (audit : CleanupOwnershipAudit) : CleanupOwnershipAudit :=
  match observation_recovery_owner ob with Some _ => (audit + 1) mod (u64_max + 1) | None => audit end.
(** What a final cleanup says of the observed owner: the resources settled in time, or the owner itself. *)
Definition owner_accounted (owner : RecoveryOwner) (c : NodeCleanupV2) : Prop :=
  exists d, c = ClnComplete d \/ (exists cause, c = ClnFailed d cause) \/ c = ClnPartial d owner \/ c = ClnUnknown d (Some owner).

(** C38: settling a cancelled node never loses its cleanup owner. A settlement
    guards the observed owner from its creation: at either stage, dropping it
    counts a violation exactly when an owner was observed. With a typed
    preservation it never panics: it resolves without a violation, with a
    coherent final record that is exactly the settled cleanup and accounts for
    the observed owner, or it comes back with the guard of the observed owner,
    still counted when dropped. It comes back only while the cleanup is pending
    before its deadline, or when nothing needed cleanup although the worktree
    was preserved. *)
Theorem settlement_keeps_owner ob elapsed deadline p p' audit :
  typed_preservation p = Some p' ->
  let s := after_preservation (settlement_new ob elapsed deadline) p' in
  let settled := settle_node_cleanup_v2 ob elapsed deadline in
  drop_settlement (settlement_new ob elapsed deadline) audit = abandoned ob audit /\
  drop_settlement s audit = abandoned ob audit /\
  exists r, into_disposition s audit = Some r
    /\ match r with
       | (Resolved record, audit') =>
           audit' = audit /\ validate_coherence record = Ok tt /\ cr_cleanup record = settled
           /\ cleanup_is_pending settled = false /\ cr_preservation record = p
           /\ (forall owner, observation_recovery_owner ob = Some owner -> owner_accounted owner (cr_cleanup record))
       | (Unresolved s', audit') =>
           s' = s /\ audit' = audit /\ drop_settlement s' audit' = abandoned ob audit
           /\ (forall owner, observation_recovery_owner ob = Some owner -> guard s' = Some (mkGuard (Some owner)))
           /\ (cleanup_is_pending settled = true /\ elapsed < deadline
               \/ ob = ObNotNeeded /\ ps_disposition p = PsPreserved)
       end.
Proof.
  intros Hp. cbn zeta. assert (drop_settlement (after_preservation (settlement_new ob elapsed deadline) p') audit = abandoned ob audit) as Hd
    by (unfold drop_settlement, abandoned; simpl; by destruct (observation_recovery_owner ob)).
  split; [exact Hd|]. split; [done|]. destruct (settlement_resolves ob elapsed deadline p p' audit Hp) as (r & Hr & Hm). exists r. split; [done|].
  destruct r as [[record|s'] audit'].
  - destruct Hm as (-> & H1 & H2 & H3 & H4). split_and!; try done. intros owner Ho. rewrite H2.
    destruct (settle_owner ob elapsed deadline owner Ho) as [(d & [H|[c H]])|[H|(d & [H|H])]]; [exists d; eauto..| |exists d; eauto|exists d; eauto]. by rewrite H in H3.
  - destruct Hm as (-> & -> & Hm). split_and!; try done. intros owner Ho. simpl. by rewrite Ho.
Qed.

Lemma settlement_keeps_owner_witness :
  let s ob elapsed := after_preservation (settlement_new ob elapsed 60) (mkPreservation PsRemoved None None) in
  into_disposition (s (ObUnsettled 50 demo_owner) 60) 0
  = Some (Resolved (mkCleanupRecord 2 (ClnPartial 50 demo_owner) (mkPreservation PsRemoved None None) None), 0)
  /\ exists s', into_disposition (s (ObUnsettled 50 demo_owner) 59) 0 = Some (Unresolved s', 0)
     /\ drop_settlement s' 0 = 1.
Proof.
  split; [reflexivity|].
  destruct (settlement_keeps_owner (ObUnsettled 50 demo_owner) 59 60 (mkPreservation PsRemoved None None)
    (mkPreservation PsRemoved None None) 0 eq_refl) as (_ & _ & r & Hr & Hc).
  destruct r as [[record|s'] audit'].
  - destruct Hc as (_ & _ & _ & Hp & _). discriminate Hp.
  - destruct Hc as (-> & -> & Hd & _). eexists. split; [exact Hr|exact Hd].
Defined.

Example arbitration_tie :
  arbitrate_scheduler_v1
    (mkReadiness [mkCompletion "c" 101; mkCompletion "a" 100] false true false true false false)
    (mkTieFacts 100 ["c"; "b"; "a"])
  = Some (mkArbitration DrainReadyNodeCompletions [mkCompletion "a" 100] [mkCompletion "c" 101] ["b"; "c"]).
Proof. vm_compute. reflexivity. Qed.
