(* ===== verification/Checkout.v ===== *)
(** * Durable identities: minted ids and frozen worktree checkouts

    The hexadecimal identifiers of [bridge-core/src/ids.rs] and
    [execution_policy.rs], and the freezing of a worktree checkout into its
    target directory and its digest ([freeze_worktree_checkout_v1]). SHA-256 is
    a parameter given by its bytes. *)
From S2P Require Import Prelude Domain SessionCwd TurnLiveness ExecutionPolicy FanOut.
Open Scope Z_scope.
Open Scope bridge_scope.

(** ** Worktree custody ids *)
Definition CUSTODY_PREFIX : string := "custody-".

Definition custody_id_mint (bytes : list N) : result string BridgeError :=
  if forallb (fun b => (b =? 0)%N) bytes then Err IdentityUnavailable
  else Ok (CUSTODY_PREFIX +:+ hex_bytes bytes).

Definition custody_id_parse (value : string) : result string ExecutionPolicyError :=
  let? suffix := ok_or (strip_prefix CUSTODY_PREFIX value) InvalidStructuredEvidence in
  if negb (String.length value =? String.length CUSTODY_PREFIX + 64)%nat
     || bytes_all is_zero_digit suffix || negb (bytes_all is_hex_lower suffix)
  then Err InvalidStructuredEvidence
  else Ok value.

(** ** Checkouts *)
Inductive FrozenProviderLogicalSession := Preflight (candidate_ordinal : Z) | Execute (candidate_ordinal : Z).

Definition session_tag (s : FrozenProviderLogicalSession) : string * Z :=
  match s with Preflight c => ("preflight", c) | Execute c => ("execute", c) end.

Record WorktreeCheckoutInput := mkCheckout {
  ck_attempt_id : string;
  ck_node : PolicyNodeRef;
  ck_logical_session : FrozenProviderLogicalSession;
  ck_source_cwd : string;
  ck_canonical_source_cwd : string;
  ck_canonical_worktree_root : string;
  ck_worktree_owner : string }.

(** [to_be_bytes] of a [w]-byte integer. *)
Fixpoint be_bytes (w : nat) (n : Z) : string :=
  match w with
  | O => ""
  | S w' => String (Ascii.ascii_of_N (Z.to_N (n / 256 ^ Z.of_nat w' mod 256))) (be_bytes w' n)
  end.

Definition push_bytes (value : string) : string := be_bytes 8 (Z.of_nat (String.length value)) +:+ value.

Definition CHECKOUT_EFFECT_SCHEMA_V1 : Z := 1.

Definition checkout_preimage (input : WorktreeCheckoutInput) : string :=
  let (kind, candidate_ordinal) := session_tag (ck_logical_session input) in
  push_bytes "a2a-bridge/frozen-worktree-target/v1"
  +:+ (be_bytes 2 CHECKOUT_EFFECT_SCHEMA_V1
  +:+ (push_bytes (ck_attempt_id input)
  +:+ (be_bytes 4 (sorted_ordinal (ck_node input))
  +:+ (push_bytes (id_sha256 (ck_node input))
  +:+ (push_bytes kind
  +:+ (be_bytes 2 candidate_ordinal
  +:+ (push_bytes (ck_source_cwd input)
  +:+ (push_bytes (ck_canonical_source_cwd input)
  +:+ (push_bytes (ck_canonical_worktree_root input)
  +:+ push_bytes (ck_worktree_owner input)))))))))).

Definition MAX_WORKTREE_OWNER_BYTES : nat := 64.

Definition owner_byte (c : Ascii.ascii) : bool :=
  is_ascii_lowercase c || is_ascii_digit c
  || (Ascii.N_of_ascii c =? 45)%N || (Ascii.N_of_ascii c =? 95)%N.

Fixpoint ends_with_slash (s : string) : bool :=
  match s with
  | EmptyString => false
  | String c EmptyString => Ascii.eqb c slash
  | String _ s' => ends_with_slash s'
  end.

(** [Path::join]. *)
Definition path_join (root name : string) : string :=
  if is_absolute name then name
  else if ends_with_slash root then root +:+ name
  else root +:+ String slash name.

Section Freeze.
Context (sha256 : string -> list N).

(** [Sha256HexV1::digest]. *)
Definition sha256_hex (s : string) : string := hex_bytes (sha256 s).

Definition target_name (input : WorktreeCheckoutInput) : string :=
  ck_worktree_owner input +:+ "-r2f1a-" +:+ String.substring 0 32 (sha256_hex (checkout_preimage input)).

Definition freeze_worktree_checkout_v1 (input : WorktreeCheckoutInput)
  : result FrozenCheckoutEffect ExecutionPolicyError :=
  let owner := ck_worktree_owner input in
  let root := ck_canonical_worktree_root input in
  if String.eqb owner "" || (MAX_WORKTREE_OWNER_BYTES <? String.length owner)%nat
     || negb (bytes_all owner_byte owner)
  then Err InvalidWorktreeOwner
  else
    match session_cwd_parse (path_join root (target_name input)) with
    | Err _ => Err WorktreeTargetOutsideRoot
    | Ok target =>
        if negb (is_under target root) then Err WorktreeTargetOutsideRoot
        else
          let committed := checkout_preimage input +:+ push_bytes target in
          Ok (Worktree (ck_source_cwd input) (ck_canonical_source_cwd input) root owner target
                (sha256_hex committed))
    end.
End Freeze.

Definition freeze_direct_checkout_v1 (source_cwd : string) : FrozenCheckoutEffect :=
  Direct source_cwd source_cwd.

(** ** Strings *)
Lemma string_app_inj a1 a2 r1 r2 :
  String.length a1 = String.length a2 -> a1 +:+ r1 = a2 +:+ r2 -> a1 = a2 /\ r1 = r2.
Proof.
  revert a2; induction a1 as [|c a1 IH]; intros [|c2 a2] Hl E; simpl in *; try done.
  injection E as -> E. injection Hl as Hl. by destruct (IH a2 Hl E) as [-> ->].
Qed.

Lemma string_app_assoc a b c : (a +:+ b) +:+ c = a +:+ (b +:+ c).
Proof. induction a as [|x a IH]; [done|]. change (String x ((a +:+ b) +:+ c) = String x (a +:+ (b +:+ c))). by rewrite IH. Qed.

Lemma be_bytes_length w n : String.length (be_bytes w n) = w.
Proof. induction w; simpl; auto. Qed.

Lemma be_bytes_inj w n m :
  0 <= n < 256 ^ Z.of_nat w -> 0 <= m < 256 ^ Z.of_nat w -> be_bytes w n = be_bytes w m -> n = m.
Proof.
  intros Hn Hm E.
  assert (Hmod : n mod 256 ^ Z.of_nat w = m mod 256 ^ Z.of_nat w).
  { clear Hn Hm. induction w as [|w IH]; [by rewrite !Z.mod_1_r|].
    cbn [be_bytes] in E. injection E as Ed E. specialize (IH E).
    assert (Hd : n / 256 ^ Z.of_nat w mod 256 = m / 256 ^ Z.of_nat w mod 256).
    { apply (f_equal Ascii.N_of_ascii) in Ed.
      pose proof (Z.mod_pos_bound (n / 256 ^ Z.of_nat w) 256). pose proof (Z.mod_pos_bound (m / 256 ^ Z.of_nat w) 256).
      rewrite !Ascii.N_ascii_embedding in Ed by lia. lia. }
    rewrite Nat2Z.inj_succ, Z.pow_succ_r, (Z.mul_comm 256), !Z.rem_mul_r by lia. by rewrite IH, Hd. }
  by rewrite !Z.mod_small in Hmod by lia.
Qed.

(** Lengths are [u64] values. *)
Definition short (s : string) : Prop := Z.of_nat (String.length s) < 256 ^ 8.

Lemma push_bytes_inj a b r1 r2 :
  short a -> short b -> push_bytes a +:+ r1 = push_bytes b +:+ r2 -> a = b /\ r1 = r2.
Proof.
  unfold push_bytes, short. intros Ha Hb E. rewrite !string_app_assoc in E.
  apply string_app_inj in E as [El E]; [|by rewrite !be_bytes_length].
  apply be_bytes_inj in El; [|simpl; lia..]. apply string_app_inj in E as [-> ->]; [done|lia].
Qed.

Lemma be_bytes_app_inj w n m r1 r2 :
  0 <= n < 256 ^ Z.of_nat w -> 0 <= m < 256 ^ Z.of_nat w ->
  be_bytes w n +:+ r1 = be_bytes w m +:+ r2 -> n = m /\ r1 = r2.
Proof.
  intros Hn Hm E. apply string_app_inj in E as [E ->]; [|by rewrite !be_bytes_length].
  split; [by eapply be_bytes_inj|done].
Qed.

(** ** Identity of a checkout *)
Record checkout_in_range (i : WorktreeCheckoutInput) : Prop := {
  cir_attempt : short (ck_attempt_id i);
  cir_node : short (id_sha256 (ck_node i));
  cir_ordinal : is_u32 (sorted_ordinal (ck_node i));
  cir_candidate : 0 <= snd (session_tag (ck_logical_session i)) < 65536;
  cir_source : short (ck_source_cwd i);
  cir_canonical : short (ck_canonical_source_cwd i);
  cir_root : short (ck_canonical_worktree_root i);
  cir_owner : short (ck_worktree_owner i) }.

Lemma session_tag_inj s1 s2 : session_tag s1 = session_tag s2 -> s1 = s2.
Proof. destruct s1, s2; simpl; intros E; by simplify_eq. Qed.

Lemma session_tag_short s : short (session_tag s).1.
Proof. by destruct s. Qed.

(** The bytes that name a worktree checkout determine it. Two checkouts with
    the same preimage have the same attempt, node, logical session, directories
    and owner: the length prefixes leave no ambiguity between the fields. *)
Theorem checkout_preimage_injective i1 i2 :
  checkout_in_range i1 -> checkout_in_range i2 ->
  checkout_preimage i1 = checkout_preimage i2 -> i1 = i2.
Proof.
  intros [A1 N1 O1 C1 S1 K1 R1 W1] [A2 N2 O2 C2 S2 K2 R2 W2].
  unfold checkout_preimage. pose proof (session_tag_short (ck_logical_session i1)) as T1.
  pose proof (session_tag_short (ck_logical_session i2)) as T2.
  destruct (session_tag (ck_logical_session i1)) as [k1 c1] eqn:E1.
  destruct (session_tag (ck_logical_session i2)) as [k2 c2] eqn:E2.
  cbn [fst snd] in *. intros E.
  unfold is_u32, u32_max in *.
  apply push_bytes_inj in E as [_ E]; [|done..].
  apply be_bytes_app_inj in E as [_ E]; [|simpl; unfold CHECKOUT_EFFECT_SCHEMA_V1; lia..].
  apply push_bytes_inj in E as [Ea E]; [|done..].
  apply be_bytes_app_inj in E as [Eo E]; [|simpl; lia..].
  apply push_bytes_inj in E as [En E]; [|done..].
  apply push_bytes_inj in E as [Ek E]; [|done..].
  apply be_bytes_app_inj in E as [Ec E]; [|simpl; lia..].
  apply push_bytes_inj in E as [Es E]; [|done..].
  apply push_bytes_inj in E as [Ecs E]; [|done..].
  apply push_bytes_inj in E as [Er E]; [|done..].
  rewrite <- (string_app_nil (push_bytes (ck_worktree_owner i1))),
    <- (string_app_nil (push_bytes (ck_worktree_owner i2))) in E.
  apply push_bytes_inj in E as [Ew _]; [|done..].
  assert (ck_logical_session i1 = ck_logical_session i2) by (apply session_tag_inj; congruence).
  destruct i1 as [? [] ? ? ? ? ?], i2 as [? [] ? ? ? ? ?]; simpl in *. by subst.
Qed.

(** ** Target directories *)
Lemma bytes_all_impl (f g : Ascii.ascii -> bool) s :
  (forall c, f c = true -> g c = true) -> bytes_all f s = true -> bytes_all g s = true.
Proof.
  intros Hi. induction s as [|c s IH]; simpl; [done|]. intros [H1 H2]%andb_true_iff. by rewrite Hi, IH.
Qed.

Lemma bytes_all_substring f n s : bytes_all f s = true -> bytes_all f (String.substring 0 n s) = true.
Proof.
  revert s; induction n as [|n IH]; intros [|c s]; simpl; try done.
  intros [H1 H2]%andb_true_iff. by rewrite H1, IH.
Qed.

Lemma hex_digit_lower n : (n < 16)%N -> is_hex_lower (hex_digit n) = true.
Proof.
  intros Hn. assert (E : n ∈ ([0;1;2;3;4;5;6;7;8;9;10;11;12;13;14;15]%N)).
  { destruct n as [|p]; [by left|]. do 4 (destruct p as [p|p|]; try lia; try set_solver). }
  repeat (apply elem_of_cons in E as [-> |E]; [reflexivity|]). by apply not_elem_of_nil in E.
Qed.

Lemma hex_bytes_lower bytes :
  Forall (fun b => (b < 256)%N) bytes -> bytes_all is_hex_lower (hex_bytes bytes) = true.
Proof.
  induction 1 as [|b bytes Hb _ IH]; [done|].
  change (hex_bytes (b :: bytes)) with (hex_byte b +:+ hex_bytes bytes). rewrite bytes_all_app, IH.
  unfold hex_byte. cbn [bytes_all]. rewrite !hex_digit_lower; [done|apply N.mod_lt; lia|apply N.Div0.div_lt_upper_bound; lia].
Qed.

Lemma hex_lower_owner c : is_hex_lower c = true -> owner_byte c = true.
Proof.
  unfold is_hex_lower, owner_byte, is_ascii_lowercase. intros [H|H]%orb_true_iff; [by rewrite H, orb_true_r|].
  apply andb_true_iff in H as [H1 H2]. apply N.leb_le in H1, H2.
  assert (E : ((97 <=? Ascii.N_of_ascii c) && (Ascii.N_of_ascii c <=? 122))%N = true)
    by (apply andb_true_iff; split; apply N.leb_le; lia). by rewrite E.
Qed.

Lemma owner_byte_range c : owner_byte c = true -> (45 <= Ascii.N_of_ascii c)%N /\ Ascii.N_of_ascii c <> 47%N /\ Ascii.N_of_ascii c <> 46%N.
Proof.
  unfold owner_byte, is_ascii_lowercase, is_ascii_digit.
  rewrite !orb_true_iff, !andb_true_iff, !N.leb_le, !N.eqb_eq. lia.
Qed.

Lemma owner_byte_plain c : owner_byte c = true -> negb (Ascii.eqb c slash) = true /\ not_nul c = true.
Proof.
  intros H. apply owner_byte_range in H as (H1 & H2 & _). unfold not_nul.
  split; apply negb_true_iff, Ascii.eqb_neq; intros ->; vm_compute in H1, H2; congruence.
Qed.

(** A non-empty name of owner bytes is a plain path segment. *)
Lemma owner_name_plain s : s <> "" -> bytes_all owner_byte s = true -> plain s /\ bytes_all not_nul s = true.
Proof.
  intros Hne Ho. split; [split_and!; [done|..]|].
  - intros ->. by vm_compute in Ho.
  - intros ->. by vm_compute in Ho.
  - eapply bytes_all_impl; [|exact Ho]. intros c Hc. by apply owner_byte_plain.
  - eapply bytes_all_impl; [|exact Ho]. intros c Hc. by apply owner_byte_plain.
Qed.

Lemma render_app segs name : render (segs ++ [name]) = render segs +:+ String slash name.
Proof.
  induction segs as [|x segs IH]; simpl; [by rewrite string_app_nil|].
  change (String slash (x +:+ render (segs ++ [name])) = String slash ((x +:+ render segs) +:+ String slash name)).
  by rewrite IH, string_app_assoc.
Qed.

Lemma ends_with_slash_app s c t : ends_with_slash (s +:+ String c t) = ends_with_slash (String c t).
Proof.
  induction s as [|x s IH]; [done|]. transitivity (ends_with_slash (s +:+ String c t)); [|exact IH].
  by destruct s.
Qed.

Lemma ends_with_slash_plain s :
  bytes_all (fun c => negb (Ascii.eqb c slash)) s = true -> ends_with_slash s = false.
Proof.
  induction s as [|c s IH]; [done|]. cbn [bytes_all ends_with_slash]. intros [H1 H2]%andb_true_iff.
  destruct s; [by apply negb_true_iff|]. by apply IH.
Qed.

Lemma ends_with_slash_render segs : segs <> [] -> Forall plain segs -> ends_with_slash (render segs) = false.
Proof.
  intros Hne Hp. destruct (exists_last Hne) as (l & x & ->). apply Forall_app in Hp as [_ Hx].
  apply Forall_singleton in Hx as (Hnil & _ & _ & Hs). rewrite render_app.
  rewrite ends_with_slash_app. destruct x as [|c x]; [done|].
  change (ends_with_slash (String c x) = false). by apply ends_with_slash_plain.
Qed.

(** Joining a plain name onto a normalised directory appends a segment. *)
Lemma path_join_render segs name :
  Forall plain segs -> plain name -> path_join (render_path segs) name = render_path (segs ++ [name]).
Proof.
  intros Hp (Hn & _ & _ & Hs). unfold path_join.
  assert (Habs : is_absolute name = false).
  { destruct name as [|c name]; [done|]. simpl in *. apply andb_true_iff in Hs as [Hs _]. by apply negb_true_iff. }
  rewrite Habs. destruct segs as [|x segs]; [simpl; by rewrite string_app_nil|].
  change (render_path (x :: segs)) with (render (x :: segs)).
  change (render_path ((x :: segs) ++ [name])) with (render ((x :: segs) ++ [name])).
  by rewrite ends_with_slash_render, render_app.
Qed.

Lemma components_render segs : Forall plain segs -> components (render_path segs) = segs.
Proof.
  intros Hp. destruct segs as [|x segs]; [reflexivity|]. unfold components.
  change (render_path (x :: segs)) with (render (x :: segs)). rewrite split_slash_render by done.
  rewrite filter_cons_False by (intros H; by apply H). apply filter_all.
  eapply Forall_impl; [exact Hp|]. by intros y (? & _).
Qed.

(** A parsed directory is the rendering of plain, nul-free segments. *)
Lemma parsed_segments s p :
  session_cwd_parse s = Ok p ->
  exists segs, p = render_path segs /\ Forall plain segs /\ Forall (fun s => bytes_all not_nul s = true) segs.
Proof.
  unfold session_cwd_parse. destruct (String.eqb s ""); simpl; [done|].
  destruct (bytes_all _ s) eqn:Hnul; simpl; [|done]. destruct (is_absolute s); simpl; [|done].
  destruct (normalize s) as [segs|] eqn:Hn; [|done]. intros E. injection E as <-. exists segs.
  split; [done|]. split; [by eapply normalize_plain|].
  unfold normalize in Hn. apply fmap_Some in Hn as (out & Hf & ->).
  apply Forall_forall. intros x Hx. rewrite elem_of_reverse in Hx.
  destruct (fold_subset _ _ _ Hf x Hx) as [?|Hs]; [set_solver|].
  pose proof (split_slash_nul_free s Hnul) as HF. rewrite Forall_forall in HF. auto.
Qed.

Lemma parse_rendered segs :
  Forall plain segs -> Forall (fun s => bytes_all not_nul s = true) segs ->
  session_cwd_parse (render_path segs) = Ok (render_path segs).
Proof.
  intros Hp Hn. unfold session_cwd_parse. rewrite (normalize_render segs Hp), (nul_free_render segs Hn).
  by destruct segs.
Qed.

Section FreezeTheorems.
Context (sha256 : string -> list N).
(** SHA-256 yields 32 bytes. *)
Context (sha256_bytes : forall s, length (sha256 s) = 32%nat /\ Forall (fun b => (b < 256)%N) (sha256 s)).

Lemma target_name_plain i :
  ck_worktree_owner i <> "" -> bytes_all owner_byte (ck_worktree_owner i) = true ->
  plain (target_name sha256 i) /\ bytes_all not_nul (target_name sha256 i) = true.
Proof.
  intros Hne Ho. apply owner_name_plain; unfold target_name.
  - destruct (ck_worktree_owner i); done.
  - rewrite !bytes_all_app, Ho. simpl. apply (bytes_all_impl is_hex_lower); [apply hex_lower_owner|].
    apply bytes_all_substring, hex_bytes_lower, sha256_bytes.
Qed.

(** A frozen worktree checkout stays inside its root. For a parsed root and
    a valid owner, freezing always succeeds (the refusal for escaping the root
    is never taken), the target is a directory directly below the root, and
    it parses to itself. *)
Theorem frozen_target_under_root i s :
  session_cwd_parse s = Ok (ck_canonical_worktree_root i) ->
  ck_worktree_owner i <> "" -> (String.length (ck_worktree_owner i) <= MAX_WORKTREE_OWNER_BYTES)%nat ->
  bytes_all owner_byte (ck_worktree_owner i) = true ->
  exists target digest,
    freeze_worktree_checkout_v1 sha256 i =
      Ok (Worktree (ck_source_cwd i) (ck_canonical_source_cwd i) (ck_canonical_worktree_root i)
            (ck_worktree_owner i) target digest)
    /\ session_cwd_parse target = Ok target
    /\ is_under target (ck_canonical_worktree_root i) = true
    /\ components target = components (ck_canonical_worktree_root i) ++ [target_name sha256 i].
Proof.
  intros Hroot Hne Hlen Ho. destruct (parsed_segments _ _ Hroot) as (segs & Er & Hp & Hn).
  destruct (target_name_plain i Hne Ho) as [Hpl Hnu].
  assert (Hp' : Forall plain (segs ++ [target_name sha256 i])) by (apply Forall_app; split; [done|by constructor]).
  assert (Hn' : Forall (fun s => bytes_all not_nul s = true) (segs ++ [target_name sha256 i]))
    by (apply Forall_app; split; [done|by constructor]).
  unfold freeze_worktree_checkout_v1. rewrite (proj2 (String.eqb_neq _ _) Hne), Ho.
  replace (MAX_WORKTREE_OWNER_BYTES <? String.length (ck_worktree_owner i))%nat with false
    by (symmetry; by apply Nat.ltb_ge). simpl.
  rewrite Er, path_join_render, parse_rendered by done.
  assert (Hu : is_under (render_path (segs ++ [target_name sha256 i])) (render_path segs) = true).
  { unfold is_under. rewrite !components_render by done. rewrite take_app_length. by apply bool_decide_eq_true. }
  rewrite Hu. simpl. do 2 eexists. split; [reflexivity|].
  split; [by apply parse_rendered|]. split; [done|]. by rewrite !components_render.
Qed.
End FreezeTheorems.

(** ** Minted identifiers *)
Lemma hex_digit_zero n : (n < 16)%N -> is_zero_digit (hex_digit n) = (n =? 0)%N.
Proof.
  intros Hn. assert (E : n ∈ ([0;1;2;3;4;5;6;7;8;9;10;11;12;13;14;15]%N)).
  { destruct n as [|p]; [by left|]. do 4 (destruct p as [p|p|]; try lia; try set_solver). }
  repeat (apply elem_of_cons in E as [-> |E]; [reflexivity|]). by apply not_elem_of_nil in E.
Qed.

Lemma hex_bytes_zero bytes :
  Forall (fun b => (b < 256)%N) bytes ->
  bytes_all is_zero_digit (hex_bytes bytes) = forallb (fun b => (b =? 0)%N) bytes.
Proof.
  induction 1 as [|b bytes Hb _ IH]; [done|].
  change (hex_bytes (b :: bytes)) with (hex_byte b +:+ hex_bytes bytes). rewrite bytes_all_app, IH.
  unfold hex_byte. cbn [bytes_all forallb]. rewrite andb_true_r.
  assert (b / 16 < 16)%N by (apply N.Div0.div_lt_upper_bound; lia). pose proof (N.mod_lt b 16 ltac:(lia)).
  rewrite !hex_digit_zero by done. f_equal.
  pose proof (N.div_mod b 16 ltac:(lia)).
  destruct (N.eqb_spec (b / 16) 0), (N.eqb_spec (b mod 16) 0), (N.eqb_spec b 0) as [->|]; simpl; try done; lia.
Qed.

Lemma hex_bytes_length bytes : String.length (hex_bytes bytes) = (2 * length bytes)%nat.
Proof.
  induction bytes as [|b bytes IH]; [done|].
  change (hex_bytes (b :: bytes)) with (hex_byte b +:+ hex_bytes bytes).
  rewrite string_length_app, IH. simpl. lia.
Qed.

(** What minted identifiers parse to. A custody id that is minted always
    parses to itself. An execution or attempt id does so for every random draw
    but one: [mint] accepts sixteen zero bytes and [parse] refuses the id. *)
Theorem minted_ids_parse prefix field bytes16 bytes32 :
  length bytes16 = 16%nat -> Forall (fun b => (b < 256)%N) bytes16 ->
  length bytes32 = 32%nat -> Forall (fun b => (b < 256)%N) bytes32 ->
  high_entropy_parse prefix field (high_entropy_mint prefix bytes16)
  = (if forallb (fun b => (b =? 0)%N) bytes16 then Err (InvalidRequest field)
     else Ok (high_entropy_mint prefix bytes16))
  /\ forall id, custody_id_mint bytes32 = Ok id -> custody_id_parse id = Ok id.
Proof.
  intros L16 B16 L32 B32. split.
  - unfold high_entropy_parse, high_entropy_mint. rewrite strip_prefix_app. simpl.
    rewrite string_length_app, hex_bytes_length, L16, Nat.eqb_refl, hex_bytes_lower, hex_bytes_zero by done.
    simpl. by destruct (forallb _ _).
  - unfold custody_id_mint. destruct (forallb _ _) eqn:Ez; [done|]. intros id E. injection E as <-.
    unfold custody_id_parse. rewrite strip_prefix_app. simpl ok_or. cbn [result_bind].
    by rewrite string_length_app, hex_bytes_length, L32, hex_bytes_lower, hex_bytes_zero, Ez by done.
Qed.

(** ** The theorems at concrete inputs *)
Definition demo_worktree (attempt : string) : WorktreeCheckoutInput :=
  mkCheckout attempt (mkNodeRef 1 "ab") (Execute 0) "/src" "/src" "/wt" "owner".
Definition demo_sha (s : string) : list N := replicate 32 (N.of_nat (String.length s) mod 256)%N.

Lemma checkout_preimage_injective_witness :
  checkout_preimage (demo_worktree "a") <> checkout_preimage (demo_worktree "b").
Proof.
  intros E. apply checkout_preimage_injective in E; [discriminate|..]; split; vm_compute; intuition discriminate.
Defined.

Lemma demo_sha_bytes s : length (demo_sha s) = 32%nat /\ Forall (fun b => (b < 256)%N) (demo_sha s).
Proof.
  unfold demo_sha. split; [apply length_replicate|]. apply Forall_replicate. apply N.mod_lt. lia.
Qed.

Lemma frozen_target_under_root_witness :
  exists target digest,
    freeze_worktree_checkout_v1 demo_sha (demo_worktree "a") = Ok (Worktree "/src" "/src" "/wt" "owner" target digest)
    /\ is_under target "/wt" = true.
Proof.
  destruct (frozen_target_under_root demo_sha demo_sha_bytes (demo_worktree "a") "/wt/./x/..")
    as (t & d & E & _ & Hu & _); [reflexivity|discriminate|vm_compute; lia|reflexivity|].
  by exists t, d.
Defined.

Lemma minted_ids_parse_witness :
  let zero := high_entropy_mint "exec-" (replicate 16 0%N) in
  high_entropy_parse "exec-" "execution_id" zero = Err (InvalidRequest "execution_id")
  /\ is_ok (custody_id_mint (replicate 32 7%N)) = true.
Proof.
  intros zero. unfold zero.
  destruct (minted_ids_parse "exec-" "execution_id" (replicate 16 0%N) (replicate 32 7%N)) as [E _];
    [reflexivity|by repeat constructor|reflexivity|by repeat constructor|].
  split; [rewrite E|]; reflexivity.
Defined.
