(* ===== verification/AttemptActivity.v ===== *)
(** * Attempt activity and no-progress warnings

    [bridge-core/src/attempt_activity.rs] and [no_progress_warning.rs]. The
    recorder trait is the class [AttemptRecorder]; [RecorderLaws] states what a
    turn scope relies on, the accumulator and the replay-effect recorder are
    instances, and the theorem about turn scopes is proved against the class.
    The reading of the attempt's clock is an argument of [record]; a poisoned
    mutex is not modelled, so [record] always answers. *)
From S2P Require Import Prelude Domain.
Open Scope Z_scope.
Open Scope bridge_scope.

Definition MAX_ACTIVITY_RECORDS : Z := 64.

Inductive AttemptPhase :=
| PhAdmission | PhCheckout | PhConfigure | PhProvider | PhAdapter | PhTool | PhVerification
| PhWaiter | PhCleanup | PhTerminalStore.
#[global] Instance attempt_phase_eq_dec : EqDecision AttemptPhase.
Proof. solve_decision. Defined.

Definition phase_index (p : AttemptPhase) : nat :=
  match p with
  | PhAdmission => 0 | PhCheckout => 1 | PhConfigure => 2 | PhProvider => 3 | PhAdapter => 4
  | PhTool => 5 | PhVerification => 6 | PhWaiter => 7 | PhCleanup => 8 | PhTerminalStore => 9
  end.

Inductive ActivityReason :=
| PhaseTransition | MessageDelta | ThoughtDelta | UsageHighWater | ToolTransition
| OwnedChildTransition | OwnedChildOutput | RepositoryOrdinal | GateStarted | GateExited
| CompletedSetGrowth | ProducerTerminal | Heartbeat.
#[global] Instance activity_reason_eq_dec : EqDecision ActivityReason.
Proof. solve_decision. Defined.

Definition reason_index (r : ActivityReason) : nat :=
  match r with
  | PhaseTransition => 0 | MessageDelta => 1 | ThoughtDelta => 2 | UsageHighWater => 3
  | ToolTransition => 4 | OwnedChildTransition => 5 | OwnedChildOutput => 6
  | RepositoryOrdinal => 7 | GateStarted => 8 | GateExited => 9 | CompletedSetGrowth => 10
  | ProducerTerminal => 11 | Heartbeat => 12
  end.

Definition activity_reason_supports_meaningful_progress_v1 (r : ActivityReason) : bool :=
  match r with
  | PhaseTransition | MessageDelta | ThoughtDelta | ToolTransition | OwnedChildTransition
  | RepositoryOrdinal | GateStarted | GateExited | CompletedSetGrowth | ProducerTerminal => true
  | UsageHighWater | OwnedChildOutput | Heartbeat => false
  end.

Inductive ActivityKind := KActivity | KMeaningfulProgress.
#[global] Instance activity_kind_eq_dec : EqDecision ActivityKind.
Proof. solve_decision. Defined.

Record AttemptActivity := mkActivity {
  aa_phase : AttemptPhase; aa_reason : ActivityReason; aa_kind : ActivityKind;
  aa_elapsed_ms : Z; aa_advance : Z }.

(** [phase_activity] is an array indexed by phase. *)
Record ActivityTally := mkTally {
  ta_activity : Z;
  ta_meaningful_progress : Z;
  ta_phase_activity : list Z;
  ta_last_elapsed_ms : Z;
  ta_last_progress_elapsed_ms : Z;
  ta_max_advance : Z;
  ta_overflowed : bool }.

Definition default_tally : ActivityTally := mkTally 0 0 (replicate 10 0) 0 0 0 false.

(** ** Schedule arithmetic ([AttemptScheduleV1::observe]); the clock is read by
    the caller. *)
Record AttemptScheduleObservation := mkSchedule {
  so_elapsed_ms : Z; so_remaining_ms : Z; so_due : bool }.

Definition schedule_observe (clock_ms started_ms bound_ms : Z) : AttemptScheduleObservation :=
  let elapsed_ms := saturating_sub clock_ms started_ms in
  mkSchedule elapsed_ms (saturating_sub bound_ms elapsed_ms) (bound_ms <=? elapsed_ms).

Lemma schedule_due_iff clock started bound :
  so_due (schedule_observe clock started bound) = true
  <-> so_remaining_ms (schedule_observe clock started bound) = 0.
Proof. unfold schedule_observe; simpl. machine. Qed.

(** ** The recorder trait *)
Class AttemptRecorder (R : Type) := {
  record : AttemptPhase -> ActivityReason -> Z -> Z -> R -> option AttemptActivity * R;
  tally : R -> option ActivityTally;
  mark_overflowed : R -> R }.

(** [NoopAttemptRecorder]: the default methods of the trait. *)
#[global] Instance noop_recorder : AttemptRecorder unit :=
  {| record := fun _ _ _ _ r => (None, r); tally := fun _ => None; mark_overflowed := fun r => r |}.

(** ** The accumulator

    [high_water] is an array of cells, all zero at first. *)
Record AttemptActivityAccumulator := mkAccumulator {
  acc_tally : ActivityTally;
  high_water : gmap (nat * nat) Z }.

Definition new_accumulator : AttemptActivityAccumulator := mkAccumulator default_tally ∅.

Definition cell (p : AttemptPhase) (r : ActivityReason) : nat * nat := (phase_index p, reason_index r).
Definition water (m : gmap (nat * nat) Z) (p : AttemptPhase) (r : ActivityReason) : Z :=
  default 0 (m !! cell p r).

Definition tally_observe (phase : AttemptPhase) (kind : ActivityKind) (elapsed_ms advance : Z)
    (t : ActivityTally) : ActivityTally :=
  if MAX_ACTIVITY_RECORDS <=? saturating_add_u32 (ta_activity t) (ta_meaningful_progress t)
  then mkTally (ta_activity t) (ta_meaningful_progress t) (ta_phase_activity t) (ta_last_elapsed_ms t)
         (ta_last_progress_elapsed_ms t) (ta_max_advance t) true
  else
    let phases := alter (fun n => saturating_add_u32 n 1) (phase_index phase) (ta_phase_activity t) in
    let last := Z.max (ta_last_elapsed_ms t) elapsed_ms in
    match kind with
    | KActivity =>
        mkTally (saturating_add_u32 (ta_activity t) 1) (ta_meaningful_progress t) phases last
          (ta_last_progress_elapsed_ms t) (ta_max_advance t) (ta_overflowed t)
    | KMeaningfulProgress =>
        mkTally (ta_activity t) (saturating_add_u32 (ta_meaningful_progress t) 1) phases last
          elapsed_ms (Z.max (ta_max_advance t) advance) (ta_overflowed t)
    end.

Definition accumulator_observe (phase : AttemptPhase) (reason : ActivityReason)
    (proposed_advance elapsed_ms : Z) (self : AttemptActivityAccumulator)
  : AttemptActivity * AttemptActivityAccumulator :=
  let prior := water (high_water self) phase reason in
  let progresses := activity_reason_supports_meaningful_progress_v1 reason && (prior <? proposed_advance) in
  let hw := if progresses then <[cell phase reason := proposed_advance]> (high_water self)
            else high_water self in
  let kind := if progresses then KMeaningfulProgress else KActivity in
  (mkActivity phase reason kind elapsed_ms proposed_advance,
   mkAccumulator (tally_observe phase kind elapsed_ms proposed_advance (acc_tally self)) hw).

Definition tally_mark (t : ActivityTally) : ActivityTally :=
  mkTally (ta_activity t) (ta_meaningful_progress t) (ta_phase_activity t) (ta_last_elapsed_ms t)
    (ta_last_progress_elapsed_ms t) (ta_max_advance t) true.

Definition accumulator_mark_overflowed (self : AttemptActivityAccumulator) : AttemptActivityAccumulator :=
  mkAccumulator (tally_mark (acc_tally self)) (high_water self).

(** [SharedAttemptRecorder]: the accumulator behind a mutex. *)
#[global] Instance shared_recorder : AttemptRecorder AttemptActivityAccumulator :=
  {| record := fun p r adv now a => let (act, a) := accumulator_observe p r adv now a in (Some act, a);
     tally := fun a => Some (acc_tally a);
     mark_overflowed := accumulator_mark_overflowed |}.

(** ** [ReplayEffectRecorderV1] *)
Record ReplayEffectRecorder := mkReplay { rp_inner : AttemptActivityAccumulator; rp_effects : bool }.

Definition is_effect (r : ActivityReason) : bool :=
  match r with MessageDelta | ThoughtDelta | ToolTransition => true | _ => false end.

Definition has_effects (self : ReplayEffectRecorder) : bool :=
  rp_effects self || match tally (rp_inner self) with Some t => ta_overflowed t | None => true end.

#[global] Instance replay_recorder : AttemptRecorder ReplayEffectRecorder :=
  {| record := fun p r adv now a =>
       let effects := if is_effect r then true else rp_effects a in
       let (act, inner) := record p r adv now (rp_inner a) in (act, mkReplay inner effects);
     tally := fun a => tally (rp_inner a);
     mark_overflowed := fun a => mkReplay (mark_overflowed (rp_inner a)) (rp_effects a) |}.

(** ** Turn scopes *)
Definition SCOPED_REASON_COUNT : nat := 4.

Definition scoped_reason_index (r : ActivityReason) : option nat :=
  match r with
  | MessageDelta => Some 0%nat | ThoughtDelta => Some 1%nat | UsageHighWater => Some 2%nat
  | ToolTransition => Some 3%nat | _ => None
  end.

Definition scoped_cell (p : AttemptPhase) (s : nat) : nat := (phase_index p * SCOPED_REASON_COUNT + s)%nat.

Definition level (m : gmap nat Z) (i : nat) : Z := default 0 (m !! i).

Section Scoped.
Context {R : Type} `{AttemptRecorder R}.

(** An attempt: the shared recorder, the cumulative cells, and the local cells
    of each turn scope. *)
Record Attempt := mkAttempt {
  at_recorder : R; attempt_high_water : gmap nat Z; at_scopes : list (gmap nat Z) }.

Definition new_attempt (r : R) : Attempt := mkAttempt r ∅ [].

(** [AttemptScopeOwner::turn_scope]. *)
Definition turn_scope (a : Attempt) : nat * Attempt :=
  (length (at_scopes a), mkAttempt (at_recorder a) (attempt_high_water a) (at_scopes a ++ [∅])).

(** [ScopedAttemptRecorder::record] on a scope's local cells. The attempt's
    lock is held across the inner record. *)
Definition scoped_record (phase : AttemptPhase) (reason : ActivityReason) (advance now : Z)
    (local : gmap nat Z) (attempt : gmap nat Z) (r : R)
  : option AttemptActivity * gmap nat Z * gmap nat Z * R :=
  match scoped_reason_index reason with
  | None => let (act, r) := record phase reason advance now r in (act, local, attempt, r)
  | Some s =>
      let index := scoped_cell phase s in
      let prior := level local index in
      if prior <? advance then
        let local := <[index := advance]> local in
        match checked_add (level attempt index) (advance - prior) with
        | Some next =>
            let (act, r) := record phase reason next now r in
            (act, local, <[index := next]> attempt, r)
        | None =>
            let (act, r) := record phase reason u64_max now (mark_overflowed r) in
            (act, local, <[index := u64_max]> attempt, r)
        end
      else
        let (act, r) := record phase reason (level attempt index) now r in (act, local, attempt, r)
  end.

Inductive AttemptEvent :=
| EvScope
| EvScoped (scope : nat) (p : AttemptPhase) (r : ActivityReason) (advance now : Z)
| EvDirect (p : AttemptPhase) (r : ActivityReason) (advance now : Z).

(** Lifecycle producers use the attempt's recorder directly, and only for
    reasons that no turn scope translates. *)
Definition attempt_step (a : Attempt) (ev : AttemptEvent) : Attempt :=
  match ev with
  | EvScope => snd (turn_scope a)
  | EvScoped i p r adv now =>
      match at_scopes a !! i with
      | None => a
      | Some local =>
          let '(_, local, attempt, rec) := scoped_record p r adv now local (attempt_high_water a) (at_recorder a) in
          mkAttempt rec attempt (<[i := local]> (at_scopes a))
      end
  | EvDirect p r adv now =>
      match scoped_reason_index r with
      | Some _ => a
      | None => mkAttempt (snd (record p r adv now (at_recorder a))) (attempt_high_water a) (at_scopes a)
      end
  end.
End Scoped.
Arguments Attempt R : clear implicits.

(** ** What a turn scope relies on *)
Class RecorderLaws (R : Type) `{AttemptRecorder R} := {
  water_of : R -> AttemptPhase -> ActivityReason -> Z;
  overflowed_of : R -> bool;
  law_record : forall p r adv now x, exists act x',
    record p r adv now x = (Some act, x')
    /\ aa_kind act = (if activity_reason_supports_meaningful_progress_v1 r && (water_of x p r <? adv)
                      then KMeaningfulProgress else KActivity)
    /\ (forall p' r', water_of x' p' r' =
          if bool_decide (p' = p /\ r' = r) && activity_reason_supports_meaningful_progress_v1 r
          then Z.max (water_of x p r) adv else water_of x p' r')
    /\ (overflowed_of x = true -> overflowed_of x' = true);
  law_mark : forall x, overflowed_of (mark_overflowed x) = true
    /\ forall p r, water_of (mark_overflowed x) p r = water_of x p r }.

Lemma cell_inj p r p' r' : cell p r = cell p' r' -> p = p' /\ r = r'.
Proof. unfold cell. intros E. injection E as E1 E2. destruct p, p'; try discriminate; destruct r, r'; try discriminate; done. Qed.

Lemma water_insert m p r v p' r' :
  water (<[cell p r := v]> m) p' r' = if bool_decide (p' = p /\ r' = r) then v else water m p' r'.
Proof.
  unfold water. case_bool_decide as E; [destruct E as [-> ->]; by rewrite lookup_insert_eq|].
  rewrite lookup_insert_ne; [done|]. intros Hc. apply cell_inj in Hc as [-> ->]. by apply E.
Qed.

(** The overflow mark of a tally is sticky. *)
Lemma tally_observe_overflowed p k e adv t :
  ta_overflowed t = true -> ta_overflowed (tally_observe p k e adv t) = true.
Proof. intros Ht. unfold tally_observe. destruct (_ <=? _); [done|]. by destruct k. Qed.

#[global] Program Instance shared_recorder_laws : RecorderLaws AttemptActivityAccumulator :=
  {| water_of := fun a => water (high_water a); overflowed_of := fun a => ta_overflowed (acc_tally a) |}.
Next Obligation.
  intros p r adv now x. do 2 eexists. split; [reflexivity|]. simpl. split; [done|]. split.
  - intros p' r'. destruct (activity_reason_supports_meaningful_progress_v1 r); simpl;
      [|by rewrite andb_false_r].
    rewrite andb_true_r. destruct (Z.ltb_spec (water (high_water x) p r) adv).
    + rewrite water_insert. case_bool_decide; [|done]. by rewrite Z.max_r by lia.
    + case_bool_decide as E; [|done]. destruct E as [-> ->]. by rewrite Z.max_l by lia.
  - apply tally_observe_overflowed.
Qed.
Next Obligation. done. Qed.

#[global] Program Instance replay_recorder_laws : RecorderLaws ReplayEffectRecorder :=
  {| water_of := fun a => water_of (rp_inner a); overflowed_of := fun a => overflowed_of (rp_inner a) |}.
Next Obligation.
  intros p r adv now x. destruct (law_record p r adv now (rp_inner x)) as (act & x' & E & K & W & O).
  exists act, (mkReplay x' (if is_effect r then true else rp_effects x)). unfold record, replay_recorder.
  rewrite E. done.
Qed.
Next Obligation. intros x. apply (law_mark (rp_inner x)). Qed.

(** ** Turn scopes report progress exactly *)
Definition scope_sum (scopes : list (gmap nat Z)) (i : nat) : Z :=
  foldr (fun m acc => level m i + acc) 0 scopes.

Lemma scope_sum_snoc scopes m i : scope_sum (scopes ++ [m]) i = scope_sum scopes i + level m i.
Proof. unfold scope_sum. rewrite foldr_app. simpl. induction scopes; simpl; lia. Qed.

Lemma scope_sum_insert scopes k old m i :
  scopes !! k = Some old -> scope_sum (<[k := m]> scopes) i = scope_sum scopes i - level old i + level m i.
Proof.
  revert k; induction scopes as [|x scopes IH]; intros [|k] Hk; simpl in *; simplify_eq; try lia.
  rewrite (IH k Hk). lia.
Qed.

Lemma level_insert m i v j : level (<[i := v]> m) j = if bool_decide (j = i) then v else level m j.
Proof.
  unfold level. case_bool_decide as E; [subst; by rewrite lookup_insert_eq|].
  by rewrite lookup_insert_ne by congruence.
Qed.

Lemma scoped_index_bound r s : scoped_reason_index r = Some s -> (s < 4)%nat.
Proof. destruct r; simpl; intros; simplify_eq; lia. Qed.

Lemma scoped_index_inj r r' s : scoped_reason_index r = Some s -> scoped_reason_index r' = Some s -> r = r'.
Proof. destruct r, r'; simpl; intros; simplify_eq; done. Qed.

Lemma scoped_cell_inj p p' s s' : (s < 4)%nat -> (s' < 4)%nat -> scoped_cell p s = scoped_cell p' s' -> p = p' /\ s = s'.
Proof.
  unfold scoped_cell, SCOPED_REASON_COUNT. intros H1 H2 E.
  assert (phase_index p = phase_index p' /\ s = s') as [Ep ->] by lia.
  split; [|done]. by destruct p, p'.
Qed.

Section ScopedProgress.
Context {R : Type} `{RecorderLaws R}.

(** Until an overflow is marked, the cumulative cells are the sums of the turn
    cells and, for the reasons that can progress, the recorder's high waters. *)
Definition attempt_inv (a : Attempt R) : Prop :=
  overflowed_of (at_recorder a) = true \/
  forall p r s, scoped_reason_index r = Some s ->
    level (attempt_high_water a) (scoped_cell p s) = scope_sum (at_scopes a) (scoped_cell p s)
    /\ (activity_reason_supports_meaningful_progress_v1 r = true ->
        water_of (at_recorder a) p r = level (attempt_high_water a) (scoped_cell p s)).

(** One scoped observation. *)
Lemma scoped_record_spec a i local p r s adv now :
  attempt_inv a -> at_scopes a !! i = Some local -> scoped_reason_index r = Some s ->
  exists act local' att' rec',
    scoped_record p r adv now local (attempt_high_water a) (at_recorder a) = (Some act, local', att', rec')
    /\ attempt_inv (mkAttempt rec' att' (<[i := local']> (at_scopes a)))
    /\ (overflowed_of rec' = true
        \/ (aa_kind act = KMeaningfulProgress <->
            activity_reason_supports_meaningful_progress_v1 r = true /\ level local (scoped_cell p s) < adv)).
Proof.
  intros Inv Hi Hs. unfold scoped_record. rewrite Hs.
  set (idx := scoped_cell p s). pose proof (scoped_index_bound r s Hs) as Hb.
  assert (Hother : forall p' r' s', scoped_reason_index r' = Some s' -> scoped_cell p' s' <> idx -> ~ (p' = p /\ r' = r)).
  { intros p' r' s' Hs' Hne [-> ->]. apply Hne. unfold idx. congruence. }
  destruct (Z.ltb_spec (level local idx) adv) as [Hlt|Hge].
  - destruct (checked_add _ _) as [next|] eqn:Ea.
    + apply checked_add_some in Ea as [-> _].
      destruct (law_record p r (level (attempt_high_water a) idx + (adv - level local idx)) now (at_recorder a))
        as (act & rec' & -> & K & W & O).
      do 4 eexists. split; [reflexivity|].
      destruct Inv as [Hov|Inv]; [split; left; by apply O|]. split.
      * right. intros p' r' s' Hs'. simpl. rewrite level_insert, (scope_sum_insert _ _ _ _ _ Hi), level_insert.
        destruct (Inv p' r' s' Hs') as [Hsum Hw]. rewrite W.
        case_bool_decide as E.
        -- apply scoped_cell_inj in E as [-> ->]; [|by eapply scoped_index_bound|done].
           assert (r' = r) as -> by (by eapply scoped_index_inj). fold idx in Hsum, Hw |- *.
           split; [lia|]. intros Hsup. rewrite (Hw Hsup), Hsup.
           rewrite bool_decide_eq_true_2 by done. simpl. lia.
        -- rewrite bool_decide_eq_false_2 by (by eapply Hother). simpl. split; [lia|auto].
      * right. rewrite K. destruct (Inv p r s Hs) as [_ Hw]. fold idx in Hw.
        destruct (activity_reason_supports_meaningful_progress_v1 r); simpl; [|naive_solver].
        rewrite (Hw eq_refl). destruct (Z.ltb_spec (level (attempt_high_water a) idx)
          (level (attempt_high_water a) idx + (adv - level local idx))); [naive_solver|lia].
    + destruct (law_record p r u64_max now (mark_overflowed (at_recorder a))) as (act & rec' & -> & _ & _ & O).
      do 4 eexists. split; [reflexivity|]. split; left; apply O, law_mark.
  - destruct (law_record p r (level (attempt_high_water a) idx) now (at_recorder a)) as (act & rec' & -> & K & W & O).
    do 4 eexists. split; [reflexivity|]. destruct Inv as [Hov|Inv]; [split; left; by apply O|].
    rewrite (list_insert_id _ _ _ Hi). split.
    + right. intros p' r' s' Hs'. simpl. destruct (Inv p' r' s' Hs') as [Hsum Hw]. split; [done|].
      intros Hsup. rewrite W, (Hw Hsup). case_bool_decide as E; [|done]. destruct E as [-> ->].
      rewrite Hsup. simpl. assert (s' = s) as -> by congruence. fold idx in Hw |- *. rewrite (Hw Hsup). lia.
    + right. rewrite K. destruct (Inv p r s Hs) as [_ Hw]. fold idx in Hw.
      destruct (activity_reason_supports_meaningful_progress_v1 r); simpl; [|naive_solver].
      rewrite (Hw eq_refl), Z.ltb_irrefl. split; [done|]. lia.
Qed.

Lemma attempt_inv_step a ev : attempt_inv a -> attempt_inv (attempt_step a ev).
Proof.
  intros Inv. destruct ev as [|i p r adv now|p r adv now]; simpl.
  - destruct Inv as [Hov|Inv]; [by left|]. right. intros p r s Hs. simpl. rewrite scope_sum_snoc.
    destruct (Inv p r s Hs) as [Hsum Hw]. split; [|done]. rewrite Hsum.
    change (level ∅ (scoped_cell p s)) with 0. lia.
  - destruct (at_scopes a !! i) as [local|] eqn:Hi; [|done].
    destruct (scoped_reason_index r) as [s|] eqn:Hs.
    + destruct (scoped_record_spec a i local p r s adv now Inv Hi Hs) as (act & l' & t' & r' & -> & Inv' & _). done.
    + unfold scoped_record. rewrite Hs. destruct (law_record p r adv now (at_recorder a)) as (act & r' & -> & _ & W & O).
      rewrite (list_insert_id _ _ _ Hi). destruct Inv as [Hov|Inv]; [left; by apply O|].
      right. intros p' r0 s' Hs'. destruct (Inv p' r0 s' Hs') as [Hsum Hw]. split; [done|]. intros Hsup.
      simpl. rewrite W, bool_decide_eq_false_2 by (intros [-> ->]; congruence). by apply Hw.
  - destruct (scoped_reason_index r) as [s|] eqn:Hs; [done|].
    destruct (law_record p r adv now (at_recorder a)) as (act & r' & -> & _ & W & O).
    destruct Inv as [Hov|Inv]; [left; by apply O|].
    right. intros p' r0 s' Hs'. destruct (Inv p' r0 s' Hs') as [Hsum Hw]. split; [done|]. intros Hsup.
    simpl. rewrite W, bool_decide_eq_false_2 by (intros [-> ->]; congruence). by apply Hw.
Qed.

(** A turn scope reports progress exactly. Whatever turns ran before in the
    attempt and however far their counters went, an observation made through a
    turn's scope counts as meaningful progress exactly when its reason can
    progress and its counter grew within that turn, and the attempt's
    cumulative counter is the sum over its turns, unless the tally says that
    counting overflowed. *)
Theorem scoped_progress_exact evs r0 i local p r s adv now :
  (forall p r, water_of r0 p r = 0) ->
  let a := run attempt_step (new_attempt r0) evs in
  at_scopes a !! i = Some local -> scoped_reason_index r = Some s ->
  exists act local' att' rec',
    scoped_record p r adv now local (attempt_high_water a) (at_recorder a) = (Some act, local', att', rec')
    /\ (overflowed_of rec' = true
        \/ (aa_kind act = KMeaningfulProgress <->
            activity_reason_supports_meaningful_progress_v1 r = true /\ level local (scoped_cell p s) < adv)
           /\ level att' (scoped_cell p s) = scope_sum (<[i := local']> (at_scopes a)) (scoped_cell p s)).
Proof.
  intros Hzero a Hi Hs.
  assert (Inv : attempt_inv a).
  { apply (run_invariant _ attempt_inv); [apply attempt_inv_step|]. right. intros q x y Hx. simpl.
    split; [done|]. intros _. by rewrite Hzero. }
  destruct (scoped_record_spec a i local p r s adv now Inv Hi Hs) as (act & l' & t' & r' & E & Inv' & Hk).
  do 4 eexists. split; [exact E|]. destruct Hk as [Hov|Hk]; [by left|].
  destruct Inv' as [Hov|Inv']; [by left|]. right. split; [done|]. by destruct (Inv' p r s Hs).
Qed.
End ScopedProgress.

(** ** The tally counts every record or says that it did not *)
Definition phase_total (t : ActivityTally) : Z := foldr Z.add 0 (ta_phase_activity t).

Record tally_counts (n : Z) (t : ActivityTally) : Prop := {
  tc_len : length (ta_phase_activity t) = 10%nat;
  tc_range : Forall (fun k => 0 <= k) (ta_phase_activity t) /\ 0 <= ta_activity t /\ 0 <= ta_meaningful_progress t;
  tc_count : ta_activity t + ta_meaningful_progress t = Z.min n MAX_ACTIVITY_RECORDS;
  tc_phases : phase_total t = Z.min n MAX_ACTIVITY_RECORDS;
  tc_overflow : ta_overflowed t = (MAX_ACTIVITY_RECORDS <? n) }.

Lemma sum_nonneg l : Forall (fun k => 0 <= k) l -> 0 <= foldr Z.add 0 l.
Proof. induction 1; simpl; lia. Qed.

(** Bumping one entry of an array whose total is small bumps the total by one. *)
Lemma sum_bump l i :
  Forall (fun k => 0 <= k) l -> (i < length l)%nat -> foldr Z.add 0 l < u32_max ->
  let l' := alter (fun n => saturating_add_u32 n 1) i l in
  foldr Z.add 0 l' = foldr Z.add 0 l + 1 /\ Forall (fun k => 0 <= k) l'.
Proof.
  revert i; induction l as [|x l IH]; intros [|i] Hf Hi Hs; simpl in *; try lia;
    apply Forall_cons in Hf as [Hx Hf]; pose proof (sum_nonneg l Hf).
  - unfold saturating_add_u32. rewrite Z.min_l by lia. split; [lia|]. constructor; [lia|done].
  - destruct (IH i Hf) as [E F]; [lia..|]. fold (alter (fun n => saturating_add_u32 n 1) i l).
    split; [|by constructor].
    change (x + foldr Z.add 0 (alter (fun n => saturating_add_u32 n 1) i l) = x + foldr Z.add 0 l + 1). lia.
Qed.

Lemma tally_counts_observe n p k e adv t :
  0 <= n -> tally_counts n t -> tally_counts (n + 1) (tally_observe p k e adv t).
Proof.
  intros Hn [Hl (Hf & Ha & Hm) Hc Hp Ho]. unfold tally_observe, MAX_ACTIVITY_RECORDS in *.
  assert (Hsat : saturating_add_u32 (ta_activity t) (ta_meaningful_progress t) = Z.min n 64)
    by (unfold saturating_add_u32, u32_max; lia).
  rewrite Hsat. destruct (Z.leb_spec 64 (Z.min n 64)) as [Hfull|Hroom].
  - split; unfold phase_total in *; simpl; unfold MAX_ACTIVITY_RECORDS in *; try done; try lia.
  - assert (Hi : (phase_index p < length (ta_phase_activity t))%nat) by (rewrite Hl; destruct p; simpl; lia).
    destruct (sum_bump (ta_phase_activity t) (phase_index p) Hf Hi) as [Es Ef];
      [unfold phase_total, u32_max in *; lia|].
    assert (Hov : ta_overflowed t = (64 <? n + 1)).
    { rewrite Ho. destruct (Z.ltb_spec 64 n), (Z.ltb_spec 64 (n + 1)); try done; lia. }
    destruct k; split; unfold phase_total, MAX_ACTIVITY_RECORDS in *; simpl;
      rewrite ?length_alter, ?Es; try done; try lia;
      try (split_and!; try done); unfold saturating_add_u32, u32_max; lia.
Qed.

Definition observe_all (obs : list (AttemptPhase * ActivityReason * Z * Z)) (a : AttemptActivityAccumulator)
  : AttemptActivityAccumulator :=
  foldl (fun a '(p, r, adv, now) => snd (accumulator_observe p r adv now a)) a obs.

(** The bounded tally is complete or says that it is not. After any sequence
    of observations it counts the first 64 of them, in total and over the
    phases, and its overflow mark is set exactly when there were more. *)
Theorem tally_counts_or_marks obs :
  tally_counts (Z.of_nat (length obs)) (acc_tally (observe_all obs new_accumulator)).
Proof.
  unfold observe_all. induction obs as [|[[[p r] adv] now] obs IH] using rev_ind.
  - split; simpl; try done. split_and!; [|done..]. by repeat constructor.
  - rewrite foldl_app, length_app. simpl. rewrite Nat2Z.inj_add. apply tally_counts_observe; [lia|done].
Qed.

(** ** No-progress warnings ([no_progress_warning.rs]) *)
Definition NO_PROGRESS_WARNING_INTERVAL_MS : Z := 1800000.

Definition no_progress_warning_ordinal_v1 (now_elapsed_ms last_progress_ms : Z) : Z :=
  saturating_sub now_elapsed_ms last_progress_ms / NO_PROGRESS_WARNING_INTERVAL_MS.

Record NoProgressWarning := mkWarning {
  wn_ordinal : Z;
  wn_superseded : Z;
  wn_observed_at : Z;
  wn_last_activity : Z;
  wn_last_progress : Z }.

Record NoProgressWarningEpoch := mkEpoch {
  ep_last_activity : Z; ep_last_progress : Z; ep_last_emitted : Z }.

Definition new_epoch (started : Z) : NoProgressWarningEpoch := mkEpoch started started 0.

Definition resets_epoch (self : NoProgressWarningEpoch) (a : AttemptActivity) : bool :=
  bool_decide (aa_kind a = KMeaningfulProgress)
  && activity_reason_supports_meaningful_progress_v1 (aa_reason a)
  && (ep_last_progress self <? aa_elapsed_ms a).

Definition observe_activity (a : AttemptActivity) (self : NoProgressWarningEpoch) : NoProgressWarningEpoch :=
  let activity := Z.max (ep_last_activity self) (aa_elapsed_ms a) in
  if resets_epoch self a
  then mkEpoch activity (Z.max (ep_last_progress self) (aa_elapsed_ms a)) 0
  else mkEpoch activity (ep_last_progress self) (ep_last_emitted self).

Definition poll_elapsed (now_elapsed_ms : Z) (self : NoProgressWarningEpoch)
  : option NoProgressWarning * NoProgressWarningEpoch :=
  let ordinal := no_progress_warning_ordinal_v1 now_elapsed_ms (ep_last_progress self) in
  if ep_last_emitted self <? ordinal then
    (Some (mkWarning ordinal (saturating_sub (saturating_sub ordinal (ep_last_emitted self)) 1)
             now_elapsed_ms (ep_last_activity self) (ep_last_progress self)),
     mkEpoch (ep_last_activity self) (ep_last_progress self) ordinal)
  else (None, self).

(** An epoch's life; warnings are collected latest first. *)
Inductive EpochEvent := EvActivity (a : AttemptActivity) | EvPoll (now : Z).

Definition epoch_step (s : NoProgressWarningEpoch * list NoProgressWarning) (ev : EpochEvent)
  : NoProgressWarningEpoch * list NoProgressWarning :=
  match ev with
  | EvActivity a => (observe_activity a s.1, s.2)
  | EvPoll now => let (w, e) := poll_elapsed now s.1 in (e, option_list w ++ s.2)
  end.

(** Warnings since the last progress. *)
Definition in_epoch (e : NoProgressWarningEpoch) (ws : list NoProgressWarning) : list NoProgressWarning :=
  filter (fun w => wn_last_progress w = ep_last_progress e) ws.

Definition represented (ws : list NoProgressWarning) : Z :=
  foldr (fun w acc => 1 + wn_superseded w + acc) 0 ws.

(** What the warnings of a life say: each was due when it was observed, the
    ordinals of one epoch grow, and the warnings of the current epoch together
    stand for every ordinal up to the last one emitted. *)
Record cadence (started : Z) (e : NoProgressWarningEpoch) (ws : list NoProgressWarning) : Prop := {
  ca_started : started <= ep_last_progress e;
  ca_emitted : 0 <= ep_last_emitted e;
  ca_due : Forall (fun w => 0 < wn_ordinal w /\ wn_last_progress w <= ep_last_progress e
             /\ wn_last_progress w + wn_ordinal w * NO_PROGRESS_WARNING_INTERVAL_MS <= wn_observed_at w) ws;
  ca_top : Forall (fun w => wn_ordinal w <= ep_last_emitted e) (in_epoch e ws);
  ca_sum : represented (in_epoch e ws) = ep_last_emitted e }.

Lemma in_epoch_later e ws t :
  Forall (fun w => wn_last_progress w <= ep_last_progress e) ws -> ep_last_progress e < t ->
  filter (fun w => wn_last_progress w = t) ws = [].
Proof.
  induction 1 as [|w ws Hw _ IH]; intros Ht; [done|]. rewrite filter_cons_False by lia. auto.
Qed.

Lemma cadence_activity started e ws a : cadence started e ws -> cadence started (observe_activity a e) ws.
Proof.
  intros [H1 H2 H3 H4 H5]. unfold observe_activity. destruct (resets_epoch e a) eqn:E; [|by split].
  unfold resets_epoch in E. apply andb_true_iff in E as [_ E]. apply Z.ltb_lt in E.
  assert (Hnil : in_epoch (mkEpoch (Z.max (ep_last_activity e) (aa_elapsed_ms a))
             (Z.max (ep_last_progress e) (aa_elapsed_ms a)) 0) ws = []).
  { apply (in_epoch_later e); [|simpl; lia]. eapply Forall_impl; [exact H3|]. simpl; lia. }
  split; simpl; [lia|done| |by rewrite Hnil|by rewrite Hnil].
  eapply Forall_impl; [exact H3|]. simpl; lia.
Qed.

Lemma cadence_poll started e ws now :
  cadence started e ws ->
  cadence started (snd (poll_elapsed now e)) (option_list (fst (poll_elapsed now e)) ++ ws).
Proof.
  intros [H1 H2 H3 H4 H5]. unfold poll_elapsed.
  set (ordinal := no_progress_warning_ordinal_v1 now (ep_last_progress e)).
  destruct (Z.ltb_spec (ep_last_emitted e) ordinal) as [Hlt|]; simpl; [|by split].
  assert (Hdue : ep_last_progress e + ordinal * NO_PROGRESS_WARNING_INTERVAL_MS <= now).
  { unfold ordinal, no_progress_warning_ordinal_v1, NO_PROGRESS_WARNING_INTERVAL_MS, saturating_sub in *.
    pose proof (Z.mul_div_le (Z.max (now - ep_last_progress e) 0) 1800000).
    destruct (Z.max_spec (now - ep_last_progress e) 0) as [[? E]|[? E]]; rewrite E in *; [|lia].
    rewrite Z.div_0_l in Hlt by lia. lia. }
  split; simpl; try done; try lia.
  - constructor; [simpl; lia|]. done.
  - unfold in_epoch. simpl. rewrite filter_cons_True by done. constructor; [simpl; lia|].
    eapply Forall_impl; [exact H4|]. simpl; lia.
  - unfold in_epoch in *. simpl. rewrite filter_cons_True by done. simpl. rewrite H5.
    unfold saturating_sub. lia.
Qed.

(** No-progress warnings keep their cadence. In any interleaving of activity
    and polls a warning is only raised after its multiple of the interval
    without progress, and the warnings raised since the last progress stand,
    counting what they supersede, for every due ordinal exactly once. *)
Theorem warnings_keep_cadence started evs :
  let s := run epoch_step (new_epoch started, []) evs in
  cadence started s.1 s.2
  /\ forall now, ep_last_progress s.1 <= now ->
       let s' := epoch_step s (EvPoll now) in
       represented (in_epoch s'.1 s'.2)
       = Z.max (ep_last_emitted s.1) ((now - ep_last_progress s.1) / NO_PROGRESS_WARNING_INTERVAL_MS).
Proof.
  intros s.
  assert (C : cadence started s.1 s.2).
  { apply (run_invariant _ (fun s => cadence started s.1 s.2)).
    - intros [e ws] [a|now] C; simpl; [by apply cadence_activity|].
      pose proof (cadence_poll started e ws now C). by destruct (poll_elapsed now e).
    - split; simpl; try done; lia. }
  split; [done|]. intros now Hnow s'.
  assert (C' : cadence started s'.1 s'.2).
  { unfold s'. destruct s as [e ws]. simpl in *. pose proof (cadence_poll started e ws now C).
    by destruct (poll_elapsed now e). }
  rewrite (ca_sum _ _ _ C'). unfold s'. destruct s as [e ws]. simpl in *.
  unfold poll_elapsed, no_progress_warning_ordinal_v1, saturating_sub.
  rewrite (Z.max_l (now - ep_last_progress e)) by lia.
  destruct (Z.ltb_spec (ep_last_emitted e) ((now - ep_last_progress e) / NO_PROGRESS_WARNING_INTERVAL_MS)); simpl; lia.
Qed.

(** Activity that is not progress. *)
Definition is_chatter (ev : EpochEvent) : bool :=
  match ev with
  | EvActivity a => negb (bool_decide (aa_kind a = KMeaningfulProgress)
                          && activity_reason_supports_meaningful_progress_v1 (aa_reason a))
  | EvPoll _ => false
  end.

(** What a warning says, apart from the activity it quotes. *)
Definition gist (w : NoProgressWarning) : Z * Z * Z * Z :=
  (wn_ordinal w, wn_superseded w, wn_observed_at w, wn_last_progress w).

Lemma epoch_step_gist e1 e2 ws1 ws2 ev :
  ep_last_progress e1 = ep_last_progress e2 -> ep_last_emitted e1 = ep_last_emitted e2 ->
  gist <$> ws1 = gist <$> ws2 ->
  let s1 := epoch_step (e1, ws1) ev in let s2 := epoch_step (e2, ws2) ev in
  ep_last_progress s1.1 = ep_last_progress s2.1 /\ ep_last_emitted s1.1 = ep_last_emitted s2.1
  /\ gist <$> s1.2 = gist <$> s2.2.
Proof.
  intros Hp He Hg. destruct ev as [a|now]; simpl.
  - unfold observe_activity, resets_epoch. rewrite Hp. by destruct (_ && _ && _); simpl; rewrite ?Hp.
  - unfold poll_elapsed. rewrite Hp, He. destruct (_ <? _); simpl; [|done].
    split_and!; [done..|]. f_equal. exact Hg.
Qed.

Lemma chatter_run evs e1 e2 ws1 ws2 :
  ep_last_progress e1 = ep_last_progress e2 -> ep_last_emitted e1 = ep_last_emitted e2 ->
  gist <$> ws1 = gist <$> ws2 ->
  gist <$> (run epoch_step (e1, ws1) evs).2
  = gist <$> (run epoch_step (e2, ws2) (filter (fun ev => is_chatter ev = false) evs)).2.
Proof.
  revert e1 e2 ws1 ws2; induction evs as [|ev evs IH]; intros e1 e2 ws1 ws2 Hp He Hg; [done|].
  destruct (is_chatter ev) eqn:Ec.
  - rewrite filter_cons_False by congruence. destruct ev as [a|]; [|done]. apply IH; [..|done].
    all: unfold observe_activity, resets_epoch; apply negb_true_iff in Ec; simpl in Ec; by rewrite Ec.
  - rewrite filter_cons_True by done. destruct (epoch_step_gist e1 e2 ws1 ws2 ev Hp He Hg) as (Hp' & He' & Hg').
    simpl. destruct (epoch_step (e1, ws1) ev), (epoch_step (e2, ws2) ev). by apply IH.
Qed.

(** A chatty but stuck producer cannot suppress or delay a warning: removing
    every observation that is not meaningful progress leaves the ordinals, the
    superseded counts and the times of all warnings unchanged. *)
Theorem chatter_never_suppresses started evs :
  gist <$> (run epoch_step (new_epoch started, []) evs).2
  = gist <$> (run epoch_step (new_epoch started, []) (filter (fun ev => is_chatter ev = false) evs)).2.
Proof.
  apply (chatter_run evs (new_epoch started) (new_epoch started) [] []); done.
Qed.

(** ** A turn scope at work

    A first turn counts to 50; a second turn's scope starts at zero again, so
    its first message is progress although 50 is not reached, and a repeat of
    the same counter is not. *)
Definition demo_attempt : Attempt AttemptActivityAccumulator :=
  run attempt_step (new_attempt new_accumulator)
    [EvScope; EvScoped 0 PhProvider MessageDelta 50 10; EvScope; EvScoped 1 PhProvider MessageDelta 3 20].

Lemma scoped_progress_exact_witness :
  let rec_of adv := scoped_record PhProvider MessageDelta adv 30 {[12%nat := 3]}
    (attempt_high_water demo_attempt) (at_recorder demo_attempt) in
  (exists act l t r, rec_of 4 = (Some act, l, t, r) /\ aa_kind act = KMeaningfulProgress /\ level t 12 = 54)
  /\ at_scopes demo_attempt !! 1%nat = Some {[12%nat := 3]}.
Proof.
  split; [|vm_compute; reflexivity].
  destruct (scoped_progress_exact
    [EvScope; EvScoped 0 PhProvider MessageDelta 50 10; EvScope; EvScoped 1 PhProvider MessageDelta 3 20]
    new_accumulator 1 {[12%nat := 3]} PhProvider MessageDelta 0 4 30)
    as (act & l & t & r & E & Hk); [done|vm_compute; reflexivity|reflexivity|].
  exists act, l, t, r. split; [exact E|]. destruct Hk as [Hov|[Hk Hsum]].
  - vm_compute in E. injection E as _ _ _ <-. vm_compute in Hov. discriminate.
  - split; [apply Hk; split; reflexivity|]. vm_compute in E. injection E as _ _ <- _. reflexivity.
Defined.
