(* ===== verification/Framing.v ===== *)
(** * Wire framing

    The four framers the bridge puts between a byte stream and its messages:
    newline-delimited JSON ([bridge-acp/src/framing.rs] and its copy
    [bridge-mcp/src/framing.rs]), the MCP line frames and the
    [Content-Length] frames of [lsp-mcp] ([mcp/transport.rs],
    [lsp/codec.rs]), and the Server-Sent-Events decoder of
    [bridge-a2a-outbound/src/sse.rs]. Bytes are [Byte.byte]; a Rust [String] is
    the byte list of its UTF-8 encoding, so [from_utf8] is a check. *)
From Stdlib Require Import Strings.Byte.
From S2P Require Import Prelude Domain.
Open Scope Z_scope.
Open Scope bridge_scope.

Notation bytes := (list byte).

#[global] Instance byte_eq_dec : EqDecision byte := Byte.byte_eq_dec.

Definition NL : byte := x0a.
Definition CR : byte := x0d.
Definition SP : byte := x20.

Definition of_str (s : string) : bytes := String.list_byte_of_string s.

(** [buf.iter().position(|&b| b == b'\n')] and the drain of the line it ends:
    the bytes before the first newline and the bytes after it. *)
Fixpoint split_line (bs : bytes) : option (bytes * bytes) :=
  match bs with
  | [] => None
  | b :: bs' =>
      if bool_decide (b = NL) then Some ([], bs')
      else match split_line bs' with
           | Some (line, rest) => Some (b :: line, rest)
           | None => None
           end
  end.

(** [str::strip_prefix]. *)
Fixpoint strip_prefix (p bs : bytes) : option bytes :=
  match p, bs with
  | [], _ => Some bs
  | _ :: _, [] => None
  | x :: p', b :: bs' => if bool_decide (x = b) then strip_prefix p' bs' else None
  end.

(** [str::from_utf8]: the well-formed byte sequences of the Unicode standard. *)
Definition in_range (b : byte) (lo hi : N) : bool :=
  ((lo <=? Byte.to_N b) && (Byte.to_N b <=? hi))%N.
Definition continuation (b : byte) : bool := in_range b 128 191.
Definition three_byte_start (b0 b1 : byte) : bool :=
  (in_range b0 224 224 && in_range b1 160 191)
  || ((in_range b0 225 236 || in_range b0 238 239) && continuation b1)
  || (in_range b0 237 237 && in_range b1 128 159).
Definition four_byte_start (b0 b1 : byte) : bool :=
  (in_range b0 240 240 && in_range b1 144 191)
  || (in_range b0 241 243 && continuation b1)
  || (in_range b0 244 244 && in_range b1 128 143).

Fixpoint utf8_valid (bs : bytes) : bool :=
  match bs with
  | [] => true
  | b0 :: r0 =>
      if in_range b0 0 127 then utf8_valid r0
      else match r0 with
      | [] => false
      | b1 :: r1 =>
          if in_range b0 194 223 then continuation b1 && utf8_valid r1
          else match r1 with
          | [] => false
          | b2 :: r2 =>
              if three_byte_start b0 b1 then continuation b2 && utf8_valid r2
              else match r2 with
              | [] => false
              | b3 :: r3 =>
                  four_byte_start b0 b1 && continuation b2 && continuation b3 && utf8_valid r3
              end
          end
      end
  end.

Definition from_utf8 (bs : bytes) : option bytes := if utf8_valid bs then Some bs else None.

(** ** Newline-delimited JSON ([FrameReader]) *)
Module Ndjson.
Section Reader.
(** [serde_json::Value] and [serde_json::from_slice]. *)
Context {Value : Type} (from_slice : bytes -> option Value).

(** One [read] of the inner reader; the end of the list is [Ok(0)] for ever. *)
Inductive Read :=
| ReadOk (bs : bytes)
| ReadErr.

Record FrameReader := mkReader {
  inner : list Read;
  buf : bytes;
  max : nat }.

Definition new (inner : list Read) (max : nat) : FrameReader := mkReader inner [] max.

(** [FrameReader::next]; [fuel] bounds the iterations of its loop. *)
Fixpoint next_loop (fuel : nat) (r : FrameReader)
    : option (option (result Value BridgeError) * FrameReader) :=
  match fuel with
  | O => None
  | S fuel' =>
      match split_line (buf r) with
      | Some (line, rest) =>
          let r' := mkReader (inner r) rest (max r) in
          match line with
          | [] => next_loop fuel' r'
          | _ =>
              if (max r <? length line)%nat then Some (Some (Err MessageTooLarge), r')
              else Some (Some (ok_or (from_slice line) FrameError), r')
          end
      | None =>
          if (max r <? length (buf r))%nat then Some (Some (Err MessageTooLarge), r)
          else
            match inner r with
            | [] =>
                Some (match buf r with [] => None | _ => Some (Err FrameError) end, r)
            | ReadOk [] :: inner' =>
                Some (match buf r with [] => None | _ => Some (Err FrameError) end,
                      mkReader inner' (buf r) (max r))
            | ReadOk bs :: inner' => next_loop fuel' (mkReader inner' (buf r ++ bs) (max r))
            | ReadErr :: inner' =>
                Some (Some (Err FrameError), mkReader inner' (buf r) (max r))
            end
      end
  end.

(** Every iteration that does not return takes a byte off the buffer or moves
    one read into it. *)
Definition read_cost (e : Read) : nat :=
  match e with ReadOk bs => S (length bs) | ReadErr => 1 end.
Definition next_fuel (r : FrameReader) : nat :=
  S (length (buf r) + sum_list_with read_cost (inner r)).

Definition next (r : FrameReader) : option (option (result Value BridgeError) * FrameReader) :=
  next_loop (next_fuel r) r.

(** The results of [n] calls of [next]; after an error a caller may call it again, as the replay backend's
    stream does. *)
Fixpoint nexts (n : nat) (r : FrameReader) : option (list (option (result Value BridgeError))) :=
  match n with
  | O => Some []
  | S n' => match next r with Some (o, r') => cons o <$> nexts n' r' | None => None end
  end.

(** The reference: what the bytes of a whole stream mean, without buffers: the results of its lines up to
    where the stream stops, and the error it stops with ([None]: a clean end). *)
Fixpoint parse_stream (max : nat) (pending bs : bytes) : list (result Value BridgeError) * option BridgeError :=
  match bs with
  | [] =>
      ([], if (max <? length pending)%nat then Some MessageTooLarge
           else match pending with [] => None | _ => Some FrameError end)
  | b :: bs' =>
      if bool_decide (b = NL) then
        match pending with
        | [] => parse_stream max [] bs'
        | _ =>
            if (max <? length pending)%nat then ([], Some MessageTooLarge)
            else let (items, stop) := parse_stream max [] bs' in (ok_or (from_slice pending) FrameError :: items, stop)
        end
      else parse_stream max (pending ++ [b]) bs'
  end.
(** The first [n] results of a stream that stops: its last one is repeated. *)
Definition expected (n : nat) (stream : list (result Value BridgeError) * option BridgeError)
    : list (option (result Value BridgeError)) :=
  take n ((Some <$> fst stream) ++ replicate n (Err <$> snd stream)).
(** The results up to and including the first message that is too large. *)
Fixpoint until_oversized (l : list (option (result Value BridgeError))) : list (option (result Value BridgeError)) :=
  match l with
  | [] => []
  | Some (Err MessageTooLarge) :: _ => [Some (Err MessageTooLarge)]
  | x :: l' => x :: until_oversized l'
  end.
End Reader.
Arguments FrameReader : clear implicits.
End Ndjson.

(** ** MCP line frames ([lsp-mcp/src/mcp/transport.rs]) *)
Module McpLine.
(** [BufRead::read_until(b'\n')] over the bytes still to come: what it appends
    to the buffer, newline included, and what is left. *)
Definition read_until (bs : bytes) : bytes * bytes :=
  match split_line bs with
  | Some (line, rest) => (line ++ [NL], rest)
  | None => (bs, [])
  end.

Definition is_terminator (b : byte) : bool := bool_decide (b = NL) || bool_decide (b = CR).

(** [while buf.last() is a terminator { buf.pop() }]. *)
Fixpoint trim_end (bs : bytes) : bytes :=
  match bs with
  | [] => []
  | b :: bs' =>
      match trim_end bs' with
      | [] => if is_terminator b then [] else [b]
      | t => b :: t
      end
  end.

(** [read_line_frame]: [None] is the end of the stream; each iteration takes at
    least a byte, so the length of the input is enough fuel. *)
Fixpoint read_line_loop (fuel : nat) (input : bytes) : option bytes * bytes :=
  match fuel with
  | O => (None, input)
  | S fuel' =>
      match input with
      | [] => (None, [])
      | _ =>
          let '(buf, rest) := read_until input in
          match trim_end buf with
          | [] => read_line_loop fuel' rest
          | line => (Some line, rest)
          end
      end
  end.
Definition read_line_frame (input : bytes) : option bytes * bytes :=
  read_line_loop (S (length input)) input.

(** [while let Some(body) = read_frame_stdin(&mut r)?]. *)
Fixpoint read_line_bodies (fuel : nat) (input : bytes) : list bytes :=
  match fuel with
  | O => []
  | S fuel' =>
      match read_line_frame input with
      | (Some body, rest) => body :: read_line_bodies fuel' rest
      | (None, _) => []
      end
  end.

Definition write_line_frame (out body : bytes) : bytes := out ++ body ++ [NL].
End McpLine.

(** ** [Content-Length] frames ([lsp-mcp/src/lsp/codec.rs]) *)
Module Lsp.
(** [write!("{}")] of an unsigned integer: decimal digits, no padding. *)
Definition digit (n : N) : byte := default x00 (Byte.of_N (48 + n)).
Fixpoint decimal_loop (fuel : nat) (n : N) (acc : bytes) : bytes :=
  match fuel with
  | O => acc
  | S fuel' =>
      let acc' := digit (n mod 10) :: acc in
      if (n <? 10)%N then acc' else decimal_loop fuel' (n / 10)%N acc'
  end.
Definition decimal (n : N) : bytes := decimal_loop (S (N.to_nat (N.log2 n))) n [].

Definition write_frame (out body : bytes) : bytes :=
  out ++ of_str "Content-Length: " ++ decimal (N.of_nat (length body)) ++ [CR; NL; CR; NL] ++ body.

(** [char::is_whitespace]: the encodings of the characters with the property
    [White_Space]. *)
Definition whitespace : list bytes :=
  [[x09]; [x0a]; [x0b]; [x0c]; [x0d]; [x20]; [xc2; x85]; [xc2; xa0]; [xe1; x9a; x80];
   [xe2; x80; x80]; [xe2; x80; x81]; [xe2; x80; x82]; [xe2; x80; x83]; [xe2; x80; x84];
   [xe2; x80; x85]; [xe2; x80; x86]; [xe2; x80; x87]; [xe2; x80; x88]; [xe2; x80; x89];
   [xe2; x80; x8a]; [xe2; x80; xa8]; [xe2; x80; xa9]; [xe2; x80; xaf]; [xe2; x81; x9f];
   [xe3; x80; x80]].

Fixpoint strip_any (ps : list bytes) (bs : bytes) : option bytes :=
  match ps with
  | [] => None
  | p :: ps' => match strip_prefix p bs with Some r => Some r | None => strip_any ps' bs end
  end.
Fixpoint trim_start_with (fuel : nat) (ps : list bytes) (bs : bytes) : bytes :=
  match fuel with
  | O => bs
  | S fuel' => match strip_any ps bs with Some r => trim_start_with fuel' ps r | None => bs end
  end.
(** [str::trim]; the end is trimmed as the start of the reversed bytes. *)
Definition trim (bs : bytes) : bytes :=
  let t := trim_start_with (length bs) whitespace bs in
  reverse (trim_start_with (length t) (reverse <$> whitespace) (reverse t)).

(** [str::parse::<usize>]: an optional [+], then digits, each step checked. *)
Definition usize_max : N := 18446744073709551615.
Fixpoint parse_digits (acc : N) (bs : bytes) : option N :=
  match bs with
  | [] => Some acc
  | b :: bs' =>
      if in_range b 48 57 then
        let acc' := (acc * 10 + (Byte.to_N b - 48))%N in
        if (acc' <=? usize_max)%N then parse_digits acc' bs' else None
      else None
  end.
Definition parse_usize (bs : bytes) : option N :=
  match bs with
  | [] => None
  | x2b :: ((_ :: _) as ds) => parse_digits 0 ds
  | _ => parse_digits 0 bs
  end.

(** The error kinds of [read_frame], and the panic of [vec![0u8; len]] on a
    length beyond [isize::MAX]. *)
Inductive IoError := UnexpectedEof | InvalidData | CapacityOverflow.
Definition isize_max : N := 9223372036854775807.

(** [BufRead::read_line]: the text must be UTF-8. *)
Definition read_line (input : bytes) : result (bytes * bytes) IoError :=
  let '(line, rest) := McpLine.read_until input in
  if utf8_valid line then Ok (line, rest) else Err InvalidData.

(** The header loop of [read_frame]; the result is the length found and the
    input after the headers, or [None] at a clean end. *)
Fixpoint read_headers (fuel : nat) (len : option N) (saw_any : bool) (input : bytes)
    : result (option (option N * bytes)) IoError :=
  match fuel with
  | O => Ok None
  | S fuel' =>
      let? p := read_line input in
      let '(line, rest) := p in
      match line with
      | [] => if saw_any then Err UnexpectedEof else Ok None
      | _ =>
          match McpLine.trim_end line with
          | [] => Ok (Some (len, rest))
          | t =>
              match strip_prefix (of_str "Content-Length:") t with
              | Some v =>
                  match parse_usize (trim v) with
                  | Some n => read_headers fuel' (Some n) true rest
                  | None => Err InvalidData
                  end
              | None => read_headers fuel' len true rest
              end
          end
      end
  end.

(** [read_frame]: one frame and the input left, [None] at a clean end. *)
Definition read_frame (input : bytes) : result (option bytes * bytes) IoError :=
  let? h := read_headers (S (length input)) None false input in
  match h with
  | None => Ok (None, [])
  | Some (len, rest) =>
      let? n := ok_or len InvalidData in
      if (isize_max <? n)%N then Err CapacityOverflow
      else if (n <=? N.of_nat (length rest))%N
      then Ok (Some (take (N.to_nat n) rest), drop (N.to_nat n) rest)
      else Err UnexpectedEof
  end.

(** [while let Ok(Some(body)) = read_frame(&mut r)], the bodies it handles. *)
Fixpoint read_bodies (fuel : nat) (input : bytes) : list bytes :=
  match fuel with
  | O => []
  | S fuel' =>
      match read_frame input with
      | Ok (Some body, rest) => body :: read_bodies fuel' rest
      | _ => []
      end
  end.
End Lsp.

(** ** Server-Sent Events ([bridge-a2a-outbound/src/sse.rs]) *)
Module Sse.
Section Decoder.
(** [reqwest::Error]. *)
Context {E : Type}.

Record SseEvent := mkEvent {
  id : option bytes;
  data : bytes }.

Inductive SseError :=
| Transport (e : E)
| Utf8.

(** The locals of [decode_sse]. *)
Record Decoder := mkDecoder {
  buf : bytes;
  data_lines : list bytes;
  pending_id : option bytes }.

Fixpoint join (ls : list bytes) : bytes :=
  match ls with
  | [] => []
  | [l] => l
  | l :: ls' => l ++ NL :: join ls'
  end.

Definition take_event (data_lines : list bytes) (pending_id : option bytes)
    : option SseEvent * (list bytes * option bytes) :=
  match data_lines with
  | [] => (None, (data_lines, pending_id))
  | _ => (Some (mkEvent pending_id (join data_lines)), ([], None))
  end.

Definition strip_space (rest : bytes) : bytes := default rest (strip_prefix [SP] rest).

Definition process_field_line (line : bytes) (data_lines : list bytes) (pending_id : option bytes)
    : list bytes * option bytes :=
  match strip_prefix (of_str "data:") line with
  | Some rest => (data_lines ++ [strip_space rest], pending_id)
  | None =>
      match strip_prefix (of_str "id:") line with
      | Some rest => (data_lines, Some (strip_space rest))
      | None => (data_lines, pending_id)
      end
  end.

(** The bytes of a line without one trailing carriage return. *)
Definition chomp (line : bytes) : bytes :=
  match last line with
  | Some b => if bool_decide (b = CR) then take (length line - 1) line else line
  | None => line
  end.

(** What a decoded line does: events yielded and the new locals. *)
Definition take_line (line : bytes) (d : Decoder) : list (result SseEvent SseError) * Decoder :=
  match line with
  | [] =>
      let '(ev, (ls, pid)) := take_event (data_lines d) (pending_id d) in
      (match ev with Some ev => [Ok ev] | None => [] end, mkDecoder (buf d) ls pid)
  | _ =>
      let '(ls, pid) := process_field_line line (data_lines d) (pending_id d) in
      ([], mkDecoder (buf d) ls pid)
  end.

(** The [while let Some(pos)] loop over the complete lines of the buffer; the
    decoder is [None] once the stream has stopped. *)
Fixpoint drain_lines (fuel : nat) (d : Decoder)
    : list (result SseEvent SseError) * option Decoder :=
  match fuel with
  | O => ([], Some d)
  | S fuel' =>
      match split_line (buf d) with
      | None => ([], Some d)
      | Some (raw, rest) =>
          match from_utf8 (chomp raw) with
          | None => ([Err Utf8], None)
          | Some line =>
              let '(out, d') := take_line line (mkDecoder rest (data_lines d) (pending_id d)) in
              let '(out', d'') := drain_lines fuel' d' in
              (out ++ out', d'')
          end
      end
  end.

(** The [None] arm: the trailing partial line, then the pending event. *)
Definition at_eof (d : Decoder) : list (result SseEvent SseError) :=
  let flush ls pid :=
    match fst (take_event ls pid) with Some ev => [Ok ev] | None => [] end in
  match buf d with
  | [] => flush (data_lines d) (pending_id d)
  | _ =>
      match from_utf8 (chomp (buf d)) with
      | Some line =>
          let '(ls, pid) := process_field_line line (data_lines d) (pending_id d) in flush ls pid
      | None => [Err Utf8]
      end
  end.

Fixpoint decode_loop (d : Decoder) (stream : list (result bytes E))
    : list (result SseEvent SseError) :=
  match stream with
  | [] => at_eof d
  | Err e :: _ => [Err (Transport e)]
  | Ok bs :: stream' =>
      let buf' := buf d ++ bs in
      let '(out, d') := drain_lines (length buf') (mkDecoder buf' (data_lines d) (pending_id d)) in
      out ++ match d' with Some d' => decode_loop d' stream' | None => [] end
  end.

Definition decode_sse (stream : list (result bytes E)) : list (result SseEvent SseError) :=
  decode_loop (mkDecoder [] [] None) stream.
End Decoder.
Arguments SseError : clear implicits.

(** The wire form of an event: an [id:] line if it has one, a [data:] line per
    line of its data, a blank line. *)
Fixpoint lines_of (pending bs : bytes) : list bytes :=
  match bs with
  | [] => [pending]
  | b :: bs' =>
      if bool_decide (b = NL) then pending :: lines_of [] bs' else lines_of (pending ++ [b]) bs'
  end.
Definition field (name : string) (value : bytes) : bytes := of_str name ++ SP :: value ++ [NL].
Definition wire (ev : SseEvent) : bytes :=
  match id ev with Some i => field "id:" i | None => [] end
  ++ concat (field "data:" <$> lines_of [] (data ev)) ++ [NL].
Definition wires (evs : list SseEvent) : bytes := concat (wire <$> evs).
End Sse.

(** ** Lines of a byte stream *)
Lemma split_line_some bs line rest :
  split_line bs = Some (line, rest) <-> bs = line ++ NL :: rest /\ NL ∉ line.
Proof.
  revert line. induction bs as [|b bs IH]; intros line; simpl.
  { split; [done|]. intros [E _]. by destruct line. }
  case_bool_decide as Hb; subst.
  { split; [intros; simplify_eq; set_solver|].
    intros [E Hn]. destruct line as [|c line]; simplify_eq/=; [done|]. set_solver. }
  split.
  - destruct (split_line bs) as [[l r]|]; intros; simplify_eq.
    destruct (proj1 (IH l)) as [-> Hl]; [done|]. split; [done|]. set_solver.
  - intros [E Hn]. destruct line as [|c line]; simplify_eq/=.
    rewrite (proj2 (IH line)); [done|]. set_solver.
Qed.

Lemma split_line_none bs : split_line bs = None <-> NL ∉ bs.
Proof.
  induction bs as [|b bs IH]; simpl; [set_solver|].
  rewrite not_elem_of_cons. case_bool_decide as Hb; subst; [naive_solver|].
  destruct (split_line bs) as [[l r]|]; naive_solver.
Qed.

Lemma split_line_app bs more line rest :
  split_line bs = Some (line, rest) -> split_line (bs ++ more) = Some (line, rest ++ more).
Proof. rewrite !split_line_some. intros [-> Hn]. by rewrite <- app_assoc. Qed.

Lemma split_line_length bs line rest :
  split_line bs = Some (line, rest) -> length bs = S (length line + length rest).
Proof. intros [-> _]%split_line_some. rewrite length_app. simpl. lia. Qed.

(** ** UTF-8 *)
(** The rest of the bytes after the first scalar value. *)
Definition utf8_next (bs : bytes) : option bytes :=
  match bs with
  | b0 :: r0 =>
      if in_range b0 0 127 then Some r0
      else match r0 with
      | b1 :: r1 =>
          if in_range b0 194 223 then if continuation b1 then Some r1 else None
          else match r1 with
          | b2 :: r2 =>
              if three_byte_start b0 b1 then if continuation b2 then Some r2 else None
              else match r2 with
              | b3 :: r3 =>
                  if four_byte_start b0 b1 && continuation b2 && continuation b3 then Some r3 else None
              | [] => None
              end
          | [] => None
          end
      | [] => None
      end
  | [] => None
  end.

Lemma utf8_valid_next bs :
  utf8_valid bs = match bs with [] => true | _ => match utf8_next bs with Some r => utf8_valid r | None => false end end.
Proof.
  destruct bs as [|b0 r0]; [done|]. cbn [utf8_valid utf8_next].
  destruct (in_range b0 0 127); [done|]. destruct r0 as [|b1 r1]; [done|].
  destruct (in_range b0 194 223); [by destruct (continuation b1)|]. destruct r1 as [|b2 r2]; [done|].
  destruct (three_byte_start b0 b1); [by destruct (continuation b2)|]. destruct r2 as [|b3 r3]; [done|].
  by destruct (four_byte_start b0 b1 && continuation b2 && continuation b3).
Qed.

Lemma utf8_next_length bs r : utf8_next bs = Some r -> (length r < length bs)%nat.
Proof. unfold utf8_next. intros H. repeat case_match; simplify_eq/=; lia. Qed.

Lemma newline_not_multibyte b0 :
  continuation NL = false /\ three_byte_start b0 NL = false /\ four_byte_start b0 NL = false.
Proof. split; [done|]. unfold three_byte_start, four_byte_start. by rewrite !andb_false_r. Qed.

Lemma utf8_next_newline c a b :
  utf8_next (c :: a ++ NL :: b) = (fun r => r ++ NL :: b) <$> utf8_next (c :: a).
Proof.
  destruct (newline_not_multibyte c) as (H1 & H2 & H3).
  destruct a as [|b1 [|b2 [|b3 a]]]; simpl; rewrite ?H1, ?H2, ?H3, ?andb_false_r; simpl.
  all: repeat (case_match; simpl); simplify_eq/=; try done.
  all: by rewrite andb_false_r in *.
Qed.

Lemma utf8_newline a b : utf8_valid (a ++ NL :: b) = utf8_valid a && utf8_valid b.
Proof.
  induction a as [a IH] using (induction_ltof1 _ length). unfold ltof in IH.
  destruct a as [|c a]; [done|]. rewrite (utf8_valid_next (c :: a)), utf8_valid_next.
  cbn [app]. rewrite utf8_next_newline. destruct (utf8_next (c :: a)) as [r|] eqn:En; [|done].
  apply IH. by apply utf8_next_length.
Qed.

(** ** The NDJSON reader against its reference *)
Module NdjsonFacts.
Import Ndjson.
Section Facts.
Context {Value : Type} (from_slice : bytes -> option Value).
Local Abbreviation parse := (parse_stream from_slice).

Lemma parse_pending max p bs more :
  NL ∉ bs -> parse max p (bs ++ more) = parse max (p ++ bs) more.
Proof.
  revert p. induction bs as [|b bs IH]; intros p Hn; simpl; [by rewrite app_nil_r|].
  apply not_elem_of_cons in Hn as [Hb Hn]. rewrite bool_decide_eq_false_2 by done.
  rewrite IH by done. by rewrite <- app_assoc.
Qed.

Lemma parse_oversized max p bs : (max < length p)%nat -> parse max p bs = ([], Some MessageTooLarge).
Proof.
  revert p. induction bs as [|b bs IH]; intros p Hp; simpl.
  { by rewrite (proj2 (Nat.ltb_lt _ _) Hp). }
  case_bool_decide.
  - rewrite (proj2 (Nat.ltb_lt _ _) Hp). destruct p; simpl in *; [lia|done].
  - apply IH. rewrite length_app. lia.
Qed.

Lemma parse_first_line max bs line rest more :
  split_line bs = Some (line, rest) ->
  parse max [] (bs ++ more) =
  match line with
  | [] => parse max [] (rest ++ more)
  | _ => if (max <? length line)%nat then ([], Some MessageTooLarge)
         else let (items, stop) := parse max [] (rest ++ more) in (ok_or (from_slice line) FrameError :: items, stop)
  end.
Proof.
  intros [-> Hn]%split_line_some. rewrite <- app_assoc, parse_pending by done. by destruct line.
Qed.

(** A reader whose inner reads all succeed and are not empty. *)
Definition healthy (e : Read) : Prop := exists b bs, e = ReadOk (b :: bs).
Definition payload (e : Read) : bytes := match e with ReadOk bs => bs | ReadErr => [] end.
Definition pending_bytes (r : FrameReader) : bytes := buf r ++ concat (payload <$> inner r).
Definition meaning (r : FrameReader) : list (result Value BridgeError) * option BridgeError := parse (max r) [] (pending_bytes r).

(** One call of [next] peels the first item off the reference; where the stream stops without being
    oversized, it stays there. *)
Definition peels (r : FrameReader) (o : option (result Value BridgeError)) (r' : FrameReader) : Prop :=
  Forall healthy (inner r') /\
  match meaning r with
  | (x :: items, stop) => o = Some x /\ meaning r' = (items, stop)
  | ([], stop) => o = Err <$> stop /\ (stop <> Some MessageTooLarge -> meaning r' = ([], stop))
  end.

Lemma next_loop_peels fuel r :
  (next_fuel r <= fuel)%nat -> Forall healthy (inner r) ->
  exists o r', next_loop from_slice fuel r = Some (o, r') /\ peels r o r'.
Proof.
  revert r. induction fuel as [|fuel IH]; intros r Hf Hh; [unfold next_fuel in Hf; lia|].
  cbn [next_loop]. destruct (split_line (buf r)) as [[line rest]|] eqn:Es.
  - pose proof (split_line_length _ _ _ Es) as Hl.
    pose proof (parse_first_line (max r) _ _ _ (concat (payload <$> inner r)) Es) as Hp. destruct line as [|c line].
    + destruct (IH (mkReader (inner r) rest (max r))) as (o & r' & E & Hi & Hr); [unfold next_fuel in *; simpl in *; lia|done|].
      exists o, r'. split; [done|]. split; [done|]. unfold meaning at 1, pending_bytes. rewrite Hp. exact Hr.
    + unfold peels, meaning at 1, pending_bytes at 1. rewrite Hp. destruct (max r <? length (c :: line))%nat.
      * eexists _, _. split; [done|]. by split.
      * eexists _, _. split; [done|]. split; [done|]. unfold meaning, pending_bytes. cbn [max buf inner].
        by destruct (parse (max r) [] (rest ++ concat (payload <$> inner r))).
  - apply split_line_none in Es. destruct (Nat.ltb_spec (max r) (length (buf r))) as [Hm|Hm].
    { eexists _, _. split; [done|]. split; [done|]. unfold meaning, pending_bytes. by rewrite parse_pending, parse_oversized. }
    destruct (inner r) as [|e inner'] eqn:Ei.
    + assert (meaning r = ([], match buf r with [] => None | _ => Some FrameError end)) as E.
      { unfold meaning, pending_bytes. rewrite Ei, parse_pending by done. simpl. by rewrite (proj2 (Nat.ltb_ge _ _) Hm). }
      eexists _, _. split; [done|]. unfold peels. rewrite Ei, E. split; [done|]. split; [by destruct (buf r)|]. by intros _.
    + apply Forall_cons in Hh as [(b & bs & ->) Hh].
      destruct (IH (mkReader inner' (buf r ++ b :: bs) (max r))) as (o & r' & E & Hi & Hr);
        [unfold next_fuel in *; rewrite Ei in Hf; simpl in *; rewrite length_app; simpl; lia|done|].
      exists o, r'. split; [done|]. split; [done|].
      assert (meaning r = meaning (mkReader inner' (buf r ++ b :: bs) (max r))) as -> by (unfold meaning, pending_bytes; rewrite Ei; simpl; by rewrite <- app_assoc).
      exact Hr.
Qed.

Lemma until_oversized_cons o (l l' : list (option (result Value BridgeError))) : until_oversized l = until_oversized l' -> until_oversized (o :: l) = until_oversized (o :: l').
Proof. intros E. simpl. by destruct o as [[|[]]|]; rewrite ?E. Qed.
Lemma nexts_expected n r : Forall healthy (inner r) ->
  exists l, nexts from_slice n r = Some l /\ length l = n /\ until_oversized l = until_oversized (expected n (meaning r)).
Proof.
  revert r. induction n as [|n IH]; intros r Hh; [by exists []|].
  destruct (next_loop_peels (next_fuel r) r) as (o & r' & E & Hi & Hp); [done|done|]. destruct (IH r' Hi) as (l & Hl & Hlen & Hu).
  exists (o :: l). cbn [nexts]. unfold next. rewrite E, Hl. split; [done|]. split; [simpl; lia|].
  destruct (meaning r) as [[|x items] stop]; unfold expected; cbn [fst snd fmap list_fmap app replicate take].
  - destruct Hp as [-> Hp]. destruct (decide (stop = Some MessageTooLarge)) as [->|Hs]; [done|]. rewrite (Hp Hs) in Hu. by apply until_oversized_cons.
  - destruct Hp as [-> Hp]. rewrite Hp in Hu. apply until_oversized_cons. rewrite Hu. unfold expected. cbn [fst snd].
    rewrite replicate_cons_app, app_assoc, (take_app_le (_ ++ _)) by (rewrite length_app, length_replicate; lia). done.
Qed.
End Facts.
End NdjsonFacts.

(** ** MCP line frames *)
Module McpLineFacts.
Import McpLine.

Lemma trim_end_snoc bs b :
  trim_end (bs ++ [b]) = if is_terminator b then trim_end bs else bs ++ [b].
Proof.
  induction bs as [|a bs IH]; simpl; [by destruct (is_terminator b)|].
  rewrite IH. destruct (is_terminator b); [done|]. by destruct bs.
Qed.

Lemma trim_end_id bs b : last bs = Some b -> is_terminator b = false -> trim_end bs = bs.
Proof.
  intros (bs' & ->)%last_Some Hb. by rewrite trim_end_snoc, Hb.
Qed.

Lemma read_until_line line rest : NL ∉ line -> read_until (line ++ NL :: rest) = (line ++ [NL], rest).
Proof. intros Hn. unfold read_until. by rewrite (proj2 (split_line_some _ line rest)). Qed.

(** A body that one frame can carry: not empty, on one line, with no carriage
    return at its end. *)
Definition line_body (body : bytes) : Prop :=
  NL ∉ body /\ exists b, last body = Some b /\ b <> CR.

Lemma line_body_terminator body b : line_body body -> last body = Some b -> is_terminator b = false.
Proof.
  intros (Hn & b' & Hl & Hb) E. simplify_eq. unfold is_terminator.
  rewrite !bool_decide_eq_false_2; [done|done|]. intros ->. apply Hn.
  apply last_Some in Hl as [? ->]. set_solver.
Qed.

Lemma read_line_frame_written body rest :
  line_body body -> read_line_frame (write_line_frame [] body ++ rest) = (Some body, rest).
Proof.
  intros Hb. pose proof Hb as (Hn & b & Hl & _). unfold read_line_frame, write_line_frame. simpl.
  rewrite <- app_assoc. simpl.
  destruct (body ++ NL :: rest) as [|c l] eqn:E; [by destruct body|]. rewrite <- E.
  rewrite read_until_line, trim_end_snoc by done.
  rewrite (trim_end_id _ b) by eauto using line_body_terminator. simpl. by destruct body.
Qed.
End McpLineFacts.

(** ** [Content-Length] frames *)
Module LspFacts.
Import Lsp.

Lemma digit_value n : (n < 10)%N -> in_range (digit n) 48 57 = true /\ (Byte.to_N (digit n) = 48 + n)%N.
Proof.
  intros Hn. assert (n ∈ [0;1;2;3;4;5;6;7;8;9]%N) as Hin by (rewrite !elem_of_cons; lia).
  rewrite !elem_of_cons, elem_of_nil in Hin. destruct_or! Hin; by subst.
Qed.

Lemma decimal_step n : (n = n / 10 * 10 + (48 + n mod 10 - 48))%N.
Proof.
  rewrite (N.add_comm 48), N.add_sub, N.mul_comm. apply N.Div0.div_mod.
Qed.

Definition is_digit (b : byte) : Prop := in_range b 48 57 = true.

Lemma decimal_loop_parses fuel n acc :
  (n < 2 ^ N.of_nat (S fuel))%N -> (n <= usize_max)%N ->
  exists ds, decimal_loop (S fuel) n acc = ds ++ acc /\ ds <> [] /\ Forall is_digit ds /\
    parse_digits 0 (ds ++ acc) = parse_digits n acc.
Proof.
  revert n acc. induction fuel as [|fuel IH]; intros n acc Hf Hm;
    pose proof (N.mod_lt n 10 ltac:(lia)) as Hmod; destruct (digit_value _ Hmod) as [Hd Hv];
    cbn [decimal_loop]; destruct (N.ltb_spec n 10) as [Hn|Hn].
  1, 3: exists [digit (n mod 10)]; split; [done|]; split; [done|]; split; [by apply Forall_singleton|];
    cbn [app parse_digits]; rewrite Hd, Hv, N.mod_small by done;
    replace (0 * 10 + (48 + n - 48))%N with n by lia; by rewrite (proj2 (N.leb_le _ _) Hm).
  { simpl in Hf. lia. }
  assert (n / 10 <= n / 2)%N as H2 by (apply N.div_le_compat_l; lia).
  assert (n / 2 < 2 ^ N.of_nat (S fuel))%N as H3.
  { apply N.Div0.div_lt_upper_bound. rewrite <- N.pow_succ_r', <- Nat2N.inj_succ. done. }
  assert (n / 10 <= n)%N as H4 by (apply N.Div0.div_le_upper_bound; lia).
  destruct (IH (n / 10)%N (digit (n mod 10) :: acc)) as (ds & E & Hne & Hds & Hp); [lia|lia|].
  exists (ds ++ [digit (n mod 10)]). rewrite <- !app_assoc. split; [done|].
  split; [by destruct ds|]. split; [apply Forall_app; split; [done|by apply Forall_singleton]|].
  cbn [app]. rewrite Hp. cbn [parse_digits]. rewrite Hd, Hv.
  replace (n / 10 * 10 + (48 + n mod 10 - 48))%N with n
    by apply decimal_step.
  by rewrite (proj2 (N.leb_le _ _) Hm).
Qed.

Lemma decimal_parses n :
  (n <= usize_max)%N ->
  decimal n <> [] /\ Forall is_digit (decimal n) /\ parse_digits 0 (decimal n) = Some n.
Proof.
  intros Hm. destruct (decimal_loop_parses (N.to_nat (N.log2 n)) n []) as (ds & E & Hne & Hd & Hp); [|done|].
  { rewrite Nat2N.inj_succ, N2Nat.id. destruct (N.eq_dec n 0%N) as [->|]; [done|]. apply N.log2_spec. lia. }
  rewrite app_nil_r in *. unfold decimal. by rewrite E, Hp.
Qed.

Lemma digit_facts b :
  is_digit b ->
  in_range b 0 127 = true /\ b <> NL /\ b <> x2b /\ McpLine.is_terminator b = false /\
  (forall l, strip_any whitespace (b :: l) = None) /\
  (forall l, strip_any (reverse <$> whitespace) (b :: l) = None).
Proof. unfold is_digit. by destruct b; intros [=]; repeat split. Qed.

Lemma utf8_ascii bs : Forall (fun b => in_range b 0 127 = true) bs -> utf8_valid bs = true.
Proof. induction 1 as [|b bs Hb _ IH]; simpl; [done|]. by rewrite Hb. Qed.

Lemma trim_digits ds : ds <> [] -> Forall is_digit ds -> trim (SP :: ds) = ds.
Proof.
  intros Hne Hd. unfold trim.
  assert (trim_start_with (length (SP :: ds)) whitespace (SP :: ds) = ds) as ->.
  { destruct ds as [|d ds]; [done|]. apply Forall_cons in Hd as [Hd _].
    cbn [length trim_start_with]. change (strip_any whitespace (SP :: d :: ds)) with (Some (d :: ds)).
    destruct (digit_facts d Hd) as (_ & _ & _ & _ & Hs & _). by rewrite Hs. }
  rewrite <- (reverse_involutive ds) at 3. f_equal.
  rewrite <- length_reverse. assert (Forall is_digit (reverse ds)) as Hr by (by apply Forall_reverse).
  destruct (reverse ds) as [|d rs]; [done|]. apply Forall_cons in Hr as [Hr _].
  cbn [length trim_start_with]. destruct (digit_facts d Hr) as (_ & _ & _ & _ & _ & Hs). by rewrite Hs.
Qed.

Lemma parse_usize_digits ds : Forall is_digit ds -> ds <> [] -> parse_usize ds = parse_digits 0 ds.
Proof.
  intros Hd Hne. destruct ds as [|d ds]; [done|]. apply Forall_cons in Hd as [Hd _].
  destruct (digit_facts d Hd) as (_ & _ & Hp & _). by destruct d.
Qed.

Definition header (ds : bytes) : bytes := of_str "Content-Length: " ++ ds.

Lemma header_line ds rest :
  ds <> [] -> Forall is_digit ds ->
  read_line (header ds ++ [CR; NL] ++ rest) = Ok (header ds ++ [CR; NL], rest) /\
  McpLine.trim_end (header ds ++ [CR; NL]) = header ds.
Proof.
  intros Hne Hd. split.
  - unfold read_line, header. replace ((of_str "Content-Length: " ++ ds) ++ [CR; NL] ++ rest)
      with ((of_str "Content-Length: " ++ ds ++ [CR]) ++ NL :: rest) by by rewrite <- !app_assoc.
    rewrite McpLineFacts.read_until_line.
    + rewrite utf8_ascii; [by rewrite <- !app_assoc|]. rewrite !Forall_app. split_and!.
      * by repeat constructor.
      * eapply Forall_impl; [exact Hd|]. intros b Hb. apply (digit_facts b Hb).
      * by repeat constructor.
      * by repeat constructor.
    + rewrite !elem_of_app. intros [Hin|[Hin|Hin]].
      * revert Hin. apply (bool_decide_unpack _). by vm_compute.
      * rewrite Forall_forall in Hd. destruct (digit_facts _ (Hd _ Hin)) as (_ & ? & _). done.
      * set_solver.
  - change [CR; NL] with ([CR] ++ [NL]). rewrite app_assoc, !McpLineFacts.trim_end_snoc.
    change (McpLine.is_terminator NL) with true. change (McpLine.is_terminator CR) with true. cbn beta iota.
    destruct (last ds) as [d|] eqn:El; [|by apply last_None in El].
    apply (McpLineFacts.trim_end_id _ d).
    + unfold header. rewrite last_app, El. done.
    + apply last_Some in El as [l ->]. apply Forall_app in Hd as [_ Hd]. apply Forall_cons in Hd as [Hd _].
      apply (digit_facts d Hd).
Qed.

Lemma read_headers_length fuel len saw_any ds n rest :
  ds <> [] -> Forall is_digit ds -> parse_digits 0 ds = Some n ->
  read_headers (S fuel) len saw_any (header ds ++ [CR; NL] ++ rest) = read_headers fuel (Some n) true rest.
Proof.
  intros Hne Hd Hp. destruct (header_line ds rest Hne Hd) as [Hl Ht].
  assert (strip_prefix (of_str "Content-Length:") (header ds) = Some (SP :: ds)) as Hs by done.
  cbn [read_headers]. rewrite Hl. cbn [result_bind].
  destruct (header ds ++ [CR; NL]) as [|c l] eqn:E; [done|].
  rewrite Ht. destruct (header ds) as [|c' l'] eqn:E'; [done|].
  by rewrite Hs, trim_digits, parse_usize_digits, Hp.
Qed.

Lemma read_headers_blank fuel len saw_any rest :
  read_headers (S fuel) len saw_any ([CR; NL] ++ rest) = Ok (Some (len, rest)).
Proof. done. Qed.

Lemma read_frame_written body rest :
  (N.of_nat (length body) <= isize_max)%N ->
  read_frame (write_frame [] body ++ rest) = Ok (Some body, rest).
Proof.
  intros Hm. assert (N.of_nat (length body) <= usize_max)%N as Hu by (unfold isize_max, usize_max in *; lia).
  destruct (decimal_parses _ Hu) as (Hne & Hd & Hp). unfold read_frame, write_frame. set (ds := decimal _) in *.
  replace (([] ++ of_str "Content-Length: " ++ ds ++ [CR; NL; CR; NL] ++ body) ++ rest)
    with (header ds ++ [CR; NL] ++ [CR; NL] ++ body ++ rest)
    by (unfold header; simpl; by rewrite <- !app_assoc).
  rewrite (read_headers_length _ _ _ ds _ _ Hne Hd Hp).
  change (length (header ds ++ _)) with (S (length (drop 1 (header ds ++ [CR; NL] ++ [CR; NL] ++ body ++ rest)))).
  rewrite read_headers_blank. cbn [result_bind ok_or].
  rewrite (proj2 (N.ltb_ge _ _) Hm), length_app, (proj2 (N.leb_le _ _)) by lia.
  by rewrite Nat2N.id, take_app_length, drop_app_length.
Qed.
End LspFacts.

(** ** The SSE decoder *)
Module SseFacts.
Import Sse.
Section Facts.
Context {E : Type}.
Local Abbreviation decoded := (list (result SseEvent (SseError E))).

Local Abbreviation line_step := (take_line (E:=E)).

Definition drain (d : Decoder) : decoded * option Decoder := drain_lines (length (buf d)) d.
Definition extend (d : Decoder) (more : bytes) : Decoder :=
  mkDecoder (buf d ++ more) (data_lines d) (pending_id d).

Lemma take_line_buf line d : buf (snd (line_step line d)) = buf d.
Proof. unfold take_line. destruct line; repeat case_match; by simplify_eq/=. Qed.

Lemma take_line_extend line d more :
  line_step line (extend d more) =
  (fst (line_step line d), extend (snd (line_step line d)) more).
Proof.
  unfold take_line. destruct line as [|c l]; simpl.
  - by destruct (take_event (data_lines d) (pending_id d)) as [ev [ls pid]].
  - by destruct (process_field_line (c :: l) (data_lines d) (pending_id d)) as [ls pid].
Qed.

Lemma drain_lines_fuel f1 f2 d :
  (length (buf d) <= f1)%nat -> (length (buf d) <= f2)%nat ->
  drain_lines (E:=E) f1 d = drain_lines f2 d.
Proof.
  revert f2 d. induction f1 as [|f1 IH]; intros [|f2] d H1 H2; simpl; [done|..].
  1-2: destruct d as [[|c b] ls pid]; simpl in *; [done|lia].
  destruct (split_line (buf d)) as [[raw rest]|] eqn:Es; [|done].
  apply split_line_length in Es. destruct (from_utf8 (chomp raw)) as [line|]; [|done].
  destruct (line_step line _) as [out d'] eqn:Et.
  pose proof (f_equal (fun p => buf (snd p)) Et) as Hb. simpl in Hb. rewrite take_line_buf in Hb.
  simpl in Hb. rewrite (IH f2 d'); [done|rewrite <- Hb; lia..].
Qed.

Lemma drain_unfold d :
  drain d =
  match split_line (buf d) with
  | None => ([], Some d)
  | Some (raw, rest) =>
      match from_utf8 (chomp raw) with
      | None => ([Err Utf8], None)
      | Some line =>
          let '(out, d') := line_step line (mkDecoder rest (data_lines d) (pending_id d)) in
          (out ++ fst (drain d'), snd (drain d'))
      end
  end.
Proof.
  unfold drain at 1. rewrite (drain_lines_fuel _ (S (length (buf d)))) by lia. cbn [drain_lines].
  destruct (split_line (buf d)) as [[raw rest]|] eqn:Es; [|done].
  apply split_line_length in Es. destruct (from_utf8 (chomp raw)) as [line|]; [|done].
  destruct (line_step line _) as [out d'] eqn:Et.
  pose proof (f_equal (fun p => buf (snd p)) Et) as Hb. simpl in Hb. rewrite take_line_buf in Hb.
  simpl in Hb. unfold drain. rewrite (drain_lines_fuel (length (buf d)) (length (buf d'))) by (rewrite <- Hb; lia).
  by destruct (drain_lines _ d').
Qed.

(** Bytes that arrive later do not change what the lines before them do. *)
Lemma drain_extend n d more :
  (length (buf d) <= n)%nat ->
  drain (extend d more) =
  match drain d with
  | (out, None) => (out, None)
  | (out, Some d') => (out ++ fst (drain (extend d' more)), snd (drain (extend d' more)))
  end.
Proof.
  revert d. induction n as [|n IH]; intros d Hn; rewrite (drain_unfold d).
  { destruct d as [[|c b] ls pid]; simpl in *; [by destruct (drain _)|lia]. }
  destruct (split_line (buf d)) as [[raw rest]|] eqn:Es; [|by destruct (drain _)].
  rewrite drain_unfold. simpl. rewrite (split_line_app _ more _ _ Es).
  destruct (from_utf8 (chomp raw)) as [line|]; [|done].
  change (mkDecoder (rest ++ more) ?a ?b) with (extend (mkDecoder rest a b) more).
  rewrite take_line_extend. apply split_line_length in Es.
  pose proof (take_line_buf line (mkDecoder rest (data_lines d) (pending_id d))) as Hb.
  destruct (line_step line _) as [out d'] eqn:Et. simpl in *.
  rewrite IH by (rewrite Hb; lia). destruct (drain d') as [out' [d''|]]; simpl; [|done].
  by rewrite app_assoc.
Qed.

Lemma decode_loop_cons d bs stream :
  decode_loop d (Ok bs :: stream) =
  fst (drain (extend d bs)) ++
  match snd (drain (extend d bs)) with Some d' => decode_loop (E:=E) d' stream | None => [] end.
Proof. simpl. unfold drain, extend. simpl. by destruct (drain_lines _ _). Qed.

Lemma decode_loop_split d a b stream :
  decode_loop (E:=E) d (Ok (a ++ b) :: stream) = decode_loop d (Ok a :: Ok b :: stream).
Proof.
  rewrite (decode_loop_cons d (a ++ b)), (decode_loop_cons d a).
  change (extend d (a ++ b)) with (mkDecoder (buf d ++ a ++ b) (data_lines d) (pending_id d)).
  rewrite app_assoc. change (mkDecoder ((buf d ++ a) ++ b) _ _) with (extend (extend d a) b).
  rewrite (drain_extend (length (buf (extend d a)))) by done.
  destruct (drain (extend d a)) as [out [d'|]]; cbn [fst snd]; [|by rewrite app_nil_r].
  by rewrite decode_loop_cons, app_assoc.
Qed.

Lemma decode_loop_concat d chunks c stream :
  decode_loop (E:=E) d (Ok c :: (Ok <$> chunks) ++ stream) = decode_loop d (Ok (c ++ concat chunks) :: stream).
Proof.
  revert c. induction chunks as [|c' chunks IH]; intros c; cbn [fmap list_fmap app concat]; [by rewrite app_nil_r|].
  rewrite app_assoc, <- (IH (c ++ c')). by rewrite decode_loop_split.
Qed.

(** *** Reading back the wire form *)
Definition fresh (rest : bytes) : Decoder := mkDecoder rest [] None.
Definition clean (v : bytes) : Prop := NL ∉ v /\ CR ∉ v /\ utf8_valid v = true.

Lemma chomp_id v : CR ∉ v -> chomp v = v.
Proof.
  intros Hn. unfold chomp. destruct (last v) as [b|] eqn:El; [|done].
  rewrite bool_decide_eq_false_2; [done|]. intros ->. apply last_Some in El as [l ->]. set_solver.
Qed.

Lemma drain_line raw rest ls pid :
  clean raw ->
  drain (mkDecoder (raw ++ NL :: rest) ls pid) =
  let '(out, d') := line_step raw (mkDecoder rest ls pid) in (out ++ fst (drain d'), snd (drain d')).
Proof.
  intros (Hn & Hc & Hu). rewrite drain_unfold. simpl.
  rewrite (proj2 (split_line_some _ raw rest)) by done. unfold from_utf8. by rewrite chomp_id, Hu.
Qed.

Lemma clean_field p v : clean p -> clean v -> (forall w, utf8_valid (p ++ w) = utf8_valid w) ->
  clean (p ++ SP :: v).
Proof. intros (?&?&?) (?&?&Hu) Hp. split; [set_solver|]. split; [set_solver|]. by rewrite Hp. Qed.

Lemma clean_name name : name ∈ ["data:"; "id:"]%string -> clean (of_str name).
Proof.
  intros Hn. rewrite !elem_of_cons, elem_of_nil in Hn.
  destruct_or! Hn; subst; (split; [|split; [|done]]); apply (bool_decide_unpack _); by vm_compute.
Qed.

Lemma drain_data v rest ls pid :
  clean v -> drain (mkDecoder (field "data:" v ++ rest) ls pid) = drain (mkDecoder rest (ls ++ [v]) pid).
Proof.
  intros Hv. unfold field.
  replace ((of_str "data:" ++ SP :: v ++ [NL]) ++ rest) with ((of_str "data:" ++ SP :: v) ++ NL :: rest)
    by (rewrite <- !app_assoc; simpl; by rewrite <- app_assoc).
  rewrite drain_line by (apply clean_field; [apply clean_name; set_solver|done|done]).
  simpl. by destruct (drain _).
Qed.

Lemma drain_id v rest ls pid :
  clean v -> drain (mkDecoder (field "id:" v ++ rest) ls pid) = drain (mkDecoder rest ls (Some v)).
Proof.
  intros Hv. unfold field.
  replace ((of_str "id:" ++ SP :: v ++ [NL]) ++ rest) with ((of_str "id:" ++ SP :: v) ++ NL :: rest)
    by (rewrite <- !app_assoc; simpl; by rewrite <- app_assoc).
  rewrite drain_line by (apply clean_field; [apply clean_name; set_solver|done|done]).
  simpl. by destruct (drain _).
Qed.

Lemma drain_data_lines vs rest ls pid :
  Forall clean vs ->
  drain (mkDecoder (concat (field "data:" <$> vs) ++ rest) ls pid) = drain (mkDecoder rest (ls ++ vs) pid).
Proof.
  intros Hv. revert ls. induction Hv as [|v vs Hv Hvs IH]; intros ls; cbn [fmap list_fmap concat];
    [by rewrite app_nil_r|].
  rewrite <- app_assoc, drain_data by done. rewrite IH. by rewrite <- app_assoc.
Qed.

Lemma lines_of_clean p bs :
  NL ∉ p -> CR ∉ p ++ bs -> utf8_valid (p ++ bs) = true -> Forall clean (lines_of p bs).
Proof.
  revert p. induction bs as [|b bs IH]; intros p Hn Hc Hu; simpl.
  { rewrite app_nil_r in *. by repeat constructor. }
  case_bool_decide as Hb; subst.
  - rewrite utf8_newline in Hu. apply andb_true_iff in Hu as [Hu Hu'].
    constructor; [split; [done|split; [set_solver|done]]|]. apply IH; [set_solver..|done].
  - apply IH; [set_solver|by rewrite <- app_assoc|by rewrite <- app_assoc].
Qed.

Lemma join_cons v vs : vs <> [] -> join (v :: vs) = v ++ NL :: join vs.
Proof. by destruct vs. Qed.
Lemma lines_of_nonempty p bs : lines_of p bs <> [].
Proof. revert p. induction bs; intros p; simpl; [done|]. by case_bool_decide. Qed.
Lemma join_lines p bs : join (lines_of p bs) = p ++ bs.
Proof.
  revert p. induction bs as [|b bs IH]; intros p; simpl; [by rewrite app_nil_r|].
  case_bool_decide; subst; [rewrite join_cons by apply lines_of_nonempty; by rewrite IH|].
  rewrite IH, <- app_assoc. done.
Qed.

(** Events the wire form can carry: UTF-8 without carriage returns, the
    identifier on one line. *)
Definition wire_event (ev : SseEvent) : Prop :=
  (forall i, id ev = Some i -> clean i) /\ CR ∉ data ev /\ utf8_valid (data ev) = true.

Lemma drain_event ev rest :
  wire_event ev ->
  drain (fresh (wire ev ++ rest)) = (Ok ev :: fst (drain (fresh rest)), snd (drain (fresh rest))).
Proof.
  intros (Hi & Hc & Hu). unfold fresh, wire. rewrite <- !app_assoc.
  trans (drain (mkDecoder (concat (field "data:" <$> lines_of [] (data ev)) ++ [NL] ++ rest) [] (id ev))).
  { destruct (id ev) as [i|]; [|done]. by rewrite drain_id by auto. }
  rewrite drain_data_lines by (apply lines_of_clean; [set_solver|done|done]). simpl.
  pose proof (drain_line [] rest (lines_of [] (data ev)) (id ev)) as Hd.
  simpl in Hd. rewrite Hd by (split; [set_solver|split; [set_solver|done]]). unfold take_event.
  pose proof (join_lines [] (data ev)) as Hj. pose proof (lines_of_nonempty [] (data ev)) as Hn.
  destruct (lines_of [] (data ev)) as [|l ls]; [done|]. rewrite Hj. simpl. by destruct ev.
Qed.

Lemma drain_events evs :
  Forall wire_event evs -> drain (fresh (wires evs)) = (Ok <$> evs, Some (fresh [])).
Proof.
  unfold wires. induction 1 as [|ev evs Hev _ IH]; [done|]. cbn [fmap list_fmap concat].
  rewrite drain_event by done. by rewrite IH.
Qed.

Lemma decode_sse_concat chunks stream :
  decode_sse ((Ok <$> chunks) ++ stream) = decode_sse (E:=E) (Ok (concat chunks) :: stream).
Proof.
  destruct chunks as [|c chunks]; [done|]. unfold decode_sse. apply decode_loop_concat.
Qed.
End Facts.
End SseFacts.

(** ** Theorems *)
(** C40: the results of an NDJSON reader depend only on the bytes, not on how the inner reads cut them, up to
    and including the first message that is too large. Of any number of calls, also after errors: every
    non-blank line gives its value or, if it is no JSON, an error, in order; then a clean end, or the error
    of a truncated or oversized tail, again and again. *)
Theorem ndjson_chunking_invisible {Value} (from_slice : bytes -> option Value) max chunks n :
  Forall (fun c => c <> []) chunks ->
  exists results, Ndjson.nexts from_slice n (Ndjson.new (Ndjson.ReadOk <$> chunks) max) = Some results /\
    length results = n /\
    Ndjson.until_oversized results =
    Ndjson.until_oversized (Ndjson.expected n (Ndjson.parse_stream from_slice max [] (concat chunks))).
Proof.
  intros Hc. assert (concat chunks = NdjsonFacts.pending_bytes (Ndjson.new (Ndjson.ReadOk <$> chunks) max)) as ->.
  { unfold NdjsonFacts.pending_bytes. simpl. by rewrite <- list_fmap_compose, list_fmap_id. }
  apply NdjsonFacts.nexts_expected. apply Forall_fmap. eapply Forall_impl; [exact Hc|]. intros [|b bs]; [done|]. by exists b, bs.
Qed.

(** The SSE decoder yields exactly the events that were written, in order,
    whatever the boundaries of the body chunks (inside a field name, a
    multi-byte character or a line terminator). *)
Theorem sse_roundtrip {E} (evs : list Sse.SseEvent) (chunks : list bytes) :
  Forall SseFacts.wire_event evs -> concat chunks = Sse.wires evs ->
  Sse.decode_sse (E:=E) (Ok <$> chunks) = Ok <$> evs.
Proof.
  intros Hw Hc. rewrite <- (app_nil_r (Ok <$> chunks)), SseFacts.decode_sse_concat, Hc.
  unfold Sse.decode_sse. rewrite SseFacts.decode_loop_cons.
  change (SseFacts.extend _ _) with (SseFacts.fresh (Sse.wires evs)).
  rewrite SseFacts.drain_events by done. apply app_nil_r.
Qed.

Lemma foldl_writer (write : bytes -> bytes -> bytes) :
  (forall out body, write out body = out ++ write [] body) ->
  forall bodies out, foldl write out bodies = out ++ foldl write [] bodies.
Proof.
  intros Hw bodies. induction bodies as [|b bodies IH]; intros out; simpl; [by rewrite app_nil_r|].
  by rewrite (IH (write out b)), (IH (write [] b)), Hw, app_assoc.
Qed.

(** Whatever messages are written as [Content-Length] frames are read back
    by the reader loop, in order and unchanged (the bytes are not escaped, so a
    body may hold anything), and then the loop ends; the same holds of MCP line
    frames for bodies on one line. *)
Theorem frames_roundtrip (bodies : list bytes) fuel :
  (length bodies < fuel)%nat ->
  Forall (fun body => (N.of_nat (length body) <= Lsp.isize_max)%N) bodies ->
  Lsp.read_bodies fuel (foldl Lsp.write_frame [] bodies) = bodies /\
  (Forall McpLineFacts.line_body bodies ->
   McpLine.read_line_bodies fuel (foldl McpLine.write_line_frame [] bodies) = bodies).
Proof.
  intros Hf Hl. split; [|intros Hb; clear Hl].
  - revert fuel Hf. induction Hl as [|body bodies Hbody _ IH]; intros [|fuel] Hf; simpl in Hf; try lia; [done|].
    cbn [foldl Lsp.read_bodies]. rewrite foldl_writer by done.
    rewrite LspFacts.read_frame_written by done. rewrite IH; [done|lia].
  - revert fuel Hf. induction Hb as [|body bodies Hbody _ IH]; intros [|fuel] Hf; simpl in Hf; try lia; [done|].
    cbn [foldl McpLine.read_line_bodies]. rewrite foldl_writer by done.
    rewrite McpLineFacts.read_line_frame_written by done. rewrite IH; [done|lia].
Qed.

(** ** Witnesses *)
Definition is_brace (bs : bytes) : option bytes :=
  match bs with x7b :: _ => Some bs | _ => None end.

Example ndjson_chunking_invisible_witness : exists results,
  Ndjson.nexts is_brace 6 (Ndjson.new (Ndjson.ReadOk <$> [of_str "{1}"; [NL; NL; x62]; of_str "2"; [NL; x7b; x7d]; [NL; x41]]) 4) = Some results /\
  length results = 6%nat /\
  Ndjson.until_oversized results = [Some (Ok (of_str "{1}")); Some (Err FrameError); Some (Ok (of_str "{}")); Some (Err FrameError); Some (Err FrameError); Some (Err FrameError)].
Proof. exact (ndjson_chunking_invisible is_brace 4 [of_str "{1}"; [NL; NL; x62]; of_str "2"; [NL; x7b; x7d]; [NL; x41]] 6 ltac:(by repeat constructor)). Defined.

(** After a message that is too large the results do depend on the reads: the line after it is read if the
    oversized line came whole, and never if its newline came later. *)
Lemma oversized_line_may_block_the_stream :
  Ndjson.nexts is_brace 3 (Ndjson.new [Ndjson.ReadOk (of_str "aaaaa" ++ [NL] ++ of_str "{}" ++ [NL])] 3) =
    Some [Some (Err MessageTooLarge); Some (Ok (of_str "{}")); None] /\
  Ndjson.nexts is_brace 3 (Ndjson.new [Ndjson.ReadOk (of_str "aaaaa"); Ndjson.ReadOk ([NL] ++ of_str "{}" ++ [NL])] 3) =
    Some [Some (Err MessageTooLarge); Some (Err MessageTooLarge); Some (Err MessageTooLarge)].
Proof. by vm_compute. Qed.

Example sse_roundtrip_witness :
  Sse.decode_sse (E:=unit) (Ok <$> [of_str "id: 7"; [NL]; of_str "dat"; of_str "a: "; [xc3]; [xa9; NL]; of_str "data: b"; [NL; NL]]) =
  [Ok (Sse.mkEvent (Some (of_str "7")) [xc3; xa9; NL; x62])].
Proof.
  rewrite (sse_roundtrip [Sse.mkEvent (Some (of_str "7")) [xc3; xa9; NL; x62]]); [done| |done].
  constructor; [|constructor]. split; [|split; [apply (bool_decide_unpack _); by vm_compute|done]].
  intros i [= <-]. split; [|split; [|done]]; apply (bool_decide_unpack _); by vm_compute.
Defined.

Example frames_roundtrip_witness :
  Lsp.read_bodies 3 (foldl Lsp.write_frame [] [of_str "{}"; [NL]]) = [of_str "{}"; [NL]] /\
  McpLine.read_line_bodies 2 (foldl McpLine.write_line_frame [] [of_str "{}"]) = [of_str "{}"].
Proof.
  split; [apply (frames_roundtrip [of_str "{}"; [NL]]); [simpl; lia|by repeat constructor]|].
  apply (frames_roundtrip [of_str "{}"]); [simpl; lia|by repeat constructor|].
  constructor; [|constructor]. split; [apply (bool_decide_unpack _); by vm_compute|]. by exists x7d.
Defined.
