(* ===== verification/Permission.v ===== *)
(** * Permission rendezvous ([bridge-core/src/permission.rs], [bridge-policy/src/permission.rs])

    An agent that asks for permission parks on a oneshot channel; an operator's
    decision, a cancelled context or a dropped guard settles it. The registry is
    a map under one mutex, so each method is one atomic step. The world around
    it holds the oneshot channels, named by the order of their registration, and
    the guards that are still alive. *)
From S2P Require Import Prelude Domain.
Open Scope Z_scope.
Open Scope bridge_scope.

(** ** Data *)
Record PermKey := mkPermKey {
  context_id : string;
  generation : Z;
  op : string;
  request_id : string }.
#[global] Instance perm_key_eq_dec : EqDecision PermKey.
Proof. solve_decision. Defined.
#[global] Instance perm_key_countable : Countable PermKey.
Proof.
  refine (inj_countable' (fun k => (context_id k, generation k, op k, request_id k))
            (fun '(c, g, o, r) => mkPermKey c g o r) _).
  by intros [].
Defined.

Inductive PermitDecision :=
| Approve (option_id : option string)
| Deny (option_id reason : option string)
| Modify (option_id : string) (note : option string)
| Escalate (reason : option string).

Inductive PermissionResolution :=
| Decided (d : PermitDecision)
| Cancelled.

Record PermissionOptionView := mkOptionView { ov_option_id : string; ov_name : string; ov_kind : string }.
Record PendingPermissionView := mkPendingView {
  pv_request_id : string; pv_tool_call_id : string; pv_generation : Z; pv_op : string;
  pv_title : string; pv_options : list PermissionOptionView; pv_raw_input : option string;
  pv_timeout_ms : Z }.

(** A oneshot channel: the value sent, and whether each half is alive. *)
Record Oneshot := mkOneshot {
  value : option PermissionResolution;
  sender_alive : bool;
  listening : bool }.

(** [sender] names its channel. *)
Record PendingEntry := mkPending { sender : nat; view : PendingPermissionView; token : Z }.

Record PermissionRegistry := mkRegistry {
  inner : gmap PermKey PendingEntry;
  next_token : Z }.

(** A guard; [g_chan] names the channel registered with it. *)
Record PermitGuard := mkGuard { g_key : PermKey; g_token : Z; g_chan : nat }.
#[global] Instance permit_guard_eq_dec : EqDecision PermitGuard.
Proof. solve_decision. Defined.

Record World := mkWorld {
  reg : PermissionRegistry;
  chans : list Oneshot;
  guards : list PermitGuard }.

Definition new : World := mkWorld (mkRegistry ∅ 0) [] [].

(** ** Oneshot channels *)
Definition drop_sender (c : nat) (chans : list Oneshot) : list Oneshot :=
  alter (fun o => mkOneshot (value o) false (listening o)) c chans.
Definition drop_receiver (c : nat) (chans : list Oneshot) : list Oneshot :=
  alter (fun o => mkOneshot (value o) (sender_alive o) false) c chans.
(** [Sender::send]: the value is kept iff the receiver still listens. *)
Definition send (c : nat) (res : PermissionResolution) (chans : list Oneshot) : list Oneshot * bool :=
  match chans !! c with
  | Some o =>
      if listening o then (<[c := mkOneshot (Some res) false true]> chans, true)
      else (drop_sender c chans, false)
  | None => (chans, false)
  end.

(** ** [PermissionRegistry] *)
(** [HashMap::remove] whose value is dropped: the sender goes with it. *)
Definition remove_entry (key : PermKey) (w : World) : World :=
  match inner (reg w) !! key with
  | Some e =>
      mkWorld (mkRegistry (delete key (inner (reg w))) (next_token (reg w)))
              (drop_sender (sender e) (chans w)) (guards w)
  | None => w
  end.

Definition register (key : PermKey) (view : PendingPermissionView) (w : World) : World * (nat * PermitGuard) :=
  let receiver := length (chans w) in
  let token := next_token (reg w) in
  let replaced := remove_entry key w in
  let guard := mkGuard key token receiver in
  (mkWorld (mkRegistry (<[key := mkPending receiver view token]> (inner (reg replaced)))
                       ((token + 1) mod (u64_max + 1)))
           (chans replaced ++ [mkOneshot None true true])
           (guard :: guards w),
   (receiver, guard)).

Definition resolve (key : PermKey) (res : PermissionResolution) (w : World) : World * bool :=
  match inner (reg w) !! key with
  | Some e =>
      let '(chans', ok) := send (sender e) res (chans w) in
      (mkWorld (mkRegistry (delete key (inner (reg w))) (next_token (reg w))) chans' (guards w), ok)
  | None => (w, false)
  end.

(** The keys of a context, in the order the map yields them. *)
Definition context_keys (ctx : string) (w : World) : list PermKey :=
  filter (fun key => context_id key = ctx) (map_to_list (inner (reg w))).*1.

Fixpoint cancel_keys (keys : list PermKey) (w : World) (count : Z) : World * Z :=
  match keys with
  | [] => (w, count)
  | key :: keys' =>
      match inner (reg w) !! key with
      | Some _ => cancel_keys keys' (fst (resolve key Cancelled w)) (count + 1)
      | None => cancel_keys keys' w count
      end
  end.

Definition resolve_context_cancelled (ctx : string) (w : World) : World * Z :=
  cancel_keys (context_keys ctx w) w 0.

Definition reap (key : PermKey) (w : World) : World := remove_entry key w.

Definition reap_if_current (key : PermKey) (token' : Z) (w : World) : World :=
  match inner (reg w) !! key with
  | Some e => if token e =? token' then remove_entry key w else w
  | None => w
  end.

Definition pending (ctx : string) (w : World) : list PendingPermissionView :=
  view ∘ snd <$> filter (fun p => context_id p.1 = ctx) (map_to_list (inner (reg w))).

(** [Drop for PermitGuard]; a guard is dropped at most once. *)
Definition drop_guard (g : PermitGuard) (w : World) : World :=
  if bool_decide (g ∈ guards w)
  then reap_if_current (g_key g) (g_token g)
         (mkWorld (reg w) (chans w) (filter (fun g' => g' <> g) (guards w)))
  else w.

(** ** The rendezvous system *)
Inductive Event :=
| Register (key : PermKey) (view : PendingPermissionView)
| Resolve (key : PermKey) (res : PermissionResolution)
| CancelContext (ctx : string)
| Reap (key : PermKey)
| DropGuard (g : PermitGuard)
| DropReceiver (c : nat).

Definition step (w : World) (e : Event) : World :=
  match e with
  | Register key view => fst (register key view w)
  | Resolve key res => fst (resolve key res w)
  | CancelContext ctx => fst (resolve_context_cancelled ctx w)
  | Reap key => reap key w
  | DropGuard g => drop_guard g w
  | DropReceiver c => mkWorld (reg w) (drop_receiver c (chans w)) (guards w)
  end.

(** ** Policies ([PolicyEngine]) *)
Record PermissionRequest := mkPermissionRequest { rq_request_id : string; interactive : bool }.
Inductive PermissionDecision := PdApprove.
Inductive PolicyOutcome :=
| Decide (r : result PermissionDecision BridgeError)
| Defer.

Class PolicyEngine (P : Type) := {
  decide_request : P -> PermissionRequest -> result PermissionDecision BridgeError;
  interactive_decide : P -> PermissionRequest -> PolicyOutcome }.

(** The provided method of the trait. *)
Definition default_interactive_decide {P} (decide_request : P -> PermissionRequest -> result PermissionDecision BridgeError)
    (p : P) (req : PermissionRequest) : PolicyOutcome := Decide (decide_request p req).

Inductive AutoPolicy := mkAutoPolicy.
Inductive DeferPolicy := mkDeferPolicy.

Definition auto_decide (_ : AutoPolicy) (req : PermissionRequest) : result PermissionDecision BridgeError :=
  if interactive req then Err PermissionDenied else Ok PdApprove.
#[global] Instance auto_policy : PolicyEngine AutoPolicy := {
  decide_request := auto_decide;
  interactive_decide := default_interactive_decide auto_decide }.
#[global] Instance defer_policy : PolicyEngine DeferPolicy := {
  decide_request _ _ := Ok PdApprove;
  interactive_decide _ _ := Defer }.

(** ** Invariant

    Every entry has its guard alive and a channel nobody has answered; every
    channel whose sender is alive has its entry; tokens count registrations
    modulo [2^64]. *)
Record world_ok (w : World) : Prop := {
  ok_entry : forall k e, inner (reg w) !! k = Some e ->
    mkGuard k (token e) (sender e) ∈ guards w /\
    exists o, chans w !! sender e = Some o /\ sender_alive o = true /\ value o = None;
  ok_sender : forall c o, chans w !! c = Some o -> sender_alive o = true ->
    exists k e, inner (reg w) !! k = Some e /\ sender e = c;
  ok_guard : forall g, g ∈ guards w ->
    (g_chan g < length (chans w))%nat /\ g_token g = Z.of_nat (g_chan g) mod (u64_max + 1);
  ok_unique : forall g g', g ∈ guards w -> g' ∈ guards w -> g_chan g = g_chan g' -> g = g';
  ok_next : next_token (reg w) = Z.of_nat (length (chans w)) mod (u64_max + 1) }.

Lemma entry_chan_inj w k k' e e' :
  world_ok w -> inner (reg w) !! k = Some e -> inner (reg w) !! k' = Some e' ->
  sender e = sender e' -> k = k'.
Proof.
  intros Hw [Hg _]%(ok_entry _ Hw) [Hg' _]%(ok_entry _ Hw) E.
  by injection (ok_unique _ Hw _ _ Hg Hg' E).
Qed.

Lemma new_ok : world_ok new.
Proof. split; simpl; try done; intros; set_solver. Qed.

(** How a channel vector may change: channel [c] becomes [o'], nothing else. *)
Lemma drop_sender_length c l : length (drop_sender c l) = length l.
Proof. apply length_alter. Qed.
Lemma drop_sender_lookup c l i :
  drop_sender c l !! i =
  (fun o => if bool_decide (i = c) then mkOneshot (value o) false (listening o) else o) <$> l !! i.
Proof.
  unfold drop_sender. destruct (decide (i = c)) as [->|Hne].
  - rewrite list_lookup_alter_eq. by rewrite bool_decide_eq_true_2.
  - rewrite list_lookup_alter_ne, bool_decide_eq_false_2 by done. by destruct (l !! i).
Qed.
Lemma send_length c res l : length (fst (send c res l)) = length l.
Proof.
  unfold send. destruct (l !! c) as [o|]; [|done].
  destruct (listening o); simpl; [apply length_insert|apply drop_sender_length].
Qed.
Lemma send_lookup c res l i :
  fst (send c res l) !! i =
  (fun o => if bool_decide (i = c)
            then if listening o then mkOneshot (Some res) false true else mkOneshot (value o) false (listening o)
            else o) <$> l !! i.
Proof.
  unfold send. destruct (l !! c) as [o|] eqn:E.
  - destruct (listening o) eqn:El; cbn [fst].
    + destruct (decide (i = c)) as [->|Hne].
      * rewrite list_lookup_insert_eq by (by eapply lookup_lt_Some). rewrite E. simpl.
        by rewrite bool_decide_eq_true_2, El by done.
      * rewrite list_lookup_insert_ne, bool_decide_eq_false_2 by done. by destruct (l !! i).
    + rewrite drop_sender_lookup. destruct (decide (i = c)) as [->|Hne].
      * rewrite E. simpl. by rewrite bool_decide_eq_true_2, El by done.
      * rewrite bool_decide_eq_false_2 by done. done.
  - cbn [fst]. destruct (decide (i = c)) as [->|Hne]; [by rewrite E|].
    rewrite bool_decide_eq_false_2 by done. by destruct (l !! i).
Qed.

(** Taking one entry out and settling its sender keeps the invariant. *)
Lemma settle_ok w k e l' :
  world_ok w -> inner (reg w) !! k = Some e -> length l' = length (chans w) ->
  (forall i, i <> sender e -> l' !! i = chans w !! i) ->
  (forall o, l' !! sender e = Some o -> sender_alive o = false) ->
  world_ok (mkWorld (mkRegistry (delete k (inner (reg w))) (next_token (reg w))) l' (guards w)).
Proof.
  intros Hw He Hlen Hother Hdead. split; simpl.
  - intros k' e' [Hne He']%lookup_delete_Some. destruct (ok_entry _ Hw _ _ He') as [Hg Ho].
    split; [done|]. rewrite Hother; [done|]. intros E. by apply Hne, (entry_chan_inj w k k' e e').
  - intros c o Hc Ha. destruct (decide (c = sender e)) as [->|Hne]; [by rewrite (Hdead _ Hc) in Ha|].
    rewrite Hother in Hc by done. destruct (ok_sender _ Hw _ _ Hc Ha) as (k' & e' & He' & Es).
    exists k', e'. split; [|done]. rewrite lookup_delete_ne; [done|]. intros ->. congruence.
  - rewrite Hlen. apply (ok_guard _ Hw).
  - apply (ok_unique _ Hw).
  - rewrite Hlen. apply (ok_next _ Hw).
Qed.

Lemma remove_entry_ok key w : world_ok w -> world_ok (remove_entry key w).
Proof.
  intros Hw. unfold remove_entry. destruct (inner (reg w) !! key) as [e|] eqn:He; [|done].
  apply (settle_ok w key e); [done|done|apply drop_sender_length|..].
  - intros i Hne. rewrite drop_sender_lookup, bool_decide_eq_false_2 by done. by destruct (chans w !! i).
  - intros o. rewrite drop_sender_lookup, bool_decide_eq_true_2 by done.
    intros (o' & _ & ->)%fmap_Some. done.
Qed.

Lemma resolve_ok key res w : world_ok w -> world_ok (fst (resolve key res w)).
Proof.
  intros Hw. unfold resolve. destruct (inner (reg w) !! key) as [e|] eqn:He; [|done].
  destruct (send (sender e) res (chans w)) as [l' b] eqn:Es. apply (f_equal fst) in Es; simpl in Es; subst l'.
  apply (settle_ok w key e); [done|done|apply send_length|..].
  - intros i Hne. rewrite send_lookup, bool_decide_eq_false_2 by done. by destruct (chans w !! i).
  - intros o. rewrite send_lookup, bool_decide_eq_true_2 by done.
    intros (o' & _ & ->)%fmap_Some. by destruct (listening o').
Qed.

Lemma cancel_keys_ok keys w count : world_ok w -> world_ok (fst (cancel_keys keys w count)).
Proof.
  revert w count. induction keys as [|k keys IH]; intros w count Hw; simpl; [done|].
  case_match; [|by apply IH]. apply IH, resolve_ok, Hw.
Qed.

Lemma drop_receiver_ok c w :
  world_ok w -> world_ok (mkWorld (reg w) (drop_receiver c (chans w)) (guards w)).
Proof.
  intros Hw.
  assert (forall i, exists f : Oneshot -> Oneshot, drop_receiver c (chans w) !! i = f <$> chans w !! i /\
            forall o, value (f o) = value o /\ sender_alive (f o) = sender_alive o) as Hf.
  { intros i. unfold drop_receiver. destruct (decide (i = c)) as [->|Hne].
    - eexists. split; [apply list_lookup_alter_eq|]. done.
    - exists id. split; [|done]. rewrite list_lookup_alter_ne by done. by destruct (chans w !! i). }
  split; simpl.
  - intros k e He. destruct (ok_entry _ Hw _ _ He) as (Hg & o & Ho & Ha & Hv). split; [done|].
    destruct (Hf (sender e)) as (f & -> & Hp). exists (f o). rewrite Ho. destruct (Hp o) as [-> ->]. done.
  - intros i o Hi Ha. destruct (Hf i) as (f & E & Hp). rewrite E in Hi.
    apply fmap_Some in Hi as (o' & Ho & ->). destruct (Hp o') as [_ Hal]. rewrite Hal in Ha.
    by apply (ok_sender _ Hw _ o').
  - unfold drop_receiver. rewrite length_alter. apply (ok_guard _ Hw).
  - apply (ok_unique _ Hw).
  - unfold drop_receiver. rewrite length_alter. apply (ok_next _ Hw).
Qed.

Lemma remove_entry_gone key w : inner (reg (remove_entry key w)) !! key = None.
Proof.
  unfold remove_entry. destruct (inner (reg w) !! key) eqn:E; [|done]. simpl. apply lookup_delete_eq.
Qed.
Lemma remove_entry_other key k w :
  k <> key -> inner (reg (remove_entry key w)) !! k = inner (reg w) !! k.
Proof.
  intros Hne. unfold remove_entry. destruct (inner (reg w) !! key) eqn:E; [|done].
  simpl. by rewrite lookup_delete_ne.
Qed.
Lemma remove_entry_frame key w :
  guards (remove_entry key w) = guards w /\ next_token (reg (remove_entry key w)) = next_token (reg w) /\
  length (chans (remove_entry key w)) = length (chans w).
Proof.
  unfold remove_entry. destruct (inner (reg w) !! key); simpl; [|done].
  by rewrite drop_sender_length.
Qed.

Lemma register_ok key view w : world_ok w -> world_ok (fst (register key view w)).
Proof.
  intros Hw. pose proof (remove_entry_ok key w Hw) as Hr.
  pose proof (remove_entry_gone key w) as Hgone. destruct (remove_entry_frame key w) as (Hg & Hn & Hl).
  unfold register. cbn [fst]. set (w0 := remove_entry key w) in *. rewrite <- Hl. split; simpl.
  - intros k e [[<- <-]|[Hne He]]%lookup_insert_Some.
    + split; [apply list_elem_of_here|]. eexists. split; [by rewrite lookup_app_r, Nat.sub_diag|]. done.
    + destruct (ok_entry _ Hr _ _ He) as (Hin & o & Ho & Hp). split; [rewrite <- Hg; set_solver|].
      exists o. split; [|done]. by apply lookup_app_l_Some.
  - intros c o [Hc|[Hc E]]%lookup_app_Some Ha.
    + destruct (ok_sender _ Hr _ _ Hc Ha) as (k & e & He & Es). exists k, e. split; [|done].
      rewrite lookup_insert_ne; [done|]. intros <-. congruence.
    + apply list_lookup_singleton_Some in E as [E _]. eexists key, _.
      split; [apply lookup_insert_eq|]. simpl. lia.
  - intros g [->|Hin]%elem_of_cons; simpl; rewrite length_app; simpl.
    + split; [lia|]. rewrite (ok_next _ Hw). by rewrite Hl.
    + rewrite <- Hg in Hin. destruct (ok_guard _ Hr g Hin). split; [lia|done].
  - assert (forall g, g ∈ guards w -> (g_chan g < length (chans w0))%nat) as Hlt.
    { intros g Hin. rewrite Hl. apply (ok_guard _ Hw g Hin). }
    intros g g' [->|Hin]%elem_of_cons [->|Hin']%elem_of_cons; simpl; intros E.
    + done.
    + specialize (Hlt _ Hin'). lia.
    + specialize (Hlt _ Hin). lia.
    + by apply (ok_unique _ Hw).
  - rewrite length_app, (ok_next _ Hw), <- Hl. simpl.
    rewrite Nat2Z.inj_add, Zplus_mod_idemp_l. done.
Qed.

Lemma reap_if_current_cases key t w :
  reap_if_current key t w = w \/
  reap_if_current key t w = remove_entry key w /\
    exists e, inner (reg w) !! key = Some e /\ token e = t.
Proof.
  unfold reap_if_current. destruct (inner (reg w) !! key) as [e|] eqn:E; [|by left].
  destruct (Z.eqb_spec (token e) t); [right|by left]. by eauto.
Qed.

(** Forgetting a guard is sound once no entry is registered with it. *)
Lemma forget_guard_ok w gs :
  world_ok w -> (forall g, g ∈ gs -> g ∈ guards w) ->
  (forall k e, inner (reg w) !! k = Some e -> mkGuard k (token e) (sender e) ∈ gs) ->
  world_ok (mkWorld (reg w) (chans w) gs).
Proof.
  intros Hw Hsub Hcov. split; simpl.
  - intros k e He. split; [by apply Hcov|]. apply (ok_entry _ Hw _ _ He).
  - apply (ok_sender _ Hw).
  - intros g Hg. apply (ok_guard _ Hw), Hsub, Hg.
  - intros g g' Hg Hg'. apply (ok_unique _ Hw); by apply Hsub.
  - apply (ok_next _ Hw).
Qed.

Lemma reap_if_current_frame key t w gs :
  reap_if_current key t (mkWorld (reg w) (chans w) gs) =
  mkWorld (reg (reap_if_current key t w)) (chans (reap_if_current key t w)) gs.
Proof.
  unfold reap_if_current, remove_entry. simpl.
  destruct (inner (reg w) !! key) as [e|]; [|done]. by destruct (token e =? t).
Qed.

Lemma reap_if_current_entries key t w k e :
  inner (reg (reap_if_current key t w)) !! k = Some e <->
  inner (reg w) !! k = Some e /\ ~ (k = key /\ token e = t).
Proof.
  unfold reap_if_current. destruct (inner (reg w) !! key) as [e'|] eqn:E; [|naive_solver].
  destruct (Z.eqb_spec (token e') t) as [Ht|Ht]; [|naive_solver].
  destruct (decide (k = key)) as [->|Hne]; [rewrite remove_entry_gone|rewrite remove_entry_other by done];
    naive_solver.
Qed.

Lemma reap_if_current_ok key t w : world_ok w -> world_ok (reap_if_current key t w).
Proof.
  intros Hw. destruct (reap_if_current_cases key t w) as [->|[-> _]]; [done|]. by apply remove_entry_ok.
Qed.

Lemma reap_if_current_guards key t w : guards (reap_if_current key t w) = guards w.
Proof.
  destruct (reap_if_current_cases key t w) as [->|[-> _]]; [done|]. apply remove_entry_frame.
Qed.

Lemma drop_guard_ok g w : world_ok w -> world_ok (drop_guard g w).
Proof.
  intros Hw. unfold drop_guard. case_bool_decide as Hg; [|done].
  rewrite reap_if_current_frame. apply forget_guard_ok; [by apply reap_if_current_ok|..].
  - intros g'. rewrite reap_if_current_guards, list_elem_of_filter. naive_solver.
  - intros k e [He Hn]%reap_if_current_entries. apply list_elem_of_filter.
    split; [|by apply (ok_entry _ Hw)]. intros <-. by apply Hn.
Qed.

Lemma step_ok w e : world_ok w -> world_ok (step w e).
Proof.
  intros Hw. destruct e; cbn [step].
  - by apply register_ok.
  - by apply resolve_ok.
  - by apply cancel_keys_ok.
  - by apply remove_entry_ok.
  - by apply drop_guard_ok.
  - by apply drop_receiver_ok.
Qed.

Lemma run_ok es : world_ok (run step new es).
Proof. apply run_invariant; [apply step_ok|apply new_ok]. Qed.

(** ** What happens to a channel

    A property of a channel that losing either half keeps, and that no channel
    waiting for its answer has, is kept by every event. *)
Definition settled (res : PermissionResolution) (o : Oneshot) : Oneshot :=
  if listening o then mkOneshot (Some res) false true else mkOneshot (value o) false (listening o).

Definition preserves (P : Oneshot -> Prop) (l l' : list Oneshot) : Prop :=
  forall c o, l !! c = Some o -> P o -> exists o', l' !! c = Some o' /\ P o'.

#[global] Instance preserves_preorder P : PreOrder (preserves P).
Proof.
  split; [by intros l c o Ho Hr; eauto|]. intros l1 l2 l3 H1 H2 c o Ho Hp.
  destruct (H1 c o Ho Hp) as (o' & Ho' & Hp'). by apply (H2 c o').
Qed.

Class Stable (P : Oneshot -> Prop) : Prop := {
  stable_sender : forall o, P o -> P (mkOneshot (value o) false (listening o));
  stable_receiver : forall o, P o -> P (mkOneshot (value o) (sender_alive o) false);
  stable_idle : forall o, P o -> value o = None -> sender_alive o = true -> False }.

Section Preservation.
Context (P : Oneshot -> Prop) `{!Stable P}.

Lemma preserves_fmap l l' :
  (forall i, exists f : Oneshot -> Oneshot, l' !! i = f <$> l !! i /\
     forall o, l !! i = Some o -> P o -> P (f o)) -> preserves P l l'.
Proof.
  intros H c o Ho Hp. destruct (H c) as (f & E & Hf). exists (f o). rewrite E, Ho. auto.
Qed.

Lemma preserves_drop_sender c l : preserves P l (drop_sender c l).
Proof.
  apply preserves_fmap. intros i. eexists. split; [apply drop_sender_lookup|].
  intros o _ Hp. simpl. case_bool_decide; [by apply stable_sender|done].
Qed.

Lemma preserves_drop_receiver c l : preserves P l (drop_receiver c l).
Proof.
  apply preserves_fmap. intros i. unfold drop_receiver. destruct (decide (i = c)) as [->|Hne].
  - eexists. split; [apply list_lookup_alter_eq|]. intros o _. apply stable_receiver.
  - exists id. split; [|done]. rewrite list_lookup_alter_ne by done. by destruct (l !! i).
Qed.

Lemma preserves_remove_entry key w : preserves P (chans w) (chans (remove_entry key w)).
Proof. unfold remove_entry. case_match; [apply preserves_drop_sender|done]. Qed.

Lemma preserves_resolve key res w : world_ok w -> preserves P (chans w) (chans (fst (resolve key res w))).
Proof.
  intros Hw. unfold resolve. destruct (inner (reg w) !! key) as [e|] eqn:He; [|done].
  destruct (ok_entry _ Hw _ _ He) as (_ & o & Ho & Ha & Hv).
  destruct (send (sender e) res (chans w)) as [l' b] eqn:Es. apply (f_equal fst) in Es; simpl in Es; subst l'.
  apply preserves_fmap. intros i. eexists. split; [apply send_lookup|].
  intros o' Ho' Hp. simpl. case_bool_decide; [|done]. subst i. rewrite Ho in Ho'. injection Ho' as <-.
  by destruct (stable_idle o).
Qed.

Lemma preserves_cancel_keys keys w count :
  world_ok w -> preserves P (chans w) (chans (fst (cancel_keys keys w count))).
Proof.
  revert w count. induction keys as [|k keys IH]; intros w count Hw; simpl; [done|].
  case_match; [|by apply IH]. etrans; [by apply (preserves_resolve k Cancelled)|]. by apply IH, resolve_ok.
Qed.

Lemma step_preserves w e : world_ok w -> preserves P (chans w) (chans (step w e)).
Proof.
  intros Hw. destruct e as [key view|key res|ctx|key|g|c]; simpl.
  - etrans; [apply (preserves_remove_entry key)|]. intros c o Ho Hp. exists o.
    split; [by apply lookup_app_l_Some|done].
  - by apply preserves_resolve.
  - by apply preserves_cancel_keys.
  - apply preserves_remove_entry.
  - unfold drop_guard. case_bool_decide; [|done]. rewrite reap_if_current_frame. simpl.
    destruct (reap_if_current_cases (g_key g) (g_token g) w) as [->|[-> _]]; [done|apply preserves_remove_entry].
  - apply preserves_drop_receiver.
Qed.

Lemma run_preserves w es : world_ok w -> preserves P (chans w) (chans (run step w es)).
Proof.
  revert w. induction es as [|e es IH]; intros w Hw; simpl; [done|].
  etrans; [by apply step_preserves|]. by apply IH, step_ok.
Qed.
End Preservation.

(** An answer is final, and so is the loss of the sender. *)
#[global] Instance stable_value r : Stable (fun o => value o = Some r).
Proof. split; simpl; congruence. Qed.
#[global] Instance stable_dead : Stable (fun o => sender_alive o = false).
Proof. split; simpl; congruence. Qed.

Definition keeps (l l' : list Oneshot) : Prop := forall r, preserves (fun o => value o = Some r) l l'.

(** ** What cancelling a context does *)
Lemma resolve_effect key res w e :
  inner (reg w) !! key = Some e ->
  inner (reg (fst (resolve key res w))) = delete key (inner (reg w)) /\
  (forall i, chans (fst (resolve key res w)) !! i =
     (fun o => if bool_decide (i = sender e) then settled res o else o) <$> chans w !! i) /\
  guards (fst (resolve key res w)) = guards w.
Proof.
  intros He. unfold resolve. rewrite He. pose proof (fun i => send_lookup (sender e) res (chans w) i) as Hs.
  by destruct (send (sender e) res (chans w)) as [l' b].
Qed.

Record cancel_effect (keys : list PermKey) (w w' : World) : Prop := {
  ce_inner : forall k, inner (reg w') !! k = if bool_decide (k ∈ keys) then None else inner (reg w) !! k;
  ce_answered : forall k e, k ∈ keys -> inner (reg w) !! k = Some e ->
    chans w' !! sender e = settled Cancelled <$> chans w !! sender e;
  ce_other : forall i, (forall k e, k ∈ keys -> inner (reg w) !! k = Some e -> sender e <> i) ->
    chans w' !! i = chans w !! i;
  ce_guards : guards w' = guards w }.

Lemma resolve_cancel_effect w k e :
  world_ok w -> inner (reg w) !! k = Some e -> cancel_effect [k] w (fst (resolve k Cancelled w)).
Proof.
  intros Hw He. destruct (resolve_effect k Cancelled w e He) as (Hi & Hc & Hg). split; [..|done].
  - intros k'. rewrite Hi. destruct (decide (k' = k)) as [->|Hne].
    + rewrite bool_decide_eq_true_2 by set_solver. apply lookup_delete_eq.
    + rewrite bool_decide_eq_false_2 by set_solver. by apply lookup_delete_ne.
  - intros k' e' ->%list_elem_of_singleton He'. simplify_eq. by rewrite Hc, bool_decide_eq_true_2.
  - intros i Hn. rewrite Hc, bool_decide_eq_false_2; [by destruct (chans w !! i)|].
    intros ->. apply (Hn k e); [set_solver|done|done].
Qed.

Lemma cancel_effect_cons k keys w w1 w2 :
  world_ok w -> cancel_effect [k] w w1 -> cancel_effect keys w1 w2 -> cancel_effect (k :: keys) w w2.
Proof.
  intros Hw [Hi1 Ha1 Ho1 Hg1] [Hi2 Ha2 Ho2 Hg2]. split; [..|by rewrite Hg2].
  - intros k'. rewrite Hi2, Hi1. repeat case_bool_decide; set_solver.
  - intros k' e' Hin He'. destruct (decide (k' = k)) as [->|Hne].
    + rewrite Ho2; [apply (Ha1 k); [set_solver|done]|].
      intros k2 e2 _. rewrite Hi1. case_bool_decide as Hk; [done|]. intros He2 Es.
      apply Hk. rewrite (entry_chan_inj w k2 k e2 e'); [set_solver|done..].
    + assert (inner (reg w1) !! k' = Some e') as He1.
      { rewrite Hi1, bool_decide_eq_false_2; [done|set_solver]. }
      rewrite (Ha2 k' e'); [|set_solver|done]. f_equal. apply Ho1.
      intros k2 e2 ->%list_elem_of_singleton He2 Es. by apply Hne, (entry_chan_inj w k' k e' e2).
  - intros i Hn. rewrite Ho2, Ho1; [done|..].
    + intros k2 e2 ->%list_elem_of_singleton. apply Hn. set_solver.
    + intros k2 e2 Hin. rewrite Hi1. case_bool_decide; [done|]. apply Hn. set_solver.
Qed.

Lemma cancel_keys_effect keys w count :
  world_ok w -> cancel_effect keys w (fst (cancel_keys keys w count)).
Proof.
  revert w count. induction keys as [|k keys IH]; intros w count Hw; simpl.
  { split; [|set_solver|done|done]. done. }
  destruct (inner (reg w) !! k) as [e|] eqn:He.
  - eapply cancel_effect_cons; [done|by eapply resolve_cancel_effect|]. by apply IH, resolve_ok.
  - eapply cancel_effect_cons; [done| |by apply IH].
    split; [|set_solver|done|done]. intros k'. case_bool_decide; [|done]. set_solver.
Qed.

Lemma cancel_keys_count keys w count :
  NoDup keys -> world_ok w -> (forall k, k ∈ keys -> is_Some (inner (reg w) !! k)) ->
  snd (cancel_keys keys w count) = count + Z.of_nat (length keys).
Proof.
  intros Hn. revert w count. induction Hn as [|k keys Hk Hn IH]; intros w count Hw Hp; simpl; [lia|].
  destruct (Hp k) as [e He]; [set_solver|]. rewrite He, IH; [lia|by apply resolve_ok|].
  intros k' Hk'. destruct (resolve_effect k Cancelled w e He) as (-> & _). rewrite lookup_delete_ne; [apply Hp|]; set_solver.
Qed.

Lemma context_keys_spec ctx w k :
  k ∈ context_keys ctx w <-> context_id k = ctx /\ is_Some (inner (reg w) !! k).
Proof.
  unfold context_keys. rewrite list_elem_of_filter, list_elem_of_fmap. split; (intros [Hc H]; split; [done|]).
  - destruct H as ([k' e] & -> & Hin%elem_of_map_to_list). by exists e.
  - destruct H as [e He]. exists (k, e). split; [done|]. by apply elem_of_map_to_list.
Qed.

Lemma context_keys_nodup ctx w : NoDup (context_keys ctx w).
Proof. apply NoDup_filter, NoDup_fst_map_to_list. Qed.

(** ** Theorems *)
(** An operator's decision reaches exactly the requester that is waiting
    under the key, at most once. In every reachable state [resolve] succeeds iff
    the key is pending and its requester still listens; it then gives that
    requester, who had no answer, the decision, and nobody else's channel
    changes; the key is no longer pending either way; and no later event
    changes an answer once given. *)
Theorem permission_exact_once es key res :
  let w := run step new es in
  let '(w', ok) := resolve key res w in
  (ok = true <-> exists e o, inner (reg w) !! key = Some e /\ chans w !! sender e = Some o /\ listening o = true) /\
  (forall e, inner (reg w) !! key = Some e ->
     value <$> chans w !! sender e = Some None /\
     chans w' !! sender e = settled res <$> chans w !! sender e) /\
  (forall i, (forall e, inner (reg w) !! key = Some e -> sender e <> i) -> chans w' !! i = chans w !! i) /\
  inner (reg w') = delete key (inner (reg w)) /\
  (forall es', keeps (chans w') (chans (run step w' es'))).
Proof.
  cbn zeta. pose proof (run_ok es) as Hw. set (w := run step new es) in *.
  pose proof (resolve_ok key res w Hw) as Hw'. destruct (inner (reg w) !! key) as [e|] eqn:He.
  2:{ unfold resolve in *. rewrite He in *. split; [naive_solver|]. split; [done|]. split; [done|].
      split; [by rewrite delete_id|]. intros es' r. by apply run_preserves; [apply _|]. }
  destruct (resolve_effect key res w e He) as (Hi & Hc & _).
  destruct (ok_entry _ Hw _ _ He) as (_ & o & Ho & _ & Hv).
  destruct (resolve key res w) as [w' ok] eqn:Er. simpl in *. split_and!.
  - unfold resolve, send in Er. rewrite He, Ho in Er. destruct (listening o) eqn:El; simplify_eq; naive_solver.
  - intros e' [= <-]. rewrite Hc, Ho. simpl. by rewrite Hv, bool_decide_eq_true_2.
  - intros i Hn. rewrite Hc, bool_decide_eq_false_2; [by destruct (chans w !! i)|]. intros ->. by apply (Hn e).
  - done.
  - intros es' r. by apply run_preserves; [apply _|].
Qed.

(** A guard settles its own registration and nothing else: while fewer than
    [2^64] permissions were ever registered, dropping a live guard removes the
    key's entry iff that entry is the one registered with the guard (a later
    registration under the same key survives), and leaves every other key
    alone; and a registry without live guards is empty, so no exit of a
    requester leaks an entry. *)
Theorem permission_guard_precise es g :
  let w := run step new es in
  Z.of_nat (length (chans w)) <= u64_max + 1 -> g ∈ guards w ->
  (forall k e, inner (reg (drop_guard g w)) !! k = Some e <->
     inner (reg w) !! k = Some e /\ sender e <> g_chan g) /\
  (guards w = [g] -> inner (reg (drop_guard g w)) = ∅).
Proof.
  cbn zeta. pose proof (run_ok es) as Hw. set (w := run step new es) in *. intros Hlen Hg.
  assert (forall k e, inner (reg (drop_guard g w)) !! k = Some e <->
     inner (reg w) !! k = Some e /\ sender e <> g_chan g) as Hspec.
  { intros k e. unfold drop_guard. rewrite bool_decide_eq_true_2, reap_if_current_frame by done. simpl.
    rewrite reap_if_current_entries. split; intros [He Hn]; (split; [done|]); intros E; apply Hn.
    - destruct (ok_entry _ Hw _ _ He) as [Hin _]. by rewrite <- (ok_unique _ Hw _ _ Hin Hg E).
    - destruct (ok_entry _ Hw _ _ He) as [Hin _]. destruct (ok_guard _ Hw _ Hin) as [Hl Ht].
      destruct (ok_guard _ Hw _ Hg) as [Hl' Ht']. destruct E as [_ E]. simpl in *.
      rewrite Ht, Ht', !Z.mod_small in E by lia. lia. }
  split; [done|]. intros Hone. apply map_eq. intros k. rewrite lookup_empty.
  destruct (inner (reg (drop_guard g w)) !! k) as [e|] eqn:He; [|done].
  apply Hspec in He as [He Hn]. destruct (ok_entry _ Hw _ _ He) as [Hin _].
  rewrite Hone in Hin. apply list_elem_of_singleton in Hin as <-. done.
Qed.

(** Cancelling a context answers [Cancelled] to every requester of that
    context that still listens, removes exactly its entries and returns their
    number; requesters of other contexts keep waiting undisturbed. *)
Theorem permission_context_cancelled es ctx :
  let w := run step new es in
  let '(w', count) := resolve_context_cancelled ctx w in
  count = Z.of_nat (length (pending ctx w)) /\
  (forall k, context_id k = ctx -> inner (reg w') !! k = None) /\
  (forall k e, inner (reg w) !! k = Some e ->
     if bool_decide (context_id k = ctx)
     then chans w' !! sender e = settled Cancelled <$> chans w !! sender e
     else inner (reg w') !! k = Some e /\ chans w' !! sender e = chans w !! sender e).
Proof.
  cbn zeta. pose proof (run_ok es) as Hw. set (w := run step new es) in *. unfold resolve_context_cancelled.
  pose proof (cancel_keys_effect (context_keys ctx w) w 0 Hw) as [Hi Ha Ho _].
  pose proof (cancel_keys_count (context_keys ctx w) w 0 (context_keys_nodup ctx w) Hw) as Hn.
  destruct (cancel_keys _ w 0) as [w' count]. simpl in *. split_and!.
  - rewrite Hn by (intros k ?%context_keys_spec; naive_solver).
    unfold pending, context_keys. rewrite length_fmap. f_equal.
    induction (map_to_list (inner (reg w))) as [|[k e] l IH]; [done|].
    rewrite fmap_cons, !filter_cons. simpl. case_decide; simpl; lia.
  - intros k Hk. rewrite Hi. case_bool_decide as Hin; [done|]. rewrite context_keys_spec in Hin.
    destruct (inner (reg w) !! k); [|done]. destruct Hin. by eauto.
  - intros k e He. case_bool_decide as Hk; [apply (Ha k); [apply context_keys_spec; by eauto|done]|].
    rewrite Hi, bool_decide_eq_false_2 by (rewrite context_keys_spec; naive_solver). split; [done|].
    apply Ho. intros k' e' [Hk' _]%context_keys_spec He' Es.
    by rewrite (entry_chan_inj w k k' e e') in Hk by done.
Qed.

(** ** Witnesses *)
Definition wit_key : PermKey := mkPermKey "ctx" 1 "op" "call-1".
Definition wit_view : PendingPermissionView := mkPendingView "call-1" "call-1" 1 "op" "write" [] None 1000.
Definition wit_run : list Event := [Register wit_key wit_view; Register wit_key wit_view].

(** The guard of the first registration is stale after the second. *)
Example permission_guard_precise_witness :
  let w := run step new wit_run in
  let stale := mkGuard wit_key 0 0 in
  is_Some (inner (reg (drop_guard stale w)) !! wit_key) /\ stale ∈ guards w.
Proof.
  cbn zeta. assert (mkGuard wit_key 0 0 ∈ guards (run step new wit_run)) as Hg by (vm_compute; set_solver).
  split; [|exact Hg]. exists (mkPending 1 wit_view 1).
  apply (permission_guard_precise wit_run (mkGuard wit_key 0 0)); [by vm_compute|exact Hg|].
  split; [by vm_compute|done].
Defined.
