(* ===== verification/PermissionFlow.v ===== *)
(** * Answering an agent's permission request

    The handler of the reverse [session/request_permission]
    ([bridge-acp/src/acp_backend.rs], [resolve_permission_outcome] and the
    outcome mapping below it), the cancellation of a turn that races it
    ([cancel_entry]), and the operator's decision
    ([bridge-coordinator/src/coordinator.rs], [apply_permit]), over the registry
    of [Permission]. A handler or a canceller is a small program; the system
    interleaves their steps with everything else that may touch the registry. *)
From S2P Require Import Prelude Domain Permission.
Open Scope Z_scope.
Open Scope bridge_scope.

(** ** Outcomes *)
(** The kinds of the protocol crate that the code names; any other is [OtherKind]. *)
Inductive PermissionOptionKind := AllowOnce | AllowAlways | RejectOnce | RejectAlways | OtherKind.
#[global] Instance permission_option_kind_eq_dec : EqDecision PermissionOptionKind.
Proof. solve_decision. Defined.

Record PermissionOption := mkOption { option_id : string; kind : PermissionOptionKind }.
Inductive RequestPermissionOutcome :=
| Selected (option_id : string)
| OutcomeCancelled.

Definition find_option (p : PermissionOption -> bool) (options : list PermissionOption)
    : option RequestPermissionOutcome :=
  (fun o => Selected (option_id o)) <$> List.find p options.

Fixpoint select_permission_option (options : list PermissionOption) (kinds : list PermissionOptionKind)
    : option RequestPermissionOutcome :=
  match kinds with
  | [] => None
  | k :: kinds' =>
      match find_option (fun o => bool_decide (kind o = k)) options with
      | Some out => Some out
      | None => select_permission_option options kinds'
      end
  end.

Definition select_permission_option_id (options : list PermissionOption) (id : string)
    : option RequestPermissionOutcome :=
  find_option (fun o => String.eqb (option_id o) id) options.

Definition select_permission_option_id_kind (options : list PermissionOption) (id : string)
    (kinds : list PermissionOptionKind) : option RequestPermissionOutcome :=
  find_option (fun o => String.eqb (option_id o) id && bool_decide (kind o ∈ kinds)) options.

Definition allow_kinds : list PermissionOptionKind := [AllowOnce; AllowAlways].
Definition reject_kinds : list PermissionOptionKind := [RejectOnce; RejectAlways].

Definition deny_outcome (options : list PermissionOption) : RequestPermissionOutcome :=
  default OutcomeCancelled (select_permission_option options reject_kinds).

Definition map_verdict_to_outcome (verdict : result PermissionDecision BridgeError)
    (options : list PermissionOption) : RequestPermissionOutcome :=
  match verdict with
  | Ok PdApprove => default OutcomeCancelled (select_permission_option options allow_kinds)
  | Err PermissionDenied => deny_outcome options
  | Err _ => OutcomeCancelled
  end.

Definition map_permit_to_outcome (decision : PermitDecision) (options : list PermissionOption)
    : RequestPermissionOutcome :=
  match decision with
  | Approve id =>
      match id ≫= fun id => select_permission_option_id_kind options id allow_kinds with
      | Some out => out
      | None => default OutcomeCancelled (select_permission_option options allow_kinds)
      end
  | Deny id _ =>
      match id ≫= fun id => select_permission_option_id_kind options id reject_kinds with
      | Some out => out
      | None => deny_outcome options
      end
  | Modify id _ => default OutcomeCancelled (select_permission_option_id options id)
  | Escalate _ => deny_outcome options
  end.

Definition resolution_outcome (res : PermissionResolution) (options : list PermissionOption)
    : RequestPermissionOutcome :=
  match res with
  | Decided d => map_permit_to_outcome d options
  | Cancelled => OutcomeCancelled
  end.

(** ** The handler *)
Record Request := mkRequest { rq_key : PermKey; rq_view : PendingPermissionView; rq_options : list PermissionOption }.

Inductive Pc :=
| PcCheck (r : Request)
| PcRegister (r : Request)
| PcRecheck (r : Request) (rx : nat) (guard : PermitGuard)
| PcAwait (r : Request) (rx : nat) (guard : PermitGuard)
| PcReturn (out : RequestPermissionOutcome) (guard : PermitGuard)
| PcDone (out : RequestPermissionOutcome).

(** [resolve_permission_outcome] up to the first suspension. [policy] is [None]
    when the policy lock is poisoned. *)
Definition begin_request (policy : option PolicyOutcome) (registry_and_turn : bool) (r : Request) : Pc :=
  match policy with
  | None => PcDone OutcomeCancelled
  | Some (Decide verdict) => PcDone (map_verdict_to_outcome verdict (rq_options r))
  | Some Defer => if registry_and_turn then PcCheck r else PcDone (deny_outcome (rq_options r))
  end.

Definition timeout_resolution : PermissionResolution := Decided (Deny None (Some "timeout"%string)).

(** The biased [select!]: the receiver first ([RecvError] reads as [Cancelled]),
    then the timer. *)
Definition poll_await (w : World) (rx : nat) (timed_out : bool) : option PermissionResolution :=
  match chans w !! rx with
  | Some o =>
      match value o with
      | Some res => Some res
      | None =>
          if negb (sender_alive o) then Some Cancelled
          else if timed_out then Some timeout_resolution else None
      end
  | None => None
  end.

(** One step of a handler; [timed_out] says whether its timer has fired. *)
Definition handler_step (cancelled timed_out : bool) (w : World) (pc : Pc) : World * Pc :=
  match pc with
  | PcCheck r => (w, if cancelled then PcDone OutcomeCancelled else PcRegister r)
  | PcRegister r =>
      let '(w', (rx, guard)) := register (rq_key r) (rq_view r) w in (w', PcRecheck r rx guard)
  | PcRecheck r rx guard =>
      (if cancelled then fst (resolve (rq_key r) Cancelled w) else w, PcAwait r rx guard)
  | PcAwait r rx guard =>
      match poll_await w rx timed_out with
      | Some res =>
          (mkWorld (reg w) (drop_receiver rx (chans w)) (guards w),
           PcReturn (resolution_outcome res (rq_options r)) guard)
      | None => (w, pc)
      end
  | PcReturn out guard => (drop_guard guard w, PcDone out)
  | PcDone _ => (w, pc)
  end.

(** ** Cancelling the turn: [route.cancelled.store(true)], then the registry *)
Inductive CancelPc := CpStore | CpResolve | CpDone.
Definition cancel_step (ctx : string) (cancelled : bool) (w : World) (pc : CancelPc)
    : bool * World * CancelPc :=
  match pc with
  | CpStore => (true, w, CpResolve)
  | CpResolve => (cancelled, fst (resolve_context_cancelled ctx w), CpDone)
  | CpDone => (cancelled, w, CpDone)
  end.

(** ** The operator ([apply_permit]) *)
Record PermitParams := mkPermitParams { pp_key : PermKey; pp_decision : PermitDecision }.
Definition apply_permit (p : PermitParams) (w : World) : World * bool :=
  match pp_decision p with
  | Escalate _ => (w, false)
  | d => resolve (pp_key p) (Decided d) w
  end.

(** ** The system of one turn *)
Record Sys := mkSys {
  world : World;
  cancelled : bool;
  handlers : list Pc;
  cancellers : list CancelPc }.

Definition guard_of (pc : Pc) : option PermitGuard :=
  match pc with
  | PcRecheck _ _ g | PcAwait _ _ g | PcReturn _ g => Some g
  | _ => None
  end.
Definition held (g : PermitGuard) (hs : list Pc) : bool :=
  bool_decide (Exists (fun pc => guard_of pc = Some g) hs).
Definition held_rx (c : nat) (hs : list Pc) : bool :=
  bool_decide (Exists (fun pc => g_chan <$> guard_of pc = Some c) hs).

(** Anything else may use the registry, but guards and receivers of the turn's
    handlers are their own. *)
Definition foreign (e : Event) (hs : list Pc) : bool :=
  match e with
  | DropGuard g => negb (held g hs)
  | DropReceiver c => negb (held_rx c hs)
  | _ => true
  end.

Inductive TurnEvent :=
| Ask (policy : option PolicyOutcome) (registry_and_turn : bool) (r : Request)
| HandlerStep (i : nat) (timed_out : bool)
| CancelTurn
| CancelStep (j : nat)
| Permit (p : PermitParams)
| Foreign (e : Event).

Definition turn_step (ctx : string) (s : Sys) (e : TurnEvent) : Sys :=
  match e with
  | Ask policy rt r =>
      if String.eqb (context_id (rq_key r)) ctx
      then mkSys (world s) (cancelled s) (handlers s ++ [begin_request policy rt r]) (cancellers s) else s
  | HandlerStep i timed_out =>
      match handlers s !! i with
      | Some pc =>
          let '(w', pc') := handler_step (cancelled s) timed_out (world s) pc in
          mkSys w' (cancelled s) (<[i := pc']> (handlers s)) (cancellers s)
      | None => s
      end
  | CancelTurn => mkSys (world s) (cancelled s) (handlers s) (cancellers s ++ [CpStore])
  | CancelStep j =>
      match cancellers s !! j with
      | Some pc =>
          let '(c', w', pc') := cancel_step ctx (cancelled s) (world s) pc in
          mkSys w' c' (handlers s) (<[j := pc']> (cancellers s))
      | None => s
      end
  | Permit p => mkSys (fst (apply_permit p (world s))) (cancelled s) (handlers s) (cancellers s)
  | Foreign e =>
      if foreign e (handlers s)
      then mkSys (step (world s) e) (cancelled s) (handlers s) (cancellers s) else s
  end.

(** A turn starts on any reachable registry. *)
Definition turn_start (es : list Event) : Sys := mkSys (run step new es) false [] [].

(** ** Invariant of a turn *)
Definition dead (c : nat) (w : World) : Prop := exists o, chans w !! c = Some o /\ sender_alive o = false.

Definition pc_ok (ctx : string) (w : World) (pc : Pc) : Prop :=
  match pc with
  | PcCheck r | PcRegister r => context_id (rq_key r) = ctx
  | PcRecheck r rx g | PcAwait r rx g =>
      context_id (rq_key r) = ctx /\ g ∈ guards w /\ g_key g = rq_key r /\ g_chan g = rx
  | PcReturn _ g => g ∈ guards w
  | PcDone _ => True
  end.

(** While a turn is cancelled and no cancellation still has to visit the
    registry, every parked handler has lost its sender, so its next poll
    returns. *)
Record turn_ok (ctx : string) (s : Sys) : Prop := {
  to_world : world_ok (world s);
  to_pc : forall i pc, handlers s !! i = Some pc -> pc_ok ctx (world s) pc;
  to_distinct : forall i j p q g, handlers s !! i = Some p -> handlers s !! j = Some q ->
    guard_of p = Some g -> guard_of q = Some g -> i = j;
  to_cancel : cancelled s = true -> Forall (fun pc => pc <> CpResolve) (cancellers s) ->
    forall i r rx g, handlers s !! i = Some (PcAwait r rx g) -> dead rx (world s) }.

Lemma pc_ok_mono ctx w w' pc :
  (forall g, guard_of pc = Some g -> g ∈ guards w -> g ∈ guards w') -> pc_ok ctx w pc -> pc_ok ctx w' pc.
Proof. destruct pc; simpl; naive_solver. Qed.

Lemma pc_guard ctx w pc g : pc_ok ctx w pc -> guard_of pc = Some g -> g ∈ guards w.
Proof. destruct pc; simpl; naive_solver. Qed.

Lemma world_change ctx s w' :
  turn_ok ctx s -> world_ok w' -> preserves (fun o => sender_alive o = false) (chans (world s)) (chans w') ->
  (forall i pc g, handlers s !! i = Some pc -> guard_of pc = Some g -> g ∈ guards (world s) -> g ∈ guards w') ->
  turn_ok ctx (mkSys w' (cancelled s) (handlers s) (cancellers s)).
Proof.
  intros [Hw Hp Hd Hc] Hw' Hdead Hg. split; simpl; [done|..|done|].
  - intros i pc Hi. apply (pc_ok_mono ctx (world s)); [by eauto|by eauto].
  - intros H1 H2 i r rx g Hi. destruct (Hc H1 H2 i r rx g Hi) as (o & Ho & Ha). by apply (Hdead rx o).
Qed.

Lemma handler_change ctx s i pc pc' :
  turn_ok ctx s -> handlers s !! i = Some pc -> pc_ok ctx (world s) pc' ->
  (forall g j q, guard_of pc' = Some g -> handlers s !! j = Some q -> guard_of q = Some g -> j = i) ->
  (forall r rx g, pc' = PcAwait r rx g -> cancelled s = true ->
     Forall (fun pc => pc <> CpResolve) (cancellers s) -> dead rx (world s)) ->
  turn_ok ctx (mkSys (world s) (cancelled s) (<[i := pc']> (handlers s)) (cancellers s)).
Proof.
  intros [Hw Hp Hd Hc] Hi Hok Hu Ha. split; simpl; [done|..].
  - intros j q [(<- & <- & _)|[Hne Hj]]%list_lookup_insert_Some; [done|by eauto].
  - intros j k p q g [(<- & <- & _)|[Hne Hj]]%list_lookup_insert_Some [(<- & <- & _)|[Hne' Hk]]%list_lookup_insert_Some Hg Hg'.
    + done.
    + symmetry. by eapply Hu.
    + by eapply Hu.
    + by eapply Hd.
  - intros H1 H2 j r rx g [(<- & E & _)|[Hne Hj]]%list_lookup_insert_Some; [by eapply Ha|by eapply Hc].
Qed.

Lemma step_guards w e g :
  e <> DropGuard g -> g ∈ guards w -> g ∈ guards (step w e).
Proof.
  intros Hne Hg. destruct e as [key view|key res|ctx|key|g'|c]; simpl; [set_solver|..|done].
  - unfold resolve. case_match; [|done]. by destruct (send _ _ _).
  - unfold resolve_context_cancelled. generalize (context_keys ctx w) as keys, 0. intros keys. revert w Hg.
    induction keys as [|k keys IH]; intros w Hg n; simpl; [done|]. case_match; [|by apply IH].
    apply IH. unfold resolve. case_match; [|done]. by destruct (send _ _ _).
  - unfold reap. by rewrite (proj1 (remove_entry_frame key w)).
  - unfold drop_guard. case_bool_decide; [|done]. rewrite reap_if_current_guards. simpl.
    apply list_elem_of_filter. split; [congruence|done].
Qed.

(** A registry event that leaves the handlers' guards alone. *)
Lemma registry_change ctx s e :
  turn_ok ctx s -> (forall i pc g, handlers s !! i = Some pc -> guard_of pc = Some g -> e <> DropGuard g) ->
  turn_ok ctx (mkSys (step (world s) e) (cancelled s) (handlers s) (cancellers s)).
Proof.
  intros Hs Hg. pose proof (to_world _ _ Hs) as Hw. apply world_change; [done|by apply step_ok|by apply step_preserves; [apply _|]|].
  intros i pc g Hi Hpc. apply step_guards. by eapply Hg.
Qed.

(** A live sender sits in the registry under the key of its guard. *)
Lemma alive_entry w g o :
  world_ok w -> g ∈ guards w -> chans w !! g_chan g = Some o -> sender_alive o = true ->
  exists e, inner (reg w) !! g_key g = Some e /\ sender e = g_chan g.
Proof.
  intros Hw Hg Ho Ha. destruct (ok_sender _ Hw _ _ Ho Ha) as (k & e & He & Es).
  destruct (ok_entry _ Hw _ _ He) as [Hin _]. pose proof (ok_unique _ Hw _ _ Hin Hg Es) as <-. by exists e.
Qed.

Lemma guard_chan w g : world_ok w -> g ∈ guards w -> is_Some (chans w !! g_chan g).
Proof. intros Hw Hg. apply lookup_lt_is_Some, (ok_guard _ Hw g Hg). Qed.

Lemma resolve_kills w g :
  world_ok w -> g ∈ guards w -> dead (g_chan g) (fst (resolve (g_key g) Cancelled w)).
Proof.
  intros Hw Hg. destruct (guard_chan w g Hw Hg) as [o Ho].
  destruct (sender_alive o) eqn:Ha; [|by apply (preserves_resolve (fun o => sender_alive o = false) (g_key g) Cancelled w Hw _ o)].
  destruct (alive_entry w g o Hw Hg Ho Ha) as (e & He & Es).
  destruct (resolve_effect _ Cancelled w e He) as (_ & Hc & _). exists (settled Cancelled o).
  rewrite Hc, Es, Ho. simpl. rewrite bool_decide_eq_true_2 by done. split; [done|].
  unfold settled. by destruct (listening o).
Qed.

Lemma cancel_context_kills ctx w g :
  world_ok w -> g ∈ guards w -> context_id (g_key g) = ctx ->
  dead (g_chan g) (fst (resolve_context_cancelled ctx w)).
Proof.
  intros Hw Hg Hk. destruct (guard_chan w g Hw Hg) as [o Ho].
  destruct (sender_alive o) eqn:Ha; [|by apply (preserves_cancel_keys (fun o => sender_alive o = false) (context_keys ctx w) w 0 Hw _ o)].
  destruct (alive_entry w g o Hw Hg Ho Ha) as (e & He & Es). exists (settled Cancelled o).
  unfold resolve_context_cancelled. rewrite <- Es.
  rewrite (ce_answered _ _ _ (cancel_keys_effect (context_keys ctx w) w 0 Hw) (g_key g) e); [|apply context_keys_spec; by eauto|done].
  rewrite Es, Ho. split; [done|]. unfold settled. by destruct (listening o).
Qed.

Lemma handler_step_ok ctx s i timed_out pc :
  turn_ok ctx s -> handlers s !! i = Some pc ->
  turn_ok ctx (turn_step ctx s (HandlerStep i timed_out)).
Proof.
  intros Hs Hi. cbn [turn_step]. rewrite Hi. pose proof (to_pc _ _ Hs _ _ Hi) as Hpc.
  pose proof (to_world _ _ Hs) as Hw.
  destruct pc as [r|r|r rx g|r rx g|out g|out]; simpl in Hpc; cbn [handler_step].
  - apply (handler_change ctx s i (PcCheck r)); [done|done|by destruct (cancelled s)|..].
    + by intros g j q; destruct (cancelled s).
    + by intros r' rx g; destruct (cancelled s).
  - apply (handler_change ctx (mkSys (step (world s) (Register (rq_key r) (rq_view r))) _ _ _) i (PcRegister r));
      [by apply registry_change|done|..]; simpl.
    + split; [done|]. split; [apply list_elem_of_here|done].
    + intros g j q [= <-] Hj Hq. pose proof (pc_guard _ _ _ _ (to_pc _ _ Hs _ _ Hj) Hq) as Hin.
      destruct (ok_guard _ Hw _ Hin) as [Hl _]. simpl in Hl. lia.
    + done.
  - destruct Hpc as (Hctx & Hg & Hk & <-).
    assert (turn_ok ctx (mkSys (if cancelled s then fst (resolve (rq_key r) Cancelled (world s)) else world s)
              (cancelled s) (handlers s) (cancellers s))) as Hs'.
    { destruct (cancelled s) eqn:Ec; [|by destruct s; simpl in *; subst]. rewrite <- Ec.
      by apply (registry_change ctx s (Resolve (rq_key r) Cancelled)). }
    apply (handler_change ctx (mkSys _ _ _ _) i _ _ Hs' Hi).
    + apply (to_pc _ _ Hs' _ _ Hi).
    + intros g' j q [= <-] Hj Hq. by apply (to_distinct _ _ Hs _ _ _ _ g Hj Hi).
    + intros r' rx g' [= <- <- <-] Ec _. simpl in *. rewrite Ec, <- Hk. by apply resolve_kills.
  - destruct (poll_await (world s) rx timed_out) as [res|].
    2:{ rewrite list_insert_id by done. by destruct s. }
    apply (handler_change ctx (mkSys (step (world s) (DropReceiver rx)) _ _ _) i (PcAwait r rx g));
      [by apply registry_change|done|simpl; tauto| |done].
    intros g' j q [= <-] Hj Hq. by apply (to_distinct _ _ Hs _ _ _ _ g Hj Hi).
  - assert (turn_ok ctx (mkSys (world s) (cancelled s) (<[i := PcDone out]> (handlers s)) (cancellers s))) as Hs'.
    { by apply (handler_change ctx s i (PcReturn out g)). }
    apply (registry_change ctx _ (DropGuard g) Hs'). simpl.
    intros j q g' [(<- & <- & _)|[Hne Hj]]%list_lookup_insert_Some Hq; [done|]. intros [= <-].
    by apply Hne, (to_distinct _ _ Hs _ _ _ _ g Hi Hj).
  - rewrite list_insert_id by done. by destruct s.
Qed.

Lemma cancel_step_ok ctx s j :
  turn_ok ctx s -> turn_ok ctx (turn_step ctx s (CancelStep j)).
Proof.
  intros Hs. cbn [turn_step]. destruct (cancellers s !! j) as [pc|] eqn:Hj; [|done].
  pose proof (lookup_lt_Some _ _ _ Hj) as Hl.
  destruct pc; cbn [cancel_step].
  - destruct Hs as [Hw Hp Hd Hc]. split; simpl; [done..|]. intros _ Hf. rewrite Forall_lookup in Hf.
    by destruct (Hf j CpResolve (list_lookup_insert_eq _ _ _ Hl)).
  - pose proof (to_world _ _ Hs) as Hw.
    pose proof (registry_change ctx s (CancelContext ctx) Hs ltac:(done)) as [Hw' Hp' Hd' _].
    split; simpl; [done..|]. intros _ _ i r rx g Hi. destruct (to_pc _ _ Hs _ _ Hi) as (Hctx & Hg & Hk & <-).
    apply cancel_context_kills; [done|done|by rewrite Hk].
  - rewrite list_insert_id by done. by destruct s.
Qed.

Lemma foreign_ok ctx s e :
  turn_ok ctx s -> foreign e (handlers s) = true ->
  turn_ok ctx (mkSys (step (world s) e) (cancelled s) (handlers s) (cancellers s)).
Proof.
  intros Hs Hf. apply registry_change; [done|]. intros i pc g Hi Hg ->. simpl in Hf. unfold held in Hf.
  apply negb_true_iff, bool_decide_eq_false in Hf. apply Hf, Exists_exists. exists pc.
  split; [by eapply list_elem_of_lookup_2|done].
Qed.

Lemma ask_ok ctx s policy rt r :
  turn_ok ctx s -> turn_ok ctx (turn_step ctx s (Ask policy rt r)).
Proof.
  intros Hs. cbn [turn_step]. destruct (String.eqb_spec (context_id (rq_key r)) ctx) as [Hk|]; [|done].
  assert (guard_of (begin_request policy rt r) = None /\ pc_ok ctx (world s) (begin_request policy rt r)) as [Hn Hok].
  { destruct policy as [[v|]|]; simpl; [done| |done]. by destruct rt. }
  generalize dependent (begin_request policy rt r). intros pc0 Hn Hok.
  destruct Hs as [Hw Hp Hd Hc]. split; simpl; [done|..].
  - intros i pc [Hi|[_ Hi%list_elem_of_lookup_2]]%lookup_app_Some; [by eauto|].
    apply list_elem_of_singleton in Hi as ->. done.
  - intros i j p q g [Hi|[_ Hi%list_elem_of_lookup_2]]%lookup_app_Some [Hj|[_ Hj%list_elem_of_lookup_2]]%lookup_app_Some Hg Hg';
      [by eapply Hd|..]; rewrite ?list_elem_of_singleton in *; congruence.
  - intros H1 H2 i r' rx g [Hi|[_ Hi%list_elem_of_lookup_2]]%lookup_app_Some; [by eapply Hc|].
    apply list_elem_of_singleton in Hi. by rewrite <- Hi in Hn.
Qed.

Lemma turn_step_ok ctx s e : turn_ok ctx s -> turn_ok ctx (turn_step ctx s e).
Proof.
  intros Hs. destruct e as [policy rt r|i timed_out| |j|p|e].
  - by apply ask_ok.
  - destruct (handlers s !! i) as [pc|] eqn:Hi; [by eapply handler_step_ok|]. cbn [turn_step]. by rewrite Hi.
  - destruct Hs as [Hw Hp Hd Hc]. split; simpl; [done..|].
    intros H1 [H2 _]%Forall_app. by apply Hc.
  - by apply cancel_step_ok.
  - cbn [turn_step]. unfold apply_permit. destruct (pp_decision p); try (by destruct s);
      by apply (registry_change ctx s (Resolve _ _)).
  - cbn [turn_step]. destruct (foreign e (handlers s)) eqn:Hf; [by apply foreign_ok|done].
Qed.

Lemma turn_run_ok ctx es ts : turn_ok ctx (run (turn_step ctx) (turn_start es) ts).
Proof. apply run_invariant; [apply turn_step_ok|]. split; simpl; [apply run_ok|done..]. Qed.

(** ** Options *)
Definition offers (options : list PermissionOption) (kinds : list PermissionOptionKind) (x : string) : Prop :=
  exists o, o ∈ options /\ option_id o = x /\ kind o ∈ kinds.

Lemma find_option_some p options out :
  find_option p options = Some out -> exists o, o ∈ options /\ p o = true /\ out = Selected (option_id o).
Proof.
  intros (o & E & ->)%fmap_Some. apply List.find_some in E as [Hin Hp].
  exists o. split; [by apply list_elem_of_In|done].
Qed.
Lemma find_option_none p options o : find_option p options = None -> o ∈ options -> p o = false.
Proof.
  intros E%fmap_None Hin. eapply List.find_none; [exact E|by apply list_elem_of_In].
Qed.

Lemma select_permission_option_spec options kinds :
  match select_permission_option options kinds with
  | Some (Selected x) => offers options kinds x
  | Some OutcomeCancelled => False
  | None => forall x, ~ offers options kinds x
  end.
Proof.
  induction kinds as [|k kinds IH]; simpl.
  { intros x (o & _ & _ & Hk). set_solver. }
  destruct (find_option _ options) as [out|] eqn:E.
  - apply find_option_some in E as (o & Hin & Hk%bool_decide_eq_true & ->).
    exists o. split; [done|]. split; [done|]. set_solver.
  - assert (forall x, offers options (k :: kinds) x -> offers options kinds x) as Hl.
    { intros x (o & Hin & Hx & [Hk|Hk]%elem_of_cons).
      - pose proof (find_option_none _ _ o E Hin) as Hn. simpl in Hn. by apply bool_decide_eq_false in Hn.
      - by exists o. }
    destruct (select_permission_option options kinds) as [[x|]|]; [|done|by intros x Hx; eapply IH, Hl].
    destruct IH as (o & Hin & Hx & Hk). exists o. set_solver.
Qed.

Lemma select_id_kind_some options id kinds out :
  select_permission_option_id_kind options id kinds = Some out ->
  out = Selected id /\ offers options kinds id.
Proof.
  intros (o & Hin & [Hid%String.eqb_eq Hk%bool_decide_eq_true]%andb_true_iff & ->)%find_option_some.
  subst. split; [done|by exists o].
Qed.

(** What a decision may select: an option of these kinds, or one by name. *)
Definition respects (kinds : list PermissionOptionKind) (options : list PermissionOption)
    (out : RequestPermissionOutcome) : Prop :=
  match out with
  | Selected x => offers options kinds x
  | OutcomeCancelled => forall x, ~ offers options kinds x
  end.

Lemma default_respects options kinds :
  respects kinds options (default OutcomeCancelled (select_permission_option options kinds)).
Proof.
  pose proof (select_permission_option_spec options kinds) as H.
  by destruct (select_permission_option options kinds) as [[x|]|].
Qed.

Lemma named_respects options kinds (id : option string) :
  respects kinds options
    (match id ≫= fun id => select_permission_option_id_kind options id kinds with
     | Some out => out
     | None => default OutcomeCancelled (select_permission_option options kinds)
     end).
Proof.
  destruct id as [id|]; simpl; [|apply default_respects].
  destruct (select_permission_option_id_kind options id kinds) as [out|] eqn:E; [|apply default_respects].
  by apply select_id_kind_some in E as [-> Ho].
Qed.

(** ** The answer of a cancelled request *)
(** The answer is settled already: given, or in the channel that the handler polls. *)
Definition answered (w : World) (pc : Pc) (out : RequestPermissionOutcome) : Prop :=
  match pc with
  | PcDone o | PcReturn o _ => out = o
  | PcRecheck r rx _ | PcAwait r rx _ =>
      exists res, value <$> chans w !! rx = Some (Some res) /\ out = resolution_outcome res (rq_options r)
  | PcCheck _ | PcRegister _ => False
  end.
Definition remaining (pc : Pc) : nat :=
  match pc with PcDone _ => 0 | PcReturn _ _ | PcCheck _ => 1 | PcAwait _ _ _ => 2 | PcRecheck _ _ _ => 3 | PcRegister _ => 4 end.

Lemma resolve_value key w rx res :
  value <$> chans (fst (resolve key Cancelled w)) !! rx = Some (Some res) ->
  res = Cancelled \/ value <$> chans w !! rx = Some (Some res).
Proof.
  destruct (inner (reg w) !! key) as [e|] eqn:He; [|unfold resolve; rewrite He; by right].
  rewrite (proj1 (proj2 (resolve_effect key Cancelled w e He))). destruct (chans w !! rx) as [o|]; [|done]. simpl.
  case_bool_decide; [|by right]. unfold settled. destruct (listening o); simpl; [|by right]. intros [= <-]. by left.
Qed.

(** A step of a handler of a cancelled turn takes it closer to its end and makes up no answer. *)
Lemma cancelled_handler_step ctx s i pc timed_out :
  turn_ok ctx s -> cancelled s = true -> Forall (fun pc => pc <> CpResolve) (cancellers s) -> handlers s !! i = Some pc ->
  let s' := turn_step ctx s (HandlerStep i timed_out) in
  cancelled s' = true /\ cancellers s' = cancellers s /\
  exists pc', handlers s' !! i = Some pc' /\ remaining pc' = pred (remaining pc) /\
    forall out, out = OutcomeCancelled \/ answered (world s') pc' out -> out = OutcomeCancelled \/ answered (world s) pc out.
Proof.
  intros Hs Hc Hf Hi. pose proof (lookup_lt_Some _ _ _ Hi) as Hl. cbn [turn_step]. rewrite Hi, Hc.
  destruct pc as [r|r|r rx g|r rx g|out g|out]; cbn [handler_step].
  - cbn. rewrite list_lookup_insert_eq by done. split_and!; [done..|]. eexists. split; [done|]. split; [done|]. tauto.
  - destruct (register (rq_key r) (rq_view r) (world s)) as [w' [rx g]] eqn:Er. cbn. rewrite list_lookup_insert_eq by done. split_and!; [done..|]. eexists. split; [done|]. split; [done|].
    intros out [?|(res & Hv & _)]; [by left|]. unfold register in Er. injection Er as <- <- _. cbn [chans] in Hv.
    pose proof (proj2 (proj2 (remove_entry_frame (rq_key r) (world s)))) as Hlen. by rewrite lookup_app_r, Hlen, Nat.sub_diag in Hv by lia.
  - cbn. rewrite list_lookup_insert_eq by done. split_and!; [done..|]. eexists. split; [done|]. split; [done|].
    intros out [?|(res & Hv & ->)]; [by left|]. destruct (resolve_value _ _ _ _ Hv) as [->|Hv']; [by left|right; by exists res].
  - destruct (to_cancel _ _ Hs Hc Hf i r rx g Hi) as (o & Ho & Ha). unfold poll_await. rewrite Ho, Ha. destruct (value o) as [res|] eqn:Hv; cbn; rewrite list_lookup_insert_eq by done; (split_and!; [done..|]); eexists; (split; [done|]); (split; [done|]).
    + intros out [?|Hout]; [by left|]. right. exists res. split; [by rewrite Ho; simpl; rewrite Hv|done].
    + intros out [?|Hout]; by left.
  - cbn. rewrite list_lookup_insert_eq by done. split_and!; [done..|]. eexists. by split; [done|].
  - cbn. rewrite list_lookup_insert_eq by done. split_and!; [done..|]. eexists. by split; [done|].
Qed.
Lemma cancelled_handler_ends ctx i timed_out n s pc :
  turn_ok ctx s -> cancelled s = true -> Forall (fun pc => pc <> CpResolve) (cancellers s) -> handlers s !! i = Some pc -> (remaining pc <= n)%nat ->
  exists out, handlers (run (turn_step ctx) s (replicate n (HandlerStep i timed_out))) !! i = Some (PcDone out) /\ (out = OutcomeCancelled \/ answered (world s) pc out).
Proof.
  revert s pc. induction n as [|n IH]; intros s pc Hs Hc Hf Hi Hn.
  - destruct pc; simpl in Hn; try lia. exists out. split; [exact Hi|by right].
  - destruct (cancelled_handler_step ctx s i pc timed_out Hs Hc Hf Hi) as (Hc' & Hf' & pc' & Hi' & Hr & Ha).
    destruct (IH _ pc' (turn_step_ok _ _ _ Hs) Hc' ltac:(by rewrite Hf') Hi' ltac:(lia)) as (out & Ho & Hout). exists out. split; [exact Ho|by apply Ha].
Qed.

(** ** Theorems *)
(** C27: a cancellation is never lost to a request that races it. In every
    interleaving of requests, cancellations of the turn, operator decisions and
    other users of the registry, once the turn is cancelled and no cancellation
    is still between setting the flag and visiting the registry, every request
    of the turn, wherever its handler is, returns within four steps of that
    handler, without waiting for its timeout; and its answer is cancelled,
    unless it was settled before: by an outcome already chosen, or by a
    decision already in its channel, which the biased select still takes. *)
Theorem permission_cancel_not_lost ctx es ts i pc timed_out :
  let s := run (turn_step ctx) (turn_start es) ts in
  cancelled s = true -> Forall (fun pc => pc <> CpResolve) (cancellers s) ->
  handlers s !! i = Some pc ->
  exists out, handlers (run (turn_step ctx) s (replicate 4 (HandlerStep i timed_out))) !! i = Some (PcDone out) /\
    (out = OutcomeCancelled \/ answered (world s) pc out).
Proof.
  cbn zeta. intros Hc Hf Hi. apply cancelled_handler_ends; try done; [apply turn_run_ok|]. destruct pc; simpl; lia.
Qed.

(** An answer never inverts the decision behind it. Approval, by the
    operator or by a policy, selects an offered allow option; denial, timeout,
    escalation and a missing registry select an offered reject option; each is
    [Cancelled] only when no option of its kind was offered. A modification
    selects the option it names, or nothing. *)
Theorem permission_outcome_sound options :
  (forall id, respects allow_kinds options (map_permit_to_outcome (Approve id) options)) /\
  respects allow_kinds options (map_verdict_to_outcome (Ok PdApprove) options) /\
  (forall id reason, respects reject_kinds options (map_permit_to_outcome (Deny id reason) options)) /\
  (forall reason, respects reject_kinds options (map_permit_to_outcome (Escalate reason) options)) /\
  respects reject_kinds options (resolution_outcome timeout_resolution options) /\
  respects reject_kinds options (map_verdict_to_outcome (Err PermissionDenied) options) /\
  (forall r, rq_options r = options ->
     exists out, begin_request (Some Defer) false r = PcDone out /\ respects reject_kinds options out) /\
  (forall id note x, map_permit_to_outcome (Modify id note) options = Selected x ->
     x = id /\ exists o, o ∈ options /\ option_id o = id).
Proof.
  split_and!.
  - intros id. apply named_respects.
  - apply default_respects.
  - intros id reason. apply named_respects.
  - intros reason. apply default_respects.
  - apply (named_respects options reject_kinds None).
  - apply default_respects.
  - intros r <-. eexists. split; [done|]. apply default_respects.
  - intros id note x. cbn [map_permit_to_outcome]. unfold select_permission_option_id.
    destruct (find_option _ options) as [out|] eqn:E; [|done]. simpl. intros ->.
    apply find_option_some in E as (o & Hin & Hid%String.eqb_eq & [= ->]). by eauto.
Qed.

(** ** Witnesses *)
Definition wit_options : list PermissionOption := [mkOption "no" RejectOnce; mkOption "yes" AllowOnce].
Definition wit_request : Request := mkRequest wit_key wit_view wit_options.

(** The flag is set between the handler's first check and its registration, and
    the cancellation visits the registry before the handler registers. *)
Definition wit_turn : list TurnEvent :=
  [Ask (Some Defer) true wit_request; HandlerStep 0 false; CancelTurn; CancelStep 0; CancelStep 0;
   HandlerStep 0 false; HandlerStep 0 false].

Example permission_cancel_not_lost_witness :
  exists out, handlers (run (turn_step "ctx") (run (turn_step "ctx") (turn_start []) wit_turn) (replicate 4 (HandlerStep 0 true))) !! 0%nat = Some (PcDone out) /\
    (out = OutcomeCancelled \/ answered (world (run (turn_step "ctx") (turn_start []) wit_turn)) (PcAwait wit_request 0 (mkGuard wit_key 0 0)) out).
Proof.
  apply (permission_cancel_not_lost "ctx" [] wit_turn 0 (PcAwait wit_request 0 (mkGuard wit_key 0 0)) true).
  - by vm_compute.
  - by repeat constructor.
  - by vm_compute.
Defined.
