(* ===== verification/Fallback.v ===== *)
(** * Provider fallback ([bridge-core/src/routing.rs], [fallback_runtime.rs])

    Which candidate may be tried after a provider failure: the pure policy
    ([routing.rs]), the single-use invocation that walks a frozen chain, the
    durable progress record with its validation, and recovery from it
    ([fallback_runtime.rs]; the records are in [task_store.rs]). The file system
    enters as the function [observe] from a path to the identity of the
    directory found there, sampled at each check. *)
From S2P Require Import Prelude Domain.
Open Scope Z_scope.
Open Scope bridge_scope.

(** ** Policy data ([routing.rs]) *)
Inductive FallbackCause := FcQuotaExhausted | FcRegionRestricted | FcBillingFailure | FcRateLimited.
#[global] Instance fallback_cause_eq_dec : EqDecision FallbackCause.
Proof. solve_decision. Defined.
#[global] Instance fallback_cause_countable : Countable FallbackCause.
Proof.
  refine (inj_countable'
    (fun c => match c with FcQuotaExhausted => 0%nat | FcRegionRestricted => 1%nat | FcBillingFailure => 2%nat | FcRateLimited => 3%nat end)
    (fun n => match n with 0%nat => FcQuotaExhausted | 1%nat => FcRegionRestricted | 2%nat => FcBillingFailure | _ => FcRateLimited end) _).
  by intros [].
Defined.

Definition fallback_cause (class : DiagnosticFailureClass) : option FallbackCause :=
  match class with
  | ClsQuotaExhausted => Some FcQuotaExhausted
  | ClsRegionRestricted => Some FcRegionRestricted
  | ClsBillingFailure => Some FcBillingFailure
  | ClsRateLimited => Some FcRateLimited
  | _ => None
  end.

Inductive BillingMode := Metered | Subscription.
Record BillingIdentity := mkBilling {
  bl_agent : string; bl_effective_model : string; bl_account_group : string; bl_billing_mode : BillingMode }.
Inductive ResolvedBillingIdentity :=
| Mapped (i : BillingIdentity)
| Unmapped (agent : string) (effective_model : option string).

Definition resolve_billing_identity (identities : list BillingIdentity) (agent : string)
    (effective_model : option string) : ResolvedBillingIdentity :=
  let mapped :=
    effective_model ≫= fun model =>
      List.find (fun i => String.eqb (bl_agent i) agent && String.eqb (bl_effective_model i) model) identities in
  match mapped with Some i => Mapped i | None => Unmapped agent effective_model end.

(** A [BTreeSet] that is only compared is the list of its elements in order. *)
Record McpPosture := mkMcpPosture {
  mp_name : string; mp_command : string; mp_args : list string;
  mp_env : list (string * option string * option string) }.
Record SandboxPosture := mkSandboxPosture {
  sp_runtime : string; sp_image : string; sp_mount : string; sp_access : string; sp_egress : string;
  sp_network : option string; sp_proxy : option string; sp_no_proxy : option string;
  sp_volumes : list string }.
Record CandidatePosture := mkPosture {
  po_kind : string; po_sandbox : option SandboxPosture; po_cwd : string; po_session_cwd : string;
  po_cmd : option string; po_args : list string; po_mode : option string;
  po_mcp_delivery : string; po_mcp : list McpPosture }.
Record FallbackCandidate := mkCandidate { cd_agent : string; cd_model : string; cd_posture : CandidatePosture }.
Record FrozenFallbackChain := mkChain {
  ch_id : string; ch_source : FallbackCandidate; ch_causes : gset FallbackCause;
  ch_steps : list FallbackCandidate }.

#[global] Instance mcp_posture_eq_dec : EqDecision McpPosture.
Proof. solve_decision. Defined.
#[global] Instance sandbox_posture_eq_dec : EqDecision SandboxPosture.
Proof. solve_decision. Defined.
#[global] Instance candidate_posture_eq_dec : EqDecision CandidatePosture.
Proof. solve_decision. Defined.
#[global] Instance fallback_candidate_eq_dec : EqDecision FallbackCandidate.
Proof. solve_decision. Defined.
#[global] Instance frozen_fallback_chain_eq_dec : EqDecision FrozenFallbackChain.
Proof. solve_decision. Defined.

Inductive FallbackPosition := AtSource | AtStep (index : nat).

(** [select_fallback_chain]: the chain and its place in the slice (the pointer
    the callers turn back into an index). Overlapping policies select nothing. *)
Definition chain_matches (agent model : string) (cause : FallbackCause) (c : FrozenFallbackChain) : bool :=
  String.eqb (cd_agent (ch_source c)) agent && String.eqb (cd_model (ch_source c)) model
  && bool_decide (cause ∈ ch_causes c).
Definition select_fallback_chain (chains : list FrozenFallbackChain) (agent model : string)
    (class : DiagnosticFailureClass) : option (nat * FrozenFallbackChain) :=
  match fallback_cause class with
  | None => None
  | Some cause =>
      match List.filter (fun ic => chain_matches agent model cause ic.2) (imap pair chains) with
      | [ic] => Some ic
      | _ => None
      end
  end.

Inductive ExclusionEvidence := EvUnknown | EvExcluded | EvPresent.
#[global] Instance exclusion_evidence_eq_dec : EqDecision ExclusionEvidence.
Proof. solve_decision. Defined.
Record ReplayEvidence := mkEvidence {
  ev_prompt_acceptance : ExclusionEvidence; ev_effects : ExclusionEvidence; ev_cleanup_completed : bool }.
Definition default_evidence : ReplayEvidence := mkEvidence EvUnknown EvUnknown false.
Definition permits_replay (e : ReplayEvidence) : bool :=
  bool_decide (ev_prompt_acceptance e = EvExcluded) && bool_decide (ev_effects e = EvExcluded)
  && ev_cleanup_completed e.

Inductive RoutingDecision := OriginalFailure | ReplayUnsafe | Next (c : FallbackCandidate) | Exhausted | PolicyViolation.

Definition selector (c : FallbackCandidate) : string * string := (cd_agent c, cd_model c).

(** The scan of the steps with the growing [seen] set. *)
Fixpoint malformed (source : FallbackCandidate) (seen : gset (string * string)) (steps : list FallbackCandidate) : bool :=
  match steps with
  | [] => false
  | s :: steps' =>
      bool_decide (selector s ∈ seen) || negb (bool_decide (cd_posture s = cd_posture source))
      || malformed source ({[selector s]} ∪ seen) steps'
  end.

Definition decide_fallback (chain : option FrozenFallbackChain) (class : DiagnosticFailureClass)
    (evidence : ReplayEvidence) (position : FallbackPosition) : RoutingDecision :=
  match fallback_cause class with
  | None => OriginalFailure
  | Some cause =>
  match chain with
  | None => OriginalFailure
  | Some chain =>
      if malformed (ch_source chain) {[selector (ch_source chain)]} (ch_steps chain) then PolicyViolation
      else
        let next :=
          match position with
          | AtSource => Some 0%nat
          | AtStep index => if (index <? length (ch_steps chain))%nat then Some (S index) else None
          end in
        match next with
        | None => PolicyViolation
        | Some next =>
            if negb (bool_decide (cause ∈ ch_causes chain)) then OriginalFailure
            else match ch_steps chain !! next with
                 | None => Exhausted
                 | Some step => if negb (permits_replay evidence) then ReplayUnsafe else Next step
                 end
        end
  end
  end.

(** ** The invocation ([fallback_runtime.rs]) *)
Inductive BackendCleanupDisposition := BcComplete | BcRetained | BcPreserved | BcUnknown.
#[global] Instance backend_cleanup_disposition_eq_dec : EqDecision BackendCleanupDisposition.
Proof. solve_decision. Defined.

Inductive AccountingPreparationExit := ExitFailed | ExitCanceled.
Record AccountingFailure := mkFailure {
  af_original : BridgeError;
  af_preparation_exit : AccountingPreparationExit;
  af_replay : ReplayEvidence;
  af_cleanup : BackendCleanupDisposition;
  af_persistence : option BridgeError }.

(** [From<BridgeError>], [before_prompt], [canceled_before_prompt],
    [prompt_open_failure] of [translator.rs]. *)
Definition failure_from (original : BridgeError) : AccountingFailure :=
  mkFailure original ExitFailed default_evidence BcUnknown None.
Definition exclude_prompt (f : AccountingFailure) : AccountingFailure :=
  mkFailure (af_original f) (af_preparation_exit f)
    (mkEvidence EvExcluded EvExcluded (ev_cleanup_completed (af_replay f))) (af_cleanup f) (af_persistence f).
Definition before_prompt (original : BridgeError) : AccountingFailure := exclude_prompt (failure_from original).
Definition canceled_before_prompt : AccountingFailure :=
  let f := before_prompt SessionExpired in
  mkFailure (af_original f) ExitCanceled (af_replay f) (af_cleanup f) (af_persistence f).
Definition prompt_open_failure (original : BridgeError) : AccountingFailure :=
  let excluded :=
    match original with AgentFailure d => negb (fd_prompt_may_have_been_accepted d) | _ => false end in
  if excluded then exclude_prompt (failure_from original) else failure_from original.

(** [DirectoryIdentityV1]; a birth time is seconds and nanoseconds. *)
Record DirectoryIdentity := mkDirectory {
  di_canonical_path : string; di_dev : option Z; di_ino : option Z; di_btime : option (Z * Z) }.
#[global] Instance directory_identity_eq_dec : EqDecision DirectoryIdentity.
Proof. solve_decision. Defined.

(** [ScopeV1]: paths with the identities pinned when the source was frozen. *)
Definition Scope : Type := list (string * DirectoryIdentity).
Definition observe : Type := string -> option DirectoryIdentity.

Fixpoint pin_paths (now : observe) (paths : list string) : option Scope :=
  match paths with
  | [] => Some []
  | path :: paths' =>
      match now path with
      | None => None
      | Some identity =>
          if bool_decide (di_dev identity = None) || bool_decide (di_ino identity = None)
             || bool_decide (di_btime identity = None) then None
          else cons (path, identity) <$> pin_paths now paths'
      end
  end.
Definition scope_freeze (now : observe) (posture : CandidatePosture) : option Scope :=
  let paths := [po_cwd posture; po_session_cwd posture] in
  match po_sandbox posture with
  | None => pin_paths now paths
  | Some sandbox =>
      match sp_volumes sandbox with
      | [] => pin_paths now (paths ++ [sp_mount sandbox])
      | _ => None
      end
  end.
Definition scope_unchanged (now : observe) (scope : Scope) : bool :=
  forallb (fun '(path, pin) => bool_decide (now path = Some pin)) scope.

Record FrozenFallbackInvocation := mkInvocation {
  iv_chains : list FrozenFallbackChain;
  iv_source : FallbackCandidate;
  iv_selected : option nat;
  iv_position : FallbackPosition;
  iv_scope : Scope }.

Definition invocation_freeze (now : observe) (chains : list FrozenFallbackChain) (source : FallbackCandidate)
    : option FrozenFallbackInvocation :=
  (fun scope => mkInvocation chains source None AtSource scope) <$> scope_freeze now (cd_posture source).

Definition advance (p : FallbackPosition) : FallbackPosition :=
  match p with AtSource => AtStep 0 | AtStep index => AtStep (S index) end.

Definition is_next (d : RoutingDecision) : option FallbackCandidate :=
  match d with Next c => Some c | _ => None end.

(** [transition]: [now1] and [now2] are the file system at the two scope checks.
    A selected index is always in range ([selected_in_range]), so the indexing
    never panics. *)
Definition transition (self : FrozenFallbackInvocation) (failure : AccountingFailure) (canceled : bool)
    (admission : FallbackCandidate -> result FallbackCandidate BridgeError) (now1 now2 : observe)
    : result (FrozenFallbackInvocation * FallbackCandidate) AccountingFailure :=
  if canceled || bool_decide (is_Some (af_persistence failure)) then Err failure
  else match af_original failure with
  | AgentFailure diagnostic =>
      if fd_prompt_may_have_been_accepted diagnostic then Err failure
      else
        let selected :=
          match iv_selected self with
          | Some i => Some i
          | None => fst <$> select_fallback_chain (iv_chains self) (cd_agent (iv_source self))
                              (cd_model (iv_source self)) (fd_class diagnostic)
          end in
        let chain := selected ≫= fun i => iv_chains self !! i in
        if match chain with Some c => negb (bool_decide (ch_source c = iv_source self)) | None => false end
        then Err failure
        else match is_next (decide_fallback chain (fd_class diagnostic) (af_replay failure) (iv_position self)) with
        | None => Err failure
        | Some candidate =>
            if negb (bool_decide (af_cleanup failure = BcComplete)) || negb (scope_unchanged now1 (iv_scope self))
            then Err failure
            else if negb (bool_decide (admission candidate = Ok candidate)) || negb (scope_unchanged now2 (iv_scope self))
            then Err failure
            else Ok (mkInvocation (iv_chains self) (iv_source self) selected (advance (iv_position self)) (iv_scope self),
                     candidate)
        end
  | _ => Err failure
  end.

(** [validate_fallback_authority_v1]: the [any] closure with its two sets. *)
Fixpoint bad_chains (source : FallbackCandidate) (ids : gset string) (causes : gset FallbackCause)
    (chains : list FrozenFallbackChain) : bool :=
  match chains with
  | [] => false
  | c :: chains' =>
      bool_decide (ch_id c = EmptyString) || bool_decide (ch_id c ∈ ids) || negb (bool_decide (ch_source c = source))
      || bool_decide (ch_causes c = ∅) || bool_decide (ch_steps c = [])
      || negb (bool_decide (ch_causes c ∩ causes = ∅))
      || match decide_fallback (Some c) ClsQuotaExhausted default_evidence AtSource with
         | PolicyViolation => true | _ => false end
      || bad_chains source ({[ch_id c]} ∪ ids) (ch_causes c ∪ causes) chains'
  end.
Definition validate_fallback_authority (chains : list FrozenFallbackChain) (source : FallbackCandidate)
    : result unit BridgeError :=
  if bool_decide (chains = []) || bad_chains source ∅ ∅ chains then Err InvalidStateTransition else Ok tt.

(** ** Durable progress ([task_store.rs]) *)
Inductive CandidatePhase := Preparing | Prepared | PollFenced | Polled.
#[global] Instance candidate_phase_eq_dec : EqDecision CandidatePhase.
Proof. solve_decision. Defined.
Definition phase_rank (p : CandidatePhase) : Z :=
  match p with Preparing => 0 | Prepared => 1 | PollFenced => 2 | Polled => 3 end.
Definition dispatched (p : CandidatePhase) : bool := bool_decide (p = Polled).

(** [rj_diagnostic_rest] stands for the display fields of the diagnostic, which
    are only compared. *)
Record CandidateRejection := mkRejection {
  rj_diagnostic : FailureDiagnostic; rj_diagnostic_rest : string;
  rj_non_acceptance : bool; rj_no_effects : bool; rj_cleanup_complete : bool;
  rj_persistence_error : option string; rj_canceled : bool }.
#[global] Instance candidate_rejection_eq_dec : EqDecision CandidateRejection.
Proof. solve_decision. Defined.

#[global] Instance attempt_identity_eq_dec : EqDecision AttemptIdentity.
Proof. solve_decision. Defined.
Record CandidateVisit := mkVisit {
  vs_position : nat; vs_accounting_id : string; vs_owner : AttemptIdentity; vs_cold_context : string;
  vs_phase : CandidatePhase; vs_rejection : option CandidateRejection }.
#[global] Instance candidate_visit_eq_dec : EqDecision CandidateVisit.
Proof. solve_decision. Defined.

(** [CandidateRejectionV1::replay]. *)
Definition rejection_replay (r : CandidateRejection) : ReplayEvidence :=
  mkEvidence
    (if rj_non_acceptance r && negb (fd_prompt_may_have_been_accepted (rj_diagnostic r)) then EvExcluded else EvUnknown)
    (if rj_no_effects r then EvExcluded else EvUnknown)
    (rj_cleanup_complete r && negb (bool_decide (is_Some (rj_persistence_error r))) && negb (rj_canceled r)).

Definition visit_position (n : nat) : FallbackPosition :=
  match n with O => AtSource | S i => AtStep i end.

Section Progress.
(** [UsageSnapshot] and its comparison, which need not be reflexive: it holds
    floating-point costs. *)
Context {Usage : Type} (usage_eqb : Usage -> Usage -> bool).

Record CandidateOutput := mkOutput { co_output : string; co_ok : bool; co_usage : option Usage }.
Record CandidateProgress := mkProgress {
  pg_schema_version : Z;
  pg_chains : list FrozenFallbackChain;
  pg_source : FallbackCandidate;
  pg_scope : list DirectoryIdentity;
  pg_selected_chain : option nat;
  pg_retries_consumed : Z;
  pg_visits : list CandidateVisit;
  pg_terminal : option CandidateOutput }.

Definition selected_chain_of (p : CandidateProgress) : option FrozenFallbackChain :=
  pg_selected_chain p ≫= fun i => pg_chains p !! i.

(** The body of the loop of [validate] for a visit after the first. *)
Definition validate_successor (p : CandidateProgress) (prior visit : CandidateVisit) (retries : Z)
    : result Z BridgeError :=
  if negb (String.eqb (execution_id (vs_owner visit)) (execution_id (vs_owner prior)))
  then Err InvalidStateTransition
  else match vs_rejection prior with
  | None => Err InvalidStateTransition
  | Some rejection =>
      if (vs_position visit =? vs_position prior)%nat then
        if u32_max <? retries + 1 then Err InvalidStateTransition
        else if negb (rj_cleanup_complete rejection) || rj_canceled rejection
                || bool_decide (is_Some (rj_persistence_error rejection))
        then Err InvalidStateTransition else Ok (retries + 1)
      else if negb (vs_position visit =? S (vs_position prior))%nat || negb (dispatched (vs_phase prior))
              || negb (bool_decide (is_Some (is_next
                   (decide_fallback (selected_chain_of p) (fd_class (rj_diagnostic rejection))
                      (rejection_replay rejection) (visit_position (vs_position prior))))))
      then Err InvalidStateTransition else Ok retries
  end.

Fixpoint validate_visits (p : CandidateProgress) (prior : option CandidateVisit) (ids contexts : gset string)
    (retries : Z) (visits : list CandidateVisit) : result Z BridgeError :=
  match visits with
  | [] => Ok retries
  | visit :: visits' =>
      if bool_decide (vs_accounting_id visit = EmptyString) || bool_decide (vs_accounting_id visit ∈ ids)
         || bool_decide (vs_cold_context visit ∈ contexts)
         || (match prior with None => negb (vs_position visit =? 0)%nat | Some _ => false end)
      then Err InvalidStateTransition
      else
        let? retries' := match prior with
                         | None => Ok retries
                         | Some prior => validate_successor p prior visit retries
                         end in
        validate_visits p (Some visit) ({[vs_accounting_id visit]} ∪ ids)
          ({[vs_cold_context visit]} ∪ contexts) retries' visits'
  end.

Definition terminal_valid (p : CandidateProgress) : bool :=
  match pg_terminal p with
  | None => true
  | Some output =>
      match last (pg_visits p) with
      | None => false
      | Some visit =>
          if co_ok output then dispatched (vs_phase visit) && negb (bool_decide (is_Some (vs_rejection visit)))
          else negb (bool_decide (vs_phase visit = PollFenced))
               && match vs_rejection visit with Some r => rj_cleanup_complete r | None => false end
      end
  end.

Definition progress_validate (p : CandidateProgress) : result unit BridgeError :=
  match validate_fallback_authority (pg_chains p) (pg_source p) with
  | Err e => Err e
  | Ok _ =>
      if negb (pg_schema_version p =? 1) || bool_decide (pg_scope p = [])
         || match pg_selected_chain p with Some i => (length (pg_chains p) <=? i)%nat | None => false end
      then Err InvalidStateTransition
      else
        let? retries := validate_visits p None ∅ ∅ 0 (pg_visits p) in
        if negb (retries =? pg_retries_consumed p) || negb (terminal_valid p)
        then Err InvalidStateTransition else Ok tt
  end.

Definition primary_failure (p : CandidateProgress) : option CandidateRejection :=
  match List.find (fun v => dispatched (vs_phase v)) (reverse (pg_visits p)) with
  | Some v => vs_rejection v
  | None => None
  end.

Definition option_eqb {A} (eqb : A -> A -> bool) (x y : option A) : bool :=
  match x, y with Some a, Some b => eqb a b | None, None => true | _, _ => false end.
Definition output_eqb (a b : CandidateOutput) : bool :=
  String.eqb (co_output a) (co_output b) && Bool.eqb (co_ok a) (co_ok b)
  && option_eqb usage_eqb (co_usage a) (co_usage b).
Definition progress_eqb (a b : CandidateProgress) : bool :=
  (pg_schema_version a =? pg_schema_version b) && bool_decide (pg_chains a = pg_chains b)
  && bool_decide (pg_source a = pg_source b) && bool_decide (pg_scope a = pg_scope b)
  && bool_decide (pg_selected_chain a = pg_selected_chain b)
  && (pg_retries_consumed a =? pg_retries_consumed b) && bool_decide (pg_visits a = pg_visits b)
  && option_eqb output_eqb (pg_terminal a) (pg_terminal b).

Definition with_phase (v : CandidateVisit) (next : CandidateVisit) : CandidateVisit :=
  mkVisit (vs_position v) (vs_accounting_id v) (vs_owner v) (vs_cold_context v) (vs_phase next) (vs_rejection next).

(** The last old visit takes the phase and rejection of its successor version. *)
Definition update_last (old_visits new_visits : list CandidateVisit) : result (list CandidateVisit) BridgeError :=
  match last old_visits with
  | None => Ok old_visits
  | Some v =>
      match new_visits !! (length old_visits - 1)%nat with
      | None => Err InvalidStateTransition
      | Some next =>
          if (phase_rank (vs_phase next) <? phase_rank (vs_phase v))
             || (phase_rank (vs_phase v) + 1 <? phase_rank (vs_phase next))
             || (bool_decide (is_Some (vs_rejection v)) && negb (bool_decide (vs_rejection v = vs_rejection next)))
          then Err InvalidStateTransition
          else Ok (<[(length old_visits - 1)%nat := with_phase v next]> old_visits)
      end
  end.

(** The visit that may be appended. *)
Definition append_new (old_count : nat) (visits new_visits : list CandidateVisit)
    : result (list CandidateVisit) BridgeError :=
  if (old_count <? length new_visits)%nat then
    match last new_visits with
    | None => Err InvalidStateTransition
    | Some next =>
        if negb (bool_decide (vs_phase next = Preparing)) || bool_decide (is_Some (vs_rejection next))
        then Err InvalidStateTransition else Ok (visits ++ [next])
    end
  else Ok visits.

Definition follows (self old : CandidateProgress) : result unit BridgeError :=
  match progress_validate self with
  | Err e => Err e
  | Ok _ =>
      if bool_decide (is_Some (pg_terminal old))
         || (bool_decide (is_Some (pg_selected_chain old))
             && negb (bool_decide (pg_selected_chain old = pg_selected_chain self)))
         || (length (pg_visits self) <? length (pg_visits old))%nat
         || (length (pg_visits old) + 1 <? length (pg_visits self))%nat
      then Err InvalidStateTransition
      else
        let? updated := update_last (pg_visits old) (pg_visits self) in
        let? visits := append_new (length (pg_visits old)) updated (pg_visits self) in
        let previous := mkProgress (pg_schema_version old) (pg_chains old) (pg_source old) (pg_scope old)
                          (pg_selected_chain self) (pg_retries_consumed self) visits (pg_terminal self) in
        if progress_eqb previous self then Ok tt else Err InvalidStateTransition
  end.



End Progress.
Arguments CandidateProgress : clear implicits.
Arguments CandidateOutput : clear implicits.

(** ** The policy, as a specification *)
Record well_formed (c : FrozenFallbackChain) : Prop := {
  wf_distinct : NoDup (selector <$> ch_source c :: ch_steps c);
  wf_posture : Forall (fun s => cd_posture s = cd_posture (ch_source c)) (ch_steps c) }.

Lemma malformed_false source seen steps :
  malformed source seen steps = false <->
  NoDup (selector <$> steps) /\ Forall (fun s => selector s ∉ seen) steps /\
  Forall (fun s => cd_posture s = cd_posture source) steps.
Proof.
  revert seen. induction steps as [|s steps IH]; intros seen; simpl.
  { split; [|done]. intros _. split_and!; constructor. }
  rewrite !orb_false_iff, negb_false_iff, bool_decide_eq_false, bool_decide_eq_true, IH, NoDup_cons, !Forall_cons.
  assert (Forall (fun x => selector x ∉ {[selector s]} ∪ seen) steps <->
          selector s ∉ selector <$> steps /\ Forall (fun x => selector x ∉ seen) steps) as ->; [|naive_solver].
  rewrite list_elem_of_fmap, !Forall_forall. split.
  - intros H. split; [intros (x & E & Hx); by apply (H x Hx), elem_of_union_l, elem_of_singleton|].
    intros x Hx Hs. by apply (H x Hx), elem_of_union_r.
  - intros [H1 H2] x Hx [E%elem_of_singleton|Hs]%elem_of_union; [by apply H1; eauto|by apply (H2 x)].
Qed.

Lemma malformed_well_formed c :
  malformed (ch_source c) {[selector (ch_source c)]} (ch_steps c) = false <-> well_formed c.
Proof.
  rewrite malformed_false. split.
  - intros (Hn & Hs & Hp). split; [|done]. rewrite fmap_cons, NoDup_cons. split; [|done].
    rewrite Forall_forall in Hs. rewrite list_elem_of_fmap. intros (s & E & Hin). by apply (Hs s Hin), elem_of_singleton.
  - intros [Hn Hp]. rewrite fmap_cons, NoDup_cons in Hn. destruct Hn as [Hs Hn]. split_and!; [done| |done].
    apply Forall_forall. intros s Hin E%elem_of_singleton. apply Hs. rewrite <- E.
    by apply list_elem_of_fmap_2.
Qed.

Definition next_index (p : FallbackPosition) : nat :=
  match p with AtSource => 0%nat | AtStep i => S i end.

(** When the policy names a successor, and which. *)
Lemma decide_fallback_next chain class evidence position c :
  decide_fallback chain class evidence position = Next c ->
  exists ch cause, chain = Some ch /\ fallback_cause class = Some cause /\ well_formed ch /\
    cause ∈ ch_causes ch /\ ch_steps ch !! next_index position = Some c /\ permits_replay evidence = true.
Proof.
  unfold decide_fallback. destruct (fallback_cause class) as [cause|]; [|done]. destruct chain as [ch|]; [|done].
  destruct (malformed _ _ _) eqn:Em; [done|]. intros H. exists ch, cause. apply malformed_well_formed in Em.
  assert (exists n, match position with
            | AtSource => Some 0%nat
            | AtStep index => if (index <? length (ch_steps ch))%nat then Some (S index) else None
            end = Some n /\ n = next_index position) as (n & E & ->).
  { destruct position as [|i]; [by eauto|]. destruct (Nat.ltb_spec i (length (ch_steps ch))); [by eauto|].
    exfalso. revert H. done. }
  rewrite E in H. case_bool_decide; [|done]. simpl in H.
  destruct (ch_steps ch !! next_index position) as [s|] eqn:Es; [|done].
  destruct (permits_replay evidence) eqn:Ep; [|done]. simpl in H. by simplify_eq.
Qed.


(** ** Walking a chain *)
(** What a failure must show before another candidate may be tried. *)
Record replay_safe (f : AccountingFailure) (canceled : bool) : Prop := {
  rs_diagnostic : exists d, af_original f = AgentFailure d /\ fd_prompt_may_have_been_accepted d = false;
  rs_evidence : permits_replay (af_replay f) = true;
  rs_cleanup : af_cleanup f = BcComplete;
  rs_persistence : af_persistence f = None;
  rs_canceled : canceled = false }.

Record advanced (self self' : FrozenFallbackInvocation) (c : FallbackCandidate) (i : nat) (ch : FrozenFallbackChain) : Prop := {
  ad_selected : iv_selected self' = Some i /\ (iv_selected self = None \/ iv_selected self = Some i);
  ad_chain : iv_chains self !! i = Some ch /\ ch_source ch = iv_source self /\ well_formed ch;
  ad_step : ch_steps ch !! next_index (iv_position self) = Some c;
  ad_position : iv_position self' = advance (iv_position self);
  ad_frame : iv_chains self' = iv_chains self /\ iv_source self' = iv_source self /\ iv_scope self' = iv_scope self }.

Lemma is_next_some d c : is_next d = Some c -> d = Next c.
Proof. destruct d; simpl; intros; by simplify_eq. Qed.

Lemma transition_ok self f canceled admission now1 now2 self' c :
  transition self f canceled admission now1 now2 = Ok (self', c) ->
  replay_safe f canceled /\ (exists i ch, advanced self self' c i ch) /\
  admission c = Ok c /\ scope_unchanged now1 (iv_scope self) = true /\ scope_unchanged now2 (iv_scope self) = true.
Proof.
  unfold transition. destruct canceled; [done|]. simpl. case_bool_decide as Hper; [done|].
  destruct (af_original f) eqn:Eo; try done.
  destruct (fd_prompt_may_have_been_accepted diagnostic) eqn:Epm; [done|].
  set (selected := match iv_selected self with Some i => Some i | None => _ end).
  destruct (selected ≫= _) as [ch|] eqn:Ech.
  2:{ unfold decide_fallback. by destruct (fallback_cause _). }
  apply bind_Some in Ech as (i & Ei & Hch).
  assert (iv_selected self = None \/ iv_selected self = Some i) as Hsel
    by (unfold selected in Ei; destruct (iv_selected self); [by right|by left]).
  clearbody selected. case_bool_decide as Hsrc; [|done]. simpl.
  destruct (is_next _) as [c0|] eqn:En; [|done]. apply is_next_some in En.
  apply decide_fallback_next in En as (ch' & cause & [= <-] & Hcause & Hwf & Hin & Hstep & Hperm).
  case_bool_decide as Hcl; [|done]. destruct (scope_unchanged now1 (iv_scope self)) eqn:Es1; [|done]. simpl.
  case_bool_decide as Hadm; [|done]. destruct (scope_unchanged now2 (iv_scope self)) eqn:Es2; [|done]. simpl.
  intros; simplify_eq/=. split_and!; try done.
  - split; [by eauto|done|done| |done]. destruct (af_persistence f); [|done]. by destruct Hper.
  - exists i, ch. by split.
Qed.

Record Input := mkInput {
  in_failure : AccountingFailure; in_canceled : bool;
  in_admit : FallbackCandidate -> result FallbackCandidate BridgeError;
  in_now1 : observe; in_now2 : observe }.

(** The candidates tried after the source, until a refusal ends the walk. *)
Fixpoint walk (self : FrozenFallbackInvocation) (inputs : list Input) : list FallbackCandidate :=
  match inputs with
  | [] => []
  | x :: inputs' =>
      match transition self (in_failure x) (in_canceled x) (in_admit x) (in_now1 x) (in_now2 x) with
      | Ok (self', c) => c :: walk self' inputs'
      | Err _ => []
      end
  end.

Lemma advance_index p : next_index (advance p) = S (next_index p).
Proof. by destruct p. Qed.

Lemma walk_prefix self inputs i ch :
  iv_selected self = Some i -> iv_chains self !! i = Some ch ->
  walk self inputs `prefix_of` drop (next_index (iv_position self)) (ch_steps ch).
Proof.
  revert self. induction inputs as [|x inputs IH]; intros self Hi Hch; simpl; [apply prefix_nil|].
  destruct (transition _ _ _ _ _ _) as [[self' c]|] eqn:Et; [|apply prefix_nil].
  apply transition_ok in Et as (_ & (j & ch' & [[Hj Hj'] (Hch' & _ & _) Hs Hp (Hc & _)]) & _).
  assert (j = i /\ ch' = ch) as [-> ->] by (destruct Hj'; naive_solver).
  rewrite (drop_S _ c) by done. apply prefix_cons. rewrite <- advance_index, <- Hp. apply IH; [done|by rewrite Hc].
Qed.

Lemma walk_safe self inputs :
  Forall (fun x => replay_safe (in_failure x) (in_canceled x)) (take (length (walk self inputs)) inputs).
Proof.
  revert self. induction inputs as [|x inputs IH]; intros self; simpl; [constructor|].
  destruct (transition _ _ _ _ _ _) as [[self' c]|] eqn:Et; simpl; [|constructor].
  constructor; [|apply IH]. by apply transition_ok in Et as (Hr & _).
Qed.

(** ** Progress records *)
Section ProgressFacts.
Context {Usage : Type} (usage_eqb : Usage -> Usage -> bool).
Local Abbreviation Progress := (CandidateProgress Usage).
Implicit Types p : Progress.

(** What links two consecutive visits of a valid record. *)
Definition retry_ok (v v' : CandidateVisit) (r : CandidateRejection) : Prop :=
  vs_position v' = vs_position v /\ rj_cleanup_complete r = true /\ rj_canceled r = false /\ rj_persistence_error r = None.
Definition move_ok (p : Progress) (v v' : CandidateVisit) (r : CandidateRejection) : Prop :=
  vs_position v' = S (vs_position v) /\ vs_phase v = Polled /\
  fd_prompt_may_have_been_accepted (rj_diagnostic r) = false /\ rj_non_acceptance r = true /\
  rj_no_effects r = true /\ rj_cleanup_complete r = true /\ rj_canceled r = false /\ rj_persistence_error r = None /\
  exists ch, selected_chain_of p = Some ch /\ well_formed ch /\ (vs_position v < length (ch_steps ch))%nat.
Definition link (p : Progress) (v v' : CandidateVisit) : Prop :=
  execution_id (vs_owner v') = execution_id (vs_owner v) /\
  exists r, vs_rejection v = Some r /\ (retry_ok v v' r \/ move_ok p v v' r).

Lemma permits_rejection r :
  permits_replay (rejection_replay r) = true ->
  fd_prompt_may_have_been_accepted (rj_diagnostic r) = false /\ rj_non_acceptance r = true /\
  rj_no_effects r = true /\ rj_cleanup_complete r = true /\ rj_canceled r = false /\ rj_persistence_error r = None.
Proof.
  unfold permits_replay, rejection_replay. simpl.
  destruct (rj_non_acceptance r), (fd_prompt_may_have_been_accepted (rj_diagnostic r)), (rj_no_effects r),
    (rj_cleanup_complete r), (rj_canceled r), (rj_persistence_error r); simpl; done.
Qed.

Lemma validate_successor_link p v v' n m : validate_successor p v v' n = Ok m -> link p v v'.
Proof.
  unfold validate_successor. destruct (String.eqb_spec (execution_id (vs_owner v')) (execution_id (vs_owner v))) as [He|]; [|done].
  simpl. destruct (vs_rejection v) as [r|] eqn:Er; [|done]. intros H. split; [done|]. exists r. split; [done|].
  destruct (Nat.eqb_spec (vs_position v') (vs_position v)) as [Hp|Hp].
  - left. destruct (u32_max <? n + 1); [done|]. unfold retry_ok.
    destruct (rj_cleanup_complete r), (rj_canceled r), (rj_persistence_error r); simpl in H; done.
  - right. destruct (Nat.eqb_spec (vs_position v') (S (vs_position v))) as [Hs|]; [|done].
    unfold dispatched in H. case_bool_decide as Hph; [|done]. simpl in H. case_bool_decide as Hn; [|done].
    destruct Hn as [c Hn%is_next_some%decide_fallback_next].
    destruct Hn as (ch & cause & Hch & _ & Hwf & _ & Hst & Hpr).
    apply permits_rejection in Hpr as (? & ? & ? & ? & ? & ?). unfold move_ok. split_and!; try done.
    exists ch. split_and!; try done. apply lookup_lt_Some in Hst. by destruct (vs_position v).
Qed.

Lemma validate_visits_cons p prior ids ctxs n m v vs :
  validate_visits p prior ids ctxs n (v :: vs) = Ok m ->
  vs_accounting_id v ∉ ids /\ vs_cold_context v ∉ ctxs /\
  match prior with None => vs_position v = 0%nat | Some u => link p u v end /\
  exists n', validate_visits p (Some v) ({[vs_accounting_id v]} ∪ ids) ({[vs_cold_context v]} ∪ ctxs) n' vs = Ok m.
Proof.
  cbn [validate_visits]. case_bool_decide as H1; [done|]. case_bool_decide as H2; [done|].
  case_bool_decide as H3; [done|]. cbn [orb]. destruct prior as [u|].
  - destruct (validate_successor p u v n) as [n'|] eqn:E; [|done]. intros H.
    split_and!; [done|done|by eapply validate_successor_link|by exists n'].
  - destruct (Nat.eqb_spec (vs_position v) 0); [|done]. intros H. split_and!; [done..|by exists n].
Qed.

Lemma validate_visits_unique p prior ids ctxs n m vs :
  validate_visits p prior ids ctxs n vs = Ok m ->
  NoDup (vs_accounting_id <$> vs) /\ Forall (fun v => vs_accounting_id v ∉ ids) vs /\
  NoDup (vs_cold_context <$> vs) /\ Forall (fun v => vs_cold_context v ∉ ctxs) vs.
Proof.
  revert prior ids ctxs n. induction vs as [|v vs IH]; intros prior ids ctxs n H.
  { simpl. split_and!; constructor. }
  apply validate_visits_cons in H as (Hid & Hctx & _ & n' & H).
  apply IH in H as (Hn & Hf & Hn' & Hf'). rewrite !fmap_cons, !NoDup_cons, !Forall_cons, !list_elem_of_fmap.
  rewrite !Forall_forall in *. split_and!; try done.
  - intros (x & E & Hx). by apply (Hf x Hx), elem_of_union_l, elem_of_singleton.
  - intros x Hx Hs. by apply (Hf x Hx), elem_of_union_r.
  - intros (x & E & Hx). by apply (Hf' x Hx), elem_of_union_l, elem_of_singleton.
  - intros x Hx Hs. by apply (Hf' x Hx), elem_of_union_r.
Qed.

Lemma validate_visits_links p u ids ctxs n m vs :
  validate_visits p (Some u) ids ctxs n vs = Ok m ->
  forall i v v', (u :: vs) !! i = Some v -> vs !! i = Some v' -> link p v v'.
Proof.
  revert u ids ctxs n. induction vs as [|x vs IH]; intros u ids ctxs n H i v v' Hv Hv'; [done|].
  apply validate_visits_cons in H as (_ & _ & Hl & n' & H).
  destruct i as [|i]; simpl in *; [by simplify_eq|]. by eapply IH.
Qed.

(** Positions never go back, move one step at a time, and stay in the chain. *)
Lemma links_positions p (vs : list CandidateVisit) :
  (forall i v v', vs !! i = Some v -> vs !! S i = Some v' -> link p v v') ->
  forall d i v v', vs !! i = Some v -> vs !! (i + d)%nat = Some v' ->
    (vs_position v <= vs_position v' <= vs_position v + d)%nat.
Proof.
  intros Hl d. induction d as [|d IH]; intros i v v' Hv Hv'.
  { rewrite Nat.add_0_r in Hv'. simplify_eq. lia. }
  destruct (lookup_lt_is_Some_2 vs (i + d)) as [u Hu]; [apply lookup_lt_Some in Hv'; lia|].
  specialize (IH i v u Hv Hu). replace (i + S d)%nat with (S (i + d)) in Hv' by lia.
  destruct (Hl _ _ _ Hu Hv') as (_ & r & _ & [Hr|Hm]); [destruct Hr|destruct Hm]; lia.
Qed.

Lemma progress_validate_ok p :
  progress_validate p = Ok tt ->
  validate_fallback_authority (pg_chains p) (pg_source p) = Ok tt /\
  validate_visits p None ∅ ∅ 0 (pg_visits p) = Ok (pg_retries_consumed p) /\ terminal_valid p = true /\
  (forall i, pg_selected_chain p = Some i -> is_Some (pg_chains p !! i)).
Proof.
  unfold progress_validate. destruct (validate_fallback_authority _ _) as [[]|] eqn:Ea; [|done].
  destruct (negb (pg_schema_version p =? 1)); [done|]. case_bool_decide; [done|]. cbn [orb].
  destruct (match pg_selected_chain p with Some i => _ | None => _ end) eqn:Es; [done|].
  destruct (validate_visits p None ∅ ∅ 0 (pg_visits p)) as [n|] eqn:Ev; [|done]. simpl.
  destruct (Z.eqb_spec n (pg_retries_consumed p)) as [->|]; [|done].
  destruct (terminal_valid p); [|done]. intros _. split_and!; [done..|].
  intros i Hi. rewrite Hi in Es. apply lookup_lt_is_Some. by apply Nat.leb_gt in Es.
Qed.

Lemma progress_links p :
  progress_validate p = Ok tt ->
  forall i v v', pg_visits p !! i = Some v -> pg_visits p !! S i = Some v' -> link p v v'.
Proof.
  intros (_ & Hv & _)%progress_validate_ok i v v' Hi Hi'. destruct (pg_visits p) as [|x vs]; [done|].
  apply validate_visits_cons in Hv as (_ & _ & _ & n' & H). by eapply validate_visits_links.
Qed.

(** *** Publications only add evidence *)
Definition visit_le (v v' : CandidateVisit) : Prop :=
  vs_position v' = vs_position v /\ vs_accounting_id v' = vs_accounting_id v /\ vs_owner v' = vs_owner v /\
  vs_cold_context v' = vs_cold_context v /\ phase_rank (vs_phase v) <= phase_rank (vs_phase v') /\
  (vs_rejection v = None \/ vs_rejection v' = vs_rejection v).
Record progress_le (a b : Progress) : Prop := {
  le_frame : pg_chains b = pg_chains a /\ pg_source b = pg_source a /\ pg_scope b = pg_scope a;
  le_selected : pg_selected_chain a = None \/ pg_selected_chain b = pg_selected_chain a;
  le_visits : forall i v, pg_visits a !! i = Some v -> exists v', pg_visits b !! i = Some v' /\ visit_le v v' }.

#[global] Instance visit_le_preorder : PreOrder visit_le.
Proof.
  split; unfold visit_le; [intros v; split_and!; try done; by right|].
  intros u v w (?&?&?&?&?&Hr) (?&?&?&?&?&Hr'). split_and!; try congruence; [lia|].
  destruct Hr as [Hr|Hr]; [by left|]. destruct Hr' as [Hr'|Hr']; [left|right]; congruence.
Qed.
#[global] Instance progress_le_preorder : PreOrder progress_le.
Proof.
  split.
  - intros a. split; [done|by right|]. intros i v Hv. by exists v.
  - intros a b c [(?&?&?) Hs Hv] [(?&?&?) Hs' Hv']. split.
    + split_and!; congruence.
    + destruct Hs as [Hs|Hs]; [by left|]. destruct Hs' as [Hs'|Hs']; [left|right]; congruence.
    + intros i v Hi. destruct (Hv i v Hi) as (u & Hu & Hle). destruct (Hv' i u Hu) as (w & Hw & Hle').
      exists w. split; [done|]. by trans u.
Qed.

Lemma update_last_le (old new vs : list CandidateVisit) :
  update_last old new = Ok vs ->
  length vs = length old /\ forall i v, old !! i = Some v -> exists v', vs !! i = Some v' /\ visit_le v v'.
Proof.
  unfold update_last. destruct (last old) as [v|] eqn:El.
  2:{ intros [= <-]. split; [done|]. intros i v Hi. by exists v. }
  destruct (new !! _) as [next|] eqn:En; [|done].
  destruct (Z.ltb_spec (phase_rank (vs_phase next)) (phase_rank (vs_phase v))) as [|Hr]; [done|].
  destruct (phase_rank (vs_phase v) + 1 <? phase_rank (vs_phase next)); [done|]. cbn [orb].
  destruct (bool_decide _ && _) eqn:Ej; [done|]. intros [= <-]. split; [apply length_insert|].
  rewrite last_lookup in El. replace (pred (length old)) with (length old - 1)%nat in El by lia.
  intros i u Hi. destruct (decide (i = (length old - 1)%nat)) as [->|Hne].
  - exists (with_phase v next). rewrite list_lookup_insert_eq by (by eapply lookup_lt_Some). split; [done|].
    rewrite Hi in El. injection El as ->. unfold visit_le, with_phase. simpl. split_and!; try done.
    apply andb_false_iff in Ej as [Ej|Ej]; [left|right].
    + apply bool_decide_eq_false in Ej. destruct (vs_rejection v); [by destruct Ej|done].
    + by apply negb_false_iff, bool_decide_eq_true in Ej.
  - exists u. by rewrite list_lookup_insert_ne.
Qed.

Lemma append_new_le n (vs new vs' : list CandidateVisit) :
  append_new n vs new = Ok vs' -> vs `prefix_of` vs'.
Proof.
  unfold append_new. destruct (_ <? _)%nat; [|by intros [= <-]].
  destruct (last new) as [next|]; [|done]. destruct (negb _ || _); [done|]. intros [= <-]. by apply prefix_app_r.
Qed.

Lemma follows_le self old :
  follows usage_eqb self old = Ok tt ->
  progress_le old self /\ pg_terminal old = None /\ progress_validate self = Ok tt.
Proof.
  unfold follows. destruct (progress_validate self) as [[]|] eqn:Ev; [|done].
  case_bool_decide as Ht; [done|]. cbn [orb].
  destruct (bool_decide (is_Some (pg_selected_chain old)) && _) eqn:Es; [done|].
  destruct (_ <? _)%nat; [done|]. destruct (_ <? _)%nat; [done|]. cbn [orb].
  destruct (update_last _ _) as [vs|] eqn:Eu; [|done]. simpl.
  destruct (append_new _ _ _) as [vs'|] eqn:Ea; [|done]. simpl.
  destruct (progress_eqb _ _ _) eqn:Ee; [|done]. intros _. unfold progress_eqb in Ee. simpl in Ee.
  rewrite !andb_true_iff, !bool_decide_eq_true in Ee. destruct Ee as [[[[[[[_ Hc] Hs] Hsc] _] _] Hv] _].
  apply update_last_le in Eu as [Hl Hu]. apply append_new_le in Ea as [k Hk]. split_and!; [|by destruct (pg_terminal old); [destruct Ht|]|done].
  split; [done| |].
  - apply andb_false_iff in Es as [Es|Es].
    + left. apply bool_decide_eq_false in Es. by destruct (pg_selected_chain old); [destruct Es|].
    + right. by apply negb_false_iff, bool_decide_eq_true in Es.
  - intros i v Hi. destruct (Hu i v Hi) as (v' & Hv' & Hle). exists v'. split; [|done].
    rewrite <- Hv, Hk. by apply lookup_app_l_Some.
Qed.



(** The failure a live owner would hold where the record has a rejection. *)
Definition live_failure (r : CandidateRejection) : AccountingFailure :=
  mkFailure (AgentFailure (rj_diagnostic r)) ExitFailed (rejection_replay r)
    (if rj_cleanup_complete r then BcComplete else BcUnknown) ((fun _ => StoreFailure) <$> rj_persistence_error r).




End ProgressFacts.

(** ** Theorems *)
(** C33: however often it fails, a frozen invocation tries at most the steps of
    one chain of its own policy, in order and without repetition: no candidate
    (nor the source) is tried twice, none has another posture than the source,
    and each move was allowed by a failure that excludes prompt acceptance and
    effects, with cleanup complete, nothing persisted wrongly and no
    cancellation. *)
Theorem fallback_walk_bounded now chains source inv inputs :
  invocation_freeze now chains source = Some inv ->
  Forall (fun x => replay_safe (in_failure x) (in_canceled x)) (take (length (walk inv inputs)) inputs) /\
  (walk inv inputs = [] \/
   exists ch, ch ∈ chains /\ ch_source ch = source /\ walk inv inputs `prefix_of` ch_steps ch /\
     NoDup (selector <$> source :: walk inv inputs) /\
     Forall (fun c => cd_posture c = cd_posture source) (walk inv inputs)).
Proof.
  intros (scope & _ & ->)%fmap_Some. split; [apply walk_safe|].
  destruct inputs as [|x inputs]; [by left|]. simpl.
  destruct (transition _ _ _ _ _ _) as [[inv' c]|] eqn:Et; [right|by left].
  apply transition_ok in Et as (_ & (i & ch & [[Hi _] (Hch & Hs & [Hn Hp]) Hst Hpos (Hcs & _)]) & _).
  simpl in *. exists ch.
  assert (c :: walk inv' inputs `prefix_of` ch_steps ch) as [k Hk].
  { rewrite <- (drop_0 (ch_steps ch)), (drop_S _ c) by done. apply prefix_cons.
    pose proof (walk_prefix inv' inputs i ch Hi) as Hw. rewrite Hpos in Hw. apply Hw. by rewrite Hcs. }
  split_and!; [by eapply list_elem_of_lookup_2|done|by exists k|..].
  - rewrite Hs, Hk in Hn.
    change (NoDup (selector <$> (source :: c :: walk inv' inputs) ++ k)) in Hn.
    rewrite fmap_app in Hn. by apply NoDup_app in Hn as [Hn _].
  - rewrite Hs, Hk in Hp. by apply Forall_app in Hp as [Hp _].
Qed.

(** C34: a valid progress record never shows a prompt that could have been
    replayed. Visits have distinct accounting rows and contexts; positions
    start at the source, never go back and move one step at a time; a later
    visit at the same position follows a rejection whose cleanup completed;
    a move to the next candidate follows a dispatched visit whose rejection
    excludes acceptance and effects, and stays inside the selected chain. *)
Theorem progress_replay_safe {Usage} (p : CandidateProgress Usage) :
  progress_validate p = Ok tt ->
  NoDup (vs_accounting_id <$> pg_visits p) /\ NoDup (vs_cold_context <$> pg_visits p) /\
  (forall v, pg_visits p !! 0%nat = Some v -> vs_position v = 0%nat) /\
  (forall i v v', pg_visits p !! i = Some v -> pg_visits p !! S i = Some v' -> link p v v') /\
  (forall i j v v', (i <= j)%nat -> pg_visits p !! i = Some v -> pg_visits p !! j = Some v' ->
     (vs_position v <= vs_position v' <= vs_position v + (j - i))%nat).
Proof.
  intros Hp. pose proof (progress_links p Hp) as Hl. apply progress_validate_ok in Hp as (_ & Hv & _).
  pose proof Hv as (Hi & _ & Hc & _)%validate_visits_unique. split_and!; [done|done| |done|].
  - intros v H0. destruct (pg_visits p) as [|x vs]; [done|]. simpl in H0. simplify_eq.
    by apply validate_visits_cons in Hv as (_ & _ & ? & _).
  - intros i j v v' Hij Hi' Hj. apply (links_positions p _ Hl (j - i) i); [done|].
    by replace (i + (j - i))%nat with j by lia.
Qed.

(** Whatever sequence of publications the store accepts, evidence is only
    added: every recorded visit keeps its candidate, accounting row, owner and
    context, its phase never goes back, a recorded rejection never changes, the
    policy and the chosen chain stay the same, and nothing follows a terminal
    record. *)
Theorem publications_keep_evidence {Usage} (usage_eqb : Usage -> Usage -> bool) (a b : CandidateProgress Usage) :
  rtc (fun old new => follows usage_eqb new old = Ok tt) a b ->
  progress_le a b /\ (is_Some (pg_terminal a) -> b = a).
Proof.
  induction 1 as [a|a b c Hab _ IH]; [done|].
  apply follows_le in Hab as (Hle & Ht & _). destruct IH as [Hbc _]. split; [by trans b|].
  rewrite Ht. by intros [? ?].
Qed.


(** ** Witnesses *)
Definition wit_dir : DirectoryIdentity := mkDirectory "/w" (Some 1) (Some 2) (Some (3, 4)).
Definition wit_now : observe := fun _ => Some wit_dir.
Definition wit_posture : CandidatePosture := mkPosture "acp" None "/w" "/w" None [] None "none" [].
Definition wit_source : FallbackCandidate := mkCandidate "a" "m1" wit_posture.
Definition wit_step : FallbackCandidate := mkCandidate "b" "m2" wit_posture.
Definition wit_chain : FrozenFallbackChain := mkChain "c1" wit_source {[FcQuotaExhausted]} [wit_step].
Definition wit_scope : Scope := [("/w", wit_dir); ("/w", wit_dir)]%string.
Definition wit_invocation : FrozenFallbackInvocation := mkInvocation [wit_chain] wit_source None AtSource wit_scope.
Definition wit_rejection : CandidateRejection :=
  mkRejection (mkDiagnostic ClsQuotaExhausted Fatal false) "" true true true None false.
Definition wit_visit (phase : CandidatePhase) (r : option CandidateRejection) : CandidateVisit :=
  mkVisit 0 "row-1" (mkAttemptIdentity "e" "t" 0 None) "ctx-1" phase r.
Definition wit_progress (visits : list CandidateVisit) : CandidateProgress unit :=
  mkProgress 1 [wit_chain] wit_source [wit_dir; wit_dir] None 0 visits None.
Definition wit_input : Input := mkInput (live_failure wit_rejection) false (fun c => Ok c) wit_now wit_now.

Example fallback_walk_bounded_witness :
  walk wit_invocation [wit_input; wit_input] = [wit_step] /\
  NoDup (selector <$> wit_source :: walk wit_invocation [wit_input; wit_input]).
Proof.
  split; [by vm_compute|].
  destruct (fallback_walk_bounded wit_now [wit_chain] wit_source wit_invocation [wit_input; wit_input])
    as [_ [E|(ch & _ & _ & _ & Hn & _)]]; [by vm_compute|by vm_compute in E|exact Hn].
Defined.

Example progress_replay_safe_witness :
  NoDup (vs_cold_context <$> pg_visits (wit_progress [wit_visit Polled (Some wit_rejection)])).
Proof. apply (progress_replay_safe (wit_progress [wit_visit Polled (Some wit_rejection)])). by vm_compute. Defined.

Example publications_keep_evidence_witness :
  progress_le (wit_progress [wit_visit PollFenced None]) (wit_progress [wit_visit Polled (Some wit_rejection)]).
Proof.
  apply (publications_keep_evidence (fun _ _ => true)).
  eapply rtc_l; [|apply rtc_refl]. by vm_compute.
Defined.

