(* ===== verification/FlightJournal.v ===== *)
(** * The journal of a retained resource flight

    Vocabulary and durable accounting of [bridge-core/src/resource_flight.rs] and
    the first part of [retained_resource_flight.rs]: keys and identities of
    shared resources, journal events, the slot accounting that keeps the rows of
    a destructive lifecycle appendable, and the journal itself (the in-memory
    implementation, whose every method is one critical section). The file
    journal answers the same or fails with an I/O error; a failing call that
    writes leaves the journal as it was, or, when only a sync after the write
    failed, with the write visible to every later read. *)
From S2P Require Import Prelude Domain ExecutionPolicy.
Open Scope Z_scope.
Open Scope bridge_scope.

(** ** Resources ([resource_flight.rs]) *)
Record ProcessStartIdentity := mkProcessStart {
  ps_pid : Z; ps_start_time_ticks : Z; ps_executable_sha256 : option string }.
#[global] Instance process_start_identity_eq_dec : EqDecision ProcessStartIdentity.
Proof. solve_decision. Defined.

Inductive ResourceIdentity :=
| AcpProcess (generation spawn_nonce_sha256 : string) (pid : Z) (pgid : option Z) (immutable_start : ProcessStartIdentity)
| ManagedContainer (generation runtime immutable_container_id ownership_labels_digest : string)
| RemoteRequest (request_id : string).
#[global] Instance resource_identity_eq_dec : EqDecision ResourceIdentity.
Proof. solve_decision. Defined.

Inductive ResourceActionDisposition := ActComplete | ActPartial | ActFailed | ActUnknown | ActNotNeeded.
#[global] Instance resource_action_disposition_eq_dec : EqDecision ResourceActionDisposition.
Proof. solve_decision. Defined.
Record ResourceActionResult := mkActionResult {
  rr_disposition : ResourceActionDisposition;
  rr_duration_ms : Z;
  rr_recovery_owner : option RecoveryOwner;
  rr_cause : option NodeCause }.
#[global] Instance resource_action_result_eq_dec : EqDecision ResourceActionResult.
Proof. solve_decision. Defined.

(** ** Owners, keys, events ([retained_resource_flight.rs]) *)
Record FlightOwner := mkFlightOwner { node_id : string; owner_key : string }.
#[global] Instance flight_owner_eq_dec : EqDecision FlightOwner.
Proof. solve_decision. Defined.
#[global] Instance flight_owner_countable : Countable FlightOwner.
Proof.
  refine (inj_countable' (fun o => (node_id o, owner_key o)) (fun '(n, k) => mkFlightOwner n k) _). by intros [].
Defined.

Inductive FlightKey :=
| AcpGeneration (generation : string)
| ContainerGeneration (generation : string)
| DedicatedRequest (request_id : string).
#[global] Instance flight_key_eq_dec : EqDecision FlightKey.
Proof. solve_decision. Defined.
#[global] Instance flight_key_countable : Countable FlightKey.
Proof.
  refine (inj_countable'
    (fun k => match k with AcpGeneration g => (0%nat, g) | ContainerGeneration g => (1%nat, g) | DedicatedRequest r => (2%nat, r) end)
    (fun '(n, s) => match n with 0%nat => AcpGeneration s | 1%nat => ContainerGeneration s | _ => DedicatedRequest s end) _).
  by intros [].
Defined.
Definition key_from_identity (i : ResourceIdentity) : FlightKey :=
  match i with
  | AcpProcess generation _ _ _ _ => AcpGeneration generation
  | ManagedContainer generation _ _ _ => ContainerGeneration generation
  | RemoteRequest request_id => DedicatedRequest request_id
  end.

Record ActionIntent := mkIntent { in_initiator : FlightOwner; in_capability_digest : string; in_cause : option NodeCause }.
Record ContainerRemoval := mkRemoval {
  rm_immutable_container_id : string; rm_noncanonical_labels : list (string * string);
  rm_removed : bool; rm_failure_code : option string }.
Record ProcessSignal := mkSignal {
  sg_pid : Z; sg_expected_start_time_ticks : Z; sg_signal : Z; sg_return_code : Z; sg_errno : option Z }.
Inductive BindingStage := StSpawn | StImmutableStart | StJournalBinding.

Inductive JournalEvent :=
| EvFlightReserved (key : FlightKey) (attempt_id : string)
| EvOwnerAttached (owner : FlightOwner)
| EvOwnerDetached (owner : FlightOwner)
| EvProcessLifecycleReserved (slots : nat)
| EvProcessTreeCaptured (identity : ResourceIdentity)
| EvContainerIdentityCaptured (identity : ResourceIdentity)
| EvRemoteRequestIdentityCaptured (identity : ResourceIdentity) (owner : FlightOwner)
| EvProcessBindingFailed (stage : BindingStage) (pid : option Z)
| EvIntentJournaled (intent : ActionIntent) (owner_snapshot : list FlightOwner) (slots : nat)
| EvCollateralDiscovered (owner : FlightOwner)
| EvDispatchStarted
| EvProcessSignalsObserved (observations : list ProcessSignal)
| EvGuardTransferred (recovery_owner : RecoveryOwner) (deadline_ms : Z)
| EvContainerRemovalObserved (observation : ContainerRemoval)
| EvSettled (result : ResourceActionResult).

Definition LIFECYCLE_SLOTS : nat := 4.
Definition PROCESS_LIFECYCLE_SLOTS : nat := 7.

Definition reserved (e : JournalEvent) : nat :=
  match e with
  | EvFlightReserved (DedicatedRequest _) _ => LIFECYCLE_SLOTS
  | EvProcessLifecycleReserved n => n
  | EvIntentJournaled _ _ n => n
  | _ => 0
  end.
Definition requires_reserved_slot (e : JournalEvent) : bool :=
  match e with
  | EvDispatchStarted | EvProcessSignalsObserved _ | EvContainerRemovalObserved _
  | EvGuardTransferred _ _ | EvSettled _ => true
  | _ => false
  end.
Definition consumes_when_present (e : JournalEvent) : bool :=
  match e with
  | EvProcessTreeCaptured _ | EvContainerIdentityCaptured _ | EvRemoteRequestIdentityCaptured _ _
  | EvProcessBindingFailed _ _ | EvIntentJournaled _ _ _ => true
  | EvOwnerDetached owner => String.eqb (node_id owner) "process-spawn"
  | _ => false
  end.
Definition consumed (slots : nat) (e : JournalEvent) : nat :=
  if requires_reserved_slot e || (negb (slots =? 0)%nat && consumes_when_present e) then 1 else 0.

(** Sequence numbers and lengths are unbounded here: a journal would need
    [2^64] rows to tell the difference. *)
Record JournalRecord := mkRecord { rec_schema_version : Z; rec_sequence : nat; rec_event : JournalEvent }.
Definition JOURNAL_SCHEMA : Z := 1.
Inductive JournalError := JFull | JSequence | JAccounting | JSchema | JIo.
#[global] Instance journal_error_eq_dec : EqDecision JournalError.
Proof. solve_decision. Defined.

(** [outstanding]: replay the rows, [index] rows in. *)
Fixpoint outstanding_loop (index slots : nat) (records : list JournalRecord) : result nat JournalError :=
  match records with
  | [] => Ok slots
  | r :: records' =>
      if negb (rec_schema_version r =? JOURNAL_SCHEMA) then Err JSchema
      else if negb (rec_sequence r =? index + 1)%nat then Err JSequence
      else
        let before := slots in
        let slots := (slots + reserved (rec_event r))%nat in
        let c := consumed before (rec_event r) in
        if (slots <? c)%nat then Err JAccounting
        else outstanding_loop (S index) (slots - c) records'
  end.
Definition outstanding (records : list JournalRecord) : result nat JournalError := outstanding_loop 0 0 records.

Definition is_settled (e : JournalEvent) : option ResourceActionResult :=
  match e with EvSettled r => Some r | _ => None end.
Fixpoint find_settled (records : list JournalRecord) : option ResourceActionResult :=
  match records with
  | [] => None
  | r :: records' => match is_settled (rec_event r) with Some res => Some res | None => find_settled records' end
  end.
Definition settled_result (records : list JournalRecord) : option ResourceActionResult :=
  find_settled (reverse records).

Definition admission_check (records : list JournalRecord) (cap : nat) (record : JournalRecord)
    : result unit JournalError :=
  let? slots := outstanding records in
  if negb (rec_schema_version record =? JOURNAL_SCHEMA) then Err JSchema
  else if negb (rec_sequence record =? length records + 1)%nat then Err JSequence
  else
    let c := consumed slots (rec_event record) in
    if (c =? 1)%nat && (slots =? 0)%nat then Err JAccounting
    else if (slots + reserved (rec_event record) <? c)%nat then Err JAccounting
    else
      let slots_after := (slots + reserved (rec_event record) - c)%nat in
      if (cap <? length records + 1 + slots_after)%nat then Err JFull else Ok tt.

(** ** The journal *)
Record Reservation := mkReservation {
  rv_schema_version : Z; rv_key : FlightKey; rv_attempt_id : string; rv_flight_id : string }.
#[global] Instance reservation_eq_dec : EqDecision Reservation.
Proof. solve_decision. Defined.

Record Journal := mkJournal {
  jn_cap : nat;
  jn_records : gmap string (list JournalRecord);
  jn_reservations : gmap FlightKey Reservation }.

Definition rows (j : Journal) (id : string) : list JournalRecord := default [] (jn_records j !! id).
Definition with_rows (j : Journal) (id : string) (rs : list JournalRecord) : Journal :=
  mkJournal (jn_cap j) (<[id := rs]> (jn_records j)) (jn_reservations j).

Inductive ReservationOutcome := Created | Existing (r : Reservation).
Definition reserve_flight (r : Reservation) (j : Journal) : result (ReservationOutcome * Journal) JournalError :=
  if negb (rv_schema_version r =? JOURNAL_SCHEMA) then Err JSchema
  else match jn_reservations j !! rv_key r with
       | Some existing => Ok (Existing existing, j)
       | None => Ok (Created, mkJournal (jn_cap j) (jn_records j) (<[rv_key r := r]> (jn_reservations j)))
       end.

Definition rollback_empty_reservation (r : Reservation) (j : Journal) : bool * Journal :=
  if negb (bool_decide (jn_reservations j !! rv_key r = Some r)) || negb (bool_decide (rows j (rv_flight_id r) = []))
  then (false, j)
  else (true, mkJournal (jn_cap j) (jn_records j) (delete (rv_key r) (jn_reservations j))).

Definition append (id : string) (record : JournalRecord) (j : Journal) : result Journal JournalError :=
  match settled_result (rows j id) with
  | Some _ => Err JAccounting
  | None =>
      let? _ := admission_check (rows j id) (jn_cap j) record in
      Ok (with_rows j id (rows j id ++ [record]))
  end.

Inductive TerminalOutcome := Appended (records : list JournalRecord) | AlreadySettled (existing : ResourceActionResult).
Definition append_terminal (id : string) (result : ResourceActionResult) (j : Journal)
    : Prelude.result (TerminalOutcome * Journal) JournalError :=
  match settled_result (rows j id) with
  | Some existing => Ok (AlreadySettled existing, j)
  | None =>
      let record := mkRecord JOURNAL_SCHEMA (length (rows j id) + 1) (EvSettled result) in
      let? _ := admission_check (rows j id) (jn_cap j) record in
      Ok (Appended (rows j id ++ [record]), with_rows j id (rows j id ++ [record]))
  end.

Definition records (id : string) (j : Journal) : result (list JournalRecord) JournalError :=
  let? _ := outstanding (rows j id) in Ok (rows j id).

(** ** Failing calls of the file journal

    [FileResourceFlightJournal] writes a row, syncs the file, then syncs the
    directory; it links a reservation, or removes one, before it syncs the
    directory. An error of a sync comes after the change. *)
Record IoFault := mkIoFault { if_error : JournalError; if_written : bool }.
Definition io_error {A} (io : option IoFault) (m : result A JournalError) : result A JournalError :=
  match io with Some x => Err (if_error x) | None => m end.
Definition after_fault (x : IoFault) (j j' : Journal) : Journal := if if_written x then j' else j.

Definition append_io (io : option IoFault) (id : string) (record : JournalRecord) (j : Journal)
    : Journal * result unit JournalError :=
  match append id record j, io with
  | Ok j', None => (j', Ok tt)
  | Err e, None => (j, Err e)
  | Ok j', Some x => (after_fault x j j', Err (if_error x))
  | Err _, Some x => (j, Err (if_error x))
  end.
Definition append_terminal_io (io : option IoFault) (id : string) (result : ResourceActionResult) (j : Journal)
    : Journal * Prelude.result TerminalOutcome JournalError :=
  match append_terminal id result j, io with
  | Ok (o, j'), None => (j', Ok o)
  | Err e, None => (j, Err e)
  | Ok (_, j'), Some x => (after_fault x j j', Err (if_error x))
  | Err _, Some x => (j, Err (if_error x))
  end.
Definition reserve_flight_io (io : option IoFault) (r : Reservation) (j : Journal)
    : Journal * result ReservationOutcome JournalError :=
  match reserve_flight r j, io with
  | Ok (o, j'), None => (j', Ok o)
  | Err e, None => (j, Err e)
  | Ok (_, j'), Some x => (after_fault x j j', Err (if_error x))
  | Err _, Some x => (j, Err (if_error x))
  end.
Definition rollback_io (io : option IoFault) (r : Reservation) (j : Journal) : Journal * result bool JournalError :=
  let (b, j') := rollback_empty_reservation r j in
  match io with
  | None => (j', Ok b)
  | Some x => (after_fault x j j', Err (if_error x))
  end.

(** ** Accounting *)
Lemma outstanding_loop_app n s rs1 rs2 :
  outstanding_loop n s (rs1 ++ rs2) =
  (let? s' := outstanding_loop n s rs1 in outstanding_loop (n + length rs1) s' rs2).
Proof.
  revert n s. induction rs1 as [|r rs1 IH]; intros n s; simpl; [by rewrite Nat.add_0_r|].
  repeat (case_match; [done|]). rewrite IH. by replace (n + S (length rs1))%nat with (S n + length rs1)%nat by lia.
Qed.

Lemma outstanding_snoc rs r s :
  outstanding rs = Ok s -> rec_schema_version r = JOURNAL_SCHEMA -> rec_sequence r = S (length rs) ->
  (consumed s (rec_event r) <= s + reserved (rec_event r))%nat ->
  outstanding (rs ++ [r]) = Ok (s + reserved (rec_event r) - consumed s (rec_event r))%nat.
Proof.
  unfold outstanding. intros Hs Hv Hq Hc. rewrite outstanding_loop_app, Hs. cbn [result_bind outstanding_loop].
  rewrite Hv, Z.eqb_refl, Hq. replace (0 + length rs + 1)%nat with (S (length rs)) by lia. rewrite Nat.eqb_refl.
  cbn [negb]. by rewrite (proj2 (Nat.ltb_ge _ _) Hc).
Qed.

Lemma settled_result_snoc rs r :
  settled_result (rs ++ [r]) = match is_settled (rec_event r) with Some x => Some x | None => settled_result rs end.
Proof. unfold settled_result. by rewrite reverse_snoc. Qed.

(** The rows of one flight: replayable, with room for every reserved slot, and
    closed by their settlement. *)
Record rows_ok (cap : nat) (rs : list JournalRecord) : Prop := {
  ro_room : exists s, outstanding rs = Ok s /\ (rs = [] \/ (length rs + s <= cap)%nat);
  ro_closed : forall rs' r rs'', rs = rs' ++ r :: rs'' -> is_Some (is_settled (rec_event r)) -> rs'' = [] }.

Lemma rows_ok_nil cap : rows_ok cap [].
Proof. split; [exists 0%nat; by split; [|left]|]. by intros []. Qed.

Lemma settled_none rs r : settled_result rs = None -> r ∈ rs -> is_settled (rec_event r) = None.
Proof.
  induction rs as [|x rs IH] using rev_ind; [set_solver|]. rewrite settled_result_snoc.
  destruct (is_settled (rec_event x)) eqn:Ex; [done|]. intros Hs [Hin|Hin]%elem_of_app; [by apply IH|].
  apply list_elem_of_singleton in Hin as ->. done.
Qed.

Lemma admission_check_ok rs cap r :
  admission_check rs cap r = Ok tt ->
  exists s, outstanding rs = Ok s /\ rec_sequence r = S (length rs) /\
    outstanding (rs ++ [r]) = Ok (s + reserved (rec_event r) - consumed s (rec_event r))%nat /\
    (length (rs ++ [r]) + (s + reserved (rec_event r) - consumed s (rec_event r)) <= cap)%nat /\
    (requires_reserved_slot (rec_event r) = true -> s <> 0%nat).
Proof.
  unfold admission_check. destruct (outstanding rs) as [s|] eqn:Es; [|done]. cbn [result_bind].
  destruct (Z.eqb_spec (rec_schema_version r) JOURNAL_SCHEMA) as [Hv|]; [|done].
  destruct (Nat.eqb_spec (rec_sequence r) (length rs + 1)) as [Hq|]; [|done]. cbn [negb].
  destruct ((consumed s (rec_event r) =? 1)%nat && (s =? 0)%nat) eqn:Ez; [done|].
  destruct (Nat.ltb_spec (s + reserved (rec_event r)) (consumed s (rec_event r))); [done|].
  destruct (Nat.ltb_spec cap (length rs + 1 + (s + reserved (rec_event r) - consumed s (rec_event r)))); [done|].
  intros _. exists s. split_and!; [done|lia|apply outstanding_snoc; [done|done|lia|lia]|rewrite length_app; simpl; lia|].
  intros Hr ->. unfold consumed in Ez. by rewrite Hr in Ez.
Qed.

Lemma rows_ok_snoc cap rs r :
  rows_ok cap rs -> settled_result rs = None -> admission_check rs cap r = Ok tt -> rows_ok cap (rs ++ [r]).
Proof.
  intros _ Hn (s & Hs & Hq & Hs' & Hl & _)%admission_check_ok. split; [eexists; split; [done|by right]|].
  intros rs' x rs'' E Hx. destruct rs'' as [|y rs'' _] using rev_ind; [done|].
  rewrite app_comm_cons, app_assoc in E. apply app_inj_tail in E as [-> _].
  rewrite (settled_none _ x Hn) in Hx; [by destruct Hx|set_solver].
Qed.

(** A slot kept back is room kept: rows that need one are always admitted. *)
Lemma reserved_row_admitted cap rs s e :
  rows_ok cap rs -> outstanding rs = Ok (S s) -> requires_reserved_slot e = true ->
  admission_check rs cap (mkRecord JOURNAL_SCHEMA (S (length rs)) e) = Ok tt.
Proof.
  intros [(s' & Hs' & Hl) _] Hs Hr. rewrite Hs in Hs'. injection Hs' as <-.
  assert (reserved e = 0%nat) as H0 by (destruct e; done).
  unfold admission_check. rewrite Hs. cbn [result_bind rec_schema_version rec_sequence rec_event].
  rewrite Z.eqb_refl, Nat.add_1_r, Nat.eqb_refl. cbn [negb]. unfold consumed. rewrite Hr, H0. simpl.
  destruct Hl as [->|Hl]; [done|]. rewrite (proj2 (Nat.ltb_ge _ _)); [done|lia].
Qed.

Definition journal_ok (j : Journal) (id : string) : Prop := rows_ok (jn_cap j) (rows j id).

Lemma rows_with j id rs : rows (with_rows j id rs) id = rs.
Proof. unfold rows, with_rows. simpl. by rewrite lookup_insert_eq. Qed.
Lemma rows_with_ne j id id' rs : id <> id' -> rows (with_rows j id rs) id' = rows j id'.
Proof. intros Hne. unfold rows, with_rows. simpl. by rewrite lookup_insert_ne. Qed.

Lemma append_ok id r j j' :
  append id r j = Ok j' ->
  settled_result (rows j id) = None /\ j' = with_rows j id (rows j id ++ [r]) /\
  admission_check (rows j id) (jn_cap j) r = Ok tt.
Proof.
  unfold append. destruct (settled_result (rows j id)); [done|].
  destruct (admission_check _ _ _) as [[]|]; simpl; [|done]. by intros [= <-].
Qed.

Lemma append_journal_ok id r j j' : journal_ok j id -> append id r j = Ok j' -> journal_ok j' id.
Proof.
  intros Hj (Hn & -> & Ha)%append_ok. unfold journal_ok. rewrite rows_with. by apply rows_ok_snoc.
Qed.

Lemma append_terminal_ok id res j out j' :
  append_terminal id res j = Ok (out, j') ->
  (exists x, settled_result (rows j id) = Some x /\ out = AlreadySettled x /\ j' = j) \/
  (settled_result (rows j id) = None /\
   let r := mkRecord JOURNAL_SCHEMA (length (rows j id) + 1) (EvSettled res) in
   out = Appended (rows j id ++ [r]) /\ j' = with_rows j id (rows j id ++ [r]) /\
   admission_check (rows j id) (jn_cap j) r = Ok tt).
Proof.
  unfold append_terminal. destruct (settled_result (rows j id)) as [x|]; [intros [= <- <-]; left; by eauto|].
  destruct (admission_check _ _ _) as [[]|] eqn:Ea; simpl; [|done]. intros [= <- <-]. by right.
Qed.
