(* ===== verification/ResourceFlight.v ===== *)
(** * Retained resource flights ([bridge-core/src/retained_resource_flight.rs])

    A flight owns the destructive cleanup of one shared resource (an agent
    process, a container, a remote request): owners attach, admission closes,
    the intent is journaled, the action is dispatched, and one result is settled
    and told to every owner. The live flight works under its transition mutex; a
    later process can settle a dead flight from its journal alone. Every method
    is one critical section over the flight state and the journal; a program of
    sections is written in a state and error monad whose state survives an
    error, as it does in the code. A journal call may also fail with an I/O
    error, before or after its row is in the file; the fault, if any, is an
    argument. *)
From S2P Require Import Prelude Domain ExecutionPolicy FlightJournal.
Open Scope Z_scope.
Open Scope bridge_scope.

(** ** State *)
Inductive FlightState :=
| FsOpen
| FsAdmissionClosed
| FsIntentJournaled
| FsSignaling
| FsSettled (result : ResourceActionResult).

Inductive FlightError :=
| FeJournal (e : JournalError)
| FeInvalidOwner
| FeAdmissionClosed
| FeOwnerNotAttached
| FeTransitionRefused (state : FlightState)
| FeKeyMismatch
| FeAttemptMismatch
| FeReservationUnavailable (flight_id : string)
| FeTerminalRefusal (e : JournalError).

(** The [State] behind the transition mutex. *)
Record Flight := mkFlight {
  fl_state : FlightState;
  fl_owners : gset FlightOwner;
  fl_snapshot : gset FlightOwner;
  fl_collateral : gset FlightOwner;
  fl_delivered : gset FlightOwner;
  fl_process_reserved : bool;
  fl_request_reserved : bool;
  fl_sequence : nat;
  fl_next_guard : Z;
  fl_guards : gset Z;
  fl_refusal : option JournalError }.

Definition initial_flight : Flight :=
  mkFlight FsOpen ∅ ∅ ∅ ∅ false false 1 1 ∅ None.

Definition set_state (st : FlightState) (f : Flight) : Flight :=
  mkFlight st (fl_owners f) (fl_snapshot f) (fl_collateral f) (fl_delivered f) (fl_process_reserved f)
    (fl_request_reserved f) (fl_sequence f) (fl_next_guard f) (fl_guards f) (fl_refusal f).
Definition set_sequence (n : nat) (f : Flight) : Flight :=
  mkFlight (fl_state f) (fl_owners f) (fl_snapshot f) (fl_collateral f) (fl_delivered f) (fl_process_reserved f)
    (fl_request_reserved f) n (fl_next_guard f) (fl_guards f) (fl_refusal f).
Definition set_owners (os : gset FlightOwner) (f : Flight) : Flight :=
  mkFlight (fl_state f) os (fl_snapshot f) (fl_collateral f) (fl_delivered f) (fl_process_reserved f)
    (fl_request_reserved f) (fl_sequence f) (fl_next_guard f) (fl_guards f) (fl_refusal f).
Definition set_snapshot (os : gset FlightOwner) (f : Flight) : Flight :=
  mkFlight (fl_state f) (fl_owners f) os (fl_collateral f) (fl_delivered f) (fl_process_reserved f)
    (fl_request_reserved f) (fl_sequence f) (fl_next_guard f) (fl_guards f) (fl_refusal f).
Definition set_collateral (os : gset FlightOwner) (f : Flight) : Flight :=
  mkFlight (fl_state f) (fl_owners f) (fl_snapshot f) os (fl_delivered f) (fl_process_reserved f)
    (fl_request_reserved f) (fl_sequence f) (fl_next_guard f) (fl_guards f) (fl_refusal f).
Definition set_delivered (os : gset FlightOwner) (f : Flight) : Flight :=
  mkFlight (fl_state f) (fl_owners f) (fl_snapshot f) (fl_collateral f) os (fl_process_reserved f)
    (fl_request_reserved f) (fl_sequence f) (fl_next_guard f) (fl_guards f) (fl_refusal f).
Definition set_reserved (process request : bool) (f : Flight) : Flight :=
  mkFlight (fl_state f) (fl_owners f) (fl_snapshot f) (fl_collateral f) (fl_delivered f) process
    request (fl_sequence f) (fl_next_guard f) (fl_guards f) (fl_refusal f).
Definition set_guards (next : Z) (gs : gset Z) (f : Flight) : Flight :=
  mkFlight (fl_state f) (fl_owners f) (fl_snapshot f) (fl_collateral f) (fl_delivered f) (fl_process_reserved f)
    (fl_request_reserved f) (fl_sequence f) next gs (fl_refusal f).
Definition set_refusal (e : JournalError) (f : Flight) : Flight :=
  mkFlight (fl_state f) (fl_owners f) (fl_snapshot f) (fl_collateral f) (fl_delivered f) (fl_process_reserved f)
    (fl_request_reserved f) (fl_sequence f) (fl_next_guard f) (fl_guards f) (Some e).

(** ** Publication *)
Record Aggregation := mkAggregation {
  ag_owner : FlightOwner; ag_flight_id : string; ag_result : ResourceActionResult;
  ag_collateral : CollateralDisposition; ag_affected_owner_count : Z }.
Definition collateral_disposition (recipient_count : nat) (result : ResourceActionResult) : CollateralDisposition :=
  if (recipient_count <? 2)%nat then ClNone
  else match rr_disposition result with
       | ActComplete => ClComplete
       | ActPartial | ActFailed => ClPartial
       | ActUnknown => ClUnknown
       | ActNotNeeded => ClNone
       end.
Definition publish_result (id : string) (recipients : list FlightOwner) (result : ResourceActionResult) : list Aggregation :=
  (fun o => mkAggregation o id result (collateral_disposition (length recipients) result)
              (Z.of_nat (length recipients))) <$> recipients.

(** The flight, the journal it shares with recovery, and what the publisher was told. *)
Record Sys := mkSys {
  flight : Flight;
  journal : Journal;
  published : list Aggregation }.

(** ** The monad of sections *)
Definition M (A : Type) : Type := Sys -> Sys * result A FlightError.
Definition ret {A} (a : A) : M A := fun s => (s, Ok a).
Definition fail {A} (e : FlightError) : M A := fun s => (s, Err e).
Definition bind {A B} (m : M A) (k : A -> M B) : M B :=
  fun s => match m s with (s', Ok a) => k a s' | (s', Err e) => (s', Err e) end.
Definition get : M Flight := fun s => (s, Ok (flight s)).
Definition modify (g : Flight -> Flight) : M unit :=
  fun s => (mkSys (g (flight s)) (journal s) (published s), Ok tt).
(** [if let Err(error) = m { handler }]. *)
Definition catch {A} (m : M A) (h : FlightError -> M A) : M A :=
  fun s => match m s with (s', Ok a) => (s', Ok a) | (s', Err e) => h e s' end.
Notation "x <- m ;; k" := (bind m (fun x => k)) (at level 100, m at next level, right associativity) : bridge_scope.
Notation "m ;;; k" := (bind m (fun _ => k)) (at level 100, right associativity) : bridge_scope.

Definition Fault : Type := nat -> option IoFault.
Definition no_fault : Fault := fun _ => None.
(** No call fails after its row was written. *)
Definition unwritten (io : option IoFault) : Prop := forall x, io = Some x -> if_written x = false.
Definition clean (io : Fault) : Prop := forall n, unwritten (io n).

Section Operations.
Context (id attempt : string) (key : FlightKey).

Definition flight_append (io : option IoFault) (e : JournalEvent) : M unit :=
  fun s =>
    match append_io io id (mkRecord JOURNAL_SCHEMA (fl_sequence (flight s)) e) (journal s) with
    | (j', Ok _) => (mkSys (set_sequence (S (fl_sequence (flight s))) (flight s)) j' (published s), Ok tt)
    | (j', Err err) => (mkSys (flight s) j' (published s), Err (FeJournal err))
    end.

Definition refused {A} (f : Flight) : M A := fail (FeTransitionRefused (fl_state f)).
Definition is_open (f : Flight) : bool := match fl_state f with FsOpen => true | _ => false end.
Definition is_signaling (f : Flight) : bool := match fl_state f with FsSignaling => true | _ => false end.

(** [adopt_durable_terminal_locked]. *)
Definition adopt (io : option IoFault) : M (option ResourceActionResult) :=
  fun s =>
    match io_error io (records id (journal s)) with
    | Err err => (mkSys (set_refusal err (flight s)) (journal s) (published s), Err (FeTerminalRefusal err))
    | Ok rs =>
        match settled_result rs with
        | None => (s, Ok None)
        | Some res =>
            (mkSys (set_state (FsSettled res) (set_sequence (length rs + 1) (flight s))) (journal s) (published s),
             Ok (Some res))
        end
    end.

(** The section after [FlightReserved] is what [create] leaves. *)
Definition create (io : Fault) : M unit :=
  modify (fun f => set_reserved (fl_process_reserved f)
                     (match key with DedicatedRequest _ => true | _ => false end) f) ;;;
  flight_append (io 0%nat) (EvFlightReserved key attempt).

Definition attach_owner (io : Fault) (owner : FlightOwner) : M bool :=
  f <- get ;;
  if negb (is_open f) then fail FeAdmissionClosed
  else if bool_decide (owner ∈ fl_owners f) then ret false
  else
    flight_append (io 0%nat) (EvOwnerAttached owner) ;;;
    modify (fun f => set_owners ({[owner]} ∪ fl_owners f) f) ;;; ret true.

Definition attach_owner_legacy (owner : FlightOwner) : M bool :=
  f <- get ;;
  if negb (is_open f) then fail FeAdmissionClosed
  else modify (fun f => set_owners ({[owner]} ∪ fl_owners f) f) ;;; ret (negb (bool_decide (owner ∈ fl_owners f))).

Definition detach_owner (io : Fault) (owner : FlightOwner) : M bool :=
  f <- get ;;
  if negb (is_open f) then fail FeAdmissionClosed
  else if negb (bool_decide (owner ∈ fl_owners f)) then ret false
  else
    modify (fun f => set_owners (fl_owners f ∖ {[owner]}) f) ;;;
    catch (flight_append (io 0%nat) (EvOwnerDetached owner))
          (fun e => modify (fun f => set_owners ({[owner]} ∪ fl_owners f) f) ;;; fail e) ;;;
    ret true.

Definition detach_owner_legacy (owner : FlightOwner) : M bool :=
  f <- get ;;
  if negb (is_open f) then fail FeAdmissionClosed
  else modify (fun f => set_owners (fl_owners f ∖ {[owner]}) f) ;;; ret (bool_decide (owner ∈ fl_owners f)).

Definition reserve_process_lifecycle (io : Fault) : M unit :=
  f <- get ;;
  if negb (is_open f) then fail FeAdmissionClosed
  else if fl_process_reserved f then ret tt
  else
    flight_append (io 0%nat) (EvProcessLifecycleReserved PROCESS_LIFECYCLE_SLOTS) ;;;
    modify (fun f => set_reserved true (fl_request_reserved f) f).

Definition close_admission : M (list FlightOwner) :=
  f <- get ;;
  if negb (is_open f) then refused f
  else
    modify (fun f => set_state FsAdmissionClosed (set_snapshot (fl_owners f) f)) ;;;
    ret (elements (fl_owners f)).

Definition journal_intent (io : Fault) (intent : ActionIntent) : M unit :=
  f <- get ;;
  match fl_state f with
  | FsAdmissionClosed =>
      if negb (bool_decide (in_initiator intent ∈ fl_snapshot f)) then fail FeOwnerNotAttached
      else
        let slots := if fl_process_reserved f || fl_request_reserved f then 0%nat else LIFECYCLE_SLOTS in
        flight_append (io 0%nat) (EvIntentJournaled intent (elements (fl_snapshot f)) slots) ;;;
        modify (set_state FsIntentJournaled)
  | _ => refused f
  end.

Definition discover_collateral_owner (io : Fault) (owner : FlightOwner) : M bool :=
  f <- get ;;
  match fl_state f with
  | FsAdmissionClosed | FsIntentJournaled | FsSignaling =>
      if bool_decide (owner ∈ fl_snapshot f) || bool_decide (owner ∈ fl_collateral f) then ret false
      else
        flight_append (io 0%nat) (EvCollateralDiscovered owner) ;;;
        modify (fun f => set_collateral ({[owner]} ∪ fl_collateral f) f) ;;; ret true
  | _ => refused f
  end.

Definition begin_journaled_dispatch (io : Fault) : M unit :=
  adopted <- adopt (io 0%nat) ;;
  f <- get ;;
  match adopted with
  | Some _ => refused f
  | None =>
      match fl_state f with
      | FsIntentJournaled =>
          catch (flight_append (io 1%nat) EvDispatchStarted)
                (fun e =>
                   adopted <- adopt (io 2%nat) ;;
                   f <- get ;;
                   match adopted with Some _ => refused f | None => fail e end) ;;;
          modify (set_state FsSignaling)
      | _ => refused f
      end
  end.

(** Rows that observe a dispatched action. *)
Definition observe_row (io : Fault) (e : JournalEvent) : M unit :=
  f <- get ;;
  if negb (is_signaling f) then refused f else flight_append (io 0%nat) e.
Definition journal_process_signals (io : Fault) (observations : list ProcessSignal) : M unit :=
  observe_row io (EvProcessSignalsObserved observations).
Definition journal_container_removal (io : Fault) (observation : ContainerRemoval) : M unit :=
  observe_row io (EvContainerRemovalObserved observation).

(** Rows that identify the resource while admission is open. *)
Definition open_row (io : Fault) (e : JournalEvent) : M unit :=
  f <- get ;;
  if negb (is_open f) then refused f else flight_append (io 0%nat) e.
Definition journal_process_tree (io : Fault) (identity : ResourceIdentity) : M unit :=
  if negb (bool_decide (key_from_identity identity = key)) then fail FeKeyMismatch
  else open_row io (EvProcessTreeCaptured identity).
Definition is_container (identity : ResourceIdentity) : bool :=
  match identity with ManagedContainer _ _ _ _ => true | _ => false end.
Definition journal_container_identity (io : Fault) (identity : ResourceIdentity) : M unit :=
  if negb (is_container identity) || negb (bool_decide (key_from_identity identity = key)) then fail FeKeyMismatch
  else open_row io (EvContainerIdentityCaptured identity).
Definition journal_process_binding_failure (io : Fault) (stage : BindingStage) (pid : option Z) : M unit :=
  open_row io (EvProcessBindingFailed stage pid).

Record Settlement := mkSettlement { sm_result : ResourceActionResult; sm_recipients : list FlightOwner; sm_appended : bool }.

Definition settle_locked (io : Fault) (proposed : ResourceActionResult) : M Settlement :=
  f <- get ;;
  match fl_refusal f with
  | Some e => fail (FeTerminalRefusal e)
  | None =>
      if negb (is_signaling f) then refused f
      else
        adopted <- adopt (io 0%nat) ;;
        match adopted with
        | Some existing => ret (mkSettlement existing [] false)
        | None => fun s =>
            match append_terminal_io (io 1%nat) id proposed (journal s) with
            | (j', Ok (Appended _)) =>
                let f := flight s in
                let recipients := elements ((fl_snapshot f ∪ fl_collateral f) ∖ fl_delivered f) in
                (mkSys (set_delivered (fl_delivered f ∪ (fl_snapshot f ∪ fl_collateral f))
                          (set_state (FsSettled proposed) (set_sequence (S (fl_sequence f)) f))) j' (published s),
                 Ok (mkSettlement proposed recipients true))
            | (j', Ok (AlreadySettled existing)) =>
                (mkSys (set_state (FsSettled existing) (flight s)) j' (published s), Ok (mkSettlement existing [] false))
            | (j', Err err) => (mkSys (set_refusal err (flight s)) j' (published s), Err (FeTerminalRefusal err))
            end
        end
  end.

(** The publisher is called after the mutex is released. No section reads what
    it was told, so the call is part of the step that owes it; a process that
    dies between the two is not a step of this system. *)
Definition publish (sm : Settlement) : M unit :=
  fun s => (mkSys (flight s) (journal s) (published s ++ publish_result id (sm_recipients sm) (sm_result sm)), Ok tt).

Definition settle (io : Fault) (result : ResourceActionResult) : M ResourceActionResult :=
  sm <- settle_locked io result ;; publish sm ;;; ret (sm_result sm).

(** [settle_failed_before_dispatch] is this section, then [settle] unless a
    durable terminal was adopted. *)
Definition settle_failed_mark (io : Fault) : M (option ResourceActionResult) :=
  adopted <- adopt (io 0%nat) ;;
  match adopted with
  | Some existing => ret (Some existing)
  | None =>
      f <- get ;;
      match fl_state f with
      | FsOpen => modify (fun f => set_state FsSignaling (set_snapshot (fl_owners f) f)) ;;; ret None
      | FsAdmissionClosed | FsIntentJournaled => modify (set_state FsSignaling) ;;; ret None
      | _ => refused f
      end
  end.
Definition current_state : M FlightState :=
  f <- get ;; match fl_refusal f with Some e => fail (FeTerminalRefusal e) | None => ret (fl_state f) end.
Definition settle_failed_before_dispatch (io io' : Fault) (result : ResourceActionResult) : M ResourceActionResult :=
  if negb (bool_decide (rr_disposition result = ActFailed))
  then st <- current_state ;; fail (FeTransitionRefused st)
  else
    existing <- settle_failed_mark io ;;
    match existing with Some existing => ret existing | None => settle io' result end.

(** One look of [join_blocking] at the state; [None] waits. *)
Definition join_poll (f : Flight) : option (result ResourceActionResult FlightError) :=
  match fl_refusal f with
  | Some e => Some (Err (FeTerminalRefusal e))
  | None => match fl_state f with FsSettled result => Some (Ok result) | _ => None end
  end.

Definition retain : M Z :=
  f <- get ;;
  modify (fun f => set_guards (saturating_add (fl_next_guard f) 1) ({[fl_next_guard f]} ∪ fl_guards f) f) ;;;
  ret (fl_next_guard f).
Definition drop_flight_guard (token : Z) : M unit :=
  modify (fun f => set_guards (fl_next_guard f) (fl_guards f ∖ {[token]}) f).

Definition unknown_result (elapsed : Z) : ResourceActionResult := mkActionResult ActUnknown elapsed None None.
Definition settle_unknown (io : Fault) (elapsed : Z) : M ResourceActionResult := settle io (unknown_result elapsed).

(** The guard is returned to the caller in every case and is not repeated here;
    [proof] says whether ownerlessness was proved. *)
Inductive CleanupDeadlineTransfer :=
| NotDue
| Transferred (recovery_owner : RecoveryOwner)
| TransferUnknown (result : ResourceActionResult) (proof : bool).

Definition transfer_cleanup_deadline (io : Fault) (now deadline_ms : Z) (token : Z) (same_flight : bool) (reason : string)
    : M CleanupDeadlineTransfer :=
  if now <? deadline_ms then ret NotDue
  else if negb same_flight then r <- settle_unknown io now ;; ret (TransferUnknown r false)
  else
    let recovery_owner := mkOwner attempt id reason in
    let result := mkActionResult ActPartial now (Some recovery_owner) None in
    f <- get ;;
    if negb (bool_decide (token ∈ fl_guards f)) then r <- settle_unknown io now ;; ret (TransferUnknown r true)
    else
      adopted <- adopt (io 0%nat) ;;
      match adopted with
      | Some existing => ret (TransferUnknown existing false)
      | None =>
          f <- get ;;
          if negb (is_signaling f) then refused f
          else
            late <- catch (flight_append (io 1%nat) (EvGuardTransferred recovery_owner deadline_ms) ;;; ret None)
                          (fun e =>
                             adopted <- adopt (io 2%nat) ;;
                             match adopted with Some existing => ret (Some existing) | None => fail e end) ;;
            match late with
            | Some existing => ret (TransferUnknown existing false)
            | None =>
                sm <- settle_locked (fun n => io (3 + n)%nat) result ;;
                publish sm ;;;
                ret (if sm_appended sm then Transferred recovery_owner else TransferUnknown (sm_result sm) false)
            end
      end.

(** ** Recovery: the journal, without the flight *)
Definition has_intent (rs : list JournalRecord) : bool :=
  existsb (fun r => match rec_event r with EvIntentJournaled _ _ _ => true | _ => false end) rs.
Definition row_owners (e : JournalEvent) : gset FlightOwner :=
  match e with
  | EvIntentJournaled _ owner_snapshot _ => list_to_set owner_snapshot
  | EvCollateralDiscovered owner => {[owner]}
  | _ => ∅
  end.
Definition recorded_owners (rs : list JournalRecord) : gset FlightOwner :=
  foldl (fun acc r => acc ∪ row_owners (rec_event r)) ∅ rs.

Inductive JournaledRecovery := RecExisting (result : ResourceActionResult)
| RecWon (result : ResourceActionResult) (recipients : gset FlightOwner).

Definition recover_journaled_intent (io : Fault) (duration_ms : Z) (j : Journal)
    : Journal * result (option JournaledRecovery) FlightError :=
  match io_error (io 0%nat) (records id j) with
  | Err err => (j, Err (FeJournal err))
  | Ok rs =>
      match settled_result rs with
      | Some existing => (j, Ok (Some (RecExisting existing)))
      | None =>
          if negb (has_intent rs) then (j, Ok None)
          else
            match append_terminal_io (io 1%nat) id (unknown_result duration_ms) j with
            | (j', Err err) => (j', Err (FeJournal err))
            | (j', Ok (Appended recs)) => (j', Ok (Some (RecWon (unknown_result duration_ms) (recorded_owners recs))))
            | (j', Ok (AlreadySettled existing)) => (j', Ok (Some (RecExisting existing)))
            end
      end
  end.

(** [recover_dead_journaled_intent_as_unknown]. *)
Definition recover_dead (io : Fault) (duration_ms : Z) : M (option ResourceActionResult) :=
  fun s =>
    match recover_journaled_intent io duration_ms (journal s) with
    | (j', Ok (Some (RecWon result recipients))) =>
        (mkSys (flight s) j' (published s ++ publish_result id (elements recipients) result), Ok (Some result))
    | (j', Ok _) => (mkSys (flight s) j' (published s), Ok None)
    | (j', Err e) => (mkSys (flight s) j' (published s), Err e)
    end.

(** ** The flight and its recoverers *)
Inductive Op :=
| OpAttach (io : Fault) (owner : FlightOwner)
| OpAttachLegacy (owner : FlightOwner)
| OpDetach (io : Fault) (owner : FlightOwner)
| OpDetachLegacy (owner : FlightOwner)
| OpReserveProcess (io : Fault)
| OpClose
| OpIntent (io : Fault) (intent : ActionIntent)
| OpDiscover (io : Fault) (owner : FlightOwner)
| OpDispatch (io : Fault)
| OpSignals (io : Fault) (observations : list ProcessSignal)
| OpRemoval (io : Fault) (observation : ContainerRemoval)
| OpProcessTree (io : Fault) (identity : ResourceIdentity)
| OpContainerIdentity (io : Fault) (identity : ResourceIdentity)
| OpBindingFailure (io : Fault) (stage : BindingStage) (pid : option Z)
| OpSettle (io : Fault) (result : ResourceActionResult)
| OpSettleFailedMark (io : Fault)
| OpRetain
| OpDropGuard (token : Z)
| OpTransfer (io : Fault) (now deadline_ms token : Z) (same_flight : bool) (reason : string)
| OpRecover (io : Fault) (duration_ms : Z).

Definition exec (s : Sys) (op : Op) : Sys :=
  match op with
  | OpAttach io owner => fst (attach_owner io owner s)
  | OpAttachLegacy owner => fst (attach_owner_legacy owner s)
  | OpDetach io owner => fst (detach_owner io owner s)
  | OpDetachLegacy owner => fst (detach_owner_legacy owner s)
  | OpReserveProcess io => fst (reserve_process_lifecycle io s)
  | OpClose => fst (close_admission s)
  | OpIntent io intent => fst (journal_intent io intent s)
  | OpDiscover io owner => fst (discover_collateral_owner io owner s)
  | OpDispatch io => fst (begin_journaled_dispatch io s)
  | OpSignals io obs => fst (journal_process_signals io obs s)
  | OpRemoval io obs => fst (journal_container_removal io obs s)
  | OpProcessTree io identity => fst (journal_process_tree io identity s)
  | OpContainerIdentity io identity => fst (journal_container_identity io identity s)
  | OpBindingFailure io stage pid => fst (journal_process_binding_failure io stage pid s)
  | OpSettle io result => fst (settle io result s)
  | OpSettleFailedMark io => fst (settle_failed_mark io s)
  | OpRetain => fst (retain s)
  | OpDropGuard token => fst (drop_flight_guard token s)
  | OpTransfer io now deadline token same reason => fst (transfer_cleanup_deadline io now deadline token same reason s)
  | OpRecover io duration => fst (recover_dead io duration s)
  end.

(** A new flight on a journal that has no rows for its id. *)
Definition start (j : Journal) : Sys := fst (create no_fault (mkSys initial_flight j [])).
End Operations.

(** ** What the rows say *)
Definition intents_of (rs : list JournalRecord) : gset FlightOwner :=
  ⋃ ((fun r => match rec_event r with EvIntentJournaled _ snap _ => list_to_set snap | _ => ∅ end) <$> rs).
Definition collateral_of (rs : list JournalRecord) : gset FlightOwner :=
  ⋃ ((fun r => match rec_event r with EvCollateralDiscovered o => {[o]} | _ => ∅ end) <$> rs).
Definition dispatches (rs : list JournalRecord) : nat :=
  sum_list_with (fun r => match rec_event r with EvDispatchStarted => 1 | _ => 0 end)%nat rs.
Definition spent (rs : list JournalRecord) : nat :=
  sum_list_with (fun r => if requires_reserved_slot (rec_event r) then 1 else 0)%nat rs.

Definition is_intent (e : JournalEvent) : bool := match e with EvIntentJournaled _ _ _ => true | _ => false end.
Definition is_dispatch (e : JournalEvent) : bool := match e with EvDispatchStarted => true | _ => false end.

Lemma has_intent_snoc rs r : has_intent (rs ++ [r]) = has_intent rs || is_intent (rec_event r).
Proof. unfold has_intent. rewrite existsb_app. simpl. by rewrite orb_false_r. Qed.
Lemma intents_of_snoc rs r :
  intents_of (rs ++ [r]) = intents_of rs ∪ match rec_event r with EvIntentJournaled _ snap _ => list_to_set snap | _ => ∅ end.
Proof. unfold intents_of. rewrite fmap_app, union_list_app_L. simpl. set_solver. Qed.
Lemma collateral_of_snoc rs r :
  collateral_of (rs ++ [r]) = collateral_of rs ∪ match rec_event r with EvCollateralDiscovered o => {[o]} | _ => ∅ end.
Proof. unfold collateral_of. rewrite fmap_app, union_list_app_L. simpl. set_solver. Qed.
Lemma dispatches_snoc rs r : dispatches (rs ++ [r]) = (dispatches rs + if is_dispatch (rec_event r) then 1 else 0)%nat.
Proof. unfold dispatches. rewrite sum_list_with_app. simpl. destruct (rec_event r); simpl; lia. Qed.
Lemma spent_snoc rs r : spent (rs ++ [r]) = (spent rs + if requires_reserved_slot (rec_event r) then 1 else 0)%nat.
Proof. unfold spent. rewrite sum_list_with_app. simpl. lia. Qed.

Lemma recorded_owners_acc rs acc :
  foldl (fun acc r => acc ∪ row_owners (rec_event r)) acc rs = acc ∪ (intents_of rs ∪ collateral_of rs).
Proof.
  revert acc. induction rs as [|r rs IH]; intros acc; cbn [foldl].
  { unfold intents_of, collateral_of. simpl. set_solver. }
  rewrite IH. unfold intents_of, collateral_of. simpl. destruct (rec_event r); simpl; set_solver.
Qed.
Lemma recorded_owners_spec rs : recorded_owners rs = intents_of rs ∪ collateral_of rs.
Proof. unfold recorded_owners. rewrite recorded_owners_acc. set_solver. Qed.

Definition late (st : FlightState) : bool :=
  match st with FsOpen | FsAdmissionClosed => false | _ => true end.

(** A dispatch row follows an intent row and is the only one. *)
Definition dispatch_ordered (rs : list JournalRecord) : Prop :=
  forall pre r post, rs = pre ++ r :: post -> rec_event r = EvDispatchStarted ->
    has_intent pre = true /\ dispatches pre = 0%nat.

Lemma dispatch_ordered_snoc rs r :
  dispatch_ordered rs -> (is_dispatch (rec_event r) = true -> has_intent rs = true /\ dispatches rs = 0%nat) ->
  dispatch_ordered (rs ++ [r]).
Proof.
  intros Hd Hr pre x post E Hx. destruct post as [|y post _] using rev_ind.
  - apply app_inj_tail in E as [-> ->]. apply Hr. by rewrite Hx.
  - rewrite app_comm_cons, app_assoc in E. apply app_inj_tail in E as [-> _]. by eapply Hd.
Qed.

(** ** Triples

    A section that keeps an invariant, with what it establishes when it
    succeeds; an error ends the method in a state of the invariant. *)
Section Triples.
Context {I : Sys -> Prop}.
Definition triple {A} (P : Sys -> Prop) (m : M A) (Q : A -> Sys -> Prop) : Prop :=
  forall s, P s -> match m s with (s', Ok a) => Q a s' | (s', Err _) => I s' end.

Lemma hoare_ret {A} (a : A) (Q : A -> Sys -> Prop) : triple (Q a) (ret a) Q.
Proof. by intros s Hs. Qed.
Lemma hoare_fail {A} e (Q : A -> Sys -> Prop) : triple I (fail e) Q.
Proof. by intros s Hs. Qed.
Lemma hoare_bind {A B} P (m : M A) (k : A -> M B) R Q :
  triple P m R -> (forall a, triple (R a) (k a) Q) -> triple P (bind m k) Q.
Proof.
  intros Hm Hk s Hs. unfold bind. specialize (Hm s Hs). destruct (m s) as [s' [a|e]]; [by apply Hk|done].
Qed.
Lemma hoare_get P (Q : Flight -> Sys -> Prop) : (forall s, P s -> Q (flight s) s) -> triple P get Q.
Proof. intros H s Hs. by apply H. Qed.
Lemma hoare_conseq {A} (P P' : Sys -> Prop) (m : M A) (Q Q' : A -> Sys -> Prop) :
  triple P' m Q' -> (forall s, P s -> P' s) -> (forall a s, Q' a s -> Q a s) -> triple P m Q.
Proof. intros Hm H1 H2 s Hs. specialize (Hm s (H1 s Hs)). destruct (m s) as [s' [a|e]]; auto. Qed.
Lemma hoare_modify (P : Sys -> Prop) (g : Flight -> Flight) (Q : unit -> Sys -> Prop) :
  (forall s, P s -> Q tt (mkSys (g (flight s)) (journal s) (published s))) -> triple P (modify g) Q.
Proof. intros H s Hs. by apply H. Qed.
Lemma hoare_catch {A} P (m : M A) (h : FlightError -> M A) R Q :
  (forall s, P s -> match m s with (s', Ok a) => Q a s' | (s', Err e) => R e s' end) ->
  (forall e, triple (R e) (h e) Q) -> triple P (catch m h) Q.
Proof.
  intros Hm Hh s Hs. unfold catch. specialize (Hm s Hs). destruct (m s) as [s' [a|e]]; [done|by apply Hh].
Qed.
Lemma hoare_exec {A} P (m : M A) Q s :
  triple P m Q -> (forall a s, Q a s -> I s) -> P s -> I (fst (m s)).
Proof. intros Hm HQ Hs. specialize (Hm s Hs). destruct (m s) as [s' [a|e]]; [by eapply HQ|done]. Qed.

End Triples.
Arguments triple I {A}.

(** ** Invariant *)
Section Invariant.
Context (id attempt : string) (key : FlightKey).
Local Abbreviation rowsof s := (rows (journal s) id).

(** What holds of a flight record against the rows of its journal, whether or
    not they are settled. *)
Record flight_ok (f : Flight) (rs : list JournalRecord) : Prop := {
  fo_settled : forall r, fl_state f = FsSettled r -> settled_result rs = Some r;
  fo_collateral : fl_collateral f = collateral_of rs;
  fo_intent : has_intent rs = true -> intents_of rs = fl_snapshot f /\ late (fl_state f) = true;
  fo_late : is_Some (settled_result rs) -> late (fl_state f) = true;
  fo_journaled : fl_state f = FsIntentJournaled -> has_intent rs = true /\ dispatches rs = 0%nat;
  fo_early : late (fl_state f) = false -> dispatches rs = 0%nat;
  fo_ordered : dispatch_ordered rs;
  fo_slots : fl_process_reserved f = false -> fl_request_reserved f = false ->
    exists n, outstanding rs = Ok n /\
      if has_intent rs then (n + spent rs = LIFECYCLE_SLOTS)%nat else n = 0%nat /\ spent rs = 0%nat }.

Record flight_inv (s : Sys) : Prop := {
  fi_journal : journal_ok (journal s) id;
  fi_flight : flight_ok (flight s) (rowsof s);
  fi_live : settled_result (rowsof s) = None ->
    fl_sequence (flight s) = S (length (rowsof s)) /\ fl_delivered (flight s) = ∅ /\ published s = [];
  fi_published : forall r, settled_result (rowsof s) = Some r ->
    published s = publish_result id (elements (fl_snapshot (flight s) ∪ fl_collateral (flight s))) r }.

Local Abbreviation hoare := (triple flight_inv).

(** A change of the flight record that its rows allow. *)
Lemma inv_modify s (g : Flight -> Flight) :
  flight_inv s -> flight_ok (g (flight s)) (rowsof s) ->
  fl_sequence (g (flight s)) = fl_sequence (flight s) -> fl_delivered (g (flight s)) = fl_delivered (flight s) ->
  (is_Some (settled_result (rowsof s)) -> fl_snapshot (g (flight s)) = fl_snapshot (flight s)) ->
  flight_inv (mkSys (g (flight s)) (journal s) (published s)).
Proof.
  intros [Hj Hf Hl Hp] Hg Hs Hd Hsn. split; simpl; [done|done|by rewrite Hs, Hd|].
  intros r Hr. rewrite (Hp r Hr), Hsn by (by eexists). by rewrite (fo_collateral _ _ Hg), (fo_collateral _ _ Hf).
Qed.

(** A row appended together with the change of the record it announces. *)
Lemma inv_append s e f' j' :
  flight_inv s -> append id (mkRecord JOURNAL_SCHEMA (fl_sequence (flight s)) e) (journal s) = Ok j' ->
  is_settled e = None -> fl_sequence f' = S (fl_sequence (flight s)) -> fl_delivered f' = fl_delivered (flight s) ->
  flight_ok f' (rowsof s ++ [mkRecord JOURNAL_SCHEMA (fl_sequence (flight s)) e]) ->
  flight_inv (mkSys f' j' (published s)).
Proof.
  intros [Hj Hf Hl Hp] Ha He Hs Hd Hok. pose proof (append_journal_ok _ _ _ _ Hj Ha) as Hj'.
  apply append_ok in Ha as (Hn & -> & Hadm). destruct (Hl Hn) as (Hq & Hdl & Hpub).
  split; simpl; [done|by rewrite rows_with|..]; rewrite rows_with, settled_result_snoc; simpl; rewrite He, Hn.
  - intros _. rewrite length_app. simpl. split_and!; [lia|by rewrite Hd|done].
  - done.
Qed.

(** When a row may follow, and what the record must then say. *)
Record row_allowed (f : Flight) (rs : list JournalRecord) (e : JournalEvent) (f' : Flight) : Prop := {
  ra_unsettled : is_settled e = None /\ forall x, fl_state f' <> FsSettled x;
  ra_collateral : fl_collateral f' =
    fl_collateral f ∪ match e with EvCollateralDiscovered o => {[o]} | _ => ∅ end;
  ra_intent : if is_intent e
    then has_intent rs = false /\ late (fl_state f') = true /\
         fl_snapshot f' = match e with EvIntentJournaled _ snap _ => list_to_set snap | _ => ∅ end
    else has_intent rs = true ->
         fl_snapshot f' = fl_snapshot f /\ late (fl_state f') = true /\ consumes_when_present e = false;
  ra_journaled : fl_state f' = FsIntentJournaled ->
    has_intent rs || is_intent e = true /\ dispatches rs = 0%nat /\ is_dispatch e = false;
  ra_early : late (fl_state f') = false -> dispatches rs = 0%nat /\ is_dispatch e = false;
  ra_dispatch : is_dispatch e = true -> has_intent rs = true /\ dispatches rs = 0%nat;
  ra_slots : fl_process_reserved f' = false -> fl_request_reserved f' = false ->
    fl_process_reserved f = false /\ fl_request_reserved f = false /\
    reserved e = if is_intent e then LIFECYCLE_SLOTS else 0%nat }.

Lemma intents_none rs : has_intent rs = false -> intents_of rs = ∅.
Proof.
  induction rs as [|r rs IH] using rev_ind; [done|]. rewrite has_intent_snoc, intents_of_snoc.
  intros [H1 H2]%orb_false_iff. rewrite IH by done. destruct (rec_event r); simpl in *; try done; set_solver.
Qed.

Lemma slots_snoc f rs r cap :
  flight_ok f rs -> fl_process_reserved f = false -> fl_request_reserved f = false -> admission_check rs cap r = Ok tt ->
  reserved (rec_event r) = (if is_intent (rec_event r) then LIFECYCLE_SLOTS else 0%nat) ->
  (if is_intent (rec_event r) then has_intent rs = false
   else has_intent rs = true -> consumes_when_present (rec_event r) = false) ->
  exists n, outstanding (rs ++ [r]) = Ok n /\
    if has_intent (rs ++ [r]) then (n + spent (rs ++ [r]) = LIFECYCLE_SLOTS)%nat
    else n = 0%nat /\ spent (rs ++ [r]) = 0%nat.
Proof.
  intros Hf Hp0 Hr0 Hadm Hres Hi. destruct (fo_slots _ _ Hf Hp0 Hr0) as (n & Hn & Hs).
  apply admission_check_ok in Hadm as (n' & Hn' & _ & Hout & _ & Hneed). rewrite Hn in Hn'. injection Hn' as <-.
  eexists. split; [exact Hout|]. rewrite has_intent_snoc, spent_snoc, Hres. unfold consumed.
  destruct (has_intent rs) eqn:Eh; cbn [orb].
  - destruct (is_intent (rec_event r)) eqn:Ei; [done|].
    rewrite (Hi eq_refl), andb_false_r, orb_false_r.
    destruct (requires_reserved_slot (rec_event r)) eqn:Er; [|lia]. specialize (Hneed eq_refl). lia.
  - destruct Hs as [-> Hs]. destruct (requires_reserved_slot (rec_event r)) eqn:Er; [by specialize (Hneed eq_refl)|].
    unfold LIFECYCLE_SLOTS. destruct (is_intent (rec_event r)); simpl; lia.
Qed.

Lemma flight_ok_snoc f rs e f' r cap :
  flight_ok f rs -> settled_result rs = None -> row_allowed f rs e f' -> rec_event r = e ->
  admission_check rs cap r = Ok tt -> flight_ok f' (rs ++ [r]).
Proof.
  intros Hf Hn Ha <- Hadm. destruct (ra_unsettled _ _ _ _ Ha) as [He Hst].
  split; [..|intros Hp Hr; destruct (ra_slots _ _ _ _ Ha Hp Hr) as (? & ? & ?); eapply slots_snoc; try done;
    pose proof (ra_intent _ _ _ _ Ha); destruct (is_intent (rec_event r)); naive_solver]; rewrite ?settled_result_snoc, ?He, ?Hn, ?collateral_of_snoc, ?has_intent_snoc, ?dispatches_snoc.
  - intros x Hx. by destruct (Hst x).
  - rewrite (ra_collateral _ _ _ _ Ha). by rewrite (fo_collateral _ _ Hf).
  - intros Hh. pose proof (ra_intent _ _ _ _ Ha) as Hi. rewrite intents_of_snoc.
    destruct (is_intent (rec_event r)) eqn:Ei.
    + destruct Hi as (Hh0 & Hl & ->). split; [|done]. rewrite (intents_none _ Hh0). set_solver.
    + rewrite orb_false_r in Hh. destruct (Hi Hh) as (-> & Hl & _). split; [|done].
      destruct (fo_intent _ _ Hf Hh) as [-> _]. destruct (rec_event r); simpl in *; try done; set_solver.
  - by intros [? ?].
  - intros Hs. destruct (ra_journaled _ _ _ _ Ha Hs) as (-> & -> & ->). done.
  - intros Hl. destruct (ra_early _ _ _ _ Ha Hl) as (-> & ->). done.
  - apply dispatch_ordered_snoc; [apply (fo_ordered _ _ Hf)|apply (ra_dispatch _ _ _ _ Ha)].
Qed.

(** After a successful append, before the record is updated. *)
Definition appended (P : Sys -> Prop) (e : JournalEvent) (s : Sys) : Prop :=
  exists s0 j', P s0 /\ flight_inv s0 /\
    append id (mkRecord JOURNAL_SCHEMA (fl_sequence (flight s0)) e) (journal s0) = Ok j' /\
    s = mkSys (set_sequence (S (fl_sequence (flight s0))) (flight s0)) j' (published s0).

Lemma flight_append_cases io e s :
  unwritten io ->
  flight_append id io e s =
    match io_error io (append id (mkRecord JOURNAL_SCHEMA (fl_sequence (flight s)) e) (journal s)) with
    | Ok j' => (mkSys (set_sequence (S (fl_sequence (flight s))) (flight s)) j' (published s), Ok tt)
    | Err err => (s, Err (FeJournal err))
    end.
Proof.
  intros Hc. unfold flight_append, append_io, after_fault, io_error. destruct s.
  destruct io as [x|]; [rewrite (Hc x eq_refl)|]; by destruct (append _ _ _).
Qed.

Lemma hoare_append (P : Sys -> Prop) io e :
  unwritten io -> (forall s, P s -> flight_inv s) -> hoare P (flight_append id io e) (fun _ => appended P e).
Proof.
  intros Hc HP s Hs. rewrite flight_append_cases by done. destruct io as [err|]; [by apply HP|].
  simpl. destruct (append _ _ _) as [j'|] eqn:Ea; [|by apply HP]. exists s, j'. auto.
Qed.

(** Append a row, then update the record as the row announces. *)
Lemma appended_inv P e s (g : Flight -> Flight) :
  appended P e s ->
  (forall s0, P s0 -> let f' := g (set_sequence (S (fl_sequence (flight s0))) (flight s0)) in
     fl_sequence f' = S (fl_sequence (flight s0)) /\ fl_delivered f' = fl_delivered (flight s0) /\
     row_allowed (flight s0) (rowsof s0) e f') ->
  flight_inv (mkSys (g (flight s)) (journal s) (published s)).
Proof.
  intros (s0 & j' & HP & Hs0 & Ha & ->) Hg. destruct (Hg s0 HP) as (Hq & Hd & Hra). simpl.
  pose proof (append_ok _ _ _ _ Ha) as (Hn & _ & Hadm).
  eapply inv_append; [done|exact Ha|apply (ra_unsettled _ _ _ _ Hra)|done|done|].
  eapply flight_ok_snoc; [apply (fi_flight _ Hs0)|done|exact Hra|done|exact Hadm].
Qed.

(** ** Every section keeps the invariant *)
Definition keeps {A} (m : M A) : Prop := hoare flight_inv m (fun _ => flight_inv).
Definition at_flight (f : Flight) (s : Sys) : Prop := flight_inv s /\ flight s = f.

Lemma keeps_get {A} (k : Flight -> M A) Q :
  (forall f, hoare (at_flight f) (k f) Q) -> hoare flight_inv (bind get k) Q.
Proof. intros H. eapply hoare_bind; [by apply (hoare_get _ at_flight)|done]. Qed.
Lemma keeps_fail {A} f e (Q : A -> Sys -> Prop) : hoare (at_flight f) (fail e) Q.
Proof. by intros s [Hs _]. Qed.
Lemma keeps_ret {A} f (a : A) : hoare (at_flight f) (ret a) (fun _ => flight_inv).
Proof. by intros s [Hs _]. Qed.

(** The record may change in what the invariant does not speak of. *)
Lemma flight_ok_ext f f' rs :
  flight_ok f rs -> fl_state f' = fl_state f -> fl_snapshot f' = fl_snapshot f -> fl_collateral f' = fl_collateral f ->
  fl_process_reserved f' = fl_process_reserved f -> fl_request_reserved f' = fl_request_reserved f -> flight_ok f' rs.
Proof. intros [] E1 E2 E3 E4 E5. split; by rewrite ?E1, ?E2, ?E3, ?E4, ?E5. Qed.

Lemma inv_aside s (g : Flight -> Flight) :
  flight_inv s ->
  (forall f, fl_state (g f) = fl_state f /\ fl_snapshot (g f) = fl_snapshot f /\ fl_collateral (g f) = fl_collateral f /\
     fl_process_reserved (g f) = fl_process_reserved f /\ fl_request_reserved (g f) = fl_request_reserved f /\
     fl_sequence (g f) = fl_sequence f /\ fl_delivered (g f) = fl_delivered f) ->
  flight_inv (mkSys (g (flight s)) (journal s) (published s)).
Proof.
  intros Hs Hg. destruct (Hg (flight s)) as (E1 & E2 & E3 & E4 & E5 & E6 & E7).
  apply inv_modify; [done|by eapply flight_ok_ext; [apply (fi_flight _ Hs)|..]|done|done|done].
Qed.

(** Rows that announce neither an intent, a dispatch, an owner nor a result. *)
Definition plain_row (e : JournalEvent) : bool :=
  match e with
  | EvIntentJournaled _ _ _ | EvCollateralDiscovered _ | EvDispatchStarted | EvSettled _ => false
  | _ => true
  end.
Lemma row_plain f rs e f' :
  flight_ok f rs -> plain_row e = true -> (forall x, fl_state f <> FsSettled x) ->
  (late (fl_state f) = true -> consumes_when_present e = false) ->
  fl_state f' = fl_state f -> fl_snapshot f' = fl_snapshot f -> fl_collateral f' = fl_collateral f ->
  (fl_process_reserved f' = false -> fl_request_reserved f' = false ->
     fl_process_reserved f = false /\ fl_request_reserved f = false /\ reserved e = 0%nat) ->
  row_allowed f rs e f'.
Proof.
  intros Hf Hp Hu Hc E1 E2 E3 Hr.
  assert (is_settled e = None /\ is_intent e = false /\ is_dispatch e = false /\
    match e with EvCollateralDiscovered o => {[o]} | _ => ∅ : gset FlightOwner end = ∅) as (Es & Ei & Ed & Ec)
    by (destruct e; simpl in *; by repeat split).
  split; rewrite ?E1, ?E2, ?E3, ?Ei, ?Ed, ?Ec, ?orb_false_r.
  - done.
  - set_solver.
  - intros Hh. destruct (fo_intent _ _ Hf Hh). auto.
  - intros Hj. destruct (fo_journaled _ _ Hf Hj). auto.
  - intros Hl. split; [by apply (fo_early _ _ Hf)|done].
  - done.
  - done.
Qed.

(** Append a row, then update the record and go on. *)
Lemma hoare_row {A} (P : Sys -> Prop) io e g (k : M A) :
  unwritten io -> (forall s, P s -> flight_inv s) ->
  (forall s, P s -> let f' := g (set_sequence (S (fl_sequence (flight s))) (flight s)) in
     fl_sequence f' = S (fl_sequence (flight s)) /\ fl_delivered f' = fl_delivered (flight s) /\
     row_allowed (flight s) (rowsof s) e f') ->
  keeps k -> hoare P (flight_append id io e ;;; modify g ;;; k) (fun _ => flight_inv).
Proof.
  intros Hc HP Hg Hk. eapply hoare_bind; [by apply hoare_append|]. intros ?.
  eapply (hoare_bind _ _ _ (fun _ => flight_inv)); [|done].
  apply hoare_modify. intros s Hs. by eapply appended_inv.
Qed.
Lemma hoare_row_last (P : Sys -> Prop) io e g :
  unwritten io -> (forall s, P s -> flight_inv s) ->
  (forall s, P s -> let f' := g (set_sequence (S (fl_sequence (flight s))) (flight s)) in
     fl_sequence f' = S (fl_sequence (flight s)) /\ fl_delivered f' = fl_delivered (flight s) /\
     row_allowed (flight s) (rowsof s) e f') ->
  hoare P (flight_append id io e ;;; modify g) (fun _ => flight_inv).
Proof.
  intros Hc HP Hg. eapply hoare_bind; [by apply hoare_append|]. intros ?.
  apply hoare_modify. intros s Hs. by eapply appended_inv.
Qed.
Lemma hoare_bare_row (P : Sys -> Prop) io e :
  unwritten io -> (forall s, P s -> flight_inv s) ->
  (forall s, P s -> plain_row e = true /\ (forall x, fl_state (flight s) <> FsSettled x) /\
     (late (fl_state (flight s)) = true -> consumes_when_present e = false) /\ reserved e = 0%nat) ->
  hoare P (flight_append id io e) (fun _ => flight_inv).
Proof.
  intros Hc HP He s Hs. pose proof (hoare_append P io e Hc HP s Hs) as Ha.
  destruct (flight_append id io e s) as [s' [[]|err]]; [|done].
  destruct s' as [f' j' p']. eapply (appended_inv _ _ _ (fun f => f) Ha).
  intros s0 Hs0. destruct (He s0 Hs0) as (H1 & H2 & H3 & H4). split_and!; [done|done|].
  by apply row_plain; [apply fi_flight, HP|..].
Qed.

Lemma is_open_state f : is_open f = true -> fl_state f = FsOpen.
Proof. unfold is_open. by destruct (fl_state f). Qed.
Lemma is_signaling_state f : is_signaling f = true -> fl_state f = FsSignaling.
Proof. unfold is_signaling. by destruct (fl_state f). Qed.

Ltac row_step := intros ?s [?Hinv ?E]; simpl; split_and!; [done|done|].

Lemma keeps_attach io owner : clean io -> keeps (attach_owner id io owner).
Proof.
  intros Hc. apply keeps_get. intros f. destruct (is_open f) eqn:Eo; [|apply keeps_fail]. cbn [negb].
  case_bool_decide; [apply keeps_ret|]. apply is_open_state in Eo.
  apply hoare_row; [done|by intros ? [? _]| |by apply (hoare_ret (I := flight_inv) true (fun _ => flight_inv))].
  row_step. subst f. apply row_plain; simpl; rewrite ?Eo; try done. apply (fi_flight _ Hinv).
Qed.
Lemma keeps_attach_legacy owner : keeps (attach_owner_legacy owner).
Proof.
  apply keeps_get. intros f. destruct (is_open f) eqn:Eo; [|apply keeps_fail]. cbn [negb].
  eapply (hoare_bind _ _ _ (fun _ => flight_inv)); [|intros _; by apply (hoare_ret (I := flight_inv) _ (fun _ => flight_inv))].
  apply hoare_modify. intros s [Hs _]. by apply inv_aside.
Qed.
Lemma keeps_detach_legacy owner : keeps (detach_owner_legacy owner).
Proof.
  apply keeps_get. intros f. destruct (is_open f) eqn:Eo; [|apply keeps_fail]. cbn [negb].
  eapply (hoare_bind _ _ _ (fun _ => flight_inv)); [|intros _; by apply (hoare_ret (I := flight_inv) _ (fun _ => flight_inv))].
  apply hoare_modify. intros s [Hs _]. by apply inv_aside.
Qed.
Lemma keeps_detach io owner : clean io -> keeps (detach_owner id io owner).
Proof.
  intros Hc. apply keeps_get. intros f. destruct (is_open f) eqn:Eo; [|apply keeps_fail]. cbn [negb]. apply is_open_state in Eo.
  case_bool_decide; [|apply keeps_ret]. cbn [negb].
  eapply (hoare_bind _ _ _ (fun _ s => flight_inv s /\ fl_state (flight s) = FsOpen)).
  { apply hoare_modify. intros s [Hs <-]. split; [by apply inv_aside|done]. }
  intros _. eapply (hoare_bind _ _ _ (fun _ => flight_inv)); [|intros _; by apply (hoare_ret (I := flight_inv) true (fun _ => flight_inv))].
  eapply (hoare_catch _ _ _ (fun _ => flight_inv)).
  - apply hoare_bare_row; [done|by intros ? [? _]|]. intros s [_ Es]. by rewrite Es.
  - intros e. eapply (hoare_bind _ _ _ (fun _ => flight_inv)); [|intros _; apply hoare_fail].
    apply hoare_modify. intros s Hs. by apply inv_aside.
Qed.
Lemma keeps_reserve_process io : clean io -> keeps (reserve_process_lifecycle id io).
Proof.
  intros Hc. apply keeps_get. intros f. destruct (is_open f) eqn:Eo; [|apply keeps_fail]. cbn [negb].
  destruct (fl_process_reserved f); [apply keeps_ret|]. apply is_open_state in Eo.
  apply hoare_row_last; [done|by intros ? [? _]|].
  row_step. subst f. apply row_plain; simpl; rewrite ?Eo; try done. apply (fi_flight _ Hinv).
Qed.

Lemma open_rows f rs :
  flight_ok f rs -> late (fl_state f) = false -> has_intent rs = false /\ settled_result rs = None /\ dispatches rs = 0%nat.
Proof.
  intros Hf Hl. split_and!; [| |by apply (fo_early _ _ Hf)].
  - destruct (has_intent rs) eqn:Eh; [|done]. destruct (fo_intent _ _ Hf Eh) as [_ H]. congruence.
  - destruct (settled_result rs) eqn:Es; [|done]. specialize (fo_late _ _ Hf (mk_is_Some _ _ Es)). congruence.
Qed.

Lemma flight_ok_close f rs :
  flight_ok f rs -> fl_state f = FsOpen -> flight_ok (set_state FsAdmissionClosed (set_snapshot (fl_owners f) f)) rs.
Proof.
  intros Hf Eo. destruct (open_rows _ _ Hf) as (Hi & Hn & Hd); [by rewrite Eo|].
  destruct Hf. split; simpl; try done; rewrite ?Hi, ?Hn; done.
Qed.
Lemma row_intent f rs intent n :
  flight_ok f rs -> fl_state f = FsAdmissionClosed ->
  let slots := if fl_process_reserved f || fl_request_reserved f then 0%nat else LIFECYCLE_SLOTS in
  row_allowed f rs (EvIntentJournaled intent (elements (fl_snapshot f)) slots) (set_state FsIntentJournaled (set_sequence n f)).
Proof.
  intros Hf Es. destruct (open_rows _ _ Hf) as (Hi & Hn & Hd); [by rewrite Es|].
  split; simpl; try done.
  - set_solver.
  - by rewrite list_to_set_elements_L.
  - by rewrite orb_true_r.
  - by intros -> ->.
Qed.
Lemma row_discover f rs owner n :
  flight_ok f rs -> (forall x, fl_state f <> FsSettled x) ->
  row_allowed f rs (EvCollateralDiscovered owner) (set_collateral ({[owner]} ∪ fl_collateral f) (set_sequence n f)).
Proof.
  intros Hf Hu. split; simpl; try done.
  - set_solver.
  - intros Hh. by destruct (fo_intent _ _ Hf Hh).
  - intros Hj. rewrite orb_false_r. by destruct (fo_journaled _ _ Hf Hj).
  - intros Hl. split; [by apply (fo_early _ _ Hf)|done].
Qed.
Lemma row_dispatch f rs n :
  flight_ok f rs -> fl_state f = FsIntentJournaled ->
  row_allowed f rs EvDispatchStarted (set_state FsSignaling (set_sequence n f)).
Proof.
  intros Hf Es. destruct (fo_journaled _ _ Hf Es) as [Hi Hd]. split; simpl; try done. set_solver.
Qed.
Lemma flight_ok_signaling f g rs :
  flight_ok f rs ->
  fl_state (g f) = FsSignaling -> fl_collateral (g f) = fl_collateral f ->
  fl_process_reserved (g f) = fl_process_reserved f -> fl_request_reserved (g f) = fl_request_reserved f ->
  (late (fl_state f) = true -> fl_snapshot (g f) = fl_snapshot f) -> flight_ok (g f) rs.
Proof.
  intros Hf E1 E3 E4 E5 Hsn. destruct Hf. split; rewrite ?E1, ?E3, ?E4, ?E5; try done.
  intros Hh. destruct (fo_intent0 Hh) as [Hi Hl]. by rewrite Hsn.
Qed.

Lemma keeps_close : keeps close_admission.
Proof.
  apply keeps_get. intros f. destruct (is_open f) eqn:Eo; [|apply keeps_fail]. cbn [negb]. apply is_open_state in Eo.
  eapply (hoare_bind _ _ _ (fun _ => flight_inv)); [|intros _; by apply (hoare_ret (I := flight_inv) _ (fun _ => flight_inv))].
  apply hoare_modify. intros s [Hs E]. pose proof (fi_flight _ Hs) as Hf. subst f.
  apply (inv_modify _ (fun f => set_state FsAdmissionClosed (set_snapshot (fl_owners f) f))); [done| |done|done|].
  - by apply flight_ok_close.
  - destruct (open_rows _ _ Hf) as (_ & -> & _); [by rewrite Eo|]. by intros [].
Qed.

Lemma keeps_intent io intent : clean io -> keeps (journal_intent id io intent).
Proof.
  intros Hc. apply keeps_get. intros f. destruct (fl_state f) eqn:Es; try apply keeps_fail.
  case_bool_decide; [|apply keeps_fail]. cbn [negb].
  apply hoare_row_last; [done|by intros ? [? _]|]. row_step. subst f.
  by apply row_intent; [apply (fi_flight _ Hinv)|].
Qed.

Lemma keeps_discover io owner : clean io -> keeps (discover_collateral_owner id io owner).
Proof.
  intros Hc. apply keeps_get. intros f.
  assert (Hrow : (forall x, fl_state f <> FsSettled x) ->
    hoare (at_flight f)
      (flight_append id (io 0%nat) (EvCollateralDiscovered owner) ;;;
       modify (fun f => set_collateral ({[owner]} ∪ fl_collateral f) f) ;;; ret true) (fun _ => flight_inv)).
  { intros Hu. apply hoare_row; [done|by intros ? [? _]| |by apply (hoare_ret (I := flight_inv) true (fun _ => flight_inv))].
    row_step. subst f. by apply row_discover; [apply (fi_flight _ Hinv)|]. }
  destruct (fl_state f) eqn:Es; try apply keeps_fail; (case_match; [apply keeps_ret|by apply Hrow]).
Qed.

Lemma keeps_observe io e :
  clean io -> plain_row e = true -> consumes_when_present e = false -> reserved e = 0%nat -> keeps (observe_row id io e).
Proof.
  intros Hc H1 H2 H3. apply keeps_get. intros f. destruct (is_signaling f) eqn:Eo; [|apply keeps_fail].
  apply is_signaling_state in Eo. apply hoare_bare_row; [done|by intros ? [? _]|]. intros s [Hs ->]. by rewrite Eo.
Qed.
Lemma keeps_open_row io e : clean io -> plain_row e = true -> reserved e = 0%nat -> keeps (open_row id io e).
Proof.
  intros Hc H1 H2. apply keeps_get. intros f. destruct (is_open f) eqn:Eo; [|apply keeps_fail].
  apply is_open_state in Eo. apply hoare_bare_row; [done|by intros ? [? _]|]. intros s [Hs ->]. by rewrite Eo.
Qed.

(** Adopting: a durable result is taken over as it stands, and without one nothing changes. *)
Lemma inv_settle_record s r n :
  flight_inv s -> settled_result (rowsof s) = Some r ->
  flight_inv (mkSys (set_state (FsSettled r) (set_sequence n (flight s))) (journal s) (published s)).
Proof.
  intros [Hj Hf Hl Hp] Hr. split; simpl; [done| |by rewrite Hr|done].
  destruct Hf. split; simpl; try done.
  - by intros x [= <-].
  - intros Hh. by destruct (fo_intent0 Hh).
Qed.
Lemma inv_refusal s e : flight_inv s -> flight_inv (mkSys (set_refusal e (flight s)) (journal s) (published s)).
Proof. intros Hs. by apply inv_aside. Qed.

Definition adopted (P : Sys -> Prop) (a : option ResourceActionResult) (s : Sys) : Prop :=
  match a with
  | Some r => flight_inv s /\ settled_result (rowsof s) = Some r
  | None => flight_inv s /\ P s /\ settled_result (rowsof s) = None
  end.
Lemma hoare_adopt (P : Sys -> Prop) io :
  (forall s, P s -> flight_inv s) -> hoare P (adopt id io) (adopted P).
Proof.
  intros HP s Hs. pose proof (HP _ Hs) as Hinv. unfold adopt.
  destruct io as [e|]; [by apply inv_refusal|].
  simpl. unfold records. destruct (outstanding (rowsof s)); cbn [result_bind]; [|by apply inv_refusal].
  destruct (settled_result (rowsof s)) as [r|] eqn:Er; [|done].
  split; [by apply inv_settle_record|done].
Qed.
Lemma adopted_inv P a s : adopted P a s -> flight_inv s.
Proof. destruct a; by intros []. Qed.

Lemma keeps_dispatch io : clean io -> keeps (begin_journaled_dispatch id io).
Proof.
  intros Hc. eapply hoare_bind; [by apply (hoare_adopt flight_inv)|]. intros a. cbn beta.
  eapply (hoare_bind _ _ _ (fun f s => adopted flight_inv a s /\ flight s = f)); [by apply hoare_get|]. intros f.
  assert (Hfail : forall B e (Q : B -> Sys -> Prop), hoare (fun s => adopted flight_inv a s /\ flight s = f) (fail e) Q)
    by (intros B e Q s [Hs _]; by eapply adopted_inv).
  destruct a; [apply Hfail|]. destruct (fl_state f) eqn:Es; try apply Hfail.
  eapply hoare_bind; [eapply (hoare_catch _ _ _ (fun _ => flight_inv)); [apply hoare_append; [done|]; intros s []; by eapply adopted_inv|]|].
  - intros e. eapply hoare_bind; [by apply (hoare_adopt flight_inv)|]. intros a. cbn beta.
    eapply (hoare_bind _ _ _ (fun f s => flight_inv s)); [apply hoare_get; intros s; apply adopted_inv|].
    intros f'. destruct a; apply hoare_fail.
  - intros ?. apply hoare_modify. intros s Hs. eapply appended_inv; [exact Hs|]. intros s0 [(Hinv & _ & Hn) <-]. simpl.
    split_and!; [done|done|]. by apply row_dispatch; [apply (fi_flight _ Hinv)|].
Qed.

(** ** Settlement *)
Lemma flight_ok_terminal f f' rs res r cap :
  flight_ok f rs -> settled_result rs = None -> rec_event r = EvSettled res -> admission_check rs cap r = Ok tt ->
  late (fl_state f') = true -> (forall x, fl_state f' = FsSettled x -> x = res) ->
  (fl_state f' = FsIntentJournaled -> fl_state f = FsIntentJournaled) ->
  fl_snapshot f' = fl_snapshot f -> fl_collateral f' = fl_collateral f ->
  fl_process_reserved f' = fl_process_reserved f -> fl_request_reserved f' = fl_request_reserved f ->
  flight_ok f' (rs ++ [r]).
Proof.
  intros Hf Hn He Hadm Hl Hst Hj E2 E3 E4 E5.
  split; [..|rewrite E4, E5; intros Hp Hr; eapply slots_snoc; try done; by rewrite He];
    rewrite ?settled_result_snoc, ?has_intent_snoc, ?dispatches_snoc, ?collateral_of_snoc, ?intents_of_snoc, ?He, ?E2, ?E3;
    simpl; rewrite ?orb_false_r, ?Nat.add_0_r.
  - intros x Hx. by rewrite (Hst x Hx).
  - rewrite (fo_collateral _ _ Hf). set_solver.
  - intros Hh. destruct (fo_intent _ _ Hf Hh) as [<- _]. split; [set_solver|done].
  - done.
  - intros H. by apply (fo_journaled _ _ Hf), Hj.
  - congruence.
  - apply dispatch_ordered_snoc; [apply (fo_ordered _ _ Hf)|by rewrite He].
Qed.

(** The terminal row, whoever writes it, and the publication its writer owes. *)
Lemma inv_terminal s f' res :
  flight_inv s -> settled_result (rowsof s) = None ->
  let r := mkRecord JOURNAL_SCHEMA (length (rowsof s) + 1) (EvSettled res) in
  admission_check (rowsof s) (jn_cap (journal s)) r = Ok tt ->
  late (fl_state f') = true -> (forall x, fl_state f' = FsSettled x -> x = res) ->
  (fl_state f' = FsIntentJournaled -> fl_state (flight s) = FsIntentJournaled) ->
  fl_snapshot f' = fl_snapshot (flight s) -> fl_collateral f' = fl_collateral (flight s) ->
  fl_process_reserved f' = fl_process_reserved (flight s) -> fl_request_reserved f' = fl_request_reserved (flight s) ->
  flight_inv (mkSys f' (with_rows (journal s) id (rowsof s ++ [r]))
    (published s ++ publish_result id (elements (fl_snapshot (flight s) ∪ fl_collateral (flight s))) res)).
Proof.
  intros Hs Hn r Hadm Hl Hst Hj E2 E3 E4 E5. destruct (fi_live _ Hs Hn) as (_ & _ & ->).
  split; simpl; rewrite ?rows_with, ?settled_result_snoc; simpl.
  - unfold journal_ok. rewrite rows_with. by apply rows_ok_snoc; [apply (fi_journal _ Hs)|..].
  - by eapply flight_ok_terminal; [apply (fi_flight _ Hs)|..].
  - done.
  - intros x [= <-]. by rewrite E2, E3.
Qed.

Lemma append_terminal_clean io res j :
  unwritten io ->
  append_terminal_io io id res j =
    match io_error io (append_terminal id res j) with
    | Ok (o, j') => (j', Ok o)
    | Err e => (j, Err e)
    end.
Proof.
  intros Hc. unfold append_terminal_io, after_fault, io_error.
  destruct io as [x|]; [rewrite (Hc x eq_refl)|]; by destruct (append_terminal _ _ _) as [[]|].
Qed.

(** A settlement whose publication is still owed. *)
Definition owed (sm : Settlement) (s : Sys) : Prop :=
  settled_result (rowsof s) = Some (sm_result sm) /\
  flight_inv (mkSys (flight s) (journal s) (published s ++ publish_result id (sm_recipients sm) (sm_result sm))).

Lemma owed_existing s r : flight_inv s -> settled_result (rowsof s) = Some r -> owed (mkSettlement r [] false) s.
Proof. intros Hs Hr. split; [done|]. simpl. rewrite app_nil_r. by destruct s. Qed.

Lemma hoare_settle_locked io proposed : clean io -> hoare flight_inv (settle_locked id io proposed) owed.
Proof.
  intros Hc. apply keeps_get. intros f. destruct (fl_refusal f); [apply keeps_fail|].
  destruct (is_signaling f) eqn:Eg; [|apply keeps_fail]. cbn [negb]. apply is_signaling_state in Eg.
  eapply hoare_bind; [apply (hoare_adopt (at_flight f)); by intros ? [? _]|].
  intros [r|]; [intros s [Hs Hr]; by apply owed_existing|].
  intros s (Hs & (_ & E) & Hn). rewrite append_terminal_clean by done. destruct (io 1%nat); [by apply inv_refusal|].
  simpl. destruct (append_terminal id proposed (journal s)) as [[out j']|] eqn:Ea; [|by apply inv_refusal].
  apply append_terminal_ok in Ea as [(x & Hx & _)|(_ & -> & -> & Hadm)]; [congruence|].
  destruct (fi_live _ Hs Hn) as (_ & Hd & _). rewrite E in Hd |- *.
  split; simpl; [by rewrite rows_with, settled_result_snoc|]. rewrite Hd, difference_empty_L, <- E.
  apply inv_terminal; try done. simpl. by intros x [= <-].
Qed.

Lemma keeps_publish sm : hoare (owed sm) (publish id sm) (fun _ s => flight_inv s /\ settled_result (rowsof s) = Some (sm_result sm)).
Proof. intros s [Hr Hs]. done. Qed.

Lemma hoare_settle io result :
  clean io -> hoare flight_inv (settle id io result) (fun r s => flight_inv s /\ settled_result (rowsof s) = Some r).
Proof.
  intros Hc. eapply hoare_bind; [by apply hoare_settle_locked|]. intros sm. cbn beta.
  eapply hoare_bind; [apply keeps_publish|]. intros ?. by apply (hoare_ret (I := flight_inv) (sm_result sm) (fun r s => flight_inv s /\ settled_result (rowsof s) = Some r)).
Qed.
Lemma keeps_settle io result : clean io -> keeps (settle id io result).
Proof. intros Hc. eapply hoare_conseq; [by apply hoare_settle|done|]. by intros r s [Hs _]. Qed.

Lemma inv_signaling s (g : Flight -> Flight) :
  flight_inv s -> settled_result (rowsof s) = None ->
  (forall f, fl_state (g f) = FsSignaling /\ fl_collateral (g f) = fl_collateral f /\
     fl_process_reserved (g f) = fl_process_reserved f /\ fl_request_reserved (g f) = fl_request_reserved f /\
     fl_sequence (g f) = fl_sequence f /\ fl_delivered (g f) = fl_delivered f) ->
  (late (fl_state (flight s)) = true -> fl_snapshot (g (flight s)) = fl_snapshot (flight s)) ->
  flight_inv (mkSys (g (flight s)) (journal s) (published s)).
Proof.
  intros Hs Hn Hg Hsn. destruct (Hg (flight s)) as (E1 & E3 & E4 & E5 & E6 & E7).
  apply inv_modify; [done| |done|done|rewrite Hn; by intros []].
  by apply flight_ok_signaling; [apply (fi_flight _ Hs)|..].
Qed.

Lemma keeps_failed_mark io : keeps (settle_failed_mark id io).
Proof.
  eapply hoare_bind; [by apply (hoare_adopt flight_inv)|]. intros [r|]; [by intros s [Hs _]|].
  eapply (hoare_bind _ _ _ (fun f s => flight_inv s /\ settled_result (rowsof s) = None /\ flight s = f)).
  { apply hoare_get. by intros s (Hs & _ & Hn). }
  intros f. assert (Hgo : forall g, (forall f, fl_state (g f) = FsSignaling /\ fl_collateral (g f) = fl_collateral f /\
       fl_process_reserved (g f) = fl_process_reserved f /\ fl_request_reserved (g f) = fl_request_reserved f /\
       fl_sequence (g f) = fl_sequence f /\ fl_delivered (g f) = fl_delivered f) ->
     (late (fl_state f) = true -> fl_snapshot (g f) = fl_snapshot f) ->
     hoare (fun s => flight_inv s /\ settled_result (rowsof s) = None /\ flight s = f)
       (modify g ;;; ret (A := option ResourceActionResult) None) (fun _ => flight_inv)).
  { intros g Hg Hsn. eapply (hoare_bind _ _ _ (fun _ => flight_inv)); [|intros _; by apply (hoare_ret (I := flight_inv) None (fun _ => flight_inv))].
    apply hoare_modify. intros s (Hs & Hn & <-). by apply inv_signaling. }
  destruct (fl_state f) eqn:Es; [by apply Hgo|by apply Hgo|by apply Hgo|..]; by intros s (Hs & _).
Qed.

Lemma keeps_guards g : (forall f, exists n gs, g f = set_guards n gs f) -> keeps (modify g).
Proof.
  intros Hg. apply hoare_modify. intros s Hs. apply inv_aside; [done|]. intros f. by destruct (Hg f) as (n & gs & ->).
Qed.

(** What a transfer gives up on is the result of a settlement. *)
Definition transferred (x : CleanupDeadlineTransfer) (s : Sys) : Prop :=
  match x with
  | NotDue => flight_inv s
  | Transferred _ => flight_inv s /\ is_Some (settled_result (rowsof s))
  | TransferUnknown r _ => flight_inv s /\ settled_result (rowsof s) = Some r
  end.

Lemma hoare_transfer_settle io result owner :
  clean io -> hoare flight_inv
    (sm <- settle_locked id io result ;; publish id sm ;;;
     ret (if sm_appended sm then Transferred owner else TransferUnknown (sm_result sm) false)) transferred.
Proof.
  intros Hc. eapply hoare_bind; [by apply hoare_settle_locked|]. intros sm. cbn beta.
  eapply hoare_bind; [apply keeps_publish|]. intros ? s [Hs Hr]. simpl. by destruct (sm_appended sm); split; eauto.
Qed.
Lemma hoare_transfer_unknown io now proof :
  clean io -> hoare flight_inv (r <- settle_unknown id io now ;; ret (TransferUnknown r proof)) transferred.
Proof. intros Hc. eapply hoare_bind; [by apply hoare_settle|]. by intros r s Hs. Qed.

Lemma hoare_transfer io now deadline token same reason :
  clean io -> hoare flight_inv (transfer_cleanup_deadline id attempt io now deadline token same reason) transferred.
Proof.
  intros Hc. unfold transfer_cleanup_deadline. destruct (now <? deadline); [by intros s Hs|].
  destruct same; [|by apply hoare_transfer_unknown]. cbn [negb]. apply keeps_get. intros f.
  case_bool_decide; cbn [negb]; [|eapply hoare_conseq; [by apply hoare_transfer_unknown| |]; [by intros ? [? _]|done]].
  eapply hoare_bind; [apply (hoare_adopt (at_flight f)); by intros ? [? _]|].
  intros [r|]; [by intros s Hs|].
  eapply (hoare_bind _ _ _ at_flight); [apply hoare_get; by intros s (Hs & _)|]. intros f'.
  destruct (is_signaling f') eqn:Eg; [|apply keeps_fail]. cbn [negb]. apply is_signaling_state in Eg.
  eapply (hoare_bind _ _ _ (fun a s => flight_inv s /\ forall r, a = Some r -> settled_result (rowsof s) = Some r)).
  - eapply (hoare_catch _ _ _ (fun _ => flight_inv)).
    + eapply (hoare_bind _ _ _ (fun _ => flight_inv)); [|by intros ? s Hs].
      apply hoare_bare_row; [done|by intros ? [? _]|]. intros s [_ ->]. by rewrite Eg.
    + intros e. eapply hoare_bind; [by apply (hoare_adopt flight_inv)|].
      intros [r|] s Hs; [|by apply Hs]. destruct Hs as [Hs Hr]. split; [done|]. by intros x [= <-].
  - intros [r|]; [intros s [Hs Hr]; by split; [|apply Hr]|].
    eapply hoare_conseq; [apply hoare_transfer_settle; by intros n| |]; [by intros ? [? _]|done].
Qed.
Lemma keeps_transfer io now deadline token same reason :
  clean io -> keeps (transfer_cleanup_deadline id attempt io now deadline token same reason).
Proof. intros Hc. eapply hoare_conseq; [by apply hoare_transfer|done|]. intros [| |] s; simpl; [done|by intros []|by intros []]. Qed.

Lemma keeps_recover io duration : clean io -> keeps (recover_dead id io duration).
Proof.
  intros Hc s Hs. unfold recover_dead, recover_journaled_intent.
  assert (forall p, p = published s -> flight_inv (mkSys (flight s) (journal s) p)) as Hsame by (intros p ->; by destruct s).
  destruct (io 0%nat); [by apply Hsame|].
  simpl. unfold records. destruct (outstanding (rowsof s)); cbn [result_bind]; [|by apply Hsame].
  destruct (settled_result (rowsof s)) as [r|] eqn:Hn; [by apply Hsame|].
  destruct (has_intent (rowsof s)) eqn:Hh; [|by apply Hsame]. cbn [negb].
  rewrite append_terminal_clean by done. destruct (io 1%nat); [by apply Hsame|].
  simpl. destruct (append_terminal id (unknown_result duration) (journal s)) as [[out j']|] eqn:Ea; [|by apply Hsame].
  apply append_terminal_ok in Ea as [(x & Hx & _)|(_ & -> & -> & Hadm)]; [congruence|].
  pose proof (fi_flight _ Hs) as Hf. destruct (fo_intent _ _ Hf Hh) as [Hi Hl].
  rewrite recorded_owners_spec, intents_of_snoc, collateral_of_snoc. simpl.
  rewrite !union_empty_r_L, Hi, <- (fo_collateral _ _ Hf). apply inv_terminal; try done.
  intros x Hx. specialize (fo_settled _ _ Hf x Hx). congruence.
Qed.

(** No call of the section fails after its row was written. *)
Definition clean_op (op : Op) : Prop :=
  match op with
  | OpAttachLegacy _ | OpDetachLegacy _ | OpClose | OpRetain | OpDropGuard _ => True
  | OpAttach io _ | OpDetach io _ | OpReserveProcess io | OpIntent io _ | OpDiscover io _ | OpDispatch io
  | OpSignals io _ | OpRemoval io _ | OpProcessTree io _ | OpContainerIdentity io _ | OpBindingFailure io _ _
  | OpSettle io _ | OpSettleFailedMark io | OpTransfer io _ _ _ _ _ | OpRecover io _ => clean io
  end.

Lemma exec_inv s op : clean_op op -> flight_inv s -> flight_inv (exec id attempt key s op).
Proof.
  intros Hc. assert (H : forall A (m : M A), keeps m -> flight_inv s -> flight_inv (fst (m s)))
    by (intros A m Hm Hs; by eapply hoare_exec).
  destruct op; cbn [exec]; simpl in Hc; apply H.
  - by apply keeps_attach.
  - apply keeps_attach_legacy.
  - by apply keeps_detach.
  - apply keeps_detach_legacy.
  - by apply keeps_reserve_process.
  - apply keeps_close.
  - by apply keeps_intent.
  - by apply keeps_discover.
  - by apply keeps_dispatch.
  - by apply keeps_observe.
  - by apply keeps_observe.
  - unfold journal_process_tree. case_match; [apply hoare_fail|by apply keeps_open_row].
  - unfold journal_container_identity. case_match; [apply hoare_fail|by apply keeps_open_row].
  - by apply keeps_open_row.
  - by apply keeps_settle.
  - apply keeps_failed_mark.
  - apply keeps_get. intros f. eapply (hoare_bind _ _ _ (fun _ => flight_inv)); [|by intros ? ?].
    eapply hoare_conseq; [apply keeps_guards; by eauto| |]; [by intros ? [? _]|done].
  - apply keeps_guards. by eauto.
  - by apply keeps_transfer.
  - by apply keeps_recover.
Qed.

Lemma start_inv j : rows j id = [] -> flight_inv (start id attempt key j).
Proof.
  intros Hj. unfold start, create, bind. simpl.
  set (f0 := set_reserved _ _ _).
  assert (flight_inv (mkSys f0 j [])) as H0.
  { split; simpl; rewrite ?Hj.
    - unfold journal_ok. rewrite Hj. apply rows_ok_nil.
    - split; simpl; try done; [by intros []|by intros []|]. intros _ _. by exists 0%nat.
    - done.
    - done. }
  pose proof (hoare_append (eq (mkSys f0 j [])) None (EvFlightReserved key attempt)) as Ha.
  specialize (Ha ltac:(done) ltac:(by intros s <-) _ eq_refl). change (no_fault 0%nat) with (@None IoFault).
  destruct (flight_append id None _ (mkSys f0 j [])) as [[f1 j1 p1] [[]|e]]; [|done].
  eapply (appended_inv _ _ _ (fun f => f) Ha). intros s0 <-. split_and!; [done|done|].
  apply row_plain; simpl; try done; [apply (fi_flight _ H0)|]. intros _. by destruct key.
Qed.
Theorem run_inv j ops : rows j id = [] -> Forall clean_op ops -> flight_inv (foldl (exec id attempt key) (start id attempt key j) ops).
Proof.
  intros Hj. induction ops as [|op ops IH] using rev_ind; [by intros; apply start_inv|].
  intros [Hc [Ho _]%Forall_cons]%Forall_app. rewrite foldl_app. apply exec_inv; auto.
Qed.
End Invariant.
