(* ===== verification/FlightFaults.v ===== *)
(** * Retained resource flights when the journal fails late

    A journal call can fail after its row is in the file. The flight then does
    not know of a row of its own: its next sequence number is stale, the journal
    refuses every further row it proposes, and only a settlement, which is
    numbered by the journal, can still follow. Here: what holds of a flight on
    every schedule, such failures included. *)
From S2P Require Import Prelude Domain ExecutionPolicy FlightJournal ResourceFlight.
Open Scope Z_scope.
Open Scope bridge_scope.

Section Faults.
Context (id attempt : string) (key : FlightKey).
Local Abbreviation rowsof s := (rows (journal s) id).

(** Who was told the result [r]: nobody, or each owner of the rows (a recovery
    settled), or each owner the flight knows (it settled). *)
Definition told (f : Flight) (rs : list JournalRecord) (published : list Aggregation) (r : ResourceActionResult) : Prop :=
  published = [] \/
  exists os, NoDup os /\ published = publish_result id os r /\
    (os = elements (recorded_owners rs) \/
     fl_state f = FsSettled r /\ os = elements (fl_snapshot f ∪ fl_collateral f)).

(** The flight and its rows agree ([flight_ok]) while it knows all of them. *)
Record late_inv (s : Sys) : Prop := {
  ff_journal : journal_ok (journal s) id;
  ff_ordered : dispatch_ordered (rowsof s);
  ff_settled : forall r, fl_state (flight s) = FsSettled r -> settled_result (rowsof s) = Some r;
  ff_slots : fl_process_reserved (flight s) = false -> fl_request_reserved (flight s) = false ->
    has_intent (rowsof s) = true ->
    exists n, outstanding (rowsof s) = Ok n /\ (n + spent (rowsof s) = LIFECYCLE_SLOTS)%nat;
  ff_synced : settled_result (rowsof s) = None -> fl_sequence (flight s) = S (length (rowsof s)) ->
    flight_ok (flight s) (rowsof s);
  ff_untold : settled_result (rowsof s) = None -> fl_delivered (flight s) = ∅ /\ published s = [];
  ff_told : forall r, settled_result (rowsof s) = Some r -> told (flight s) (rowsof s) (published s) r }.

Local Abbreviation hoare := (triple late_inv).
Definition holds {A} (m : M A) : Prop := hoare late_inv m (fun _ => late_inv).
Definition at_late (f : Flight) (s : Sys) : Prop := late_inv s /\ flight s = f.

Lemma holds_get {A} (k : Flight -> M A) Q :
  (forall f, hoare (at_late f) (k f) Q) -> hoare late_inv (bind get k) Q.
Proof. intros H. eapply hoare_bind; [by apply (hoare_get _ at_late)|done]. Qed.
Lemma holds_fail {A} f e (Q : A -> Sys -> Prop) : hoare (at_late f) (fail e) Q.
Proof. by intros s [Hs _]. Qed.
Lemma holds_ret {A} f (a : A) : hoare (at_late f) (ret a) (fun _ => late_inv).
Proof. by intros s [Hs _]. Qed.
Lemma holds_end {A} (a : A) : holds (ret a).
Proof. by intros s Hs. Qed.

(** A change of the record that its rows allow. *)
Lemma late_modify s (g : Flight -> Flight) :
  late_inv s ->
  fl_sequence (g (flight s)) = fl_sequence (flight s) -> fl_delivered (g (flight s)) = fl_delivered (flight s) ->
  fl_process_reserved (g (flight s)) = fl_process_reserved (flight s) ->
  fl_request_reserved (g (flight s)) = fl_request_reserved (flight s) ->
  (forall r, fl_state (g (flight s)) = FsSettled r -> fl_state (flight s) = FsSettled r) ->
  (forall r, fl_state (flight s) = FsSettled r -> fl_state (g (flight s)) = FsSettled r /\
     fl_snapshot (g (flight s)) = fl_snapshot (flight s) /\ fl_collateral (g (flight s)) = fl_collateral (flight s)) ->
  (settled_result (rowsof s) = None -> flight_ok (flight s) (rowsof s) -> flight_ok (g (flight s)) (rowsof s)) ->
  late_inv (mkSys (g (flight s)) (journal s) (published s)).
Proof.
  intros [Hj Ho Hs Hl Hy Hu Ht] E1 E2 E3 E4 Hin Hout Hok.
  split; simpl; rewrite ?E1, ?E2, ?E3, ?E4; eauto.
  intros r Hr. destruct (Ht r Hr) as [?|(os & Hnd & Hp & Hw)]; [by left|right]. exists os. split_and!; [done|done|].
  destruct Hw as [?|[Hst ->]]; [by left|right]. by destruct (Hout r Hst) as (? & -> & ->).
Qed.

Lemma late_aside s (g : Flight -> Flight) :
  late_inv s ->
  (forall f, fl_state (g f) = fl_state f /\ fl_snapshot (g f) = fl_snapshot f /\ fl_collateral (g f) = fl_collateral f /\
     fl_process_reserved (g f) = fl_process_reserved f /\ fl_request_reserved (g f) = fl_request_reserved f /\
     fl_sequence (g f) = fl_sequence f /\ fl_delivered (g f) = fl_delivered f) ->
  late_inv (mkSys (g (flight s)) (journal s) (published s)).
Proof.
  intros Hs Hg. destruct (Hg (flight s)) as (E1 & E2 & E3 & E4 & E5 & E6 & E7).
  apply late_modify; rewrite ?E1; try done. intros _ Hf. by eapply flight_ok_ext.
Qed.
Lemma late_refusal s e : late_inv s -> late_inv (mkSys (set_refusal e (flight s)) (journal s) (published s)).
Proof. intros Hs. by apply late_aside. Qed.

(** ** Rows *)

(** A row the flight may propose, and the record it goes with. The slots are
    counted as the flight does, unless there is no intent to count for. *)
Definition proposes (s : Sys) (e : JournalEvent) (f' : Flight) : Prop :=
  settled_result (rowsof s) = None -> flight_ok (flight s) (rowsof s) ->
  row_allowed (flight s) (rowsof s) e f' /\
  fl_sequence f' = S (fl_sequence (flight s)) /\ fl_delivered f' = fl_delivered (flight s) /\
  (fl_process_reserved f' = fl_process_reserved (flight s) /\ fl_request_reserved f' = fl_request_reserved (flight s)
   \/ has_intent (rowsof s) = false /\ is_intent e = false).

Lemma append_synced s e j' :
  late_inv s -> append id (mkRecord JOURNAL_SCHEMA (fl_sequence (flight s)) e) (journal s) = Ok j' ->
  settled_result (rowsof s) = None /\ fl_sequence (flight s) = S (length (rowsof s)) /\
  flight_ok (flight s) (rowsof s) /\
  j' = with_rows (journal s) id (rowsof s ++ [mkRecord JOURNAL_SCHEMA (fl_sequence (flight s)) e]) /\
  admission_check (rowsof s) (jn_cap (journal s)) (mkRecord JOURNAL_SCHEMA (fl_sequence (flight s)) e) = Ok tt.
Proof.
  intros Hs (Hn & -> & Hadm)%append_ok. pose proof (admission_check_ok _ _ _ Hadm) as (n & _ & Hq & _).
  simpl in Hq. split_and!; try done. by apply (ff_synced _ Hs).
Qed.

(** The row is in the file; the record follows it ([f']), or has not heard of
    it ([flight s]). *)
Lemma late_append s e f' f2 j' :
  late_inv s -> proposes s e f' ->
  append id (mkRecord JOURNAL_SCHEMA (fl_sequence (flight s)) e) (journal s) = Ok j' ->
  f2 = f' \/ f2 = flight s ->
  late_inv (mkSys f2 j' (published s)).
Proof.
  intros Hs Hp Ha Hf2. destruct (append_synced s e j' Hs Ha) as (Hn & Hq & Hf & -> & Hadm).
  destruct (Hp Hn Hf) as (Hra & Hs' & Hd' & Hfl). destruct (ra_unsettled _ _ _ _ Hra) as [He Hst].
  set (r := mkRecord JOURNAL_SCHEMA (fl_sequence (flight s)) e) in *.
  assert (Hns : settled_result (rowsof s ++ [r]) = None) by (by rewrite settled_result_snoc; simpl; rewrite He).
  assert (Hf' : flight_ok f' (rowsof s ++ [r])) by (by eapply flight_ok_snoc).
  destruct (ff_untold _ Hs Hn) as [Hd Hpub].
  split; simpl; rewrite ?rows_with, ?Hns; try done.
  - unfold journal_ok. rewrite rows_with. by apply rows_ok_snoc; [apply (ff_journal _ Hs)|..].
  - apply (fo_ordered _ _ Hf').
  - intros x Hx. destruct Hf2 as [->| ->]; [by destruct (Hst x)|].
    pose proof (ff_settled _ Hs x Hx). congruence.
  - intros Hpr Hrq Hh.
    assert (Hsl : has_intent (rowsof s ++ [r]) = true -> fl_process_reserved f' = false -> fl_request_reserved f' = false ->
      exists n, outstanding (rowsof s ++ [r]) = Ok n /\ (n + spent (rowsof s ++ [r]) = LIFECYCLE_SLOTS)%nat).
    { intros Hh' H1 H2. destruct (fo_slots _ _ Hf' H1 H2) as (n & Hn' & Hs2). rewrite Hh' in Hs2. eauto. }
    destruct Hfl as [[E1 E2]|[E1 E2]].
    + apply Hsl; [done|..]; destruct Hf2 as [->| ->]; congruence.
    + rewrite has_intent_snoc, E1 in Hh. simpl in Hh. congruence.
  - rewrite length_app. simpl. intros _ Hq2. destruct Hf2 as [->| ->]; [done|lia].
  - intros _. destruct Hf2 as [->| ->]; [by rewrite Hd'|done].
Qed.

Lemma flight_append_late io e s f' :
  late_inv s -> proposes s e f' ->
  match flight_append id io e s with
  | (s', Ok _) => exists j', append id (mkRecord JOURNAL_SCHEMA (fl_sequence (flight s)) e) (journal s) = Ok j' /\
                  s' = mkSys (set_sequence (S (fl_sequence (flight s))) (flight s)) j' (published s)
  | (s', Err _) => late_inv s' /\ flight s' = flight s
  end.
Proof.
  intros Hs Hp. unfold flight_append, append_io.
  assert (Hsame : late_inv (mkSys (flight s) (journal s) (published s))) by (by destruct s).
  destruct (append _ _ _) as [j'|e'] eqn:Ea; destruct io as [x|]; simpl; try done; [|eauto].
  unfold after_fault. destruct (if_written x); split; try done. eapply late_append; eauto.
Qed.

(** Append a row, then bring the record up to date. *)
Lemma holds_row (P : Sys -> Prop) io e g :
  (forall s, P s -> late_inv s /\ proposes s e (g (set_sequence (S (fl_sequence (flight s))) (flight s)))) ->
  hoare P (flight_append id io e ;;; modify g) (fun _ => late_inv).
Proof.
  intros HP s Hs. destruct (HP s Hs) as [Hi Hp]. unfold bind, modify.
  pose proof (flight_append_late io e s _ Hi Hp) as Ha.
  destruct (flight_append id io e s) as [s' [[]|err]]; [|by destruct Ha].
  destruct Ha as (j' & Ha & ->). simpl. eapply late_append; eauto.
Qed.
Lemma holds_row_then {A} (P : Sys -> Prop) io e g (k : M A) :
  (forall s, P s -> late_inv s /\ proposes s e (g (set_sequence (S (fl_sequence (flight s))) (flight s)))) ->
  holds k -> hoare P (flight_append id io e ;;; modify g ;;; k) (fun _ => late_inv).
Proof.
  intros HP Hk s Hs. pose proof (holds_row P io e g HP s Hs) as H. revert H. unfold bind.
  destruct (flight_append id io e s) as [s1 [[]|err]]; [|done]. destruct (modify g s1) as [s2 [[]|err]]; [|done]. apply Hk.
Qed.
Lemma holds_bare (P : Sys -> Prop) io e :
  (forall s, P s -> late_inv s /\ proposes s e (set_sequence (S (fl_sequence (flight s))) (flight s))) ->
  forall s, P s -> let s' := fst (flight_append id io e s) in late_inv s' /\ fl_state (flight s') = fl_state (flight s).
Proof.
  intros HP s Hs. destruct (HP s Hs) as [Hi Hp]. pose proof (flight_append_late io e s _ Hi Hp) as Ha.
  destruct (flight_append id io e s) as [s' [[]|err]]; simpl; [|by destruct Ha as [? ->]].
  destruct Ha as (j' & Ha & ->). split; [|done]. eapply late_append; eauto.
Qed.
Lemma holds_bare_row (P : Sys -> Prop) io e :
  (forall s, P s -> late_inv s /\ proposes s e (set_sequence (S (fl_sequence (flight s))) (flight s))) ->
  hoare P (flight_append id io e) (fun _ => late_inv).
Proof.
  intros HP s Hs. pose proof (holds_bare P io e HP s Hs) as H. simpl in H.
  by destruct (flight_append id io e s) as [s' [[]|err]]; destruct H.
Qed.

Lemma proposes_plain s e f' :
  plain_row e = true -> (forall x, fl_state (flight s) <> FsSettled x) ->
  (late (fl_state (flight s)) = true -> consumes_when_present e = false) -> reserved e = 0%nat ->
  fl_state f' = fl_state (flight s) -> fl_snapshot f' = fl_snapshot (flight s) -> fl_collateral f' = fl_collateral (flight s) ->
  fl_process_reserved f' = fl_process_reserved (flight s) -> fl_request_reserved f' = fl_request_reserved (flight s) ->
  fl_sequence f' = S (fl_sequence (flight s)) -> fl_delivered f' = fl_delivered (flight s) ->
  proposes s e f'.
Proof.
  intros H1 H2 H3 H4 E1 E2 E3 E4 E5 E6 E7 Hn Hf. split_and!; [|done|done|by left].
  apply row_plain; try done. by rewrite E4, E5.
Qed.

(** ** Every section *)
Lemma holds_attach io owner : holds (attach_owner id io owner).
Proof.
  apply holds_get. intros f. destruct (is_open f) eqn:Eo; [|apply holds_fail]. cbn [negb].
  case_bool_decide; [apply holds_ret|]. apply is_open_state in Eo.
  apply holds_row_then; [|apply holds_end]. intros s [Hinv <-]. split; [done|]. apply proposes_plain; by rewrite ?Eo.
Qed.
Lemma holds_attach_legacy owner : holds (attach_owner_legacy owner).
Proof.
  apply holds_get. intros f. destruct (is_open f); [|apply holds_fail]. cbn [negb].
  eapply (hoare_bind _ _ _ (fun _ => late_inv)); [|intros _; apply holds_end].
  apply hoare_modify. intros s [Hs _]. by apply late_aside.
Qed.
Lemma holds_detach_legacy owner : holds (detach_owner_legacy owner).
Proof.
  apply holds_get. intros f. destruct (is_open f); [|apply holds_fail]. cbn [negb].
  eapply (hoare_bind _ _ _ (fun _ => late_inv)); [|intros _; apply holds_end].
  apply hoare_modify. intros s [Hs _]. by apply late_aside.
Qed.
Lemma holds_detach io owner : holds (detach_owner id io owner).
Proof.
  apply holds_get. intros f. destruct (is_open f) eqn:Eo; [|apply holds_fail]. cbn [negb]. apply is_open_state in Eo.
  case_bool_decide; [|apply holds_ret]. cbn [negb].
  eapply (hoare_bind _ _ _ (fun _ s => late_inv s /\ fl_state (flight s) = FsOpen)).
  { apply hoare_modify. intros s [Hs <-]. split; [by apply late_aside|done]. }
  intros _. eapply (hoare_bind _ _ _ (fun _ => late_inv)); [|intros _; apply holds_end].
  eapply (hoare_catch _ _ _ (fun _ => late_inv)).
  - apply holds_bare_row. intros s [Hs Es]. split; [done|]. apply proposes_plain; by rewrite ?Es.
  - intros e. eapply (hoare_bind _ _ _ (fun _ => late_inv)); [|intros _; apply hoare_fail].
    apply hoare_modify. intros s Hs. by apply late_aside.
Qed.
Lemma holds_reserve_process io : holds (reserve_process_lifecycle id io).
Proof.
  apply holds_get. intros f. destruct (is_open f) eqn:Eo; [|apply holds_fail]. cbn [negb].
  destruct (fl_process_reserved f); [apply holds_ret|]. apply is_open_state in Eo.
  apply holds_row. intros s [Hinv <-]. split; [done|]. intros Hn Hf.
  destruct (open_rows _ _ Hf) as (Hi & _); [by rewrite Eo|]. split_and!; [|done|done|by right].
  apply row_plain; simpl; rewrite ?Eo; done.
Qed.
Lemma holds_close : holds close_admission.
Proof.
  apply holds_get. intros f. destruct (is_open f) eqn:Eo; [|apply holds_fail]. cbn [negb]. apply is_open_state in Eo.
  eapply (hoare_bind _ _ _ (fun _ => late_inv)); [|intros _; apply holds_end].
  apply hoare_modify. intros s [Hs <-].
  apply (late_modify _ (fun f => set_state FsAdmissionClosed (set_snapshot (fl_owners f) f))); try done; rewrite ?Eo; try done.
  intros _ Hf. by apply flight_ok_close.
Qed.
Lemma holds_intent io intent : holds (journal_intent id io intent).
Proof.
  apply holds_get. intros f. destruct (fl_state f) eqn:Es; try apply holds_fail.
  case_bool_decide; [|apply holds_fail]. cbn [negb].
  apply holds_row. intros s [Hinv <-]. split; [done|]. intros Hn Hf. split_and!; [by apply row_intent|done|done|by left].
Qed.
Lemma holds_discover io owner : holds (discover_collateral_owner id io owner).
Proof.
  apply holds_get. intros f.
  assert (Hrow : (forall x, fl_state f <> FsSettled x) ->
    hoare (at_late f)
      (flight_append id (io 0%nat) (EvCollateralDiscovered owner) ;;;
       modify (fun f => set_collateral ({[owner]} ∪ fl_collateral f) f) ;;; ret true) (fun _ => late_inv)).
  { intros Hu. apply holds_row_then; [|apply holds_end]. intros s [Hinv <-]. split; [done|].
    intros Hn Hf. split_and!; [exact (row_discover _ _ _ _ Hf Hu)|done|done|by left]. }
  destruct (fl_state f) eqn:Es; try apply holds_fail; (case_match; [apply holds_ret|by apply Hrow]).
Qed.
Lemma holds_observe io e :
  plain_row e = true -> consumes_when_present e = false -> reserved e = 0%nat -> holds (observe_row id io e).
Proof.
  intros H1 H2 H3. apply holds_get. intros f. destruct (is_signaling f) eqn:Eo; [|apply holds_fail].
  apply is_signaling_state in Eo. apply holds_bare_row. intros s [Hs <-]. split; [done|]. apply proposes_plain; by rewrite ?Eo.
Qed.
Lemma holds_open_row io e : plain_row e = true -> reserved e = 0%nat -> holds (open_row id io e).
Proof.
  intros H1 H2. apply holds_get. intros f. destruct (is_open f) eqn:Eo; [|apply holds_fail].
  apply is_open_state in Eo. apply holds_bare_row. intros s [Hs <-]. split; [done|]. apply proposes_plain; by rewrite ?Eo.
Qed.

Definition adopted_late (P : Sys -> Prop) (a : option ResourceActionResult) (s : Sys) : Prop :=
  late_inv s /\ match a with Some r => settled_result (rowsof s) = Some r | None => P s /\ settled_result (rowsof s) = None end.
Lemma holds_adopt (P : Sys -> Prop) io : (forall s, P s -> late_inv s) -> hoare P (adopt id io) (adopted_late P).
Proof.
  intros HP s Hs. pose proof (HP _ Hs) as Hi. unfold adopt.
  destruct io as [x|]; [by apply late_refusal|]. simpl. unfold records.
  destruct (outstanding (rowsof s)); cbn [result_bind]; [|by apply late_refusal].
  destruct (settled_result (rowsof s)) as [r|] eqn:Er; [|by split].
  split; [|done]. destruct Hi as [Hj Ho Hst Hl Hy Hu Ht].
  split; simpl; rewrite ?Er; try done; [by intros x [= <-]|]. intros x [= <-]. destruct (Ht r Er) as [?|(os & Hnd & Hp & Hw)]; [by left|right].
  exists os. split_and!; [done|done|]. destruct Hw as [?|[_ ?]]; auto.
Qed.

Lemma holds_dispatch io : holds (begin_journaled_dispatch id io).
Proof.
  eapply hoare_bind; [by apply (holds_adopt late_inv)|]. intros a. cbn beta.
  eapply (hoare_bind _ _ _ (fun f s => late_inv s /\ flight s = f)); [apply hoare_get; by intros s []|]. intros f.
  destruct a; [apply holds_fail|]. destruct (fl_state f) eqn:Es; try apply holds_fail.
  intros s [Hi <-]. unfold bind, catch.
  assert (Hp : proposes s EvDispatchStarted (set_state FsSignaling (set_sequence (S (fl_sequence (flight s))) (flight s)))).
  { intros Hn Hf. split_and!; [by apply row_dispatch|done|done|by left]. }
  pose proof (flight_append_late (io 1%nat) _ s _ Hi Hp) as Ha.
  destruct (flight_append id (io 1%nat) EvDispatchStarted s) as [s' [[]|e]].
  - destruct Ha as (j' & Ha & ->). simpl. eapply late_append; eauto.
  - destruct Ha as [Hi' _]. pose proof (holds_adopt late_inv (io 2%nat) (fun _ H => H) s' Hi') as Hd.
    destruct (adopt id (io 2%nat) s') as [s2 [[r|]|e']]; [..|done]; by destruct Hd.
Qed.

(** ** Settlements *)
Lemma slots_terminal f rs r cap :
  (fl_process_reserved f = false -> fl_request_reserved f = false -> has_intent rs = true ->
     exists n, outstanding rs = Ok n /\ (n + spent rs = LIFECYCLE_SLOTS)%nat) ->
  is_Some (is_settled (rec_event r)) -> admission_check rs cap r = Ok tt ->
  fl_process_reserved f = false -> fl_request_reserved f = false -> has_intent (rs ++ [r]) = true ->
  exists n, outstanding (rs ++ [r]) = Ok n /\ (n + spent (rs ++ [r]) = LIFECYCLE_SLOTS)%nat.
Proof.
  intros Hs He Hadm H1 H2 Hh.
  assert (rec_event r = match rec_event r with EvSettled x => EvSettled x | e => e end /\ is_intent (rec_event r) = false
          /\ requires_reserved_slot (rec_event r) = true /\ reserved (rec_event r) = 0%nat) as (_ & Ei & Er & Ev)
    by (destruct (rec_event r); simpl in *; by destruct He).
  rewrite has_intent_snoc, Ei, orb_false_r in Hh. destruct (Hs H1 H2 Hh) as (n & Hn & Hsum).
  apply admission_check_ok in Hadm as (n' & Hn' & _ & Hout & _ & Hneed). rewrite Hn in Hn'. injection Hn' as <-.
  eexists. split; [exact Hout|]. rewrite spent_snoc, Er, Ev. unfold consumed. rewrite Er. simpl.
  specialize (Hneed Er). lia.
Qed.

(** The terminal row is in the file, and its writer may still tell the owners. *)
Lemma late_terminal s f' res p :
  late_inv s -> settled_result (rowsof s) = None ->
  let rs := rowsof s ++ [mkRecord JOURNAL_SCHEMA (length (rowsof s) + 1) (EvSettled res)] in
  admission_check (rowsof s) (jn_cap (journal s)) (mkRecord JOURNAL_SCHEMA (length (rowsof s) + 1) (EvSettled res)) = Ok tt ->
  (forall x, fl_state f' = FsSettled x -> x = res) ->
  fl_process_reserved f' = fl_process_reserved (flight s) -> fl_request_reserved f' = fl_request_reserved (flight s) ->
  told f' rs p res ->
  late_inv (mkSys f' (with_rows (journal s) id rs) p).
Proof.
  intros Hs Hn rs Hadm Hst E1 E2 Ht.
  assert (Hr : settled_result rs = Some res) by (unfold rs; by rewrite settled_result_snoc).
  split; simpl; rewrite ?rows_with, ?Hr; try done.
  - unfold journal_ok. rewrite rows_with. by apply rows_ok_snoc; [apply (ff_journal _ Hs)|..].
  - apply dispatch_ordered_snoc; [apply (ff_ordered _ Hs)|done].
  - intros x Hx. by rewrite (Hst x Hx).
  - rewrite E1, E2. intros H1 H2. by eapply (slots_terminal (flight s)); [apply (ff_slots _ Hs)|..].
  - by intros x [= <-].
Qed.

Definition owed_late (sm : Settlement) (s : Sys) : Prop :=
  settled_result (rowsof s) = Some (sm_result sm) /\
  late_inv (mkSys (flight s) (journal s) (published s ++ publish_result id (sm_recipients sm) (sm_result sm))).

Lemma holds_settle_locked io proposed : hoare late_inv (settle_locked id io proposed) owed_late.
Proof.
  apply holds_get. intros f. destruct (fl_refusal f); [apply holds_fail|].
  destruct (is_signaling f) eqn:Eg; [|apply holds_fail]. cbn [negb]. apply is_signaling_state in Eg.
  eapply hoare_bind; [apply (holds_adopt (at_late f)); by intros ? [? _]|].
  intros [r|]; [intros s [Hs Hr]; split; [done|]; simpl; rewrite app_nil_r; by destruct s|].
  intros s (Hs & [_ <-] & Hn). destruct (ff_untold _ Hs Hn) as [Hd Hp]. unfold append_terminal_io.
  destruct (append_terminal id proposed (journal s)) as [[out j']|] eqn:Ea;
    [|destruct (io 1%nat); by apply late_refusal].
  apply append_terminal_ok in Ea as [(x & Hx & _)|(_ & -> & -> & Hadm)]; [congruence|].
  destruct (io 1%nat) as [x|]; simpl.
  - unfold after_fault. destruct (if_written x); [|by apply late_refusal].
    apply late_terminal; try done; simpl; [by rewrite Eg|]. by left.
  - split; simpl; [by rewrite rows_with, settled_result_snoc|]. rewrite Hd, Hp, difference_empty_L.
    apply late_terminal; try done; simpl; [by intros x [= <-]|]. right.
    exists (elements (fl_snapshot (flight s) ∪ fl_collateral (flight s))). split_and!; [apply NoDup_elements|done|by right].
Qed.
Lemma holds_publish sm : hoare (owed_late sm) (publish id sm) (fun _ => late_inv).
Proof. by intros s [_ Hs]. Qed.
Lemma holds_settled {A} io result (k : Settlement -> A) :
  holds (sm <- settle_locked id io result ;; publish id sm ;;; ret (k sm)).
Proof.
  eapply hoare_bind; [apply holds_settle_locked|]. intros sm. cbn beta.
  eapply hoare_bind; [apply holds_publish|]. intros ?. apply holds_end.
Qed.
Lemma holds_settle_then {A} io result (k : ResourceActionResult -> A) :
  holds (r <- settle id io result ;; ret (k r)).
Proof. eapply hoare_bind; [apply (holds_settled io result sm_result)|]. intros r. apply holds_end. Qed.

Lemma holds_failed_mark io : holds (settle_failed_mark id io).
Proof.
  eapply hoare_bind; [by apply (holds_adopt late_inv)|]. intros [r|]; [by intros s [Hs _]|].
  eapply (hoare_bind _ _ _ (fun f s => (late_inv s /\ settled_result (rowsof s) = None) /\ flight s = f)).
  { apply hoare_get. by intros s (Hs & _ & Hn). }
  intros f. assert (Hgo : forall g, (forall f, fl_state (g f) = FsSignaling /\ fl_collateral (g f) = fl_collateral f /\
       fl_process_reserved (g f) = fl_process_reserved f /\ fl_request_reserved (g f) = fl_request_reserved f /\
       fl_sequence (g f) = fl_sequence f /\ fl_delivered (g f) = fl_delivered f) ->
     (late (fl_state f) = true -> fl_snapshot (g f) = fl_snapshot f) -> (forall x, fl_state f <> FsSettled x) ->
     hoare (fun s => (late_inv s /\ settled_result (rowsof s) = None) /\ flight s = f)
       (modify g ;;; ret (A := option ResourceActionResult) None) (fun _ => late_inv)).
  { intros g Hg Hsn Hu. eapply (hoare_bind _ _ _ (fun _ => late_inv)); [|intros _; apply holds_end].
    apply hoare_modify. intros s [[Hs Hn] <-]. destruct (Hg (flight s)) as (E1 & E3 & E4 & E5 & E6 & E7).
    apply late_modify; try done.
    - intros x. by rewrite E1.
    - intros x Hx. by destruct (Hu x).
    - intros _ Hf. by apply flight_ok_signaling. }
  destruct (fl_state f) eqn:Es; [by apply Hgo|by apply Hgo|by apply Hgo|..]; by intros s [[Hs _] _].
Qed.

Lemma holds_transfer io now deadline token same reason :
  holds (transfer_cleanup_deadline id attempt io now deadline token same reason).
Proof.
  unfold transfer_cleanup_deadline. destruct (now <? deadline); [by intros s Hs|].
  destruct same; [|apply holds_settle_then]. cbn [negb]. apply holds_get. intros f.
  case_bool_decide; cbn [negb]; [|eapply hoare_conseq; [apply holds_settle_then| |]; [by intros ? [? _]|done]].
  eapply hoare_bind; [apply (holds_adopt (at_late f)); by intros ? [? _]|].
  intros [r|]; [by intros s [Hs _]|].
  eapply (hoare_bind _ _ _ at_late); [apply hoare_get; by intros s (Hs & _)|]. intros f'.
  destruct (is_signaling f') eqn:Eg; [|apply holds_fail]. cbn [negb]. apply is_signaling_state in Eg.
  eapply (hoare_bind _ _ _ (fun _ => late_inv)).
  - eapply (hoare_catch _ _ _ (fun _ => late_inv)).
    + eapply (hoare_bind _ _ _ (fun _ => late_inv)); [|by intros ? s Hs].
      apply holds_bare_row. intros s [Hs <-]. split; [done|]. apply proposes_plain; by rewrite ?Eg.
    + intros e. eapply hoare_bind; [by apply (holds_adopt late_inv)|]. intros [r|] s [Hs _]; by apply Hs.
  - intros [r|]; [apply holds_end|apply (holds_settled _ _ (fun sm =>
      if sm_appended sm then Transferred (mkOwner attempt id reason) else TransferUnknown (sm_result sm) false))].
Qed.

Lemma holds_recover io duration : holds (recover_dead id io duration).
Proof.
  intros s Hs. unfold recover_dead, recover_journaled_intent.
  assert (Hsame : late_inv (mkSys (flight s) (journal s) (published s))) by (by destruct s).
  destruct (io 0%nat); [done|]. simpl. unfold records.
  destruct (outstanding (rowsof s)); cbn [result_bind]; [|done].
  destruct (settled_result (rowsof s)) as [r|] eqn:Hn; [done|].
  destruct (has_intent (rowsof s)) eqn:Hh; [|done]. cbn [negb]. unfold append_terminal_io.
  destruct (append_terminal id (unknown_result duration) (journal s)) as [[out j']|] eqn:Ea; [|by destruct (io 1%nat)].
  apply append_terminal_ok in Ea as [(x & Hx & _)|(_ & -> & -> & Hadm)]; [congruence|].
  destruct (ff_untold _ Hs Hn) as [_ Hp].
  assert (Hst : forall x, fl_state (flight s) = FsSettled x -> x = unknown_result duration).
  { intros x Hx. pose proof (ff_settled _ Hs x Hx). congruence. }
  destruct (io 1%nat) as [x|]; simpl.
  - unfold after_fault. destruct (if_written x); [|done]. apply late_terminal; try done. by left.
  - rewrite Hp. apply late_terminal; try done. right.
    exists (elements (recorded_owners (rowsof s ++ [mkRecord JOURNAL_SCHEMA (length (rowsof s) + 1) (EvSettled (unknown_result duration))]))).
    split_and!; [apply NoDup_elements|done|by left].
Qed.

Lemma holds_guards g : (forall f, exists n gs, g f = set_guards n gs f) -> holds (modify g).
Proof.
  intros Hg. apply hoare_modify. intros s Hs. apply late_aside; [done|]. intros f. by destruct (Hg f) as (n & gs & ->).
Qed.

Lemma exec_late s op : late_inv s -> late_inv (exec id attempt key s op).
Proof.
  assert (H : forall A (m : M A), holds m -> late_inv s -> late_inv (fst (m s)))
    by (intros A m Hm Hs; by eapply hoare_exec).
  destruct op; cbn [exec]; apply H.
  - apply holds_attach.
  - apply holds_attach_legacy.
  - apply holds_detach.
  - apply holds_detach_legacy.
  - apply holds_reserve_process.
  - apply holds_close.
  - apply holds_intent.
  - apply holds_discover.
  - apply holds_dispatch.
  - by apply holds_observe.
  - by apply holds_observe.
  - unfold journal_process_tree. case_match; [apply hoare_fail|by apply holds_open_row].
  - unfold journal_container_identity. case_match; [apply hoare_fail|by apply holds_open_row].
  - by apply holds_open_row.
  - apply (holds_settled _ _ sm_result).
  - apply holds_failed_mark.
  - apply holds_get. intros f. eapply (hoare_bind _ _ _ (fun _ => late_inv)); [|by intros ? ?].
    eapply hoare_conseq; [apply holds_guards; by eauto| |]; [by intros ? [? _]|done].
  - apply holds_guards. by eauto.
  - apply holds_transfer.
  - apply holds_recover.
Qed.

(** A flight that has told nobody and knows its rows. *)
Lemma late_of_inv s : flight_inv id s -> published s = [] -> late_inv s.
Proof.
  intros Hs Hp. pose proof (fi_flight _ _ Hs) as Hf. split.
  - apply (fi_journal _ _ Hs).
  - apply (fo_ordered _ _ Hf).
  - apply (fo_settled _ _ Hf).
  - intros H1 H2 Hh. destruct (fo_slots _ _ Hf H1 H2) as (n & Hn & Hsum). rewrite Hh in Hsum. eauto.
  - done.
  - intros Hn. by destruct (fi_live _ _ Hs Hn) as (_ & ? & ?).
  - intros r Hr. by left.
Qed.
Lemma run_late j ops : rows j id = [] -> late_inv (foldl (exec id attempt key) (start id attempt key j) ops).
Proof.
  intros Hj. induction ops as [|op ops IH] using rev_ind.
  { apply late_of_inv; [by apply start_inv|]. unfold start, create, bind, modify, flight_append, append_io. simpl.
    by destruct (append _ _ _). }
  rewrite foldl_app. by apply exec_late.
Qed.
End Faults.
