(* ===== verification/FlightTheorems.v ===== *)
(** * What a retained resource flight promises

    Theorems on every schedule of the sections of [ResourceFlight]: one durable
    result, told at most once, and to every owner unless a journal call failed
    after its row was written; dispatch only behind a journaled intent,
    room kept for the settlement, and where the room is missing; then the
    registry ([ResourceFlightRegistryV1::reserve]) that hands flights out. *)
From S2P Require Import Prelude Domain ExecutionPolicy FlightJournal ResourceFlight FlightFaults.
Open Scope Z_scope.
Open Scope bridge_scope.

Section Flights.
Context (id attempt : string) (key : FlightKey).
Local Abbreviation rowsof s := (rows (journal s) id).

(** Any schedule of live sections and recoveries. *)
Definition run (j : Journal) (ops : list Op) : Sys := foldl (exec id attempt key) (start id attempt key j) ops.

(** ** A settled flight is final *)
Definition settled (s : Sys) : Prop := is_Some (settled_result (rowsof s)).
Definition unmoved (s s' : Sys) : Prop := rowsof s' = rowsof s /\ published s' = published s.
Definition still {A} (m : M A) : Prop := forall s, settled s -> unmoved s (fst (m s)).

Lemma still_ret {A} (a : A) : still (ret a).
Proof. done. Qed.
Lemma still_fail {A} e : still (fail (A := A) e).
Proof. done. Qed.
Lemma still_get : still get.
Proof. done. Qed.
Lemma still_modify g : still (modify g).
Proof. done. Qed.
Lemma still_bind {A B} (m : M A) (k : A -> M B) : still m -> (forall a, still (k a)) -> still (bind m k).
Proof.
  intros Hm Hk s Hs. unfold bind. specialize (Hm s Hs). destruct (m s) as [s' [a|e]]; [|done].
  simpl in Hm. destruct Hm as [H1 H2]. destruct (Hk a s') as [H3 H4]; [unfold settled; by rewrite H1|].
  split; congruence.
Qed.
Lemma still_catch {A} (m : M A) h : still m -> (forall e, still (h e)) -> still (catch m h).
Proof.
  intros Hm Hk s Hs. unfold catch. specialize (Hm s Hs). destruct (m s) as [s' [a|e]]; [done|].
  simpl in Hm. destruct Hm as [H1 H2]. destruct (Hk e s') as [H3 H4]; [unfold settled; by rewrite H1|].
  split; congruence.
Qed.
Lemma still_append io e : still (flight_append id io e).
Proof.
  intros s [r Hr]. unfold flight_append, append_io, append. rewrite Hr. by destruct io.
Qed.
Lemma still_adopt io : still (adopt id io).
Proof. intros s Hs. unfold adopt, io_error. by repeat case_match. Qed.
Lemma still_settle_locked io result : forall s, settled s ->
  unmoved s (fst (settle_locked id io result s)) /\
  forall sm, snd (settle_locked id io result s) = Ok sm -> sm_recipients sm = [].
Proof.
  intros s [r Hr]. unfold settle_locked, bind, get. simpl.
  destruct (fl_refusal (flight s)); [done|]. destruct (is_signaling (flight s)); [|done]. cbn [negb].
  unfold adopt. destruct (io 0%nat); [done|]. simpl. unfold records.
  destruct (outstanding (rowsof s)); cbn [result_bind]; [|done]. rewrite Hr. split; [done|]. by intros sm [= <-].
Qed.
Lemma still_settled_publish {A} io result (k : Settlement -> M A) :
  (forall sm, still (k sm)) -> still (sm <- settle_locked id io result ;; publish id sm ;;; k sm).
Proof.
  intros Hk s Hs. unfold bind. destruct (still_settle_locked io result s Hs) as [[H1 H2] Hr].
  destruct (settle_locked id io result s) as [s' [sm|e]]; [|done]. simpl in *.
  rewrite (Hr sm eq_refl). simpl. rewrite app_nil_r.
  destruct (Hk sm (mkSys (flight s') (journal s') (published s'))) as [H3 H4]; [unfold settled; simpl; by rewrite H1|].
  simpl in *. split; congruence.
Qed.
Lemma still_recover io duration : still (recover_dead id io duration).
Proof.
  intros s [r Hr]. unfold recover_dead, recover_journaled_intent. destruct (io 0%nat); [done|]. simpl. unfold records.
  destruct (outstanding (rowsof s)); cbn [result_bind]; [|done]. by rewrite Hr.
Qed.

Create HintDb still.
Hint Resolve still_ret still_fail still_get still_modify still_bind still_catch still_append still_adopt
  still_settled_publish still_recover : still.
Ltac still_case := repeat (first [progress intros | case_match | progress unfold refused | solve [auto with still] | apply still_bind | apply still_catch ]).

Lemma still_exec s op : settled s -> unmoved s (exec id attempt key s op).
Proof.
  intros Hs. assert (H : forall A (m : M A), still m -> unmoved s (fst (m s))) by (intros A m Hm; by apply Hm).
  destruct op; cbn [exec]; apply H;
    unfold attach_owner, attach_owner_legacy, detach_owner, detach_owner_legacy, reserve_process_lifecycle,
      close_admission, journal_intent, discover_collateral_owner, begin_journaled_dispatch, journal_process_signals,
      journal_container_removal, observe_row, journal_process_tree, journal_container_identity,
      journal_process_binding_failure, open_row, settle, settle_failed_mark, retain, drop_flight_guard,
      transfer_cleanup_deadline, settle_unknown, settle; still_case.
Qed.

Lemma still_run s ops : settled s -> unmoved s (foldl (exec id attempt key) s ops).
Proof.
  intros Hs. induction ops as [|op ops IH] using rev_ind; [done|]. rewrite foldl_app. simpl.
  destruct IH as [H1 H2]. destruct (still_exec (foldl (exec id attempt key) s ops) op) as [H3 H4].
  { unfold settled. by rewrite H1. }
  split; congruence.
Qed.

Lemma run_more j ops more : settled (run j ops) -> published (run j (ops ++ more)) = published (run j ops).
Proof. intros Hs. unfold run. rewrite foldl_app. by apply still_run. Qed.

(** ** Room for the settlement *)

(** On a signaling flight without a result, a slot left is a settlement that succeeds. *)
Lemma settle_with_slot s n r :
  journal_ok (journal s) id -> settled_result (rowsof s) = None -> fl_state (flight s) = FsSignaling ->
  fl_refusal (flight s) = None -> outstanding (rowsof s) = Ok (S n) ->
  exists s', settle id no_fault r s = (s', Ok r) /\ settled_result (rowsof s') = Some r.
Proof.
  intros Hs Hn Hst Href Hout. unfold settle, settle_locked, bind, get. simpl. rewrite Href.
  unfold is_signaling. rewrite Hst. cbn [negb]. unfold adopt, records. simpl. rewrite Hout. cbn [result_bind].
  rewrite Hn. unfold append_terminal_io, append_terminal. rewrite Hn.
  pose proof (reserved_row_admitted _ _ n (EvSettled r) Hs Hout eq_refl) as Ha.
  rewrite Nat.add_1_r, Ha. cbn [result_bind]. simpl. eexists. split; [done|]. simpl.
  by rewrite rows_with, settled_result_snoc.
Qed.

(** Without a slot the same call is the terminal refusal, and writes nothing. *)
Lemma settle_without_slot s r :
  settled_result (rowsof s) = None -> fl_state (flight s) = FsSignaling ->
  fl_refusal (flight s) = None -> outstanding (rowsof s) = Ok 0%nat ->
  settle id no_fault r s =
    (mkSys (set_refusal JAccounting (flight s)) (journal s) (published s), Err (FeTerminalRefusal JAccounting)).
Proof.
  intros Hn Hst Href Hout. unfold settle, settle_locked, bind, get. simpl. rewrite Href.
  unfold is_signaling. rewrite Hst. cbn [negb]. unfold adopt, records. simpl. rewrite Hout. cbn [result_bind].
  rewrite Hn. unfold append_terminal_io, append_terminal. rewrite Hn. unfold admission_check. rewrite Hout. cbn [result_bind].
  simpl. by rewrite Nat.eqb_refl.
Qed.
End Flights.

Definition owner_a : FlightOwner := mkFlightOwner "node_a" "session-a".
Definition owner_b : FlightOwner := mkFlightOwner "node_b" "session-b".
Definition empty_journal : Journal := mkJournal 24 ∅ ∅.
Definition small_journal : Journal := mkJournal 3 ∅ ∅.
Definition complete : ResourceActionResult := mkActionResult ActComplete 8 None None.
Definition failed : ResourceActionResult := mkActionResult ActFailed 8 None None.
Definition to_dispatch : list Op :=
  [OpAttach no_fault owner_a; OpAttach no_fault owner_b; OpClose;
   OpIntent no_fault (mkIntent owner_a "digest" None); OpDispatch no_fault].

(** C5: one result, told at most once. On any schedule of a flight's sections, of
    recoveries that know only its journal and of I/O faults at every journal
    call, before or after the row is written: the journal holds at most one
    settlement and nothing after it; before it nobody was told a result and the
    flight names none; after it the flight names no other, no later section
    adds a row or a publication, and either nobody was told or each owner
    recorded in the journal, or each owner the flight knows, was told exactly
    that result, once. When no call failed after its row was written, every owner of
    the snapshot and of the collateral was told, which are the owners the
    journal records. *)
Theorem flight_settles_once id attempt key j ops more :
  rows j id = [] ->
  let s := run id attempt key j ops in
  let rs := rows (journal s) id in
  let owners := fl_snapshot (flight s) ∪ fl_collateral (flight s) in
  (forall pre r post, rs = pre ++ r :: post -> is_Some (is_settled (rec_event r)) -> post = []) /\
  match settled_result rs with
  | None => published s = [] /\ forall r, fl_state (flight s) <> FsSettled r
  | Some r =>
      (published s = [] \/
       exists os, NoDup os /\ published s = publish_result id os r /\
         (os = elements (recorded_owners rs) \/ os = elements owners)) /\
      (forall r', fl_state (flight s) = FsSettled r' -> r' = r) /\
      rows (journal (run id attempt key j (ops ++ more))) id = rs /\
      published (run id attempt key j (ops ++ more)) = published s /\
      (Forall clean_op ops ->
       published s = publish_result id (elements owners) r /\ (has_intent rs = true -> owners = recorded_owners rs))
  end.
Proof.
  intros Hj s rs owners. pose proof (run_late id attempt key j ops Hj) as Hs.
  fold (run id attempt key j ops) in Hs. fold s in Hs.
  split; [apply (ro_closed _ _ (ff_journal _ _ Hs))|].
  destruct (settled_result rs) as [r|] eqn:Er.
  - destruct (still_run id attempt key s more (mk_is_Some _ _ Er)) as [H1 H2]. split_and!.
    + destruct (ff_told _ _ Hs r Er) as [?|(os & Hnd & Hp & Hw)]; [by left|right].
      exists os. split_and!; [done|done|]. destruct Hw as [?|[_ ?]]; auto.
    + intros r' Hr'. pose proof (ff_settled _ _ Hs r' Hr') as E. unfold rs in Er. congruence.
    + unfold run. by rewrite foldl_app.
    + unfold run. by rewrite foldl_app.
    + intros Hc. pose proof (run_inv id attempt key j ops Hj Hc) as Hi.
      fold (run id attempt key j ops) in Hi. fold s in Hi. split; [by apply (fi_published _ _ Hi)|].
      intros Hh. rewrite recorded_owners_spec. unfold rs. pose proof (fi_flight _ _ Hi) as Hf.
      destruct (fo_intent _ _ Hf Hh) as [-> _]. by rewrite <- (fo_collateral _ _ Hf).
  - split; [by destruct (ff_untold _ _ Hs Er)|]. intros r Hr.
    pose proof (ff_settled _ _ Hs r Hr). unfold rs in Er. congruence.
Qed.
Lemma flight_settles_once_witness :
  let s := run "f" "t" (ContainerGeneration "g") empty_journal (to_dispatch ++ [OpRecover no_fault 9; OpSettle no_fault complete]) in
  settled_result (rows (journal s) "f") = Some (unknown_result 9) /\ length (published s) = 2%nat /\
  match settled_result (rows (journal s) "f") with
  | None => False
  | Some r => published s = publish_result "f" (elements (fl_snapshot (flight s) ∪ fl_collateral (flight s))) r
  end.
Proof.
  pose proof (flight_settles_once "f" "t" (ContainerGeneration "g") empty_journal
    (to_dispatch ++ [OpRecover no_fault 9; OpSettle no_fault complete]) [] eq_refl) as [_ H].
  split; [by vm_compute|]. split; [by vm_compute|].
  destruct (settled_result _) eqn:E; [|by vm_compute in E].
  destruct H as (_ & _ & _ & _ & H). apply H. repeat constructor; by intros n x.
Defined.

(** C6: an action is authorised once, behind its durable intent, and never after
    a recovery. On any schedule, a dispatch admission is granted only when the
    journal already holds the intent, holds no dispatch and no settlement; the
    granted dispatch is its new last row; every dispatch row of any journal
    stands after an intent row and is the only one. *)
Theorem dispatch_authorised_once id attempt key j ops io s' :
  rows j id = [] ->
  let s := run id attempt key j ops in
  begin_journaled_dispatch id io s = (s', Ok tt) ->
  settled_result (rows (journal s) id) = None /\ has_intent (rows (journal s) id) = true /\
  (exists r, rows (journal s') id = rows (journal s) id ++ [r] /\ rec_event r = EvDispatchStarted) /\
  dispatches (rows (journal s) id) = 0%nat /\ dispatch_ordered (rows (journal s') id).
Proof.
  intros Hj s Hd. pose proof (run_late id attempt key j ops Hj) as Hs. fold (run id attempt key j ops) in Hs. fold s in Hs.
  pose proof (holds_dispatch id io s Hs) as Hs'. rewrite Hd in Hs'. pose proof (ff_ordered _ _ Hs') as Ho.
  revert Hd. unfold begin_journaled_dispatch, bind, adopt. destruct (io 0%nat); [done|]. simpl. unfold records at 1.
  destruct (outstanding (rows (journal s) id)); cbn [result_bind]; [|done].
  destruct (settled_result (rows (journal s) id)) eqn:En; [done|]. simpl.
  destruct (fl_state (flight s)) eqn:Es; try done. unfold catch, flight_append, append_io.
  destruct (append _ _ _) as [j'|e] eqn:Ea; [|destruct (io 1%nat); by repeat case_match].
  destruct (io 1%nat); [by repeat case_match|].
  destruct (append_synced id s _ _ Hs Ea) as (_ & _ & Hf & -> & _). destruct (fo_journaled _ _ Hf Es) as [Hi Hdd].
  simpl. intros [= <-]. simpl in *. rewrite rows_with in *. split_and!; eauto.
Qed.
Lemma dispatch_authorised_once_witness :
  let s := run "f" "t" (AcpGeneration "g") empty_journal (take 4 to_dispatch) in
  snd (begin_journaled_dispatch "f" no_fault s) = Ok tt /\ has_intent (rows (journal s) "f") = true.
Proof.
  intros s. split; [by vm_compute|].
  destruct (begin_journaled_dispatch "f" no_fault s) as [s' [[]|]] eqn:E; [|by vm_compute in E].
  by apply (dispatch_authorised_once "f" "t" (AcpGeneration "g") empty_journal (take 4 to_dispatch) no_fault s' eq_refl E).
Defined.

(** C8: the intent keeps room for its settlement. On any schedule of a flight that
    reserved nothing before its intent, however full the journal has become: a
    signaling flight that spent at most three of the rows its intent reserved
    (dispatch, one observation, one transfer) settles when the journal answers. *)
Theorem intent_keeps_settlement id attempt key j ops r :
  rows j id = [] ->
  let s := run id attempt key j ops in
  let rs := rows (journal s) id in
  fl_process_reserved (flight s) = false -> fl_request_reserved (flight s) = false ->
  has_intent rs = true -> settled_result rs = None -> fl_state (flight s) = FsSignaling ->
  fl_refusal (flight s) = None -> (spent rs <= 3)%nat ->
  exists s', settle id no_fault r s = (s', Ok r) /\ settled_result (rows (journal s') id) = Some r.
Proof.
  intros Hj s rs Hp Hq Hi Hn Hst Href Hsp. pose proof (run_late id attempt key j ops Hj) as Hs.
  destruct (ff_slots _ _ Hs Hp Hq Hi) as (n & Hn' & Hsum).
  fold (run id attempt key j ops) in Hn', Hsum. fold s in Hn', Hsum. fold rs in Hn', Hsum.
  unfold LIFECYCLE_SLOTS in Hsum. destruct n as [|n]; [lia|]. by eapply settle_with_slot; [apply (ff_journal _ _ Hs)|..].
Qed.
Lemma intent_keeps_settlement_witness :
  exists s', settle "f" no_fault complete (run "f" "t" (ContainerGeneration "g") empty_journal to_dispatch) = (s', Ok complete) /\
    settled_result (rows (journal s') "f") = Some complete.
Proof.
  apply (intent_keeps_settlement "f" "t" (ContainerGeneration "g") empty_journal to_dispatch complete eq_refl);
    vm_compute; done || lia.
Defined.

(** The failure path that cannot settle. A flight that reserved nothing and
    has no journaled intent (a container flight whose intent row was refused) has
    no slot for a terminal row: [settle_failed_before_dispatch] always ends in
    the terminal refusal, the journal keeps its rows, no owner is told anything
    and every later join fails. *)
Theorem failed_before_intent_refused id attempt key j ops r :
  rows j id = [] -> Forall clean_op ops -> rr_disposition r = ActFailed ->
  let s := run id attempt key j ops in
  let rs := rows (journal s) id in
  fl_process_reserved (flight s) = false -> fl_request_reserved (flight s) = false ->
  has_intent rs = false -> settled_result rs = None -> fl_refusal (flight s) = None ->
  late (fl_state (flight s)) = false ->
  exists s', settle_failed_before_dispatch id no_fault no_fault r s = (s', Err (FeTerminalRefusal JAccounting)) /\
    rows (journal s') id = rs /\ published s' = published s /\
    join_poll (flight s') = Some (Err (FeTerminalRefusal JAccounting)).
Proof.
  intros Hj Hcl Hr s rs Hp Hq Hi Hn Href Hl. pose proof (run_inv id attempt key j ops Hj Hcl) as Hs.
  destruct (fo_slots _ _ (fi_flight _ _ Hs) Hp Hq) as (n & Hn' & Hsum).
  fold (run id attempt key j ops) in Hn', Hsum. fold s in Hn', Hsum. fold rs in Hn', Hsum. rewrite Hi in Hsum.
  destruct Hsum as [-> _]. unfold settle_failed_before_dispatch. rewrite Hr. cbn [bool_decide negb].
  rewrite bool_decide_true by done. cbn [negb].
  unfold settle_failed_mark, bind at 1. unfold bind at 1. unfold adopt, records. cbn [no_fault io_error]. fold rs. rewrite Hn'.
  cbn [result_bind]. rewrite Hn. unfold bind, get.
  destruct (fl_state (flight s)) eqn:Es; try done; simpl;
    (rewrite settle_without_slot by done; eexists; split; [done|]; by split_and!).
Qed.
Lemma failed_before_intent_refused_witness :
  exists s', settle_failed_before_dispatch "f" no_fault no_fault failed
      (run "f" "t" (ContainerGeneration "g") small_journal (take 4 to_dispatch)) = (s', Err (FeTerminalRefusal JAccounting)) /\
    join_poll (flight s') = Some (Err (FeTerminalRefusal JAccounting)).
Proof.
  assert (Hc : Forall clean_op (take 4 to_dispatch)) by (repeat constructor; by intros n x).
  pose proof (failed_before_intent_refused "f" "t" (ContainerGeneration "g") small_journal (take 4 to_dispatch) failed
                eq_refl Hc eq_refl) as Hw. cbv zeta in Hw.
  destruct Hw as (s' & H & _ & _ & Hj); [vm_compute; reflexivity..|]. exists s'. split; [exact H|exact Hj].
Defined.

(** A settlement nobody hears of. When the directory sync after the terminal row
    fails, the settlement is durable but the caller gets the terminal refusal,
    no owner is told, and no later section or recovery tells them: each of them
    finds the result already settled. *)
Definition sync_fails_at (n : nat) : Fault := fun m => if (m =? n)%nat then Some (mkIoFault JIo true) else None.
Theorem unsynced_settlement_untold :
  let ops := to_dispatch ++ [OpSettle (sync_fails_at 1) complete] in
  let s := run "f" "t" (ContainerGeneration "g") empty_journal ops in
  settled_result (rows (journal s) "f") = Some complete /\
  join_poll (flight s) = Some (Err (FeTerminalRefusal JIo)) /\
  size (fl_snapshot (flight s)) = 2%nat /\
  forall more, published (run "f" "t" (ContainerGeneration "g") empty_journal (ops ++ more)) = [].
Proof.
  cbv zeta. split_and!; [vm_compute; reflexivity..|]. intros more.
  rewrite run_more by (eexists; vm_compute; reflexivity). vm_compute. reflexivity.
Qed.

(** The lifecycle of [LIFECYCLE_SLOTS]: dispatch, a signal batch, the transfer
    (whose last step is the settlement). *)
Definition lifecycle : list Op :=
  to_dispatch ++ [OpSignals no_fault []; OpRetain; OpTransfer no_fault 60 60 1 true "deadline"].

(** A dedicated request's reservation is one row short. The same fault-free
    lifecycle on an empty journal with room to spare settles a
    process or container flight; on a dedicated request flight, whose slots are
    reserved with the flight and whose intent takes one of them, the transfer
    takes the last slot and the settlement is refused. *)
Theorem request_lifecycle_short :
  let final key := run "f" "t" key empty_journal lifecycle in
  let settlement key := settled_result (rows (journal (final key)) "f") in
  is_Some (settlement (ContainerGeneration "g")) /\ is_Some (settlement (AcpGeneration "g")) /\
  settlement (DedicatedRequest "g") = None /\
  fl_refusal (flight (final (DedicatedRequest "g"))) = Some JAccounting.
Proof. intros final settlement. split_and!; [by vm_compute; eexists|by vm_compute; eexists|by vm_compute|by vm_compute]. Qed.
