(* ===== verification/FlightRegistry.v ===== *)
(** * The registry of retained flights ([ResourceFlightRegistryV1])

    A registry is the only way to a flight: it keeps the live flights of one
    process by resource key and takes a durable reservation in the journal
    before it creates one, so that neither a second caller nor a restarted
    process mints another flight for the same resource. [reserve] holds the
    registry's mutex throughout and is one step here; so is the recovery of
    dedicated requests a successor runs before it admits work. Steps of the
    flights it handed out interleave with both. *)
From S2P Require Import Prelude Domain ExecutionPolicy FlightJournal ResourceFlight.
Open Scope Z_scope.
Open Scope bridge_scope.

(** ** State *)
Record LiveFlight := mkLive { lf_attempt : string; lf_key : FlightKey; lf_flight : Flight }.
Record World := mkWorld {
  w_attempt : string;
  w_flights : gmap FlightKey string;
  w_live : gmap string LiveFlight;
  w_journal : Journal;
  w_published : list Aggregation }.
Record Config := mkConfig { cf_flight_id : string; cf_attempt : string; cf_key : FlightKey; cf_now : Z }.
Inductive Reserved :=
| RCreated (id : string)
| RJoined (id : string)
| RRecovered (id : string) (result : ResourceActionResult).

(** A new process on the same journal. *)
Definition new (attempt : string) (j : Journal) (p : list Aggregation) : World := mkWorld attempt ∅ ∅ j p.
Definition set_journal (w : World) (j : Journal) : World :=
  mkWorld (w_attempt w) (w_flights w) (w_live w) j (w_published w).

(** ** Operations *)
Definition recovered_reservation (io : Fault) (cfg : Config) (r : Reservation) (w : World)
    : World * result Reserved FlightError :=
  if negb (String.eqb (rv_attempt_id r) (cf_attempt cfg)) then (w, Err FeAttemptMismatch)
  else
    let id := rv_flight_id r in
    match recover_journaled_intent id io (cf_now cfg) (w_journal w) with
    | (j', Err e) => (set_journal w j', Err e)
    | (j', Ok (Some (RecExisting result))) => (set_journal w j', Ok (RRecovered id result))
    | (j', Ok (Some (RecWon result recipients))) =>
        (mkWorld (w_attempt w) (w_flights w) (w_live w) j'
           (w_published w ++ publish_result id (elements recipients) result), Ok (RRecovered id result))
    | (j', Ok None) => (set_journal w j', Err (FeReservationUnavailable id))
    end.

(** The reservation just taken, its flight created or rolled back. *)
Definition create_reserved (io : Fault) (cfg : Config) (j' : Journal) (w : World) : World * result Reserved FlightError :=
  match create (cf_flight_id cfg) (cf_attempt cfg) (cf_key cfg) (fun n => io (1 + n)%nat) (mkSys initial_flight j' []) with
  | (s, Ok _) =>
      (mkWorld (w_attempt w) (<[cf_key cfg := cf_flight_id cfg]> (w_flights w))
         (<[cf_flight_id cfg := mkLive (cf_attempt cfg) (cf_key cfg) (flight s)]> (w_live w)) (journal s) (w_published w),
       Ok (RCreated (cf_flight_id cfg)))
  | (s, Err e) =>
      match rollback_io (io 2%nat) (mkReservation JOURNAL_SCHEMA (cf_key cfg) (cf_attempt cfg) (cf_flight_id cfg)) (journal s) with
      | (j'', Err e') => (set_journal w j'', Err (FeJournal e'))
      | (j'', Ok _) => (set_journal w j'', Err e)
      end
  end.
Definition reserve (io : Fault) (cfg : Config) (w : World) : World * result Reserved FlightError :=
  if negb (String.eqb (w_attempt w) (cf_attempt cfg)) then (w, Err FeAttemptMismatch)
  else match w_flights w !! cf_key cfg with
  | Some id => (w, Ok (RJoined id))
  | None =>
      let r := mkReservation JOURNAL_SCHEMA (cf_key cfg) (cf_attempt cfg) (cf_flight_id cfg) in
      match reserve_flight_io (io 0%nat) r (w_journal w) with
      | (j', Err e) => (set_journal w j', Err (FeJournal e))
      | (j', Ok (Existing r')) => recovered_reservation (fun n => io (3 + n)%nat) cfg r' (set_journal w j')
      | (j', Ok Created) => create_reserved io cfg j' w
      end
  end.

(** [recover_remote_request_reservations]: one reservation of the listing. *)
Definition recover_one (io : Fault) (duration : Z) (r : Reservation) (w : World) : World * result unit FlightError :=
  match rv_key r with
  | DedicatedRequest _ =>
      let id := rv_flight_id r in
      let recover (j : Journal) :=
        match recover_dead id (fun n => io (3 + n)%nat) duration (mkSys initial_flight j (w_published w)) with
        | (s, Ok _) => (mkWorld (w_attempt w) (w_flights w) (w_live w) (journal s) (published s), Ok tt)
        | (s, Err e) => (set_journal w (journal s), Err e)
        end in
      match io_error (io 0%nat) (records id (w_journal w)) with
      | Err e => (w, Err (FeJournal e))
      | Ok [] =>
          match rollback_io (io 1%nat) r (w_journal w) with
          | (j', Err e) => (set_journal w j', Err (FeJournal e))
          | (j', Ok true) => (set_journal w j', Ok tt)
          | (j', Ok false) =>
              match io_error (io 2%nat) (records id j') with
              | Err e => (w, Err (FeJournal e))
              | Ok [] => (w, Err (FeReservationUnavailable id))
              | Ok _ => recover j'
              end
          end
      | Ok _ => recover (w_journal w)
      end
  | _ => (w, Ok tt)
  end.
Fixpoint recover_each (io : nat -> Fault) (duration : Z) (rs : list Reservation) (w : World) : World * result unit FlightError :=
  match rs with
  | [] => (w, Ok tt)
  | r :: rs' =>
      match recover_one (io 0%nat) duration r w with
      | (w', Ok _) => recover_each (fun n => io (S n)) duration rs' w'
      | (w', Err e) => (w', Err e)
      end
  end.
Definition MAX_DISCOVERED_RESERVATIONS : nat := Z.to_nat 4096.
Definition reservations (j : Journal) : result (list Reservation) JournalError :=
  if (MAX_DISCOVERED_RESERVATIONS <? size (jn_reservations j))%nat then Err JFull
  else Ok ((map_to_list (jn_reservations j)).*2).
Definition recover_remote_request_reservations (io0 : option IoFault) (io : nat -> Fault) (duration : Z) (w : World)
    : World * result unit FlightError :=
  match io_error io0 (reservations (w_journal w)) with
  | Err e => (w, Err (FeJournal e))
  | Ok rs =>
      if existsb (fun r => negb (String.eqb (rv_attempt_id r) (w_attempt w))) rs then (w, Err FeAttemptMismatch)
      else recover_each io duration rs w
  end.

(** ** Schedules *)
Inductive Step :=
| StReserve (io : Fault) (cfg : Config)
| StSection (id : string) (op : Op)
| StRecover (io0 : option IoFault) (io : nat -> Fault) (duration : Z)
| StRestart (attempt : string).

(** A step, and the flight it handed out. *)
Definition step (w : World) (st : Step) : World * option (FlightKey * Reserved) :=
  match st with
  | StReserve io cfg =>
      match reserve io cfg w with
      | (w', Ok r) => (w', Some (cf_key cfg, r))
      | (w', Err _) => (w', None)
      end
  | StSection id op =>
      match w_live w !! id with
      | None => (w, None)
      | Some l =>
          let s := exec id (lf_attempt l) (lf_key l) (mkSys (lf_flight l) (w_journal w) (w_published w)) op in
          (mkWorld (w_attempt w) (w_flights w) (<[id := mkLive (lf_attempt l) (lf_key l) (flight s)]> (w_live w))
             (journal s) (published s), None)
      end
  | StRecover io0 io duration => (fst (recover_remote_request_reservations io0 io duration w), None)
  | StRestart attempt => (new attempt (w_journal w) (w_published w), None)
  end.
Fixpoint outcomes (w : World) (sts : list Step) : list (FlightKey * Reserved) :=
  match sts with
  | [] => []
  | st :: sts' => match step w st with (w', o) => option_list o ++ outcomes w' sts' end
  end.

(** ** Journals only grow *)
Record grew (j j' : Journal) : Prop := {
  gr_rows : forall id, rows j id `prefix_of` rows j' id;
  gr_reservations : forall k r, jn_reservations j !! k = Some r -> rows j (rv_flight_id r) <> [] -> jn_reservations j' !! k = Some r }.
#[global] Instance grew_preorder : PreOrder grew.
Proof.
  split; [by intros j; split|]. intros j1 j2 j3 [H1 H2] [H3 H4].
  split; [intros id; etrans; [apply H1|apply H3]|]. intros k r Hk Hr. apply H4; [by apply H2|].
  intros E. specialize (H1 (rv_flight_id r)). rewrite E in H1. by apply prefix_nil_inv in H1.
Qed.

Lemma grew_rows j id r : grew j (with_rows j id (rows j id ++ [r])).
Proof.
  split; [|by intros]. intros id'. destruct (decide (id = id')) as [<-|Hne].
  - rewrite rows_with. by eexists.
  - by rewrite rows_with_ne.
Qed.
Lemma grew_append id r j j' : append id r j = Ok j' -> grew j j'.
Proof. intros (_ & -> & _)%append_ok. apply grew_rows. Qed.
Lemma grew_append_terminal id res j out j' : append_terminal id res j = Ok (out, j') -> grew j j'.
Proof. intros [(x & _ & _ & ->)|(_ & _ & -> & _)]%append_terminal_ok; [done|apply grew_rows]. Qed.

Lemma grew_terminal_io id io res j : grew j (fst (append_terminal_io io id res j)).
Proof.
  unfold append_terminal_io, after_fault. destruct (append_terminal id res j) as [[o j']|] eqn:Ea, io as [x|]; simpl; try done;
    [destruct (if_written x); [|done]|]; by eapply grew_append_terminal.
Qed.

Definition grows {A} (m : M A) : Prop := forall s, grew (journal s) (journal (fst (m s))).
Lemma grows_ret {A} (a : A) : grows (ret a).
Proof. by intros s. Qed.
Lemma grows_fail {A} e : grows (fail (A := A) e).
Proof. by intros s. Qed.
Lemma grows_get : grows get.
Proof. by intros s. Qed.
Lemma grows_modify g : grows (modify g).
Proof. by intros s. Qed.
Lemma grows_bind {A B} (m : M A) (k : A -> M B) : grows m -> (forall a, grows (k a)) -> grows (bind m k).
Proof.
  intros Hm Hk s. unfold bind. specialize (Hm s). destruct (m s) as [s' [a|e]]; [|done]. etrans; [exact Hm|apply Hk].
Qed.
Lemma grows_catch {A} (m : M A) h : grows m -> (forall e, grows (h e)) -> grows (catch m h).
Proof.
  intros Hm Hk s. unfold catch. specialize (Hm s). destruct (m s) as [s' [a|e]]; [done|]. etrans; [exact Hm|apply Hk].
Qed.
Lemma grows_append id io e : grows (flight_append id io e).
Proof.
  intros s. unfold flight_append, append_io, after_fault.
  destruct (append _ _ _) eqn:Ea, io as [x|]; simpl; try done; [destruct (if_written x); [|done]|]; by eapply grew_append.
Qed.
Lemma grows_adopt id io : grows (adopt id io).
Proof. intros s. unfold adopt, io_error. by repeat case_match. Qed.
Lemma grows_terminal id io proposed : grows (settle_locked id io proposed).
Proof.
  unfold settle_locked. apply grows_bind; [apply grows_get|]. intros f. destruct (fl_refusal f); [apply grows_fail|].
  case_match; [apply grows_fail|]. apply grows_bind; [apply grows_adopt|]. intros [r|]; [apply grows_ret|].
  intros s. pose proof (grew_terminal_io id (io 1%nat) proposed (journal s)) as Hg.
  by destruct (append_terminal_io _ _ _ _) as [j' [[]|]].
Qed.
Lemma grows_publish id sm : grows (publish id sm).
Proof. by intros s. Qed.
Lemma grew_recover id io duration j : grew j (fst (recover_journaled_intent id io duration j)).
Proof.
  unfold recover_journaled_intent. destruct (io_error _ _) as [rs|]; [|done]. destruct (settled_result rs); [done|].
  destruct (has_intent rs); [|done]. simpl. pose proof (grew_terminal_io id (io 1%nat) (unknown_result duration) j) as Hg.
  by destruct (append_terminal_io _ _ _ _) as [j' [[]|]].
Qed.
Lemma grows_recover id io duration : grows (recover_dead id io duration).
Proof.
  intros s. unfold recover_dead. pose proof (grew_recover id io duration (journal s)) as H.
  by destruct (recover_journaled_intent id io duration (journal s)) as [j' [[[]|]|]].
Qed.

Create HintDb grows.
#[export] Hint Resolve grows_ret grows_fail grows_get grows_modify grows_append grows_adopt grows_terminal grows_publish
  grows_recover : grows.
Ltac grows_case :=
  repeat (first [progress intros | case_match | progress unfold refused | solve [auto with grows]
                | apply grows_bind | apply grows_catch]).

Lemma grows_exec id attempt key s op : grew (journal s) (journal (exec id attempt key s op)).
Proof.
  assert (H : forall A (m : M A), grows m -> grew (journal s) (journal (fst (m s)))) by (intros A m Hm; apply Hm).
  destruct op; cbn [exec]; apply H;
    unfold attach_owner, attach_owner_legacy, detach_owner, detach_owner_legacy, reserve_process_lifecycle,
      close_admission, journal_intent, discover_collateral_owner, begin_journaled_dispatch, journal_process_signals,
      journal_container_removal, observe_row, journal_process_tree, journal_container_identity,
      journal_process_binding_failure, open_row, settle, settle_failed_mark, retain, drop_flight_guard,
      transfer_cleanup_deadline, settle_unknown, settle; grows_case.
Qed.

(** ** Reservations that hold *)

(** The resource is durably bound to the flight, which has rows. *)
Definition bound (k : FlightKey) (id : string) (j : Journal) : Prop :=
  exists r, jn_reservations j !! k = Some r /\ rv_flight_id r = id /\ rows j id <> [].
Definition registry_ok (w : World) : Prop := forall k id, w_flights w !! k = Some id -> bound k id (w_journal w).

Lemma bound_grew k id j j' : grew j j' -> bound k id j -> bound k id j'.
Proof.
  intros [H1 H2] (r & Hk & <- & Hr). exists r. split_and!; [by apply H2|done|].
  intros E. specialize (H1 (rv_flight_id r)). rewrite E in H1. by apply prefix_nil_inv in H1.
Qed.
Lemma ok_grew w w' : grew (w_journal w) (w_journal w') -> w_flights w' = w_flights w -> registry_ok w -> registry_ok w'.
Proof. intros Hg E Hw k id. rewrite E. intros Hk. by eapply bound_grew, Hw. Qed.

Lemma grew_rollback r j : grew j (snd (rollback_empty_reservation r j)).
Proof.
  unfold rollback_empty_reservation. case_match eqn:E; [done|]. apply orb_false_iff in E as [E1 E2].
  apply negb_false_iff, bool_decide_eq_true in E1, E2. split; [by intros id|]. simpl. intros k r' Hk Hr.
  destruct (decide (rv_key r = k)) as [<-|Hne]; [|by rewrite lookup_delete_ne]. congruence.
Qed.
Lemma grew_rollback_io io r j : grew j (fst (rollback_io io r j)).
Proof.
  unfold rollback_io, after_fault. pose proof (grew_rollback r j) as Hg.
  destruct (rollback_empty_reservation r j) as [b j'], io as [x|]; simpl in *; [by destruct (if_written x)|done].
Qed.
Lemma grew_reserve r j out j' :
  reserve_flight r j = Ok (out, j') ->
  grew j j' /\ rows j' = rows j /\
  match out with
  | Created => jn_reservations j !! rv_key r = None /\ jn_reservations j' !! rv_key r = Some r
  | Existing r' => jn_reservations j !! rv_key r = Some r'
  end.
Proof.
  unfold reserve_flight. case_match; [done|]. destruct (jn_reservations j !! rv_key r) eqn:E; intros [= <- <-]; [done|].
  split_and!; [|done|done|by simpl; rewrite lookup_insert_eq]. split; [by intros id|]. simpl. intros k r' Hk Hr.
  rewrite lookup_insert_ne; [done|congruence].
Qed.
Lemma create_rows id attempt key io s s' :
  create id attempt key io s = (s', Ok tt) ->
  rows (journal s') id <> [] /\ jn_reservations (journal s') = jn_reservations (journal s).
Proof.
  unfold create, bind. simpl. unfold flight_append, append_io. destruct (append _ _ _) eqn:Ea, (io 0%nat); try done. intros [= <-]. apply append_ok in Ea as (_ & -> & _). simpl.
  rewrite rows_with. split; [by intros [_ ?]%app_eq_nil|done].
Qed.
Lemma grows_create id attempt key io : grows (create id attempt key io).
Proof. unfold create. grows_case. Qed.

Lemma recovered_spec io cfg r w :
  grew (w_journal w) (w_journal (fst (recovered_reservation io cfg r w))) /\
  w_flights (fst (recovered_reservation io cfg r w)) = w_flights w /\
  forall out, snd (recovered_reservation io cfg r w) = Ok out -> exists res, out = RRecovered (rv_flight_id r) res.
Proof.
  unfold recovered_reservation. case_match; [done|].
  pose proof (grew_recover (rv_flight_id r) io (cf_now cfg) (w_journal w)) as Hg.
  destruct (recover_journaled_intent _ _ _ _) as [j' [[[]|]|]]; simpl in *; split_and!; try done; intros out [= <-]; eauto.
Qed.

Lemma create_reserved_spec io cfg j' w :
  registry_ok w -> grew (w_journal w) j' ->
  jn_reservations j' !! cf_key cfg = Some (mkReservation JOURNAL_SCHEMA (cf_key cfg) (cf_attempt cfg) (cf_flight_id cfg)) ->
  let w' := fst (create_reserved io cfg j' w) in
  grew (w_journal w) (w_journal w') /\ registry_ok w' /\
  forall out, snd (create_reserved io cfg j' w) = Ok out ->
    exists id, out = RCreated id /\ bound (cf_key cfg) id (w_journal w').
Proof.
  intros Hw Hg Hs. unfold create_reserved.
  pose proof (grows_create (cf_flight_id cfg) (cf_attempt cfg) (cf_key cfg) (fun n => io (1 + n)%nat) (mkSys initial_flight j' [])) as Hc.
  destruct (create _ _ _ _ _) as [s [[]|e]] eqn:Ec; simpl in Hc; assert (grew (w_journal w) (journal s)) as Hgs by (by etrans).
  - destruct (create_rows _ _ _ _ _ _ Ec) as [Hne Hres].
    assert (bound (cf_key cfg) (cf_flight_id cfg) (journal s)) as Hb by (eexists; rewrite Hres; by split_and!).
    split_and!; simpl; [done| |intros out [= <-]; eauto].
    intros k id. simpl. destruct (decide (cf_key cfg = k)) as [<-|Hk]; [rewrite lookup_insert_eq; by intros [= <-]|].
    rewrite lookup_insert_ne by done. intros Hl. by eapply bound_grew, Hw.
  - pose proof (grew_rollback_io (io 2%nat) (mkReservation JOURNAL_SCHEMA (cf_key cfg) (cf_attempt cfg) (cf_flight_id cfg)) (journal s)) as Hr.
    destruct (rollback_io _ _ _) as [j'' [b|e']]; simpl in *; assert (grew (w_journal w) j'') by (by etrans);
      by split_and!; [|eapply ok_grew|].
Qed.

(** What a reservation did to the journal and to the registry, and what it may answer. *)
Lemma reserve_spec io cfg w :
  registry_ok w ->
  let w' := fst (reserve io cfg w) in
  grew (w_journal w) (w_journal w') /\ registry_ok w' /\
  forall out, snd (reserve io cfg w) = Ok out ->
    match out with
    | RCreated id => bound (cf_key cfg) id (w_journal w') /\ forall id0, ~ bound (cf_key cfg) id0 (w_journal w)
    | RJoined id | RRecovered id _ => forall id0, bound (cf_key cfg) id0 (w_journal w) -> id0 = id
    end.
Proof.
  intros Hw. unfold reserve. case_match; [done|].
  destruct (w_flights w !! cf_key cfg) as [id|] eqn:Ef.
  { split_and!; [done|done|]. intros out [= <-] id0 (r & Hr & <- & _). destruct (Hw _ _ Ef) as (r' & Hr' & <- & _). congruence. }
  unfold reserve_flight_io.
  destruct (reserve_flight _ _) as [[o j']|] eqn:Er; [|destruct (io 0%nat); simpl; by split_and!].
  apply grew_reserve in Er as (Hg & Hrows & Ho). destruct (io 0%nat) as [x|].
  { unfold after_fault. destruct (if_written x); simpl; (split_and!; [done|by eapply ok_grew|done]). }
  destruct o as [|r].
  - destruct Ho as [Hn Hs]. destruct (create_reserved_spec io cfg j' w Hw Hg Hs) as (H1 & H2 & H3).
    split_and!; [done|done|]. intros out Hout. destruct (H3 out Hout) as (id & -> & Hb). split; [done|].
    intros id0 (r & Hr & _). simpl in Hn. congruence.
  - destruct (recovered_spec (fun n => io (3 + n)%nat) cfg r (set_journal w j')) as (H1 & H2 & H3). simpl in H1.
    assert (grew (w_journal w) (w_journal (fst (recovered_reservation (fun n => io (3 + n)%nat) cfg r (set_journal w j'))))) by (by etrans).
    split_and!; [done|by eapply ok_grew|]. intros out Hout. destruct (H3 out Hout) as [res ->].
    intros id0 (r' & Hr' & <- & _). simpl in Ho. congruence.
Qed.

Lemma recover_one_grew io duration r w :
  grew (w_journal w) (w_journal (fst (recover_one io duration r w))) /\
  w_flights (fst (recover_one io duration r w)) = w_flights w.
Proof.
  unfold recover_one. destruct (rv_key r); [done|done|].
  assert (forall j, grew (w_journal w) j ->
    let out := match recover_dead (rv_flight_id r) (fun n => io (3 + n)%nat) duration (mkSys initial_flight j (w_published w)) with
      | (s, Ok _) => (mkWorld (w_attempt w) (w_flights w) (w_live w) (journal s) (published s), Ok tt)
      | (s, Err e) => (set_journal w (journal s), Err e) end in
    grew (w_journal w) (w_journal (fst out)) /\ w_flights (fst out) = w_flights w) as Hrec.
  { intros j Hj. pose proof (grows_recover (rv_flight_id r) (fun n => io (3 + n)%nat) duration (mkSys initial_flight j (w_published w))) as Hg.
    destruct (recover_dead _ _ _ _) as [s [o|e]]; simpl in *; (split; [by etrans|done]). }
  pose proof (grew_rollback_io (io 1%nat) r (w_journal w)) as Hroll.
  destruct (io_error _ _) as [[|x xs]|]; [|by apply Hrec|done].
  destruct (rollback_io _ _ _) as [j' [[]|e]]; simpl in *; [done| |done].
  destruct (io_error (io 2%nat) _) as [[|y ys]|]; [done|by apply Hrec|done].
Qed.
Lemma recover_each_grew io duration rs w :
  grew (w_journal w) (w_journal (fst (recover_each io duration rs w))) /\
  w_flights (fst (recover_each io duration rs w)) = w_flights w.
Proof.
  revert io w. induction rs as [|r rs IH]; intros io w; simpl; [done|].
  destruct (recover_one_grew (io 0%nat) duration r w) as [H1 H2].
  destruct (recover_one (io 0%nat) duration r w) as [w' [[]|e]]; simpl in *; [|done].
  destruct (IH (fun n => io (S n)) w') as [H3 H4]. split; [by etrans|congruence].
Qed.

Lemma step_spec w st :
  registry_ok w ->
  let w' := fst (step w st) in
  grew (w_journal w) (w_journal w') /\ registry_ok w' /\
  forall k out, snd (step w st) = Some (k, out) ->
    match out with
    | RCreated id => bound k id (w_journal w') /\ forall id0, ~ bound k id0 (w_journal w)
    | RJoined id | RRecovered id _ => forall id0, bound k id0 (w_journal w) -> id0 = id
    end.
Proof.
  intros Hw. destruct st as [io cfg|id op|io0 io duration|attempt]; simpl.
  - destruct (reserve_spec io cfg w Hw) as (H1 & H2 & H3).
    destruct (reserve io cfg w) as [w' [r|e]]; simpl in *; split_and!; try done.
    intros k out [= <- <-]. by apply H3.
  - destruct (w_live w !! id) as [l|]; [|done]. simpl.
    pose proof (grows_exec id (lf_attempt l) (lf_key l) (mkSys (lf_flight l) (w_journal w) (w_published w)) op) as Hg.
    split_and!; [done|by eapply ok_grew|done].
  - assert (grew (w_journal w) (w_journal (fst (recover_remote_request_reservations io0 io duration w))) /\
      w_flights (fst (recover_remote_request_reservations io0 io duration w)) = w_flights w) as [H1 H2].
    { unfold recover_remote_request_reservations. destruct (io_error _ _); [|done]. case_match; [done|apply recover_each_grew]. }
    split_and!; [done|by eapply ok_grew|done].
  - split_and!; [done| |done]. intros k id. simpl. by rewrite lookup_empty.
Qed.

(** Once a resource is bound, every later answer for it names the bound flight. *)
Lemma outcomes_bound w sts k id out :
  registry_ok w -> bound k id (w_journal w) -> (k, out) ∈ outcomes w sts ->
  out = RJoined id \/ exists res, out = RRecovered id res.
Proof.
  revert w. induction sts as [|st sts IH]; intros w Hw Hb; simpl; [set_solver|].
  destruct (step_spec w st Hw) as (H1 & H2 & H3). destruct (step w st) as [w' o]; simpl in *.
  intros [Ho|Ho]%elem_of_app; [|by apply (IH w'); [|eapply bound_grew|]].
  destruct o as [o|]; [|by apply not_elem_of_nil in Ho]. apply list_elem_of_singleton in Ho as <-. specialize (H3 k out eq_refl). destruct out as [id'|id'|id' res].
  - by destruct (proj2 H3 id).
  - left. by rewrite (H3 id Hb).
  - right. rewrite (H3 id Hb). eauto.
Qed.

(** C7: a resource gets one flight. On any schedule of reservations, of sections of
    the flights handed out, of request recoveries, of process restarts that keep
    only the journal, and of journal faults: after a reservation created a flight
    for a resource, every later answer for that resource joins or recovers that
    same flight; none creates another. *)
Theorem flight_minted_once attempt j sts pre k id post :
  outcomes (new attempt j []) sts = pre ++ (k, RCreated id) :: post ->
  forall out, (k, out) ∈ post -> out = RJoined id \/ exists res, out = RRecovered id res.
Proof.
  assert (registry_ok (new attempt j [])) as H0 by (intros k0 id0; simpl; by rewrite lookup_empty).
  revert H0. generalize (new attempt j []) as w. revert pre. induction sts as [|st sts IH]; intros pre w Hw; simpl; [by destruct pre|].
  destruct (step_spec w st Hw) as (H1 & H2 & H3). destruct (step w st) as [w' [o|]]; simpl in *; [|by apply IH].
  destruct pre as [|p pre]; intros [= -> E]; [|by apply (IH pre w')].
  intros out Hout. rewrite <- E in Hout. eapply outcomes_bound; [exact H2|exact (proj1 (H3 k (RCreated id) eq_refl))|exact Hout].
Qed.
Lemma flight_minted_once_witness :
  let k := AcpGeneration "g" in
  let cfg id := mkConfig id "t" k 5 in
  let owner := mkFlightOwner "node_a" "session-a" in
  let sts := [StReserve no_fault (cfg "f"); StReserve no_fault (cfg "x"); StSection "f" (OpAttach no_fault owner);
    StSection "f" OpClose; StSection "f" (OpIntent no_fault (mkIntent owner "digest" None)); StRestart "t";
    StReserve no_fault (cfg "y")] in
  let outs := outcomes (new "t" (mkJournal 24 ∅ ∅) []) sts in
  outs = [(k, RCreated "f"); (k, RJoined "f"); (k, RRecovered "f" (unknown_result 5))] /\
  forall out, (k, out) ∈ tail outs -> out = RJoined "f" \/ exists res, out = RRecovered "f" res.
Proof.
  intros k cfg owner sts outs. split; [by vm_compute|].
  apply (flight_minted_once "t" (mkJournal 24 ∅ ∅) sts [] k "f" (tail outs)). by vm_compute.
Defined.
