(* ===== verification/TaskStore.v ===== *)
(** * The task store ([bridge-core/src/task_store.rs], [MemoryTaskStore])

    Durable tasks with their attempts, batches, node checkpoints, in-progress
    starts and orchestration journal. Every method takes the locks it needs
    under the store's guard and checks before it writes, so it is one step that
    either succeeds or leaves the store as it was. Wall clocks are arguments.
    The tables of the [V3] terminal rows, of the turn log and of harvest audits
    are not part of this model. Sequence numbers are unbounded here. *)
From S2P Require Import Prelude Domain FanOut.
Open Scope Z_scope.
Open Scope bridge_scope.

(** ** Records *)
Inductive TaskRecordStatus := TrWorking | TrCompleted | TrFailed | TrCanceled | TrInterrupted.
#[global] Instance task_record_status_eq_dec : EqDecision TaskRecordStatus.
Proof. solve_decision. Defined.
Definition status_str (s : TaskRecordStatus) : string :=
  match s with
  | TrWorking => "working" | TrCompleted => "completed" | TrFailed => "failed"
  | TrCanceled => "canceled" | TrInterrupted => "interrupted"
  end.
Definition is_terminal (s : TaskRecordStatus) : bool := negb (bool_decide (s = TrWorking)).

Inductive BatchStatus := BtWorking | BtCompleted | BtCanceling | BtCanceled | BtFailed.
#[global] Instance batch_status_eq_dec : EqDecision BatchStatus.
Proof. solve_decision. Defined.

Definition i64_max : Z := 9223372036854775807.
Definition RETENTION_NEVER_ELIGIBLE_MS : Z := i64_max.
Definition valid_retention_wall_ms (ms : Z) : bool := (0 <? ms) && (ms <? RETENTION_NEVER_ELIGIBLE_MS).
Definition durable_retention_ms (ms : Z) : Z :=
  if valid_retention_wall_ms ms then ms else RETENTION_NEVER_ELIGIBLE_MS.

Record TaskRecord := mkTask {
  tk_id : string; tk_workflow : string; tk_status : TaskRecordStatus;
  tk_result : option string; tk_error : option string;
  tk_created_ms : Z; tk_updated_ms : Z; tk_last_artifact_ms : option Z;
  tk_input : string; tk_workflow_spec_json : option string; tk_resume_attempts : Z;
  tk_session_cwd : option string; tk_batch_id : option string; tk_item_id : option string;
  tk_artifacts_purged_at : option Z }.
Record BatchRecord := mkBatch {
  bt_id : string; bt_workflow : string; bt_concurrency : Z; bt_total : Z; bt_status : BatchStatus;
  bt_items_json : string; bt_error : option string; bt_created_ms : Z; bt_updated_ms : Z }.
Record TaskAttemptLocator := mkLocator {
  lc_identity : AttemptIdentity; lc_telemetry_unavailable : option LedgerUnavailableReason }.
#[global] Instance attempt_identity_eq_dec : EqDecision AttemptIdentity.
Proof. solve_decision. Defined.
#[global] Instance task_attempt_locator_eq_dec : EqDecision TaskAttemptLocator.
Proof. solve_decision. Defined.

Definition belongs_to (l : TaskAttemptLocator) (task : string) : bool :=
  String.eqb (execution_id (lc_identity l)) task.
Definition is_direct_successor_of (l prior : TaskAttemptLocator) : bool :=
  negb (bool_decide (is_Some (lc_telemetry_unavailable l)))
  && String.eqb (execution_id (lc_identity l)) (execution_id (lc_identity prior))
  && bool_decide ((if u32_max <? ordinal (lc_identity prior) + 1 then None
                   else Some (ordinal (lc_identity prior) + 1)) = Some (ordinal (lc_identity l)))
  && bool_decide (parent_attempt_id (lc_identity l) = Some (attempt_id (lc_identity prior)))
  && negb (String.eqb (attempt_id (lc_identity l)) (attempt_id (lc_identity prior))).

Inductive WorkflowDurableOutcome := WoCompleted | WoCompletedDegraded | WoFailed | WoCanceled | WoInterrupted.
#[global] Instance workflow_durable_outcome_eq_dec : EqDecision WorkflowDurableOutcome.
Proof. solve_decision. Defined.
Definition parse_closed (value : string) : option WorkflowDurableOutcome :=
  if String.eqb value "completed" then Some WoCompleted
  else if String.eqb value "completed_degraded" then Some WoCompletedDegraded
  else if String.eqb value "failed" then Some WoFailed
  else if String.eqb value "canceled" then Some WoCanceled
  else if String.eqb value "interrupted" then Some WoInterrupted
  else None.
Record WorkflowTaskEvidence := mkEvidence {
  we_outcome : option WorkflowDurableOutcome; we_policy_trigger_json : option string }.
Definition no_evidence : WorkflowTaskEvidence := mkEvidence None None.

Inductive TerminalStatus := TermCompleted | TermFailed (reason : string) | TermCanceled.
Definition terminal_status_from_record (s : TaskRecordStatus) : TerminalStatus :=
  match s with TrCompleted => TermCompleted | TrCanceled => TermCanceled | other => TermFailed (status_str other) end.

Inductive ResumeClaim := Resumable (attempt : Z) | ResumeExhausted.
Inductive ChildClaim := ChildCreated | ExistingWorking | ExistingTerminal.
#[global] Instance child_claim_eq_dec : EqDecision ChildClaim.
Proof. solve_decision. Defined.

(** ** The store

    [Usage] is a usage snapshot, compared by its [PartialEq] (its cost is a
    float); [Payload] the content of the events the store never looks into;
    [Terminal] the attempt evidence, with its [validate] and its outcome text. *)
Section Store.
Context {Usage Payload Terminal : Type} (usage_eqb : Usage -> Usage -> bool)
  `{EqDecision Terminal} (terminal_valid : Terminal -> bool) (terminal_outcome : Terminal -> string).

Inductive OrchEventKind :=
| NodeStarted (node : string) (selection : option EffectiveConfig)
| NodeFinished (node : string) (ok : bool) (output : string) (usage : option Usage)
    (terminal_json policy_trigger_json : option string)
| TerminalEvent (status : TerminalStatus) (output : string)
| ProgressEvent (payload : Payload)
| UsageEvent (usage : Usage)
| PlanEvent (payload : Payload)
| ToolCall (payload : Payload)
| ToolCallUpdate (payload : Payload)
| HarvestSanitizationDecision (payload : Payload).
Definition ORCH_V : Z := 1.
Record OrchEvent := mkEvent {
  ev_v : Z; ev_seq : Z; ev_ts_ms : Z; ev_operation_id : string; ev_kind : OrchEventKind }.
Definition set_ev_seq (seq : Z) (e : OrchEvent) : OrchEvent :=
  mkEvent (ev_v e) seq (ev_ts_ms e) (ev_operation_id e) (ev_kind e).

Record Checkpoint := mkCheckpoint {
  cp_output : string; cp_ok : bool; cp_ts : Z; cp_seq : Z; cp_usage : option Usage }.
Record PendingTerminal := mkPendingTerminal {
  pt_task : TaskRecord; pt_attempt_id : string; pt_terminal_seq : Z; pt_terminal : Terminal }.

Record Store := mkStore {
  st_tasks : gmap string TaskRecord;
  st_locators : gmap string TaskAttemptLocator;
  st_identities : gmap string (string * Z * string);
  st_batches : gmap string BatchRecord;
  st_birth : gset string;
  st_checkpoints : gmap (string * string) Checkpoint;
  st_node_terminals : gmap (string * string) string;
  st_triggers : gmap (string * string) string;
  st_evidence : gmap string WorkflowTaskEvidence;
  st_seq : gmap string Z;
  st_terminal_seqs : gmap string Z;
  st_pending : gmap string PendingTerminal;
  st_replay : gmap string PendingTerminal;
  st_starts : gmap (string * string) (Z * Z);
  st_journals : gmap string (list (Z * OrchEvent)) }.
Definition empty_store : Store := mkStore ∅ ∅ ∅ ∅ ∅ ∅ ∅ ∅ ∅ ∅ ∅ ∅ ∅ ∅ ∅.

Definition set_tasks m s := mkStore m (st_locators s) (st_identities s) (st_batches s) (st_birth s) (st_checkpoints s)
  (st_node_terminals s) (st_triggers s) (st_evidence s) (st_seq s) (st_terminal_seqs s) (st_pending s) (st_replay s) (st_starts s) (st_journals s).
Definition set_locators m s := mkStore (st_tasks s) m (st_identities s) (st_batches s) (st_birth s) (st_checkpoints s)
  (st_node_terminals s) (st_triggers s) (st_evidence s) (st_seq s) (st_terminal_seqs s) (st_pending s) (st_replay s) (st_starts s) (st_journals s).
Definition set_identities m s := mkStore (st_tasks s) (st_locators s) m (st_batches s) (st_birth s) (st_checkpoints s)
  (st_node_terminals s) (st_triggers s) (st_evidence s) (st_seq s) (st_terminal_seqs s) (st_pending s) (st_replay s) (st_starts s) (st_journals s).
Definition set_batches m s := mkStore (st_tasks s) (st_locators s) (st_identities s) m (st_birth s) (st_checkpoints s)
  (st_node_terminals s) (st_triggers s) (st_evidence s) (st_seq s) (st_terminal_seqs s) (st_pending s) (st_replay s) (st_starts s) (st_journals s).
Definition set_birth m s := mkStore (st_tasks s) (st_locators s) (st_identities s) (st_batches s) m (st_checkpoints s)
  (st_node_terminals s) (st_triggers s) (st_evidence s) (st_seq s) (st_terminal_seqs s) (st_pending s) (st_replay s) (st_starts s) (st_journals s).
Definition set_checkpoints m s := mkStore (st_tasks s) (st_locators s) (st_identities s) (st_batches s) (st_birth s) m
  (st_node_terminals s) (st_triggers s) (st_evidence s) (st_seq s) (st_terminal_seqs s) (st_pending s) (st_replay s) (st_starts s) (st_journals s).
Definition set_evidence m s := mkStore (st_tasks s) (st_locators s) (st_identities s) (st_batches s) (st_birth s) (st_checkpoints s)
  (st_node_terminals s) (st_triggers s) m (st_seq s) (st_terminal_seqs s) (st_pending s) (st_replay s) (st_starts s) (st_journals s).
Definition set_terminal_rows terminals triggers s := mkStore (st_tasks s) (st_locators s) (st_identities s) (st_batches s) (st_birth s) (st_checkpoints s)
  terminals triggers (st_evidence s) (st_seq s) (st_terminal_seqs s) (st_pending s) (st_replay s) (st_starts s) (st_journals s).
Definition set_seq m s := mkStore (st_tasks s) (st_locators s) (st_identities s) (st_batches s) (st_birth s) (st_checkpoints s)
  (st_node_terminals s) (st_triggers s) (st_evidence s) m (st_terminal_seqs s) (st_pending s) (st_replay s) (st_starts s) (st_journals s).
Definition set_terminal_seqs m s := mkStore (st_tasks s) (st_locators s) (st_identities s) (st_batches s) (st_birth s) (st_checkpoints s)
  (st_node_terminals s) (st_triggers s) (st_evidence s) (st_seq s) m (st_pending s) (st_replay s) (st_starts s) (st_journals s).
Definition set_pending pending replay s := mkStore (st_tasks s) (st_locators s) (st_identities s) (st_batches s) (st_birth s) (st_checkpoints s)
  (st_node_terminals s) (st_triggers s) (st_evidence s) (st_seq s) (st_terminal_seqs s) pending replay (st_starts s) (st_journals s).
Definition set_starts m s := mkStore (st_tasks s) (st_locators s) (st_identities s) (st_batches s) (st_birth s) (st_checkpoints s)
  (st_node_terminals s) (st_triggers s) (st_evidence s) (st_seq s) (st_terminal_seqs s) (st_pending s) (st_replay s) m (st_journals s).
Definition set_journals m s := mkStore (st_tasks s) (st_locators s) (st_identities s) (st_batches s) (st_birth s) (st_checkpoints s)
  (st_node_terminals s) (st_triggers s) (st_evidence s) (st_seq s) (st_terminal_seqs s) (st_pending s) (st_replay s) (st_starts s) m.

(** ** Helpers *)
Definition Step (A : Type) : Type := Store -> result (A * Store) BridgeError.

Definition set_status (status : TaskRecordStatus) (res err : option string) (updated : Z) (t : TaskRecord) : TaskRecord :=
  mkTask (tk_id t) (tk_workflow t) status res err (tk_created_ms t) updated (tk_last_artifact_ms t) (tk_input t)
    (tk_workflow_spec_json t) (tk_resume_attempts t) (tk_session_cwd t) (tk_batch_id t) (tk_item_id t) (tk_artifacts_purged_at t).
Definition set_resume (attempts updated : Z) (t : TaskRecord) : TaskRecord :=
  mkTask (tk_id t) (tk_workflow t) (tk_status t) (tk_result t) (tk_error t) (tk_created_ms t) updated (tk_last_artifact_ms t)
    (tk_input t) (tk_workflow_spec_json t) attempts (tk_session_cwd t) (tk_batch_id t) (tk_item_id t) (tk_artifacts_purged_at t).
Definition set_batch (batch item : string) (t : TaskRecord) : TaskRecord :=
  mkTask (tk_id t) (tk_workflow t) (tk_status t) (tk_result t) (tk_error t) (tk_created_ms t) (tk_updated_ms t)
    (tk_last_artifact_ms t) (tk_input t) (tk_workflow_spec_json t) (tk_resume_attempts t) (tk_session_cwd t)
    (Some batch) (Some item) (tk_artifacts_purged_at t).
Definition bump_last_artifact (artifact_ms : Z) (t : TaskRecord) : TaskRecord :=
  if match tk_last_artifact_ms t with Some existing => existing <? artifact_ms | None => true end
  then mkTask (tk_id t) (tk_workflow t) (tk_status t) (tk_result t) (tk_error t) (tk_created_ms t) (tk_updated_ms t)
         (Some artifact_ms) (tk_input t) (tk_workflow_spec_json t) (tk_resume_attempts t) (tk_session_cwd t)
         (tk_batch_id t) (tk_item_id t) (tk_artifacts_purged_at t)
  else t.
Definition bump (now : Z) (task : string) (s : Store) : result Store BridgeError :=
  match st_tasks s !! task with
  | None => Err StoreFailure
  | Some row => Ok (set_tasks (<[task := bump_last_artifact (durable_retention_ms now) row]> (st_tasks s)) s)
  end.
Definition counter (task : string) (s : Store) : Z := default 0 (st_seq s !! task).
Definition next_seq (task : string) (s : Store) : Z * Store :=
  let seq := counter task s + 1 in (seq, set_seq (<[task := seq]> (st_seq s)) s).
Definition journal (task : string) (s : Store) : list (Z * OrchEvent) := default [] (st_journals s !! task).
Definition push_event (task : string) (seq ts : Z) (op : string) (kind : OrchEventKind) (s : Store) : Store :=
  set_journals (<[task := journal task s ++ [(seq, mkEvent ORCH_V seq ts op kind)]]> (st_journals s)) s.
Definition project_pending_as_working (s : Store) (row : TaskRecord) : TaskRecord :=
  match st_pending s !! tk_id row with
  | Some _ => set_status TrWorking None None (tk_updated_ms row) row
  | None => row
  end.
(** An attempt identity that is already admitted, or whose ordinal is. *)
Definition identity_taken (l : TaskAttemptLocator) (s : Store) : bool :=
  bool_decide (is_Some (st_identities s !! attempt_id (lc_identity l)))
  || existsb (fun '(_, (execution, ord, _)) =>
       String.eqb execution (execution_id (lc_identity l)) && (ord =? ordinal (lc_identity l)))
     (map_to_list (st_identities s)).
Definition admit_identity (task : string) (l : TaskAttemptLocator) (s : Store) : Store :=
  set_identities (<[attempt_id (lc_identity l) := (execution_id (lc_identity l), ordinal (lc_identity l), task)]> (st_identities s))
    (set_locators (<[task := l]> (st_locators s)) s).
Definition insert_task (rec : TaskRecord) (s : Store) : Store :=
  set_birth ({[tk_id rec]} ∪ st_birth s) (set_tasks (<[tk_id rec := rec]> (st_tasks s)) s).
Definition contains_task (task : string) (s : Store) : bool := bool_decide (is_Some (st_tasks s !! task)).

(** ** Tasks and attempts *)
Definition create (rec : TaskRecord) : Step unit := fun s =>
  if contains_task (tk_id rec) s then Err StoreFailure else Ok (tt, insert_task rec s).

Definition create_with_attempt_locator (rec : TaskRecord) (l : TaskAttemptLocator) : Step unit := fun s =>
  if negb (belongs_to l (tk_id rec)) then Err StoreFailure
  else if contains_task (tk_id rec) s || bool_decide (is_Some (st_locators s !! tk_id rec)) || identity_taken l s
  then Err StoreFailure
  else Ok (tt, insert_task rec (admit_identity (tk_id rec) l s)).

Definition put_attempt_locator (task : string) (l : TaskAttemptLocator) : Step unit := fun s =>
  if negb (belongs_to l task) then Err StoreFailure
  else if negb (contains_task task s) then Err TaskNotFound
  else if bool_decide (is_Some (st_locators s !! task)) || identity_taken l s then Err StoreFailure
  else Ok (tt, admit_identity task l s).

Definition mark_attempt_telemetry_unavailable (task attempt : string) (reason : LedgerUnavailableReason) : Step unit := fun s =>
  match st_locators s !! task with
  | None => Err StoreFailure
  | Some l =>
      if negb (String.eqb (attempt_id (lc_identity l)) attempt) then Err StoreFailure
      else Ok (tt, set_locators (<[task := mkLocator (lc_identity l) (Some reason)]> (st_locators s)) s)
  end.

Definition set_terminal (task : string) (status : TaskRecordStatus) (res err : option string) (updated : Z) : Step unit := fun s =>
  if bool_decide (is_Some (st_pending s !! task)) then Err StoreFailure
  else match st_tasks s !! task with
       | None => Err StoreFailure
       | Some row => Ok (tt, set_tasks (<[task := set_status status res err (durable_retention_ms updated) row]> (st_tasks s)) s)
       end.

Definition sweep_row (updated : Z) (row : TaskRecord) : TaskRecord :=
  if bool_decide (tk_status row = TrWorking)
  then set_status TrInterrupted (tk_result row) (Some "interrupted (serve restarted)"%string) (durable_retention_ms updated) row
  else row.
Definition sweep_interrupted (updated : Z) : Step nat := fun s =>
  Ok (length (filter (fun '(_, row) => tk_status row = TrWorking) (map_to_list (st_tasks s))),
      set_tasks (sweep_row updated <$> st_tasks s) s).

Definition cancel_if_working (task : string) (updated : Z) : Step bool := fun s =>
  match st_tasks s !! task with
  | Some row =>
      if bool_decide (tk_status row = TrWorking)
      then Ok (true, set_tasks (<[task := set_status TrCanceled (tk_result row) (tk_error row) (durable_retention_ms updated) row]> (st_tasks s)) s)
      else Ok (false, s)
  | None => Ok (false, s)
  end.

Definition claim_resume_attempt (task : string) (cap now : Z) : Step ResumeClaim := fun s =>
  match st_tasks s !! task with
  | None => Err StoreFailure
  | Some row =>
      if cap <=? tk_resume_attempts row then Ok (ResumeExhausted, s)
      else
        let attempts := tk_resume_attempts row + 1 in
        Ok (Resumable attempts, set_tasks (<[task := set_resume attempts (durable_retention_ms now) row]> (st_tasks s)) s)
  end.

Definition claim_resume_attempt_with_locator (task : string) (cap now : Z) (expected next : TaskAttemptLocator)
    : Step ResumeClaim := fun s =>
  if negb (belongs_to expected task) || negb (is_direct_successor_of next expected) then Err StoreFailure
  else match st_tasks s !! task with
  | None => Err StoreFailure
  | Some row =>
      if negb (bool_decide (tk_status row = TrWorking)) || negb (bool_decide (st_locators s !! task = Some expected))
      then Err StoreFailure
      else if cap <=? tk_resume_attempts row then Ok (ResumeExhausted, s)
      else if identity_taken next s then Err StoreFailure
      else if u32_max <? tk_resume_attempts row + 1 then Err StoreFailure
      else
        let attempts := tk_resume_attempts row + 1 in
        Ok (Resumable attempts,
            admit_identity task next (set_tasks (<[task := set_resume attempts (durable_retention_ms now) row]> (st_tasks s)) s))
  end.

(** ** Batches *)
Definition create_batch (rec : BatchRecord) : Step unit := fun s =>
  match st_batches s !! bt_id rec with
  | Some _ => Err StoreFailure
  | None => Ok (tt, set_batches (<[bt_id rec := rec]> (st_batches s)) s)
  end.
Definition set_batch_status (status : BatchStatus) (err : option string) (updated : Z) (b : BatchRecord) : BatchRecord :=
  mkBatch (bt_id b) (bt_workflow b) (bt_concurrency b) (bt_total b) status (bt_items_json b) err (bt_created_ms b) updated.
Definition settle_batch_if_status (batch : string) (expect new : BatchStatus) (ts : Z) : Step bool := fun s =>
  match st_batches s !! batch with
  | Some row =>
      if bool_decide (bt_status row = expect)
      then Ok (true, set_batches (<[batch := set_batch_status new (bt_error row) (durable_retention_ms ts) row]> (st_batches s)) s)
      else Ok (false, s)
  | None => Ok (false, s)
  end.
Definition cancel_batch_if_working (batch : string) (ts : Z) : Step bool :=
  settle_batch_if_status batch BtWorking BtCanceling ts.
Definition fail_batch_if_status (batch : string) (expect : BatchStatus) (error : string) (ts : Z) : Step bool := fun s =>
  match st_batches s !! batch with
  | Some row =>
      if bool_decide (bt_status row = expect)
      then Ok (true, set_batches (<[batch := set_batch_status BtFailed (Some error) (durable_retention_ms ts) row]> (st_batches s)) s)
      else Ok (false, s)
  | None => Ok (false, s)
  end.

Definition is_child (batch item : string) (row : TaskRecord) : bool :=
  bool_decide (tk_batch_id row = Some batch) && bool_decide (tk_item_id row = Some item).
(** The existing child a claim observes; [HashMap::values] has an arbitrary order. *)
Definition find_child (batch item : string) (s : Store) : option TaskRecord :=
  snd <$> List.find (fun kv => is_child batch item (snd kv)) (map_to_list (st_tasks s)).
Definition observed_claim (row : TaskRecord) : ChildClaim :=
  if bool_decide (tk_status row = TrWorking) then ExistingWorking else ExistingTerminal.
Definition claim_batch_child (batch item : string) (rec : TaskRecord) : Step ChildClaim := fun s =>
  match find_child batch item s with
  | Some existing => Ok (observed_claim existing, s)
  | None =>
      if contains_task (tk_id rec) s then Err StoreFailure
      else Ok (ChildCreated, insert_task (set_batch batch item rec) s)
  end.
Definition claim_batch_child_with_locator (batch item : string) (rec : TaskRecord) (l : TaskAttemptLocator)
    : Step ChildClaim := fun s =>
  if negb (belongs_to l (tk_id rec)) then Err StoreFailure
  else match find_child batch item s with
  | Some existing => Ok (observed_claim existing, s)
  | None =>
      if contains_task (tk_id rec) s || bool_decide (is_Some (st_locators s !! tk_id rec)) || identity_taken l s
      then Err StoreFailure
      else Ok (ChildCreated, insert_task (set_batch batch item rec) (admit_identity (tk_id rec) l s))
  end.

(** ** Nodes and the journal *)
Definition put_node_checkpoint (now : Z) (task node output : string) (ok : bool) (ts : Z) : Step unit := fun s =>
  match st_checkpoints s !! (task, node) with
  | Some _ => Err StoreFailure
  | None =>
      let? s := bump now task s in
      Ok (tt, set_checkpoints (<[(task, node) := mkCheckpoint output ok ts 0 None]> (st_checkpoints s)) s)
  end.

Definition record_node_started_with_selection (now : Z) (task node op : string) (ts : Z) (selection : option EffectiveConfig)
    : Step Z := fun s =>
  let? s := bump now task s in
  let (seq, s) := next_seq task s in
  let s := set_starts (<[(task, node) := (seq, ts)]> (st_starts s)) s in
  Ok (seq, push_event task seq ts op (NodeStarted node selection) s).
Definition record_node_started (now : Z) (task node op : string) (ts : Z) : Step Z :=
  record_node_started_with_selection now task node op ts None.

Definition put_node_checkpoint_sequenced (now : Z) (task node op output : string) (ok : bool) (ts : Z) (usage : option Usage)
    : Step Z := fun s =>
  match st_checkpoints s !! (task, node) with
  | Some _ => Err StoreFailure
  | None =>
      let? s := bump now task s in
      let (seq, s) := next_seq task s in
      let s := set_starts (delete (task, node) (st_starts s)) s in
      let s := set_checkpoints (<[(task, node) := mkCheckpoint output ok ts seq usage]> (st_checkpoints s)) s in
      Ok (seq, push_event task seq ts op (NodeFinished node ok output usage None None) s)
  end.

Definition usage_opt_eqb (a b : option Usage) : bool :=
  match a, b with Some a, Some b => usage_eqb a b | None, None => true | _, _ => false end.
Definition same_checkpoint (task node output : string) (ok : bool) (usage : option Usage) (terminal_json : string)
    (trigger : option string) (cp : Checkpoint) (s : Store) : bool :=
  String.eqb (cp_output cp) output && Bool.eqb (cp_ok cp) ok && usage_opt_eqb (cp_usage cp) usage
  && bool_decide (st_node_terminals s !! (task, node) = Some terminal_json)
  && bool_decide (st_triggers s !! (task, node) = trigger).
Definition trigger_conflicts (task : string) (trigger : option string) (s : Store) : bool :=
  match trigger, st_evidence s !! task ≫= we_policy_trigger_json with
  | Some t, Some stored => negb (String.eqb stored t)
  | _, _ => false
  end.
Definition store_trigger (task node : string) (trigger : option string) (s : Store) : Store :=
  match trigger with
  | None => s
  | Some t =>
      set_evidence (<[task := mkEvidence (we_outcome (default no_evidence (st_evidence s !! task))) (Some t)]> (st_evidence s))
        (set_terminal_rows (st_node_terminals s) (<[(task, node) := t]> (st_triggers s)) s)
  end.
(** [decodes] says whether the canonical decoders accept the terminal and the trigger. *)
Definition put_node_checkpoint_sequenced_v2 (decodes : bool) (now : Z) (task node op output : string) (ok : bool) (ts : Z)
    (usage : option Usage) (terminal_json : string) (trigger : option string) : Step Z := fun s =>
  if negb decodes then Err StoreFailure
  else match st_checkpoints s !! (task, node) with
  | Some cp =>
      if same_checkpoint task node output ok usage terminal_json trigger cp s then Ok (cp_seq cp, s) else Err StoreFailure
  | None =>
      if negb (contains_task task s) then Err StoreFailure
      else if trigger_conflicts task trigger s then Err StoreFailure
      else
        let? s := bump now task s in
        let (seq, s) := next_seq task s in
        let s := set_starts (delete (task, node) (st_starts s)) s in
        let s := set_checkpoints (<[(task, node) := mkCheckpoint output ok ts seq usage]> (st_checkpoints s)) s in
        let s := set_terminal_rows (<[(task, node) := terminal_json]> (st_node_terminals s)) (st_triggers s) s in
        let s := store_trigger task node trigger s in
        Ok (seq, push_event task seq ts op (NodeFinished node ok output usage (Some terminal_json) trigger) s)
  end.

Definition record_event_sequenced (now : Z) (task op : string) (ts : Z) (kind : OrchEventKind) : Step Z := fun s =>
  let? s := bump now task s in
  let (seq, s) := next_seq task s in
  Ok (seq, push_event task seq ts op kind s).

(** ** Terminals *)
Definition outcome_of_status (status : TaskRecordStatus) : option WorkflowDurableOutcome :=
  match status with
  | TrCompleted => Some WoCompleted | TrFailed => Some WoFailed | TrCanceled => Some WoCanceled
  | TrInterrupted => Some WoInterrupted | TrWorking => None
  end.
Definition status_of_outcome (o : WorkflowDurableOutcome) : TaskRecordStatus :=
  match o with
  | WoCompleted | WoCompletedDegraded => TrCompleted
  | WoFailed => TrFailed | WoCanceled => TrCanceled | WoInterrupted => TrInterrupted
  end.
Definition terminal_text (res err : option string) : string :=
  match res with Some r => r | None => default "" err end.
Definition drop_starts (task : string) (s : Store) : Store :=
  set_starts (filter (fun kv => fst (fst kv) <> task) (st_starts s)) s.
Definition record_outcome (task : string) (o : WorkflowDurableOutcome) (s : Store) : Store :=
  set_evidence (<[task := mkEvidence (Some o) (we_policy_trigger_json (default no_evidence (st_evidence s !! task)))]> (st_evidence s)) s.
(** The writes of a terminal, from the status on. *)
Definition write_terminal (task op : string) (status : TaskRecordStatus) (res err : option string) (ts seq : Z) (row : TaskRecord) (s : Store) : Store :=
  let s := set_tasks (<[task := set_status status res err (durable_retention_ms ts) row]> (st_tasks s)) s in
  let s := set_terminal_seqs (<[task := seq]> (st_terminal_seqs s)) s in
  let s := drop_starts task s in
  push_event task seq ts op (TerminalEvent (terminal_status_from_record status) (terminal_text res err)) s.

Definition set_terminal_sequenced (now : Z) (task op : string) (status : TaskRecordStatus) (res err : option string) (ts : Z)
    : Step Z := fun s =>
  match outcome_of_status status with
  | None => Err StoreFailure
  | Some outcome =>
      if bool_decide (is_Some (st_pending s !! task)) then Err StoreFailure
      else match st_tasks s !! task with
      | None => Err StoreFailure
      | Some row =>
          if bool_decide (status = TrInterrupted) && negb (bool_decide (tk_status row = TrWorking)) then Err StoreFailure
          else
            let row := bump_last_artifact (durable_retention_ms now) row in
            let (seq, s) := next_seq task s in
            Ok (seq, record_outcome task outcome (write_terminal task op status res err ts seq row s))
      end
  end.

Definition locator_matches (task attempt : string) (s : Store) : bool :=
  match st_locators s !! task with
  | Some l => belongs_to l task && String.eqb (attempt_id (lc_identity l)) attempt
  | None => false
  end.
Definition compatible_terminal (status : TaskRecordStatus) (res err : option string) (attempt : string) (terminal : Terminal)
    (p : PendingTerminal) : bool :=
  String.eqb (pt_attempt_id p) attempt && bool_decide (pt_terminal p = terminal)
  && bool_decide (tk_status (pt_task p) = status) && bool_decide (tk_result (pt_task p) = res)
  && bool_decide (tk_error (pt_task p) = err).
Definition set_terminal_sequenced_pending (now : Z) (task op : string) (status : TaskRecordStatus) (res err : option string) (ts : Z)
    (attempt : string) (terminal : Terminal) : Step Z := fun s =>
  if negb (is_terminal status) || negb (terminal_valid terminal) then Err StoreFailure
  else match parse_closed (terminal_outcome terminal) with
  | None => Err StoreFailure
  | Some outcome =>
      if negb (bool_decide (status = status_of_outcome outcome)) then Err StoreFailure
      else match st_pending s !! task with
      | Some p => if compatible_terminal status res err attempt terminal p then Ok (pt_terminal_seq p, s) else Err StoreFailure
      | None =>
          if negb (locator_matches task attempt s) then Err StoreFailure
          else match st_tasks s !! task with
          | None => Err StoreFailure
          | Some row =>
              if negb (bool_decide (tk_status row = TrWorking)) then Err StoreFailure
              else
                let row := bump_last_artifact (durable_retention_ms now) row in
                let (_, s) := next_seq task s in
                let (seq, s) := next_seq task s in
                let s := write_terminal task op status res err ts seq row s in
                let projection := mkPendingTerminal (set_status status res err (durable_retention_ms ts) row) attempt seq terminal in
                let s := set_pending (<[task := projection]> (st_pending s)) (<[task := projection]> (st_replay s)) s in
                Ok (seq, record_outcome task outcome s)
          end
      end
  end.

Definition mark_terminal_projection_ready (task attempt : string) : Step unit := fun s =>
  match st_pending s !! task with
  | Some p =>
      if String.eqb (pt_attempt_id p) attempt then Ok (tt, set_pending (delete task (st_pending s)) (st_replay s) s)
      else Err StoreFailure
  | None => Err StoreFailure
  end.

(** ** Reads *)
Definition get (task : string) (s : Store) : option TaskRecord := project_pending_as_working s <$> st_tasks s !! task.
Definition batch_children (batch : string) (s : Store) : list TaskRecord :=
  project_pending_as_working s <$> filter (fun row => tk_batch_id row = Some batch) (map_to_list (st_tasks s)).*2.

Record JournalScalars := mkScalars {
  js_status : TaskRecordStatus; js_result : option string; js_error : option string;
  js_terminal_seq : option Z; js_cut_seq : Z }.
Record TaskProgressSnapshot := mkSnapshot {
  sn_scalars : JournalScalars;
  sn_checkpoints : list (string * string * bool * Z);
  sn_starts : list (string * Z) }.
Record JournalFoldInputs := mkInputs {
  fi_complete_from_birth : bool; fi_scalars : JournalScalars; fi_events : list OrchEvent }.

Definition parse_node (node : string) : result string BridgeError := id_strict_parse "NodeId" node.
Definition store_parse_node (node : string) : result string BridgeError :=
  match parse_node node with Ok n => Ok n | Err _ => Err StoreFailure end.
(** One event of [fold_journal_to_snapshot] on the checkpoints and the starts so far. *)
Definition fold_event (acc : list (string * string * bool * Z) * list (string * Z)) (e : OrchEvent)
    : result (list (string * string * bool * Z) * list (string * Z)) BridgeError :=
  let '(checkpoints, starts) := acc in
  match ev_kind e with
  | NodeStarted node _ =>
      let? node := parse_node node in
      Ok (checkpoints, filter (fun x => fst x <> node) starts ++ [(node, ev_seq e)])
  | NodeFinished node ok output _ _ _ =>
      let? node := parse_node node in
      Ok (checkpoints ++ [(node, output, ok, ev_seq e)], filter (fun x => fst x <> node) starts)
  | TerminalEvent _ _ => Ok (checkpoints, [])
  | _ => Ok (checkpoints, starts)
  end.
Fixpoint fold_events (acc : list (string * string * bool * Z) * list (string * Z)) (es : list OrchEvent)
    : result (list (string * string * bool * Z) * list (string * Z)) BridgeError :=
  match es with
  | [] => Ok acc
  | e :: es' => let? acc := fold_event acc e in fold_events acc es'
  end.
Definition fold_journal_to_snapshot (events : list OrchEvent) (scalars : JournalScalars)
    : result TaskProgressSnapshot BridgeError :=
  let? acc := fold_events ([], []) events in Ok (mkSnapshot scalars (fst acc) (snd acc)).

Definition event_leb (a b : OrchEvent) : bool := ev_seq a <=? ev_seq b.
(** The rows below a withheld terminal, each event at its row's sequence. *)
Definition visible_events (task : string) (s : Store) : list OrchEvent :=
  (fun '(seq, e) => set_ev_seq seq e) <$>
    List.filter (fun row => match st_pending s !! task with Some p => fst row <? pt_terminal_seq p | None => true end) (journal task s).
Definition journal_from (task : string) (after : Z) (s : Store) : list OrchEvent :=
  sort_by event_leb (filter (fun e => after < ev_seq e) (visible_events task s)).

Definition scalars_of (task : string) (row : TaskRecord) (s : Store) : JournalScalars :=
  match st_pending s !! task with
  | Some p => mkScalars TrWorking None None None (Z.max (pt_terminal_seq p - 1) (- i64_max - 1))
  | None => mkScalars (tk_status row) (tk_result row) (tk_error row) (st_terminal_seqs s !! task) (counter task s)
  end.
Definition journal_fold_inputs (task : string) (s : Store) : result JournalFoldInputs BridgeError :=
  let? row := ok_or (st_tasks s !! task) StoreFailure in
  Ok (mkInputs (bool_decide (task ∈ st_birth s)) (scalars_of task row s) (sort_by event_leb (visible_events task s))).

Fixpoint collect {A B} (f : A -> result B BridgeError) (l : list A) : result (list B) BridgeError :=
  match l with [] => Ok [] | x :: l' => let? y := f x in let? ys := collect f l' in Ok (y :: ys) end.
Definition checkpoint_leb (a b : string * string * bool * Z) : bool := snd a <=? snd b.
Definition read_checkpoints (task : string) (s : Store) : result (list (string * string * bool * Z)) BridgeError :=
  collect (fun '((_, nid), cp) => let? node := store_parse_node nid in Ok (node, cp_output cp, cp_ok cp, cp_seq cp))
    (filter (fun '((tid, _), _) => tid = task) (map_to_list (st_checkpoints s))).
Definition read_starts (task : string) (s : Store) : result (list (string * Z)) BridgeError :=
  collect (fun '((_, nid), (seq, _)) => let? node := store_parse_node nid in Ok (node, seq))
    (filter (fun '((tid, _), _) => tid = task) (map_to_list (st_starts s))).
Definition max_included (checkpoints : list (string * string * bool * Z)) (starts : list (string * Z)) (terminal : option Z) : Z :=
  default 0 (foldr (fun x acc => Some (match acc with Some m => Z.max x m | None => x end)) None
    ((snd <$> checkpoints) ++ (snd <$> starts) ++ option_list terminal)).
Definition progress_snapshot (task : string) (s : Store) : result TaskProgressSnapshot BridgeError :=
  let? row := ok_or (st_tasks s !! task) StoreFailure in
  let sc := scalars_of task row s in
  let? checkpoints := read_checkpoints task s in
  let checkpoints := sort_by checkpoint_leb checkpoints in
  let? starts := read_starts task s in
  let cut := Z.max (js_cut_seq sc) (max_included checkpoints starts (js_terminal_seq sc)) in
  Ok (mkSnapshot (mkScalars (js_status sc) (js_result sc) (js_error sc) (js_terminal_seq sc) cut) checkpoints starts).

(** ** Schedules of writes *)
Inductive Op :=
| OpCreate (rec : TaskRecord)
| OpCreateLocated (rec : TaskRecord) (l : TaskAttemptLocator)
| OpPutLocator (task : string) (l : TaskAttemptLocator)
| OpMarkTelemetry (task attempt : string) (reason : LedgerUnavailableReason)
| OpSetTerminal (task : string) (status : TaskRecordStatus) (res err : option string) (updated : Z)
| OpSweep (updated : Z)
| OpCancel (task : string) (updated : Z)
| OpClaimResume (task : string) (cap now : Z)
| OpClaimResumeLocated (task : string) (cap now : Z) (expected next : TaskAttemptLocator)
| OpCreateBatch (rec : BatchRecord)
| OpSettleBatch (batch : string) (expect new : BatchStatus) (ts : Z)
| OpFailBatch (batch : string) (expect : BatchStatus) (error : string) (ts : Z)
| OpClaimChild (batch item : string) (rec : TaskRecord)
| OpClaimChildLocated (batch item : string) (rec : TaskRecord) (l : TaskAttemptLocator)
| OpCheckpoint (now : Z) (task node output : string) (ok : bool) (ts : Z)
| OpStarted (now : Z) (task node op : string) (ts : Z) (selection : option EffectiveConfig)
| OpFinished (now : Z) (task node op output : string) (ok : bool) (ts : Z) (usage : option Usage)
| OpFinishedV2 (decodes : bool) (now : Z) (task node op output : string) (ok : bool) (ts : Z) (usage : option Usage)
    (terminal_json : string) (trigger : option string)
| OpEvent (now : Z) (task op : string) (ts : Z) (kind : OrchEventKind)
| OpTerminal (now : Z) (task op : string) (status : TaskRecordStatus) (res err : option string) (ts : Z)
| OpTerminalPending (now : Z) (task op : string) (status : TaskRecordStatus) (res err : option string) (ts : Z)
    (attempt : string) (terminal : Terminal)
| OpReady (task attempt : string).

Definition done_or_same {A} (s : Store) (r : result (A * Store) BridgeError) : Store :=
  match r with Ok (_, s') => s' | Err _ => s end.
Definition exec (s : Store) (op : Op) : Store :=
  match op with
  | OpCreate rec => done_or_same s (create rec s)
  | OpCreateLocated rec l => done_or_same s (create_with_attempt_locator rec l s)
  | OpPutLocator task l => done_or_same s (put_attempt_locator task l s)
  | OpMarkTelemetry task attempt reason => done_or_same s (mark_attempt_telemetry_unavailable task attempt reason s)
  | OpSetTerminal task status res err updated => done_or_same s (set_terminal task status res err updated s)
  | OpSweep updated => done_or_same s (sweep_interrupted updated s)
  | OpCancel task updated => done_or_same s (cancel_if_working task updated s)
  | OpClaimResume task cap now => done_or_same s (claim_resume_attempt task cap now s)
  | OpClaimResumeLocated task cap now expected next => done_or_same s (claim_resume_attempt_with_locator task cap now expected next s)
  | OpCreateBatch rec => done_or_same s (create_batch rec s)
  | OpSettleBatch batch expect new ts => done_or_same s (settle_batch_if_status batch expect new ts s)
  | OpFailBatch batch expect error ts => done_or_same s (fail_batch_if_status batch expect error ts s)
  | OpClaimChild batch item rec => done_or_same s (claim_batch_child batch item rec s)
  | OpClaimChildLocated batch item rec l => done_or_same s (claim_batch_child_with_locator batch item rec l s)
  | OpCheckpoint now task node output ok ts => done_or_same s (put_node_checkpoint now task node output ok ts s)
  | OpStarted now task node op ts selection => done_or_same s (record_node_started_with_selection now task node op ts selection s)
  | OpFinished now task node op output ok ts usage => done_or_same s (put_node_checkpoint_sequenced now task node op output ok ts usage s)
  | OpFinishedV2 decodes now task node op output ok ts usage terminal_json trigger =>
      done_or_same s (put_node_checkpoint_sequenced_v2 decodes now task node op output ok ts usage terminal_json trigger s)
  | OpEvent now task op ts kind => done_or_same s (record_event_sequenced now task op ts kind s)
  | OpTerminal now task op status res err ts => done_or_same s (set_terminal_sequenced now task op status res err ts s)
  | OpTerminalPending now task op status res err ts attempt terminal =>
      done_or_same s (set_terminal_sequenced_pending now task op status res err ts attempt terminal s)
  | OpReady task attempt => done_or_same s (mark_terminal_projection_ready task attempt s)
  end.
Definition run_ops (s : Store) (ops : list Op) : Store := foldl exec s ops.
End Store.
