(* ===== verification/TaskProgress.v ===== *)
(** * Progress of a task: its tables against its journal

    Every sequenced write of [TaskStore] draws the task's next sequence number
    and journals one event at it. This file shows what that buys: the journal is
    strictly ordered below the task's counter, and folding it gives back the
    progress tables. One lemma ([exec_view]) says what an operation does to the
    rows of one task; the invariants follow from it. *)
From S2P Require Import Prelude Domain FanOut TaskStore.
Open Scope Z_scope.
Open Scope bridge_scope.

Section Progress.
Context {Usage Payload Terminal : Type} (usage_eqb : Usage -> Usage -> bool)
  `{EqDecision Terminal} (terminal_valid : Terminal -> bool) (terminal_outcome : Terminal -> string).
Local Abbreviation Store := (@Store Usage Payload Terminal).
Local Abbreviation Op := (@Op Usage Payload Terminal).
Local Abbreviation Kind := (@OrchEventKind Usage Payload).
Local Abbreviation exec := (exec usage_eqb terminal_valid terminal_outcome).

(** The rows of one task. *)
Definition view (t : string) (s : Store) (j : list (Z * @OrchEvent Usage Payload)) (c : Z) (starts : string -> option (Z * Z))
    (cps : string -> option Checkpoint) (term : option Z) (pend : option PendingTerminal) : Prop :=
  journal t s = j /\ counter t s = c /\ (forall n, st_starts s !! (t, n) = starts n) /\
  (forall n, st_checkpoints s !! (t, n) = cps n) /\ st_terminal_seqs s !! t = term /\ st_pending s !! t = pend.
Definition upd {A} (n : string) (x : option A) (f : string -> option A) : string -> option A :=
  fun m => if decide (m = n) then x else f m.

Local Abbreviation starts_of t s := (fun n : string => st_starts s !! (t, n)).
Local Abbreviation cps_of t s := (fun n : string => st_checkpoints s !! (t, n)).

(** What an operation may do to the rows of task [t]: it writes nodes of [N], events of [K], and unsequenced
    checkpoints where [L] allows them. *)
Section Steps.
Context (N : string -> Prop) (K : Kind -> Prop) (L : Prop).
Inductive view_step (t : string) (s s' : Store) : Prop :=
| VSame : view t s' (journal t s) (counter t s) (starts_of t s) (cps_of t s) (st_terminal_seqs s !! t) (st_pending s !! t) ->
    view_step t s s'
| VStarted n op ts sel :
    N n ->
    view t s' (journal t s ++ [(counter t s + 1, mkEvent ORCH_V (counter t s + 1) ts op (NodeStarted n sel))]) (counter t s + 1)
      (upd n (Some (counter t s + 1, ts)) (starts_of t s)) (cps_of t s) (st_terminal_seqs s !! t) (st_pending s !! t) ->
    view_step t s s'
| VFinished n op cp tj tr :
    N n -> st_checkpoints s !! (t, n) = None -> cp_seq cp = counter t s + 1 ->
    view t s' (journal t s ++ [(counter t s + 1, mkEvent ORCH_V (counter t s + 1) (cp_ts cp) op
                                 (NodeFinished n (cp_ok cp) (cp_output cp) (cp_usage cp) tj tr))]) (counter t s + 1)
      (upd n None (starts_of t s)) (upd n (Some cp) (cps_of t s)) (st_terminal_seqs s !! t) (st_pending s !! t) ->
    view_step t s s'
| VEvent op ts kind :
    K kind ->
    view t s' (journal t s ++ [(counter t s + 1, mkEvent ORCH_V (counter t s + 1) ts op kind)]) (counter t s + 1)
      (starts_of t s) (cps_of t s) (st_terminal_seqs s !! t) (st_pending s !! t) -> view_step t s s'
| VTerminal c op ts status text pend :
    counter t s < c -> (pend = None \/ exists p, pend = Some p /\ pt_terminal_seq p = c) -> st_pending s !! t = None ->
    view t s' (journal t s ++ [(c, mkEvent ORCH_V c ts op (TerminalEvent status text))]) c
      (fun _ => None) (cps_of t s) (Some c) pend -> view_step t s s'
| VLegacy n cp :
    L -> st_checkpoints s !! (t, n) = None -> cp_seq cp = 0 ->
    view t s' (journal t s) (counter t s) (starts_of t s) (upd n (Some cp) (cps_of t s)) (st_terminal_seqs s !! t) (st_pending s !! t) ->
    view_step t s s'
| VReady : view t s' (journal t s) (counter t s) (starts_of t s) (cps_of t s) (st_terminal_seqs s !! t) None -> view_step t s s'.

Definition op_ok (t : string) (op : Op) : Prop :=
  match op with
  | OpCheckpoint _ task _ _ _ _ => task = t -> L
  | OpStarted _ task node _ _ _ | OpFinished _ task node _ _ _ _ _ | OpFinishedV2 _ _ task node _ _ _ _ _ _ _ => task = t -> N node
  | OpEvent _ task _ _ kind => task = t -> K kind
  | _ => True
  end.

Lemma same_step t s : view_step t s s.
Proof. apply VSame. by split_and!. Qed.

Lemma journal_push t t' seq ts op kind (s : Store) :
  journal t (push_event t' seq ts op kind s) =
    if decide (t = t') then journal t s ++ [(seq, mkEvent ORCH_V seq ts op kind)] else journal t s.
Proof.
  unfold journal, push_event. simpl. case_decide as E; [subst t'; by rewrite lookup_insert_eq|by rewrite lookup_insert_ne].
Qed.
Lemma counter_set t t' c (m : gmap string Z) : default 0 (<[t' := c]> m !! t) = if decide (t = t') then c else default 0 (m !! t).
Proof. case_decide as E; [subst t'; by rewrite lookup_insert_eq|by rewrite lookup_insert_ne]. Qed.
Lemma lookup_pair {A} (m : gmap (string * string) A) t t' n n' x :
  <[(t', n') := x]> m !! (t, n) = if decide (t = t') then upd n' (Some x) (fun n => m !! (t, n)) n else m !! (t, n).
Proof.
  unfold upd. repeat case_decide; subst; [by rewrite lookup_insert_eq|by rewrite lookup_insert_ne by congruence..].
Qed.
Lemma delete_pair {A} (m : gmap (string * string) A) t t' n n' :
  delete (t', n') m !! (t, n) = if decide (t = t') then upd n' None (fun n => m !! (t, n)) n else m !! (t, n).
Proof.
  unfold upd. repeat case_decide; subst; [by rewrite lookup_delete_eq|by rewrite lookup_delete_ne by congruence..].
Qed.
Lemma filter_pair {A} (m : gmap (string * string) A) t t' n :
  filter (fun kv => fst (fst kv) <> t') m !! (t, n) = if decide (t = t') then None else m !! (t, n).
Proof.
  case_decide as E.
  - apply map_lookup_filter_None. right. intros x _. simpl. congruence.
  - destruct (m !! (t, n)) as [x|] eqn:Em; [by apply map_lookup_filter_Some|].
    apply map_lookup_filter_None. by left.
Qed.
Lemma lookup_single {A} (m : gmap string A) t t' x : <[t' := x]> m !! t = if decide (t = t') then Some x else m !! t.
Proof. case_decide as E; [subst t'; by rewrite lookup_insert_eq|by rewrite lookup_insert_ne]. Qed.
Lemma delete_single {A} (m : gmap string A) t t' : delete t' m !! t = if decide (t = t') then None else m !! t.
Proof. case_decide as E; [subst t'; by rewrite lookup_delete_eq|by rewrite lookup_delete_ne]. Qed.

(** Compute the rows of [t] after a write. *)
Ltac view_rows :=
  split_and!; intros; unfold counter; simpl;
  rewrite ?journal_push; unfold journal; simpl;
  rewrite ?counter_set, ?lookup_pair, ?delete_pair, ?filter_pair, ?lookup_single, ?delete_single;
  repeat (rewrite decide_True by done); repeat (rewrite decide_False by done); try done.
Ltac at_task t task := destruct (decide (t = task)) as [->|Hne]; [|apply VSame; view_rows].

Lemma bump_ok now task (s s' : Store) : bump now task s = Ok s' -> exists m, s' = set_tasks m s.
Proof. unfold bump. case_match; [|done]. intros [= <-]. eauto. Qed.

(** The writes that do not touch the progress tables. *)
Ltac quiet := repeat case_match; try apply same_step; simplify_eq; apply VSame; view_rows.

Lemma started_view t now task node op ts sel (s : Store) :
  (task = t -> N node) ->
  view_step t s (done_or_same s (record_node_started_with_selection now task node op ts sel s)).
Proof.
  intros HN.   unfold record_node_started_with_selection. destruct (bump now task s) as [s1|] eqn:Hb; [|apply same_step].
  apply bump_ok in Hb as [m ->]. simpl. at_task t task. eapply (VStarted _ _ _ node op ts sel); [auto|]. view_rows.
Qed.
Lemma finished_view t now task node op output ok ts usage (s : Store) :
  (task = t -> N node) ->
  view_step t s (done_or_same s (put_node_checkpoint_sequenced now task node op output ok ts usage s)).
Proof.
  intros HN.   unfold put_node_checkpoint_sequenced. destruct (st_checkpoints s !! (task, node)) eqn:Hc; [apply same_step|].
  destruct (bump now task s) as [s1|] eqn:Hb; [|apply same_step].
  apply bump_ok in Hb as [m ->]. simpl. at_task t task.
  eapply (VFinished _ _ _ node op (mkCheckpoint output ok ts (counter task s + 1) usage) None None); [auto|done..|]. view_rows.
Qed.
Lemma finished_v2_view t decodes now task node op output ok ts usage tj tr (s : Store) :
  (task = t -> N node) ->
  view_step t s (done_or_same s (put_node_checkpoint_sequenced_v2 usage_eqb decodes now task node op output ok ts usage tj tr s)).
Proof.
  intros HN.   unfold put_node_checkpoint_sequenced_v2. destruct (negb decodes); [apply same_step|].
  destruct (st_checkpoints s !! (task, node)) eqn:Hc; [case_match; apply same_step|].
  destruct (negb _); [apply same_step|]. destruct (trigger_conflicts _ _ _); [apply same_step|].
  destruct (bump now task s) as [s1|] eqn:Hb; [|apply same_step].
  apply bump_ok in Hb as [m ->]. simpl. destruct tr as [tr|]; simpl; at_task t task;
    (eapply (VFinished _ _ _ node op (mkCheckpoint output ok ts (counter task s + 1) usage) (Some tj) _); [auto|done..|view_rows]).
Qed.
Lemma event_view t now task op ts kind (s : Store) :
  (task = t -> K kind) ->
  view_step t s (done_or_same s (record_event_sequenced now task op ts kind s)).
Proof.
  intros HN.   unfold record_event_sequenced. destruct (bump now task s) as [s1|] eqn:Hb; [|apply same_step].
  apply bump_ok in Hb as [m ->]. simpl. at_task t task. eapply (VEvent _ _ _ op ts kind); [auto|]. view_rows.
Qed.
Lemma terminal_view t now task op status res err ts (s : Store) :
  view_step t s (done_or_same s (set_terminal_sequenced now task op status res err ts s)).
Proof.
  unfold set_terminal_sequenced. destruct (outcome_of_status status) as [o|]; [|apply same_step].
  case_bool_decide as Hp; [apply same_step|]. destruct (st_tasks s !! task) as [row|]; [|apply same_step].
  destruct (_ && _); [apply same_step|]. simpl. apply eq_None_not_Some in Hp. at_task t task.
  eapply (VTerminal _ _ _ (counter task s + 1) op ts _ _ None); [lia|by left|done|]. view_rows.
Qed.
Lemma pending_view t now task op status res err ts attempt terminal (s : Store) :
  view_step t s (done_or_same s (set_terminal_sequenced_pending terminal_valid terminal_outcome now task op status res err ts attempt terminal s)).
Proof.
  unfold set_terminal_sequenced_pending. destruct (_ || _); [apply same_step|].
  destruct (parse_closed _) as [o|]; [|apply same_step]. destruct (negb _); [apply same_step|].
  destruct (st_pending s !! task) as [p|] eqn:Hp; [case_match; apply same_step|].
  destruct (negb _); [apply same_step|]. destruct (st_tasks s !! task) as [row|]; [|apply same_step].
  destruct (negb _); [apply same_step|]. simpl. at_task t task.
  eapply (VTerminal _ _ _ (counter task s + 1 + 1) op ts _ _ (Some _)); [lia|right; eexists; split; [reflexivity|]|done|].
  2: view_rows.
  done.
Qed.
Lemma exec_view t s op : op_ok t op -> view_step t s (exec s op).
Proof.
  intros HN. destruct op; cbn [TaskStore.exec];
    [unfold create; quiet|unfold create_with_attempt_locator; quiet|unfold put_attempt_locator; quiet
    |unfold mark_attempt_telemetry_unavailable; quiet|unfold set_terminal; quiet|apply VSame; view_rows
    |unfold cancel_if_working; quiet|unfold claim_resume_attempt; quiet|unfold claim_resume_attempt_with_locator; quiet
    |unfold create_batch; quiet|unfold settle_batch_if_status; quiet|unfold fail_batch_if_status; quiet
    |unfold claim_batch_child; quiet|unfold claim_batch_child_with_locator; quiet| |by apply started_view|by apply finished_view
    |by apply finished_v2_view|by apply event_view|apply terminal_view|apply pending_view|].
  - unfold put_node_checkpoint. destruct (st_checkpoints s !! (task, node)) eqn:Hc; [apply same_step|].
    destruct (bump now task s) as [s1|] eqn:Hb; [|apply same_step].
    apply bump_ok in Hb as [m ->]. simpl. at_task t task.
    eapply (VLegacy _ _ _ node (mkCheckpoint output ok ts 0 None)); [auto|done..|]. view_rows.
  - unfold mark_terminal_projection_ready. destruct (st_pending s !! task) as [p|] eqn:Hp; [|apply same_step].
    case_match; [|apply same_step]. simpl. at_task t task. eapply VReady. view_rows.
Qed.
End Steps.
Local Abbreviation any_step := (view_step (fun _ => True) (fun _ => True) True).
Lemma exec_any t s op : any_step t s (exec s op).
Proof. apply exec_view. by destruct op. Qed.

(** ** The journal stays below the counter *)
Definition row_of (t : string) (s : Store) (seq : Z) (P : Kind -> Prop) : Prop :=
  exists ts op kind, (seq, mkEvent ORCH_V seq ts op kind) ∈ journal t s /\ P kind.
Record progress_inv (t : string) (s : Store) : Prop := {
  pi_sorted : StronglySorted (fun a b => fst a < fst b) (journal t s);
  pi_rows : forall row, row ∈ journal t s -> 0 < fst row <= counter t s /\ ev_seq (snd row) = fst row;
  pi_counter : 0 <= counter t s;
  pi_starts : forall n q ts, st_starts s !! (t, n) = Some (q, ts) -> row_of t s q (fun k => exists sel, k = NodeStarted n sel);
  pi_cps : forall n cp, st_checkpoints s !! (t, n) = Some cp -> cp_seq cp = 0 \/
    row_of t s (cp_seq cp) (fun k => exists usage tj tr, k = NodeFinished n (cp_ok cp) (cp_output cp) usage tj tr);
  pi_terminal : forall q, st_terminal_seqs s !! t = Some q -> row_of t s q (fun k => exists st text, k = TerminalEvent st text);
  pi_pending : forall p, st_pending s !! t = Some p -> st_terminal_seqs s !! t = Some (pt_terminal_seq p) }.

Local Abbreviation run := (@run_ops Usage Payload Terminal usage_eqb _ terminal_valid terminal_outcome).

Lemma row_of_app t (s s' : Store) rows q P : journal t s' = journal t s ++ rows -> row_of t s q P -> row_of t s' q P.
Proof. intros Hj (ts & op & k & Hin & HP). exists ts, op, k. rewrite Hj. set_solver. Qed.
Lemma row_of_new t (s' : Store) rows q ts op (kind : Kind) (P : Kind -> Prop) :
  journal t s' = rows ++ [(q, mkEvent ORCH_V q ts op kind)] -> P kind -> row_of t s' q P.
Proof. intros Hj HP. exists ts, op, kind. rewrite Hj. set_solver. Qed.

(** A new row above the counter keeps the journal in order. *)
Lemma push_sorted t (s s' : Store) q e :
  progress_inv t s -> counter t s < q -> ev_seq e = q -> journal t s' = journal t s ++ [(q, e)] -> counter t s' = q ->
  StronglySorted (fun a b => fst a < fst b) (journal t s') /\
  (forall row, row ∈ journal t s' -> 0 < fst row <= counter t s' /\ ev_seq (snd row) = fst row) /\ 0 <= counter t s'.
Proof.
  intros Hi Hq He Hj Hc. rewrite Hj, Hc. pose proof (pi_counter _ _ Hi). split_and!; [| |lia].
  - apply StronglySorted_app_2; [|apply Hi|repeat constructor]. intros x y Hx ->%list_elem_of_singleton.
    apply (pi_rows _ _ Hi) in Hx as [? _]. simpl. lia.
  - intros row [Hr|Hr]%elem_of_app; [|apply list_elem_of_singleton in Hr as ->; simpl; split; [lia|done]].
    apply (pi_rows _ _ Hi) in Hr as [? ?]. split; [lia|done].
Qed.

Lemma view_inv t (s s' : Store) : progress_inv t s -> any_step t s s' -> progress_inv t s'.
Proof.
  intros Hi. destruct 1 as [Hv|n op ts sel _ Hv|n op cp tj tr _ Hn Hq Hv|op ts kind _ Hv|c op ts st text pend Hc Hp Hn Hv|n cp _ Hn Hq Hv|Hv];
    destruct Hv as (Hj & Hct & Hs & Hcp & Ht & Hpd).
  (* what each kind of step does to the journal *)
  all: assert (StronglySorted (fun a b => fst a < fst b) (journal t s') /\
      (forall row, row ∈ journal t s' -> 0 < fst row <= counter t s' /\ ev_seq (snd row) = fst row) /\ 0 <= counter t s') as (H1 & H2 & H3)
    by (first [eapply push_sorted; [exact Hi| | |exact Hj|exact Hct]; simpl; lia | rewrite Hj, Hct; split_and!; eauto using pi_sorted, pi_rows, pi_counter]).
  all: assert (forall q P, row_of t s q P -> row_of t s' q P) as Hold
    by (intros q P; first [eapply row_of_app; exact Hj|eapply row_of_app; by rewrite app_nil_r]).
  all: split; [exact H1|exact H2|exact H3|intros m q ts'; rewrite Hs|intros m cp'; rewrite Hcp|intros q; rewrite Ht|intros p; rewrite Ht, Hpd].
  all: try (intros E; first [apply (pi_starts _ _ Hi) in E|apply (pi_terminal _ _ Hi) in E]; by apply Hold).
  all: try (intros E; apply (pi_cps _ _ Hi) in E as [E|E]; [by left|right; by apply Hold]).
  all: try (apply (pi_pending _ _ Hi)).
  - unfold upd. case_decide as E; subst; [intros [= <- <-]|intros E2; by apply Hold, (pi_starts _ _ Hi _ _ _ E2)].
    eapply row_of_new; [exact Hj|eauto].
  - unfold upd. case_decide as E; [done|]. intros E2. by apply Hold, (pi_starts _ _ Hi _ _ _ E2).
  - unfold upd. case_decide as E; subst; [intros [= <-]|intros E2; apply (pi_cps _ _ Hi) in E2 as [?|?]; eauto].
    right. rewrite Hq. eapply row_of_new; [exact Hj|eauto].
  - done.
  - intros [= <-]. eapply row_of_new; [exact Hj|eauto].
  - intros E. destruct Hp as [->|(p' & -> & Hp)]; by simplify_eq.
  - unfold upd. case_decide as E; subst; [intros [= <-]; by left|intros E2; apply (pi_cps _ _ Hi) in E2 as [?|?]; eauto].
  - done.
Qed.

Lemma empty_inv t : progress_inv t empty_store.
Proof. split; unfold journal, counter; simpl; rewrite ?lookup_empty; simpl; [constructor|set_solver|done|..]; intros *; by rewrite ?lookup_empty. Qed.
Lemma run_progress_inv t s ops : progress_inv t s -> progress_inv t (run s ops).
Proof.
  revert s; induction ops as [|op ops IH]; intros s Hi; [done|]. simpl. apply IH. eapply view_inv; [done|apply exec_any].
Qed.
Lemma reachable_inv t ops : progress_inv t (run empty_store ops).
Proof. apply run_progress_inv, empty_inv. Qed.

(** ** What stays visible *)
Definition visible (t : string) (s : Store) (seq : Z) : Prop :=
  match st_pending s !! t with Some p => seq < pt_terminal_seq p | None => True end.
Definition cut (t : string) (s : Store) : Z :=
  match st_pending s !! t with Some p => pt_terminal_seq p - 1 | None => counter t s end.
(** A later store extends the journal above the counter, and shows every row that was visible. *)
Definition extends (t : string) (s s' : Store) : Prop :=
  exists rows, journal t s' = journal t s ++ rows /\ (forall r, r ∈ rows -> counter t s < fst r) /\
    counter t s <= counter t s' /\ (forall q, q <= cut t s -> visible t s' q) /\ cut t s <= cut t s'.

Lemma pending_counter t s p : progress_inv t s -> st_pending s !! t = Some p -> 0 < pt_terminal_seq p <= counter t s.
Proof.
  intros Hi Hp. apply (pi_pending _ _ Hi), (pi_terminal _ _ Hi) in Hp as (ts & op & k & Hin & _).
  by apply (pi_rows _ _ Hi) in Hin as [? _].
Qed.
Lemma cut_counter t s : progress_inv t s -> cut t s <= counter t s.
Proof. intros Hi. unfold cut. destruct (st_pending s !! t) eqn:E; [apply (pending_counter _ _ _ Hi) in E|]; lia. Qed.
Lemma view_extends t s s' : progress_inv t s -> any_step t s s' -> extends t s s'.
Proof.
  intros Hi Hs. pose proof (cut_counter _ _ Hi) as Hcc. pose proof (cut_counter _ _ (view_inv _ _ _ Hi Hs)) as Hcc'.
  destruct Hs as [Hv|n op ts sel _ Hv|n op cp tj tr _ Hn Hq Hv|op ts kind _ Hv|c op ts st text pend Hc Hp Hn Hv|n cp _ Hn Hq Hv|Hv];
    destruct Hv as (Hj & Hct & _ & _ & _ & Hpd); unfold extends, visible, cut in *; rewrite Hj, Hct, Hpd in *.
  all: first [eexists; split; [reflexivity|] | exists []; split; [by rewrite app_nil_r|]].
  all: split; [set_solver by lia|]; split; [lia|].
  all: destruct (st_pending s !! t) as [p|] eqn:Ep; simplify_eq; try (split; [intros q ?; try done; lia|lia]).
  destruct Hp as [->|(p & -> & ->)]; (split; [intros q ?; try done; lia|lia]).
Qed.
Lemma run_extends t s ops : progress_inv t s -> extends t s (run s ops).
Proof.
  revert s; induction ops as [|op ops IH]; intros s Hi; simpl.
  - exists []. rewrite app_nil_r. split_and!; [done|set_solver|lia| |lia]. unfold cut, visible. intros q. case_match; [lia|done].
  - pose proof (exec_any t s op) as Hv. pose proof (view_inv _ _ _ Hi Hv) as Hi1.
    destruct (view_extends _ _ _ Hi Hv) as (r1 & Hj1 & Hr1 & Hc1 & Hq1 & Hk1).
    destruct (IH _ Hi1) as (r2 & Hj2 & Hr2 & Hc2 & Hq2 & Hk2).
    exists (r1 ++ r2). rewrite Hj2, Hj1, app_assoc. split_and!; [done| |lia|eauto with lia|lia].
    intros r [Hr|Hr]%elem_of_app; [auto|]. specialize (Hr2 _ Hr). lia.
Qed.

(** ** Reads of the journal *)
Lemma sort_sorted {A} (leb : A -> A -> bool) l : StronglySorted (fun a b => leb a b = true) l -> sort_by leb l = l.
Proof.
  induction 1 as [|x l Hl IH Hx]; simpl; [done|]. rewrite IH. destruct Hx as [|y l' Hy _]; simpl; [done|]. by rewrite Hy.
Qed.
Lemma sorted_filter {A} (R : relation A) P `{forall x, Decision (P x)} l : StronglySorted R l -> StronglySorted R (filter P l).
Proof.
  induction 1 as [|x l Hl IH Hx]; [constructor|]. rewrite filter_cons. case_decide; [|done]. constructor; [done|].
  rewrite Forall_forall in *. intros y [_ Hy]%list_elem_of_filter. auto.
Qed.
#[local] Instance visible_dec t s q : Decision (visible t s q).
Proof. unfold visible. case_match; apply _. Defined.

Lemma filter_bool {A} (P : A -> Prop) `{forall x, Decision (P x)} (b : A -> bool) l :
  (forall x, b x = true <-> P x) -> List.filter b l = filter P l.
Proof.
  intros Hb. induction l as [|x l IH]; [done|]. rewrite filter_cons. simpl. rewrite IH. specialize (Hb x).
  case_decide; destruct (b x); naive_solver.
Qed.
Lemma visible_rows t s : progress_inv t s ->
  visible_events t s = snd <$> filter (fun r => visible t s (fst r)) (journal t s).
Proof.
  intros Hi. unfold visible_events. rewrite (filter_bool (fun r => visible t s (fst r))).
  - apply list_fmap_ext. intros i [q e] Hl. apply list_elem_of_lookup_2, list_elem_of_filter in Hl as [_ Hl].
    apply (pi_rows _ _ Hi) in Hl as [_ Hq]. simpl in *. subst q. by destruct e.
  - intros [q e]. unfold visible. simpl. case_match; [apply Z.ltb_lt|done].
Qed.
Lemma rows_sorted t s (P : Z * OrchEvent -> Prop) `{forall x, Decision (P x)} : progress_inv t s ->
  sort_by event_leb (snd <$> filter P (journal t s)) = snd <$> filter P (journal t s).
Proof.
  intros Hi. apply sort_sorted.
  eapply (StronglySorted_fmap _ (fun a b => fst a < fst b /\ ev_seq (snd a) = fst a /\ ev_seq (snd b) = fst b)).
  - intros x y (? & ? & ?). unfold event_leb. apply Z.leb_le. lia.
  - apply sorted_filter. pose proof (pi_rows _ _ Hi) as Hr. induction (pi_sorted _ _ Hi) as [|x l Hl IH Hx]; constructor; [apply IH; set_solver|].
    rewrite Forall_forall in *. intros y Hy. split_and!; [auto|apply Hr; set_solver|apply Hr; set_solver].
Qed.
Lemma journal_from_rows t s after : progress_inv t s ->
  journal_from t after s = snd <$> filter (fun r => visible t s (fst r) /\ after < fst r) (journal t s).
Proof.
  intros Hi. unfold journal_from. rewrite (visible_rows _ _ Hi).
  assert (filter (fun e => after < ev_seq e) (snd <$> filter (fun r => visible t s (fst r)) (journal t s)) =
    snd <$> filter (fun r => visible t s (fst r) /\ after < fst r) (journal t s)) as ->; [|by apply rows_sorted].
  pose proof (pi_rows _ _ Hi) as Hr. induction (journal t s) as [|[q e] l IH]; [done|].
  destruct (Hr (q, e)) as [_ He]; [set_solver|]. simpl in He. specialize (IH ltac:(set_solver)).
  rewrite !filter_cons. simpl. repeat case_decide; csimpl; rewrite ?filter_cons, ?He; repeat case_decide; rewrite ?IH; tauto.
Qed.
Lemma fold_inputs_ok t s inp : progress_inv t s -> journal_fold_inputs t s = Ok inp ->
  fi_events inp = (snd <$> filter (fun r => visible t s (fst r)) (journal t s)) /\ js_cut_seq (fi_scalars inp) = cut t s.
Proof.
  intros Hi. unfold journal_fold_inputs. destruct (st_tasks s !! t) as [row|]; [|done]. simpl. intros [= <-]. simpl. split.
  - by rewrite visible_rows, rows_sorted.
  - unfold scalars_of, cut. destruct (st_pending s !! t) eqn:E; [|done]. simpl. apply (pending_counter _ _ _ Hi) in E.
    unfold i64_max. lia.
Qed.
Lemma cut_visible t s r : progress_inv t s -> r ∈ journal t s -> visible t s (fst r) <-> fst r <= cut t s.
Proof.
  intros Hi Hr. apply (pi_rows _ _ Hi) in Hr as [? _]. unfold visible, cut. case_match; lia.
Qed.

Lemma filter_none {A} (l : list A) : filter (fun _ => False) l = [].
Proof. by induction l. Qed.
Lemma filter_same {A} (P Q : A -> Prop) `{forall x, Decision (P x)} `{forall x, Decision (Q x)} (l : list A) :
  (forall x, x ∈ l -> P x <-> Q x) -> filter P l = filter Q l.
Proof.
  induction l as [|x l IH]; intros HPQ; [done|]. rewrite !filter_cons, IH by set_solver.
  specialize (HPQ x ltac:(set_solver)). repeat case_decide; tauto.
Qed.
(** A sorted list splits at a key. *)
Lemma sorted_split {A} (l : list (Z * A)) (P : Z * A -> Prop) `{forall x, Decision (P x)} c :
  StronglySorted (fun a b => fst a < fst b) l ->
  filter P l = filter (fun r => P r /\ fst r <= c) l ++ filter (fun r => P r /\ c < fst r) l.
Proof.
  induction 1 as [|x l Hl IH Hx]; [done|]. rewrite !filter_cons.
  destruct (decide (P x)); [|rewrite !decide_False by tauto; done].
  destruct (decide (fst x <= c)).
  - rewrite decide_True by done. rewrite (decide_False (P := _ /\ c < _)) by lia. by rewrite IH.
  - rewrite (decide_False (P := _ /\ _ <= c)) by lia. rewrite decide_True by (split; [done|lia]).
    rewrite Forall_forall in Hx. assert (filter (fun r => P r /\ fst r <= c) l = []) as ->.
    { rewrite <- (filter_none l). apply filter_same. intros y Hy. specialize (Hx y Hy). split; [lia|done]. }
    simpl. f_equal. apply filter_same. intros y Hy. specialize (Hx y Hy). split; [split; [done|lia]|tauto].
Qed.

(** C29: a reader that folds the journal and then follows it from the cut misses nothing and reads nothing
    twice: at any later time the whole visible journal is what was folded, then what is read from the cut on. *)
Theorem tail_continues ops later t inp :
  journal_fold_inputs t (run empty_store ops) = Ok inp ->
  journal_from t 0 (run (run empty_store ops) later)
    = fi_events inp ++ journal_from t (js_cut_seq (fi_scalars inp)) (run (run empty_store ops) later).
Proof.
  intros Hinp. pose proof (reachable_inv t ops) as Hi. set (s := run empty_store ops) in *.
  destruct (fold_inputs_ok _ _ _ Hi Hinp) as [-> ->]. pose proof (run_progress_inv t s later Hi) as Hi'.
  destruct (run_extends t s later Hi) as (rows & Hj & Hr & _ & Hv & _). rewrite !journal_from_rows by done.
  rewrite <- fmap_app. f_equal. rewrite Hj, !filter_app.
  assert (forall r, r ∈ journal t s -> 0 < fst r) as Hpos by (intros r ?; by apply (pi_rows _ _ Hi)).
  pose proof (cut_counter _ _ Hi).
  rewrite (sorted_split (journal t s) (fun r => visible t _ (fst r) /\ 0 < fst r) (cut t s)) by apply Hi.
  rewrite <- app_assoc. f_equal; [|f_equal]; apply filter_same; intros r Hin.
  - rewrite (cut_visible _ _ _ Hi Hin). split; [tauto|]. intros ?. split_and!; [by apply Hv|by apply Hpos|done].
  - specialize (Hpos _ Hin). tauto.
  - specialize (Hr _ Hin). pose proof (pi_counter _ _ Hi). split; (intros [? ?]; split; [done|lia]).
Qed.

(** ** The fold of the journal is the tables *)
Definition node_valid (n : string) : Prop := parse_node n = Ok n.
Definition plain_kind (k : Kind) : Prop :=
  match k with NodeStarted _ _ | NodeFinished _ _ _ _ _ _ | TerminalEvent _ _ => False | _ => True end.
(** Sequenced writes of valid nodes, and events that are not node or terminal transitions. *)
Definition sequenced (t : string) (op : Op) : Prop := op_ok node_valid plain_kind False t op.

Record folded (t : string) (s : Store) (cs : list (string * string * bool * Z)) (ss : list (string * Z)) : Prop := {
  fo_fold : fold_events ([], []) (snd <$> journal t s) = Ok (cs, ss);
  fo_sorted : StronglySorted (fun a b => snd a < snd b) cs;
  fo_cps : forall n o k q, (n, o, k, q) ∈ cs <->
    exists cp, st_checkpoints s !! (t, n) = Some cp /\ o = cp_output cp /\ k = cp_ok cp /\ q = cp_seq cp;
  fo_starts : forall n q, (n, q) ∈ ss <-> exists ts, st_starts s !! (t, n) = Some (q, ts);
  fo_nodup : NoDup ss;
  fo_nodes : forall n, is_Some (st_checkpoints s !! (t, n)) \/ is_Some (st_starts s !! (t, n)) -> node_valid n }.

Lemma fold_events_snoc acc es (e : @OrchEvent Usage Payload) :
  fold_events acc (es ++ [e]) = (let? acc := fold_events acc es in fold_event acc e).
Proof.
  revert acc; induction es as [|e' es IH]; intros acc; simpl.
  - by destruct (fold_event acc e).
  - destruct (fold_event acc e'); [apply IH|done].
Qed.
Lemma fold_push t (s s' : Store) cs ss q e cs' ss' :
  folded t s cs ss -> journal t s' = journal t s ++ [(q, e)] -> fold_event (cs, ss) e = Ok (cs', ss') ->
  fold_events ([], []) (snd <$> journal t s') = Ok (cs', ss').
Proof. intros Hf Hj He. rewrite Hj, fmap_app. simpl. rewrite fold_events_snoc, (fo_fold _ _ _ _ Hf). exact He. Qed.

Lemma started_folded t s s' cs ss n op ts sel : node_valid n -> folded t s cs ss ->
  view t s' (journal t s ++ [(counter t s + 1, mkEvent ORCH_V (counter t s + 1) ts op (NodeStarted n sel))]) (counter t s + 1)
    (upd n (Some (counter t s + 1, ts)) (starts_of t s)) (cps_of t s) (st_terminal_seqs s !! t) (st_pending s !! t) ->
  folded t s' cs (filter (fun x => fst x <> n) ss ++ [(n, counter t s + 1)]).
Proof.
  intros Hn Hf (Hj & _ & Hs & Hc & _ & _). split.
  - eapply fold_push; [done..|]. simpl. unfold node_valid in Hn. by rewrite Hn.
  - apply Hf.
  - intros m o k q. rewrite Hc. apply Hf.
  - intros m q. rewrite Hs. unfold upd. rewrite elem_of_app, list_elem_of_filter, list_elem_of_singleton, (fo_starts _ _ _ _ Hf).
    case_decide; simpl; naive_solver.
  - apply NoDup_app. split_and!; [by apply NoDup_filter, Hf| |apply NoDup_singleton].
    intros x [Hx _]%list_elem_of_filter ->%list_elem_of_singleton. by apply Hx.
  - intros m. rewrite Hc, Hs. unfold upd. case_decide; [by subst|]. apply Hf.
Qed.
Lemma finished_folded t s s' cs ss n op cp tj tr : progress_inv t s -> node_valid n -> folded t s cs ss ->
  st_checkpoints s !! (t, n) = None -> cp_seq cp = counter t s + 1 ->
  view t s' (journal t s ++ [(counter t s + 1, mkEvent ORCH_V (counter t s + 1) (cp_ts cp) op
                               (NodeFinished n (cp_ok cp) (cp_output cp) (cp_usage cp) tj tr))]) (counter t s + 1)
    (upd n None (starts_of t s)) (upd n (Some cp) (cps_of t s)) (st_terminal_seqs s !! t) (st_pending s !! t) ->
  folded t s' (cs ++ [(n, cp_output cp, cp_ok cp, cp_seq cp)]) (filter (fun x => fst x <> n) ss).
Proof.
  intros Hi Hn Hf Hnone Hq (Hj & _ & Hs & Hc & _ & _). split.
  - eapply fold_push; [done..|]. simpl. unfold node_valid in Hn. rewrite Hn. simpl. by rewrite Hq.
  - apply StronglySorted_app_2; [|apply Hf|repeat constructor]. intros [[[m o] k] q] y Hx ->%list_elem_of_singleton.
    apply (fo_cps _ _ _ _ Hf) in Hx as (cp' & Hx & -> & -> & ->). simpl. rewrite Hq.
    pose proof (pi_counter _ _ Hi). apply (pi_cps _ _ Hi) in Hx as [?|(? & ? & ? & Hin & _)]; [lia|].
    apply (pi_rows _ _ Hi) in Hin as [? _]. simpl in *. lia.
  - intros m o k q. rewrite Hc. unfold upd. rewrite elem_of_app, list_elem_of_singleton, (fo_cps _ _ _ _ Hf).
    case_decide; subst; simpl; [rewrite Hnone|]; naive_solver.
  - intros m q. rewrite Hs. unfold upd. rewrite list_elem_of_filter, (fo_starts _ _ _ _ Hf). case_decide; simpl; naive_solver.
  - by apply NoDup_filter, Hf.
  - intros m. rewrite Hc, Hs. unfold upd. case_decide; [by subst|]. apply Hf.
Qed.
Lemma folded_tables t s s' cs ss : folded t s cs ss ->
  (forall n, st_starts s' !! (t, n) = st_starts s !! (t, n)) -> (forall n, st_checkpoints s' !! (t, n) = st_checkpoints s !! (t, n)) ->
  fold_events ([], []) (snd <$> journal t s') = Ok (cs, ss) -> folded t s' cs ss.
Proof.
  intros Hf Hs Hc He. split; [done|apply Hf| | |apply Hf|].
  - intros n o k q. rewrite Hc. apply Hf.
  - intros n q. rewrite Hs. apply Hf.
  - intros n. rewrite Hs, Hc. apply Hf.
Qed.
Lemma step_folded t s s' cs ss : progress_inv t s -> folded t s cs ss -> view_step node_valid plain_kind False t s s' ->
  exists cs' ss', folded t s' cs' ss'.
Proof.
  intros Hi Hf. destruct 1 as [Hv|n op ts sel HN Hv|n op cp tj tr HN Hn Hq Hv|op ts kind HK Hv|c op ts st text pend Hc Hp Hn Hv|n cp [] Hn Hq Hv|Hv];
    [|eauto using started_folded, finished_folded..| | |]; destruct Hv as (Hj & _ & Hs & Hcp & _ & _).
  - exists cs, ss. eapply folded_tables; [done..|]. by rewrite Hj, (fo_fold _ _ _ _ Hf).
  - exists cs, ss. eapply folded_tables; [done..|]. eapply fold_push; [done..|]. by destruct kind.
  - exists cs, []. split; [eapply fold_push; [done..|reflexivity]|apply Hf| | |constructor|].
    + intros m o k q. rewrite Hcp. apply Hf.
    + intros m q. rewrite Hs. split; [set_solver|naive_solver].
    + intros m. rewrite Hcp, Hs. intros [E|[? E]]; [|done]. apply (fo_nodes _ _ _ _ Hf). by left.
  - exists cs, ss. eapply folded_tables; [done..|]. by rewrite Hj, (fo_fold _ _ _ _ Hf).
Qed.
Lemma run_folded t ops : Forall (sequenced t) ops -> exists cs ss, folded t (run empty_store ops) cs ss.
Proof.
  intros Hops. assert (exists cs ss, folded t (empty_store : Store) cs ss) as (cs & ss & Hf).
  { exists [], []. split; unfold journal; simpl; rewrite ?lookup_empty; [done|constructor| | |constructor|];
      intros *; rewrite ?lookup_empty; (split; [set_solver|naive_solver]) || naive_solver. }
  revert cs ss Hf. generalize (empty_inv t). generalize (empty_store : Store) as s. induction Hops as [|op ops Hop Hops IH]; intros s Hi cs ss Hf; [eauto|].
  simpl. destruct (step_folded _ _ _ _ _ Hi Hf (exec_view _ _ _ t s op Hop)) as (cs' & ss' & Hf').
  eapply IH; [|done]. eapply view_inv; [done|apply exec_any].
Qed.

Lemma sorted_nodup {A : Type} (l : list (A * Z)) : StronglySorted (fun a b => snd a < snd b) l -> NoDup l.
Proof.
  induction 1 as [|x l Hl IH Hx]; constructor; [|done]. rewrite Forall_forall in Hx. intros Hin. specialize (Hx _ Hin). lia.
Qed.
Lemma sorted_key_inj {A : Type} (l : list (A * Z)) x y :
  StronglySorted (fun a b => snd a < snd b) l -> x ∈ l -> y ∈ l -> snd x = snd y -> x = y.
Proof.
  induction 1 as [|z l Hl IH Hz]; [set_solver|]. rewrite Forall_forall in Hz.
  intros [->|Hx]%elem_of_cons [->|Hy]%elem_of_cons E; [done| | |auto]; [specialize (Hz _ Hy)|specialize (Hz _ Hx)]; lia.
Qed.
Lemma sorted_weaken {A : Type} (R R' : A -> A -> Prop) l : (forall x y, R x y -> R' x y) -> StronglySorted R l -> StronglySorted R' l.
Proof. intros HR. induction 1; constructor; [done|]. eauto using Forall_impl. Qed.
(** Reading a table is a permutation of its rows. *)
Lemma collect_ok {A B} (f : A -> result B BridgeError) (g : A -> B) l :
  (forall x, x ∈ l -> f x = Ok (g x)) -> collect f l = Ok (g <$> l).
Proof.
  induction l as [|x l IH]; intros Hf; [done|]. simpl. rewrite Hf by set_solver. simpl. by rewrite IH by set_solver.
Qed.
Lemma table_rows {A} (m : gmap (string * string) A) t k x :
  (k, x) ∈ filter (fun '((tid, _), _) => tid = t) (map_to_list m) <-> fst k = t /\ m !! k = Some x.
Proof. rewrite list_elem_of_filter, elem_of_map_to_list. by destruct k. Qed.
Lemma table_read {A B : Type} (m : gmap (string * string) A) (t : string) (g : string -> A -> B) rows :
  (forall n n' x x', g n x = g n' x' -> n = n') -> NoDup rows ->
  (forall y, y ∈ rows <-> exists n x, m !! (t, n) = Some x /\ y = g n x) ->
  (fun '((_, n), x) => g n x) <$> filter (fun '((tid, _), _) => tid = t) (map_to_list m) ≡ₚ rows.
Proof.
  intros Hg Hn Hr. apply NoDup_Permutation; [|done|].
  - apply NoDup_fmap_2_strong; [|apply NoDup_filter, NoDup_map_to_list].
    intros [[t1 n1] x1] [[t2 n2] x2] [? E1]%table_rows [? E2]%table_rows E. simpl in *. subst.
    pose proof (Hg _ _ _ _ E). subst. congruence.
  - intros y. rewrite Hr, list_elem_of_fmap. split.
    + intros ([[t1 n1] x1] & -> & [? E1]%table_rows). simpl in *. subst. eauto.
    + intros (n & x & Hm & ->). exists ((t, n), x). by rewrite table_rows.
Qed.
Lemma read_checkpoints_ok t s cs ss : folded t s cs ss -> exists l, read_checkpoints t s = Ok l /\ l ≡ₚ cs.
Proof.
  intros Hf. unfold read_checkpoints.
  erewrite (collect_ok _ (fun '((_, n), cp) => (n, cp_output cp, cp_ok cp, cp_seq cp))).
  - eexists. split; [reflexivity|]. apply (table_read _ _ (fun n cp => (n, cp_output cp, cp_ok cp, cp_seq cp))); [intros *; cbn; congruence| |].
    + eapply sorted_nodup, Hf.
    + intros [[[n o] k] q]. rewrite (fo_cps _ _ _ _ Hf). naive_solver.
  - intros [[t' n] cp] [? E]%table_rows. simpl in *. subst. unfold store_parse_node.
    rewrite (fo_nodes _ _ _ _ Hf n); [done|]. left. by rewrite E.
Qed.
Lemma read_starts_ok t s cs ss : folded t s cs ss -> exists l, read_starts t s = Ok l /\ l ≡ₚ ss.
Proof.
  intros Hf. unfold read_starts. erewrite (collect_ok _ (fun '((_, n), x) => (n, fst x))).
  - eexists. split; [reflexivity|]. apply (table_read _ _ (fun n (x : Z * Z) => (n, fst x))); [intros *; cbn; congruence|apply Hf|].
    intros [n q]. rewrite (fo_starts _ _ _ _ Hf). split; [intros [ts ?]; by exists n, (q, ts)|].
    intros (n' & [q' ts] & ? & [= -> ->]). by exists ts.
  - intros [[t' n] [q ts]] [? E]%table_rows. simpl in *. subst. unfold store_parse_node.
    rewrite (fo_nodes _ _ _ _ Hf n); [done|]. right. by rewrite E.
Qed.
Lemma sort_checkpoints l cs : StronglySorted (fun a b => snd a < snd b) cs -> l ≡ₚ cs -> sort_by checkpoint_leb l = cs.
Proof.
  intros Hs Hp. eapply (StronglySorted_unique_strong (fun a b => checkpoint_leb a b = true)).
  - intros x y Hx Hy Hxy%Z.leb_le Hyx%Z.leb_le. rewrite sort_by_elem, Hp in Hx.
    eapply (sorted_key_inj cs); [done..|]. lia.
  - apply sort_by_sorted; unfold checkpoint_leb; intros; rewrite !Z.leb_le in *; lia.
  - eapply sorted_weaken; [|exact Hs]. intros x y Hxy. simpl in Hxy. apply Z.leb_le. lia.
  - by rewrite sort_by_perm.
Qed.

Lemma max_included_le cps starts terminal b :
  0 <= b -> (forall c, c ∈ cps -> snd c <= b) -> (forall c, c ∈ starts -> snd c <= b) -> (forall q, terminal = Some q -> q <= b) ->
  max_included cps starts terminal <= b.
Proof.
  intros Hb Hc Hs Ht. unfold max_included.
  assert (Forall (fun x => x <= b) ((snd <$> cps) ++ (snd <$> starts) ++ option_list terminal)) as Hall.
  { rewrite !Forall_app, !Forall_fmap, !Forall_forall. split_and!; [done..|]. destruct terminal; simpl; set_solver. }
  revert Hall. generalize ((snd <$> cps) ++ (snd <$> starts) ++ option_list terminal). intros l Hall.
  assert (forall m, foldr (fun x acc => Some (match acc with Some m => Z.max x m | None => x end)) None l = Some m -> m <= b) as Hm.
  { induction Hall as [|x l Hx Hl IH]; [done|]. simpl. intros m [= <-]. case_match; [|done]. specialize (IH _ eq_refl). lia. }
  destruct (foldr _ None l) as [m|]; simpl; [by apply Hm|lia].
Qed.
Lemma row_of_le t s q P : progress_inv t s -> row_of t s q P -> 0 < q <= counter t s.
Proof. intros Hi (? & ? & ? & Hin & _). by apply (pi_rows _ _ Hi) in Hin as [? _]. Qed.

(** C28: the progress tables and the journal agree. After any writes of which none is an unsequenced
    checkpoint of the task (node ids as [NodeId] keeps them, progress events that are not node or terminal
    transitions), the snapshot of an existing task can be read, and its checkpoints, in order, and its nodes
    in progress are those of the fold of all the journal's rows, withheld ones included; and while no
    terminal is withheld, when readers of the journal see all rows, the snapshot is the fold of what they
    see: also the same status, result, error, terminal sequence and cut. *)
Theorem snapshot_is_fold ops t row :
  Forall (sequenced t) ops -> st_tasks (run empty_store ops) !! t = Some row ->
  exists tables cps starts,
    progress_snapshot t (run empty_store ops) = Ok tables /\
    fold_events ([], []) (snd <$> journal t (run empty_store ops)) = Ok (cps, starts) /\
    sn_checkpoints tables = cps /\ sn_starts tables ≡ₚ starts /\
    (st_pending (run empty_store ops) !! t = None ->
     exists inp fold, journal_fold_inputs t (run empty_store ops) = Ok inp /\ fold_journal_to_snapshot (fi_events inp) (fi_scalars inp) = Ok fold /\
       sn_scalars tables = sn_scalars fold /\ sn_checkpoints tables = sn_checkpoints fold /\ sn_starts tables ≡ₚ sn_starts fold).
Proof.
  intros Hops Hrow. destruct (run_folded t ops Hops) as (cs & ss & Hf). pose proof (reachable_inv t ops) as Hi.
  set (s := run empty_store ops) in *.
  destruct (read_checkpoints_ok _ _ _ _ Hf) as (l & Hl & Hlp). destruct (read_starts_ok _ _ _ _ Hf) as (l' & Hl' & Hlp').
  pose proof (sort_checkpoints l cs ltac:(apply Hf) Hlp) as Hsort.
  unfold progress_snapshot. rewrite Hrow. simpl. rewrite Hl, Hl'. simpl. eexists _, cs, ss. split; [reflexivity|]. cbn [sn_checkpoints sn_starts sn_scalars].
  split; [apply Hf|]. split; [done|]. split; [done|]. intros Hp. destruct (journal_fold_inputs t s) as [inp|] eqn:Hinp; [|unfold journal_fold_inputs in Hinp; by rewrite Hrow in Hinp].
  pose proof (fold_inputs_ok _ _ _ Hi Hinp) as [Hev _]. rewrite (filter_all (fun r => visible t s (fst r))) in Hev by (apply Forall_forall; intros r _; unfold visible; by rewrite Hp).
  unfold journal_fold_inputs in Hinp. rewrite Hrow in Hinp. simpl in Hinp. injection Hinp as <-. eexists _, _. split; [reflexivity|]. unfold fold_journal_to_snapshot. simpl in *.
  rewrite Hev, (fo_fold _ _ _ _ Hf). simpl. split_and!; [reflexivity| |done|done]. simpl. unfold scalars_of. rewrite Hp. simpl. rewrite Z.max_l; [done|]. apply max_included_le.
  - apply Hi.
  - intros [[[n o] k] q]. rewrite sort_by_elem, Hlp, (fo_cps _ _ _ _ Hf). intros (cp & Hc & _ & _ & ->).
    pose proof (pi_counter _ _ Hi). apply (pi_cps _ _ Hi) in Hc as [?|Hc%row_of_le]; [simpl; lia|simpl; lia|done].
  - intros [n q]. rewrite Hlp', (fo_starts _ _ _ _ Hf). intros (ts & Hs%(pi_starts _ _ Hi)%row_of_le); [simpl; lia|done].
  - intros q Hq%(pi_terminal _ _ Hi)%row_of_le; [lia|done].
Qed.
End Progress.

(** ** On concrete stores *)
Definition demo_task (id : string) : TaskRecord :=
  mkTask id "wf" TrWorking None None 1 1 None "" None 0 None None None None.
Definition demo_locator (task attempt : string) (ord : Z) (parent : option string) : TaskAttemptLocator :=
  mkLocator (mkAttemptIdentity task attempt ord parent) None.
Definition demo_ops : list (@Op unit unit string) :=
  [OpCreateLocated (demo_task "t") (demo_locator "t" "a1" 1 None); OpStarted 5 "t" "n1" "op" 5 None; OpStarted 6 "t" "n2" "op" 6 None;
   OpEvent 7 "t" "op" 7 (ProgressEvent tt); OpFinished 8 "t" "n1" "op" "out" true 8 None].
Definition demo_withheld : list (@Op unit unit string) :=
  demo_ops ++ [OpTerminalPending 9 "t" "op" TrCompleted (Some "done"%string) None 9 "a1" "completed"].
Definition demo_run (ops : list (@Op unit unit string)) : @Store unit unit string :=
  run_ops (fun _ _ => true) (fun _ => true) (fun t => t) empty_store ops.
Definition demo_inputs (ops : list (@Op unit unit string)) : @JournalFoldInputs unit unit :=
  match journal_fold_inputs "t" (demo_run ops) with Ok inp => inp | Err _ => mkInputs false (mkScalars TrWorking None None None 0) [] end.

Definition demo_continue (s : @Store unit unit string) (ops : list (@Op unit unit string)) : @Store unit unit string :=
  run_ops (fun _ _ => true) (fun _ => true) (fun t => t) s ops.
Lemma tail_continues_witness :
  js_cut_seq (fi_scalars (demo_inputs demo_withheld)) = 5 /\
  journal_from "t" 0 (demo_continue (demo_run demo_withheld) [OpReady "t" "a1"])
  = fi_events (demo_inputs demo_withheld)
    ++ journal_from "t" (js_cut_seq (fi_scalars (demo_inputs demo_withheld))) (demo_continue (demo_run demo_withheld) [OpReady "t" "a1"]).
Proof.
  split; [vm_compute; reflexivity|].
  exact (tail_continues (fun _ _ => true) (fun _ => true) (fun t : string => t) demo_withheld [OpReady "t" "a1"] "t"
    (demo_inputs demo_withheld) ltac:(vm_compute; reflexivity)).
Defined.

Definition demo_row : TaskRecord := match st_tasks (demo_run demo_ops) !! "t"%string with Some r => r | None => demo_task "t" end.
Lemma snapshot_is_fold_witness : exists inp tables fold,
  progress_snapshot "t" (demo_run demo_ops) = Ok tables /\ journal_fold_inputs "t" (demo_run demo_ops) = Ok inp /\
  fold_journal_to_snapshot (fi_events inp) (fi_scalars inp) = Ok fold /\
  sn_scalars tables = sn_scalars fold /\ sn_checkpoints tables = sn_checkpoints fold /\ sn_starts tables ≡ₚ sn_starts fold.
Proof.
  destruct (snapshot_is_fold (fun _ _ => true) (fun _ => true) (fun t : string => t) demo_ops "t" demo_row
    ltac:(repeat constructor) ltac:(vm_compute; reflexivity)) as (tables & cps & starts & H1 & _ & _ & _ & H).
  destruct (H ltac:(vm_compute; reflexivity)) as (inp & fold & H2 & H3 & H4 & H5 & H6). exact (ex_intro _ inp (ex_intro _ tables (ex_intro _ fold (conj H1 (conj H2 (conj H3 (conj H4 (conj H5 H6)))))))).
Defined.

(** While a terminal is withheld the task reads as working, but the two reads differ: the fold of the visible
    journal still shows node [n2] in progress, the tables have already dropped its start. *)
Lemma withheld_terminal_drops_starts :
  (js_status ∘ sn_scalars <$> match progress_snapshot "t" (demo_run demo_withheld) with Ok x => Some x | Err _ => None end) = Some TrWorking /\
  (sn_starts <$> match progress_snapshot "t" (demo_run demo_withheld) with Ok x => Some x | Err _ => None end) = Some [] /\
  (sn_starts <$> match fold_journal_to_snapshot (fi_events (demo_inputs demo_withheld)) (fi_scalars (demo_inputs demo_withheld)) with
                 | Ok x => Some x | Err _ => None end) = Some [("n2"%string, 2)].
Proof. vm_compute. split_and!; reflexivity. Qed.
