(* ===== verification/TaskRows.v ===== *)
(** * Task rows and attempt lineage

    What an operation of [TaskStore] may do to one task row and to one attempt
    locator ([exec_row], [exec_locator]), and what follows for every schedule:
    settled rows stay settled, resumes stay within their cap, a batch item has
    one child, and attempts form one line per task. *)
From S2P Require Import Prelude Domain FanOut TaskStore.
Open Scope Z_scope.
Open Scope bridge_scope.

Section Rows.
Context {Usage Payload Terminal : Type} (usage_eqb : Usage -> Usage -> bool)
  `{EqDecision Terminal} (terminal_valid : Terminal -> bool) (terminal_outcome : Terminal -> string).
Local Abbreviation Store := (@Store Usage Payload Terminal).
Local Abbreviation Op := (@Op Usage Payload Terminal).
Local Abbreviation exec := (exec usage_eqb terminal_valid terminal_outcome).
Local Abbreviation run := (@run_ops Usage Payload Terminal usage_eqb _ terminal_valid terminal_outcome).

(** The operations that may replace a settled row, and those that claim a resume. *)
Definition forces (t : string) (op : Op) : Prop :=
  match op with OpSetTerminal task _ _ _ _ | OpTerminal _ task _ _ _ _ _ => task = t | _ => False end.
Definition claims (t : string) (cap : Z) (op : Op) : Prop :=
  match op with OpClaimResume task c _ | OpClaimResumeLocated task c _ _ _ => task = t /\ c = cap | _ => False end.
Definition creates (s : Store) (rec : TaskRecord) (op : Op) : Prop :=
  match op with
  | OpCreate r | OpCreateLocated r _ => r = rec
  | OpClaimChild b i r | OpClaimChildLocated b i r _ => rec = set_batch b i r /\ find_child b i s = None
  | _ => False
  end.
Definition bumped (row row' : TaskRecord) : Prop := row' = row \/ exists now, row' = bump_last_artifact now row.

Inductive row_step (t : string) (s : Store) (op : Op) : option TaskRecord -> option TaskRecord -> Prop :=
| RSame o : row_step t s op o o
| RNew rec : creates s rec op -> tk_id rec = t -> row_step t s op None (Some rec)
| RBump row now : row_step t s op (Some row) (Some (bump_last_artifact now row))
| RStatus row row' status res err updated :
    (tk_status row = TrWorking \/ forces t op) -> bumped row row' ->
    row_step t s op (Some row) (Some (set_status status res err updated row'))
| RResume row cap updated :
    claims t cap op -> tk_resume_attempts row < cap ->
    row_step t s op (Some row) (Some (set_resume (tk_resume_attempts row + 1) updated row)).
#[local] Hint Constructors row_step : core.

Lemma row_insert t t' s op row x :
  st_tasks s !! t' = Some row -> (t = t' -> row_step t s op (Some row) (Some x)) ->
  row_step t s op (st_tasks s !! t) (<[t' := x]> (st_tasks s) !! t).
Proof.
  intros Hr Hx. destruct (decide (t = t')) as [->|]; [rewrite lookup_insert_eq, Hr; auto|rewrite lookup_insert_ne by done; auto].
Qed.
Lemma row_new t rec s op :
  contains_task (tk_id rec) s = false -> creates s rec op ->
  row_step t s op (st_tasks s !! t) (<[tk_id rec := rec]> (st_tasks s) !! t).
Proof.
  unfold contains_task. intros Hc%bool_decide_eq_false Hr. apply eq_None_not_Some in Hc.
  destruct (decide (t = tk_id rec)) as [->|]; [rewrite lookup_insert_eq, Hc; auto|rewrite lookup_insert_ne by done; auto].
Qed.
Lemma bump_row now task (s s' : Store) : bump now task s = Ok s' ->
  exists row, st_tasks s !! task = Some row /\ s' = set_tasks (<[task := bump_last_artifact (durable_retention_ms now) row]> (st_tasks s)) s.
Proof. unfold bump. case_match eqn:E; [|done]. intros [= <-]. eauto. Qed.

Lemma exec_row t s op : row_step t s op (st_tasks s !! t) (st_tasks (exec s op) !! t).
Proof.
  destruct op; cbn [TaskStore.exec].
  - unfold create. destruct (contains_task _ _) eqn:E; [auto|]. by apply (row_new t rec s).
  - unfold create_with_attempt_locator. destruct (negb _); [auto|]. destruct (contains_task _ _) eqn:E; [auto|].
    destruct (_ || _); [auto|]. by apply (row_new t rec s).
  - unfold put_attempt_locator. repeat case_match; simplify_eq; auto.
  - unfold mark_attempt_telemetry_unavailable. repeat case_match; simplify_eq; auto.
  - unfold set_terminal. case_bool_decide; [auto|]. destruct (st_tasks s !! task) as [row|] eqn:E; [|auto].
    eapply (row_insert _ _ s); [done|]. intros ->. apply RStatus; [by right|by left].
  - simpl. rewrite lookup_fmap. destruct (st_tasks s !! t) as [row|]; [|auto]. simpl. unfold sweep_row.
    case_bool_decide; [|auto]. apply RStatus; [by left|by left].
  - unfold cancel_if_working. destruct (st_tasks s !! task) as [row|] eqn:E; [|auto]. case_bool_decide; [|auto].
    eapply (row_insert _ _ s); [done|]. intros ->. apply RStatus; [by left|by left].
  - unfold claim_resume_attempt. destruct (st_tasks s !! task) as [row|] eqn:E; [|auto]. destruct (Z.leb_spec cap (tk_resume_attempts row)); [auto|].
    eapply (row_insert _ _ s); [done|]. intros ->. by eapply (RResume _ _ _ _ cap).
  - unfold claim_resume_attempt_with_locator. destruct (_ || _); [auto|]. destruct (st_tasks s !! task) as [row|] eqn:E; [|auto].
    destruct (_ || _); [auto|]. destruct (Z.leb_spec cap (tk_resume_attempts row)); [auto|].
    destruct (identity_taken _ _); [auto|]. destruct (_ <? _); [auto|].
    eapply (row_insert _ _ s); [done|]. intros ->. by eapply (RResume _ _ _ _ cap).
  - unfold create_batch. case_match; auto.
  - unfold settle_batch_if_status. repeat case_match; simplify_eq; auto.
  - unfold fail_batch_if_status. repeat case_match; simplify_eq; auto.
  - unfold claim_batch_child. destruct (find_child _ _ _) eqn:Ef; [auto|]. destruct (contains_task _ _) eqn:E; [auto|].
    by apply (row_new t (set_batch batch item rec) s).
  - unfold claim_batch_child_with_locator. destruct (negb _); [auto|]. destruct (find_child _ _ _) eqn:Ef; [auto|].
    destruct (contains_task _ _) eqn:E; [auto|]. destruct (_ || _); [auto|]. by apply (row_new t (set_batch batch item rec) s).
  - unfold put_node_checkpoint. case_match; [auto|]. destruct (bump _ _ _) eqn:E; [|auto].
    apply bump_row in E as (row & Hr & ->). by eapply (row_insert _ _ s).
  - unfold record_node_started_with_selection. destruct (bump _ _ _) eqn:E; [|auto].
    apply bump_row in E as (row & Hr & ->). by eapply (row_insert _ _ s).
  - unfold put_node_checkpoint_sequenced. case_match; [auto|]. destruct (bump _ _ _) eqn:E; [|auto].
    apply bump_row in E as (row & Hr & ->). by eapply (row_insert _ _ s).
  - unfold put_node_checkpoint_sequenced_v2. destruct (negb _); [auto|]. destruct (st_checkpoints _ !! _); [case_match; auto|].
    destruct (negb _); [auto|]. destruct (trigger_conflicts _ _ _); [auto|]. destruct (bump _ _ _) eqn:E; [|auto].
    apply bump_row in E as (row & Hr & ->). destruct trigger; by eapply (row_insert _ _ s).
  - unfold record_event_sequenced. destruct (bump _ _ _) eqn:E; [|auto]. apply bump_row in E as (row & Hr & ->). by eapply (row_insert _ _ s).
  - unfold set_terminal_sequenced. destruct (outcome_of_status _); [|auto]. case_bool_decide; [auto|].
    destruct (st_tasks s !! task) as [row|] eqn:E; [|auto]. destruct (_ && _); [auto|].
    eapply (row_insert _ _ s); [done|]. intros ->. apply RStatus; [by right|by right; eexists].
  - unfold set_terminal_sequenced_pending. destruct (_ || _); [auto|]. destruct (parse_closed _); [|auto]. destruct (negb _); [auto|].
    destruct (st_pending s !! task); [case_match; auto|]. destruct (negb _); [auto|].
    destruct (st_tasks s !! task) as [row|] eqn:E; [|auto]. destruct (negb _) eqn:Ew; [auto|].
    apply negb_false_iff, bool_decide_eq_true in Ew.
    eapply (row_insert _ _ s); [done|]. intros ->. apply RStatus; [by left|by right; eexists].
  - unfold mark_terminal_projection_ready. repeat case_match; simplify_eq; auto.
Qed.

(** ** Rows over a schedule *)
Definition outcome_of (row : TaskRecord) := (tk_status row, tk_result row, tk_error row).
Definition child_of (row : TaskRecord) := (tk_batch_id row, tk_item_id row).
Lemma bumped_fields row row' : bumped row row' ->
  outcome_of row' = outcome_of row /\ child_of row' = child_of row /\ tk_resume_attempts row' = tk_resume_attempts row.
Proof. unfold bump_last_artifact. intros [->|[now ->]]; unfold bump_last_artifact; [done|by case_match]. Qed.
Lemma bump_fields row now : let row' := bump_last_artifact now row in
  outcome_of row' = outcome_of row /\ child_of row' = child_of row /\ tk_resume_attempts row' = tk_resume_attempts row.
Proof. apply bumped_fields. right. eauto. Qed.

(** An operation on an existing row. *)
Lemma exec_existing t s op row : st_tasks s !! t = Some row -> exists row', st_tasks (exec s op) !! t = Some row' /\
  child_of row' = child_of row /\ (~ forces t op -> tk_status row <> TrWorking -> outcome_of row' = outcome_of row) /\
  (tk_resume_attempts row' = tk_resume_attempts row \/
   exists cap, claims t cap op /\ tk_resume_attempts row < cap /\ tk_resume_attempts row' = tk_resume_attempts row + 1).
Proof.
  intros Hr. pose proof (exec_row t s op) as Hs. rewrite Hr in Hs.
  inversion Hs as [| |? now|? row0 ? ? ? ? Hw Hb|? cap ? Hc Hlt]; subst; eexists; (split; [eauto|]).
  - eauto.
  - destruct (bump_fields row now) as (? & ? & ?). auto.
  - apply bumped_fields in Hb as (? & ? & ?). destruct Hw; split_and!; auto; done.
  - split_and!; eauto.
Qed.
Lemma run_existing t s ops row : st_tasks s !! t = Some row ->
  exists row', st_tasks (run s ops) !! t = Some row' /\ child_of row' = child_of row.
Proof.
  revert s row; induction ops as [|op ops IH]; intros s row Hr; [eauto|]. simpl.
  destruct (exec_existing t s op row Hr) as (row1 & H1 & Hc & _). destruct (IH _ _ H1) as (row' & ? & ?). exists row'. split; [done|congruence].
Qed.

Lemma run_settled t s ops row :
  st_tasks s !! t = Some row -> is_terminal (tk_status row) = true -> Forall (fun op => ~ forces t op) ops ->
  exists row', st_tasks (run s ops) !! t = Some row' /\ outcome_of row' = outcome_of row /\ child_of row' = child_of row.
Proof.
  intros Hr Ht%negb_true_iff%bool_decide_eq_false Hops. revert s row Hr Ht.
  induction Hops as [|op ops Hop Hops IH]; intros s row Hr Ht; [eauto|]. simpl.
  destruct (exec_existing t s op row Hr) as (row1 & H1 & Hc & Ho & _). specialize (Ho Hop Ht).
  destruct (IH _ _ H1) as (row' & ? & ? & ?); [unfold outcome_of in Ho; congruence|]. exists row'. split_and!; [done|congruence..].
Qed.
(** A write that sets no task back to working. *)
Definition settling (op : Op) : Prop := match op with OpSetTerminal _ status _ _ _ => is_terminal status = true | _ => True end.
Lemma exec_terminal t s op row : st_tasks s !! t = Some row -> is_terminal (tk_status row) = true -> settling op ->
  exists row', st_tasks (exec s op) !! t = Some row' /\ is_terminal (tk_status row') = true /\ child_of row' = child_of row.
Proof.
  intros Hr Ht Hop. destruct (exec_existing t s op row Hr) as (row1 & H1 & Hc & Ho & _). exists row1. split_and!; [done| |done].
  assert (~ forces t op -> is_terminal (tk_status row1) = true) as Hkeep.
  { intros Hf. specialize (Ho Hf ltac:(intros E; by rewrite E in Ht)). unfold outcome_of in Ho. injection Ho as E _ _. by rewrite E. }
  destruct op; try (apply Hkeep; exact (fun H => H)); (destruct (decide (task = t)) as [->|]; [|by apply Hkeep]); cbn [TaskStore.exec settling] in *.
  - revert H1. unfold set_terminal. case_bool_decide; simpl; [congruence|]. rewrite Hr. simpl. rewrite lookup_insert_eq. by intros [= <-].
  - revert H1. unfold set_terminal_sequenced. destruct (outcome_of_status status) as [o|] eqn:Eo; simpl; [|congruence]. case_bool_decide; simpl; [congruence|]. rewrite Hr.
    destruct (_ && _); simpl; [congruence|]. rewrite lookup_insert_eq. intros [= <-]. by destruct status.
Qed.
Lemma run_terminal t s ops row : st_tasks s !! t = Some row -> is_terminal (tk_status row) = true -> Forall settling ops ->
  exists row', st_tasks (run s ops) !! t = Some row' /\ is_terminal (tk_status row') = true /\ child_of row' = child_of row.
Proof.
  intros Hr Ht Hops. revert s row Hr Ht. induction Hops as [|op ops Hop Hops IH]; intros s row Hr Ht; [eauto|]. simpl.
  destruct (exec_terminal t s op row Hr Ht Hop) as (row1 & H1 & H2 & H3). destruct (IH _ _ H1 H2) as (row' & ? & ? & ?). exists row'. split_and!; [done..|congruence].
Qed.
(** A settled task stays settled. Once its status is terminal, no schedule of creates, claims, cancels,
    restart sweeps, checkpoints, events or withheld terminals changes its status, result or error; only the two
    explicit terminal writes for that task ([set_terminal], [set_terminal_sequenced]) can. *)
Theorem settled_row_kept t s ops row :
  st_tasks s !! t = Some row -> is_terminal (tk_status row) = true -> Forall (fun op => ~ forces t op) ops ->
  exists row', st_tasks (run s ops) !! t = Some row' /\ outcome_of row' = outcome_of row.
Proof. intros Hr Ht Hops. destruct (run_settled t s ops row Hr Ht Hops) as (row' & ? & ? & _). eauto. Qed.

(** Resumes stay within their cap. Whatever else happens to the store, the resume count of a task never
    falls, and claims made with caps of at most [cap] never take it past [cap]. *)
Theorem resumes_within_cap t s ops row cap :
  st_tasks s !! t = Some row -> tk_resume_attempts row <= cap -> Forall (fun op => forall c, claims t c op -> c <= cap) ops ->
  exists row', st_tasks (run s ops) !! t = Some row' /\ tk_resume_attempts row <= tk_resume_attempts row' <= cap.
Proof.
  intros Hr Hc Hops. revert s row Hr Hc. induction Hops as [|op ops Hop Hops IH]; intros s row Hr Hc; [eexists; split; [done|lia]|]. simpl.
  destruct (exec_existing t s op row Hr) as (row1 & H1 & _ & _ & Ha).
  assert (tk_resume_attempts row <= tk_resume_attempts row1 <= cap) as [? ?].
  { destruct Ha as [->|(c & Hcl & ? & ->)]; [lia|]. specialize (Hop _ Hcl). lia. }
  destruct (IH _ _ H1) as (row' & ? & ?); [done|]. exists row'. split; [done|lia].
Qed.

(** ** Batch children *)
Definition answer {A} (r : result (A * Store) BridgeError) : option A :=
  match r with Ok (a, _) => Some a | Err _ => None end.
(** What a claim of item [i] of batch [b] answers. *)
Definition claim_answer (b i : string) (op : Op) (s : Store) : option ChildClaim :=
  match op with
  | OpClaimChild b' i' rec => if String.eqb b' b && String.eqb i' i then answer (claim_batch_child b i rec s) else None
  | OpClaimChildLocated b' i' rec l =>
      if String.eqb b' b && String.eqb i' i then answer (claim_batch_child_with_locator b i rec l s) else None
  | _ => None
  end.
Definition has_child (b i : string) (s : Store) : Prop :=
  exists t row, st_tasks s !! t = Some row /\ child_of row = (Some b, Some i).

Lemma find_child_spec b i s : find_child b i s = None <-> ~ has_child b i s.
Proof.
  unfold find_child, has_child. destruct (List.find _ _) as [[t row]|] eqn:E; simpl.
  - apply List.find_some in E as [Hin Hc]. apply list_elem_of_In, elem_of_map_to_list in Hin.
    unfold is_child in Hc. rewrite andb_true_iff, !bool_decide_eq_true in Hc. simpl in Hc. split; [done|]. intros []. exists t, row.
    unfold child_of. by destruct Hc as [-> ->].
  - split; [|done]. intros _ (t & row & Hr & Hc). apply elem_of_map_to_list, list_elem_of_In in Hr.
    apply (List.find_none _ _ E) in Hr. unfold is_child, child_of in *. simpl in Hr. injection Hc as H1 H2.
    by rewrite H1, H2, !bool_decide_eq_true_2 in Hr.
Qed.
Lemma run_has_child b i s ops : has_child b i s -> has_child b i (run s ops).
Proof. intros (t & row & Hr & Hc). destruct (run_existing t s ops row Hr) as (row' & ? & ?). exists t, row'. split; [done|congruence]. Qed.
Lemma created_has_child b i op s : claim_answer b i op s = Some ChildCreated -> ~ has_child b i s /\ has_child b i (exec s op).
Proof.
  destruct op; try done; simpl; destruct (_ && _) eqn:E; try done; apply andb_true_iff in E as [->%String.eqb_eq ->%String.eqb_eq].
  - unfold claim_batch_child. destruct (find_child b i s) eqn:Ef; [unfold observed_claim; simpl; by case_match|].
    apply find_child_spec in Ef. destruct (contains_task _ _); [done|]. split; [done|].
    exists (tk_id rec), (set_batch b i rec). simpl. by rewrite lookup_insert_eq.
  - unfold claim_batch_child_with_locator. destruct (negb _); [done|].
    destruct (find_child b i s) eqn:Ef; [unfold observed_claim; simpl; by case_match|].
    apply find_child_spec in Ef. destruct (_ || _); [done|]. split; [done|].
    exists (tk_id rec), (set_batch b i rec). simpl. by rewrite lookup_insert_eq.
Qed.

(** A batch item gets one child. Once a claim of an item has answered that it created the child, no later
    claim of that item answers so again, whatever happened to the store in between and with or without an
    attempt locator: it observes the child, or is refused. *)
Theorem child_created_once b i s first between again :
  claim_answer b i first s = Some ChildCreated ->
  claim_answer b i again (run (exec s first) between) <> Some ChildCreated.
Proof.
  intros [_ Hc]%created_has_child [Hn _]%created_has_child. by apply Hn, run_has_child.
Qed.

(** ** Attempts *)
Inductive lineage_step (s s' : Store) : Prop :=
| LSame : st_identities s' = st_identities s -> st_locators s' = st_locators s -> lineage_step s s'
| LMark t l l' : st_locators s !! t = Some l -> lc_identity l' = lc_identity l ->
    st_identities s' = st_identities s -> st_locators s' = <[t := l']> (st_locators s) -> lineage_step s s'
| LAdmit t l : belongs_to l t = true -> identity_taken l s = false ->
    (st_locators s !! t = None \/ exists prior, st_locators s !! t = Some prior /\ is_direct_successor_of l prior = true) ->
    st_identities s' = <[attempt_id (lc_identity l) := (execution_id (lc_identity l), ordinal (lc_identity l), t)]> (st_identities s) ->
    st_locators s' = <[t := l]> (st_locators s) -> lineage_step s s'.

Lemma same_lineage s : lineage_step s s.
Proof. by apply LSame. Qed.
Ltac unlinked := repeat case_match; simplify_eq; by apply LSame.

Lemma create_lineage rec l s : lineage_step s (done_or_same s (create_with_attempt_locator rec l s)).
Proof.
  unfold create_with_attempt_locator. destruct (negb _) eqn:Hb; [apply same_lineage|]. apply negb_false_iff in Hb.
  destruct (_ || _) eqn:E; [apply same_lineage|]. rewrite !orb_false_iff, !bool_decide_eq_false in E. destruct E as [[_ El] Ei].
  apply (LAdmit _ _ (tk_id rec) l); [done..|left; by apply eq_None_not_Some|done|done].
Qed.
Lemma put_lineage task l s : lineage_step s (done_or_same s (put_attempt_locator task l s)).
Proof.
  unfold put_attempt_locator. destruct (negb (belongs_to _ _)) eqn:Hb; [apply same_lineage|]. apply negb_false_iff in Hb.
  destruct (negb _); [apply same_lineage|].
  destruct (_ || _) eqn:E; [apply same_lineage|]. rewrite !orb_false_iff, !bool_decide_eq_false in E. destruct E as [El Ei].
  apply (LAdmit _ _ task l); [done..|left; by apply eq_None_not_Some|done|done].
Qed.
Lemma successor_belongs task l prior :
  belongs_to prior task = true -> is_direct_successor_of l prior = true ->
  belongs_to l task = true /\ ordinal (lc_identity l) = ordinal (lc_identity prior) + 1 /\
  parent_attempt_id (lc_identity l) = Some (attempt_id (lc_identity prior)).
Proof.
  unfold belongs_to, is_direct_successor_of. rewrite !andb_true_iff, !bool_decide_eq_true, !String.eqb_eq.
  intros <- ((((_ & ->) & Ho) & ->) & _). split_and!; [done|by case_match; simplify_eq|done].
Qed.
Lemma resume_lineage task cap now expected next s :
  lineage_step s (done_or_same s (claim_resume_attempt_with_locator task cap now expected next s)).
Proof.
  unfold claim_resume_attempt_with_locator. destruct (_ || _) eqn:E; [apply same_lineage|].
  apply orb_false_iff in E as [Hb%negb_false_iff Hs%negb_false_iff]. destruct (st_tasks s !! task) as [row|]; [|apply same_lineage].
  destruct (_ || _) eqn:E; [apply same_lineage|]. apply orb_false_iff in E as [_ El%negb_false_iff%bool_decide_eq_true].
  destruct (_ <=? _); [apply same_lineage|]. destruct (identity_taken next s) eqn:Ei; [apply same_lineage|].
  destruct (_ <? _); [apply same_lineage|]. destruct (successor_belongs _ _ _ Hb Hs) as [Hn _].
  apply (LAdmit _ _ task next); [done..|right; eauto|done|done].
Qed.
Lemma child_lineage b i rec l s : lineage_step s (done_or_same s (claim_batch_child_with_locator b i rec l s)).
Proof.
  unfold claim_batch_child_with_locator. destruct (negb _) eqn:Hb; [apply same_lineage|]. apply negb_false_iff in Hb.
  destruct (find_child _ _ _); [apply same_lineage|].
  destruct (_ || _) eqn:E; [apply same_lineage|]. rewrite !orb_false_iff, !bool_decide_eq_false in E. destruct E as [[_ El] Ei].
  apply (LAdmit _ _ (tk_id rec) l); [done..|left; by apply eq_None_not_Some|done|done].
Qed.
Lemma exec_lineage s op : lineage_step s (exec s op).
Proof.
  destruct op; cbn [TaskStore.exec];
    [unfold create; unlinked|apply create_lineage|apply put_lineage| |unfold set_terminal; unlinked|apply LSame; done
    |unfold cancel_if_working; unlinked|unfold claim_resume_attempt; unlinked|apply resume_lineage|unfold create_batch; unlinked
    |unfold settle_batch_if_status; unlinked|unfold fail_batch_if_status; unlinked|unfold claim_batch_child; unlinked|apply child_lineage
    |unfold put_node_checkpoint, bump; unlinked|unfold record_node_started_with_selection, bump; unlinked
    |unfold put_node_checkpoint_sequenced, bump; unlinked
    |unfold put_node_checkpoint_sequenced_v2, bump, store_trigger; unlinked
    |unfold record_event_sequenced, bump; unlinked|unfold set_terminal_sequenced, next_seq; unlinked
    |unfold set_terminal_sequenced_pending, next_seq; unlinked|unfold mark_terminal_projection_ready; unlinked].
  unfold mark_attempt_telemetry_unavailable. destruct (st_locators s !! task) as [l|] eqn:E; [|apply same_lineage].
  destruct (negb _); [apply same_lineage|]. by apply (LMark _ _ task l (mkLocator (lc_identity l) (Some reason))).
Qed.

(** The attempts of a task: distinct ordinals without a gap, the newest of them current. *)
Record lineage_inv (s : Store) : Prop := {
  li_task : forall a e o t, st_identities s !! a = Some (e, o, t) -> e = t;
  li_ordinal : forall a a' e o t t', st_identities s !! a = Some (e, o, t) -> st_identities s !! a' = Some (e, o, t') -> a = a';
  li_current : forall t l, st_locators s !! t = Some l ->
    execution_id (lc_identity l) = t /\ st_identities s !! attempt_id (lc_identity l) = Some (t, ordinal (lc_identity l), t);
  li_newest : forall a o t, st_identities s !! a = Some (t, o, t) ->
    exists l, st_locators s !! t = Some l /\ o <= ordinal (lc_identity l) /\
      forall o', o <= o' <= ordinal (lc_identity l) -> exists a', st_identities s !! a' = Some (t, o', t) }.

Lemma fresh_identity l (s : Store) : identity_taken l s = false ->
  st_identities s !! attempt_id (lc_identity l) = None /\
  forall a o t, st_identities s !! a = Some (execution_id (lc_identity l), o, t) -> o <> ordinal (lc_identity l).
Proof.
  unfold identity_taken. intros [H1%bool_decide_eq_false H2]%orb_false_iff. apply eq_None_not_Some in H1. split; [done|].
  intros a o t Ha ->. apply elem_of_map_to_list, list_elem_of_In in Ha. apply not_true_iff_false in H2. apply H2, existsb_exists.
  eexists. split; [exact Ha|]. simpl. by rewrite String.eqb_refl, Z.eqb_refl.
Qed.

Lemma admit_lineage_inv s s' t l : lineage_inv s -> belongs_to l t = true -> identity_taken l s = false ->
  (st_locators s !! t = None \/ exists prior, st_locators s !! t = Some prior /\ is_direct_successor_of l prior = true) ->
  st_identities s' = <[attempt_id (lc_identity l) := (execution_id (lc_identity l), ordinal (lc_identity l), t)]> (st_identities s) ->
  st_locators s' = <[t := l]> (st_locators s) -> lineage_inv s'.
Proof.
  intros Hi Hb%String.eqb_eq [Hfresh Hord]%fresh_identity Hprior Hid Hloc. rewrite Hb in *.
  assert (forall a o t', st_identities s !! a = Some (t', o, t') -> st_identities s' !! a = Some (t', o, t')) as Hkeep.
  { intros a o t' Ha. rewrite Hid, lookup_insert_ne; congruence. }
  split.
  - intros a e o t' . rewrite Hid, lookup_insert_Some. intros [[_ [= <- <- <-]]|[_ Ha]]; [done|by eapply li_task].
  - intros a a' e o t1 t2. rewrite Hid, !lookup_insert_Some.
    intros [[<- [= <- <- <-]]|[_ Ha]] [[<- E]|[_ Ha']]; [done| | |by eapply (li_ordinal _ Hi)].
    + by apply Hord in Ha'.
    + injection E as <- <- <-. by apply Hord in Ha.
  - intros t' l'. rewrite Hloc, lookup_insert_Some. intros [[<- <-]|[Hne Hl]].
    + split; [done|]. by rewrite Hid, lookup_insert_eq.
    + apply (li_current _ Hi) in Hl as [? Hl]. split; [done|by apply Hkeep].
  - intros a o t' Ha. rewrite Hid in Ha. apply lookup_insert_Some in Ha as [[<- E]|[Hne Ha]].
    + injection E as Et Eo _. subst o t'. exists l. rewrite Hloc, lookup_insert_eq. split_and!; [done|lia|]. intros o' ?.
      assert (o' = ordinal (lc_identity l)) as -> by lia. exists (attempt_id (lc_identity l)). by rewrite Hid, lookup_insert_eq.
    + destruct (li_newest _ Hi _ _ _ Ha) as (l0 & Hl0 & Hle & Hgap). rewrite Hloc. destruct (decide (t = t')) as [<-|Ht].
      * destruct Hprior as [Hn|(prior & Hpr & Hs)]; [congruence|]. assert (prior = l0) as -> by congruence.
        destruct (successor_belongs t l l0) as (_ & Hso & _); [by apply String.eqb_eq, (li_current _ Hi)|done|].
        exists l. rewrite lookup_insert_eq. split_and!; [done|lia|]. intros o' ?.
        destruct (decide (o' = ordinal (lc_identity l))) as [->|].
        -- exists (attempt_id (lc_identity l)). by rewrite Hid, lookup_insert_eq.
        -- destruct (Hgap o') as [a' ?]; [lia|]. exists a'. by apply Hkeep.
      * exists l0. rewrite lookup_insert_ne by done. split_and!; [done..|]. intros o' Ho'. destruct (Hgap o' Ho') as [a' ?]. exists a'. by apply Hkeep.
Qed.
Lemma step_lineage_inv s s' : lineage_inv s -> lineage_step s s' -> lineage_inv s'.
Proof.
  intros Hi. destruct 1 as [Hid Hloc|t l l' Hl Hsame Hid Hloc|]; [| |by eapply admit_lineage_inv].
  - split; rewrite Hid, ?Hloc; apply Hi.
  - split; rewrite Hid, ?Hloc; [apply Hi..| |].
    + intros t' l0. rewrite lookup_insert_Some. intros [[<- <-]|[_ ?]]; [rewrite Hsame|]; by apply Hi.
    + intros a o t' Ha. destruct (li_newest _ Hi _ _ _ Ha) as (l0 & Hl0 & ?). destruct (decide (t = t')) as [<-|].
      * exists l'. rewrite lookup_insert_eq, Hsame. assert (l = l0) as -> by congruence. by split.
      * exists l0. by rewrite lookup_insert_ne.
Qed.
Lemma empty_lineage_inv : lineage_inv empty_store.
Proof. split; intros *; simpl; by rewrite lookup_empty. Qed.
Lemma run_lineage_inv s ops : lineage_inv s -> lineage_inv (run s ops).
Proof. revert s; induction ops as [|op ops IH]; intros s Hi; [done|]. simpl. eapply IH, step_lineage_inv, exec_lineage; done. Qed.

(** C30: attempts form one line per task. In every reachable store an admitted attempt belongs to the task it
    executes, no two attempts of a task share an ordinal, the task's current locator is admitted and is its
    newest attempt, and no ordinal between an admitted attempt and the current one is missing. *)
Theorem attempt_lineage ops : lineage_inv (run empty_store ops).
Proof. apply run_lineage_inv, empty_lineage_inv. Qed.

(** An attempt id is never rebound: once admitted with an execution, an ordinal and a task, it keeps them. *)
Theorem attempt_never_rebound s ops a e o t :
  st_identities s !! a = Some (e, o, t) -> st_identities (run s ops) !! a = Some (e, o, t).
Proof.
  revert s; induction ops as [|op ops IH]; intros s Ha; [done|]. simpl. apply IH.
  destruct (exec_lineage s op) as [->|? ? ? _ _ ->|t' l _ Hf _ -> _]; [done..|].
  apply fresh_identity in Hf as [Hf _]. rewrite lookup_insert_ne; congruence.
Qed.
End Rows.

(** ** On concrete stores *)
Definition row_task (id : string) (status : TaskRecordStatus) : TaskRecord :=
  mkTask id "wf" status None None 1 1 None "" None 0 None None None None.
Definition row_locator (attempt : string) (ord : Z) (parent : option string) : TaskAttemptLocator :=
  mkLocator (mkAttemptIdentity "t" attempt ord parent) None.
Definition row_run (s : @Store unit unit string) (ops : list (@Op unit unit string)) : @Store unit unit string :=
  run_ops (fun _ _ => true) (fun _ => true) (fun t => t) s ops.
Definition row_store : @Store unit unit string :=
  row_run empty_store [OpCreateLocated (row_task "t" TrWorking) (row_locator "a1" 1 None)].
Definition row_ops : list (@Op unit unit string) :=
  [OpClaimResumeLocated "t" 2 5 (row_locator "a1" 1 None) (row_locator "a2" 2 (Some "a1"%string)); OpClaimResume "t" 2 6; OpClaimResume "t" 2 7;
   OpCancel "t" 8].

Lemma settled_row_kept_witness : exists row',
  st_tasks (row_run (row_run row_store row_ops) [OpSweep 9; OpCancel "t" 10; OpClaimResume "t" 3 11]) !! "t"%string = Some row' /\
  outcome_of row' = (TrCanceled, None, None).
Proof.
  exact (settled_row_kept (fun _ _ => true) (fun _ => true) (fun t : string => t) "t" (row_run row_store row_ops)
    [OpSweep 9; OpCancel "t" 10; OpClaimResume "t" 3 11] _
    ltac:(vm_compute; reflexivity) ltac:(vm_compute; reflexivity) ltac:(repeat constructor; intros [])).
Defined.
Lemma resumes_within_cap_witness : exists row',
  st_tasks (row_run row_store row_ops) !! "t"%string = Some row' /\ 0 <= tk_resume_attempts row' <= 2.
Proof.
  refine (resumes_within_cap (fun _ _ => true) (fun _ => true) (fun t : string => t) "t" row_store row_ops
    (row_task "t" TrWorking) 2 ltac:(vm_compute; reflexivity) _ _).
  - vm_compute. discriminate.
  - unfold row_ops. rewrite !Forall_cons. split_and!; [intros c []; lia..|intros c []|constructor].
Defined.
Definition row_claim : @Op unit unit string := OpClaimChild "b" "i" (row_task "c1" TrWorking).
Lemma child_created_once_witness :
  claim_answer "b" "i" (OpClaimChild "b" "i" (row_task "c2" TrWorking))
    (row_run (exec (fun _ _ => true) (fun _ => true) (fun t : string => t) row_store row_claim) row_ops) <> Some ChildCreated.
Proof.
  exact (child_created_once (fun _ _ => true) (fun _ => true) (fun t : string => t) "b" "i" row_store row_claim row_ops _
    ltac:(vm_compute; reflexivity)).
Defined.
Lemma attempt_never_rebound_witness :
  st_identities (row_run row_store row_ops) !! "a1"%string = Some ("t"%string, 1, "t"%string).
Proof.
  exact (attempt_never_rebound (fun _ _ => true) (fun _ => true) (fun t : string => t) row_store row_ops "a1" "t" 1 "t"
    ltac:(vm_compute; reflexivity)).
Defined.
