(* ===== verification/Batch.v ===== *)
(** * Batches ([bridge-coordinator/src/batch.rs])

    The roll-up of a batch over its child rows, the settlement a status query
    performs, cancellation, and the queue counters behind the admission guards.
    A status query is several store calls; what other callers do between them is
    an argument, and its theorem says what they must not do. Admission itself
    (the driver that runs children) is not part of this model. *)
From S2P Require Import Prelude Domain FanOut TaskStore TaskRows.
Open Scope Z_scope.
Open Scope bridge_scope.

(** ** Summaries *)
Record BatchChildAttempt := mkChildAttempt {
  ca_item_id : string; ca_task_id : string; ca_status : TaskRecordStatus; ca_execution_id : string; ca_attempt_id : string;
  ca_attempt_ordinal : Z; ca_parent_attempt_id : option string; ca_telemetry_unavailable : option LedgerUnavailableReason }.
Record BatchSummary := mkSummary {
  bs_id : string; bs_workflow : string; bs_status : BatchStatus; bs_total : Z;
  bs_ok : Z; bs_failed : Z; bs_canceled : Z; bs_running : Z; bs_pending : Z;
  bs_children : list (string * string * TaskRecordStatus); bs_child_attempts : list BatchChildAttempt }.

(** The four counters and the child rows, one child at a time. *)
Record Buckets := mkBuckets { bk_ok : Z; bk_failed : Z; bk_canceled : Z; bk_running : Z; bk_kids : list (string * string * TaskRecordStatus) }.
Definition count_child (k : Buckets) (c : TaskRecord) : Buckets :=
  let kids := bk_kids k ++ [(default "" (tk_item_id c), tk_id c, tk_status c)] in
  match tk_status c with
  | TrCompleted => mkBuckets (bk_ok k + 1) (bk_failed k) (bk_canceled k) (bk_running k) kids
  | TrFailed | TrInterrupted => mkBuckets (bk_ok k) (bk_failed k + 1) (bk_canceled k) (bk_running k) kids
  | TrCanceled => mkBuckets (bk_ok k) (bk_failed k) (bk_canceled k + 1) (bk_running k) kids
  | TrWorking => mkBuckets (bk_ok k) (bk_failed k) (bk_canceled k) (bk_running k + 1) kids
  end.
Definition summarize_batch (rec : BatchRecord) (children : list TaskRecord) : BatchSummary :=
  let k := foldl count_child (mkBuckets 0 0 0 0 []) children in
  let pending := Z.max 0 (bt_total rec - Z.of_nat (length children) `mod` (u32_max + 1)) in
  mkSummary (bt_id rec) (bt_workflow rec) (bt_status rec) (bt_total rec) (bk_ok k) (bk_failed k) (bk_canceled k) (bk_running k)
    pending (bk_kids k) [].
Definition set_child_attempts (attempts : list BatchChildAttempt) (b : BatchSummary) : BatchSummary :=
  mkSummary (bs_id b) (bs_workflow b) (bs_status b) (bs_total b) (bs_ok b) (bs_failed b) (bs_canceled b) (bs_running b)
    (bs_pending b) (bs_children b) attempts.
Definition is_settleable (b : BatchSummary) : option BatchStatus :=
  match bs_status b with
  | BtWorking => if (bs_pending b =? 0) && (bs_running b =? 0) then Some BtCompleted else None
  | BtCanceling => if bs_running b =? 0 then Some BtCanceled else None
  | _ => None
  end.

Section Status.
Context {Usage Payload Terminal : Type} (usage_eqb : Usage -> Usage -> bool)
  `{EqDecision Terminal} (terminal_valid : Terminal -> bool) (terminal_outcome : Terminal -> string).
Local Abbreviation Store := (@Store Usage Payload Terminal).
Local Abbreviation Op := (@Op Usage Payload Terminal).
Local Abbreviation run := (@run_ops Usage Payload Terminal usage_eqb _ terminal_valid terminal_outcome).

(** The attempts of the children; [gaps] is what others do before each locator is read. *)
Fixpoint batch_child_attempts (gaps : list (list Op)) (children : list TaskRecord) (s : Store) : list BatchChildAttempt * Store :=
  match children with
  | [] => ([], s)
  | child :: children' =>
      let s := run s (default [] (head gaps)) in
      let (rest, s') := batch_child_attempts (tail gaps) children' s in
      match st_locators s !! tk_id child with
      | None => (rest, s')
      | Some l =>
          (mkChildAttempt (default "" (tk_item_id child)) (tk_id child) (tk_status child) (execution_id (lc_identity l))
             (attempt_id (lc_identity l)) (ordinal (lc_identity l)) (parent_attempt_id (lc_identity l)) (lc_telemetry_unavailable l) :: rest, s')
      end
  end.
Definition summarize_batch_with_attempts (gaps : list (list Op)) (rec : BatchRecord) (children : list TaskRecord) (s : Store)
    : BatchSummary * Store :=
  let (attempts, s) := batch_child_attempts gaps children s in (set_child_attempts attempts (summarize_batch rec children), s).

(** [batch_status]; [others] is what others do between its store calls. *)
Record Others := mkOthers { ot_before_children : list Op; ot_attempts : list (list Op); ot_before_settle : list Op;
  ot_before_reread : list Op; ot_attempts_again : list (list Op) }.
Definition batch_status (others : Others) (id : string) (now : Z) (s : Store) : result BatchSummary BridgeError * Store :=
  match st_batches s !! id with
  | None => (Err TaskNotFound, s)
  | Some rec =>
      let s := run s (ot_before_children others) in
      let kids := batch_children id s in
      let (summary, s) := summarize_batch_with_attempts (ot_attempts others) rec kids s in
      match is_settleable summary with
      | None => (Ok summary, s)
      | Some term =>
          let s := run s (ot_before_settle others) in
          let s := done_or_same s (settle_batch_if_status id (bt_status rec) term now s) in
          let s := run s (ot_before_reread others) in
          match st_batches s !! id with
          | None => (Err TaskNotFound, s)
          | Some rec =>
              let (summary, s) := summarize_batch_with_attempts (ot_attempts_again others) rec kids s in (Ok summary, s)
          end
      end
  end.

(** [cancel_batch]: the row first, then the token of a driver that is running; a token is [true] once cancelled. *)
Definition cancel_batch (id : string) (now : Z) (s : Store) (tokens : gmap string bool)
    : result bool BridgeError * Store * gmap string bool :=
  match cancel_batch_if_working id now s with
  | Err e => (Err e, s, tokens)
  | Ok (flipped, s) => (Ok flipped, s, match tokens !! id with Some _ => <[id := true]> tokens | None => tokens end)
  end.

(** ** The roll-up *)
Lemma count_children k children : let k' := foldl count_child k children in
  bk_ok k' + bk_failed k' + bk_canceled k' + bk_running k' =
    bk_ok k + bk_failed k + bk_canceled k + bk_running k + Z.of_nat (length children) /\
  bk_running k <= bk_running k' /\
  bk_kids k' = bk_kids k ++ ((fun c => (default "" (tk_item_id c), tk_id c, tk_status c)) <$> children) /\
  (bk_running k' = bk_running k <-> Forall (fun c => tk_status c <> TrWorking) children).
Proof.
  revert k; induction children as [|c children IH]; intros k; simpl.
  - rewrite app_nil_r. split_and!; [lia|lia|done|]. by split; [constructor|].
  - destruct (IH (count_child k c)) as (H1 & H2 & H3 & H4). rewrite H1, H3, Forall_cons, <- H4.
    unfold count_child in *. destruct (tk_status c) eqn:E; simpl in *; rewrite <- app_assoc; (split_and!; [lia|lia|done|]);
      (split; [intros Hk; first [lia|split; [done|lia]]|intros [? ?]; first [done|lia]]).
Qed.

(** The buckets account for every child, and pending for the rest. Completed, failed or interrupted, canceled
    and running children add up to the child rows; while there are fewer than 2{^32} of them the summary covers
    the plan, and exactly it when no item is unplanned; nothing runs exactly when no child row is working. *)
Theorem summary_accounts rec children :
  let b := summarize_batch rec children in
  bs_ok b + bs_failed b + bs_canceled b + bs_running b = Z.of_nat (length children) /\
  length (bs_children b) = length children /\
  (bs_running b = 0 <-> Forall (fun c => tk_status c <> TrWorking) children) /\
  (Z.of_nat (length children) <= bt_total rec <= u32_max ->
   bs_ok b + bs_failed b + bs_canceled b + bs_running b + bs_pending b = bt_total rec).
Proof.
  destruct (count_children (mkBuckets 0 0 0 0 []) children) as (H1 & H2 & H3 & H4). simpl in *. unfold summarize_batch. simpl.
  split_and!; [lia|by rewrite H3, length_fmap|done|]. intros ?. rewrite Z.mod_small by lia. lia.
Qed.

Lemma attempts_store gaps children s : exists ops, snd (batch_child_attempts gaps children s) = run s ops /\
  forall P : Op -> Prop, Forall (Forall P) gaps -> Forall P ops.
Proof.
  revert gaps s; induction children as [|c children IH]; intros gaps s; simpl; [exists []; by split|].
  destruct (IH (tail gaps) (run s (default [] (head gaps)))) as (ops & Hs & Hops).
  destruct (batch_child_attempts _ _ _) as [rest s'] eqn:E. simpl in Hs. subst s'.
  exists (default [] (head gaps) ++ ops). split.
  - unfold run_ops. rewrite foldl_app. by case_match.
  - intros P HP. apply Forall_app. destruct gaps as [|g gaps]; simpl in *; [by split; [|apply Hops]|].
    apply Forall_cons in HP as [? ?]. auto.
Qed.

(** ** Settlement *)
(** What others may do meanwhile: anything, settling a child by any terminal write included, but set a task
    back to working or complete this batch themselves. *)
Definition bystander (id : string) (op : Op) : Prop :=
  settling op /\ match op with OpSettleBatch b _ BtCompleted _ => b <> id | _ => True end.
Definition bystanders (id : string) (o : Others) : Prop :=
  Forall (bystander id) (ot_before_children o) /\ Forall (Forall (bystander id)) (ot_attempts o) /\ Forall (bystander id) (ot_before_settle o) /\
  Forall (bystander id) (ot_before_reread o) /\ Forall (Forall (bystander id)) (ot_attempts_again o).
Definition incomplete (id : string) (s : Store) : Prop :=
  exists row, st_batches s !! id = Some row /\ bt_status row <> BtCompleted.
(** [ts] are settled children of the batch. *)
Definition settled_children (id : string) (ts : list string) (s : Store) : Prop :=
  Forall (fun t => exists row, st_tasks s !! t = Some row /\ tk_batch_id row = Some id /\ is_terminal (tk_status row) = true) ts.

Lemma exec_batches (s : Store) op :
  match op with OpCreateBatch _ | OpSettleBatch _ _ _ _ | OpFailBatch _ _ _ _ => True
  | _ => st_batches (exec usage_eqb terminal_valid terminal_outcome s op) = st_batches s end.
Proof.
  destruct op; cbn [TaskStore.exec]; try done;
    unfold create, create_with_attempt_locator, put_attempt_locator, mark_attempt_telemetry_unavailable, set_terminal, cancel_if_working,
      claim_resume_attempt, claim_resume_attempt_with_locator, claim_batch_child, claim_batch_child_with_locator, put_node_checkpoint,
      record_node_started_with_selection, put_node_checkpoint_sequenced, put_node_checkpoint_sequenced_v2, record_event_sequenced,
      set_terminal_sequenced, set_terminal_sequenced_pending, mark_terminal_projection_ready, bump, next_seq, store_trigger;
    repeat case_match; simplify_eq; done.
Qed.
Lemma exec_incomplete id op s : bystander id op -> incomplete id s -> incomplete id (exec usage_eqb terminal_valid terminal_outcome s op).
Proof.
  intros [_ Hop] (row & Hr & Hs). unfold incomplete. pose proof (exec_batches s op) as Hb.
  destruct op; try (rewrite Hb; eauto); cbn [TaskStore.exec].
  - unfold create_batch. destruct (st_batches s !! bt_id rec) eqn:E; [eauto|]. simpl. exists row. rewrite lookup_insert_ne; [done|congruence].
  - unfold settle_batch_if_status. destruct (st_batches s !! batch) as [r|] eqn:E; [|eauto]. case_bool_decide; [|eauto]. simpl.
    destruct (decide (batch = id)) as [->|]; [|exists row; by rewrite lookup_insert_ne].
    eexists. rewrite lookup_insert_eq. split; [done|]. simpl. by destruct new.
  - unfold fail_batch_if_status. destruct (st_batches s !! batch) as [r|] eqn:E; [|eauto]. case_bool_decide; [|eauto]. simpl.
    destruct (decide (batch = id)) as [->|]; [|exists row; by rewrite lookup_insert_ne].
    eexists. rewrite lookup_insert_eq. by split.
Qed.
Lemma run_incomplete id ops s : Forall (bystander id) ops -> incomplete id s -> incomplete id (run s ops).
Proof.
  intros Hops. revert s. induction Hops as [|op ops Hop Hops IH]; intros s Hi; [done|]. simpl. apply IH. by apply exec_incomplete.
Qed.
Lemma run_settled_children id ts ops s : Forall (bystander id) ops -> settled_children id ts s -> settled_children id ts (run s ops).
Proof.
  intros Hops. unfold settled_children. rewrite !Forall_forall. intros Hts t Ht. destruct (Hts t Ht) as (row & Hr & Hb & Hs).
  destruct (run_terminal usage_eqb terminal_valid terminal_outcome t s ops row Hr Hs) as (row' & Hr' & Ho & Hc).
  { eapply Forall_impl; [exact Hops|]. by intros op [? _]. }
  exists row'. unfold child_of in *. split_and!; [done|congruence|done].
Qed.

Lemma filter_values {K A} (P : A -> Prop) `{forall x, Decision (P x)} (l : list (K * A)) :
  filter P l.*2 = (filter (fun kv => P (snd kv)) l).*2.
Proof. induction l as [|[k x] l IH]; [done|]. csimpl. rewrite !filter_cons. simpl. case_decide; csimpl; by rewrite IH. Qed.
Lemma nodup_keys_filter {K A} (P : K * A -> Prop) `{forall x, Decision (P x)} (l : list (K * A)) :
  NoDup l.*1 -> NoDup (filter P l).*1.
Proof.
  induction l as [|[k x] l IH]; [done|]. csimpl. rewrite NoDup_cons, filter_cons. intros [Hk Hn]. case_decide; [|auto].
  csimpl. apply NoDup_cons. split; [|auto]. intros (kv & -> & [_ Hin]%list_elem_of_filter)%list_elem_of_fmap.
  apply Hk, list_elem_of_fmap. eauto.
Qed.
Lemma drained_children id (s : Store) : Forall (fun c => tk_status c <> TrWorking) (batch_children id s) ->
  exists ts, NoDup ts /\ length ts = length (batch_children id s) /\ settled_children id ts s.
Proof.
  unfold batch_children. intros Hd. exists (fst <$> filter (fun kv => tk_batch_id (snd kv) = Some id) (map_to_list (st_tasks s))).
  rewrite filter_values in *. split_and!.
  - apply nodup_keys_filter, NoDup_fst_map_to_list.
  - by rewrite !length_fmap.
  - apply Forall_fmap, Forall_forall. intros [t row] Hin. rewrite !Forall_fmap, Forall_forall in Hd. specialize (Hd _ Hin).
    apply list_elem_of_filter in Hin as [Hb Hin%elem_of_map_to_list]. simpl in *. exists row. split_and!; [done..|].
    apply negb_true_iff, bool_decide_eq_false. unfold project_pending_as_working in Hd. by case_match.
Qed.

Lemma with_attempts gaps rec kids s : exists attempts ops,
  summarize_batch_with_attempts gaps rec kids s = (set_child_attempts attempts (summarize_batch rec kids), run s ops) /\
  forall P : Op -> Prop, Forall (Forall P) gaps -> Forall P ops.
Proof.
  destruct (attempts_store gaps kids s) as (ops & Hs & Hops). unfold summarize_batch_with_attempts.
  destruct (batch_child_attempts gaps kids s) as [attempts s']. simpl in Hs. subst s'. eauto.
Qed.
Lemma run_ops_app (s : Store) ops ops' : run s (ops ++ ops') = run (run s ops) ops'.
Proof. apply foldl_app. Qed.
Lemma settle_tasks id expect new now (s : Store) : st_tasks (done_or_same s (settle_batch_if_status id expect new now s)) = st_tasks s.
Proof. unfold settle_batch_if_status. by repeat case_match. Qed.
Lemma settleable_working rec kids : bt_status rec = BtWorking -> 0 <= bt_total rec <= u32_max ->
  match is_settleable (summarize_batch rec kids) with
  | None => True
  | Some term => term = BtCompleted /\ bt_total rec <= Z.of_nat (length kids) /\ Forall (fun c => tk_status c <> TrWorking) kids
  end.
Proof.
  intros Hw Ht. unfold is_settleable. simpl. rewrite Hw. destruct (_ && _) eqn:E; [|done].
  apply andb_true_iff in E as [Hp%Z.eqb_eq Hr%Z.eqb_eq]. destruct (count_children (mkBuckets 0 0 0 0 []) kids) as (_ & _ & _ & H4).
  simpl in H4. split_and!; [done| |by apply H4].
  pose proof (Z.mod_le (Z.of_nat (length kids)) (u32_max + 1)). unfold u32_max in *. lia.
Qed.

(** C31: a batch is completed only when it is drained. However others interleave with a status query of a working
    batch, children that settle by any terminal write included, as long as nobody sets a settled task back to
    working or completes the batch itself: if the batch is completed when the query returns, it has at least as
    many settled children as its plan has items. *)
Theorem batch_completes_drained others id now s rec :
  st_batches s !! id = Some rec -> bt_status rec = BtWorking -> 0 <= bt_total rec <= u32_max -> bystanders id others ->
  bt_status <$> st_batches (snd (batch_status others id now s)) !! id = Some BtCompleted ->
  exists ts, NoDup ts /\ bt_total rec <= Z.of_nat (length ts) /\ settled_children id ts (snd (batch_status others id now s)).
Proof.
  intros Hrec Hw Ht (Hb1 & Hb2 & Hb3 & Hb4 & Hb5). unfold batch_status. rewrite Hrec.
  set (s1 := run s (ot_before_children others)). set (kids := batch_children id s1).
  assert (incomplete id s1) as Hi1 by (apply run_incomplete; [done|exists rec; split; [done|congruence]]).
  destruct (with_attempts (ot_attempts others) rec kids s1) as (att & ops & -> & Hops). specialize (Hops _ Hb2).
  pose proof (settleable_working rec kids Hw Ht) as Hset.
  assert (is_settleable (set_child_attempts att (summarize_batch rec kids)) = is_settleable (summarize_batch rec kids)) as -> by done.
  destruct (is_settleable _) as [term|]; simpl.
  2: { intros Hc. apply (run_incomplete _ ops) in Hi1 as (row & Hr & Hs); [|done]. rewrite Hr in Hc. simpl in Hc. congruence. }
  destruct Hset as (-> & Hlen & Hdone). destruct (drained_children id s1 Hdone) as (ts & Hn & Hlt & Hts).
  intros _. exists ts. split_and!; [done|unfold kids in Hlen; lia|].
  apply (run_settled_children id ts (ops ++ ot_before_settle others)) in Hts; [|by apply Forall_app].
  rewrite run_ops_app in Hts. set (s2 := run (run s1 ops) (ot_before_settle others)) in *.
  set (s3 := done_or_same s2 _). assert (settled_children id ts s3) as Hts3 by (unfold settled_children, s3; by rewrite settle_tasks).
  apply (run_settled_children id ts (ot_before_reread others)) in Hts3; [|done].
  destruct (st_batches (run s3 (ot_before_reread others)) !! id) as [rec'|]; [|done].
  destruct (with_attempts (ot_attempts_again others) rec' kids (run s3 (ot_before_reread others))) as (att' & ops' & -> & Hops').
  simpl. apply run_settled_children; [by apply Hops'|done].
Qed.
End Status.

(** ** Queue counters *)
Inductive QueueState := QWaiting | QAdmitted | QReleased.
#[global] Instance queue_state_eq_dec : EqDecision QueueState.
Proof. solve_decision. Defined.
Record QueueCounts := mkCounts { qc_queued : Z; qc_in_flight : Z }.
(** The counters, the guards in creation order, and the (in flight, queued) pairs the observer saw. *)
Record Queue := mkQueue { qu_counts : QueueCounts; qu_guards : list QueueState; qu_seen : list (Z * Z) }.
Definition empty_queue : Queue := mkQueue (mkCounts 0 0) [] [].
Definition observe (c : QueueCounts) (seen : list (Z * Z)) : list (Z * Z) := seen ++ [(qc_in_flight c, qc_queued c)].

Definition waiting (q : Queue) : Queue :=
  let c := mkCounts (qc_queued (qu_counts q) + 1) (qc_in_flight (qu_counts q)) in
  mkQueue c (qu_guards q ++ [QWaiting]) (observe c (qu_seen q)).
Definition admitted (g : nat) (q : Queue) : Queue :=
  match qu_guards q !! g with
  | Some QWaiting =>
      let c := mkCounts (saturating_sub (qc_queued (qu_counts q)) 1) (saturating_add (qc_in_flight (qu_counts q)) 1) in
      mkQueue c (<[g := QAdmitted]> (qu_guards q)) (observe c (qu_seen q))
  | _ => q
  end.
Definition drop_guard (g : nat) (q : Queue) : Queue :=
  match qu_guards q !! g with
  | Some QWaiting =>
      let c := mkCounts (saturating_sub (qc_queued (qu_counts q)) 1) (qc_in_flight (qu_counts q)) in
      mkQueue c (<[g := QReleased]> (qu_guards q)) (observe c (qu_seen q))
  | Some QAdmitted =>
      let c := mkCounts (qc_queued (qu_counts q)) (saturating_sub (qc_in_flight (qu_counts q)) 1) in
      mkQueue c (<[g := QReleased]> (qu_guards q)) (observe c (qu_seen q))
  | _ => q
  end.
Inductive QueueOp := QoWaiting | QoAdmitted (g : nat) | QoDrop (g : nat).
Definition queue_step (q : Queue) (o : QueueOp) : Queue :=
  match o with QoWaiting => waiting q | QoAdmitted g => admitted g q | QoDrop g => drop_guard g q end.

Definition how_many (st : QueueState) (guards : list QueueState) : Z := Z.of_nat (length (filter (fun x => x = st) guards)).
Definition queue_inv (q : Queue) : Prop :=
  qu_counts q = mkCounts (how_many QWaiting (qu_guards q)) (how_many QAdmitted (qu_guards q)) /\
  (qu_guards q <> [] -> last (qu_seen q) = Some (qc_in_flight (qu_counts q), qc_queued (qu_counts q))).

Lemma how_many_app st l l' : how_many st (l ++ l') = how_many st l + how_many st l'.
Proof. unfold how_many. rewrite filter_app, length_app. lia. Qed.
Lemma how_many_cons st x l : how_many st (x :: l) = (if decide (x = st) then 1 else 0) + how_many st l.
Proof. unfold how_many. rewrite filter_cons. case_decide; simpl; lia. Qed.
Lemma how_many_insert st l g old new : l !! g = Some old ->
  how_many st (<[g := new]> l) = how_many st l - (if decide (old = st) then 1 else 0) + (if decide (new = st) then 1 else 0).
Proof.
  intros Hg. rewrite insert_take_drop by by eapply lookup_lt_Some. rewrite <- (take_drop_middle l g old Hg) at 3.
  rewrite !how_many_app, !how_many_cons. lia.
Qed.
Lemma how_many_nonneg st l : 0 <= how_many st l.
Proof. unfold how_many. lia. Qed.
Lemma how_many_in st l g : l !! g = Some st -> 1 <= how_many st l.
Proof.
  intros Hg. rewrite <- (take_drop_middle l g st Hg), how_many_app, how_many_cons, decide_True by done.
  pose proof (how_many_nonneg st (take g l)). pose proof (how_many_nonneg st (drop (S g) l)). lia.
Qed.
Lemma how_many_length st l : how_many st l <= Z.of_nat (length l).
Proof. unfold how_many. pose proof (length_filter (fun x => x = st) l). lia. Qed.
Lemma queue_step_inv q o : Z.of_nat (length (qu_guards q)) < u64_max -> queue_inv q -> queue_inv (queue_step q o).
Proof.
  intros Hlen [Hc Hs]. pose proof (how_many_length QAdmitted (qu_guards q)).
  destruct o as [|g|g]; simpl; unfold waiting, admitted, drop_guard; [|destruct (qu_guards q !! g) as [[]|] eqn:E; try by split..];
    (split; simpl; [|intros _; unfold observe; by rewrite last_snoc]); rewrite Hc; simpl; f_equal;
    rewrite ?how_many_app, ?how_many_cons, ?(how_many_insert _ _ _ _ _ E); try (apply how_many_in in E);
    repeat (case_decide; try done); try change (how_many _ []) with 0; machine; lia.
Qed.
Lemma queue_guards_grow q o : (length (qu_guards (queue_step q o)) <= length (qu_guards q) + 1)%nat.
Proof.
  destruct o; simpl; unfold waiting, admitted, drop_guard; repeat case_match; simpl; rewrite ?length_app, ?length_insert; simpl; lia.
Qed.
Lemma queue_run_inv ops q : Z.of_nat (length (qu_guards q) + length ops) <= u64_max -> queue_inv q -> queue_inv (foldl queue_step q ops).
Proof.
  revert q; induction ops as [|o ops IH]; intros q Hlen Hq; [done|]. simpl in *. apply IH.
  - pose proof (queue_guards_grow q o). lia.
  - apply queue_step_inv; [lia|done].
Qed.

(** The queue counters are exact. After any sequence of creating, admitting and dropping admission guards
    (repeated or out-of-order calls included), [queued] is the number of guards still waiting and [in_flight] the
    number admitted and not dropped; the observer's last event says so, and both are zero once every guard is gone. *)
Theorem queue_counts_exact ops :
  Z.of_nat (length ops) <= u64_max ->
  let q := foldl queue_step empty_queue ops in
  qc_queued (qu_counts q) = how_many QWaiting (qu_guards q) /\ qc_in_flight (qu_counts q) = how_many QAdmitted (qu_guards q) /\
  (qu_guards q <> [] -> last (qu_seen q) = Some (qc_in_flight (qu_counts q), qc_queued (qu_counts q))) /\
  (Forall (fun g => g = QReleased) (qu_guards q) -> qu_counts q = mkCounts 0 0).
Proof.
  intros Hlen q. destruct (queue_run_inv ops empty_queue Hlen) as [Hc Hs]; [by split|]. fold q in Hc, Hs.
  rewrite Hc. split_and!; [done..|by rewrite Hc in Hs|]. intros Hall.
  assert (forall st, st <> QReleased -> how_many st (qu_guards q) = 0) as Hz.
  { intros st Hst. clear -Hall Hst. induction Hall as [|g l -> Hl IH]; [done|]. rewrite how_many_cons, IH, decide_False by done. done. }
  by rewrite !Hz.
Qed.

(** ** On concrete batches *)
Definition queue_ops : list QueueOp := [QoWaiting; QoWaiting; QoAdmitted 0; QoAdmitted 0; QoDrop 1; QoDrop 0; QoDrop 0].
Lemma queue_counts_exact_witness :
  qu_counts (foldl queue_step empty_queue queue_ops) = mkCounts 0 0.
Proof.
  apply (queue_counts_exact queue_ops); [vm_compute; discriminate|]. vm_compute. repeat constructor.
Defined.

Definition batch_child_row (id item : string) (status : TaskRecordStatus) : TaskRecord :=
  mkTask id "wf" status None None 1 1 None "" None 0 None (Some "b"%string) (Some item) None.
Definition batch_store : @Store unit unit string :=
  row_run empty_store [OpCreateBatch (mkBatch "b" "wf" 1 1 BtWorking "" None 1 1); OpClaimChild "b" "i" (row_task "c" TrWorking)].
Definition batch_others : @Others unit unit string := mkOthers [OpTerminal 5 "c" "op" TrCompleted (Some "out"%string) None 5] [[OpSetTerminal "c" TrFailed None None 6]] [OpSweep 6] [OpCreate (row_task "x" TrWorking)] [].
Lemma batch_completes_drained_witness : exists ts, NoDup ts /\ 1 <= Z.of_nat (length ts) /\
  settled_children "b" ts (snd (batch_status (fun _ _ => true) (fun _ => true) (fun t : string => t) batch_others "b" 7 batch_store)).
Proof.
  refine (batch_completes_drained (fun _ _ => true) (fun _ => true) (fun t : string => t) batch_others "b" 7 batch_store
    (mkBatch "b" "wf" 1 1 BtWorking "" None 1 1) ltac:(vm_compute; reflexivity) eq_refl _ _ ltac:(vm_compute; reflexivity)).
  - simpl. unfold u32_max. lia.
  - split_and!; repeat constructor.
Defined.
