(* ===== verification/Lifecycles.v ===== *)
(** * Small lifecycles

    The task and session typestates ([bridge-core/src/task.rs],
    [bridge-core/src/session.rs]) with their phantom parameter as an index, the
    fixed-grace timer with its persisted form ([fixed_grace_timer.rs]), and the
    classifier of mechanical impossibility ([mechanical_impossibility.rs]). *)
From S2P Require Import Prelude Domain ExecutionPolicy FanOut FlightJournal.
Open Scope Z_scope.
Open Scope bridge_scope.

(** ** The task typestate *)
Module TaskTypestate.
Inductive TaskState := StSubmitted | StWorking | StInputRequired | StAuthRequired | StCompleted | StFailed | StCanceled.
#[global] Instance task_state_eq_dec : EqDecision TaskState.
Proof. solve_decision. Defined.
(** The phantom markers. *)
Inductive TaskMarker := Submitted | Working | InputRequired | AuthRequired | Terminal.
Record Task (S : TaskMarker) := mk { task_id : string; runtime_state : TaskState }.
Arguments mk {S}.
Arguments task_id {S}.
Arguments runtime_state {S}.

Definition submitted (id : string) : Task Submitted := mk id StSubmitted.
Definition start (t : Task Submitted) : Task Working := mk (task_id t) StWorking.
Definition suspend_input (t : Task Working) (request_id : string) : Task InputRequired := mk (task_id t) StInputRequired.
Definition suspend_auth (t : Task Working) (request_id : string) : Task AuthRequired := mk (task_id t) StAuthRequired.
Definition complete (t : Task Working) : Task Terminal := mk (task_id t) StCompleted.
Definition fail (t : Task Working) : Task Terminal := mk (task_id t) StFailed.
Definition cancel (t : Task Working) : Task Terminal := mk (task_id t) StCanceled.
Definition resume_input (t : Task InputRequired) : Task Working := mk (task_id t) StWorking.
Definition resume_auth (t : Task AuthRequired) : Task Working := mk (task_id t) StWorking.

(** A call on a task of any type: [None] does not compile. *)
Inductive Call := CStart | CSuspendInput (request_id : string) | CSuspendAuth (request_id : string) | CComplete | CFail | CCancel | CResume.
Definition some_task : Type := { m : TaskMarker & Task m }.
Definition call (c : Call) (x : some_task) : option some_task :=
  let 'existT m t := x in
  match c, m return Task m -> option some_task with
  | CStart, Submitted => fun t => Some (existT _ (start t) : some_task)
  | CSuspendInput r, Working => fun t => Some (existT _ (suspend_input t r) : some_task)
  | CSuspendAuth r, Working => fun t => Some (existT _ (suspend_auth t r) : some_task)
  | CComplete, Working => fun t => Some (existT _ (complete t) : some_task)
  | CFail, Working => fun t => Some (existT _ (fail t) : some_task)
  | CCancel, Working => fun t => Some (existT _ (cancel t) : some_task)
  | CResume, InputRequired => fun t => Some (existT _ (resume_input t) : some_task)
  | CResume, AuthRequired => fun t => Some (existT _ (resume_auth t) : some_task)
  | _, _ => fun _ => None
  end t.
Fixpoint calls (cs : list Call) (x : some_task) : option some_task :=
  match cs with [] => Some x | c :: cs => call c x ≫= calls cs end.

(** The lifecycle as a table of states. *)
Definition lifecycle_step (st : TaskState) (c : Call) : option TaskState :=
  match st, c with
  | StSubmitted, CStart => Some StWorking
  | StWorking, CSuspendInput _ => Some StInputRequired
  | StWorking, CSuspendAuth _ => Some StAuthRequired
  | StWorking, CComplete => Some StCompleted
  | StWorking, CFail => Some StFailed
  | StWorking, CCancel => Some StCanceled
  | StInputRequired, CResume | StAuthRequired, CResume => Some StWorking
  | _, _ => None
  end.
Fixpoint lifecycle (st : TaskState) (cs : list Call) : option TaskState :=
  match cs with [] => Some st | c :: cs => st' ← lifecycle_step st c; lifecycle st' cs end.
Definition marker_of (st : TaskState) : TaskMarker :=
  match st with StSubmitted => Submitted | StWorking => Working | StInputRequired => InputRequired | StAuthRequired => AuthRequired | _ => Terminal end.
Lemma call_transition c x : projT1 x = marker_of (runtime_state (projT2 x)) ->
  match call c x with
  | Some y => lifecycle_step (runtime_state (projT2 x)) c = Some (runtime_state (projT2 y)) /\ task_id (projT2 y) = task_id (projT2 x) /\ projT1 y = marker_of (runtime_state (projT2 y))
  | None => lifecycle_step (runtime_state (projT2 x)) c = None
  end.
Proof. destruct x as [m [i st]]. simpl. intros ->. by destruct st, c. Qed.
(** The types are the lifecycle: a sequence of calls on a new task compiles exactly when the table of states
    allows it, and then leads to the table's state, under the marker of that state and the submitted id. *)
Theorem typestate_sound id cs :
  (fun x => (projT1 x, task_id (projT2 x), runtime_state (projT2 x))) <$> calls cs (existT _ (submitted id)) =
  (fun st => (marker_of st, id, st)) <$> lifecycle StSubmitted cs.
Proof.
  change StSubmitted with (runtime_state (projT2 (existT Submitted (submitted id) : some_task))). assert (projT1 (existT Submitted (submitted id) : some_task) = marker_of (runtime_state (projT2 (existT Submitted (submitted id) : some_task)))) as Hm by done.
  change id with (task_id (projT2 (existT Submitted (submitted id) : some_task))) at 2. revert Hm. generalize (existT Submitted (submitted id) : some_task). induction cs as [|c cs IH]; intros x Hm; simpl; [by rewrite <- Hm|].
  pose proof (call_transition c x Hm) as Hc. destruct (call c x) as [y|]; [|by rewrite Hc]. destruct Hc as (-> & <- & Hy). by apply IH.
Qed.
End TaskTypestate.

(** ** The session typestate *)
Module SessionTypestate.
Inductive SessionMarker := Spawned | Initialized | Ready.
Record Session (S : SessionMarker) := mk { session_id : string }.
Arguments mk {S}.
Arguments session_id {S}.
Inductive PromptOutcome := mkPromptOutcome.
Definition spawned (id : string) : Session Spawned := mk id.
Definition initialize (s : Session Spawned) : Session Initialized := mk (session_id s).
Definition ready (s : Session Initialized) : Session Ready := mk (session_id s).
Definition send_prompt {Part : Type} (s : Session Ready) (parts : list Part) : PromptOutcome * Session Ready :=
  (mkPromptOutcome, mk (session_id s)).
End SessionTypestate.

(** ** The fixed-grace timer

    [encodes] says whether the canonical JSON of a valid trigger is within its size bound. *)
Section GraceTimer.
Context (encodes : PolicyTrigger -> bool).

Inductive FixedGraceTimer :=
| Unarmed
| Armed (schema_version : Z) (trigger_id : string) (node : PolicyNodeRef) (grace_ms armed_at_elapsed_ms recorded_node_deadline_elapsed_ms : Z)
| Fired (schema_version : Z) (trigger : PolicyTrigger) (armed_at_elapsed_ms fired_at_elapsed_ms recorded_node_deadline_elapsed_ms : Z).
Inductive FixedGraceTimerError := AlreadyArmedOrFired | NotArmed | AlreadyFired | InvalidGrace | ArithmeticOverflow | ElapsedBeforeArm.

(** The check of [deserialize]. *)
Definition timer_valid (s : FixedGraceTimer) : bool :=
  match s with
  | Unarmed => true
  | Armed schema _ _ grace armed_at _ =>
      (schema =? EXECUTION_POLICY_SCHEMA_V1) && (0 <? grace) && bool_decide (is_Some (checked_add armed_at grace))
  | Fired schema trigger armed_at fired_at _ =>
      (schema =? EXECUTION_POLICY_SCHEMA_V1)
      && (match policy_trigger_validate trigger with Ok _ => encodes trigger | Err _ => false end)
      && (match tg_grace_ms trigger with Some grace => (armed_at <=? fired_at) && (grace <=? fired_at - armed_at) | None => false end)
  end.
Definition timer_new : FixedGraceTimer := Unarmed.
Definition arm (node : PolicyNodeRef) (trigger_id : string) (grace_ms armed_at deadline : Z) (s : FixedGraceTimer)
    : result unit FixedGraceTimerError * FixedGraceTimer :=
  match s with
  | Unarmed =>
      if grace_ms =? 0 then (Err InvalidGrace, s)
      else match checked_add armed_at grace_ms with
      | None => (Err ArithmeticOverflow, s)
      | Some _ => (Ok tt, Armed EXECUTION_POLICY_SCHEMA_V1 trigger_id node grace_ms armed_at deadline)
      end
  | _ => (Err AlreadyArmedOrFired, s)
  end.
Definition observe_elapsed (elapsed : Z) (s : FixedGraceTimer) : result (option PolicyTrigger) FixedGraceTimerError * FixedGraceTimer :=
  match s with
  | Unarmed => (Err NotArmed, s)
  | Fired _ _ _ _ _ => (Err AlreadyFired, s)
  | Armed _ trigger_id node grace armed_at deadline =>
      if elapsed <? armed_at then (Err ElapsedBeforeArm, s)
      else if elapsed - armed_at <? grace then (Ok None, s)
      else
        let trigger := mkTrigger EXECUTION_POLICY_SCHEMA_V1 trigger_id node NmFixedGrace (Some grace) in
        (Ok (Some trigger), Fired EXECUTION_POLICY_SCHEMA_V1 trigger armed_at elapsed deadline)
  end.
Definition recorded_node_deadline (s : FixedGraceTimer) : option Z :=
  match s with Unarmed => None | Armed _ _ _ _ _ d | Fired _ _ _ _ d => Some d end.

(** The answers to a sequence of observations, and the state after it. *)
Fixpoint observe_all (es : list Z) (s : FixedGraceTimer) : list (result (option PolicyTrigger) FixedGraceTimerError) * FixedGraceTimer :=
  match es with
  | [] => ([], s)
  | e :: es' => let (r, s) := observe_elapsed e s in let (rs, s) := observe_all es' s in (r :: rs, s)
  end.
Definition quiet_answer (r : result (option PolicyTrigger) FixedGraceTimerError) : Prop := r = Ok None \/ r = Err ElapsedBeforeArm.

Lemma observe_fired es v tr a f d : observe_all es (Fired v tr a f d) = ((fun _ => Err AlreadyFired) <$> es, Fired v tr a f d).
Proof. induction es as [|e es IH]; [done|]. simpl. by rewrite IH. Qed.
Lemma observe_quiet es v id node g a d : Forall (fun e => e < a + g) es ->
  exists rs, observe_all es (Armed v id node g a d) = (rs, Armed v id node g a d) /\ Forall quiet_answer rs.
Proof.
  induction 1 as [|e es He Hes (rs & Hrs & Hq)]; [by exists []|]. simpl.
  destruct (Z.ltb_spec e a); [|destruct (Z.ltb_spec (e - a) g); [|lia]]; rewrite Hrs; eexists; (split; [done|]); constructor; auto;
    [by right|by left].
Qed.
Lemma observe_app es es' s : observe_all (es ++ es') s =
  let (rs, s) := observe_all es s in let (rs', s) := observe_all es' s in (rs ++ rs', s).
Proof.
  revert s; induction es as [|e es IH]; intros s; simpl; [by destruct (observe_all es' s)|].
  destruct (observe_elapsed e s) as [r s1]. rewrite IH. destruct (observe_all es s1) as [rs s2]. by destruct (observe_all es' s2).
Qed.
Lemma observe_length es s : length (fst (observe_all es s)) = length es.
Proof.
  revert s; induction es as [|e es IH]; intros s; [done|]. simpl. destruct (observe_elapsed e s) as [r s1]. specialize (IH s1).
  destruct (observe_all es s1). simpl in *. by rewrite IH.
Qed.
Lemma first_due (b : Z) es : Forall (fun e => e < b) es \/ exists pre e post, es = pre ++ e :: post /\ Forall (fun e => e < b) pre /\ b <= e.
Proof.
  induction es as [|e es [IH|(pre & e' & post & -> & Hp & He)]]; [by left| |].
  - destruct (decide (e < b)); [left; by constructor|]. right. exists [], e, es. split_and!; [done..|lia].
  - destruct (decide (e < b)); right; [exists (e :: pre), e', post; split_and!; [done|by constructor|done]|].
    exists [], e, (pre ++ e' :: post). split_and!; [done..|lia].
Qed.

(** An armed grace timer fires once, not early and not late. Once [arm] has accepted a grace, however its clock
    is observed: as long as no observation reaches arming time plus grace every answer is quiet and the timer stays
    armed; the first that reaches it answers with the trigger (fixed-grace policy, this node, this grace), and every
    later one that it has fired. The recorded node deadline never moves, and the timer can be persisted and read
    back at any point. *)
Theorem grace_fires_once node id grace armed_at deadline es s :
  0 <= grace -> arm node id grace armed_at deadline timer_new = (Ok tt, s) ->
  let trigger := mkTrigger EXECUTION_POLICY_SCHEMA_V1 id node NmFixedGrace (Some grace) in
  encodes trigger = true ->
  timer_valid s = true /\ timer_valid (snd (observe_all es s)) = true /\ recorded_node_deadline (snd (observe_all es s)) = Some deadline /\
  ((Forall (fun e => e < armed_at + grace) es /\ Forall quiet_answer (fst (observe_all es s)) /\ snd (observe_all es s) = s) \/
   exists pre e post quiet, es = pre ++ e :: post /\ Forall (fun e => e < armed_at + grace) pre /\ armed_at + grace <= e /\
     Forall quiet_answer quiet /\ length quiet = length pre /\
     fst (observe_all es s) = quiet ++ Ok (Some trigger) :: ((fun _ => Err AlreadyFired) <$> post)).
Proof.
  unfold arm, timer_new. destruct (Z.eqb_spec grace 0); [done|]. destruct (checked_add armed_at grace) eqn:Ec; [|done].
  intros Hg Hs He. injection Hs as <-. set (trigger := mkTrigger _ _ _ _ _) in *.
  assert (timer_valid (Armed EXECUTION_POLICY_SCHEMA_V1 id node grace armed_at deadline) = true) as Hv.
  { simpl. rewrite Ec. by destruct (Z.ltb_spec 0 grace); [|lia]. }
  split; [done|]. destruct (first_due (armed_at + grace) es) as [Hall|(pre & e & post & -> & Hpre & Hdue)].
  - destruct (observe_quiet es EXECUTION_POLICY_SCHEMA_V1 id node grace armed_at deadline Hall) as (rs & -> & Hq). simpl. eauto 10.
  - destruct (observe_quiet pre EXECUTION_POLICY_SCHEMA_V1 id node grace armed_at deadline Hpre) as (rs & Hrs & Hq).
    assert (length rs = length pre) as Hlen.
    { pose proof (f_equal (fun x => length (fst x)) Hrs) as Hl. simpl in Hl. rewrite <- Hl. apply observe_length. }
    rewrite observe_app, Hrs. simpl. destruct (Z.ltb_spec e armed_at); [lia|]. destruct (Z.ltb_spec (e - armed_at) grace); [lia|].
    fold trigger. rewrite observe_fired. cbn [fst snd recorded_node_deadline timer_valid]. split_and!; [|done|].
    + unfold policy_trigger_validate. simpl. destruct (Z.ltb_spec 0 grace); [|lia]. simpl. fold trigger. rewrite He. simpl.
      apply andb_true_iff. rewrite !Z.leb_le. lia.
    + right. exists pre, e, post, rs. split_and!; done.
Qed.
End GraceTimer.

Definition demo_timer_node : PolicyNodeRef := mkNodeRef 0 "aa".
Lemma grace_fires_once_witness :
  fst (observe_all [90; 120; 150; 160] (Armed EXECUTION_POLICY_SCHEMA_V1 "c" demo_timer_node 50 100 900))
    = [Err ElapsedBeforeArm; Ok None; Ok (Some (mkTrigger EXECUTION_POLICY_SCHEMA_V1 "c" demo_timer_node NmFixedGrace (Some 50))); Err AlreadyFired] /\
  recorded_node_deadline (snd (observe_all [90; 120; 150; 160] (Armed EXECUTION_POLICY_SCHEMA_V1 "c" demo_timer_node 50 100 900))) = Some 900.
Proof.
  split; [vm_compute; reflexivity|].
  refine (proj1 (proj2 (proj2 (grace_fires_once (fun _ => true) demo_timer_node "c" 50 100 900 [90; 120; 150; 160] _ _ eq_refl eq_refl)))).
  vm_compute. discriminate.
Defined.

(** ** Mechanical impossibility *)
Module Impossibility.
Inductive MechanicalImpossibilityKind := RetainedChildExited | NamedContainerGenerationAbsent | AllProducerAndFinalRoutesClosed.
Inductive ProducerResultObservation := PendingSoleProducer | PendingMultipleProducers | TerminalResultObserved | ProducerUnknown.
Inductive ContainerSpawnSettlement := SpawnSettled | SpawnPending | SpawnUnknown.
Inductive RouteState := RouteOpen | IrreversiblyClosed | RouteUnknown.
#[global] Instance route_state_eq_dec : EqDecision RouteState.
Proof. solve_decision. Defined.
Inductive TerminalResultObservation := ResultAbsent | ResultPresent | ResultUnknown.
#[global] Instance terminal_result_observation_eq_dec : EqDecision TerminalResultObservation.
Proof. solve_decision. Defined.
Record ProcessSignalObservation := mkSignal {
  sg_pid : Z; sg_expected_start_time_ticks : Z; sg_signal : Z; sg_return_code : Z; sg_errno : option Z }.
Record ContainerRemovalObservation := mkRemoval {
  rm_immutable_container_id : string; rm_noncanonical_labels : list (string * string); rm_removed : bool; rm_failure_code : option string }.
Record ProducerFinalRouteObservation := mkRoutes {
  rt_producer_routes : list RouteState; rt_final_routes : list RouteState; rt_terminal_result : TerminalResultObservation }.
Inductive MechanicalImpossibilityObservation :=
| RetainedChild (identity : ResourceIdentity) (signal : ProcessSignalObservation) (producer_result : ProducerResultObservation)
| NamedContainerGeneration (identity : ResourceIdentity) (removal : ContainerRemovalObservation) (spawn_settlement : ContainerSpawnSettlement)
| ProducerAndFinalRoutes (routes : ProducerFinalRouteObservation)
| UnknownChildState | NoOutput | ElapsedSilence | FileMtime | ProcessAge | ProviderSlowness.

Definition ESRCH : Z := 3.
Definition retained_child_exit_is_unambiguous (identity : ResourceIdentity) (signal : ProcessSignalObservation) : bool :=
  match identity with
  | AcpProcess _ _ pid _ start =>
      negb (pid =? 0) && (pid =? ps_pid start) && (sg_pid signal =? pid)
      && (sg_expected_start_time_ticks signal =? ps_start_time_ticks start)
      && (sg_signal signal =? 0) && (sg_return_code signal =? -1) && bool_decide (sg_errno signal = Some ESRCH)
  | _ => false
  end.
Definition container_absence_is_unambiguous (identity : ResourceIdentity) (removal : ContainerRemovalObservation) : bool :=
  match identity with
  | ManagedContainer generation runtime container_id _ =>
      negb (String.eqb generation "") && negb (String.eqb runtime "") && negb (String.eqb container_id "")
      && String.eqb (rm_immutable_container_id removal) container_id
      && bool_decide (rm_noncanonical_labels removal = []) && rm_removed removal
      && negb (bool_decide (is_Some (rm_failure_code removal)))
  | _ => false
  end.
Definition all_routes_are_irreversibly_closed (r : ProducerFinalRouteObservation) : bool :=
  negb (bool_decide (rt_producer_routes r = [])) && negb (bool_decide (rt_final_routes r = []))
  && forallb (fun route => bool_decide (route = IrreversiblyClosed)) (rt_producer_routes r ++ rt_final_routes r)
  && bool_decide (rt_terminal_result r = ResultAbsent).
Definition prove_mechanical_impossibility (o : MechanicalImpossibilityObservation) : option MechanicalImpossibilityKind :=
  match o with
  | RetainedChild identity signal PendingSoleProducer =>
      if retained_child_exit_is_unambiguous identity signal then Some RetainedChildExited else None
  | NamedContainerGeneration identity removal SpawnSettled =>
      if container_absence_is_unambiguous identity removal then Some NamedContainerGenerationAbsent else None
  | ProducerAndFinalRoutes routes =>
      if all_routes_are_irreversibly_closed routes then Some AllProducerAndFinalRoutesClosed else None
  | _ => None
  end.

(** A signal probe speaks for one process: the same observation never proves the exit of two processes that differ
    in pid or start time, so a recycled pid cannot inherit the proof. *)
Lemma exit_proof_is_for_one_process g n pid pg start g' n' pid' pg' start' signal :
  prove_mechanical_impossibility (RetainedChild (AcpProcess g n pid pg start) signal PendingSoleProducer) = Some RetainedChildExited ->
  prove_mechanical_impossibility (RetainedChild (AcpProcess g' n' pid' pg' start') signal PendingSoleProducer) = Some RetainedChildExited ->
  pid = pid' /\ ps_start_time_ticks start = ps_start_time_ticks start'.
Proof.
  simpl. destruct (_ && _) eqn:E1; [|done]. destruct (_ && _) eqn:E2 at 1; [|done]. intros _ _.
  rewrite !andb_true_iff, !Z.eqb_eq in E1, E2. lia.
Qed.
(** One route that is not closed for good refutes the proof. *)
Lemma open_route_refutes r route :
  route ∈ rt_producer_routes r ++ rt_final_routes r -> route <> IrreversiblyClosed ->
  prove_mechanical_impossibility (ProducerAndFinalRoutes r) = None.
Proof.
  intros Hin Hr. simpl. destruct (all_routes_are_irreversibly_closed r) eqn:E; [|done].
  unfold all_routes_are_irreversibly_closed in E. rewrite !andb_true_iff, forallb_forall in E. destruct E as [[_ E] _].
  apply list_elem_of_In, E, bool_decide_eq_true in Hin. done.
Qed.
End Impossibility.
