(* ===== verification/FramePath.v ===== *)
(** * Paths of a coverage frame and their canonical order

    The first half of [bridge-core/src/custody_frame.rs]: frame paths, the
    component-wise order, and the order check both sides of the codec share. The
    check keeps one path and a stack of prefix lengths; the theorem here is that
    it decides the declarative order (strictly increasing, every parent an
    earlier directory). *)
From Stdlib Require Import Strings.Byte.
From S2P Require Import Prelude Domain Framing.
Open Scope nat_scope.
Open Scope bridge_scope.

(** ** Refusals *)
Inductive ComponentFault := CfEmpty | CfDot | CfDotDot | CfNul | CfSlash | CfTooLong.
Inductive LengthMismatch := LmShort | LmLong.
Inductive IoKind := IoInterrupted | IoInvalidData | IoWriteZero | IoOther.
Inductive FrameError :=
| FeIo (kind : IoKind) | FeBadMagic | FeUnsupportedVersion | FeUnknownClass | FeObjectDatabaseNotFramed | FeClassMismatch
| FeGenerationMismatch | FeInvalidGeneration | FeUnknownTag | FeTruncated | FeTrailingBytes | FeInvalidComponent (kind : ComponentFault)
| FePathTooLong | FeOutOfOrder | FeMissingParent | FeUnsupportedMode | FeInvalidSymlinkTarget | FeContentLengthMismatch (kind : LengthMismatch)
| FeContentDigestMismatch | FeCountMismatch | FeTotalMismatch | FeFrameDigestMismatch | FeEntryLimit | FeByteBudget | FePoisoned.

(** ** Paths *)
Definition SEPARATOR : byte := x2f.
Definition MAX_PATH_BYTES : nat := 4096.
Definition MAX_COMPONENT_BYTES : nat := 255.

(** [slice::split] at the separator. *)
Fixpoint split_path (p : bytes) : list bytes :=
  match p with
  | [] => [[]]
  | b :: p' =>
      if Byte.eqb b SEPARATOR then [] :: split_path p'
      else match split_path p' with [] => [[b]] | c :: cs => (b :: c) :: cs end
  end.
Definition path_length_admitted (n : nat) : bool := n <=? MAX_PATH_BYTES.
Definition validate_component (c : bytes) : result unit FrameError :=
  if bool_decide (c = []) then Err (FeInvalidComponent CfEmpty)
  else if MAX_COMPONENT_BYTES <? length c then Err (FeInvalidComponent CfTooLong)
  else if bool_decide (c = [x2e]) then Err (FeInvalidComponent CfDot)
  else if bool_decide (c = [x2e; x2e]) then Err (FeInvalidComponent CfDotDot)
  else if existsb (Byte.eqb x00) c then Err (FeInvalidComponent CfNul)
  else if existsb (Byte.eqb SEPARATOR) c then Err (FeInvalidComponent CfSlash)
  else Ok tt.
Fixpoint validate_components (cs : list bytes) : result unit FrameError :=
  match cs with [] => Ok tt | c :: cs' => let? _ := validate_component c in validate_components cs' end.
(** [CustodyFramePathV1::from_bytes]; a path is its bytes. *)
Definition path_from_bytes (p : bytes) : result bytes FrameError :=
  if negb (path_length_admitted (length p)) then Err FePathTooLong
  else let? _ := validate_components (split_path p) in Ok p.
(** [CustodyFramePathV1::from_components]. *)
Fixpoint components_join (acc : bytes) (cs : list bytes) : result bytes FrameError :=
  match cs with
  | [] => if bool_decide (acc = []) then Err (FeInvalidComponent CfEmpty) else Ok acc
  | c :: cs' =>
      let? _ := validate_component c in
      let separator := if bool_decide (acc = []) then 0 else 1 in
      if negb (path_length_admitted (length acc + separator + length c)) then Err FePathTooLong
      else components_join ((if separator =? 1 then acc ++ [SEPARATOR] else acc) ++ c) cs'
  end.
Definition path_from_components (cs : list bytes) : result bytes FrameError := components_join [] cs.

(** Lexicographic comparison of slices and of component iterators. *)
Fixpoint lex_compare {A} (cmp : A -> A -> comparison) (a b : list A) : comparison :=
  match a, b with
  | [], [] => Eq
  | [], _ => Lt
  | _, [] => Gt
  | x :: a', y :: b' => match cmp x y with Eq => lex_compare cmp a' b' | c => c end
  end.
Definition byte_compare (a b : byte) : comparison := N.compare (Byte.to_N a) (Byte.to_N b).
Definition path_cmp (a b : bytes) : comparison := lex_compare (lex_compare byte_compare) (split_path a) (split_path b).

(** ** The order check *)
Record CanonicalOrder := mkOrder { previous : option bytes; open_directories : list nat (** the deepest first *) }.
Definition default_order : CanonicalOrder := mkOrder None [].
Definition is_ancestor (prev p : bytes) (len : nat) : bool :=
  (len <? length p) && bool_decide (p !! len = Some SEPARATOR) && (len <=? length prev) && bool_decide (take len prev = take len p).
Fixpoint close_directories (prev p : bytes) (stack : list nat) : list nat :=
  match stack with
  | [] => []
  | len :: stack' => if is_ancestor prev p len then stack else close_directories prev p stack'
  end.
(** [rposition] of the separator. *)
Fixpoint rposition (p : bytes) : option nat :=
  match p with
  | [] => None
  | b :: p' => match rposition p' with
               | Some i => Some (S i)
               | None => if Byte.eqb b SEPARATOR then Some 0 else None
               end
  end.
(** The code closes directories in place before it checks the parent; a refusal poisons the codec, so what it
    leaves of the stack is not seen. *)
Definition order_admit (p : bytes) (is_directory : bool) (o : CanonicalOrder) : result CanonicalOrder FrameError :=
  if match previous o with Some prev => negb (bool_decide (path_cmp p prev = Gt)) | None => false end then Err FeOutOfOrder
  else
    let stack := close_directories (default [] (previous o)) p (open_directories o) in
    if negb (default 0 (head stack) =? default 0 (rposition p)) then Err FeMissingParent
    else Ok (mkOrder (Some p) (if is_directory then length p :: stack else stack)).

(** ** Lexicographic order *)
Section Lex.
Context {A : Type} (cmp : A -> A -> comparison).
Context (cmp_eq : forall x y, cmp x y = Eq <-> x = y) (cmp_antisym : forall x y, cmp y x = CompOpp (cmp x y))
  (cmp_trans : forall x y z, cmp x y = Lt -> cmp y z = Lt -> cmp x z = Lt).
Lemma lex_eq a b : lex_compare cmp a b = Eq <-> a = b.
Proof.
  revert b; induction a as [|x a IH]; intros [|y b]; simpl; try done. destruct (cmp x y) eqn:E.
  - rewrite IH. apply cmp_eq in E. naive_solver.
  - split; [done|]. intros [= -> ->]. by rewrite (proj2 (cmp_eq y y)) in E.
  - split; [done|]. intros [= -> ->]. by rewrite (proj2 (cmp_eq y y)) in E.
Qed.
Lemma lex_antisym a b : lex_compare cmp b a = CompOpp (lex_compare cmp a b).
Proof. revert b; induction a as [|x a IH]; intros [|y b]; simpl; try done. rewrite cmp_antisym. destruct (cmp x y); simpl; auto. Qed.
Lemma lex_trans a b c : lex_compare cmp a b = Lt -> lex_compare cmp b c = Lt -> lex_compare cmp a c = Lt.
Proof.
  revert b c; induction a as [|x a IH]; intros [|y b] [|z c]; simpl; try done.
  destruct (cmp x y) eqn:E1; [apply cmp_eq in E1 as ->|destruct (cmp y z) eqn:E2; [apply cmp_eq in E2 as ->|..]|done].
  - destruct (cmp y z); eauto.
  - by rewrite E1.
  - by rewrite (cmp_trans _ _ _ E1 E2).
  - done.
Qed.
(** What lies between a list and an extension of it extends it. *)
Lemma lex_between d x r : lex_compare cmp d x <> Gt -> lex_compare cmp x (d ++ r) = Lt -> exists r', x = d ++ r'.
Proof.
  revert x; induction d as [|y d IH]; intros x; simpl; [eauto|]. destruct x as [|z x]; [done|]. simpl.
  destruct (cmp y z) eqn:E; [apply cmp_eq in E as ->| |done].
  - rewrite (proj2 (cmp_eq z z)) by done. intros H1 H2. destruct (IH x H1 H2) as [r' ->]. eauto.
  - intros _. rewrite cmp_antisym, E. simpl. done.
Qed.
Lemma lex_prefix_le d r : lex_compare cmp d (d ++ r) <> Gt.
Proof. induction d as [|y d IH]; simpl; [by destruct r|]. by rewrite (proj2 (cmp_eq y y)). Qed.
End Lex.

Lemma byte_compare_eq x y : byte_compare x y = Eq <-> x = y.
Proof.
  unfold byte_compare. rewrite N.compare_eq_iff. split; [|by intros ->]. intros E.
  apply (f_equal Byte.of_N) in E. rewrite !Byte.of_to_N in E. congruence.
Qed.
Lemma byte_compare_antisym x y : byte_compare y x = CompOpp (byte_compare x y).
Proof. apply N.compare_antisym. Qed.
Lemma byte_compare_trans x y z : byte_compare x y = Lt -> byte_compare y z = Lt -> byte_compare x z = Lt.
Proof. unfold byte_compare. rewrite !N.compare_lt_iff. lia. Qed.

(** ** Components and ancestors *)
Fixpoint join_path (cs : list bytes) : bytes :=
  match cs with [] => [] | [c] => c | c :: cs' => c ++ SEPARATOR :: join_path cs' end.
(** [under d p]: the directory [d] is a proper ancestor of [p]. *)
Definition under (d p : bytes) : Prop := exists rest, p = d ++ SEPARATOR :: rest.

Lemma split_nonempty p : split_path p <> [].
Proof. destruct p as [|b p]; simpl; [done|]. case_match; [done|]. by case_match. Qed.
Lemma split_app a b : split_path (a ++ SEPARATOR :: b) = split_path a ++ split_path b.
Proof.
  induction a as [|x a IH]; [done|]. simpl. case_match; [by rewrite IH|]. rewrite IH.
  pose proof (split_nonempty a). by destruct (split_path a).
Qed.
Lemma join_split p : join_path (split_path p) = p.
Proof.
  induction p as [|b p IH]; [done|]. simpl. pose proof (split_nonempty p). destruct (Byte.eqb b SEPARATOR) eqn:E.
  - apply Byte.byte_dec_bl in E as ->. destruct (split_path p) eqn:Es; [done|]. simpl in *. by rewrite IH.
  - destruct (split_path p) as [|c [|c' cs]]; [done|simpl in *; by subst|]. simpl in *. by rewrite <- IH.
Qed.
Lemma split_inj p q : split_path p = split_path q -> p = q.
Proof. intros E. rewrite <- (join_split p), <- (join_split q). by rewrite E. Qed.
Lemma join_app cs cs' : cs <> [] -> cs' <> [] -> join_path (cs ++ cs') = join_path cs ++ SEPARATOR :: join_path cs'.
Proof.
  intros Hn Hn'. induction cs as [|c cs IH]; [done|]. destruct cs as [|c' cs].
  - simpl. by destruct cs'.
  - assert (join_path ((c :: c' :: cs) ++ cs') = c ++ SEPARATOR :: join_path ((c' :: cs) ++ cs')) as -> by done.
    rewrite IH by done. simpl. by rewrite <- app_assoc.
Qed.
Lemma under_split d p : under d p <-> exists r, r <> [] /\ split_path p = split_path d ++ r.
Proof.
  split.
  - intros [rest ->]. exists (split_path rest). split; [apply split_nonempty|apply split_app].
  - intros (r & Hr & E). exists (join_path r). rewrite <- (join_split p), E, join_app, join_split; [done|apply split_nonempty|done].
Qed.

Local Abbreviation cmp_bytes := (lex_compare byte_compare).
Lemma cmp_bytes_eq x y : cmp_bytes x y = Eq <-> x = y.
Proof. apply lex_eq, byte_compare_eq. Qed.
Lemma cmp_bytes_antisym x y : cmp_bytes y x = CompOpp (cmp_bytes x y).
Proof. apply lex_antisym, byte_compare_antisym. Qed.
Lemma cmp_bytes_trans x y z : cmp_bytes x y = Lt -> cmp_bytes y z = Lt -> cmp_bytes x z = Lt.
Proof. apply lex_trans; [apply byte_compare_eq|apply byte_compare_trans]. Qed.
Lemma path_cmp_eq p q : path_cmp p q = Eq <-> p = q.
Proof. unfold path_cmp. rewrite lex_eq by apply cmp_bytes_eq. split; [apply split_inj|by intros ->]. Qed.
Lemma path_cmp_antisym p q : path_cmp q p = CompOpp (path_cmp p q).
Proof. apply lex_antisym, cmp_bytes_antisym. Qed.
Lemma path_cmp_trans p q r : path_cmp p q = Lt -> path_cmp q r = Lt -> path_cmp p r = Lt.
Proof. apply lex_trans; [apply cmp_bytes_eq|apply cmp_bytes_trans]. Qed.
Lemma path_gt_lt p q : path_cmp p q = Gt <-> path_cmp q p = Lt.
Proof. rewrite (path_cmp_antisym p q). by destruct (path_cmp p q). Qed.
(** An entry between a directory and something under it is that directory or under it. *)
Lemma under_between d x p : under d p -> path_cmp d x <> Gt -> path_cmp x p = Lt -> x = d \/ under d x.
Proof.
  intros (r & Hr & E)%under_split H1 H2. unfold path_cmp in *. rewrite E in H2.
  destruct (lex_between _ cmp_bytes_eq cmp_bytes_antisym _ _ _ H1 H2) as [r' Er']. destruct r' as [|c r'].
  - left. apply split_inj. by rewrite Er', app_nil_r.
  - right. apply under_split. by exists (c :: r').
Qed.
Lemma under_lt d p : under d p -> path_cmp d p = Lt.
Proof.
  intros (r & Hr & E)%under_split. unfold path_cmp. rewrite E. pose proof (lex_prefix_le _ cmp_bytes_eq (split_path d) r) as Hle.
  destruct (lex_compare _ _ _) eqn:Ec; [|done..]. apply lex_eq in Ec; [|apply cmp_bytes_eq].
  apply (f_equal length) in Ec. rewrite length_app in Ec. destruct r; [done|]. simpl in Ec. lia.
Qed.

(** ** The order check decides the declarative order *)
Definition path_valid (p : bytes) : Prop := path_from_bytes p = Ok p.
(** The parent of [p] is the class root or a directory of [es]. *)
Definition parent_in (es : list (bytes * bool)) (p : bytes) : Prop :=
  match rposition p with None => True | Some i => (take i p, true) ∈ es end.
(** Entries, with whether each is a directory: strictly increasing, every parent an earlier directory. *)
Definition canonical (es : list (bytes * bool)) : Prop :=
  StronglySorted (fun a b => path_cmp (fst a) (fst b) = Lt) es /\
  forall pre p dir post, es = pre ++ (p, dir) :: post -> parent_in pre p.
Fixpoint admit_all (es : list (bytes * bool)) (o : CanonicalOrder) : result CanonicalOrder FrameError :=
  match es with [] => Ok o | (p, dir) :: es' => let? o := order_admit p dir o in admit_all es' o end.

Lemma rposition_some p i : rposition p = Some i -> i < length p /\ p = take i p ++ SEPARATOR :: drop (S i) p /\ rposition (drop (S i) p) = None.
Proof.
  revert i; induction p as [|b p IH]; intros i; [done|]. simpl. destruct (rposition p) as [j|] eqn:E.
  - intros [= <-]. destruct (IH j eq_refl) as (? & Hp & ?). simpl. split_and!; [lia|by rewrite <- Hp|done].
  - destruct (Byte.eqb b SEPARATOR) eqn:Eb; [|done]. intros [= <-]. apply Byte.byte_dec_bl in Eb as ->. simpl. split_and!; [lia|by rewrite drop_0|by rewrite drop_0].
Qed.
Lemma rposition_app a b : rposition (a ++ SEPARATOR :: b) = Some (length a + match rposition b with Some i => S i | None => 0 end).
Proof.
  induction a as [|x a IH]; simpl; [by destruct (rposition b)|]. rewrite IH. done.
Qed.
Lemma under_rposition d p : under d p -> exists i, rposition p = Some i /\ length d <= i.
Proof. intros [rest ->]. rewrite rposition_app. eexists. split; [done|lia]. Qed.
Lemma under_parent p i : rposition p = Some i -> under (take i p) p /\ length (take i p) = i.
Proof. intros (Hi & Hp & _)%rposition_some. split; [by exists (drop (S i) p)|]. rewrite length_take. lia. Qed.
Lemma under_take d p : under d p -> d = take (length d) p /\ p !! length d = Some SEPARATOR /\ length d < length p.
Proof.
  intros [rest ->]. rewrite take_app_length, list_lookup_middle, length_app by done. simpl. split_and!; [done..|lia].
Qed.
Lemma valid_rposition p : path_valid p -> rposition p <> Some 0.
Proof.
  unfold path_valid, path_from_bytes. destruct (negb _); [done|]. intros Hv Hr.
  apply rposition_some in Hr as (_ & Hp & _). rewrite take_0 in Hp. simpl in Hp. rewrite Hp in Hv. simpl in Hv. done.
Qed.

Lemma is_ancestor_spec prev p len : is_ancestor prev p len = true <->
  len < length p /\ p !! len = Some SEPARATOR /\ len <= length prev /\ take len prev = take len p.
Proof. unfold is_ancestor. rewrite !andb_true_iff, Nat.ltb_lt, Nat.leb_le, !bool_decide_eq_true. tauto. Qed.
Lemma ancestor_under prev p len : is_ancestor prev p len = true -> under (take len prev) p.
Proof.
  intros (Hl & Hs & _ & ->)%is_ancestor_spec. exists (drop (S len) p). by rewrite (take_drop_middle p len SEPARATOR Hs).
Qed.
Lemma under_ancestor d prev p : under d p -> d = prev \/ under d prev -> is_ancestor prev p (length d) = true.
Proof.
  intros (Hd & Hs & Hl)%under_take Hprev. apply is_ancestor_spec. split_and!; [done..| |].
  - destruct Hprev as [->|(_ & _ & ?)%under_take]; lia.
  - rewrite <- Hd. destruct Hprev as [->|(Hd' & _)%under_take]; [by rewrite firstn_all|done].
Qed.

Record order_state (es : list (bytes * bool)) (o : CanonicalOrder) : Prop := {
  os_prev : previous o = last (fst <$> es);
  os_sorted : StronglySorted (fun a b => b < a) (open_directories o);
  os_mem : forall len, len ∈ open_directories o <->
    exists d prev, last (fst <$> es) = Some prev /\ (d, true) ∈ es /\ length d = len /\ (d = prev \/ under d prev) }.

(** Closing leaves exactly the ancestors of the new entry. *)
Lemma close_mem prev p stack :
  StronglySorted (fun a b => b < a) stack ->
  (forall len, len ∈ stack -> len = length prev \/ (len < length prev /\ prev !! len = Some SEPARATOR)) ->
  StronglySorted (fun a b => b < a) (close_directories prev p stack) /\
  forall len, len ∈ close_directories prev p stack <-> len ∈ stack /\ is_ancestor prev p len = true.
Proof.
  induction 1 as [|len stack Hs IH Hl]; intros Hstack; simpl; [split; [constructor|set_solver]|].
  destruct (is_ancestor prev p len) eqn:E.
  - split; [by constructor|]. intros len'. split; [|tauto]. intros Hin. split; [done|].
    apply elem_of_cons in Hin as [->|Hin]; [done|]. rewrite Forall_forall in Hl. specialize (Hl _ Hin).
    apply is_ancestor_spec in E as (E1 & E2 & E3 & E4). apply is_ancestor_spec.
    destruct (Hstack len') as [?|[Hlt Hsep]]; [set_solver|lia|].
    assert (take len' prev = take len' p) as Ht.
    { apply (f_equal (take len')) in E4. rewrite !take_take, !Nat.min_l in E4 by lia. done. }
    split_and!; [lia| |lia|done]. rewrite <- (lookup_take_lt p len len') by lia. by rewrite <- E4, lookup_take_lt by lia.
  - destruct IH as [IH1 IH2]; [set_solver|]. split; [done|]. intros len'. rewrite IH2, elem_of_cons. split; [tauto|].
    intros [[->|?] ?]; [congruence|done].
Qed.

Lemma last_path_max es prev e : StronglySorted (fun a b : bytes * bool => path_cmp (fst a) (fst b) = Lt) es ->
  last (fst <$> es) = Some prev -> e ∈ es -> fst e = prev \/ path_cmp (fst e) prev = Lt.
Proof.
  intros Hs Hl He. apply last_Some in Hl as [l Hl].
  destruct es as [|x es _] using rev_ind; [by apply (f_equal length) in Hl; rewrite length_app in Hl; simpl in Hl; lia|].
  rewrite fmap_app in Hl. simpl in Hl. apply app_inj_tail in Hl as [_ <-].
  apply elem_of_app in He as [He|He]; [|apply list_elem_of_singleton in He as ->; by left].
  right. eapply (StronglySorted_app_1_elem_of (fun a b : bytes * bool => path_cmp (fst a) (fst b) = Lt)); [done..|set_solver].
Qed.

(** The ancestors left on the stack are the directories above the new entry. *)
Lemma close_state es o p : order_state es o -> StronglySorted (fun a b => path_cmp (fst a) (fst b) = Lt) es ->
  (forall e, e ∈ es -> path_cmp (fst e) p = Lt) ->
  let stack := close_directories (default [] (previous o)) p (open_directories o) in
  StronglySorted (fun a b => b < a) stack /\
  forall len, len ∈ stack <-> exists d, (d, true) ∈ es /\ length d = len /\ under d p.
Proof.
  intros [Hp Hs Hm] Hes Hlt. simpl. destruct (last (fst <$> es)) as [prev|] eqn:El.
  - rewrite Hp. simpl.
    assert (forall len, len ∈ open_directories o <-> exists d, (d, true) ∈ es /\ length d = len /\ (d = prev \/ under d prev)) as Hm'.
    { intros len. rewrite Hm. split; [intros (d & ? & [= <-] & ?); eauto|intros (d & ?); exists d, prev; tauto]. }
    destruct (close_mem prev p (open_directories o) Hs) as [H1 H2].
    { intros len (d & _ & <- & [->|(_ & ? & ?)%under_take])%Hm'; [by left|by right]. }
    split; [done|]. intros len. rewrite H2, Hm'. split.
    + intros [(d & Hd & <- & Hdp) Ha]. exists d. split_and!; [done..|].
      apply ancestor_under in Ha. destruct Hdp as [->|(Ed & _)%under_take]; [by rewrite firstn_all in Ha|by rewrite <- Ed in Ha].
    + intros (d & Hd & <- & Hu). assert (d = prev \/ under d prev) as Hdp.
      { destruct (last_path_max _ _ _ Hes El Hd) as [?|Hlt2]; simpl in *; [by left|].
        assert (path_cmp prev p = Lt) as Hpp.
        { apply last_Some in El as [l El]. assert (prev ∈ fst <$> es) as ((x & b) & -> & Hx)%list_elem_of_fmap by (rewrite El; set_solver). by apply Hlt in Hx. }
        destruct (under_between d prev p Hu) as [->|?]; [congruence|done|by left|by right]. }
      split; [eauto|by apply under_ancestor].
  - rewrite Hp. simpl. assert (es = []) as ->.
    { destruct es as [|x es _] using rev_ind; [done|]. rewrite fmap_app in El. simpl in El. by rewrite last_snoc in El. }
    destruct (open_directories o) as [|len stack]; simpl.
    + split; [constructor|set_solver].
    + exfalso. destruct (proj1 (Hm len)) as (d & ? & ? & ?); [set_solver|done].
Qed.
Lemma head_sorted_max stack i : StronglySorted (fun a b => b < a) stack -> (forall len, len ∈ stack -> len <= i) ->
  i ∈ stack -> head stack = Some i.
Proof.
  intros Hs Hle Hin. destruct Hs as [|x stack Hs Hx]; [set_solver|]. simpl. f_equal. rewrite Forall_forall in Hx.
  apply elem_of_cons in Hin as [->|Hin]; [done|]. specialize (Hx _ Hin). assert (x <= i) by (apply Hle; set_solver). lia.
Qed.
Definition goes_back (p : bytes) (o : CanonicalOrder) : bool :=
  match previous o with Some prev => negb (bool_decide (path_cmp p prev = Gt)) | None => false end.
Lemma goes_back_spec es o p : order_state es o -> StronglySorted (fun a b => path_cmp (fst a) (fst b) = Lt) es ->
  goes_back p o = false <-> (forall e, e ∈ es -> path_cmp (fst e) p = Lt).
Proof.
  intros Hst Hes. unfold goes_back. rewrite (os_prev _ _ Hst). destruct (last (fst <$> es)) as [prev|] eqn:El.
  - rewrite negb_false_iff, bool_decide_eq_true, path_gt_lt. split.
    + intros Hlt e He. destruct (last_path_max _ _ _ Hes El He) as [->|?]; [done|by eapply path_cmp_trans].
    + intros Hall. apply last_Some in El as [l El].
      assert (prev ∈ fst <$> es) as ((x & b) & -> & Hx)%list_elem_of_fmap by (rewrite El; set_solver). by apply Hall in Hx.
  - split; [|done]. intros _ e He. exfalso. destruct es as [|x es _] using rev_ind; [set_solver|].
    rewrite fmap_app in El. simpl in El. by rewrite last_snoc in El.
Qed.
Lemma parent_check es p stack : path_valid p -> StronglySorted (fun a b => b < a) stack ->
  (forall len, len ∈ stack <-> exists d, (d, true) ∈ es /\ length d = len /\ under d p) ->
  (default 0 (head stack) =? default 0 (rposition p)) = true <-> parent_in es p.
Proof.
  intros Hv Hss Hsm. rewrite Nat.eqb_eq. unfold parent_in. destruct (rposition p) as [i|] eqn:Er; simpl.
  - destruct (under_parent p i Er) as [Hu Hi]. split.
    + intros Hh. destruct (head stack) as [x|] eqn:Eh; simpl in Hh; [subst x|by subst; apply valid_rposition in Hv].
      assert (i ∈ stack) as (d & Hd & Hl & Hud)%Hsm by (destruct stack; simplify_eq/=; set_solver).
      apply under_take in Hud as (Ed & _ & _). rewrite Hl in Ed. congruence.
    + intros Hin. rewrite (head_sorted_max stack i); [done..| |apply Hsm; eauto].
      intros len (d & _ & <- & (j & Hj & ?)%under_rposition)%Hsm. rewrite Er in Hj. simplify_eq. done.
  - destruct stack as [|x stack']; [done|]. exfalso.
    destruct (proj1 (Hsm x)) as (d & _ & _ & (j & Hj & _)%under_rposition); [set_solver|congruence].
Qed.
Lemma push_state es p (dir : bool) stack : (forall e, e ∈ es -> path_cmp (fst e) p = Lt) -> StronglySorted (fun a b => b < a) stack ->
  (forall len, len ∈ stack <-> exists d, (d, true) ∈ es /\ length d = len /\ under d p) ->
  order_state (es ++ [(p, dir)]) (mkOrder (Some p) (if dir then length p :: stack else stack)).
Proof.
  intros Hlt Hss Hsm. assert (last (fst <$> es ++ [(p, dir)]) = Some p) as Hl by (rewrite fmap_app; simpl; by rewrite last_snoc).
  split; simpl; [done| |].
  - destruct dir; [|done]. constructor; [done|]. apply Forall_forall. intros len (d & _ & <- & (_ & _ & ?)%under_take)%Hsm. done.
  - intros len. rewrite Hl. transitivity ((dir = true /\ len = length p) \/ len ∈ stack).
    { destruct dir; [rewrite elem_of_cons|]; naive_solver. }
    rewrite Hsm. split.
    + intros [[-> ->]|(d & Hd & Hl' & Hu)]; [exists p, p; set_solver|exists d, p; set_solver].
    + intros (d & ? & [= <-] & [Hd|Hd]%elem_of_app & Hl' & Hu).
      * destruct Hu as [->|Hu]; [|right; eauto]. apply Hlt in Hd. simpl in Hd. pose proof (proj2 (path_cmp_eq p p) eq_refl). congruence.
      * apply list_elem_of_singleton in Hd as [= -> <-]. auto.
Qed.
(** One step of the check. *)
Lemma admit_step es o p dir : order_state es o -> StronglySorted (fun a b => path_cmp (fst a) (fst b) = Lt) es -> path_valid p ->
  match order_admit p dir o with
  | Ok o' => (forall e, e ∈ es -> path_cmp (fst e) p = Lt) /\ parent_in es p /\ order_state (es ++ [(p, dir)]) o'
  | Err e => ~ ((forall e, e ∈ es -> path_cmp (fst e) p = Lt) /\ parent_in es p)
  end.
Proof.
  intros Hst Hes Hv. unfold order_admit. fold (goes_back p o). pose proof (goes_back_spec _ _ p Hst Hes) as Hord.
  destruct (goes_back p o); [intros [Hc _]; by apply Hord in Hc|]. pose proof (proj1 Hord eq_refl) as Hlt.
  destruct (close_state _ _ p Hst Hes Hlt) as [Hss Hsm]. pose proof (parent_check _ _ _ Hv Hss Hsm) as Hpar.
  set (stack := close_directories _ _ _) in *.
  destruct (default 0 (head stack) =? default 0 (rposition p)); simpl; [|intros [_ Hpi]; by apply Hpar in Hpi].
  split_and!; [done|by apply Hpar|by apply push_state].
Qed.

Lemma canonical_snoc es p dir : canonical (es ++ [(p, dir)]) <->
  canonical es /\ (forall e, e ∈ es -> path_cmp (fst e) p = Lt) /\ parent_in es p.
Proof.
  unfold canonical. rewrite StronglySorted_app. split.
  - intros [(Hlt & Hs & _) Hpar]. split_and!; [done| | |].
    + intros pre q d post ->. eapply (Hpar pre q d (post ++ [(p, dir)])). by rewrite <- app_assoc.
    + intros e He. apply (Hlt e (p, dir)); set_solver.
    + eapply (Hpar es p dir []). done.
  - intros ([Hs Hpar] & Hlt & Hp). split_and!; [|done|repeat constructor|].
    + intros x y Hx ->%list_elem_of_singleton. by apply Hlt.
    + intros pre q d post E. destruct post as [|x post _] using rev_ind.
      * apply app_inj_tail in E as [-> [= -> ->]]. done.
      * rewrite app_comm_cons, app_assoc in E. apply app_inj_tail in E as [-> _]. by eapply Hpar.
Qed.
Lemma admit_all_snoc es p dir o : admit_all (es ++ [(p, dir)]) o = (let? o := admit_all es o in order_admit p dir o).
Proof.
  revert o; induction es as [|[q d] es IH]; intros o; simpl; [by destruct (order_admit p dir o)|]. destruct (order_admit q d o); [apply IH|done].
Qed.
Lemma admit_all_spec es : Forall (path_valid ∘ fst) es ->
  match admit_all es default_order with Ok o => canonical es /\ order_state es o | Err _ => ~ canonical es end.
Proof.
  induction es as [|[p dir] es IH] using rev_ind; intros Hv.
  - simpl. split; [split; [constructor|]; by intros [] |]. split; simpl; [done|constructor|]. set_solver.
  - apply Forall_app in Hv as [Hv Hp]. apply Forall_cons in Hp as [Hp _]. specialize (IH Hv). rewrite admit_all_snoc.
    destruct (admit_all es default_order) as [o|e]; simpl; [|by rewrite canonical_snoc; intros [? _]].
    destruct IH as [Hc Hst]. pose proof (admit_step es o p dir Hst (proj1 Hc) Hp) as Hstep.
    destruct (order_admit p dir o); rewrite canonical_snoc; tauto.
Qed.

(** The streaming order check is exact. On any sequence of valid frame paths, the check that keeps only the
    previous path and a stack of prefix lengths accepts exactly the canonical sequences: strictly increasing in
    the component-wise order, with every entry's parent directory (unless it is the root) an earlier directory
    entry. *)
Theorem canonical_order_exact es : Forall (path_valid ∘ fst) es -> is_ok (admit_all es default_order) = true <-> canonical es.
Proof. intros Hv. pose proof (admit_all_spec es Hv) as Hs. destruct (admit_all es default_order); simpl; [tauto|]. split; [done|tauto]. Qed.
