(* ===== verification/CustodyFrame.v ===== *)
(** * The coverage-frame codec ([bridge-core/src/custody_frame.rs])

    The streaming encoder and decoder of custody coverage frames over the paths
    of [FramePath]. A reader is the list of what its [read] calls find: bytes (a
    call takes at most its buffer of them), an interruption, an error, a reader
    that claims too much; after the list it is at its end. A writer is the list
    of what its [write] calls do, then it accepts everything. A digest context is
    the bytes fed to it; SHA-256 is a parameter. Lengths and counters are [Z] with
    the code's checked additions. *)
From Stdlib Require Import Strings.Byte.
From S2P Require Import Prelude Domain Framing FramePath.
Open Scope Z_scope.
Open Scope bridge_scope.

(** ** Constants *)
Definition MAGIC : bytes := of_str "a2a-cfr1".
Definition VERSION : byte := x01.
Definition TAG_DIRECTORY : byte := x01.
Definition TAG_REGULAR : byte := x02.
Definition TAG_SYMLINK : byte := x03.
Definition TAG_TRAILER : byte := xff.
Definition MAX_GENERATION_BYTES : Z := 1024.
Definition MAX_SYMLINK_TARGET_BYTES : Z := 4095.
Definition PERMISSION_BITS : Z := 511.
Definition MAX_ENTRIES : Z := 1048576.
Definition MAX_FRAME_BYTES : Z := 10 * Z.shiftl 1 30.
Definition CONTENT_BUFFER_BYTES : nat := Z.to_nat (64 * 1024).
Definition DIGEST_BYTES : Z := 32.
Definition HEADER_FIXED_BYTES : Z := 8 + 1 + 1 + 2.
Definition TRAILER_BYTES : Z := 1 + 8 + 8 + DIGEST_BYTES.
Definition u16_max : Z := 65535.
Definition zlen (b : bytes) : Z := Z.of_nat (length b).

(** [to_le_bytes] and [from_le_bytes]. *)
Definition byte_of_Z (z : Z) : byte := default x00 (Byte.of_N (Z.to_N (z mod 256))).
Definition Z_of_byte (b : byte) : Z := Z.of_N (Byte.to_N b).
Fixpoint to_le (n : nat) (v : Z) : bytes :=
  match n with O => [] | S n' => byte_of_Z v :: to_le n' (v / 256) end.
Fixpoint from_le (bs : bytes) : Z :=
  match bs with [] => 0 | b :: bs' => Z_of_byte b + 256 * from_le bs' end.

(** ** Classes and headers *)
Inductive CoverageClass :=
| RefsAndHead | ObjectDatabase | Index | Worktree | StashAndReflogs | InProgressGitOperations | LinkedWorktrees
| NestedRepositoriesAndSubmodules | LfsAndExternalPayloads | AlternatesAndSharedStores | GitConfigurationAndHooks
| BridgeEvidence | ExternalEvidence | ReproducibleOutputs.
#[global] Instance coverage_class_eq_dec : EqDecision CoverageClass.
Proof. solve_decision. Defined.
Definition class_code (c : CoverageClass) : result byte FrameError :=
  match c with
  | RefsAndHead => Ok x01 | ObjectDatabase => Err FeObjectDatabaseNotFramed | Index => Ok x03 | Worktree => Ok x04
  | StashAndReflogs => Ok x05 | InProgressGitOperations => Ok x06 | LinkedWorktrees => Ok x07
  | NestedRepositoriesAndSubmodules => Ok x08 | LfsAndExternalPayloads => Ok x09 | AlternatesAndSharedStores => Ok x0a
  | GitConfigurationAndHooks => Ok x0b | BridgeEvidence => Ok x0c | ExternalEvidence => Ok x0d | ReproducibleOutputs => Ok x0e
  end.
Definition class_from_code (b : byte) : result CoverageClass FrameError :=
  match b with
  | x01 => Ok RefsAndHead | x02 => Err FeObjectDatabaseNotFramed | x03 => Ok Index | x04 => Ok Worktree
  | x05 => Ok StashAndReflogs | x06 => Ok InProgressGitOperations | x07 => Ok LinkedWorktrees
  | x08 => Ok NestedRepositoriesAndSubmodules | x09 => Ok LfsAndExternalPayloads | x0a => Ok AlternatesAndSharedStores
  | x0b => Ok GitConfigurationAndHooks | x0c => Ok BridgeEvidence | x0d => Ok ExternalEvidence | x0e => Ok ReproducibleOutputs
  | _ => Err FeUnknownClass
  end.
Definition generation_length_admitted (n : Z) : bool := (1 <=? n) && (n <=? MAX_GENERATION_BYTES).
(** The generation id is the bytes of a [String]. *)
Record FrameHeader := mkHeader { hd_class : CoverageClass; hd_code : byte; hd_generation : bytes }.
Definition header_new (c : CoverageClass) (generation : bytes) : result FrameHeader FrameError :=
  let? code := class_code c in
  if negb (generation_length_admitted (zlen generation)) then Err FeInvalidGeneration else Ok (mkHeader c code generation).
Definition header_encode (h : FrameHeader) : result bytes FrameError :=
  if u16_max <? zlen (hd_generation h) then Err FeInvalidGeneration
  else Ok (MAGIC ++ [VERSION; hd_code h] ++ to_le 2 (zlen (hd_generation h)) ++ hd_generation h).

(** ** Modes, targets, budgets *)
Definition encode_mode (mode : Z) : result Z FrameError :=
  if negb (Z.land mode (Z.lxor u32_max PERMISSION_BITS) =? 0) then Err FeUnsupportedMode
  else if u16_max <? mode then Err FeUnsupportedMode else Ok mode.
Definition decode_mode (mode : Z) : result Z FrameError := if PERMISSION_BITS <? mode then Err FeUnsupportedMode else Ok mode.
Definition symlink_target_length_admitted (n : Z) : bool := (1 <=? n) && (n <=? MAX_SYMLINK_TARGET_BYTES).
Definition validate_symlink_target (target : bytes) : result unit FrameError :=
  if negb (symlink_target_length_admitted (zlen target)) then Err FeInvalidSymlinkTarget
  else if existsb (Byte.eqb x00) target then Err FeInvalidSymlinkTarget else Ok tt.
Record FrameBudget := mkBudget { max_entries : Z; max_frame_bytes : Z }.
Definition budget_new (entries frame_bytes : Z) : result FrameBudget FrameError :=
  if MAX_ENTRIES <? entries then Err FeEntryLimit
  else if MAX_FRAME_BYTES <? frame_bytes then Err FeByteBudget else Ok (mkBudget entries frame_bytes).
Definition record_limit_of (b : FrameBudget) : result Z FrameError :=
  if max_frame_bytes b <? TRAILER_BYTES then Err FeByteBudget else Ok (max_frame_bytes b - TRAILER_BYTES).
Definition record_prefix (tag : byte) (path : bytes) : result bytes FrameError :=
  if u16_max <? zlen path then Err FePathTooLong else Ok (tag :: to_le 2 (zlen path) ++ path).

(** ** Readers *)
Inductive ReadEvent := RdData (bs : bytes) | RdInterrupted | RdFail (kind : IoKind) | RdOverrun.
Definition Source := list ReadEvent.
Fixpoint read_some (want : nat) (src : Source) : result bytes FrameError * Source :=
  match src with
  | [] => (Ok [], [])
  | RdData bs :: src' => (Ok (take want bs), if (want <? length bs)%nat then RdData (drop want bs) :: src' else src')
  | RdInterrupted :: src' => read_some want src'
  | RdFail kind :: src' => (Err (FeIo kind), src')
  | RdOverrun :: src' => (Err (FeIo IoInvalidData), src')
  end.
(** The loop of [read_exactly]: every round but the last takes a byte, so [want] rounds are enough. *)
Fixpoint read_exactly_loop (fuel want : nat) (src : Source) : result bytes FrameError * Source :=
  match want with
  | O => (Ok [], src)
  | S _ =>
      match fuel with
      | O => (Err FeTruncated, src)
      | S fuel' =>
          match read_some want src with
          | (Err e, src') => (Err e, src')
          | (Ok [], src') => (Err FeTruncated, src')
          | (Ok bs, src') =>
              let (r, src'') := read_exactly_loop fuel' (want - length bs) src' in
              ((let? rest := r in Ok (bs ++ rest)), src'')
          end
      end
  end.
Definition read_exactly (want : nat) (src : Source) : result bytes FrameError * Source := read_exactly_loop want want src.
Definition chunk_length (remaining : Z) (capacity : nat) : nat := Z.to_nat (Z.min remaining (Z.of_nat capacity)).

(** ** A state and error monad; the state survives an error *)
Definition FM (S A : Type) : Type := S -> result A FrameError * S.
Definition fret {S A} (a : A) : FM S A := fun s => (Ok a, s).
Definition fbind {S A B} (m : FM S A) (k : A -> FM S B) : FM S B :=
  fun s => match m s with (Ok a, s') => k a s' | (Err e, s') => (Err e, s') end.
Definition frefuse {S A} (e : FrameError) : FM S A := fun s => (Err e, s).
Definition flift {S A} (r : result A FrameError) : FM S A := fun s => (r, s).
Definition fget {S} : FM S S := fun s => (Ok s, s).
Definition fput {S} (s : S) : FM S unit := fun _ => (Ok tt, s).
Notation "x <~ m ;; k" := (fbind m (fun x => k)) (at level 100, m at next level, right associativity) : bridge_scope.
Notation "m ;~ k" := (fbind m (fun _ => k)) (at level 100, right associativity) : bridge_scope.
Definition frequire {S} (b : bool) (e : FrameError) : FM S unit := if b then fret tt else frefuse e.

Section Codec.
Context (sha256 : bytes -> bytes).

(** ** Encoder *)
(** A call accepts at most its bytes; [WrOverrun] claims more than it was given. *)
Inductive WriteEvent := WrAccept (n : nat) | WrInterrupted | WrFail (kind : IoKind) | WrOverrun.
Record Encoder := mkEncoder {
  en_sink : list WriteEvent; en_written : bytes; en_frame : bytes; en_frame_bytes : Z;
  en_budget : FrameBudget; en_record_limit : Z; en_order : CanonicalOrder; en_entries : Z; en_content_bytes : Z; en_poisoned : bool }.
Definition set_out (sink : list WriteEvent) (written frame : bytes) (frame_bytes : Z) (e : Encoder) : Encoder :=
  mkEncoder sink written frame frame_bytes (en_budget e) (en_record_limit e) (en_order e) (en_entries e) (en_content_bytes e) (en_poisoned e).
Definition set_en_order (o : CanonicalOrder) (e : Encoder) : Encoder :=
  mkEncoder (en_sink e) (en_written e) (en_frame e) (en_frame_bytes e) (en_budget e) (en_record_limit e) o (en_entries e)
    (en_content_bytes e) (en_poisoned e).
Definition set_en_counts (entries content : Z) (e : Encoder) : Encoder :=
  mkEncoder (en_sink e) (en_written e) (en_frame e) (en_frame_bytes e) (en_budget e) (en_record_limit e) (en_order e) entries content (en_poisoned e).
Definition poison (e : Encoder) : Encoder :=
  mkEncoder (en_sink e) (en_written e) (en_frame e) (en_frame_bytes e) (en_budget e) (en_record_limit e) (en_order e) (en_entries e)
    (en_content_bytes e) true.

(** The write loop of [emit]: what is written, what is left of the script. *)
Fixpoint write_all (bs written : bytes) (sink : list WriteEvent) : result unit FrameError * (bytes * list WriteEvent) :=
  match bs, sink with
  | [], _ => (Ok tt, (written, sink))
  | _, [] => (Ok tt, (written ++ bs, []))
  | _, WrAccept 0 :: sink' => (Err (FeIo IoWriteZero), (written, sink'))
  | _, WrAccept n :: sink' => write_all (drop n bs) (written ++ take n bs) sink'
  | _, WrOverrun :: sink' => (Err (FeIo IoInvalidData), (written, sink'))
  | _, WrInterrupted :: sink' => write_all bs written sink'
  | _, WrFail kind :: sink' => (Err (FeIo kind), (written, sink'))
  end.
Definition emit (bs : bytes) : FM Encoder unit := fun e =>
  match write_all bs (en_written e) (en_sink e) with
  | (Err x, (written, sink)) => (Err x, set_out sink written (en_frame e) (en_frame_bytes e) e)
  | (Ok _, (written, sink)) =>
      match checked_add (en_frame_bytes e) (zlen bs) with
      | None => (Err FeByteBudget, set_out sink written (en_frame e ++ bs) (en_frame_bytes e) e)
      | Some n => (Ok tt, set_out sink written (en_frame e ++ bs) n e)
      end
  end.
Definition admit_bytes (size : Z) : FM Encoder unit := fun e =>
  match checked_add (en_frame_bytes e) size with
  | None => (Err FeByteBudget, e)
  | Some end_ => if en_record_limit e <? end_ then (Err FeByteBudget, e) else (Ok tt, e)
  end.
Definition admit_record (size : Z) : FM Encoder unit := fun e =>
  if max_entries (en_budget e) <=? en_entries e then (Err FeEntryLimit, e) else admit_bytes size e.
Definition enc_order (path : bytes) (is_directory : bool) : FM Encoder unit := fun e =>
  match order_admit path is_directory (en_order e) with Ok o => (Ok tt, set_en_order o e) | Err x => (Err x, e) end.
Definition count_entry (content : Z) : FM Encoder unit := fun e => (Ok tt, set_en_counts (en_entries e + 1) content e).
Definition guarded {A} (step : FM Encoder A) : FM Encoder A := fun e =>
  if en_poisoned e then (Err FePoisoned, e)
  else match step e with (Ok a, e') => (Ok a, e') | (Err x, e') => (Err x, poison e') end.

Definition encoder_new (sink : list WriteEvent) (h : FrameHeader) (b : FrameBudget) : result Encoder FrameError :=
  let? limit := record_limit_of b in
  let? header := header_encode h in
  match (admit_bytes (zlen header) ;~ emit header) (mkEncoder sink [] [] 0 b limit default_order 0 0 false) with
  | (Ok _, e) => Ok e
  | (Err x, _) => Err x
  end.
Definition enc_directory (path : bytes) (mode : Z) : FM Encoder unit :=
  guarded (mode <~ flift (encode_mode mode) ;; enc_order path true ;~ prefix <~ flift (record_prefix TAG_DIRECTORY path) ;;
    let record := prefix ++ to_le 2 mode in
    admit_record (zlen record) ;~ emit record ;~ e <~ fget ;; count_entry (en_content_bytes e)).
Definition enc_symlink (path target : bytes) : FM Encoder unit :=
  guarded (flift (validate_symlink_target target) ;~ enc_order path false ;~
    frequire (zlen target <=? u16_max) FeInvalidSymlinkTarget ;~ prefix <~ flift (record_prefix TAG_SYMLINK path) ;;
    let record := prefix ++ to_le 2 (zlen target) ++ target in
    admit_record (zlen record) ;~ emit record ;~ e <~ fget ;; count_entry (en_content_bytes e)).

(** The loop of [stream_content]; it ends with its reader, so the reader's size is enough fuel. *)
Definition source_size (src : Source) : nat := foldr (fun r n => (match r with RdData bs => length bs | _ => 0 end + S n)%nat) 0%nat src.
Fixpoint stream_loop (fuel : nat) (remaining : Z) (content : bytes) (src : Source) : FM Encoder (bytes * Source) :=
  match fuel with
  | O => frefuse FeTruncated
  | S fuel' =>
      if remaining =? 0 then fret (content, src)
      else match read_some (chunk_length remaining CONTENT_BUFFER_BYTES) src with
      | (Err x, _) => frefuse x
      | (Ok [], _) => frefuse (FeContentLengthMismatch LmShort)
      | (Ok chunk, src') => emit chunk ;~ stream_loop fuel' (remaining - zlen chunk) (content ++ chunk) src'
      end
  end.
Definition stream_content (declared : Z) (src : Source) : FM Encoder bytes :=
  r <~ stream_loop (S (source_size src)) declared [] src ;;
  match fst (read_some 1 (snd r)) with
  | Err x => frefuse x
  | Ok [] => fret (sha256 (fst r))
  | Ok _ => frefuse (FeContentLengthMismatch LmLong)
  end.
Record FileReceipt := mkReceipt { fr_length : Z; fr_sha256 : bytes }.
Definition enc_regular (path : bytes) (mode declared : Z) (src : Source) : FM Encoder FileReceipt :=
  guarded (mode <~ flift (encode_mode mode) ;; enc_order path false ;~ prefix <~ flift (record_prefix TAG_REGULAR path) ;;
    let prefix := prefix ++ to_le 2 mode ++ to_le 8 declared in
    size <~ flift (ok_or (checked_add (zlen prefix + DIGEST_BYTES) declared) FeByteBudget) ;;
    admit_record size ;~
    e <~ fget ;; content_bytes <~ flift (ok_or (checked_add (en_content_bytes e) declared) FeByteBudget) ;;
    emit prefix ;~ sha <~ stream_content declared src ;; emit sha ;~ count_entry content_bytes ;~ fret (mkReceipt declared sha)).
Record FrameSummary := mkFrameSummary { fs_entries : Z; fs_content_bytes : Z; fs_frame_bytes : Z; fs_frame_sha256 : bytes }.
(** [flushed] is the outcome of the sink's [flush]. *)
Definition enc_finish (flushed : result unit FrameError) : FM Encoder FrameSummary :=
  guarded (e <~ fget ;; emit (TAG_TRAILER :: to_le 8 (en_entries e) ++ to_le 8 (en_content_bytes e)) ;~
    e <~ fget ;; emit (sha256 (en_frame e)) ;~ flift flushed ;~
    e <~ fget ;; fret (mkFrameSummary (en_entries e) (en_content_bytes e) (en_frame_bytes e) (sha256 (en_frame e)))).

(** A whole encoding: the entries in order up to the first refusal, then the trailer; the summary and what
    reached the sink. *)
Inductive EncodeOp := OpDirectory (path : bytes) (mode : Z) | OpRegular (path : bytes) (mode declared : Z) (reader : Source) | OpSymlink (path target : bytes).
Definition enc_op (op : EncodeOp) : FM Encoder unit :=
  match op with
  | OpDirectory path mode => enc_directory path mode
  | OpRegular path mode declared reader => enc_regular path mode declared reader ;~ fret tt
  | OpSymlink path target => enc_symlink path target
  end.
Fixpoint enc_ops (ops : list EncodeOp) : FM Encoder unit :=
  match ops with [] => fret tt | op :: ops' => enc_op op ;~ enc_ops ops' end.
Definition encode (sink : list WriteEvent) (h : FrameHeader) (b : FrameBudget) (ops : list EncodeOp) (flushed : result unit FrameError)
    : result (FrameSummary * bytes) FrameError :=
  let? e := encoder_new sink h b in
  let (r, e') := (enc_ops ops ;~ enc_finish flushed) e in
  let? summary := r in Ok (summary, en_written e').

(** ** Decoder *)
Inductive DecoderPhase := DpOpen | DpComplete | DpPoisoned.
#[global] Instance decoder_phase_eq_dec : EqDecision DecoderPhase.
Proof. solve_decision. Defined.
Record PendingContent := mkPendingContent { pc_remaining : Z; pc_content : bytes }.
Inductive FrameRecord :=
| RecDirectory (path : bytes) (mode : Z)
| RecRegular (path : bytes) (mode length : Z)
| RecSymlink (path target : bytes).
Record DecoderState := mkDecoder {
  de_budget : FrameBudget; de_record_limit : Z; de_admitted : Z; de_frame : bytes; de_order : CanonicalOrder;
  de_entries : Z; de_content_bytes : Z; de_pending : option PendingContent; de_phase : DecoderPhase }.
Definition Decoder : Type := DecoderState * Source.
Definition set_admitted n d := mkDecoder (de_budget d) (de_record_limit d) n (de_frame d) (de_order d) (de_entries d) (de_content_bytes d) (de_pending d) (de_phase d).
Definition set_frame f d := mkDecoder (de_budget d) (de_record_limit d) (de_admitted d) f (de_order d) (de_entries d) (de_content_bytes d) (de_pending d) (de_phase d).
Definition set_de_order o d := mkDecoder (de_budget d) (de_record_limit d) (de_admitted d) (de_frame d) o (de_entries d) (de_content_bytes d) (de_pending d) (de_phase d).
Definition set_entries n d := mkDecoder (de_budget d) (de_record_limit d) (de_admitted d) (de_frame d) (de_order d) n (de_content_bytes d) (de_pending d) (de_phase d).
Definition set_content n p d := mkDecoder (de_budget d) (de_record_limit d) (de_admitted d) (de_frame d) (de_order d) (de_entries d) n p (de_phase d).
Definition set_phase ph d := mkDecoder (de_budget d) (de_record_limit d) (de_admitted d) (de_frame d) (de_order d) (de_entries d) (de_content_bytes d) (de_pending d) ph.
Definition dget : FM Decoder DecoderState := fun s => (Ok (fst s), s).
Definition dset (f : DecoderState -> DecoderState) : FM Decoder unit := fun s => (Ok tt, (f (fst s), snd s)).
Definition dread (r : Source -> result bytes FrameError * Source) : FM Decoder bytes := fun s =>
  let (a, src) := r (snd s) in (a, (fst s, src)).

Definition dec_admit (size : Z) : FM Decoder unit :=
  d <~ dget ;; end_ <~ flift (ok_or (checked_add (de_admitted d) size) FeByteBudget) ;;
  frequire (end_ <=? de_record_limit d) FeByteBudget ;~ dset (set_admitted end_).
Definition read_frame_bytes (n : nat) : FM Decoder bytes :=
  bs <~ dread (read_exactly n) ;; dset (fun d => set_frame (de_frame d ++ bs) d) ;~ fret bs.
Definition read_u8 : FM Decoder byte := bs <~ read_frame_bytes 1 ;; fret (default x00 (head bs)).
Definition read_u16 : FM Decoder Z := bs <~ read_frame_bytes 2 ;; fret (from_le bs).
Definition read_u64 : FM Decoder Z := bs <~ read_frame_bytes 8 ;; fret (from_le bs).

Definition read_header (expected : FrameHeader) : FM Decoder unit :=
  dec_admit HEADER_FIXED_BYTES ;~
  magic <~ read_frame_bytes 8 ;; frequire (bool_decide (magic = MAGIC)) FeBadMagic ;~
  version <~ read_u8 ;; frequire (Byte.eqb version VERSION) FeUnsupportedVersion ;~
  code <~ read_u8 ;; class <~ flift (class_from_code code) ;;
  frequire (bool_decide (class = hd_class expected)) FeClassMismatch ;~
  length <~ read_u16 ;; frequire (generation_length_admitted length) FeInvalidGeneration ;~
  dec_admit length ;~ generation <~ read_frame_bytes (Z.to_nat length) ;;
  frequire (utf8_valid generation) FeInvalidGeneration ;~
  frequire (bool_decide (generation = hd_generation expected)) FeGenerationMismatch.
Definition decoder_new (src : Source) (expected : FrameHeader) (b : FrameBudget) : result Decoder FrameError :=
  let? limit := record_limit_of b in
  match read_header expected (mkDecoder b limit 0 [] default_order 0 0 None DpOpen, src) with
  | (Ok _, s) => Ok s
  | (Err x, _) => Err x
  end.

Definition read_path : FM Decoder bytes :=
  dec_admit 2 ;~ length <~ read_u16 ;; frequire (path_length_admitted (Z.to_nat length)) FePathTooLong ;~
  dec_admit length ;~ bs <~ read_frame_bytes (Z.to_nat length) ;; flift (path_from_bytes bs).
Definition dec_order (path : bytes) (is_directory : bool) : FM Decoder unit :=
  d <~ dget ;; o <~ flift (order_admit path is_directory (de_order d)) ;; dset (set_de_order o).

(** Content of the pending file: at most the buffer and the remainder. *)
Definition read_content_bytes (capacity : nat) : FM Decoder bytes :=
  d <~ dget ;;
  match de_pending d with
  | None => fret []
  | Some pending =>
      let want := chunk_length (pc_remaining pending) capacity in
      if (want =? 0)%nat then fret []
      else
        chunk <~ dread (read_some want) ;;
        match chunk with
        | [] => frefuse FeTruncated
        | _ =>
            dset (fun d => set_frame (de_frame d ++ chunk)
              (set_content (de_content_bytes d) (Some (mkPendingContent (pc_remaining pending - zlen chunk) (pc_content pending ++ chunk))) d)) ;~
            fret chunk
        end
  end.
Definition finish_content : FM Decoder unit :=
  d <~ dget ;;
  match de_pending d with
  | None => fret tt
  | Some pending =>
      dset (fun d => set_content (de_content_bytes d) None d) ;~
      stored <~ read_frame_bytes 32 ;; frequire (bool_decide (sha256 (pc_content pending) = stored)) FeContentDigestMismatch
  end.
(** The loop of [discard_content]; every round takes a byte of the source, whose size is enough fuel. *)
Fixpoint discard_loop (fuel : nat) : FM Decoder unit :=
  match fuel with
  | O => frefuse FeTruncated
  | S fuel' =>
      d <~ dget ;;
      if match de_pending d with Some pending => 0 <? pc_remaining pending | None => false end
      then read_content_bytes CONTENT_BUFFER_BYTES ;~ discard_loop fuel' else fret tt
  end.
Definition discard_content : FM Decoder unit := fun s => discard_loop (S (source_size (snd s))) s.
Definition drain_pending : FM Decoder unit := discard_content ;~ finish_content.

Definition read_trailer : FM Decoder unit :=
  entries <~ read_u64 ;; total <~ read_u64 ;; d <~ dget ;;
  frame_digest <~ dread (read_exactly 32) ;;
  frequire (entries =? de_entries d) FeCountMismatch ;~ frequire (total =? de_content_bytes d) FeTotalMismatch ;~
  frequire (bool_decide (frame_digest = sha256 (de_frame d))) FeFrameDigestMismatch ;~
  probe <~ dread (read_some 1) ;; frequire (bool_decide (probe = [])) FeTrailingBytes ;~ dset (set_phase DpComplete).

Definition read_directory (path : bytes) : FM Decoder FrameRecord :=
  dec_admit 2 ;~ m <~ read_u16 ;; mode <~ flift (decode_mode m) ;; fret (RecDirectory path mode).
Definition read_regular (path : bytes) : FM Decoder FrameRecord :=
  dec_admit (2 + 8) ;~ m <~ read_u16 ;; mode <~ flift (decode_mode m) ;; length <~ read_u64 ;;
  size <~ flift (ok_or (checked_add length DIGEST_BYTES) FeByteBudget) ;; dec_admit size ;~
  d <~ dget ;; total <~ flift (ok_or (checked_add (de_content_bytes d) length) FeByteBudget) ;;
  dset (set_content total (Some (mkPendingContent length []))) ;~ fret (RecRegular path mode length).
Definition read_symlink (path : bytes) : FM Decoder FrameRecord :=
  dec_admit 2 ;~ length <~ read_u16 ;; frequire (symlink_target_length_admitted length) FeInvalidSymlinkTarget ;~
  dec_admit length ;~ target <~ read_frame_bytes (Z.to_nat length) ;; flift (validate_symlink_target target) ;~ fret (RecSymlink path target).
(** The rest of an entry whose tag has been read. *)
Definition read_entry (is_directory : bool) (body : bytes -> FM Decoder FrameRecord) : FM Decoder (option FrameRecord) :=
  d <~ dget ;; frequire (de_entries d <? max_entries (de_budget d)) FeEntryLimit ;~
  dec_admit 1 ;~ path <~ read_path ;; dec_order path is_directory ;~
  record <~ body path ;; dset (fun d => set_entries (de_entries d + 1) d) ;~ fret (Some record).
Definition next_record : FM Decoder (option FrameRecord) :=
  drain_pending ;~ tag <~ read_u8 ;;
  if Byte.eqb tag TAG_TRAILER then read_trailer ;~ fret None
  else if Byte.eqb tag TAG_DIRECTORY then read_entry true read_directory
  else if Byte.eqb tag TAG_REGULAR then read_entry false read_regular
  else if Byte.eqb tag TAG_SYMLINK then read_entry false read_symlink
  else frefuse FeUnknownTag.
Definition next_entry : FM Decoder (option FrameRecord) := fun s =>
  match de_phase (fst s) with
  | DpPoisoned => (Err FePoisoned, s)
  | DpComplete => (Ok None, s)
  | DpOpen =>
      match next_record s with
      | (Ok r, s') => (Ok r, s')
      | (Err e, s') => (Err e, (set_phase DpPoisoned (fst s'), snd s'))
      end
  end.
Definition read_yielded_content (capacity : nat) : FM Decoder bytes :=
  bs <~ read_content_bytes capacity ;; d <~ dget ;;
  (if match de_pending d with Some pending => pc_remaining pending =? 0 | None => false end then finish_content else fret tt) ;~ fret bs.
Definition consumer_read (capacity : nat) : FM Decoder bytes := fun s =>
  match de_phase (fst s) with
  | DpPoisoned => (Err FePoisoned, s)
  | _ =>
      match read_yielded_content capacity s with
      | (Ok bs, s') => (Ok bs, s')
      | (Err e, s') => (Err e, (set_phase DpPoisoned (fst s'), snd s'))
      end
  end.

(** ** A whole decoding session

    [reads] gives, for each entry, the buffer sizes the consumer reads its content with before it asks for the
    next entry; what it read is kept with the entry. The session ends at the verified trailer or at the first
    refusal. *)
Fixpoint consume (sizes : list nat) : FM Decoder bytes :=
  match sizes with
  | [] => fret []
  | n :: sizes' => bs <~ consumer_read n ;; rest <~ consume sizes' ;; fret (bs ++ rest)
  end.
Fixpoint session (fuel : nat) (reads : list (list nat)) : FM Decoder (list (FrameRecord * bytes)) :=
  match fuel with
  | O => frefuse FeTruncated
  | S fuel' =>
      r <~ next_entry ;;
      match r with
      | None => fret []
      | Some record =>
          bs <~ consume (default [] (head reads)) ;; rest <~ session fuel' (tail reads) ;; fret ((record, bs) :: rest)
      end
  end.
Definition decode (src : Source) (expected : FrameHeader) (b : FrameBudget) (reads : list (list nat))
    : result (list (FrameRecord * bytes)) FrameError :=
  let? s := decoder_new src expected b in fst (session (S (source_size src)) reads s).
End Codec.
