(* ===== verification/FrameDecode.v ===== *)
(** * What the frame decoder accepts

    The grammar of a coverage frame as a function from entries to bytes, and the
    proof that the streaming decoder of [CustodyFrame] accepts exactly the bytes
    that function gives for canonical entries within the budget. Every decoder
    step gets a two-way specification ([exact]): over a source without I/O
    errors it succeeds exactly when a relation on the bytes to come holds, however
    the source chunks or interrupts its reads. *)
From Stdlib Require Import Strings.Byte.
From S2P Require Import Prelude Domain Framing FramePath CustodyFrame.
Open Scope Z_scope.
Open Scope bridge_scope.

(** ** Little-endian integers *)
Lemma Z_of_byte_range b : 0 <= Z_of_byte b < 256.
Proof. unfold Z_of_byte. pose proof (Byte.to_N_bounded b). lia. Qed.
Lemma byte_of_Z_of_byte b : byte_of_Z (Z_of_byte b) = b.
Proof.
  unfold byte_of_Z. rewrite Z.mod_small by apply Z_of_byte_range. unfold Z_of_byte. by rewrite N2Z.id, Byte.of_to_N.
Qed.
Lemma Z_of_byte_of_Z z : Z_of_byte (byte_of_Z z) = z mod 256.
Proof.
  unfold byte_of_Z. pose proof (Z.mod_pos_bound z 256 ltac:(lia)) as Hb.
  destruct (Byte.of_N (Z.to_N (z mod 256))) as [b|] eqn:E; simpl.
  - apply Byte.to_of_N in E. unfold Z_of_byte. rewrite E. lia.
  - apply Byte.of_N_None_iff in E. lia.
Qed.
Lemma to_le_length n v : length (to_le n v) = n.
Proof. revert v; induction n as [|n IH]; intros v; simpl; [done|]. by rewrite IH. Qed.
Lemma from_le_range bs : 0 <= from_le bs < 256 ^ Z.of_nat (length bs).
Proof.
  induction bs as [|b bs IH]; simpl length; [simpl; lia|]. rewrite Nat2Z.inj_succ, Z.pow_succ_r by lia. simpl from_le.
  pose proof (Z_of_byte_range b). lia.
Qed.
Lemma from_to_le n v : 0 <= v < 256 ^ Z.of_nat n -> from_le (to_le n v) = v.
Proof.
  revert v; induction n as [|n IH]; intros v Hv; [simpl in *; lia|]. simpl. rewrite Z_of_byte_of_Z.
  rewrite Nat2Z.inj_succ, Z.pow_succ_r in Hv by lia. rewrite IH.
  - pose proof (Z.div_mod v 256). lia.
  - split; [apply Z.div_pos; lia|apply Z.div_lt_upper_bound; lia].
Qed.
Lemma to_from_le bs : to_le (length bs) (from_le bs) = bs.
Proof.
  induction bs as [|b bs IH]; simpl; [done|]. pose proof (Z_of_byte_range b). f_equal.
  - unfold byte_of_Z. replace ((Z_of_byte b + 256 * from_le bs) mod 256) with (Z_of_byte b mod 256); [apply byte_of_Z_of_byte|].
    rewrite (Z.mul_comm 256). by rewrite Z_mod_plus_full.
  - rewrite (Z.mul_comm 256), Z_div_plus_full by lia. rewrite Z.div_small by lia. exact IH.
Qed.

#[global] Arguments to_le : simpl never.

(** ** Sources without I/O errors *)
Definition clean_event (r : ReadEvent) : Prop := match r with RdData bs => bs <> [] | RdInterrupted => True | _ => False end.
Definition clean (src : Source) : Prop := Forall clean_event src.
Definition contents (src : Source) : bytes := concat ((fun r => match r with RdData bs => bs | _ => [] end) <$> src).

Lemma read_some_clean want src : clean src -> (0 < want)%nat -> exists bs src',
  read_some want src = (Ok bs, src') /\ clean src' /\ contents src = bs ++ contents src' /\ (length bs <= want)%nat /\
  (bs = [] -> contents src = []) /\ (source_size src' + length bs <= source_size src)%nat.
Proof.
  intros Hc Hw. induction Hc as [|[bs| |kind|] src Hr Hc IH]; simpl in *; try done.
  - exists [], []. split_and!; simpl; (done || constructor || lia).
  - destruct (Nat.ltb_spec want (length bs)).
    + exists (take want bs), (RdData (drop want bs) :: src). split_and!.
      * done.
      * constructor; [|done]. simpl. intros E. apply (f_equal length) in E. rewrite length_drop in E. simpl in E. lia.
      * unfold contents. simpl. rewrite app_assoc, take_drop. done.
      * rewrite length_take. lia.
      * intros E. apply (f_equal length) in E. rewrite length_take in E. simpl in E. lia.
      * simpl. rewrite length_drop, length_take. unfold source_size. lia.
    + exists (take want bs), src. rewrite take_ge by lia. split_and!; try done.
      unfold source_size. simpl. lia.
  - destruct IH as (bs & src' & -> & H1 & H2 & H3 & H4 & H5). exists bs, src'. split_and!; try done. unfold source_size in *. simpl. lia.
Qed.
Lemma read_exactly_loop_clean fuel want src : clean src -> (want <= fuel)%nat ->
  if (want <=? length (contents src))%nat
  then exists src', read_exactly_loop fuel want src = (Ok (take want (contents src)), src') /\ clean src' /\
         contents src' = drop want (contents src) /\ (source_size src' + want <= source_size src)%nat
  else exists src', read_exactly_loop fuel want src = (Err FeTruncated, src').
Proof.
  revert want src; induction fuel as [|fuel IH]; intros want src Hc Hf.
  - assert (want = 0%nat) as -> by lia. simpl. exists src. rewrite drop_0. split_and!; done || lia.
  - destruct want as [|want]; [exists src; simpl; rewrite drop_0; split_and!; done || lia|]. cbn [read_exactly_loop].
    destruct (read_some_clean (S want) src Hc ltac:(lia)) as (bs & src1 & -> & Hc1 & Hcon & Hlen & Hnil & Hsz).
    destruct bs as [|b bs].
    + rewrite (Hnil eq_refl). simpl. eauto.
    + specialize (IH (S want - length (b :: bs))%nat src1 Hc1 ltac:(simpl; lia)). rewrite Hcon, length_app.
      destruct (Nat.leb_spec (S want) (length (b :: bs) + length (contents src1))).
      * destruct (Nat.leb_spec (S want - length (b :: bs)) (length (contents src1))); [|lia].
        destruct IH as (src2 & -> & Hc2 & Hd & Hs2). exists src2. rewrite take_app_ge, drop_app_ge by lia. split_and!; try done. lia.
      * destruct (Nat.leb_spec (S want - length (b :: bs)) (length (contents src1))); [lia|].
        destruct IH as (src2 & ->). eauto.
Qed.

(** ** Two-way specifications of decoder steps *)
Definition Spec (A : Type) : Type := DecoderState -> bytes -> A -> DecoderState -> bytes -> Prop.
(** [exact m R]: over a clean source, [m] succeeds exactly as [R] says. *)
Definition exact {A} (m : FM Decoder A) (R : Spec A) : Prop := forall d src, clean src ->
  (forall a d' src', m (d, src) = (Ok a, (d', src')) -> clean src' /\ R d (contents src) a d' (contents src')) /\
  (forall a d' c', R d (contents src) a d' c' -> exists src', m (d, src) = (Ok a, (d', src')) /\ clean src' /\ contents src' = c').

Lemma exact_iff {A} (m : FM Decoder A) (R R' : Spec A) : (forall d c a d' c', R d c a d' c' <-> R' d c a d' c') -> exact m R -> exact m R'.
Proof.
  intros HR Hm d src Hc. destruct (Hm d src Hc) as [H1 H2]. split.
  - intros a d' src' E. destruct (H1 _ _ _ E). split; [done|by apply HR].
  - intros a d' c' HR'. by apply H2, HR.
Qed.
Lemma exact_ret {A} (a : A) : exact (fret a) (fun d c x d' c' => x = a /\ d' = d /\ c' = c).
Proof. intros d src Hc. split; [intros ? ? ? [= <- <- <-]; done|]. intros ? ? ? (-> & -> & ->). by exists src. Qed.
Lemma exact_refuse {A} e : exact (frefuse e : FM Decoder A) (fun _ _ _ _ _ => False).
Proof. intros d src Hc. by split. Qed.
Lemma exact_lift {A} (r : result A FrameError) : exact (flift r) (fun d c x d' c' => r = Ok x /\ d' = d /\ c' = c).
Proof. intros d src Hc. split; [intros ? ? ? [= -> <- <-]; done|]. intros ? ? ? (-> & -> & ->). by exists src. Qed.
Lemma exact_require b e : exact (frequire b e) (fun d c _ d' c' => b = true /\ d' = d /\ c' = c).
Proof.
  intros d src Hc. destruct b; simpl.
  - split; [intros ? ? ? [= <- <- <-]; done|]. intros [] ? ? (_ & -> & ->). by exists src.
  - split; [done|]. by intros [] ? ? (? & _).
Qed.
Lemma exact_dget : exact dget (fun d c x d' c' => x = d /\ d' = d /\ c' = c).
Proof. intros d src Hc. split; [intros ? ? ? [= <- <- <-]; done|]. intros ? ? ? (-> & -> & ->). by exists src. Qed.
Lemma exact_dset f : exact (dset f) (fun d c _ d' c' => d' = f d /\ c' = c).
Proof. intros d src Hc. split; [intros ? ? ? [= <- <- <-]; done|]. intros [] ? ? (-> & ->). by exists src. Qed.
Lemma exact_bind {A B} (m : FM Decoder A) (k : A -> FM Decoder B) R1 R2 : exact m R1 -> (forall a, exact (k a) (R2 a)) ->
  exact (fbind m k) (fun d c b d' c' => exists a d1 c1, R1 d c a d1 c1 /\ R2 a d1 c1 b d' c').
Proof.
  intros Hm Hk d src Hc. destruct (Hm d src Hc) as [H1 H2]. unfold fbind. split.
  - intros b d' src' E. destruct (m (d, src)) as [[a|e] [d1 src1]] eqn:Em; [|done].
    destruct (H1 _ _ _ eq_refl) as [Hc1 HR1]. destruct (Hk a d1 src1 Hc1) as [H3 _]. destruct (H3 _ _ _ E). eauto 10.
  - intros b d' c' (a & d1 & c1 & HR1 & HR2). destruct (H2 _ _ _ HR1) as (src1 & -> & Hc1 & <-).
    destruct (Hk a d1 src1 Hc1) as [_ H4]. by apply H4.
Qed.
Lemma exact_read_exactly n : exact (dread (read_exactly n)) (fun d c bs d' c' => c = bs ++ c' /\ length bs = n /\ d' = d).
Proof.
  intros d src Hc. unfold dread, read_exactly. simpl. pose proof (read_exactly_loop_clean n n src Hc ltac:(lia)) as Hr.
  destruct (Nat.leb_spec n (length (contents src))) as [Hn|Hn].
  - destruct Hr as (src' & -> & Hc' & Hd & _). split.
    + intros bs d' src'' [= <- <- <-]. rewrite Hd, take_drop, length_take. split_and!; [done..|lia|done].
    + intros bs d' c' (E & Hl & ->). exists src'. rewrite Hd, E, <- Hl, take_app_length, drop_app_length. done.
  - destruct Hr as (src' & ->). split; [done|]. intros bs d' c' (E & Hl & ->). rewrite E, length_app in Hn. lia.
Qed.

(** ** Single reads *)
(** Bytes read into the frame and bytes admitted against the budget. *)
Definition adv (bs : bytes) (n : Z) (d : DecoderState) : DecoderState := set_frame (de_frame d ++ bs) (set_admitted (de_admitted d + n) d).
Lemma adv_twice bs n bs' n' d : adv bs' n' (adv bs n d) = adv (bs ++ bs') (n + n') d.
Proof. destruct d. unfold adv, set_frame, set_admitted. simpl. f_equal; [lia|by rewrite app_assoc]. Qed.
Lemma adv_none d : adv [] 0 d = d.
Proof. destruct d. unfold adv, set_frame, set_admitted. simpl. f_equal; [lia|by rewrite app_nil_r]. Qed.
Definition fits (n : Z) (d : DecoderState) : Prop := de_admitted d + n <= u64_max /\ de_admitted d + n <= de_record_limit d.

Lemma exact_frame_bytes n : exact (read_frame_bytes n) (fun d c bs d' c' => c = bs ++ c' /\ length bs = n /\ d' = adv bs 0 d).
Proof.
  eapply exact_iff; [|eapply exact_bind; [apply exact_read_exactly|intros bs; eapply exact_bind; [apply exact_dset|intros ?; apply exact_ret]]].
  intros d c bs d' c'. assert (set_frame (de_frame d ++ bs) d = adv bs 0 d) as E.
  { destruct d. unfold adv, set_frame, set_admitted. simpl. f_equal. lia. }
  split.
  - intros (bs' & d1 & c1 & (-> & Hl & ->) & ? & ? & ? & (-> & ->) & -> & -> & ->). done.
  - intros (-> & Hl & ->). exists bs, d, c'. split; [done|]. exists tt, (adv bs 0 d), c'. by rewrite E.
Qed.
Lemma exact_u8 : exact read_u8 (fun d c b d' c' => c = [b] ++ c' /\ d' = adv [b] 0 d).
Proof.
  eapply exact_iff; [|eapply exact_bind; [apply exact_frame_bytes|intros bs; apply exact_ret]].
  intros d c b d' c'. split.
  - intros (bs & d1 & c1 & (-> & Hl & ->) & -> & -> & ->). destruct bs as [|x [|y bs]]; done.
  - intros [-> ->]. exists [b]. eauto 10.
Qed.
Lemma exact_le n (k : Z) : k = 256 ^ Z.of_nat n -> exact (bs <~ read_frame_bytes n ;; fret (from_le bs))
  (fun d c v d' c' => 0 <= v < k /\ c = to_le n v ++ c' /\ d' = adv (to_le n v) 0 d).
Proof.
  intros ->. eapply exact_iff; [|eapply exact_bind; [apply exact_frame_bytes|intros bs; apply exact_ret]].
  intros d c v d' c'. split.
  - intros (bs & d1 & c1 & (-> & Hl & ->) & -> & -> & ->). rewrite <- Hl, to_from_le. split; [apply from_le_range|done].
  - intros (Hv & -> & ->). exists (to_le n v), (adv (to_le n v) 0 d), c'. rewrite to_le_length, from_to_le by done. done.
Qed.
Lemma exact_u16 : exact read_u16 (fun d c v d' c' => 0 <= v < 65536 /\ c = to_le 2 v ++ c' /\ d' = adv (to_le 2 v) 0 d).
Proof. by apply exact_le. Qed.
Lemma exact_u64 : exact read_u64 (fun d c v d' c' => 0 <= v < 18446744073709551616 /\ c = to_le 8 v ++ c' /\ d' = adv (to_le 8 v) 0 d).
Proof. by apply exact_le. Qed.
(** Admission against the budget, which is below the range of [u64]. *)
Lemma exact_admit n : exact (dec_admit n) (fun d c _ d' c' => fits n d /\ d' = adv [] n d /\ c' = c).
Proof.
  eapply exact_iff; [|eapply exact_bind; [apply exact_dget|intros x; eapply exact_bind; [apply exact_lift|intros e; eapply exact_bind; [apply exact_require|intros ?; apply exact_dset]]]].
  intros d c a d' c'. unfold checked_add, fits. assert (set_admitted (de_admitted d + n) d = adv [] n d) as E.
  { destruct d. unfold adv, set_frame, set_admitted. simpl. f_equal. by rewrite app_nil_r. }
  split.
  - intros (? & ? & ? & (-> & -> & ->) & e & ? & ? & (He & -> & ->) & [] & ? & ? & (Hl & -> & ->) & -> & ->).
    destruct (Z.leb_spec (de_admitted d + n) u64_max); simpl in He; [|done]. simplify_eq. apply Z.leb_le in Hl. auto.
  - intros ([H1 H2] & -> & ->). exists d, d, c. split; [done|]. exists (de_admitted d + n), d, c.
    destruct (Z.leb_spec (de_admitted d + n) u64_max); [|lia]. split; [done|]. exists tt, d, c. rewrite Z.leb_le, E. auto.
Qed.

(** Specify a program by its steps; the specification is then simplified by hand. *)
Ltac exact_leaf := first
  [eapply exact_ret | eapply exact_refuse | eapply exact_lift | eapply exact_require | eapply exact_dget | eapply exact_dset
  | eapply exact_read_exactly | eapply exact_frame_bytes | eapply exact_u8 | eapply exact_u16 | eapply exact_u64 | eapply exact_admit].
Ltac exact_steps := repeat (eapply exact_bind; [exact_leaf|intros ?]); try exact_leaf.
(** Take the states and bytes a step leaves from the equations that determine them. *)
Ltac spec_split := repeat match goal with
  | H : exists _, _ |- _ => destruct H
  | H : _ /\ _ |- _ => destruct H
  end; subst.
Ltac spec_step := first [exists tt | eexists]; eexists _, _; split; [split_and!; try match goal with |- _ = _ => reflexivity end; try done|].

Lemma fits_zero bs d n : fits n (adv bs 0 d) <-> fits n d.
Proof. unfold fits. simpl. by rewrite Z.add_0_r. Qed.
Lemma fits_twice bs m d n : 0 <= n -> fits m d /\ fits n (adv bs m d) <-> fits (m + n) d.
Proof. unfold fits. simpl. lia. Qed.
Lemma zlen_nonneg b : 0 <= zlen b.
Proof. unfold zlen. lia. Qed.
Lemma zlen_to_nat b : Z.to_nat (zlen b) = length b.
Proof. unfold zlen. lia. Qed.
#[local] Hint Resolve zlen_nonneg : core.

Lemma path_from_bytes_ok a p : path_from_bytes a = Ok p <-> p = a /\ path_valid a.
Proof.
  unfold path_valid, path_from_bytes. destruct (negb _); [naive_solver|].
  destruct (validate_components (split_path a)); simpl; naive_solver.
Qed.
Lemma path_valid_length p : path_valid p -> path_length_admitted (length p) = true /\ 0 <= zlen p < 65536.
Proof.
  unfold path_valid, path_from_bytes. destruct (path_length_admitted (length p)) eqn:E; [|done]. intros _. split; [done|].
  apply Nat.leb_le in E. unfold MAX_PATH_BYTES in E. unfold zlen. lia.
Qed.
Lemma fits_le m n d : 0 <= m <= n -> fits n d -> fits m d.
Proof. unfold fits. lia. Qed.
Lemma fits_adv bs m n d : fits n (adv bs m d) <-> fits (m + n) d.
Proof. unfold fits. simpl. by rewrite Z.add_assoc. Qed.

Ltac spec_simp := rewrite ?adv_twice, ?fits_adv, ?app_nil_l, ?app_nil_r, ?Z.add_0_r, <- ?app_assoc in *; simpl app in *.

Lemma exact_path : exact read_path (fun d c p d' c' => path_valid p /\ fits (2 + zlen p) d /\
  c = to_le 2 (zlen p) ++ p ++ c' /\ d' = adv (to_le 2 (zlen p) ++ p) (2 + zlen p) d).
Proof.
  eapply exact_iff; [|unfold read_path; exact_steps]. intros d c p d' c'. split.
  - intros ([] & ? & ? & (_ & -> & ->) & n & ? & ? & (Hn & -> & ->) & [] & ? & ? & (_ & -> & ->) & [] & ? & ? & (Hf & -> & ->) &
      bs & ? & ? & (-> & Hl & ->) & [-> Hv]%path_from_bytes_ok & -> & ->).
    assert (n = zlen bs) as -> by (unfold zlen; lia). spec_simp. done.
  - intros (Hv & Hf & -> & ->). pose proof (path_valid_length p Hv) as [Hl Hz]. pose proof (zlen_nonneg p).
    spec_step; [by eapply fits_le; [|done]; lia..|]. spec_step; [lia..|].
    spec_step; [by rewrite zlen_to_nat..|]. spec_step; [by spec_simp..|].
    spec_step; [by rewrite zlen_to_nat..|]. rewrite path_from_bytes_ok. spec_simp. done.
Qed.

(** ** The header *)
Lemma class_codes b c : class_from_code b = Ok c <-> class_code c = Ok b.
Proof. split; [by destruct b; intros [= <-]|by destruct c; intros [= <-]]. Qed.
Definition header_ok (h : FrameHeader) : Prop :=
  class_code (hd_class h) = Ok (hd_code h) /\ generation_length_admitted (zlen (hd_generation h)) = true /\ utf8_valid (hd_generation h) = true.
Definition header_bytes (h : FrameHeader) : bytes :=
  MAGIC ++ [VERSION] ++ [hd_code h] ++ to_le 2 (zlen (hd_generation h)) ++ hd_generation h.
Lemma header_size h : zlen (header_bytes h) = HEADER_FIXED_BYTES + zlen (hd_generation h).
Proof.
  unfold header_bytes, zlen, HEADER_FIXED_BYTES. rewrite !length_app, to_le_length. change (length MAGIC) with 8%nat. simpl length. lia.
Qed.
Lemma exact_header h : header_ok h -> exact (read_header h) (fun d c _ d' c' =>
  fits (zlen (header_bytes h)) d /\ c = header_bytes h ++ c' /\ d' = adv (header_bytes h) (zlen (header_bytes h)) d).
Proof.
  intros (Hcode & Hgen & Hutf). rewrite header_size. pose proof (zlen_nonneg (hd_generation h)).
  assert (zlen (hd_generation h) <= 1024) by (apply andb_true_iff in Hgen as [_ Hgen%Z.leb_le]; exact Hgen).
  eapply exact_iff; [|unfold read_header; exact_steps]. intros d c [] d' c'. split.
  - intros ([] & ? & ? & (_ & -> & ->) & magic & ? & ? & (-> & _ & ->) & [] & ? & ? & (->%bool_decide_eq_true & -> & ->) &
      v & ? & ? & (-> & ->) & [] & ? & ? & (->%Byte.byte_dec_bl & -> & ->) & code & ? & ? & (-> & ->) &
      class & ? & ? & (Hc%class_codes & -> & ->) & [] & ? & ? & (->%bool_decide_eq_true & -> & ->) &
      n & ? & ? & (Hn & -> & ->) & [] & ? & ? & (_ & -> & ->) & [] & ? & ? & (Hf & -> & ->) & g & ? & ? & (-> & Hl & ->) &
      [] & ? & ? & (_ & -> & ->) & ->%bool_decide_eq_true & -> & ->).
    rewrite Hcode in Hc. injection Hc as <-. assert (n = zlen (hd_generation h)) as -> by (unfold zlen; lia).
    unfold header_bytes. spec_simp. done.
  - intros (Hf & -> & ->). unfold header_bytes. rewrite <- !app_assoc. spec_step; [eapply fits_le; [|done]; unfold HEADER_FIXED_BYTES; lia..|].
    spec_step. spec_step; [by rewrite bool_decide_eq_true..|]. spec_step. spec_step. spec_step.
    spec_step; [by apply class_codes..|]. spec_step; [by rewrite bool_decide_eq_true..|]. spec_step; [lia..|]. spec_step.
    spec_step; [by spec_simp..|]. spec_step; [by rewrite zlen_to_nat..|]. spec_step. rewrite bool_decide_eq_true. spec_simp. done.
Qed.

(** ** Entries *)
Lemma exact_order p dir : exact (dec_order p dir) (fun d c _ d' c' =>
  exists o, order_admit p dir (de_order d) = Ok o /\ d' = set_de_order o d /\ c' = c).
Proof.
  eapply exact_iff; [|unfold dec_order; exact_steps]. intros d c [] d' c'. split; [naive_solver|].
  intros (o & Ho & -> & ->). spec_step. spec_step; [exact Ho..|]. done.
Qed.
Definition rec_path (r : FrameRecord) : bytes := match r with RecDirectory p _ | RecRegular p _ _ | RecSymlink p _ => p end.
Definition rec_is_dir (r : FrameRecord) : bool := match r with RecDirectory _ _ => true | _ => false end.
Definition rec_tag (r : FrameRecord) : byte :=
  match r with RecDirectory _ _ => TAG_DIRECTORY | RecRegular _ _ _ => TAG_REGULAR | RecSymlink _ _ => TAG_SYMLINK end.
(** The fields after the path that are read with the record, and the bytes they admit. *)
Definition rec_fields (r : FrameRecord) : bytes :=
  match r with
  | RecDirectory _ m => to_le 2 m
  | RecRegular _ m n => to_le 2 m ++ to_le 8 n
  | RecSymlink _ t => to_le 2 (zlen t) ++ t
  end.
Definition rec_size (r : FrameRecord) : Z :=
  match r with RecDirectory _ _ => 2 | RecRegular _ _ n => 10 + (n + DIGEST_BYTES) | RecSymlink _ t => 2 + zlen t end.
Definition rec_fields_ok (r : FrameRecord) : Prop :=
  match r with
  | RecDirectory _ m => 0 <= m <= PERMISSION_BITS
  | RecRegular _ m n => 0 <= m <= PERMISSION_BITS /\ 0 <= n
  | RecSymlink _ t => validate_symlink_target t = Ok tt
  end.
(** The content a regular file leaves to read. *)
Definition expect_content (r : FrameRecord) (d : DecoderState) : DecoderState :=
  match r with RecRegular _ _ n => set_content (de_content_bytes d + n) (Some (mkPendingContent n [])) d | _ => d end.
Definition content_fits (r : FrameRecord) (d : DecoderState) : Prop :=
  match r with RecRegular _ _ n => n + DIGEST_BYTES <= u64_max /\ de_content_bytes d + n <= u64_max | _ => True end.
Definition body_spec (make : FrameRecord -> Prop) : Spec FrameRecord := fun d c r d' c' =>
  make r /\ rec_fields_ok r /\ fits (rec_size r) d /\ content_fits r d /\ c = rec_fields r ++ c' /\
  d' = expect_content r (adv (rec_fields r) (rec_size r) d).

Lemma decode_mode_ok n m : decode_mode n = Ok m <-> m = n /\ n <= PERMISSION_BITS.
Proof. unfold decode_mode. destruct (Z.ltb_spec PERMISSION_BITS n); split; [done|intros []; lia|by intros [= <-]|by intros [-> _]]. Qed.
Lemma exact_directory p : exact (read_directory p) (body_spec (fun r => exists m, r = RecDirectory p m)).
Proof.
  eapply exact_iff; [|unfold read_directory; exact_steps]. unfold body_spec. intros d c r d' c'. split.
  - intros ([] & ? & ? & (Hf & -> & ->) & n & ? & ? & (Hn & -> & ->) & m & ? & ? & ([-> Hm]%decode_mode_ok & -> & ->) & -> & -> & ->).
    spec_simp. split_and!; [eauto|simpl; lia|done..].
  - intros ([m ->] & Hm & Hf & _ & -> & ->). simpl in *. unfold PERMISSION_BITS in *. spec_step. spec_step; [lia..|].
    spec_step; [apply decode_mode_ok; unfold PERMISSION_BITS; split; [done|lia]..|]. spec_simp. done.
Qed.
Lemma symlink_length t : validate_symlink_target t = Ok tt -> symlink_target_length_admitted (zlen t) = true /\ zlen t <= 4095.
Proof.
  unfold validate_symlink_target. destruct (symlink_target_length_admitted (zlen t)) eqn:E; [|done]. intros _. split; [done|].
  by apply andb_true_iff in E as [_ E%Z.leb_le].
Qed.
Lemma exact_symlink p : exact (read_symlink p) (body_spec (fun r => exists t, r = RecSymlink p t)).
Proof.
  eapply exact_iff; [|unfold read_symlink; exact_steps]. unfold body_spec. intros d c r d' c'. split.
  - intros ([] & ? & ? & (_ & -> & ->) & n & ? & ? & (Hn & -> & ->) & [] & ? & ? & (_ & -> & ->) & [] & ? & ? & (Hf & -> & ->) &
      t & ? & ? & (-> & Hl & ->) & [] & ? & ? & (Hv & -> & ->) & -> & -> & ->).
    assert (n = zlen t) as -> by (unfold zlen; lia). spec_simp. split_and!; [eauto|done..].
  - intros ([t ->] & Hv & Hf & _ & -> & ->). simpl in *. pose proof (symlink_length t Hv) as [Hl Hz]. pose proof (zlen_nonneg t).
    rewrite <- ?app_assoc. spec_step; [by eapply fits_le; [|done]; lia..|]. spec_step; [lia..|]. spec_step. spec_step; [by spec_simp..|].
    spec_step; [by rewrite zlen_to_nat..|]. spec_step. spec_simp. done.
Qed.
Lemma exact_regular p : exact (read_regular p) (body_spec (fun r => exists m n, r = RecRegular p m n)).
Proof.
  eapply exact_iff; [|unfold read_regular; exact_steps]. unfold body_spec. intros d c r d' c'. split.
  - intros ([] & ? & ? & (_ & -> & ->) & n & ? & ? & (Hn & -> & ->) & m & ? & ? & ([-> Hm]%decode_mode_ok & -> & ->) &
      len & ? & ? & (Hlen & -> & ->) & size & ? & ? & (Hsize & -> & ->) & [] & ? & ? & (Hf & -> & ->) & d1 & ? & ? & (-> & -> & ->) &
      total & ? & ? & (Htotal & -> & ->) & [] & ? & ? & (-> & ->) & -> & -> & ->).
    unfold checked_add in *. destruct (Z.leb_spec (len + DIGEST_BYTES) u64_max); [|done]. injection Hsize as <-.
    simpl in Htotal. destruct (Z.leb_spec (de_content_bytes d + len) u64_max) as [Hc|Hc]; [|done].
    injection Htotal as <-. spec_simp. split_and!; [eauto|simpl; lia|done|simpl; lia|done..].
  - intros ((m & n & ->) & [Hm Hn] & Hf & [Hc1 Hc2] & -> & ->). simpl in *. unfold PERMISSION_BITS, DIGEST_BYTES in *. rewrite <- ?app_assoc.
    spec_step; [by eapply fits_le; [|done]; lia..|]. spec_step; [lia..|]. spec_step; [apply decode_mode_ok; unfold PERMISSION_BITS; split; [done|lia]..|].
    spec_step; [unfold u64_max in *; lia..|]. spec_step; [unfold checked_add; destruct (Z.leb_spec (n + 32) u64_max); [done|lia]..|].
    spec_step; [by spec_simp..|]. spec_step.
    spec_step; [unfold checked_add; simpl; destruct (Z.leb_spec (de_content_bytes d + n) u64_max); [done|lia]..|]. spec_step. spec_simp. done.
Qed.

(** The bytes of a record after its tag up to its content, and the bytes the whole record admits. *)
Definition rec_rest (r : FrameRecord) : bytes := to_le 2 (zlen (rec_path r)) ++ rec_path r ++ rec_fields r.
Definition rec_head (r : FrameRecord) : bytes := rec_tag r :: rec_rest r.
Definition rec_total (r : FrameRecord) : Z := 1 + (2 + zlen (rec_path r)) + rec_size r.
(** The state after the bytes [bs] of the record [r]. *)
Definition opened (bs : bytes) (r : FrameRecord) (o : CanonicalOrder) (d : DecoderState) : DecoderState :=
  set_entries (de_entries d + 1) (expect_content r (set_de_order o (adv bs (rec_total r) d))).
Definition entry_ok (r : FrameRecord) (d : DecoderState) (o : CanonicalOrder) : Prop :=
  de_entries d < max_entries (de_budget d) /\ path_valid (rec_path r) /\ rec_fields_ok r /\ fits (rec_total r) d /\ content_fits r d /\
  order_admit (rec_path r) (rec_is_dir r) (de_order d) = Ok o.

Lemma rec_size_pos r : rec_fields_ok r -> 0 <= rec_size r.
Proof. destruct r; simpl; unfold DIGEST_BYTES; [lia|lia|]. pose proof (zlen_nonneg target). lia. Qed.
Lemma opened_steps x o d :
  let d1 := expect_content x (adv (rec_fields x) (rec_size x) (set_de_order o
    (adv (to_le 2 (zlen (rec_path x)) ++ rec_path x) (2 + zlen (rec_path x)) (adv [] 1 d)))) in
  set_entries (de_entries d1 + 1) d1 = opened (rec_rest x) x o d.
Proof.
  unfold opened, rec_rest, rec_total. simpl. rewrite adv_twice. destruct x, d; unfold expect_content, adv, set_entries, set_content, set_de_order, set_frame, set_admitted;
    cbn -[to_le Z.add]; f_equal; rewrite <- ?app_assoc; try done; lia.
Qed.
Lemma entry_fits x o d : 0 <= rec_size x -> 0 <= zlen (rec_path x) ->
  fits (rec_total x) d <-> fits 1 d /\ fits (2 + zlen (rec_path x)) (adv [] 1 d) /\
    fits (rec_size x) (set_de_order o (adv (to_le 2 (zlen (rec_path x)) ++ rec_path x) (2 + zlen (rec_path x)) (adv [] 1 d))).
Proof. unfold fits, rec_total. cbn -[Z.add]. lia. Qed.
(** Reading an entry after its tag. *)
Lemma exact_entry dir body (make : bytes -> FrameRecord -> Prop) : (forall p, exact (body p) (body_spec (make p))) ->
  (forall p r, make p r -> rec_path r = p /\ rec_is_dir r = dir) ->
  exact (read_entry dir body) (fun d c r d' c' => exists x o, r = Some x /\ make (rec_path x) x /\ entry_ok x d o /\
    c = rec_rest x ++ c' /\ d' = opened (rec_rest x) x o d).
Proof.
  intros Hbody Hmake. eapply exact_iff.
  2: { unfold read_entry. eapply exact_bind; [exact_leaf|intros ?]. eapply exact_bind; [exact_leaf|intros ?].
       eapply exact_bind; [exact_leaf|intros ?]. eapply exact_bind; [apply exact_path|intros ?].
       eapply exact_bind; [apply exact_order|intros ?]. eapply exact_bind; [apply Hbody|intros ?]. exact_steps. }
  intros d c r d' c'. split.
  - intros (? & ? & ? & (-> & -> & ->) & [] & ? & ? & (Hent%Z.ltb_lt & -> & ->) & [] & ? & ? & (Hf0 & -> & ->) &
      p & ? & ? & (Hv & Hf1 & -> & ->) & [] & ? & ? & (o & Ho & -> & ->) & x & ? & ? & (Hx & Hok & Hf & Hcf & -> & ->) &
      [] & ? & ? & (-> & ->) & -> & -> & ->).
    destruct (Hmake _ _ Hx) as [<- <-]. pose proof (rec_size_pos x Hok). exists x, o. unfold entry_ok.
    assert (fits (rec_total x) d) by (apply (entry_fits x o d); auto). split_and!; try done; [|by apply opened_steps].
    unfold rec_rest. by rewrite <- !app_assoc.
  - intros (x & o & -> & Hx & (Hent & Hv & Hok & Hf & Hcf & Ho) & -> & ->). destruct (Hmake _ _ Hx) as [_ <-].
    pose proof (rec_size_pos x Hok). apply (entry_fits x o) in Hf as (Hf1 & Hf2 & Hf3); [|done..].
    unfold rec_rest. rewrite <- !app_assoc. spec_step. spec_step; [by apply Z.ltb_lt..|]. spec_step. spec_step; [done..|].
    exists tt. eexists _, _. split; [exists o; by split_and!|]. eexists x, _, _. split; [by split_and!|]. spec_step. by rewrite opened_steps.
Qed.
