(* ===== verification/FrameAccept.v ===== *)
(** * Frames and the decoder's language

    [frame_bytes] writes a frame down as a function of its entries, and [frame_valid]
    says which lists of entries are frames within a budget. The theorem of this file
    is that a decoding session accepts exactly these bytes, whatever the chunks of
    the source and the reads of the consumer. SHA-256 is the parameter of
    [CustodyFrame]; all that is used of it here is the length of a digest. *)
From Stdlib Require Import Strings.Byte.
From S2P Require Import Prelude Domain Framing FramePath CustodyFrame FrameDecode.
Open Scope Z_scope.
Open Scope bridge_scope.

(** An entry with the content of a regular file. *)
Definition Item : Type := FrameRecord * bytes.
Definition item_key (i : Item) : bytes * bool := (rec_path (fst i), rec_is_dir (fst i)).
Definition content_ok (i : Item) : Prop := match fst i with RecRegular _ _ n => zlen (snd i) = n | _ => snd i = [] end.
Definition item_ok (i : Item) : Prop := path_valid (rec_path (fst i)) /\ rec_fields_ok (fst i) /\ content_ok i.
Definition content_total (items : list Item) : Z := foldr (fun i n => zlen (snd i) + n) 0 items.

Section Frames.
Context (sha256 : bytes -> bytes).
Definition item_tail (i : Item) : bytes := match fst i with RecRegular _ _ _ => snd i ++ sha256 (snd i) | _ => [] end.
Definition item_bytes (i : Item) : bytes := rec_head (fst i) ++ item_tail i.
Definition body_bytes (h : FrameHeader) (items : list Item) : bytes := header_bytes h ++ concat (item_bytes <$> items).
Definition trailer_fields (entries content : Z) : bytes := TAG_TRAILER :: to_le 8 entries ++ to_le 8 content.
Definition signed_bytes (h : FrameHeader) (items : list Item) : bytes :=
  body_bytes h items ++ trailer_fields (Z.of_nat (length items)) (content_total items).
Definition frame_bytes (h : FrameHeader) (items : list Item) : bytes := signed_bytes h items ++ sha256 (signed_bytes h items).
(** The frames of a header within a budget. *)
Definition frame_valid (h : FrameHeader) (b : FrameBudget) (items : list Item) : Prop :=
  Forall item_ok items /\ canonical (item_key <$> items) /\ Z.of_nat (length items) <= max_entries b /\
  zlen (frame_bytes h items) <= max_frame_bytes b.

(** ** Pending content *)
Definition remaining (d : DecoderState) : Z := match de_pending d with Some p => pc_remaining p | None => 0 end.
(** The state after [bs] of the pending content. *)
Definition fed (bs : bytes) (d : DecoderState) : DecoderState :=
  match de_pending d with
  | None => d
  | Some p => set_frame (de_frame d ++ bs) (set_content (de_content_bytes d) (Some (mkPendingContent (pc_remaining p - zlen bs) (pc_content p ++ bs))) d)
  end.
Lemma fed_nil d : fed [] d = d.
Proof.
  destruct d as [? ? ? ? ? ? ? [[r c]|] ?]; unfold fed, set_frame, set_content; simpl; [|done].
  by rewrite !app_nil_r, Z.sub_0_r.
Qed.
Lemma fed_fed x y d : fed y (fed x d) = fed (x ++ y) d.
Proof.
  destruct d as [? ? ? ? ? ? ? [[r c]|] ?]; unfold fed, set_frame, set_content; simpl; [|done].
  rewrite <- !app_assoc. do 3 f_equal. unfold zlen. rewrite length_app. lia.
Qed.
Lemma remaining_fed x d : (length x <= Z.to_nat (remaining d))%nat -> Z.to_nat (remaining (fed x d)) = (Z.to_nat (remaining d) - length x)%nat.
Proof.
  destruct d as [? ? ? ? ? ? ? [[r c]|] ?]; unfold fed, remaining, set_frame, set_content; simpl; [unfold zlen; lia|].
  intros H. assert (length x = 0%nat) as -> by lia. done.
Qed.

Lemma read_content_spec cap d src : clean src ->
  match read_content_bytes cap (d, src) with
  | (Ok bs, (d', src')) => clean src' /\ contents src = bs ++ contents src' /\ d' = fed bs d /\
      (length bs <= Z.to_nat (remaining d))%nat /\ (bs = [] -> cap = 0%nat \/ remaining d <= 0)
  | (Err _, _) => 0 < remaining d /\ contents src = []
  end.
Proof.
  intros Hc. unfold read_content_bytes, fbind, dget, remaining. simpl.
  destruct (de_pending d) as [p|] eqn:Ep; simpl.
  2: { rewrite fed_nil. split_and!; try done. by right. }
  destruct (Nat.eqb_spec (chunk_length (pc_remaining p) cap) 0) as [Hw|Hw].
  { simpl. rewrite fed_nil. split_and!; try done; [lia|]. unfold chunk_length in Hw. lia. }
  unfold dread. simpl. destruct (read_some_clean (chunk_length (pc_remaining p) cap) src Hc ltac:(lia)) as (bs & src' & -> & Hc' & Hcon & Hl & Hnil & _).
  destruct bs as [|x bs]; simpl.
  - split; [unfold chunk_length in Hw; lia|by apply Hnil].
  - unfold fed. rewrite Ep. split_and!; try done. unfold chunk_length in Hl. simpl in Hl. lia.
Qed.

Lemma discard_loop_round fuel d src : discard_loop (S fuel) (d, src) =
  if 0 <? remaining d
  then match read_content_bytes CONTENT_BUFFER_BYTES (d, src) with (Ok _, s) => discard_loop fuel s | (Err e, s) => (Err e, s) end
  else (Ok tt, (d, src)).
Proof. cbn -[read_content_bytes]. unfold fbind, dget, remaining. simpl. destruct (de_pending d) as [p|]; simpl; [by destruct (0 <? pc_remaining p)|done]. Qed.
Lemma discard_loop_spec fuel d src : clean src -> (length (contents src) < fuel)%nat ->
  let n := Z.to_nat (remaining d) in
  if (n <=? length (contents src))%nat
  then exists src', discard_loop fuel (d, src) = (Ok tt, (fed (take n (contents src)) d, src')) /\ clean src' /\ contents src' = drop n (contents src)
  else exists e s, discard_loop fuel (d, src) = (Err e, s).
Proof.
  revert d src; induction fuel as [|fuel IH]; intros d src Hc Hf; [lia|]. cbn zeta.
  rewrite discard_loop_round. destruct (Z.ltb_spec 0 (remaining d)) as [Hr|Hr].
  2: { replace (Z.to_nat (remaining d)) with 0%nat by lia. exists src. simpl. by rewrite fed_nil, drop_0. }
  pose proof (read_content_spec CONTENT_BUFFER_BYTES d src Hc) as Hs.
  destruct (read_content_bytes CONTENT_BUFFER_BYTES (d, src)) as [[bs|e] [d1 src1]].
  - destruct Hs as (Hc1 & Hcon & -> & Hl & Hnil).
    assert (bs <> []) as Hbs by (intros ->; destruct (Hnil eq_refl) as [Hx|]; [|lia]; unfold CONTENT_BUFFER_BYTES in Hx; lia).
    assert (0 < length bs)%nat by (destruct bs; [done|simpl; lia]). rewrite Hcon, length_app in *.
    specialize (IH (fed bs d) src1 Hc1 ltac:(lia)). cbn zeta in IH. rewrite remaining_fed in IH by done.
    destruct (Nat.leb_spec (Z.to_nat (remaining d) - length bs) (length (contents src1)));
      destruct (Nat.leb_spec (Z.to_nat (remaining d)) (length bs + length (contents src1))); try lia; [|exact IH].
    destruct IH as (src' & -> & Hc' & Hd). exists src'. rewrite fed_fed, take_app_ge, drop_app_ge by lia. done.
  - destruct Hs as [_ ->]. simpl. destruct (Nat.leb_spec (Z.to_nat (remaining d)) 0); [lia|]. eauto.
Qed.
Lemma source_size_contents src : (length (contents src) <= source_size src)%nat.
Proof. induction src as [|[bs| | |] src IH]; unfold contents, source_size in *; simpl in *; rewrite ?length_app; unfold fmap, list_fmap in *; lia. Qed.
Lemma exact_discard : exact discard_content (fun d c _ d' c' => exists x, length x = Z.to_nat (remaining d) /\ c = x ++ c' /\ d' = fed x d).
Proof.
  intros d src Hc. change (discard_content (d, src)) with (discard_loop (S (source_size src)) (d, src)). pose proof (source_size_contents src).
  pose proof (discard_loop_spec (S (source_size src)) d src Hc ltac:(lia)) as Hs. cbn zeta in Hs.
  destruct (Nat.leb_spec (Z.to_nat (remaining d)) (length (contents src))) as [Hn|Hn].
  - destruct Hs as (src' & -> & Hc' & Hd). split.
    + intros [] d' src'' [= <- <-]. split; [done|]. exists (take (Z.to_nat (remaining d)) (contents src)).
      rewrite Hd, take_drop, length_take. split_and!; [lia|done..].
    + intros [] d' c' (x & Hl & E & ->). exists src'. by rewrite Hd, E, <- Hl, take_app_length, drop_app_length.
  - destruct Hs as (e & s & ->). split; [done|]. intros a d' c' (x & Hl & E & _). rewrite E, length_app in Hn. lia.
Qed.

Context (sha_len : forall bs, length (sha256 bs) = 32%nat).

Lemma exact_finish : exact (finish_content sha256) (fun d c _ d' c' =>
  match de_pending d with
  | None => d' = d /\ c' = c
  | Some p => c = sha256 (pc_content p) ++ c' /\ d' = set_content (de_content_bytes d) None (adv (sha256 (pc_content p)) 0 d)
  end).
Proof.
  eapply exact_iff; [|unfold finish_content; eapply (exact_bind _ _ _ (fun a => match de_pending a with
    | None => fun d c _ d' c' => d' = d /\ c' = c
    | Some p => fun d c _ d' c' => c = sha256 (pc_content p) ++ c' /\ d' = set_content (de_content_bytes d) None (adv (sha256 (pc_content p)) 0 d)
    end)); [apply exact_dget|intros a]].
  - intros d c [] d' c'. split; [intros (a & ? & ? & (-> & -> & ->) & H); by destruct (de_pending d)|].
    intros H. exists d, d, c. split; [done|]. by destruct (de_pending d).
  - destruct (de_pending a) as [p|].
    + eapply exact_iff; [|exact_steps]. intros d c [] d' c'. split.
      * intros ([] & ? & ? & (-> & ->) & stored & ? & ? & (-> & _ & ->) & <-%bool_decide_eq_true & -> & ->). done.
      * intros (-> & ->). spec_step. spec_step; [done..|]. by rewrite bool_decide_eq_true.
    + eapply exact_iff; [|apply exact_ret]. intros d c [] d' c'. tauto.
Qed.

(** [settled d c y d' c']: of the bytes [c] to come, [y] is what is left of the pending content, and with its
    digest checked the decoder is in [d'] before [c']. *)
Definition settled (d : DecoderState) (c y : bytes) (d' : DecoderState) (c' : bytes) : Prop :=
  match de_pending d with
  | None => y = [] /\ d' = d /\ c' = c
  | Some p => length y = Z.to_nat (pc_remaining p) /\ c = y ++ sha256 (pc_content p ++ y) ++ c' /\
      d' = set_content (de_content_bytes d) None (adv (y ++ sha256 (pc_content p ++ y)) 0 d)
  end.
Lemma exact_drain : exact (drain_pending sha256) (fun d c _ d' c' => exists y, settled d c y d' c').
Proof.
  eapply exact_iff; [|unfold drain_pending; eapply exact_bind; [apply exact_discard|intros ?; apply exact_finish]].
  intros d c [] d' c'. unfold settled, remaining, fed. split.
  - intros ([] & ? & ? & (x & Hl & -> & ->) & H). exists x. destruct (de_pending d) as [p|] eqn:Ep.
    + simpl in H. destruct H as [-> ->]. split_and!; try done. unfold set_content, adv, set_frame, set_admitted. simpl. by rewrite app_assoc.
    + rewrite Ep in H. destruct H as [-> ->]. by destruct x.
  - intros (y & H). exists tt. destruct (de_pending d) as [p|] eqn:Ep.
    + destruct H as (Hl & -> & ->). eexists _, _. split; [by exists y|]. simpl. split; [done|].
      unfold set_content, adv, set_frame, set_admitted. simpl. by rewrite app_assoc.
    + destruct H as (-> & -> & ->). exists d, c. split; [by exists []|]. by rewrite Ep.
Qed.
Lemma settled_fed bs d c y d' c' : (length bs <= Z.to_nat (remaining d))%nat ->
  settled d (bs ++ c) y d' c' <-> exists y', y = bs ++ y' /\ settled (fed bs d) c y' d' c'.
Proof.
  unfold settled, remaining, fed. destruct (de_pending d) as [p|] eqn:Ep; simpl; intros Hb.
  - split.
    + intros (Hl & E & ->). assert (y = bs ++ drop (length bs) y) as Ey.
      { rewrite <- (take_drop (length bs) y) at 1. f_equal. apply (f_equal (take (length bs))) in E.
        by rewrite take_app_length, take_app_le in E by lia. }
      exists (drop (length bs) y). split; [done|]. rewrite Ey in E at 1. rewrite <- app_assoc in E. apply app_inv_head in E. rewrite <- app_assoc, <- Ey.
      split_and!; [rewrite length_drop; unfold zlen; lia|done|].
      unfold set_content, adv, set_frame, set_admitted. simpl. by rewrite <- app_assoc, (app_assoc bs), <- Ey.
    + intros (y' & -> & Hl & -> & ->). rewrite <- !app_assoc. unfold zlen in Hl. split_and!; [rewrite length_app; lia|done|].
      unfold set_content, adv, set_frame, set_admitted. simpl. by rewrite <- !app_assoc.
  - destruct bs; [|simpl in *; lia]. simpl. rewrite Ep. split; [intros (-> & -> & ->); eauto|intros (? & -> & -> & -> & ->); done].
Qed.

(** ** Consumer reads *)
Definition read_outcome (d : DecoderState) (c : bytes) (P : bytes -> bytes -> Prop) (r : result bytes FrameError * Decoder) : Prop :=
  match r with
  | (Ok bs, (d', src')) => clean src' /\ de_phase d' = de_phase d /\ (length (contents src') <= length c)%nat /\
      (forall y d2 c2, settled d c y d2 c2 <-> exists y', y = bs ++ y' /\ settled d' (contents src') y' d2 c2) /\
      (forall y d2 c2, settled d c y d2 c2 -> P bs y)
  | (Err _, _) => forall y d2 c2, ~ settled d c y d2 c2
  end.
Lemma phase_fed bs d : de_phase (fed bs d) = de_phase d.
Proof. unfold fed. by destruct (de_pending d). Qed.
Lemma read_yielded_spec n d src : clean src ->
  read_outcome d (contents src) (fun bs y => n <> 0%nat -> bs = [] -> y = []) (read_yielded_content sha256 n (d, src)).
Proof.
  intros Hc. unfold read_yielded_content, fbind at 1. pose proof (read_content_spec n d src Hc) as Hs.
  destruct (read_content_bytes n (d, src)) as [[bs|e] [d1 src1]].
  2: { destruct Hs as [Hr Hnil]. unfold remaining in Hr. simpl. intros y d2 c2. unfold settled. destruct (de_pending d); [|done].
       rewrite Hnil. intros (Hl & E & _). destruct y; [simpl in Hl; lia|done]. }
  destruct Hs as (Hc1 & Hcon & -> & Hl & Hnil). unfold fbind at 1, dget. cbn [fst].
  assert (forall y d2 c2, settled d (contents src) y d2 c2 -> n <> 0%nat -> bs = [] -> y = []) as Hdone.
  { intros y d2 c2 Hy Hn Hbs. destruct (Hnil Hbs) as [|Hr]; [done|]. unfold remaining in Hr. unfold settled in Hy.
    destruct (de_pending d); [|by destruct Hy]. destruct Hy as [Hy _]. apply nil_length_inv. lia. }
  rewrite Hcon in *. set (guard := match de_pending (fed bs d) with Some p => _ | None => _ end). destruct guard eqn:Eg; subst guard.
  - destruct (de_pending (fed bs d)) as [p|] eqn:Ep; [|done]. apply Z.eqb_eq in Eg.
    assert (forall y d2 c2, settled d (bs ++ contents src1) y d2 c2 <-> exists y', y = bs ++ y' /\ y' = [] /\
      contents src1 = sha256 (pc_content p) ++ c2 /\ d2 = set_content (de_content_bytes (fed bs d)) None (adv (sha256 (pc_content p)) 0 (fed bs d))) as Hset.
    { intros y d2 c2. rewrite settled_fed by done. unfold settled. rewrite Ep, Eg. split.
      - intros (y' & -> & Hy & -> & ->). destruct y'; [|done]. exists []. by rewrite !app_nil_r.
      - intros (y' & -> & -> & E & ->). exists []. by rewrite !app_nil_r, E. }
    destruct (exact_finish (fed bs d) src1 Hc1) as [F1 F2]. unfold fbind at 1. rewrite Ep in F1, F2.
    destruct (finish_content sha256 (fed bs d, src1)) as [[[]|e] [d2 src2]] eqn:Ef; simpl.
    + destruct (F1 _ _ _ eq_refl) as (Hc2 & E & ->). split_and!; [done|by rewrite <- (phase_fed bs d)| | |exact Hdone].
      * rewrite E, !length_app. lia.
      * intros y d3 c3. rewrite Hset. rewrite E. unfold settled. simpl. split.
        -- intros (y' & -> & -> & Hy & ->). apply app_inv_head in Hy. eauto 10.
        -- intros (y' & -> & -> & -> & ->). eauto 10.
    + intros y d3 c3 (y' & _ & _ & Hy & Hd)%Hset. edestruct (F2 tt _ c3 (conj Hy Hd)) as (? & E & _). done.
  - simpl. split_and!; [done|apply phase_fed|rewrite length_app; lia| |exact Hdone]. intros y d2 c2. by apply settled_fed.
Qed.
Lemma consumer_read_spec n d src : clean src -> de_phase d <> DpPoisoned ->
  read_outcome d (contents src) (fun bs y => n <> 0%nat -> bs = [] -> y = []) (consumer_read sha256 n (d, src)).
Proof.
  intros Hc Hph. pose proof (read_yielded_spec n d src Hc) as Hs. unfold consumer_read. simpl.
  destruct (de_phase d) eqn:Ep; try done; destruct (read_yielded_content sha256 n (d, src)) as [[bs|e] [d1 src1]]; done.
Qed.
(** Enough reads of the content give all of it. *)
Definition enough (sizes : list nat) (y : bytes) : Prop := Forall (fun n => n <> 0%nat) sizes /\ (length y <= length sizes)%nat.
Lemma consume_spec sizes d src : clean src -> de_phase d <> DpPoisoned ->
  read_outcome d (contents src) (fun bs y => enough sizes y -> bs = y) (consume sha256 sizes (d, src)).
Proof.
  revert d src; induction sizes as [|n sizes IH]; intros d src Hc Hph; simpl.
  - split_and!; [done..| |].
    + intros y d2 c2. split; [by exists y|by intros (? & -> & ?)].
    + intros y d2 c2 _ [_ Hl]. symmetry. apply nil_length_inv. simpl in Hl. lia.
  - unfold fbind at 1. pose proof (consumer_read_spec n d src Hc Hph) as Hs. destruct (consumer_read sha256 n (d, src)) as [[bs|e] [d1 src1]]; [|done].
    destruct Hs as (Hc1 & Hp1 & Hl1 & Hs1 & Hb1). specialize (IH d1 src1 Hc1 ltac:(by rewrite Hp1)). unfold fbind.
    destruct (consume sha256 sizes (d1, src1)) as [[rest|e] [d2 src2]]; simpl in IH |- *; [|intros y d3 c3 (y' & _ & Hy)%Hs1; by eapply IH].
    destruct IH as (Hc2 & Hp2 & Hl2 & Hs2 & Hb2). split_and!; [done|by rewrite Hp2|lia| |].
    + intros y d3 c3. rewrite Hs1. setoid_rewrite Hs2. split.
      * intros (y' & -> & y'' & -> & H). exists y''. by rewrite <- app_assoc.
      * intros (y'' & -> & H). exists (rest ++ y''). rewrite <- app_assoc. eauto.
    + intros y d3 c3 Hy [[Hn Hpos]%Forall_cons Hl]. destruct (proj1 (Hs1 _ _ _) Hy) as (y' & -> & Hy'). f_equal.
      eapply Hb2; [done|]. split; [done|]. rewrite length_app in Hl. simpl in Hl. destruct bs as [|x bs]; [|simpl in Hl; lia].
      specialize (Hb1 _ _ _ Hy Hn eq_refl). simpl in Hb1. subst y'. simpl. lia.
Qed.

(** ** Records and the trailer *)
Lemma exact_probe {B} e (k : FM Decoder B) R : exact k R ->
  exact (probe <~ dread (read_some 1) ;; frequire (bool_decide (probe = [])) e ;~ k) (fun d c b d' c' => c = [] /\ R d [] b d' c').
Proof.
  intros Hk d src Hc. unfold fbind at 1 3, dread. cbn [fst snd].
  destruct (read_some_clean 1 src Hc ltac:(lia)) as (bs & src1 & -> & Hc1 & Hcon & _ & Hnil & _). destruct bs as [|b bs].
  - specialize (Hnil eq_refl). assert (contents src1 = []) as E by (by rewrite Hcon in Hnil). destruct (Hk d src1 Hc1) as [H1 H2].
    rewrite E in H1, H2. rewrite bool_decide_eq_true_2 by done. unfold fbind; simpl. split.
    + intros b d' src' Eq. by destruct (H1 _ _ _ Eq).
    + intros b d' c' [_ HR]. by apply H2.
  - rewrite bool_decide_eq_false_2 by done. split; [done|]. intros b' d' c' [E _]. by rewrite E in Hcon.
Qed.
Definition count_fields (d : DecoderState) : bytes := to_le 8 (de_entries d) ++ to_le 8 (de_content_bytes d).
Lemma adv_entries bs n d : de_entries (adv bs n d) = de_entries d.
Proof. done. Qed.
Lemma adv_content bs n d : de_content_bytes (adv bs n d) = de_content_bytes d.
Proof. done. Qed.
Lemma adv_frame bs n d : de_frame (adv bs n d) = de_frame d ++ bs.
Proof. done. Qed.
Lemma exact_trailer : exact (read_trailer sha256) (fun d c _ d' c' => is_u64 (de_entries d) /\ is_u64 (de_content_bytes d) /\
  c = count_fields d ++ sha256 (de_frame d ++ count_fields d) /\ c' = [] /\ d' = set_phase DpComplete (adv (count_fields d) 0 d)).
Proof.
  eapply exact_iff; [|unfold read_trailer; exact_steps; apply exact_probe, exact_dset]. intros d c [] d' c'. unfold is_u64, u64_max, count_fields. split.
  - intros (n & ? & ? & (Hn & -> & ->) & m & ? & ? & (Hm & -> & ->) & dd & ? & ? & (-> & -> & ->) & dig & ? & ? & (-> & _ & ->) &
      [] & ? & ? & (En & -> & ->) & [] & ? & ? & (Em & -> & ->) & [] & ? & ? & (->%bool_decide_eq_true & -> & ->) & -> & -> & ->).
    rewrite Z.eqb_eq, !adv_entries in En. rewrite Z.eqb_eq, !adv_content in Em. subst n m.
    rewrite !adv_frame, adv_twice, app_nil_r, <- !app_assoc. split_and!; done || lia.
  - intros (Hn & Hm & -> & -> & ->). rewrite <- app_assoc. spec_step; [lia..|]. spec_step; [lia..|]. spec_step.
    eexists (sha256 _), _, []. split; [split_and!; [by rewrite app_nil_r|done|reflexivity]|].
    spec_step; [by apply Z.eqb_eq..|]. spec_step; [by apply Z.eqb_eq..|]. spec_step; [apply bool_decide_eq_true; simpl; by rewrite <- app_assoc..|].
    by rewrite adv_twice.
Qed.

(** What a tag starts. *)
Definition tagged (tag : byte) : Spec (option FrameRecord) := fun d c r d' c' =>
  tag = TAG_TRAILER /\ r = None /\ is_u64 (de_entries d) /\ is_u64 (de_content_bytes d) /\
    c = count_fields d ++ sha256 (de_frame d ++ count_fields d) /\ c' = [] /\ d' = set_phase DpComplete (adv (count_fields d) 0 d) \/
  exists x o, r = Some x /\ tag = rec_tag x /\ entry_ok x d o /\ c = rec_rest x ++ c' /\ d' = opened (rec_rest x) x o d.
Lemma exact_tagged_entry tag dir body (make : bytes -> FrameRecord -> Prop) : tag <> TAG_TRAILER -> (forall p, exact (body p) (body_spec (make p))) ->
  (forall p r, make p r -> rec_path r = p /\ rec_is_dir r = dir /\ rec_tag r = tag) -> (forall r, rec_tag r = tag -> make (rec_path r) r) ->
  exact (read_entry dir body) (tagged tag).
Proof.
  intros Ht Hb Hm Hr. eapply exact_iff; [|apply exact_entry; [exact Hb|intros p r Hp; destruct (Hm p r Hp) as (? & ? & _); done]].
  intros d c r d' c'. unfold tagged. split.
  - intros (x & o & -> & Hx & H1 & H2 & H3). right. exists x, o. by destruct (Hm _ _ Hx) as (_ & _ & ->).
  - intros [(? & _)|(x & o & -> & Hx & H1 & H2 & H3)]; [done|]. exists x, o. split_and!; try done. by apply Hr.
Qed.
Lemma exact_tagged tag : exact
  (if Byte.eqb tag TAG_TRAILER then read_trailer sha256 ;~ fret None
   else if Byte.eqb tag TAG_DIRECTORY then read_entry true read_directory
   else if Byte.eqb tag TAG_REGULAR then read_entry false read_regular
   else if Byte.eqb tag TAG_SYMLINK then read_entry false read_symlink else frefuse FeUnknownTag) (tagged tag).
Proof.
  destruct (Byte.eqb tag TAG_TRAILER) eqn:E1.
  { apply Byte.byte_dec_bl in E1 as ->. eapply exact_iff; [|eapply exact_bind; [apply exact_trailer|intros ?; apply exact_ret]].
    intros d c r d' c'. unfold tagged. split; [intros ([] & ? & ? & (? & ? & ? & -> & ->) & -> & -> & ->); left; done|].
    intros [(_ & -> & ? & ? & ? & -> & ->)|(x & o & _ & Hx & _)]; [|by destruct x]. exists tt. by eexists _, _. }
  destruct (Byte.eqb tag TAG_DIRECTORY) eqn:E2; [apply Byte.byte_dec_bl in E2 as ->|destruct (Byte.eqb tag TAG_REGULAR) eqn:E3;
    [apply Byte.byte_dec_bl in E3 as ->|destruct (Byte.eqb tag TAG_SYMLINK) eqn:E4; [apply Byte.byte_dec_bl in E4 as ->|]]].
  - eapply exact_tagged_entry; [done|apply exact_directory|by intros p r [m ->]|by intros []; try done; eexists].
  - eapply exact_tagged_entry; [done|apply exact_regular|by intros p r (m & n & ->)|by intros []; try done; eexists _, _].
  - eapply exact_tagged_entry; [done|apply exact_symlink|by intros p r [t ->]|by intros []; try done; eexists].
  - eapply exact_iff; [|apply exact_refuse]. intros d c r d' c'. split; [done|]. intros [(-> & _)|(x & o & _ & -> & _)]; [done|by destruct x].
Qed.
Lemma exact_next : exact (next_record sha256) (fun d c r d' c' =>
  exists y d1 c1 tag, settled d c y d1 (tag :: c1) /\ tagged tag (adv [tag] 0 d1) c1 r d' c').
Proof.
  eapply exact_iff; [|unfold next_record; eapply exact_bind; [apply exact_drain|intros ?; eapply exact_bind; [apply exact_u8|intros ?; apply exact_tagged]]].
  intros d c r d' c'. split.
  - intros ([] & d1 & ? & (y & Hs) & tag & ? & c1 & (-> & ->) & Ht). by exists y, d1, c1, tag.
  - intros (y & d1 & c1 & tag & Hs & Ht). exists tt, d1, (tag :: c1). split; [by exists y|]. by exists tag, (adv [tag] 0 d1), c1.
Qed.

(** ** Sessions *)
(** The state after a whole item of bytes [bs]. *)
Definition closed (bs : bytes) (i : Item) (o : CanonicalOrder) (d : DecoderState) : DecoderState :=
  set_entries (de_entries d + 1) (set_content (de_content_bytes d + zlen (snd i)) None (set_de_order o (adv bs (rec_total (fst i)) d))).
Definition after (i : Item) (o : CanonicalOrder) (d : DecoderState) : DecoderState := closed (item_bytes i) i o d.
Lemma decoder_ext d d' : de_budget d = de_budget d' -> de_record_limit d = de_record_limit d' -> de_admitted d = de_admitted d' ->
  de_frame d = de_frame d' -> de_order d = de_order d' -> de_entries d = de_entries d' -> de_content_bytes d = de_content_bytes d' ->
  de_pending d = de_pending d' -> de_phase d = de_phase d' -> d = d'.
Proof. destruct d, d'; simpl; intros; by subst. Qed.
Lemma opened_plain hd x o d : de_pending d = None -> expect_content x = id -> opened hd x o d = closed (hd ++ []) (x, []) o d.
Proof.
  intros Hp Hx. unfold opened, closed. rewrite Hx. cbn [fst snd]. generalize (rec_total x) as n; intros n. destruct d. simpl in Hp. subst.
  rewrite app_nil_r. change (zlen []) with 0. rewrite Z.add_0_r. done.
Qed.
Lemma opened_regular hd p m n y o d : zlen y = n ->
  let d1 := opened hd (RecRegular p m n) o d in
  set_content (de_content_bytes d1) None (adv (y ++ sha256 y) 0 d1) = closed (hd ++ y ++ sha256 y) (RecRegular p m n, y) o d.
Proof.
  intros <-. cbn zeta. apply decoder_ext; try reflexivity.
  - unfold opened, closed, expect_content. cbn [de_admitted set_content adv set_frame set_admitted set_entries set_de_order]. apply Z.add_0_r.
  - unfold opened, closed, expect_content. cbn [de_frame set_content adv set_frame set_admitted set_entries set_de_order]. by rewrite <- !app_assoc.
Qed.
Lemma opened_settled_gen hd x o d c y d' c' : de_pending d = None -> rec_fields_ok x ->
  settled (opened hd x o d) c y d' c' <-> content_ok (x, y) /\ c = item_tail (x, y) ++ c' /\ d' = closed (hd ++ item_tail (x, y)) (x, y) o d.
Proof.
  intros Hp Hok. unfold content_ok, item_tail. cbn [fst snd]. destruct x as [p m|p m n|p t].
  - unfold settled. rewrite opened_plain by done. cbn [de_pending closed set_entries set_content]. split; intros (-> & -> & ->); done.
  - unfold settled. destruct Hok as [_ Hn]. change (de_pending (opened hd (RecRegular p m n) o d)) with (Some (mkPendingContent n [])).
    cbn [pc_remaining pc_content]. rewrite app_nil_l. split.
    + intros (Hl & -> & ->). assert (zlen y = n) by (unfold zlen; lia). rewrite <- app_assoc. split_and!; [done..|]. by apply opened_regular.
    + intros (Hy & -> & ->). rewrite <- app_assoc. split_and!; [unfold zlen in Hy; lia|done|]. symmetry. by apply opened_regular.
  - unfold settled. rewrite opened_plain by done. cbn [de_pending closed set_entries set_content]. split; intros (-> & -> & ->); done.
Qed.
Lemma opened_settled x o d c y d' c' : de_pending d = None -> rec_fields_ok x ->
  settled (opened (rec_head x) x o d) c y d' c' <-> content_ok (x, y) /\ c = item_tail (x, y) ++ c' /\ d' = after (x, y) o d.
Proof. apply opened_settled_gen. Qed.
(** The bytes that take the decoder through items and the trailer. *)
Fixpoint accepts (d : DecoderState) (items : list Item) (c : bytes) : Prop :=
  match items with
  | [] => is_u64 (de_entries d) /\ is_u64 (de_content_bytes d) /\
      c = TAG_TRAILER :: count_fields d ++ sha256 ((de_frame d ++ [TAG_TRAILER]) ++ count_fields d)
  | i :: items' => exists o c', entry_ok (fst i) d o /\ content_ok i /\ c = item_bytes i ++ c' /\ accepts (after i o d) items' c'
  end.

Lemma entry_ok_tag tag x d o : entry_ok x (adv [tag] 0 d) o <-> entry_ok x d o.
Proof. unfold entry_ok, content_fits. rewrite fits_zero. done. Qed.
Lemma opened_tag x o d : opened (rec_rest x) x o (adv [rec_tag x] 0 d) = opened (rec_head x) x o d.
Proof. unfold opened. by rewrite adv_twice. Qed.
Lemma settled_pending d c y d' c' : settled d c y d' c' -> de_pending d' = None.
Proof. unfold settled. destruct (de_pending d) eqn:E; [by intros (_ & _ & ->)|by intros (_ & -> & _)]. Qed.
Lemma settled_fun d c y d' c' y2 d2 c2 : settled d c y d' c' -> settled d c y2 d2 c2 -> d2 = d' /\ c2 = c'.
Proof.
  unfold settled. destruct (de_pending d) as [p|]; [|by intros (-> & -> & ->) (-> & -> & ->)].
  intros (Hl & -> & ->) (Hl2 & E & ->). apply app_inj_1 in E as [-> E]; [|lia]. apply app_inv_head in E. done.
Qed.
(** What [next_entry] finds: the end of the frame or an item. *)
Lemma next_entry_spec d src : clean src -> de_phase d = DpOpen ->
  match next_entry sha256 (d, src) with
  | (Ok None, _) => exists y d1 c1, settled d (contents src) y d1 c1 /\ accepts d1 [] c1
  | (Ok (Some x), (d2, src2)) => clean src2 /\ de_phase d2 = DpOpen /\ exists y d1 o, settled d (contents src) y d1 (rec_head x ++ contents src2) /\
      entry_ok x d1 o /\ d2 = opened (rec_head x) x o d1
  | (Err _, _) => forall y d1 c1 items, settled d (contents src) y d1 c1 -> ~ accepts d1 items c1
  end.
Proof.
  intros Hc Hph. unfold next_entry. simpl. rewrite Hph. destruct (exact_next d src Hc) as [H1 H2].
  destruct (next_record sha256 (d, src)) as [[[x|]|e] [d2 src2]] eqn:En; simpl.
  - destruct (H1 _ _ _ eq_refl) as (Hc2 & y & d1 & c1 & tag & Hs & [(_ & ? & _)|(x' & o & [= <-] & -> & Hok & -> & ->)]); [done|].
    rewrite entry_ok_tag in Hok. rewrite opened_tag. split_and!; [done| |by exists y, d1, o].
    unfold settled in Hs. rewrite <- Hph. destruct (de_pending d), x; destruct Hs as (_ & ? & ?); subst; done.
  - destruct (H1 _ _ _ eq_refl) as (Hc2 & y & d1 & c1 & tag & Hs & [(-> & _ & Hn & Hm & -> & _)|(x' & ? & ? & _)]); [|done].
    eexists y, d1, _. split; [exact Hs|]. done.
  - intros y d1 c1 [|[x c] items] Hs Ha.
    + destruct Ha as (Hn & Hm & ->). edestruct (H2 None) as (? & ? & _); [|done].
      eexists y, d1, _, TAG_TRAILER. split; [exact Hs|]. left. split_and!; [done..|reflexivity].
    + destruct Ha as (o & c' & Hok & _ & -> & _). edestruct (H2 (Some x)) as (? & ? & _); [|done].
      unfold item_bytes, rec_head in Hs. rewrite <- app_assoc in Hs.
      eexists y, d1, _, (rec_tag x). split; [exact Hs|]. right. exists x, o. rewrite entry_ok_tag. split_and!; [done..|reflexivity].
Qed.
Lemma exact_fun {A} (m : FM Decoder A) R d c a d1 c1 a' d1' c1' : exact m R -> R d c a d1 c1 -> R d c a' d1' c1' -> a' = a /\ d1' = d1 /\ c1' = c1.
Proof.
  intros Hm H1 H2. assert (exists src, clean src /\ contents src = c) as (src & Hc & <-).
  { destruct (decide (c = [])) as [->|]; [by exists []; split; [constructor|]|]. exists [RdData c]. split; [by repeat constructor|].
    unfold contents; simpl. by rewrite app_nil_r. }
  destruct (Hm d src Hc) as [_ Hb]. destruct (Hb _ _ _ H1) as (s1 & E1 & _ & <-), (Hb _ _ _ H2) as (s2 & E2 & _ & <-). rewrite E1 in E2. by simplify_eq.
Qed.
Lemma rec_head_inj x x' d o o' c c' : entry_ok x d o -> entry_ok x' d o' -> rec_head x ++ c = rec_head x' ++ c' -> x' = x /\ c' = c /\ o' = o.
Proof.
  intros H1 H2 E0. pose proof (f_equal (hd x00) E0 : rec_tag x = rec_tag x') as Ht. pose proof (f_equal tail E0 : rec_rest x ++ c = rec_rest x' ++ c') as E.
  destruct (exact_fun _ _ d (rec_rest x ++ c) (Some x) (opened (rec_rest x) x o d) c (Some x') (opened (rec_rest x') x' o' d) c' (exact_tagged (rec_tag x)))
    as ([= ->] & _ & ->); [right; by exists x, o|right; exists x', o'; by split_and!|]. split_and!; [done..|].
  destruct H1 as (_ & _ & _ & _ & _ & H1), H2 as (_ & _ & _ & _ & _ & H2). congruence.
Qed.
Lemma accepts_head x o d c items : de_pending d = None -> entry_ok x d o ->
  accepts d items (rec_head x ++ c) <-> exists z items' d' c', items = (x, z) :: items' /\ settled (opened (rec_head x) x o d) c z d' c' /\ accepts d' items' c'.
Proof.
  intros Hp Hok. assert (rec_fields_ok x) as Hf by apply Hok. split.
  - destruct items as [|[x' z] items]; [intros (_ & _ & [= E _]); by destruct x|].
    intros (o' & c' & Hok' & Hz & E & Ha). simpl in Hok'. unfold item_bytes in E. rewrite <- app_assoc in E.
    destruct (rec_head_inj _ _ _ _ _ _ _ Hok Hok' E) as (-> & <- & ->). eexists z, items, _, c'. split; [done|].
    split; [by apply opened_settled|exact Ha].
  - intros (z & items' & d' & c' & -> & (Hz & -> & ->)%opened_settled & Ha); [|done..]. exists o, c'. split_and!; try done.
    unfold item_bytes. by rewrite <- app_assoc.
Qed.
(** What the consumer was given of every item. *)
Fixpoint delivered (reads : list (list nat)) (out : list (FrameRecord * bytes)) (items : list Item) : Prop :=
  match out, items with
  | [], [] => True
  | (r, bs) :: out', (x, y) :: items' => r = x /\ bs `prefix_of` y /\ (enough (default [] (head reads)) y -> bs = y) /\ delivered (tail reads) out' items'
  | _, _ => False
  end.
Lemma session_spec fuel reads d src : clean src -> de_phase d = DpOpen -> (length (contents src) < fuel)%nat ->
  match fst (session sha256 fuel reads (d, src)) with
  | Ok out => exists y d1 c1 items, settled d (contents src) y d1 c1 /\ accepts d1 items c1 /\ delivered reads out items
  | Err _ => forall y d1 c1 items, settled d (contents src) y d1 c1 -> ~ accepts d1 items c1
  end.
Proof.
  revert reads d src; induction fuel as [|fuel IH]; intros reads d src Hc Hph Hf; [lia|]. cbn [session]. unfold fbind at 1.
  pose proof (next_entry_spec d src Hc Hph) as Hn. destruct (next_entry sha256 (d, src)) as [[[x|]|e] [d2 src2]]; [| |done].
  2: { simpl. destruct Hn as (y & d1 & c1 & Hs & Ha). by exists y, d1, c1, []. }
  destruct Hn as (Hc2 & Hph2 & y & d1 & o & Hs & Hok & ->). unfold fbind at 1.
  assert (length (contents src2) < length (contents src))%nat as Hlt.
  { unfold settled in Hs. destruct (de_pending d).
    - destruct Hs as (_ & -> & _). unfold rec_head. rewrite !length_app. simpl. rewrite length_app. lia.
    - destruct Hs as (_ & _ & <-). unfold rec_head. simpl. rewrite length_app. lia. }
  pose proof (consume_spec (default [] (head reads)) _ src2 Hc2 ltac:(by rewrite Hph2)) as Hb.
  unfold read_outcome in Hb. rewrite Hph2 in Hb. set (d2 := opened (rec_head x) x o d1) in *.
  assert (forall y' d' c' items, settled d (contents src) y' d' c' -> accepts d' items c' ->
    exists z items' d3 c3, items = (x, z) :: items' /\ settled d2 (contents src2) z d3 c3 /\ accepts d3 items' c3) as Hhead.
  { intros y' d' c' items Hs' Ha. destruct (settled_fun _ _ _ _ _ _ _ _ Hs Hs') as [-> ->].
    by apply (accepts_head x o) in Ha; [|by eapply settled_pending|]. }
  destruct (consume sha256 (default [] (head reads)) (d2, src2)) as [[bs|e] [d3 src3]].
  2: { simpl. intros y' d' c' items Hs' Ha. destruct (Hhead _ _ _ _ Hs' Ha) as (z & items' & d3' & c3 & _ & Hz & _). by eapply Hb. }
  destruct Hb as (Hc3 & Hph3 & Hl3 & Hset & Hread). specialize (IH (tail reads) d3 src3 Hc3 Hph3 ltac:(lia)). unfold fbind.
  destruct (session sha256 fuel (tail reads) (d3, src3)) as [[out|e] s]; simpl in *.
  - destruct IH as (z & d4 & c4 & items & Hs4 & Ha & Hd). assert (settled d2 (contents src2) (bs ++ z) d4 c4) as Hz by (apply Hset; eauto).
    exists y, d1, (rec_head x ++ contents src2), ((x, bs ++ z) :: items). split_and!; [done| |done|by exists z|by apply (Hread _ _ _ Hz)|done].
    apply (accepts_head x o); [by eapply settled_pending|done|]. eauto 10.
  - intros y' d' c' items Hs' Ha. destruct (Hhead _ _ _ _ Hs' Ha) as (z & items' & d4 & c4 & _ & Hz & Ha4).
    apply Hset in Hz as (z' & _ & Hz'). by eapply IH.
Qed.

(** ** The bytes of accepted frames *)
Lemma zlen_app a b : zlen (a ++ b) = zlen a + zlen b.
Proof. unfold zlen. rewrite length_app. lia. Qed.
Lemma zlen_to_le n v : zlen (to_le n v) = Z.of_nat n.
Proof. unfold zlen. by rewrite to_le_length. Qed.
Lemma zlen_cons x a : zlen (x :: a) = 1 + zlen a.
Proof. unfold zlen. cbn [length]. lia. Qed.
Lemma zlen_sha bs : zlen (sha256 bs) = 32.
Proof. unfold zlen. by rewrite sha_len. Qed.
Lemma item_size i : content_ok i -> zlen (item_bytes i) = rec_total (fst i).
Proof.
  destruct i as [x y]. unfold content_ok, item_bytes, item_tail, rec_total, rec_head, rec_rest, rec_fields, rec_size. cbn [fst snd].
  destruct x; cbn [rec_path]; intros H; repeat first [rewrite zlen_app | rewrite zlen_cons | rewrite zlen_to_le | rewrite zlen_sha];
    try change (zlen []) with 0; unfold DIGEST_BYTES; lia.
Qed.
Lemma body_app h items items' : body_bytes h (items ++ items') = body_bytes h items ++ concat (item_bytes <$> items').
Proof. unfold body_bytes. by rewrite fmap_app, concat_app, app_assoc. Qed.
Lemma body_snoc h items i : body_bytes h (items ++ [i]) = body_bytes h items ++ item_bytes i.
Proof. rewrite body_app. simpl. by rewrite app_nil_r. Qed.
Lemma content_total_app a b : content_total (a ++ b) = content_total a + content_total b.
Proof. induction a as [|i a IH]; simpl; [done|]. rewrite IH. lia. Qed.
Lemma item_room i : item_ok i -> 0 <= zlen (snd i) /\ zlen (snd i) + 33 <= zlen (item_bytes i) \/ zlen (snd i) = 0 /\ 1 <= zlen (item_bytes i).
Proof.
  destruct i as [x y]. intros (Hp & Hf & Hc). rewrite item_size by done. pose proof (rec_size_pos x Hf). pose proof (zlen_nonneg (rec_path x)). pose proof (zlen_nonneg y).
  unfold content_ok, rec_total in *. destruct x; simpl in *; subst; [right; split; [done|]; lia|left; unfold DIGEST_BYTES in *; lia|right; split; [done|]; pose proof (zlen_nonneg target); lia].
Qed.
Lemma totals_bound h items : Forall item_ok items ->
  0 <= content_total items /\ content_total items <= zlen (body_bytes h items) /\ Z.of_nat (length items) <= zlen (body_bytes h items).
Proof.
  induction items as [|i items IH] using rev_ind; intros Hok.
  - simpl. pose proof (zlen_nonneg (body_bytes h [])). lia.
  - apply Forall_app in Hok as [Hok [Hi _]%Forall_cons]. specialize (IH Hok). pose proof (item_room i Hi).
    rewrite body_snoc, zlen_app, content_total_app, length_app. simpl. lia.
Qed.
(** The state of the decoder after the header and [items]. *)
Definition reached (h : FrameHeader) (b : FrameBudget) (limit : Z) (items : list Item) (o : CanonicalOrder) : DecoderState :=
  mkDecoder b limit (zlen (body_bytes h items)) (body_bytes h items) o (Z.of_nat (length items)) (content_total items) None DpOpen.
Lemma after_reached h b limit items o i o' : content_ok i -> after i o' (reached h b limit items o) = reached h b limit (items ++ [i]) o'.
Proof.
  intros Hc. unfold after, closed, reached, set_entries, set_content, set_de_order, adv, set_frame, set_admitted. simpl.
  rewrite body_snoc, zlen_app, item_size, length_app, content_total_app by done. simpl. f_equal; lia.
Qed.
Lemma reached_entry_ok h b limit items o i o' : limit <= MAX_FRAME_BYTES -> Forall item_ok items -> content_ok i ->
  entry_ok (fst i) (reached h b limit items o) o' <-> item_ok i /\ order_admit (rec_path (fst i)) (rec_is_dir (fst i)) o = Ok o' /\
    Z.of_nat (length (items ++ [i])) <= max_entries b /\ zlen (body_bytes h (items ++ [i])) <= limit.
Proof.
  intros Hlim Hok Hc. destruct (totals_bound h items Hok) as (Hc0 & Hc1 & _). unfold entry_ok, item_ok, fits. cbn [reached de_admitted de_entries de_budget de_record_limit de_order].
  rewrite body_snoc, zlen_app, item_size, length_app by done. unfold MAX_FRAME_BYTES in Hlim. change (10 * Z.shiftl 1 30) with 10737418240 in Hlim.
  assert (rec_fields_ok (fst i) -> zlen (body_bytes h items) + rec_total (fst i) <= limit -> content_fits (fst i) (reached h b limit items o)) as Hcf.
  { intros Hf Hl. pose proof (zlen_nonneg (rec_path (fst i))). pose proof (zlen_nonneg (body_bytes h items)). unfold content_fits, rec_total, rec_size, DIGEST_BYTES, u64_max in *.
    destruct (fst i) as [| |]; simpl in *; lia. }
  simpl length. unfold u64_max in *. split; [intros (? & ? & ? & [? ?] & ? & ?); split_and!; done || lia|].
  intros ((? & ? & ?) & ? & ? & ?). split_and!; try done; try lia. by apply Hcf.
Qed.
Definition frame_tail (h : FrameHeader) (items0 items : list Item) : bytes :=
  concat (item_bytes <$> items) ++ trailer_fields (Z.of_nat (length (items0 ++ items))) (content_total (items0 ++ items)) ++ sha256 (signed_bytes h (items0 ++ items)).
Lemma frame_tail_cons h items0 i items : frame_tail h items0 (i :: items) = item_bytes i ++ frame_tail h (items0 ++ [i]) items.
Proof. unfold frame_tail. simpl. by rewrite <- !app_assoc. Qed.
Lemma accepts_reached h b limit items0 o items c : limit <= MAX_FRAME_BYTES -> Forall item_ok items0 ->
  Z.of_nat (length items0) <= max_entries b -> zlen (body_bytes h items0) <= limit ->
  accepts (reached h b limit items0 o) items c <-> Forall item_ok items /\ is_ok (admit_all (item_key <$> items) o) = true /\
    Z.of_nat (length (items0 ++ items)) <= max_entries b /\ zlen (body_bytes h (items0 ++ items)) <= limit /\ c = frame_tail h items0 items.
Proof.
  intros Hlim. revert items0 o c; induction items as [|i items IH]; intros items0 o c Hok Hent Hlen.
  - rewrite app_nil_r. destruct (totals_bound h items0 Hok) as (Hc0 & Hc1 & Hc2). unfold MAX_FRAME_BYTES in Hlim. change (10 * Z.shiftl 1 30) with 10737418240 in Hlim.
    unfold frame_tail. simpl. rewrite app_nil_r, <- app_assoc. unfold is_u64, u64_max. split; [intros (_ & _ & ->); done|]. intros (_ & _ & _ & _ & ->). split_and!; done || lia.
  - rewrite frame_tail_cons. simpl.
    replace (items0 ++ i :: items) with ((items0 ++ [i]) ++ items) by (by rewrite <- app_assoc). split.
    + intros (o' & c' & He & Hc & -> & Ha). apply reached_entry_ok in He as (Hi & Ho & He & Hl); [|done..]. rewrite after_reached in Ha by done.
      apply IH in Ha as (H1 & H2 & H3 & H4 & ->); [|by apply Forall_app; split; [|constructor]|done..]. rewrite Forall_cons. simpl. by rewrite Ho.
    + intros ([Hi Hs]%Forall_cons & Ha & He & Hl & ->). simpl in Ha. destruct (order_admit _ _ o) as [o'|] eqn:Ho; [|done]. simpl in Ha.
      assert (content_ok i) as Hc by apply Hi. assert (Forall item_ok (items0 ++ [i])) as Hok' by (apply Forall_app; split; [done|by constructor]).
      assert (Z.of_nat (length (items0 ++ [i])) <= max_entries b /\ zlen (body_bytes h (items0 ++ [i])) <= limit) as [He1 Hl1].
      { rewrite body_app, zlen_app in Hl. rewrite length_app in He. pose proof (zlen_nonneg (concat (item_bytes <$> items))). lia. }
      exists o', (frame_tail h (items0 ++ [i]) items). split; [by apply reached_entry_ok|]. split_and!; [done..|]. rewrite after_reached by done. by apply IH.
Qed.
Lemma frame_size h items : zlen (frame_bytes h items) = zlen (body_bytes h items) + TRAILER_BYTES.
Proof.
  unfold frame_bytes, signed_bytes, trailer_fields, TRAILER_BYTES, DIGEST_BYTES.
  repeat first [rewrite zlen_app | rewrite zlen_cons | rewrite zlen_to_le | rewrite zlen_sha]. lia.
Qed.
Lemma frame_split h items : frame_bytes h items = header_bytes h ++ frame_tail h [] items.
Proof. unfold frame_bytes, frame_tail. rewrite !app_nil_l. unfold signed_bytes at 1, body_bytes at 1. by rewrite <- !app_assoc. Qed.
Lemma frame_valid_iff h b items : frame_valid h b items <-> Forall item_ok items /\ is_ok (admit_all (item_key <$> items) default_order) = true /\
  Z.of_nat (length items) <= max_entries b /\ zlen (body_bytes h items) <= max_frame_bytes b - TRAILER_BYTES.
Proof.
  unfold frame_valid. rewrite frame_size. assert (Forall item_ok items -> canonical (item_key <$> items) <-> is_ok (admit_all (item_key <$> items) default_order) = true).
  { intros Hok. pose proof (admit_all_spec (item_key <$> items)) as Hs. destruct (admit_all _ _); simpl.
    - split; [done|]. intros _. apply Hs, Forall_fmap. eapply Forall_impl; [exact Hok|]. by intros i [? _].
    - split; [|done]. intros Hcan. exfalso. apply Hs; [|done]. apply Forall_fmap. eapply Forall_impl; [exact Hok|]. by intros i [? _]. }
  split; intros (Hok & Hcan & ? & ?); (split_and!; [done|by apply H|done|lia]).
Qed.
Lemma header_new_ok c g h : header_new c g = Ok h -> utf8_valid g = true -> header_ok h.
Proof.
  unfold header_new, header_ok. destruct (class_code c) as [code|] eqn:Ec; simpl; [|done]. destruct (generation_length_admitted (zlen g)) eqn:Eg; simpl; [|done].
  intros [= <-] Hu. simpl. done.
Qed.
Lemma accepts_fun d items items' c : de_pending d = None -> accepts d items c -> accepts d items' c -> items = items'.
Proof.
  revert d items' c; induction items as [|[x y] items IH]; intros d [|[x' y'] items'] c Hp; [done| | |].
  - intros (_ & _ & ->) (o & c' & _ & _ & E & _). apply (f_equal (hd x00)) in E. by destruct x'.
  - intros (o & c' & _ & _ & E & _) (_ & _ & ->). apply (f_equal (hd x00)) in E. by destruct x.
  - intros (o & c1 & Hok & Hy & -> & Ha) (o' & c1' & Hok' & Hy' & E & Ha'). simpl in Hok, Hok'. unfold item_bytes in E. rewrite <- !app_assoc in E.
    destruct (rec_head_inj _ _ _ _ _ _ _ Hok Hok' E) as (-> & E' & ->).
    assert (y' = y /\ c1' = c1) as [-> ->].
    { unfold content_ok, item_tail in *. cbn [fst snd] in *. destruct x; simpl in *; subst; [done| |done]. rewrite <- !app_assoc in E'.
      apply app_inj_1 in E' as [-> E']; [by apply app_inv_head in E'|]. unfold zlen in *. lia. }
    f_equal. by eapply (IH (after (x, y) o d)).
Qed.
(** The bytes of a frame determine its items. *)
Lemma frame_bytes_inj h b items items' : max_frame_bytes b <= MAX_FRAME_BYTES -> frame_valid h b items -> frame_valid h b items' ->
  frame_bytes h items = frame_bytes h items' -> items = items'.
Proof.
  intros Hlim Hv Hv' E. rewrite !frame_split in E. apply app_inv_head in E. apply frame_valid_iff in Hv as (H1 & H2 & H3 & H4), Hv' as (H1' & H2' & H3' & H4').
  set (limit := max_frame_bytes b - TRAILER_BYTES) in *. assert (limit <= MAX_FRAME_BYTES) by (unfold limit, TRAILER_BYTES, DIGEST_BYTES; lia).
  assert (zlen (body_bytes h []) <= limit) as Hb.
  { change items with ([] ++ items) in H4. rewrite body_app, zlen_app in H4. pose proof (zlen_nonneg (concat (item_bytes <$> items))). lia. }
  apply (accepts_fun (reached h b limit [] default_order) _ _ (frame_tail h [] items)); [done|apply accepts_reached|apply accepts_reached];
    first [done | constructor | simpl; lia | by split_and!].
Qed.
Lemma budget_new_ok entries frame b : budget_new entries frame = Ok b -> b = mkBudget entries frame /\ frame <= MAX_FRAME_BYTES.
Proof. unfold budget_new. destruct (_ <? entries); [done|]. destruct (Z.ltb_spec MAX_FRAME_BYTES frame); [done|]. by intros [= <-]. Qed.
Lemma start_reached h b limit : adv (header_bytes h) (zlen (header_bytes h)) (mkDecoder b limit 0 [] default_order 0 0 None DpOpen) = reached h b limit [] default_order.
Proof. unfold reached, body_bytes. simpl. by rewrite app_nil_r. Qed.

Lemma decode_spec h entries limit b src reads : header_ok h -> 0 <= entries -> budget_new entries limit = Ok b -> clean src ->
  match decode sha256 src h b reads with
  | Ok out => exists items, frame_valid h b items /\ contents src = frame_bytes h items /\ delivered reads out items
  | Err _ => forall items, frame_valid h b items -> contents src <> frame_bytes h items
  end.
Proof.
  intros Hh Hent [-> Hlim]%budget_new_ok Hc. set (b := mkBudget entries limit). unfold decode, decoder_new, record_limit_of.
  cbn [max_frame_bytes b]. destruct (Z.ltb_spec limit TRAILER_BYTES) as [Hl|Hl].
  { simpl. intros items (_ & _ & _ & Hsz)%frame_valid_iff. simpl in Hsz. pose proof (zlen_nonneg (body_bytes h items)). lia. }
  cbn [result_bind]. set (d0 := mkDecoder b (limit - TRAILER_BYTES) 0 [] default_order 0 0 None DpOpen).
  destruct (exact_header h Hh d0 src Hc) as [H1 H2]. assert (limit - TRAILER_BYTES <= MAX_FRAME_BYTES) as Hlim' by (unfold TRAILER_BYTES, DIGEST_BYTES in *; lia).
  assert (forall items c, contents src = header_bytes h ++ c -> fits (zlen (header_bytes h)) d0 ->
    (frame_valid h b items /\ contents src = frame_bytes h items <-> accepts (reached h b (limit - TRAILER_BYTES) [] default_order) items c)) as Hacc.
  { intros items c E [_ Hf]. rewrite accepts_reached, app_nil_l, frame_valid_iff, frame_split, E; [|done|constructor|done|].
    - split; [intros [(? & ? & ? & ?) ?%app_inv_head]; done|]. intros (? & ? & ? & ? & ->). done.
    - unfold body_bytes. simpl. by rewrite app_nil_r. }
  destruct (read_header h (d0, src)) as [[[]|e] [d1 src1]] eqn:Eh.
  - destruct (H1 _ _ _ eq_refl) as (Hc1 & Hf & E & ->). cbn [result_bind]. pose proof (source_size_contents src). unfold d0. rewrite start_reached.
    pose proof (session_spec (S (source_size src)) reads (reached h b (limit - TRAILER_BYTES) [] default_order) src1 Hc1 eq_refl ltac:(rewrite E, length_app in *; lia)) as Hs.
    destruct (fst (session sha256 _ reads _)) as [out|e].
    + destruct Hs as (y & d1 & c1 & items & (-> & -> & ->) & Ha & Hd). apply (Hacc _ _ E Hf) in Ha as [Hv Hcon]. eauto.
    + intros items Hv Hcon. eapply (Hs [] _ _ items); [by unfold settled|]. by apply (Hacc _ _ E Hf).
  - simpl. intros items Hv Hcon. destruct (H2 tt (adv (header_bytes h) (zlen (header_bytes h)) d0) (frame_tail h [] items)) as (? & ? & _); [|done].
    rewrite Hcon, frame_split. split_and!; try done. apply frame_valid_iff in Hv as (_ & _ & _ & Hsz). unfold body_bytes in Hsz. rewrite zlen_app in Hsz.
    pose proof (zlen_nonneg (concat (item_bytes <$> items))). unfold fits. simpl in *. unfold MAX_FRAME_BYTES, u64_max in *. change (10 * Z.shiftl 1 30) with 10737418240 in *. lia.
Qed.

(** C23: the decoder accepts exactly the frames. For any SHA-256 with 32-byte digests, any header and budget the
    code can construct and any reader without I/O errors, however it chunks and interrupts its reads and however
    the consumer reads file contents: a session succeeds only on bytes that are the frame of a canonical list of
    well-formed entries within the budget, and what it delivered are these entries with prefixes of their
    contents, all of them when enough was read; and it is refused only on bytes that are no such frame. *)
Theorem decode_exactly_frames c g h entries limit b src reads :
  header_new c g = Ok h -> utf8_valid g = true -> 0 <= entries -> budget_new entries limit = Ok b -> clean src ->
  match decode sha256 src h b reads with
  | Ok out => exists items, frame_valid h b items /\ contents src = frame_bytes h items /\ delivered reads out items
  | Err _ => forall items, frame_valid h b items -> contents src <> frame_bytes h items
  end.
Proof. intros Hh Hu. eapply decode_spec, header_new_ok; done. Qed.
End Frames.
