(* ===== verification/FrameEncode.v ===== *)
(** * What the frame encoder writes

    Two-way specifications of the encoder's steps over the frame grammar of
    [FrameAccept]: whatever the sink does, a step that succeeds has written its
    bytes; and over a sink that accepts bytes it succeeds whenever its conditions
    hold. Together: an encoding succeeds exactly on the canonical entries within the
    budget, and writes their frame; what is written, a decoder accepts. *)
From Stdlib Require Import Strings.Byte.
From S2P Require Import Prelude Domain Framing FramePath CustodyFrame FrameDecode FrameAccept.
Open Scope Z_scope.
Open Scope bridge_scope.

(** ** Sinks *)
Definition clean_write (w : WriteEvent) : Prop := match w with WrAccept n => n <> 0%nat | WrInterrupted => True | _ => False end.
Definition clean_sink (sink : list WriteEvent) : Prop := Forall clean_write sink.
Lemma write_all_ok bs written sink u written' sink' : write_all bs written sink = (Ok u, (written', sink')) ->
  written' = written ++ bs /\ (clean_sink sink -> clean_sink sink').
Proof.
  revert bs written; induction sink as [|[[|n]| |kind|] sink IH]; intros [|b bs] written; simpl; intros H; try done; try by (simplify_eq; rewrite ?app_nil_r).
  - apply IH in H as [-> Hs]. rewrite <- app_assoc. cbn [app]. rewrite take_drop. split; [done|]. intros Hc. by apply Hs; inversion Hc.
  - apply IH in H as [-> Hs]. split; [done|]. intros Hc. by apply Hs; inversion Hc.
Qed.
Lemma write_all_clean bs written sink : clean_sink sink -> exists written' sink', write_all bs written sink = (Ok tt, (written', sink')).
Proof.
  revert bs written; induction sink as [|w sink IH]; intros [|b bs] written Hc; [by eexists _, _..|]. inversion Hc as [|? ? Hw Hs]; subst.
  destruct w as [[|n]| |kind|]; simpl in *; try done; by apply IH.
Qed.

(** ** Two-way specifications *)
(** The encoder without its sink; a specification relates these. *)
Definition strip (e : Encoder) : Encoder := set_out [] (en_written e) (en_frame e) (en_frame_bytes e) e.
Definition eexact {A} (m : FM Encoder A) (R : Encoder -> A -> Encoder -> Prop) : Prop := forall e,
  (forall a e', m e = (Ok a, e') -> R (strip e) a (strip e') /\ (clean_sink (en_sink e) -> clean_sink (en_sink e'))) /\
  (clean_sink (en_sink e) -> forall a s, R (strip e) a s -> exists e', m e = (Ok a, e') /\ strip e' = s).

Lemma eexact_iff {A} (m : FM Encoder A) R R' : (forall s a s', R s a s' <-> R' s a s') -> eexact m R -> eexact m R'.
Proof.
  intros HR Hm e. destruct (Hm e) as [H1 H2]. split.
  - intros a e' E. destruct (H1 a e' E). split; [by apply HR|done].
  - intros Hc a s Hs. by apply H2, HR.
Qed.
Lemma eexact_ret {A} (a : A) : eexact (fret a) (fun s x s' => x = a /\ s' = s).
Proof. intros e. split; [by intros ? ? [= <- <-]|]. intros _ x s [-> ->]. by exists e. Qed.
Lemma eexact_refuse {A} x : eexact (frefuse x : FM Encoder A) (fun _ _ _ => False).
Proof. intros e. by split. Qed.
Lemma eexact_lift {A} (r : result A FrameError) : eexact (flift r) (fun s x s' => r = Ok x /\ s' = s).
Proof. intros e. split; [by intros ? ? [= -> <-]|]. intros _ x s [-> ->]. by exists e. Qed.
Lemma eexact_require b x : eexact (frequire b x) (fun s _ s' => b = true /\ s' = s).
Proof.
  intros e. destruct b; simpl; [split; [by intros ? ? [= <- <-]|]; intros _ [] s [_ ->]; by exists e|].
  split; [done|]. by intros _ [] s [? _].
Qed.
Lemma eexact_bind {A B} (m : FM Encoder A) (k : A -> FM Encoder B) R1 R2 : eexact m R1 -> (forall a, eexact (k a) (R2 a)) ->
  eexact (fbind m k) (fun s b s' => exists a s1, R1 s a s1 /\ R2 a s1 b s').
Proof.
  intros Hm Hk e. destruct (Hm e) as [H1 H2]. unfold fbind. split.
  - intros b e' E. destruct (m e) as [[a|x] e1] eqn:Em; [|done]. destruct (H1 a e1 eq_refl) as [HR Hs].
    destruct (Hk a e1) as [H3 _]. destruct (H3 b e' E). eauto 10.
  - intros Hc b s (a & s1 & HR1 & HR2). destruct (H2 Hc a s1 HR1) as (e1 & Em & <-). rewrite Em. destruct (H1 a e1 Em) as [_ Hs].
    destruct (Hk a e1) as [_ H4]. by apply H4; [apply Hs|].
Qed.
Lemma eexact_get {X B} (f : Encoder -> X) (k : X -> FM Encoder B) R : (forall e, f (strip e) = f e) -> (forall x, eexact (k x) (R x)) ->
  eexact (fbind fget (fun e => k (f e))) (fun s b s' => R (f s) s b s').
Proof. intros Hf Hk e. rewrite Hf. destruct (Hk (f e) e) as [H1 H2]. by split. Qed.
Lemma eexact_guarded {A} (m : FM Encoder A) R : eexact m R -> eexact (guarded m) (fun s a s' => en_poisoned s = false /\ R s a s').
Proof.
  intros Hm e. destruct (Hm e) as [H1 H2]. unfold guarded. change (en_poisoned (strip e)) with (en_poisoned e). destruct (en_poisoned e).
  - split; [done|]. by intros _ a s [? _].
  - split.
    + intros a e' E. destruct (m e) as [[a'|x] e1]; [|done]. injection E as -> ->. destruct (H1 a e' eq_refl). done.
    + intros Hc a s [_ HR]. destruct (H2 Hc a s HR) as (e' & -> & <-). by exists e'.
Qed.

(** ** Output *)
Definition out (bs : bytes) (s : Encoder) : Encoder := set_out [] (en_written s ++ bs) (en_frame s ++ bs) (en_frame_bytes s + zlen bs) s.
Lemma eexact_emit bs : eexact (emit bs) (fun s _ s' => en_frame_bytes s + zlen bs <= u64_max /\ s' = out bs s).
Proof.
  intros e. unfold emit, checked_add. split.
  - intros [] e' E. destruct (write_all bs (en_written e) (en_sink e)) as [[[]|x] [w k]] eqn:Ew; [|done]. apply write_all_ok in Ew as [-> Hs].
    destruct (Z.leb_spec (en_frame_bytes e + zlen bs) u64_max); [|done]. injection E as <-. done.
  - intros Hc [] s [Hle ->]. destruct (write_all_clean bs (en_written e) (en_sink e) Hc) as (w & k & Ew). rewrite Ew. apply write_all_ok in Ew as [-> _].
    destruct (Z.leb_spec (en_frame_bytes e + zlen bs) u64_max) as [|Hgt]; [by eexists|]. simpl in Hle. lia.
Qed.
Lemma out_out x y s : out y (out x s) = out (x ++ y) s.
Proof. unfold out, set_out. simpl. rewrite zlen_app, <- !app_assoc, Z.add_assoc. done. Qed.
Lemma out_nil s : strip s = s -> out [] s = s.
Proof. destruct s. unfold out, strip, set_out. simpl. intros [= <-]. by rewrite !app_nil_r, Z.add_0_r. Qed.
Definition room (n : Z) (s : Encoder) : Prop := en_frame_bytes s + n <= u64_max /\ en_frame_bytes s + n <= en_record_limit s.
Lemma eexact_admit_bytes n : eexact (admit_bytes n) (fun s _ s' => room n s /\ s' = s).
Proof.
  intros e. unfold admit_bytes, room, checked_add. simpl. destruct (Z.leb_spec (en_frame_bytes e + n) u64_max).
  - destruct (Z.ltb_spec (en_record_limit e) (en_frame_bytes e + n)).
    + split; [done|]. intros _ [] s [[_ Hl] _]. lia.
    + split; [by intros [] e' [= <-]|]. intros _ [] s [_ ->]. by exists e.
  - split; [done|]. intros _ [] s [[Hl _] _]. lia.
Qed.
Lemma eexact_admit_record n : eexact (admit_record n) (fun s _ s' => en_entries s < max_entries (en_budget s) /\ room n s /\ s' = s).
Proof.
  intros e. unfold admit_record. destruct (eexact_admit_bytes n e) as [H1 H2]. destruct (Z.leb_spec (max_entries (en_budget e)) (en_entries e)).
  - split; [done|]. intros _ [] s [Hl _]. simpl in Hl. lia.
  - split; [intros [] e' E; destruct (H1 _ _ E) as [[? ?] ?]; done|]. intros Hc [] s (_ & ? & ?). by apply H2.
Qed.
Lemma eexact_order p dir : eexact (enc_order p dir) (fun s _ s' => exists o, order_admit p dir (en_order s) = Ok o /\ s' = set_en_order o s).
Proof.
  intros e. unfold enc_order. simpl. destruct (order_admit p dir (en_order e)) as [o|x].
  - split; [intros [] e' [= <-]; by split; [exists o|]|]. intros _ [] s (o' & [= <-] & ->). by eexists.
  - split; [done|]. by intros _ [] s (? & ? & _).
Qed.
Lemma eexact_count n : eexact (count_entry n) (fun s _ s' => s' = set_en_counts (en_entries s + 1) n s).
Proof. intros e. split; [by intros [] e' [= <-]|]. intros _ [] s ->. by eexists. Qed.
Lemma eexact_count_same : eexact (e <~ fget ;; count_entry (en_content_bytes e)) (fun s _ s' => s' = set_en_counts (en_entries s + 1) (en_content_bytes s) s).
Proof. apply (eexact_get en_content_bytes count_entry (fun n s _ s' => s' = set_en_counts (en_entries s + 1) n s)); [done|apply eexact_count]. Qed.

(** ** Content *)
Lemma strip_out bs s : strip (out bs s) = out bs s.
Proof. done. Qed.
Lemma strip_strip e : strip (strip e) = strip e.
Proof. by destruct e. Qed.
Definition countable (n : Z) (s : Encoder) : Prop := n = 0 \/ en_frame_bytes s + n <= u64_max.
Lemma stream_loop_round fuel rem content src : stream_loop (S fuel) rem content src =
  if rem =? 0 then fret (content, src)
  else match read_some (chunk_length rem CONTENT_BUFFER_BYTES) src with
  | (Err x, _) => frefuse x
  | (Ok [], _) => frefuse (FeContentLengthMismatch LmShort)
  | (Ok chunk, src') => emit chunk ;~ stream_loop fuel (rem - zlen chunk) (content ++ chunk) src'
  end.
Proof. done. Qed.
Lemma chunk_pos rem : 0 < rem -> (0 < chunk_length rem CONTENT_BUFFER_BYTES)%nat /\ Z.of_nat (chunk_length rem CONTENT_BUFFER_BYTES) <= rem.
Proof. unfold chunk_length. assert (0 < Z.of_nat CONTENT_BUFFER_BYTES) by (unfold CONTENT_BUFFER_BYTES; lia). lia. Qed.
#[local] Opaque CONTENT_BUFFER_BYTES.
Lemma stream_loop_ok fuel rem content src e r e' : clean src -> 0 <= rem -> stream_loop fuel rem content src e = (Ok r, e') ->
  exists y, fst r = content ++ y /\ zlen y = rem /\ contents src = y ++ contents (snd r) /\ clean (snd r) /\ countable rem (strip e) /\
    strip e' = out y (strip e) /\ (clean_sink (en_sink e) -> clean_sink (en_sink e')).
Proof.
  revert rem content src e; induction fuel as [|fuel IH]; intros rem content src e Hc Hrem; [done|]. rewrite stream_loop_round.
  destruct (Z.eqb_spec rem 0) as [->|Hn].
  { intros [= <- <-]. exists []. rewrite app_nil_r. split_and!; try done; [by left|]. by rewrite out_nil by apply strip_strip. }
  destruct (chunk_pos rem ltac:(lia)) as [Hp Hle]. destruct (read_some_clean _ src Hc Hp) as (bs & src1 & -> & Hc1 & Hcon & Hl & _ & _).
  destruct bs as [|b bs]; [done|]. set (chunk := b :: bs) in *. unfold fbind. destruct (emit chunk e) as [[[]|x] e1] eqn:Ee; [|done].
  apply (proj1 (eexact_emit chunk e)) in Ee as [[Hb He1] Hs1]. intros H. assert (0 <= rem - zlen chunk) by (unfold zlen; lia).
  apply IH in H as (y & H1 & H2 & H3 & H4 & H5 & H6 & H7); [|done..]. exists (chunk ++ y). rewrite zlen_app, <- out_out, <- He1, <- !app_assoc, <- H3.
  split_and!; try done; [by rewrite H1, <- app_assoc|lia| |auto]. right. unfold countable in H5. rewrite He1 in H5. simpl in *. destruct H5 as [Hz|Hz]; [|lia].
  assert (rem = zlen chunk) as -> by lia. done.
Qed.
Lemma stream_loop_progress fuel rem content src e : clean src -> 0 <= rem <= zlen (contents src) -> (length (contents src) < fuel)%nat ->
  clean_sink (en_sink e) -> countable rem e -> exists r e', stream_loop fuel rem content src e = (Ok r, e').
Proof.
  revert rem content src e; induction fuel as [|fuel IH]; intros rem content src e Hc Hrem Hf Hs Hb; [lia|]. rewrite stream_loop_round.
  destruct (Z.eqb_spec rem 0) as [->|Hn]; [by eexists _, _|].
  destruct (chunk_pos rem ltac:(lia)) as [Hp Hle]. destruct (read_some_clean _ src Hc Hp) as (bs & src1 & -> & Hc1 & Hcon & Hl & Hnil & _).
  destruct bs as [|b bs]; [rewrite (Hnil eq_refl) in Hrem; unfold zlen in Hrem; simpl in Hrem; lia|]. set (chunk := b :: bs) in *.
  assert (0 < zlen chunk <= rem) as Hk by (unfold zlen, chunk in *; cbn [length] in *; lia). unfold countable in Hb. rewrite Hcon, zlen_app in Hrem.
  destruct (proj2 (eexact_emit chunk e) Hs tt (out chunk (strip e))) as (e1 & Ee & He1); [split; [simpl; lia|done]|].
  apply (proj1 (eexact_emit chunk e)) in Ee as Hx. destruct Hx as [_ Hs1]. unfold fbind. rewrite Ee.
  assert (en_frame_bytes e1 = en_frame_bytes e + zlen chunk) as Hfb by (by apply (f_equal en_frame_bytes) in He1).
  apply IH; [done|lia| |auto|unfold countable; lia]. rewrite Hcon, length_app in Hf. unfold chunk in Hf. simpl in Hf. lia.
Qed.

Section Encode.
Context (sha256 : bytes -> bytes).
Lemma eexact_stream declared src : clean src -> 0 <= declared -> eexact (stream_content sha256 declared src)
  (fun s a s' => zlen (contents src) = declared /\ countable declared s /\ a = sha256 (contents src) /\ s' = out (contents src) s).
Proof.
  intros Hc Hd e. unfold stream_content, fbind. pose proof (source_size_contents src) as Hsz. split.
  - intros a e' E. destruct (stream_loop _ _ _ _ e) as [[r|x] e1] eqn:El; [|done]. apply stream_loop_ok in El as (y & H1 & H2 & H3 & H4 & H5 & H6 & H7); [|done..].
    destruct (read_some_clean 1 (snd r) H4 ltac:(lia)) as (bs & src1 & Er & _ & _ & _ & Hnil & _). rewrite Er in E. cbn [fst] in E.
    destruct bs as [|b bs]; [|done]. injection E as <- <-. rewrite (Hnil eq_refl), app_nil_r in H3. rewrite H3, H1. done.
  - intros Hs a s (Hz & Hcnt & -> & ->).
    destruct (stream_loop_progress (S (source_size src)) declared [] src e Hc ltac:(lia) ltac:(lia) Hs) as (r & e1 & El).
    { unfold countable in *. simpl in Hcnt. done. }
    rewrite El. apply stream_loop_ok in El as (y & H1 & H2 & H3 & H4 & H5 & H6 & H7); [|done..].
    assert (contents (snd r) = [] /\ y = contents src) as [Hnil ->].
    { assert (length (contents (snd r)) = 0%nat) as Hx by (apply (f_equal zlen) in H3; rewrite zlen_app in H3; unfold zlen in *; lia).
      apply nil_length_inv in Hx. rewrite Hx, app_nil_r in H3. done. }
    destruct (read_some_clean 1 (snd r) H4 ltac:(lia)) as (bs & src1 & Er & _ & Hcon & _). rewrite Er. cbn [fst]. rewrite Hnil in Hcon.
    destruct bs; [|done]. rewrite H1. by exists e1.
Qed.

(** ** Entries *)
Definition enc_after (i : Item) (o : CanonicalOrder) (s : Encoder) : Encoder :=
  set_en_counts (en_entries s + 1) (en_content_bytes s + zlen (snd i)) (out (item_bytes sha256 i) (set_en_order o s)).
Definition put_ok (i : Item) (s : Encoder) (o : CanonicalOrder) : Prop :=
  en_poisoned s = false /\ rec_fields_ok (fst i) /\ content_ok i /\ en_entries s < max_entries (en_budget s) /\
  room (rec_total (fst i)) s /\ match fst i with RecRegular _ _ n => rec_total (fst i) <= u64_max /\ en_content_bytes s + n <= u64_max | _ => True end /\ order_admit (rec_path (fst i)) (rec_is_dir (fst i)) (en_order s) = Ok o.
Definition put (i : Item) (s : Encoder) (s' : Encoder) : Prop := exists o, put_ok i s o /\ s' = enc_after i o s.
End Encode.

Lemma mask_bits mode : 0 <= mode <= u32_max -> Z.land mode (Z.lxor u32_max PERMISSION_BITS) = 512 * (mode / 512).
Proof.
  intros Hm. change (Z.lxor u32_max PERMISSION_BITS) with (Z.shiftl (Z.ones 23) 9).
  assert (Z.land mode (Z.shiftl (Z.ones 23) 9) = Z.shiftl (Z.land (Z.shiftr mode 9) (Z.ones 23)) 9) as ->.
  { apply Z.bits_inj'. intros n Hn. rewrite Z.land_spec, !Z.shiftl_spec by lia. destruct (Z.ltb_spec n 9).
    - rewrite !(Z.testbit_neg_r _ (n - 9)) by lia. by rewrite andb_false_r.
    - rewrite Z.land_spec, Z.shiftr_spec by lia. do 2 f_equal. lia. }
  rewrite Z.land_ones, Z.shiftr_div_pow2, Z.shiftl_mul_pow2 by lia. change (2 ^ 9) with 512. rewrite Z.mod_small; [lia|].
  unfold u32_max in Hm. split; [apply Z.div_pos; lia|]. apply Z.div_lt_upper_bound; [lia|]. change (2 ^ 23) with 8388608. lia.
Qed.
Lemma encode_mode_ok mode m : 0 <= mode <= u32_max -> encode_mode mode = Ok m <-> m = mode /\ 0 <= mode <= PERMISSION_BITS.
Proof.
  intros Hm. unfold encode_mode. rewrite mask_bits by done. unfold PERMISSION_BITS, u16_max. pose proof (Z.div_mod mode 512 ltac:(lia)). pose proof (Z.mod_pos_bound mode 512 ltac:(lia)).
  destruct (Z.eqb_spec (512 * (mode / 512)) 0); simpl; [|split; [done|lia]]. destruct (Z.ltb_spec 65535 mode); [lia|]. split; [intros [= <-]; lia|by intros [-> _]].
Qed.
Lemma record_prefix_ok tag p x : path_valid p -> record_prefix tag p = Ok x <-> x = tag :: to_le 2 (zlen p) ++ p.
Proof. intros Hv. destruct (path_valid_length p Hv) as [_ Hl]. unfold record_prefix, u16_max. destruct (Z.ltb_spec 65535 (zlen p)); [lia|]. naive_solver. Qed.

Ltac eexact_leaf := first [eapply eexact_count_same | eapply eexact_ret | eapply eexact_refuse | eapply eexact_lift | eapply eexact_require | eapply eexact_order | eapply eexact_emit
  | eapply eexact_admit_record | eapply eexact_admit_bytes | eapply eexact_count].
Ltac eexact_steps := repeat (eapply eexact_bind; [eexact_leaf|intros ?]); try eexact_leaf.
Ltac put_step := first [exists tt | eexists]; eexists; split; [split_and!; try match goal with |- _ = _ => reflexivity end; try done|].
Definition op_item (op : EncodeOp) : Item :=
  match op with OpDirectory p m => (RecDirectory p m, []) | OpRegular p m n reader => (RecRegular p m n, contents reader) | OpSymlink p t => (RecSymlink p t, []) end.
(** What the types of the arguments say: a path is valid, a mode is a [u32], a length a [u64]; the reader is without I/O errors. *)
Definition op_typed (op : EncodeOp) : Prop :=
  match op with
  | OpDirectory p m => path_valid p /\ 0 <= m <= u32_max
  | OpRegular p m n reader => path_valid p /\ 0 <= m <= u32_max /\ is_u64 n /\ clean reader
  | OpSymlink p t => path_valid p
  end.
Section Ops.
Context (sha256 : bytes -> bytes) (sha_len : forall bs, length (sha256 bs) = 32%nat).

(** Entries without content. *)
Lemma put_plain x rec s o : (forall n, item_tail sha256 (x, n) = []) -> rec = rec_head x ->
  let s1 := out rec (set_en_order o s) in set_en_counts (en_entries s1 + 1) (en_content_bytes s1) s1 = enc_after sha256 (x, []) o s.
Proof.
  intros Ht ->. unfold enc_after, item_bytes. rewrite Ht, app_nil_r. cbn [fst snd]. change (zlen []) with 0. by rewrite Z.add_0_r.
Qed.
Lemma directory_record p m : (TAG_DIRECTORY :: to_le 2 (zlen p) ++ p) ++ to_le 2 m = rec_head (RecDirectory p m).
Proof. unfold rec_head, rec_rest. cbn [app rec_tag rec_path rec_fields]. by rewrite <- app_assoc. Qed.
Lemma symlink_record p t : (TAG_SYMLINK :: to_le 2 (zlen p) ++ p) ++ to_le 2 (zlen t) ++ t = rec_head (RecSymlink p t).
Proof. unfold rec_head, rec_rest. cbn [app rec_tag rec_path rec_fields]. by rewrite <- app_assoc. Qed.
Lemma regular_record p m n : (TAG_REGULAR :: to_le 2 (zlen p) ++ p) ++ to_le 2 m ++ to_le 8 n = rec_head (RecRegular p m n).
Proof. unfold rec_head, rec_rest. cbn [app rec_tag rec_path rec_fields]. by rewrite <- app_assoc. Qed.
Lemma plain_size x : content_ok (x, []) -> item_tail sha256 (x, []) = [] -> zlen (rec_head x) = rec_total x.
Proof. intros Hc Ht. pose proof (item_size sha256 sha_len (x, []) Hc) as H. unfold item_bytes in H. by rewrite Ht, app_nil_r in H. Qed.

Lemma eexact_enc_directory p m : path_valid p -> 0 <= m <= u32_max -> eexact (enc_directory p m) (fun s _ s' => put sha256 (RecDirectory p m, []) s s').
Proof.
  intros Hp Hm. eapply eexact_iff; [|unfold enc_directory; eapply eexact_guarded; eexact_steps]. intros s [] s'. split.
  - intros (Hpo & m' & ? & ([-> Hm']%encode_mode_ok & ->) & [] & ? & (o & Ho & ->) & pre & ? & (->%record_prefix_ok & ->) & [] & ? & (He & Hr & ->) & [] & ? & (Hb & ->) & ->); [|done..].
    rewrite directory_record in *. rewrite plain_size in Hr by done. exists o. split; [by split_and!|]. by apply put_plain.
  - intros (o & (Hpo & Hf & _ & He & Hr & _ & Ho) & ->). split; [done|]. put_step; [by apply encode_mode_ok..|].
    exists tt, (set_en_order o s). split; [by exists o|]. put_step; [by apply record_prefix_ok..|]. rewrite directory_record.
    put_step; [by rewrite plain_size..|]. put_step; [by rewrite plain_size by done; apply Hr..|]. symmetry. by apply put_plain.
Qed.
Lemma eexact_enc_symlink p t : path_valid p -> eexact (enc_symlink p t) (fun s _ s' => put sha256 (RecSymlink p t, []) s s').
Proof.
  intros Hp. eapply eexact_iff; [|unfold enc_symlink; eapply eexact_guarded; eexact_steps]. intros s [] s'. split.
  - intros (Hpo & [] & ? & (Hv & ->) & [] & ? & (o & Ho & ->) & [] & ? & (_ & ->) & pre & ? & (->%record_prefix_ok & ->) & [] & ? & (He & Hr & ->) & [] & ? & (Hb & ->) & ->); [|done..].
    rewrite symlink_record in *. rewrite plain_size in Hr by done. exists o. split; [by split_and!|]. by apply put_plain.
  - intros (o & (Hpo & Hf & _ & He & Hr & _ & Ho) & ->). split; [done|]. put_step. exists tt, (set_en_order o s). split; [by exists o|].
    put_step; [destruct (symlink_length t Hf) as [_ Hl]; apply Z.leb_le; unfold u16_max; lia..|]. put_step; [by apply record_prefix_ok..|]. rewrite symlink_record.
    put_step; [by rewrite plain_size..|]. put_step; [by rewrite plain_size by done; apply Hr..|]. symmetry. by apply put_plain.
Qed.
Lemma eexact_total {B} n (k : Z -> FM Encoder B) R : (forall x, eexact (k x) (R x)) ->
  eexact (e <~ fget ;; x <~ flift (ok_or (checked_add (en_content_bytes e) n) FeByteBudget) ;; k x)
    (fun s b s' => en_content_bytes s + n <= u64_max /\ R (en_content_bytes s + n) s b s').
Proof.
  intros Hk. eapply eexact_iff; [|apply (eexact_get en_content_bytes (fun c => x <~ flift (ok_or (checked_add c n) FeByteBudget) ;; k x)); [done|intros c; eapply eexact_bind; [eapply eexact_lift|exact Hk]]].
  intros s b s'. simpl. unfold checked_add. split.
  - intros (x & s1 & [E ->] & HR). destruct (Z.leb_spec (en_content_bytes s + n) u64_max); [|done]. by injection E as <-.
  - intros [Hle HR]. exists (en_content_bytes s + n), s. by destruct (Z.leb_spec (en_content_bytes s + n) u64_max); [|lia].
Qed.
Lemma ok_checked_add a b x : ok_or (checked_add a b) FeByteBudget = Ok x <-> x = a + b /\ a + b <= u64_max.
Proof. unfold checked_add. destruct (Z.leb_spec (a + b) u64_max); simpl; naive_solver lia. Qed.
Lemma regular_size p m n y : zlen y = n -> zlen (rec_head (RecRegular p m n)) + DIGEST_BYTES + n = rec_total (RecRegular p m n).
Proof.
  intros Hy. pose proof (item_size sha256 sha_len (RecRegular p m n, y) Hy) as H. unfold item_bytes, item_tail in H. cbn [fst snd] in H.
  rewrite !zlen_app, zlen_sha in H by done. unfold DIGEST_BYTES. lia.
Qed.
Lemma regular_after p m n y s o : zlen y = n ->
  set_en_counts (en_entries s + 1) (en_content_bytes s + n) (out (sha256 y) (out y (out (rec_head (RecRegular p m n)) (set_en_order o s)))) = enc_after sha256 (RecRegular p m n, y) o s.
Proof. intros <-. rewrite !out_out. unfold enc_after, item_bytes, item_tail. cbn [fst snd]. by rewrite ?app_assoc. Qed.
Lemma eexact_enc_regular p m n src : path_valid p -> 0 <= m <= u32_max -> is_u64 n -> clean src ->
  eexact (enc_regular sha256 p m n src) (fun s r s' => r = mkReceipt n (sha256 (contents src)) /\ put sha256 (RecRegular p m n, contents src) s s').
Proof.
  intros Hp Hm [Hn _] Hc. eapply eexact_iff.
  2: { unfold enc_regular. eapply eexact_guarded. do 5 (eapply eexact_bind; [eexact_leaf|intros ?]). eapply eexact_total; intros ?.
       eapply eexact_bind; [eexact_leaf|intros ?]. eapply eexact_bind; [by apply eexact_stream|intros ?]. eexact_steps. }
  intros s r s'. split.
  - intros (Hpo & m' & ? & ([-> Hm']%encode_mode_ok & ->) & [] & ? & (o & Ho & ->) & pre & ? & (->%record_prefix_ok & ->) & size & ? & (Hsz & ->) &
      [] & ? & (He & Hr & ->) & Htot & [] & ? & (Hb & ->) & sha & ? & (Hz & _ & -> & ->) & [] & ? & (_ & ->) & [] & ? & -> & -> & ->); [|done..].
    rewrite regular_record in *. apply ok_checked_add in Hsz as [-> Hsz]. rewrite (regular_size p m n _ Hz) in *. split; [done|].
    exists o. split; [|by rewrite <- (regular_after p m n (contents src) s o Hz)]. by split_and!.
  - intros (-> & o & (Hpo & [Hf _] & Hz & He & Hr & [Hsz Htot] & Ho) & ->). split; [done|]. put_step; [by apply encode_mode_ok..|].
    exists tt, (set_en_order o s). split; [by exists o|]. put_step; [by apply record_prefix_ok..|]. rewrite regular_record.
    put_step; [apply ok_checked_add; split; [reflexivity|by rewrite (regular_size p m n _ Hz)]..|]. rewrite (regular_size p m n _ Hz).
    put_step. split; [done|]. pose proof (regular_size p m n _ Hz) as Hs. cbn [fst] in *. destruct Hr as [Hr _]. unfold content_ok in Hz. cbn [fst snd] in Hz.
    put_step; [cbn; unfold DIGEST_BYTES in *; lia..|]. put_step; [right; cbn; unfold DIGEST_BYTES in *; lia..|].
    put_step; [rewrite zlen_sha by done; cbn; rewrite Hz; unfold DIGEST_BYTES in *; lia..|]. exists tt. eexists. split; [reflexivity|]. split; [done|]. by rewrite <- (regular_after p m n (contents src) s o Hz).
Qed.
Lemma eexact_enc_op op : op_typed op -> eexact (enc_op sha256 op) (fun s _ s' => put sha256 (op_item op) s s').
Proof.
  destruct op as [p m|p m n src|p t]; simpl.
  - intros []. by apply eexact_enc_directory.
  - intros (? & ? & ? & ?). eapply eexact_iff; [|eapply eexact_bind; [by apply eexact_enc_regular|intros ?; apply eexact_ret]].
    intros s [] s'. split; [by intros (? & ? & (_ & Hput) & _ & ->)|]. intros Hput. eexists _, s'. done.
  - by apply eexact_enc_symlink.
Qed.

(** ** Whole frames *)
Definition enc_reached (h : FrameHeader) (b : FrameBudget) (limit : Z) (items : list Item) (o : CanonicalOrder) : Encoder :=
  mkEncoder [] (body_bytes sha256 h items) (body_bytes sha256 h items) (zlen (body_bytes sha256 h items)) b limit o (Z.of_nat (length items)) (content_total items) false.
Lemma put_reached h b limit items o i s' : limit <= MAX_FRAME_BYTES -> Forall item_ok items -> path_valid (rec_path (fst i)) ->
  put sha256 i (enc_reached h b limit items o) s' <-> exists o', item_ok i /\ order_admit (rec_path (fst i)) (rec_is_dir (fst i)) o = Ok o' /\
    Z.of_nat (length (items ++ [i])) <= max_entries b /\ zlen (body_bytes sha256 h (items ++ [i])) <= limit /\ s' = enc_reached h b limit (items ++ [i]) o'.
Proof.
  intros Hlim Hok Hp. unfold put. f_equiv. intros o'. destruct (totals_bound sha256 sha_len h items Hok) as (Hc0 & Hc1 & _). pose proof (zlen_nonneg (body_bytes sha256 h items)).
  unfold MAX_FRAME_BYTES in Hlim. change (10 * Z.shiftl 1 30) with 10737418240 in Hlim.
  assert (content_ok i -> enc_after sha256 i o' (enc_reached h b limit items o) = enc_reached h b limit (items ++ [i]) o') as Hafter.
  { intros Hc. unfold enc_reached. rewrite body_snoc, zlen_app, content_total_app, length_app. unfold enc_after, out, set_out, set_en_order, set_en_counts. simpl. f_equal; lia. }
  rewrite body_snoc, zlen_app, length_app. unfold put_ok, room, item_ok, u64_max. simpl.
  split.
  - intros ((_ & Hf & Hc & He & [_ Hr] & _ & Ho) & ->). rewrite item_size by done. rewrite Hafter by done. split_and!; done || lia.
  - intros ((_ & Hf & Hc) & Ho & He & Hr & ->). rewrite item_size in Hr by done. rewrite Hafter by done.
    pose proof (rec_size_pos _ Hf). pose proof (zlen_nonneg (rec_path (fst i))). unfold rec_total in *.
    split_and!; try done; try lia. destruct (fst i); try done. unfold rec_size, DIGEST_BYTES in *. cbn [rec_path] in *. lia.
Qed.
Fixpoint puts (items : list Item) (s s' : Encoder) : Prop :=
  match items with [] => s' = s | i :: items' => exists s1, put sha256 i s s1 /\ puts items' s1 s' end.
Lemma eexact_enc_ops ops : Forall op_typed ops -> eexact (enc_ops sha256 ops) (fun s _ s' => puts (op_item <$> ops) s s').
Proof.
  induction ops as [|op ops IH]; intros Ht; simpl.
  - eapply eexact_iff; [|apply eexact_ret]. intros s [] s'. tauto.
  - apply Forall_cons in Ht as [Hop Ht]. eapply eexact_iff; [|eapply eexact_bind; [by apply eexact_enc_op|intros ?; by apply IH]].
    intros s [] s'. split; [intros ([] & s1 & ? & ?); eauto|intros (s1 & ? & ?); by exists tt, s1].
Qed.
Lemma puts_reached h b limit items0 o items s' : limit <= MAX_FRAME_BYTES -> Forall item_ok items0 -> Forall (fun i => path_valid (rec_path (fst i))) items ->
  Z.of_nat (length items0) <= max_entries b -> zlen (body_bytes sha256 h items0) <= limit ->
  puts items (enc_reached h b limit items0 o) s' <-> exists o', Forall item_ok items /\ admit_all (item_key <$> items) o = Ok o' /\
    Z.of_nat (length (items0 ++ items)) <= max_entries b /\ zlen (body_bytes sha256 h (items0 ++ items)) <= limit /\ s' = enc_reached h b limit (items0 ++ items) o'.
Proof.
  intros Hlim. revert items0 o; induction items as [|i items IH]; intros items0 o Hok Hp Hent Hlen; simpl.
  - rewrite app_nil_r. split; [intros ->; exists o; by split_and!|]. by intros (o' & _ & [= <-] & _ & _ & ->).
  - apply Forall_cons in Hp as [Hp Hps]. replace (items0 ++ i :: items) with ((items0 ++ [i]) ++ items) by (by rewrite <- app_assoc). split.
    + intros (s1 & Hput & Hputs). apply put_reached in Hput as (o1 & Hi & Ho & He & Hl & ->); [|done..].
      apply IH in Hputs as (o' & H1 & H2 & H3 & H4 & ->); [|by apply Forall_app; split; [|constructor]|done..]. exists o'. simpl. rewrite Ho. rewrite Forall_cons. done.
    + intros (o' & [Hi Hs]%Forall_cons & Ha & He & Hl & ->). simpl in Ha. destruct (order_admit _ _ o) as [o1|] eqn:Ho; [|done]. simpl in Ha.
      assert (Z.of_nat (length (items0 ++ [i])) <= max_entries b /\ zlen (body_bytes sha256 h (items0 ++ [i])) <= limit) as [He1 Hl1].
      { rewrite body_app, zlen_app in Hl. rewrite length_app in He. pose proof (zlen_nonneg (concat (item_bytes sha256 <$> items))). lia. }
      exists (enc_reached h b limit (items0 ++ [i]) o1). split; [apply put_reached; try done; by exists o1|].
      apply IH; try done; [by apply Forall_app; split; [|constructor]|]. by exists o'.
Qed.
Lemma eexact_emit_of {B} (f : Encoder -> bytes) (k : FM Encoder B) R : (forall e, f (strip e) = f e) -> eexact k R ->
  eexact (e <~ fget ;; emit (f e) ;~ k) (fun s b s' => en_frame_bytes s + zlen (f s) <= u64_max /\ R (out (f s) s) b s').
Proof.
  intros Hf Hk. eapply eexact_iff; [|apply (eexact_get f (fun t => emit t ;~ k)); [exact Hf|intros t; eapply eexact_bind; [apply eexact_emit|intros ?; exact Hk]]].
  intros s b s'. cbn beta. split; [by intros ([] & ? & [? ->] & ?)|]. intros [? ?]. exists tt. by eexists.
Qed.
Lemma eexact_gets {X} (f : Encoder -> X) : (forall e, f (strip e) = f e) -> eexact (e <~ fget ;; fret (f e)) (fun s a s' => a = f s /\ s' = s).
Proof. intros Hf. apply (eexact_get f fret (fun x s a s' => a = x /\ s' = s)); [exact Hf|intros x; apply eexact_ret]. Qed.
Definition finished (s : Encoder) : Encoder :=
  let s1 := out (trailer_fields (en_entries s) (en_content_bytes s)) s in out (sha256 (en_frame s1)) s1.
Lemma eexact_finish flushed : eexact (enc_finish sha256 flushed) (fun s a s' => en_poisoned s = false /\ en_frame_bytes s + 49 <= u64_max /\ flushed = Ok tt /\
  s' = finished s /\ a = mkFrameSummary (en_entries s') (en_content_bytes s') (en_frame_bytes s') (sha256 (en_frame s'))).
Proof.
  eapply eexact_iff.
  2: { unfold enc_finish. eapply eexact_guarded. apply (eexact_emit_of (fun e => trailer_fields (en_entries e) (en_content_bytes e))); [done|].
       apply (eexact_emit_of (fun e => sha256 (en_frame e))); [done|]. eapply eexact_bind; [eapply eexact_lift|intros ?].
       by apply (eexact_gets (fun e => mkFrameSummary (en_entries e) (en_content_bytes e) (en_frame_bytes e) (sha256 (en_frame e)))). }
  intros s a s'. cbn beta. assert (forall t, zlen (sha256 t) = 32) as Hsha by (intros; by apply zlen_sha).
  assert (zlen (trailer_fields (en_entries s) (en_content_bytes s)) = 17) as Ht by (unfold trailer_fields; rewrite zlen_cons, zlen_app, !zlen_to_le; lia).
  unfold finished. split.
  - intros (Hpo & Hb & Hb2 & [] & ? & (-> & ->) & -> & ->). split_and!; try done. cbn [out set_out en_frame_bytes] in Hb2. rewrite Hsha in Hb2. lia.
  - intros (Hpo & Hb & -> & -> & ->). split_and!; [done|lia|cbn [out set_out en_frame_bytes]; rewrite Hsha; lia|]. put_step. done.
Qed.
Lemma finished_reached h b limit items o : let s := finished (enc_reached h b limit items o) in
  en_written s = frame_bytes sha256 h items /\ en_frame s = frame_bytes sha256 h items /\ en_frame_bytes s = zlen (frame_bytes sha256 h items) /\
  en_entries s = Z.of_nat (length items) /\ en_content_bytes s = content_total items.
Proof. unfold finished, frame_bytes, signed_bytes. rewrite !zlen_app. done. Qed.

Lemma header_encode_ok h : header_ok h -> header_encode h = Ok (header_bytes h).
Proof.
  intros (_ & Hg & _). apply andb_true_iff in Hg as [_ Hg%Z.leb_le]. unfold header_encode, MAX_GENERATION_BYTES, u16_max in *.
  destruct (Z.ltb_spec 65535 (zlen (hd_generation h))); [lia|]. done.
Qed.
Lemma eexact_new h : eexact (admit_bytes (zlen (header_bytes h)) ;~ emit (header_bytes h)) (fun s _ s' => room (zlen (header_bytes h)) s /\ s' = out (header_bytes h) s).
Proof.
  eapply eexact_iff; [|eexact_steps]. intros s [] s'. split; [by intros ([] & ? & [? ->] & _ & ->)|]. intros [Hr ->]. exists tt, s. split_and!; try done. apply Hr.
Qed.
Lemma eexact_run h ops flushed : Forall op_typed ops ->
  eexact ((admit_bytes (zlen (header_bytes h)) ;~ emit (header_bytes h)) ;~ enc_ops sha256 ops ;~ enc_finish sha256 flushed)
    (fun s a s' => room (zlen (header_bytes h)) s /\ exists s1, puts (op_item <$> ops) (out (header_bytes h) s) s1 /\
      en_poisoned s1 = false /\ en_frame_bytes s1 + 49 <= u64_max /\ flushed = Ok tt /\ s' = finished s1 /\
      a = mkFrameSummary (en_entries s') (en_content_bytes s') (en_frame_bytes s') (sha256 (en_frame s'))).
Proof.
  intros Ht. eapply eexact_iff; [|eapply eexact_bind; [apply eexact_new|intros ?]; eapply eexact_bind; [by apply eexact_enc_ops|intros ?; apply eexact_finish]].
  intros s a s'. split.
  - intros ([] & ? & [Hr ->] & [] & s1 & Hp & H). eauto.
  - intros (Hr & s1 & Hp & H). exists tt, (out (header_bytes h) s). split; [done|]. by exists tt, s1.
Qed.
Lemma encode_run sink h b ops flushed limit : record_limit_of b = Ok limit -> header_ok h ->
  encode sha256 sink h b ops flushed =
    let (r, e) := ((admit_bytes (zlen (header_bytes h)) ;~ emit (header_bytes h)) ;~ enc_ops sha256 ops ;~ enc_finish sha256 flushed)
      (mkEncoder sink [] [] 0 b limit default_order 0 0 false) in let? summary := r in Ok (summary, en_written e).
Proof.
  intros Hl Hh. unfold encode, encoder_new. rewrite Hl. cbn [result_bind]. rewrite header_encode_ok by done. cbn [result_bind].
  generalize (admit_bytes (zlen (header_bytes h)) ;~ emit (header_bytes h)) as m0. generalize (enc_ops sha256 ops ;~ enc_finish sha256 flushed) as m1. intros m1 m0.
  unfold fbind. by destruct (m0 _) as [[[]|x] e].
Qed.
Definition start (sink : list WriteEvent) (b : FrameBudget) (limit : Z) : Encoder := mkEncoder sink [] [] 0 b limit default_order 0 0 false.
Lemma op_paths ops : Forall op_typed ops -> Forall (fun i => path_valid (rec_path (fst i))) (op_item <$> ops).
Proof. intros Ht. apply Forall_fmap. eapply Forall_impl; [exact Ht|]. intros []; simpl; tauto. Qed.
Lemma start_spec h b items s1 : 0 <= max_entries b -> max_frame_bytes b <= MAX_FRAME_BYTES -> Forall (fun i => path_valid (rec_path (fst i))) items ->
  let limit := max_frame_bytes b - TRAILER_BYTES in
  room (zlen (header_bytes h)) (start [] b limit) /\ puts items (out (header_bytes h) (start [] b limit)) s1 <->
  frame_valid sha256 h b items /\ exists o, admit_all (item_key <$> items) default_order = Ok o /\ s1 = enc_reached h b limit items o.
Proof.
  intros Hent Hlim Hp limit. assert (limit <= MAX_FRAME_BYTES) as Hlim' by (unfold limit, TRAILER_BYTES, DIGEST_BYTES; lia). rewrite frame_valid_iff by done. fold limit.
  assert (out (header_bytes h) (start [] b limit) = enc_reached h b limit [] default_order) as ->.
  { unfold enc_reached, body_bytes. simpl. by rewrite app_nil_r. }
  assert (zlen (body_bytes sha256 h []) = zlen (header_bytes h)) as Hb by (unfold body_bytes; simpl; by rewrite app_nil_r).
  assert (room (zlen (header_bytes h)) (start [] b limit) <-> zlen (header_bytes h) <= limit) as ->.
  { unfold room. simpl. unfold MAX_FRAME_BYTES, u64_max in *. change (10 * Z.shiftl 1 30) with 10737418240 in *. lia. }
  split.
  - intros [Hr Hps]. apply puts_reached in Hps as (o & H1 & H2 & H3 & H4 & ->); [|done|constructor|done|done|lia]. simpl in *. rewrite H2. split; [done|]. by exists o.
  - intros ((H1 & _ & H3 & H4) & o & H2 & ->). assert (zlen (header_bytes h) <= limit).
    { unfold body_bytes in H4. rewrite zlen_app in H4. pose proof (zlen_nonneg (concat (item_bytes sha256 <$> items))). lia. }
    split; [done|]. apply puts_reached; [done|constructor|done|done|lia|]. by exists o.
Qed.
Lemma run_spec h b ops (flushed : result unit FrameError) a s' : 0 <= max_entries b -> max_frame_bytes b <= MAX_FRAME_BYTES -> Forall op_typed ops ->
  let items := op_item <$> ops in let limit := max_frame_bytes b - TRAILER_BYTES in
  (room (zlen (header_bytes h)) (start [] b limit) /\ exists s1, puts items (out (header_bytes h) (start [] b limit)) s1 /\
      en_poisoned s1 = false /\ en_frame_bytes s1 + 49 <= u64_max /\ flushed = Ok tt /\ s' = finished s1 /\
      a = mkFrameSummary (en_entries s') (en_content_bytes s') (en_frame_bytes s') (sha256 (en_frame s'))) <->
  flushed = Ok tt /\ frame_valid sha256 h b items /\ exists o, admit_all (item_key <$> items) default_order = Ok o /\ s' = finished (enc_reached h b limit items o) /\
    a = mkFrameSummary (Z.of_nat (length items)) (content_total items) (zlen (frame_bytes sha256 h items)) (sha256 (frame_bytes sha256 h items)).
Proof.
  intros Hent Hlim Ht items limit. pose proof (op_paths ops Ht) as Hp. split.
  - intros (Hr & s1 & Hps & _ & _ & -> & -> & ->). destruct (proj1 (start_spec h b items s1 Hent Hlim Hp) (conj Hr Hps)) as (Hv & o & Ho & ->). fold limit.
    destruct (finished_reached h b limit items o) as (_ & -> & -> & -> & ->). split_and!; try done. by exists o.
  - intros (-> & Hv & o & Ho & -> & ->). destruct (proj2 (start_spec h b items (enc_reached h b limit items o) Hent Hlim Hp)) as [Hr Hps]; [by split; [|exists o]|].
    split; [done|]. eexists. split; [exact Hps|]. destruct (finished_reached h b limit items o) as (_ & -> & -> & -> & ->). split_and!; try done.
    apply frame_valid_iff in Hv as (_ & _ & _ & Hv); [|done]. simpl. unfold MAX_FRAME_BYTES, u64_max, TRAILER_BYTES, DIGEST_BYTES in *. change (10 * Z.shiftl 1 30) with 10737418240 in *. lia.
Qed.
Lemma encode_spec sink h entries limit b ops flushed : header_ok h -> 0 <= entries -> budget_new entries limit = Ok b -> Forall op_typed ops ->
  let items := op_item <$> ops in
  match encode sha256 sink h b ops flushed with
  | Ok (summary, written) => flushed = Ok tt /\ frame_valid sha256 h b items /\ written = frame_bytes sha256 h items /\
      summary = mkFrameSummary (Z.of_nat (length items)) (content_total items) (zlen written) (sha256 written)
  | Err _ => ~ (clean_sink sink /\ flushed = Ok tt /\ frame_valid sha256 h b items)
  end.
Proof.
  intros Hh Hent [-> Hlim]%budget_new_ok Ht items. set (b := mkBudget entries limit).
  assert (TRAILER_BYTES = 49) as HT by done. destruct (record_limit_of b) as [rl|x] eqn:Erl; unfold record_limit_of in Erl; simpl in Erl; destruct (Z.ltb_spec limit TRAILER_BYTES) as [Hl|Hl]; try done.
  2: { unfold encode, encoder_new, record_limit_of. cbn [max_frame_bytes b]. destruct (Z.ltb_spec limit TRAILER_BYTES); [|lia].
       intros (_ & _ & (_ & _ & _ & Hv)%frame_valid_iff); [|done]. pose proof (zlen_nonneg (body_bytes sha256 h items)). simpl in Hv. lia. }
  injection Erl as <-. rewrite (encode_run _ _ _ _ _ (limit - TRAILER_BYTES)); [|unfold record_limit_of; cbn [max_frame_bytes b]; by destruct (Z.ltb_spec limit TRAILER_BYTES); [lia|]|done].
  change (mkEncoder sink [] [] 0 b (limit - TRAILER_BYTES) default_order 0 0 false) with (start sink b (limit - TRAILER_BYTES)).
  destruct (eexact_run h ops flushed Ht (start sink b (limit - TRAILER_BYTES))) as [H1 H2].
  pose proof (fun a s' => run_spec h b ops flushed a s' Hent Hlim Ht) as Hrun. cbn zeta in Hrun.
  destruct (fbind _ _ _) as [[summary|x] e] eqn:Er; cbn [result_bind].
  - destruct (H1 summary e eq_refl) as [Hspec _]. apply Hrun in Hspec as (-> & Hv & o & _ & Hs & ->).
    destruct (finished_reached h b (limit - TRAILER_BYTES) items o) as (Hw & _). change (en_written e) with (en_written (strip e)). rewrite Hs. cbn [max_frame_bytes b] in *. fold items. rewrite Hw. done.
  - intros (Hc & Hfl & Hv). apply frame_valid_iff in Hv as Hv'; [|done]. destruct Hv' as (_ & Ho & _). destruct (admit_all _ _) as [o|] eqn:Eo; [|done].
    edestruct (H2 Hc) as (? & ? & _); [|done]. apply Hrun. split_and!; [done..|]. by exists o.
Qed.

(** C24: the encoder writes exactly the frames. For arguments of the types the code has and content readers
    without I/O errors, whatever the sink does: an encoding that succeeds has written the frame of its entries,
    which are canonical, well formed and within the budget, and its summary gives the entries, the content bytes
    and the length and digest of what was written; and over a sink that accepts bytes it is refused only when
    the entries are no such frame (or the flush failed). *)
Theorem encode_exactly_frames sink c g h entries limit b ops flushed :
  header_new c g = Ok h -> utf8_valid g = true -> 0 <= entries -> budget_new entries limit = Ok b -> Forall op_typed ops ->
  let items := op_item <$> ops in
  match encode sha256 sink h b ops flushed with
  | Ok (summary, written) => flushed = Ok tt /\ frame_valid sha256 h b items /\ written = frame_bytes sha256 h items /\
      summary = mkFrameSummary (Z.of_nat (length items)) (content_total items) (zlen written) (sha256 written)
  | Err _ => ~ (clean_sink sink /\ flushed = Ok tt /\ frame_valid sha256 h b items)
  end.
Proof. intros Hh Hu. apply encode_spec, (header_new_ok c g); done. Qed.

(** C25: what is encoded can be decoded. When an encoding succeeds, a decoder with the same header and budget
    accepts what was written, over any reader that gives these bytes in any chunks and whatever the consumer
    reads, and delivers the encoded entries in order with prefixes of their contents, whole where enough was
    read. *)
Theorem frame_roundtrip sink c g h entries limit b ops flushed summary written src reads :
  header_new c g = Ok h -> utf8_valid g = true -> 0 <= entries -> budget_new entries limit = Ok b -> Forall op_typed ops ->
  encode sha256 sink h b ops flushed = Ok (summary, written) -> clean src -> contents src = written ->
  exists out, decode sha256 src h b reads = Ok out /\ delivered reads out (op_item <$> ops).
Proof.
  intros Hh Hu Hent Hb Ht He Hc Hcon. pose proof (header_new_ok _ _ _ Hh Hu) as Hok. pose proof (encode_spec sink h entries limit b ops flushed Hok Hent Hb Ht) as Henc.
  cbn zeta in Henc. rewrite He in Henc. destruct Henc as (_ & Hv & -> & _).
  pose proof (decode_spec sha256 sha_len h entries limit b src reads Hok Hent Hb Hc) as Hdec. destruct (decode sha256 src h b reads) as [out|x]; [|by apply Hdec in Hcon].
  destruct Hdec as (items & Hv' & Hcon' & Hd). exists out. split; [done|]. rewrite Hcon in Hcon'.
  apply budget_new_ok in Hb as [-> Hlim]. by rewrite (frame_bytes_inj sha256 sha_len h (mkBudget entries limit) _ _ Hlim Hv Hv' Hcon').
Qed.
End Ops.
