(* ===== verification/FrameSafety.v ===== *)
(** * Refusals of the frame codec are final, and worked frames

    Runs of arbitrary calls on an encoder and a decoder after a refusal, and the
    theorems of the frame files at a concrete frame, with a toy digest in place of
    SHA-256. *)
From Stdlib Require Import Strings.Byte.
From S2P Require Import Prelude Domain Framing FramePath CustodyFrame FrameDecode FrameAccept FrameEncode.
Open Scope Z_scope.
Open Scope bridge_scope.

Section Calls.
Context (sha256 : bytes -> bytes).
(** Calls on a live encoder, each whatever the one before it answered. *)
Fixpoint enc_calls (ops : list EncodeOp) (e : Encoder) : list (result unit FrameError) * Encoder :=
  match ops with
  | [] => ([], e)
  | op :: ops' => let (r, e1) := enc_op sha256 op e in let (rs, e2) := enc_calls ops' e1 in (r :: rs, e2)
  end.
(** Calls on a live decoder: the next entry, or a read of the yielded content. *)
Inductive DecodeCall := CallNext | CallRead (capacity : nat).
Definition dec_call (c : DecodeCall) : FM Decoder unit :=
  match c with CallNext => next_entry sha256 ;~ fret tt | CallRead n => consumer_read sha256 n ;~ fret tt end.
Fixpoint dec_calls (cs : list DecodeCall) (s : Decoder) : list (result unit FrameError) * Decoder :=
  match cs with
  | [] => ([], s)
  | c :: cs' => let (r, s1) := dec_call c s in let (rs, s2) := dec_calls cs' s1 in (r :: rs, s2)
  end.

Lemma guarded_poisoned {A} (m : FM Encoder A) e : en_poisoned e = true -> guarded m e = (Err FePoisoned, e).
Proof. intros H. unfold guarded. by rewrite H. Qed.
Lemma guarded_refused {A} (m : FM Encoder A) e x e' : guarded m e = (Err x, e') -> en_poisoned e' = true.
Proof. unfold guarded. destruct (en_poisoned e) eqn:E; [by intros [= _ <-]|]. destruct (m e) as [[a|y] e1]; [done|]. by intros [= _ <-]. Qed.
Lemma enc_op_poisoned op e : en_poisoned e = true -> enc_op sha256 op e = (Err FePoisoned, e).
Proof. intros H. destruct op; simpl; unfold fbind; unfold enc_directory, enc_regular, enc_symlink; by rewrite guarded_poisoned. Qed.
Lemma enc_op_refused op e x e' : enc_op sha256 op e = (Err x, e') -> en_poisoned e' = true.
Proof.
  destruct op; simpl; [apply guarded_refused| |apply guarded_refused]. unfold fbind, fret.
  destruct (enc_regular sha256 path mode declared reader e) as [[r|y] e1] eqn:E; [done|]. intros [= _ <-]. by eapply guarded_refused.
Qed.
Lemma enc_calls_poisoned ops e : en_poisoned e = true -> enc_calls ops e = (replicate (length ops) (Err FePoisoned), e).
Proof. intros H. induction ops as [|op ops IH]; simpl; [done|]. by rewrite enc_op_poisoned, IH. Qed.
Definition dec_poisoned (s : Decoder) : Prop := de_phase (fst s) = DpPoisoned.
Lemma dec_call_poisoned c s : dec_poisoned s -> dec_call c s = (Err FePoisoned, s).
Proof. unfold dec_poisoned. destruct s as [d src]; simpl. intros H. destruct c; simpl; unfold fbind, next_entry, consumer_read; simpl; by rewrite H. Qed.
Lemma dec_call_refused c s x s' : dec_call c s = (Err x, s') -> dec_poisoned s'.
Proof.
  unfold dec_poisoned. destruct c; simpl; unfold fbind, fret.
  - destruct (next_entry sha256 s) as [[r|y] s1] eqn:E; [done|]. intros [= _ <-]. unfold next_entry in E. destruct (de_phase (fst s)) eqn:Ep; simplify_eq; [|done].
    destruct (next_record sha256 s) as [[r|z] s2]; by simplify_eq.
  - destruct (consumer_read sha256 capacity s) as [[r|y] s1] eqn:E; [done|]. intros [= _ <-]. unfold consumer_read in E.
    destruct (de_phase (fst s)) eqn:Ep; simplify_eq; try done; destruct (read_yielded_content sha256 capacity s) as [[r|z] s2]; by simplify_eq.
Qed.
Lemma dec_calls_poisoned cs s : dec_poisoned s -> dec_calls cs s = (replicate (length cs) (Err FePoisoned), s).
Proof. intros H. induction cs as [|c cs IH]; simpl; [done|]. by rewrite dec_call_poisoned, IH. Qed.

(** A refusal is final. Whatever the calls before it, the sink, the readers and the reason, once an encoder
    has refused an entry it refuses every later call as poisoned, writes nothing more and never finishes a frame;
    and once a decoder has refused to go on or to give content it refuses every later call as poisoned, takes
    nothing more from its source and never reports an end of the frame. *)
Theorem refusals_are_final :
  (forall ops0 e0 op x e ops flushed, enc_op sha256 op (snd (enc_calls ops0 e0)) = (Err x, e) ->
     enc_calls ops e = (replicate (length ops) (Err FePoisoned), e) /\ enc_finish sha256 flushed e = (Err FePoisoned, e)) /\
  (forall cs0 s0 c x s cs, dec_call c (snd (dec_calls cs0 s0)) = (Err x, s) ->
     dec_calls cs s = (replicate (length cs) (Err FePoisoned), s) /\ next_entry sha256 s = (Err FePoisoned, s)).
Proof.
  split.
  - intros ops0 e0 op x e ops flushed H%enc_op_refused. split; [by apply enc_calls_poisoned|by apply guarded_poisoned].
  - intros cs0 s0 c x s cs H%dec_call_refused. split; [by apply dec_calls_poisoned|]. unfold next_entry. by rewrite H.
Qed.
End Calls.

(** ** A worked frame *)
Definition toy_digest (bs : bytes) : bytes := to_le 32 (from_le bs mod 1000003 + zlen bs).
Lemma toy_digest_length bs : length (toy_digest bs) = 32%nat.
Proof. apply to_le_length. Qed.
Definition ex_header : FrameHeader := mkHeader Worktree x04 (of_str "gen-1").
Definition ex_budget : FrameBudget := mkBudget 16 4096.
Definition ex_ops : list EncodeOp :=
  [OpDirectory (of_str "a") 493; OpRegular (of_str "a/b") 420 5 [RdData (of_str "he"); RdInterrupted; RdData (of_str "llo")];
   OpSymlink (of_str "a.l") (of_str "../t"); OpRegular (of_str "z") 384 0 []].
Definition ex_written : bytes := match encode toy_digest [WrAccept 3; WrInterrupted] ex_header ex_budget ex_ops (Ok tt) with Ok (_, w) => w | Err _ => [] end.
Definition ex_source : Source := [RdData (take 20 ex_written); RdInterrupted; RdData (drop 20 ex_written)].
Definition ex_reads : list (list nat) := [[]; [2; 64; 0; 9; 9]%nat; [7%nat]].
Definition ex_delivered : list (FrameRecord * bytes) :=
  [(RecDirectory (of_str "a") 493, []); (RecRegular (of_str "a/b") 420 5, of_str "hello"); (RecSymlink (of_str "a.l") (of_str "../t"), []);
   (RecRegular (of_str "z") 384 0, [])].
Lemma ex_ops_typed : Forall op_typed ex_ops.
Proof. repeat constructor; simpl; try done. Qed.
Lemma ex_source_clean : clean ex_source.
Proof. unfold ex_source. repeat constructor; vm_compute; discriminate. Qed.

Definition ex_encoder : Encoder := match encoder_new [] ex_header ex_budget with Ok e => e | Err _ => mkEncoder [] [] [] 0 ex_budget 0 default_order 0 0 true end.
Lemma refusals_are_final_witness : exists e, enc_op toy_digest (OpDirectory (of_str "a") 493) (snd (enc_calls toy_digest [OpDirectory (of_str "b") 493] ex_encoder)) = (Err FeOutOfOrder, e) /\
  enc_calls toy_digest [OpSymlink (of_str "c") (of_str "t")] e = ([Err FePoisoned], e) /\ enc_finish toy_digest (Ok tt) e = (Err FePoisoned, e).
Proof.
  eexists. split; [vm_compute; reflexivity|].
  refine (proj1 (refusals_are_final toy_digest) [OpDirectory (of_str "b") 493] ex_encoder (OpDirectory (of_str "a") 493) FeOutOfOrder _ [OpSymlink (of_str "c") (of_str "t")] (Ok tt) _).
  vm_compute. reflexivity.
Defined.
Lemma canonical_order_exact_witness : let es := [(of_str "a", true); (of_str "a/b", false); (of_str "a.l", false)] in
  Forall (path_valid ∘ fst) es /\ (is_ok (admit_all es default_order) = true <-> canonical es) /\ admit_all es default_order = Ok (mkOrder (Some (of_str "a.l")) []).
Proof. cbn zeta. split_and!; [by repeat constructor| |by vm_compute]. apply canonical_order_exact. by repeat constructor. Defined.
Lemma decode_exactly_frames_witness : decode toy_digest ex_source ex_header ex_budget ex_reads = Ok ex_delivered /\
  match decode toy_digest ex_source ex_header ex_budget ex_reads with
  | Ok out => exists items, frame_valid toy_digest ex_header ex_budget items /\ contents ex_source = frame_bytes toy_digest ex_header items /\ delivered ex_reads out items
  | Err _ => forall items, frame_valid toy_digest ex_header ex_budget items -> contents ex_source <> frame_bytes toy_digest ex_header items
  end.
Proof.
  split; [by vm_compute|]. exact (decode_exactly_frames toy_digest toy_digest_length Worktree (of_str "gen-1") ex_header 16 4096 ex_budget ex_source ex_reads
    ltac:(vm_compute; reflexivity) ltac:(vm_compute; reflexivity) ltac:(lia) ltac:(vm_compute; reflexivity) ex_source_clean).
Defined.
Lemma encode_exactly_frames_witness : ex_written <> [] /\
  match encode toy_digest [WrAccept 3; WrInterrupted] ex_header ex_budget ex_ops (Ok tt) with
  | Ok (summary, written) => Ok tt = (Ok tt : result unit FrameError) /\ frame_valid toy_digest ex_header ex_budget (op_item <$> ex_ops) /\ written = frame_bytes toy_digest ex_header (op_item <$> ex_ops) /\
      summary = mkFrameSummary (Z.of_nat (length (op_item <$> ex_ops))) (content_total (op_item <$> ex_ops)) (zlen written) (toy_digest written)
  | Err _ => ~ (clean_sink [WrAccept 3; WrInterrupted] /\ Ok tt = (Ok tt : result unit FrameError) /\ frame_valid toy_digest ex_header ex_budget (op_item <$> ex_ops))
  end.
Proof.
  split; [by vm_compute|]. exact (encode_exactly_frames toy_digest toy_digest_length [WrAccept 3; WrInterrupted] Worktree (of_str "gen-1") ex_header 16 4096 ex_budget ex_ops (Ok tt)
    ltac:(vm_compute; reflexivity) ltac:(vm_compute; reflexivity) ltac:(lia) ltac:(vm_compute; reflexivity) ex_ops_typed).
Defined.
Lemma frame_roundtrip_witness : exists out, decode toy_digest ex_source ex_header ex_budget ex_reads = Ok out /\ delivered ex_reads out (op_item <$> ex_ops).
Proof.
  exact (frame_roundtrip toy_digest toy_digest_length [WrAccept 3; WrInterrupted] Worktree (of_str "gen-1") ex_header 16 4096 ex_budget ex_ops (Ok tt)
    (mkFrameSummary 4 5 (zlen ex_written) (toy_digest ex_written)) ex_written ex_source ex_reads
    ltac:(vm_compute; reflexivity) ltac:(vm_compute; reflexivity) ltac:(lia) ltac:(vm_compute; reflexivity) ex_ops_typed
    ltac:(vm_compute; reflexivity) ex_source_clean ltac:(vm_compute; reflexivity)).
Defined.
