(* ===== verification/FrameBounds.v ===== *)
(** * What a decoder takes from its source

    The bytes a frame decoder consumes, for any source: failing, lying or endless.
    Every read is paid for by an earlier admission against the budget; the trailer is
    paid for by its reservation, and one byte proves the end. The bookkeeping is a
    balance that reading spends and admission earns, with the content of an opened
    file admitted at once and owed until it is read. *)
From Stdlib Require Import Strings.Byte.
From S2P Require Import Prelude Domain Framing FramePath CustodyFrame FrameDecode FrameAccept FrameEncode FrameSafety.
Open Scope Z_scope.
Open Scope bridge_scope.

(** ** Reads of any source *)
Lemma contents_cons r src : contents (r :: src) = match r with RdData bs => bs | _ => [] end ++ contents src.
Proof. done. Qed.
Lemma read_some_taken want src r src' : read_some want src = (r, src') ->
  zlen (contents src) = match r with Ok bs => zlen bs | Err _ => 0 end + zlen (contents src') /\ match r with Ok bs => (length bs <= want)%nat | Err _ => True end.
Proof.
  induction src as [|[bs| |kind|] src IH]; rewrite ?contents_cons; cbn [read_some]; intros H; [by simplify_eq; split; [done|simpl; lia]| |by apply IH|by simplify_eq..].
  simplify_eq. destruct (Nat.ltb_spec want (length bs)); rewrite ?contents_cons; unfold zlen; rewrite ?length_app, ?length_take, ?length_drop; lia.
Qed.
Lemma read_exactly_taken fuel want src r src' : read_exactly_loop fuel want src = (r, src') ->
  zlen (contents src) - Z.of_nat want <= zlen (contents src') <= zlen (contents src).
Proof.
  revert want src r src'; induction fuel as [|fuel IH]; intros [|want] src r src'; cbn [read_exactly_loop]; intros H; [simplify_eq; lia..|].
  destruct (read_some (S want) src) as [[bs|x] src1] eqn:E; apply read_some_taken in E as [E Hl]; [|simplify_eq; lia].
  destruct bs as [|b bs]; [simplify_eq; unfold zlen in *; simpl in *; lia|].
  destruct (read_exactly_loop fuel _ src1) as [r2 src2] eqn:E2. apply IH in E2. simplify_eq. unfold zlen in *. lia.
Qed.

(** ** The balance *)
Definition owed (d : DecoderState) : Z := match de_pending d with Some p => Z.max 0 (pc_remaining p) + DIGEST_BYTES | None => 0 end.
Definition balance (s : Decoder) : Z := de_admitted (fst s) - owed (fst s) + zlen (contents (snd s)).
(** [netq P Q k kerr m]: from a state with [P], [m] leads to [Q], keeps_phase the budget, lets the balance fall by at most [k], by at most [kerr] when it refuses. *)
Definition in_limit (d : DecoderState) : Prop := de_admitted d <= de_record_limit d.
Definition netq {A} (P Q : DecoderState -> Prop) (k kerr : Z) (m : FM Decoder A) : Prop := forall s, P (fst s) -> in_limit (fst s) ->
  match m s with
  | (Ok _, s') => in_limit (fst s') /\ de_record_limit (fst s') = de_record_limit (fst s) /\ Q (fst s') /\ balance s - k <= balance s'
  | (Err _, s') => in_limit (fst s') /\ de_record_limit (fst s') = de_record_limit (fst s) /\ balance s - kerr <= balance s'
  end.
Notation net P := (netq P P).
(** No file is open. *)
Definition idle (d : DecoderState) : Prop := de_pending d = None.
Lemma net_weaken {A} P Q k k' kerr kerr' (m : FM Decoder A) : netq P Q k kerr m -> k <= k' -> kerr <= kerr' -> netq P Q k' kerr' m.
Proof. intros Hm Hk He s HP Hs. specialize (Hm s HP Hs). destruct (m s) as [[a|x] s']; intuition lia. Qed.
Lemma net_ret {A} P (a : A) : net P 0 0 (fret a).
Proof. intros s HP Hs. simpl. split_and!; done || lia. Qed.
Lemma net_refuse {A} P x : net P 0 0 (frefuse x : FM Decoder A).
Proof. intros s HP Hs. simpl. split_and!; done || lia. Qed.
Lemma net_lift {A} P (r : result A FrameError) : net P 0 0 (flift r).
Proof. intros s HP Hs. unfold flift. destruct r; split_and!; done || lia. Qed.
Lemma net_require P b x : net P 0 0 (frequire b x).
Proof. destruct b; [apply net_ret|apply net_refuse]. Qed.
Lemma net_dget P : net P 0 0 dget.
Proof. intros s HP Hs. simpl. split_and!; done || lia. Qed.
Lemma net_bind {A B} P Q R k1 e1 k2 e2 (m : FM Decoder A) (k : A -> FM Decoder B) : netq P Q k1 e1 m -> (forall a, netq Q R k2 e2 (k a)) ->
  netq P R (k1 + k2) (Z.max e1 (k1 + e2)) (fbind m k).
Proof.
  intros Hm Hk s HP Hs. unfold fbind. specialize (Hm s HP Hs). destruct (m s) as [[a|x] s1]; [|intuition lia].
  destruct Hm as (H1 & H2 & H3 & H4). specialize (Hk a s1 H3 H1). destruct (k a s1) as [[b|y] s2]; intuition (congruence || lia).
Qed.
Lemma net_bind0 {A B} P Q R (m : FM Decoder A) (k : A -> FM Decoder B) : netq P Q 0 0 m -> (forall a, netq Q R 0 0 (k a)) -> netq P R 0 0 (fbind m k).
Proof. apply (net_bind P Q R 0 0 0 0). Qed.
(** A state change that keeps_phase the account. *)
Definition neutral (f : DecoderState -> DecoderState) : Prop := forall d, de_admitted (f d) = de_admitted d /\ de_record_limit (f d) = de_record_limit d /\ de_pending (f d) = de_pending d.
Definition about_pending (P : DecoderState -> Prop) : Prop := forall d d', de_pending d' = de_pending d -> P d -> P d'.
Lemma net_dset P f : neutral f -> about_pending P -> net P 0 0 (dset f).
Proof.
  intros Hf HP s Hs Hl. destruct s as [d src]. destruct (Hf d) as (H1 & H2 & H3). unfold dset, in_limit, balance, owed in *. simpl in *. rewrite H1, H2, H3.
  split_and!; [done|done|by eapply HP|lia].
Qed.
Lemma net_read_exactly P n : net P (Z.of_nat n) (Z.of_nat n) (dread (read_exactly n)).
Proof.
  intros [d src] HP Hs. unfold dread, read_exactly. simpl. destruct (read_exactly_loop n n src) as [r src'] eqn:E. apply read_exactly_taken in E.
  unfold balance. destruct r; simpl; split_and!; done || lia.
Qed.
Lemma net_read_some P n : net P (Z.of_nat n) (Z.of_nat n) (dread (read_some n)).
Proof.
  intros [d src] HP Hs. unfold dread. simpl. destruct (read_some n src) as [r src'] eqn:E. apply read_some_taken in E as [E Hl].
  unfold balance, zlen in *. destruct r; simpl; split_and!; done || lia.
Qed.
Lemma net_admit P n : about_pending P -> net P (- n) 0 (dec_admit n).
Proof.
  intros HP [d src] Hs Hl. unfold dec_admit, fbind, dget, flift, frequire, dset, checked_add. simpl.
  destruct (Z.leb_spec (de_admitted d + n) u64_max); simpl; [|split_and!; done || lia].
  destruct (Z.leb_spec (de_admitted d + n) (de_record_limit d)); simpl; [|split_and!; done || lia].
  unfold balance, owed, in_limit in *. simpl. split_and!; [done|done|by apply (HP d)|lia].
Qed.
Lemma about_idle : about_pending idle.
Proof. unfold about_pending, idle. congruence. Qed.
Lemma about_true : about_pending (fun _ => True).
Proof. done. Qed.
#[local] Hint Resolve about_idle about_true : core.
Lemma net_frame_bytes P n : about_pending P -> net P (Z.of_nat n) (Z.of_nat n) (read_frame_bytes n).
Proof.
  intros HP. eapply net_weaken; [unfold read_frame_bytes; eapply net_bind; [apply net_read_exactly|intros ?; eapply net_bind; [by apply net_dset|intros ?; apply net_ret]]|lia|lia].
Qed.
Lemma net_u8 P : about_pending P -> net P 1 1 read_u8.
Proof. intros HP. eapply net_weaken; [eapply net_bind; [by apply net_frame_bytes|intros ?; apply net_ret]|lia|lia]. Qed.
Lemma net_u16 P : about_pending P -> net P 2 2 read_u16.
Proof. intros HP. eapply net_weaken; [eapply net_bind; [by apply net_frame_bytes|intros ?; apply net_ret]|lia|lia]. Qed.
Lemma net_u64 P : about_pending P -> net P 8 8 read_u64.
Proof. intros HP. eapply net_weaken; [eapply net_bind; [by apply net_frame_bytes|intros ?; apply net_ret]|lia|lia]. Qed.
Ltac net_leaf := first
  [apply net_dset; done | apply net_ret | apply net_refuse | apply net_lift | apply net_require | apply net_dget | apply net_read_exactly | apply net_read_some
  | apply net_frame_bytes; done | apply net_u8; done | apply net_u16; done | apply net_u64; done | apply net_admit; done].
Ltac net_steps := repeat (eapply (net_bind _ _ _); [net_leaf|intros ?]); try net_leaf.
(** Integers read are not negative. *)
Lemma net_bind_yield {A B} P R (Q : A -> Prop) k1 e1 k2 e2 (m : FM Decoder A) (k : A -> FM Decoder B) : (forall s a s', m s = (Ok a, s') -> Q a) ->
  net P k1 e1 m -> (forall a, Q a -> netq P R k2 e2 (k a)) -> netq P R (k1 + k2) (Z.max e1 (k1 + e2)) (fbind m k).
Proof.
  intros HQ Hm Hk s HP Hs. unfold fbind. specialize (Hm s HP Hs). specialize (HQ s). destruct (m s) as [[a|x] s1]; [|intuition lia].
  destruct Hm as (H1 & H2 & H3 & H4). specialize (Hk a (HQ _ _ eq_refl) s1 H3 H1). destruct (k a s1) as [[b|y] s2]; intuition (congruence || lia).
Qed.
Lemma le_yields n s a s' : (bs <~ read_frame_bytes n ;; fret (from_le bs)) s = (Ok a, s') -> 0 <= a.
Proof. unfold fbind at 1. destruct (read_frame_bytes n s) as [[bs|x] s1]; [|done]. intros [= <- _]. apply from_le_range. Qed.
Lemma net_bind_u16 {B} P R k2 e2 (k : Z -> FM Decoder B) : about_pending P -> (forall n, 0 <= n -> netq P R k2 e2 (k n)) -> netq P R (2 + k2) (Z.max 2 (2 + e2)) (fbind read_u16 k).
Proof. intros HP Hk. apply (net_bind_yield P R (fun n => 0 <= n)); [intros s a s'; apply le_yields|by apply net_u16|exact Hk]. Qed.
Lemma net_bind_u64 {B} P R k2 e2 (k : Z -> FM Decoder B) : about_pending P -> (forall n, 0 <= n -> netq P R k2 e2 (k n)) -> netq P R (8 + k2) (Z.max 8 (8 + e2)) (fbind read_u64 k).
Proof. intros HP Hk. apply (net_bind_yield P R (fun n => 0 <= n)); [intros s a s'; apply le_yields|by apply net_u64|exact Hk]. Qed.
Lemma net_path : net idle 0 0 read_path.
Proof.
  eapply net_weaken; [unfold read_path; eapply net_bind; [net_leaf|intros ?]; eapply net_bind_u16; [done|intros n Hn];
    eapply (net_weaken _ _ _ 0 _ 0); [net_steps|lia|lia]|lia|lia].
Qed.
Lemma net_order p dir : net idle 0 0 (dec_order p dir).
Proof. eapply net_weaken; [unfold dec_order; net_steps|lia|lia]. Qed.
Lemma net_directory p : net idle 0 0 (read_directory p).
Proof. eapply net_weaken; [unfold read_directory; net_steps|lia|lia]. Qed.
Lemma net_symlink p : net idle 0 0 (read_symlink p).
Proof.
  eapply net_weaken; [unfold read_symlink; eapply net_bind; [net_leaf|intros ?]; eapply net_bind_u16; [done|intros n Hn];
    eapply (net_weaken _ _ _ 0 _ 0); [net_steps|lia|lia]|lia|lia].
Qed.

(** ** Content *)
Lemma net_content cap : net (fun _ => True) 0 0 (read_content_bytes cap).
Proof.
  intros [d src] _ Hl. unfold read_content_bytes, fbind, dget. simpl. destruct (de_pending d) as [p|] eqn:Ep; [|simpl; split_and!; done || lia].
  destruct (Nat.eqb_spec (chunk_length (pc_remaining p) cap) 0) as [Hw|Hw]; [simpl; split_and!; done || lia|]. unfold dread. simpl.
  destruct (read_some _ src) as [r src'] eqn:E. apply read_some_taken in E as [E Hb]. destruct r as [[|b bs]|x]; simpl; [split_and!; try done..|].
  - unfold balance. simpl. unfold zlen in *. simpl in E. lia.
  - unfold balance, owed. simpl. rewrite Ep. cbn [pc_remaining]. unfold zlen, chunk_length in *. cbn [length] in *. lia.
  - unfold balance. simpl. split_and!; done || lia.
Qed.
Lemma net_discard fuel : net (fun _ => True) 0 0 (discard_loop fuel).
Proof.
  induction fuel as [|fuel IH]; [apply net_refuse|]. cbn [discard_loop]. eapply net_bind0; [apply net_dget|intros d].
  destruct (match de_pending d with Some p => 0 <? pc_remaining p | None => false end); [|apply net_ret].
  eapply net_bind0; [apply net_content|intros ?; exact IH].
Qed.
Section Bounds.
Context (sha256 : bytes -> bytes).
Lemma net_finish : netq (fun _ => True) idle 0 0 (finish_content sha256).
Proof.
  intros [d src] _ Hl. unfold finish_content. unfold fbind at 1. cbn [dget fst]. destruct (de_pending d) as [p|] eqn:Ep; [|simpl; split_and!; done || lia].
  unfold fbind at 1. cbn [dset fst snd]. set (d1 := set_content (de_content_bytes d) None d).
  assert (net idle 32 32 (stored <~ read_frame_bytes 32 ;; frequire (bool_decide (sha256 (pc_content p) = stored)) FeContentDigestMismatch)) as Hn.
  { eapply net_weaken; [net_steps|lia|lia]. }
  specialize (Hn (d1, src) eq_refl Hl). assert (balance (d, src) + 32 <= balance (d1, src)) by (unfold balance, owed, d1, DIGEST_BYTES; simpl; rewrite Ep; lia).
  match type of Hn with context [fbind ?m ?k (d1, src)] => destruct (fbind m k (d1, src)) as [[[]|x] s'] end; simpl in Hn; intuition lia.
Qed.
Lemma net_drain : netq (fun _ => True) idle 0 0 (drain_pending sha256).
Proof.
  eapply net_bind0; [|intros ?; apply net_finish]. intros s. exact (net_discard (S (source_size (snd s))) s).
Qed.
Lemma net_yielded n : netq (fun _ => True) (fun _ => True) 0 0 (read_yielded_content sha256 n).
Proof.
  unfold read_yielded_content. eapply net_bind0; [apply net_content|intros bs]. eapply net_bind0; [apply net_dget|intros d]. eapply net_bind0; [|intros ?; apply net_ret].
  destruct (match de_pending d with Some p => pc_remaining p =? 0 | None => false end); [|apply net_ret].
  intros s _ Hl. pose proof (net_finish s I Hl) as H. destruct (finish_content sha256 s) as [[]]; intuition.
Qed.

(** ** Entries and the trailer *)
Lemma net_open_file p m n : 0 <= n -> netq idle (fun _ => True) 0 0
  (size <~ flift (ok_or (checked_add n DIGEST_BYTES) FeByteBudget) ;; dec_admit size ;~
   d <~ dget ;; total <~ flift (ok_or (checked_add (de_content_bytes d) n) FeByteBudget) ;;
   dset (set_content total (Some (mkPendingContent n []))) ;~ fret (RecRegular p m n)).
Proof.
  intros Hn s Hi Hl. unfold fbind at 1, flift at 1. destruct (checked_add n DIGEST_BYTES) as [size|] eqn:E; simpl; [|split_and!; done || lia].
  apply checked_add_some in E as [-> _]. pose proof (net_admit idle (n + DIGEST_BYTES) about_idle s Hi Hl) as Ha. unfold fbind at 1.
  destruct (dec_admit (n + DIGEST_BYTES) s) as [[[]|x] [d1 src1]]; [|done]. destruct Ha as (H1 & H2 & H3 & H4). unfold fbind, dget, flift. simpl.
  destruct (ok_or (checked_add (de_content_bytes d1) n) FeByteBudget) as [total|x]; simpl in *; [|unfold DIGEST_BYTES in *; split_and!; done || lia].
  split_and!; [done..|]. unfold balance, owed in *. unfold idle in H3. simpl in *. rewrite H3 in H4. unfold DIGEST_BYTES in *. lia.
Qed.
Lemma net_regular p : netq idle (fun _ => True) 0 0 (read_regular p).
Proof.
  eapply net_weaken; [unfold read_regular; eapply net_bind; [net_leaf|intros ?]; eapply net_bind; [net_leaf|intros ?]; eapply net_bind; [net_leaf|intros m];
    eapply net_bind_u64; [done|intros n Hn; by apply net_open_file]|lia|lia].
Qed.
Lemma net_entry dir body : (forall p, netq idle (fun _ => True) 0 0 (body p)) -> netq idle (fun _ => True) (- 1) 0 (read_entry dir body).
Proof.
  intros Hb. eapply net_weaken; [unfold read_entry; do 3 (eapply net_bind; [net_leaf|intros ?]); eapply net_bind; [apply net_path|intros ?];
    eapply net_bind; [apply net_order|intros ?]; eapply net_bind; [apply Hb|intros ?]; net_steps|lia|lia].
Qed.
Lemma net_trailer : net idle 49 49 (read_trailer sha256).
Proof. eapply net_weaken; [unfold read_trailer; net_steps|lia|lia]. Qed.
Lemma trailer_completes s a s' : read_trailer sha256 s = (Ok a, s') -> de_phase (fst s') = DpComplete.
Proof. unfold read_trailer, fbind. intros H. repeat case_match; simplify_eq; try done. unfold dset in *. by simplify_eq. Qed.

(** The account of a decoder that has been given a source of [total] bytes. *)
Record accounted (total limit : Z) (s : Decoder) : Prop := {
  acc_limit : in_limit (fst s) /\ de_record_limit (fst s) = limit;
  acc_any : total <= balance s + 50;
  acc_open : de_phase (fst s) = DpOpen -> total <= balance s }.
Lemma entry_some dir body s r s' : read_entry dir body s = (Ok r, s') -> exists x, r = Some x.
Proof. unfold read_entry, fbind, fret. intros H. repeat case_match; simplify_eq; eauto. Qed.
Lemma next_record_net s : in_limit (fst s) ->
  match next_record sha256 s with
  | (Ok r, s') => in_limit (fst s') /\ de_record_limit (fst s') = de_record_limit (fst s) /\
      if r then balance s <= balance s' else balance s - 50 <= balance s' /\ de_phase (fst s') = DpComplete
  | (Err _, s') => in_limit (fst s') /\ de_record_limit (fst s') = de_record_limit (fst s) /\ balance s - 50 <= balance s'
  end.
Proof.
  intros Hl. unfold next_record. unfold fbind at 1. pose proof (net_drain s I Hl) as Hd. destruct (drain_pending sha256 s) as [[[]|x] s1]; [|intuition lia].
  destruct Hd as (Hl1 & Hr1 & Hi1 & Hb1). unfold fbind at 1. pose proof (net_u8 idle about_idle s1 Hi1 Hl1) as Hu. destruct (read_u8 s1) as [[tag|x] s2]; [|intuition (congruence || lia)].
  destruct Hu as (Hl2 & Hr2 & Hi2 & Hb2).
  assert (forall dir body, (forall p, netq idle (fun _ => True) 0 0 (body p)) -> match read_entry dir body s2 with
    | (Ok r, s') => in_limit (fst s') /\ de_record_limit (fst s') = de_record_limit (fst s) /\ if r then balance s <= balance s' else balance s - 50 <= balance s' /\ de_phase (fst s') = DpComplete
    | (Err _, s') => in_limit (fst s') /\ de_record_limit (fst s') = de_record_limit (fst s) /\ balance s - 50 <= balance s' end) as Hentry.
  { intros dir body Hb. pose proof (net_entry dir body Hb s2 Hi2 Hl2) as He. assert (forall r s', read_entry dir body s2 = (Ok r, s') -> exists x, r = Some x) as Hsome.
    { intros r s'. apply entry_some. }
    destruct (read_entry dir body s2) as [[r|x] s3]; [|intuition (congruence || lia)]. destruct (Hsome _ _ eq_refl) as [x ->]. intuition (congruence || lia). }
  destruct (Byte.eqb tag TAG_TRAILER).
  { unfold fbind. pose proof (net_trailer s2 Hi2 Hl2) as Ht. pose proof (trailer_completes s2) as Hc. destruct (read_trailer sha256 s2) as [[a|x] s3]; [|intuition (congruence || lia)].
    simpl. specialize (Hc _ _ eq_refl). intuition (congruence || lia). }
  destruct (Byte.eqb tag TAG_DIRECTORY); [apply Hentry; intros p s0 H0 H0'; pose proof (net_directory p s0 H0 H0'); destruct (read_directory p s0) as [[]]; intuition|].
  destruct (Byte.eqb tag TAG_REGULAR); [apply Hentry, net_regular|].
  destruct (Byte.eqb tag TAG_SYMLINK); [apply Hentry; intros p s0 H0 H0'; pose proof (net_symlink p s0 H0 H0'); destruct (read_symlink p s0) as [[]]; intuition|].
  simpl. intuition (congruence || lia).
Qed.
Lemma accounted_weaker total limit s s' : accounted total limit s -> in_limit (fst s') -> de_record_limit (fst s') = de_record_limit (fst s) ->
  balance s <= balance s' -> de_phase (fst s') = de_phase (fst s) \/ total <= balance s -> accounted total limit s'.
Proof. intros [[_ <-] H2 H3] H4 H5 H6 H7. split; [by rewrite H5|lia|]. intros Hp. destruct H7 as [H7|H7]; [rewrite H7 in Hp; specialize (H3 Hp)|]; lia. Qed.
Lemma next_entry_accounted total limit s : accounted total limit s -> accounted total limit (snd (next_entry sha256 s)).
Proof.
  intros Ha. pose proof Ha as [[H1 H1'] H2 H3]. unfold next_entry. destruct (de_phase (fst s)) eqn:Ep; [|exact Ha..]. specialize (H3 eq_refl).
  pose proof (next_record_net s H1) as Hn. destruct (next_record sha256 s) as [[[x|]|e] s']; simpl.
  - destruct Hn as (? & ? & ?). eapply accounted_weaker; eauto.
  - destruct Hn as (? & ? & ? & Hp). split; [split; [done|congruence]|lia|]. by rewrite Hp.
  - destruct Hn as (? & ? & Hb). split; [split; [done|simpl; congruence]| |done]. change (balance (set_phase DpPoisoned (fst s'), snd s')) with (balance s'). lia.
Qed.
(** Reading content does not end the frame. *)
Definition keeps_phase {A} (m : FM Decoder A) : Prop := forall s a s', m s = (Ok a, s') -> de_phase (fst s') = de_phase (fst s).
Lemma phase_bind {A B} (m : FM Decoder A) (k : A -> FM Decoder B) : keeps_phase m -> (forall a, keeps_phase (k a)) -> keeps_phase (fbind m k).
Proof. intros Hm Hk s b s'. unfold fbind. destruct (m s) as [[a|x] s1] eqn:E; [|done]. intros E2. by rewrite (Hk a _ _ _ E2), (Hm _ _ _ E). Qed.
Lemma phase_ret {A} (a : A) : keeps_phase (fret a).
Proof. by intros s x s' [= _ <-]. Qed.
Lemma phase_refuse {A} x : keeps_phase (frefuse x : FM Decoder A).
Proof. done. Qed.
Lemma phase_dget : keeps_phase dget.
Proof. by intros s x s' [= _ <-]. Qed.
Lemma phase_dset f : (forall d, de_phase (f d) = de_phase d) -> keeps_phase (dset f).
Proof. intros Hf s x s' [= _ <-]. apply Hf. Qed.
Lemma phase_dread r : keeps_phase (dread r).
Proof. intros s x s'. unfold dread. destruct (r (snd s)) as [a src]. by intros [= _ <-]. Qed.
Lemma phase_require b x : keeps_phase (frequire b x).
Proof. destruct b; [apply phase_ret|apply phase_refuse]. Qed.
Ltac phase_steps := repeat first
  [apply phase_bind; [|intros ?] | apply phase_ret | apply phase_refuse | apply phase_dget | apply phase_dread | apply phase_require | apply phase_dset; done | case_match].
Lemma yielded_phase n : keeps_phase (read_yielded_content sha256 n).
Proof. unfold read_yielded_content, read_content_bytes, finish_content, read_frame_bytes. phase_steps. Qed.
Lemma consumer_read_accounted total limit n s : accounted total limit s -> accounted total limit (snd (consumer_read sha256 n s)).
Proof.
  intros Ha. pose proof Ha as [[H1 H1'] H2 H3]. unfold consumer_read. pose proof (net_yielded n s I H1) as Hn. pose proof (yielded_phase n s) as Hph.
  destruct (read_yielded_content sha256 n s) as [[bs|e] s'].
  - destruct Hn as (? & ? & _ & ?). specialize (Hph _ _ eq_refl). destruct (de_phase (fst s)) eqn:Ep; simpl; try exact Ha;
      (eapply accounted_weaker; [exact Ha|done|done|lia|left; by rewrite Ep]).
  - destruct Hn as (? & ? & ?). assert (accounted total limit (set_phase DpPoisoned (fst s'), snd s')) as Hp.
    { split; [split; [done|simpl; congruence]| |done]. change (balance (set_phase DpPoisoned (fst s'), snd s')) with (balance s'). lia. }
    by destruct (de_phase (fst s)).
Qed.
Lemma dec_calls_accounted total limit cs s : accounted total limit s -> accounted total limit (snd (dec_calls sha256 cs s)).
Proof.
  revert s; induction cs as [|c cs IH]; intros s Ha; simpl; [done|].
  assert (accounted total limit (snd (dec_call sha256 c s))) as Hc.
  { destruct c; simpl; unfold fbind, fret; [pose proof (next_entry_accounted _ _ _ Ha)|pose proof (consumer_read_accounted _ _ capacity _ Ha)];
      [destruct (next_entry sha256 s) as [[]]|destruct (consumer_read sha256 capacity s) as [[]]]; done. }
  destruct (dec_call sha256 c s) as [r s1]. specialize (IH s1 Hc). by destruct (dec_calls sha256 cs s1).
Qed.
Lemma net_header h : net idle 0 (HEADER_FIXED_BYTES) (read_header h).
Proof.
  eapply net_weaken; [unfold read_header; do 8 (eapply net_bind; [net_leaf|intros ?]); eapply net_bind_u16; [done|intros n Hn];
    eapply (net_weaken _ _ _ 0 _ 0); [net_steps|lia|lia]|unfold HEADER_FIXED_BYTES; lia|unfold HEADER_FIXED_BYTES; lia].
Qed.

(** C26: a decoder takes at most its budget and one byte. Over any source whatever, failing, lying about lengths
    or endless, and after any calls, a decoder has taken at most the budget's frame bytes from the source, and
    one byte more to prove that the frame ends: no length the frame declares makes it read, or skip, past what
    was admitted. *)
Theorem decoder_takes_at_most_its_budget h b src s cs : decoder_new src h b = Ok s ->
  zlen (contents src) - zlen (contents (snd (snd (dec_calls sha256 cs s)))) <= max_frame_bytes b + 1.
Proof.
  unfold decoder_new, record_limit_of. destruct (Z.ltb_spec (max_frame_bytes b) TRAILER_BYTES) as [|Hl]; [done|]. cbn [result_bind].
  set (d0 := mkDecoder b (max_frame_bytes b - TRAILER_BYTES) 0 [] default_order 0 0 None DpOpen). pose proof (net_header h (d0, src) eq_refl) as Hn.
  destruct (read_header h (d0, src)) as [[[]|x] s1]; [|done]. intros [= <-]. destruct Hn as (H1 & H2 & _ & H4); [unfold in_limit; simpl; lia|].
  assert (accounted (zlen (contents src)) (max_frame_bytes b - TRAILER_BYTES) s1) as Ha.
  { assert (zlen (contents src) <= balance s1) by (unfold balance at 1, owed at 1 in H4; simpl in H4; lia). split; [done|lia|done]. }
  apply (dec_calls_accounted _ _ cs) in Ha as [[Hl1 Hl2] Ha _]. clear H1 H2 H4. destruct (snd (dec_calls sha256 cs s1)) as [d2 src2].
  unfold in_limit, balance, owed, TRAILER_BYTES, DIGEST_BYTES in *. cbn [fst snd] in *. destruct (de_pending d2); lia.
Qed.
End Bounds.

(** The worked frame with a declared length far past its budget: the header and the entry are taken, no content. *)
Definition ex_bomb : bytes := header_bytes ex_header ++ rec_head (RecRegular (of_str "f") 420 1000000) ++ of_str "some content".
Lemma decoder_takes_at_most_its_budget_witness : exists s, decoder_new [RdData ex_bomb; RdOverrun] ex_header ex_budget = Ok s /\
  fst (dec_calls toy_digest [CallNext; CallRead 8; CallNext] s) = [Err FeByteBudget; Err FePoisoned; Err FePoisoned] /\
  zlen (contents [RdData ex_bomb; RdOverrun]) - zlen (contents (snd (snd (dec_calls toy_digest [CallNext; CallRead 8; CallNext] s)))) <= max_frame_bytes ex_budget + 1.
Proof.
  eexists. split; [vm_compute; reflexivity|]. split; [vm_compute; reflexivity|].
  apply (decoder_takes_at_most_its_budget toy_digest ex_header ex_budget [RdData ex_bomb; RdOverrun]). vm_compute. reflexivity.
Defined.
