(* ===== verification/DirTxn.v ===== *)
(** * Crash-safe replacement and retirement of one directory entry
      ([bridge-core/src/namespace_transaction.rs], [fs_custody.rs])

    The namespace transaction replaces or removes a regular file of a journal
    directory through reserved sibling names: a synced staging file, a synced intent
    record, a capture of the predecessor, and only then publication and cleanup;
    recovery decides from what the directory holds. A system call is a step that a
    script may let fail, with or without its effect, or crash at; a crash returns the
    directory to any of its states since the last directory sync and cuts unsynced
    file contents. An object identity (device, inode, birth time) is a number that
    is not used twice; JSON and SHA-256 are parameters. The hooks of the code are for
    its tests and answer [false] otherwise; reasons of refusals are not kept. *)
From Stdlib Require Import Strings.Byte.
From S2P Require Import Prelude Domain Framing.
Open Scope Z_scope.
Open Scope bridge_scope.

#[global] Instance byte_countable : Countable byte.
Proof. apply (inj_countable Byte.to_N (fun n => Byte.of_N n)). intros b. apply Byte.of_to_N. Defined.

(** ** Names *)
Definition MAX_CHILD_NAME_V2_BYTES : nat := 255.
Definition child_name_from_bytes (b : bytes) : option bytes :=
  if (MAX_CHILD_NAME_V2_BYTES <? length b)%nat || bool_decide (b = []) || bool_decide (b = of_str ".") || bool_decide (b = of_str "..")
     || existsb (Byte.eqb x2f) b || existsb (Byte.eqb x5c) b then None
  else if existsb (Byte.eqb x00) b then None
  else if utf8_valid b then Some b else None.
Definition RESERVED_PREFIX : bytes := of_str ".a2a-v2-".
Definition starts_with (p b : bytes) : bool := match Framing.strip_prefix p b with Some _ => true | None => false end.
Definition is_reserved_target (b : bytes) : bool := starts_with RESERVED_PREFIX b.
Inductive ReservedNameNamespace := TransactionIntent | Staging | ReplacementCapture | RetirementCapture.
Definition ns_prefix (n : ReservedNameNamespace) : bytes :=
  of_str match n with TransactionIntent => ".a2a-v2-int-" | Staging => ".a2a-v2-stg-" | ReplacementCapture => ".a2a-v2-rpc-" | RetirementCapture => ".a2a-v2-rtc-" end.
Definition ns_all : list ReservedNameNamespace := [TransactionIntent; Staging; ReplacementCapture; RetirementCapture].
Definition reserved (n : ReservedNameNamespace) (target : bytes) : option bytes := child_name_from_bytes (ns_prefix n ++ target).
Definition parse_reserved (n : ReservedNameNamespace) (encoded : bytes) : option bytes :=
  match Framing.strip_prefix (ns_prefix n) encoded with Some v => child_name_from_bytes v | None => None end.

(** ** The directory, its files and its faults *)
Definition Object := nat.
Inductive FileKind := KRegular | KDirectory | KSymlink.
#[global] Instance file_kind_eq_dec : EqDecision FileKind.
Proof. solve_decision. Defined.
(** [in_extra] counts hard links from outside the directory. *)
Record Inode := mkInode { in_kind : FileKind; in_content : bytes; in_synced : bytes; in_extra : nat }.
Notation Directory := (gmap bytes Object).
(** What a system call meets: nothing; a failure, of the unsupported kind or not, that had its effect (in part) or
    not; a crash before or after its effect, with the directory state kept and the length of unsynced contents. *)
Inductive Fault := FNone | FFail (unsupported performed : bool) (part : nat) | FCrash (performed : bool) (part cut kept : nat).
Record World := mkWorld {
  wd_dir : Directory; wd_cuts : list Directory; wd_inodes : gmap Object Inode; wd_next : Object; wd_debt : bool; wd_faults : list Fault }.
Definition set_dir d w := mkWorld d (wd_dir w :: wd_cuts w) (wd_inodes w) (wd_next w) (wd_debt w) (wd_faults w).
Definition set_inodes i w := mkWorld (wd_dir w) (wd_cuts w) i (wd_next w) (wd_debt w) (wd_faults w).
Definition set_debt b w := mkWorld (wd_dir w) (wd_cuts w) (wd_inodes w) (wd_next w) b (wd_faults w).
Definition set_faults f w := mkWorld (wd_dir w) (wd_cuts w) (wd_inodes w) (wd_next w) (wd_debt w) f.
Definition cut_inode (kept : nat) (i : Inode) : Inode :=
  let c := take (Nat.max kept (length (in_synced i))) (in_content i) in mkInode (in_kind i) c c (in_extra i).
(** The machine stops; protective debt is memory of the process. *)
Definition crash (cut kept : nat) (w : World) : World :=
  mkWorld (default (wd_dir w) ((wd_dir w :: wd_cuts w) !! cut)) [] (cut_inode kept <$> wd_inodes w) (wd_next w) false (wd_faults w).

(** ** Programs *)
Inductive Run (A : Type) := Done (a : A) | Failed (unsupported : bool) | Crashed.
Arguments Done {A} _.
Arguments Failed {A} _.
Arguments Crashed {A}.
Definition Dm (A : Type) : Type := World -> Run A * World.
Definition dret {A} (a : A) : Dm A := fun w => (Done a, w).
Definition dfail {A} (unsupported : bool) : Dm A := fun w => (Failed unsupported, w).
Definition dbind {A B} (m : Dm A) (k : A -> Dm B) : Dm B := fun w =>
  match m w with (Done a, w') => k a w' | (Failed u, w') => (Failed u, w') | (Crashed, w') => (Crashed, w') end.
Definition dcatch {A} (m : Dm A) (k : bool -> Dm A) : Dm A := fun w => match m w with (Failed u, w') => k u w' | r => r end.
Notation "x <| m ;; k" := (dbind m (fun x => k)) (at level 100, m at next level, right associativity) : bridge_scope.
Notation "m ;| k" := (dbind m (fun _ => k)) (at level 100, right associativity) : bridge_scope.
Definition drequire (b : bool) : Dm unit := if b then dret tt else dfail false.
Definition dlift {A} (o : option A) : Dm A := match o with Some a => dret a | None => dfail false end.
(** A system call: its own answer ([None]: it refuses), and the effect it may have in part when it fails. *)
Definition sys {A} (unsupported_possible : bool) (run : World -> Run A * World) (part : nat -> World -> World) : Dm A := fun w =>
  let (f, w) := match wd_faults w with [] => (FNone, w) | f :: fs => (f, set_faults fs w) end in
  match f with
  | FNone => run w
  | FFail unsupported performed n =>
      let u := unsupported && unsupported_possible in (Failed u, if performed && negb u then part n w else w)
  | FCrash performed n cut kept => (Crashed, crash cut kept (if performed then part n w else w))
  end.
Definition ask {A} (unsupported_possible : bool) (f : World -> Run A) : Dm A := sys unsupported_possible (fun w => (f w, w)) (fun _ w => w).

(** ** System calls *)
Definition on_inode (f : Inode -> Inode) (id : Object) (w : World) : World := set_inodes (alter f id (wd_inodes w)) w.
Definition append_content (bs : bytes) (i : Inode) : Inode := mkInode (in_kind i) (in_content i ++ bs) (in_synced i) (in_extra i).
Definition settle_content (i : Inode) : Inode := mkInode (in_kind i) (in_content i) (in_content i) (in_extra i).
Definition sync_dir (w : World) : World := mkWorld (wd_dir w) [] (wd_inodes w) (wd_next w) (wd_debt w) (wd_faults w).
Definition create_child (name : bytes) (w : World) : Run Object * World :=
  match wd_dir w !! name with
  | Some _ => (Failed false, w)
  | None =>
      let w := set_dir (<[name := wd_next w]> (wd_dir w)) w in
      (Done (wd_next w), mkWorld (wd_dir w) (wd_cuts w) (<[wd_next w := mkInode KRegular [] [] 0]> (wd_inodes w)) (S (wd_next w)) (wd_debt w) (wd_faults w))
  end.
Definition rename_child (from to : bytes) (w : World) : Run unit * World :=
  match wd_dir w !! from, wd_dir w !! to with
  | Some id, None => (Done tt, set_dir (<[to := id]> (delete from (wd_dir w))) w)
  | _, _ => (Failed false, w)
  end.
Definition unlink_child (name : bytes) (w : World) : Run unit * World :=
  match wd_dir w !! name with Some _ => (Done tt, set_dir (delete name (wd_dir w)) w) | None => (Failed false, w) end.
Definition links (id : Object) (w : World) : nat :=
  (size (filter (fun '(_, i) => i = id) (wd_dir w)) + match wd_inodes w !! id with Some i => in_extra i | None => 0 end)%nat.

Definition sync_root : Dm unit := sys false (fun w => (Done tt, sync_dir w)) (fun _ w => sync_dir w).
Definition write_all_file (id : Object) (bs : bytes) : Dm unit :=
  sys false (fun w => (Done tt, on_inode (append_content bs) id w)) (fun n w => on_inode (append_content (take n bs)) id w).
Definition sync_file (id : Object) : Dm unit := sys false (fun w => (Done tt, on_inode settle_content id w)) (fun _ w => on_inode settle_content id w).
Definition openat_new (name : bytes) : Dm Object := sys false (create_child name) (fun _ w => snd (create_child name w)).
Definition rename_child_no_replace (from to : bytes) : Dm unit := sys true (rename_child from to) (fun _ w => snd (rename_child from to w)).
Definition unlinkat (name : bytes) : Dm unit := sys false (unlink_child name) (fun _ w => snd (unlink_child name w)).
(** The proof that the directory is still the bound one: its ancestors are outside the model, and a change of them is a
    fault of this step. *)
Definition prove_route : Dm unit := ask true (fun _ => Done tt).
Definition child_entry_exists (name : bytes) : Dm bool := ask false (fun w => Done (bool_decide (is_Some (wd_dir w !! name)))).
Definition open_regular_child (name : bytes) : Dm Object := ask true (fun w =>
  match wd_dir w !! name with
  | None => Failed false
  | Some id => match in_kind <$> wd_inodes w !! id with Some KRegular => Done id | Some KDirectory => Failed true | _ => Failed false end
  end).
Record FileContentSnapshot := mkSnapshot { sn_object : Object; sn_len : nat }.
#[global] Instance file_content_snapshot_eq_dec : EqDecision FileContentSnapshot.
Proof. solve_decision. Defined.
Definition content_of (w : World) (id : Object) : bytes := match wd_inodes w !! id with Some i => in_content i | None => [] end.
Definition file_snapshot (id : Object) : Dm FileContentSnapshot := ask true (fun w => Done (mkSnapshot id (length (content_of w id)))).
Definition read_file (id : Object) : Dm bytes := ask false (fun w => Done (content_of w id)).
Definition nlink (id : Object) : Dm nat := ask false (fun w => Done (links id w)).
Definition create_new_regular_child (name : bytes) : Dm Object := id <| openat_new name ;; file_snapshot id ;| dret id.
Definition CHILD_CAP : nat := Z.to_nat 4096.
(** [None]: more than [CHILD_CAP] children. *)
Definition enumerate_directory_names : Dm (option (list bytes)) := ask false (fun w =>
  let names := (map_to_list (wd_dir w)).*1 in Done (if (CHILD_CAP <? length names)%nat then None else Some names)).
Definition get_debt : Dm bool := fun w => (Done (wd_debt w), w).
Definition put_debt (b : bool) : Dm unit := fun w => (Done tt, set_debt b w).

(** ** Intents and outcomes *)
Inductive CustodyOperationKind := OpReplace | OpRetire.
#[global] Instance custody_operation_kind_eq_dec : EqDecision CustodyOperationKind.
Proof. solve_decision. Defined.
Record Ticket := mkTicket { tk_operation : CustodyOperationKind; tk_target : bytes }.
Inductive TxnOutcome := NtReady | NtComplete (t : Ticket) | NtNoEffect (t : Ticket) | NtRetained (t : Ticket) | NtProtectiveDebt | NtUnsupported.
Definition debt (t : Ticket) (unsupported : bool) : TxnOutcome := if unsupported then NtUnsupported else NtRetained t.
Definition protect (unsupported : bool) : TxnOutcome := if unsupported then NtUnsupported else NtProtectiveDebt.
Definition record (m : Dm TxnOutcome) : Dm TxnOutcome :=
  o <| m ;; match o with NtRetained _ | NtProtectiveDebt => put_debt true ;| dret o | _ => dret o end.
(** [[ChildNameV2; 4]] in the order of [ns_all]. *)
Record ReservedNames := mkNames { nm_intent : bytes; nm_staging : bytes; nm_replacement : bytes; nm_retirement : bytes }.
Record CustodyIntent := mkIntent {
  it_operation : CustodyOperationKind; it_target : bytes; it_expected : Object; it_staged : FileContentSnapshot; it_names : ReservedNames }.
Definition intent_new (op : CustodyOperationKind) (target : bytes) (expected : Object) (staged : FileContentSnapshot) : option CustodyIntent :=
  match reserved TransactionIntent target, reserved Staging target, reserved ReplacementCapture target, reserved RetirementCapture target with
  | Some a, Some b, Some c, Some d => Some (mkIntent op target expected staged (mkNames a b c d))
  | _, _, _, _ => None
  end.
Definition reserved_name (it : CustodyIntent) (n : ReservedNameNamespace) : bytes :=
  match n with TransactionIntent => nm_intent | Staging => nm_staging | ReplacementCapture => nm_replacement | RetirementCapture => nm_retirement end (it_names it).
Definition capture_name (it : CustodyIntent) : bytes :=
  reserved_name it match it_operation it with OpReplace => ReplacementCapture | OpRetire => RetirementCapture end.
Record IntentWire := mkWire {
  iw_schema : Z; iw_operation : CustodyOperationKind; iw_target : bytes; iw_expected : Object; iw_staged : FileContentSnapshot;
  iw_sha256 : option bytes; iw_reserved : list bytes }.
Definition to_wire (it : CustodyIntent) (sha : option bytes) : IntentWire :=
  mkWire 2 (it_operation it) (it_target it) (it_expected it) (it_staged it) sha (reserved_name it <$> ns_all).
Definition INTENT_CAP : nat := Z.to_nat 4096.
Definition ticket (it : CustodyIntent) : Ticket := mkTicket (it_operation it) (it_target it).

(** ** The transaction *)
Section Transaction.
Context (to_json : IntentWire -> bytes) (from_json : bytes -> option IntentWire) (sha256 : bytes -> bytes).

Definition snapshot (name : bytes) : Dm (option (Object * FileContentSnapshot)) :=
  there <| child_entry_exists name ;;
  if there : bool then id <| open_regular_child name ;; s <| file_snapshot id ;; dret (Some (id, s)) else dret None.
Definition snapshot_value (name : bytes) : Dm (option FileContentSnapshot) := v <| snapshot name ;; dret (snd <$> v).
Definition move_new (from to : bytes) : Dm unit := prove_route ;| rename_child_no_replace from to ;| sync_root.
Definition remove (name : bytes) (expected : FileContentSnapshot) : Dm unit :=
  v <| snapshot name ;; held <| dlift v ;; drequire (bool_decide (snd held = expected)) ;|
  v <| snapshot name ;; now <| dlift v ;; drequire (bool_decide (snd now = expected)) ;|
  prove_route ;| unlinkat name ;| n <| nlink (fst held) ;; drequire (n =? 0)%nat ;| sync_root.
Definition decode_intent (bs : bytes) : option (CustodyIntent * option bytes) :=
  match from_json bs with
  | None => None
  | Some w =>
      if negb (iw_schema w =? 2) then None
      else if negb (Bool.eqb (match iw_sha256 w with Some _ => true | None => false end) (bool_decide (iw_operation w = OpReplace))) then None
      else match child_name_from_bytes (iw_target w) with
      | None => None
      | Some target =>
          match intent_new (iw_operation w) target (iw_expected w) (iw_staged w) with
          | None => None
          | Some it => if bool_decide (iw_reserved (to_wire it (iw_sha256 w)) = iw_reserved w) then Some (it, iw_sha256 w) else None
          end
      end
  end.
Definition create_intent (it : CustodyIntent) (sha : option bytes) : Dm FileContentSnapshot :=
  prove_route ;| id <| create_new_regular_child (reserved_name it TransactionIntent) ;;
  let bs := to_json (to_wire it sha) in
  drequire (length bs <=? INTENT_CAP)%nat ;| write_all_file id bs ;| sync_file id ;| sync_root ;| file_snapshot id.
Definition read_intent (name : bytes) : Dm (CustodyIntent * FileContentSnapshot * option bytes) :=
  id <| open_regular_child name ;; len <| ask false (fun w => Done (length (content_of w id))) ;; drequire (len <=? INTENT_CAP)%nat ;|
  s <| file_snapshot id ;; bs <| read_file id ;; d <| dlift (decode_intent bs) ;; dret (fst d, s, snd d).
Definition clear_intent (it : CustodyIntent) (s : FileContentSnapshot) : Dm unit :=
  remove (reserved_name it TransactionIntent) s ;| sync_root ;| prove_route.
Definition verify_target (name : bytes) (expected : FileContentSnapshot) (commitment : bytes) : Dm unit :=
  v <| snapshot name ;; held <| dlift v ;; drequire (bool_decide (snd held = expected)) ;| sync_file (fst held) ;|
  s <| file_snapshot (fst held) ;; drequire (bool_decide (s = expected)) ;|
  bs <| read_file (fst held) ;; drequire (bool_decide (sha256 bs = commitment)).
(** [capture_target_no_replace_v2] as its callers use it: the predecessor is captured, the call is unsupported, or
    anything else. *)
Inductive CaptureOutcome := CapExpected | CapUnsupported | CapOther.
Definition identity_at (name : bytes) : Dm Object := id <| open_regular_child name ;; s <| file_snapshot id ;; dret (sn_object s).
Definition dattempt {A} (m : Dm A) : Dm (result A bool) := fun w =>
  match m w with (Done a, w') => (Done (Ok a), w') | (Failed u, w') => (Done (Err u), w') | (Crashed, w') => (Crashed, w') end.
Definition capture (it : CustodyIntent) : Dm CaptureOutcome :=
  r <| dattempt (identity_at (it_target it)) ;;
  match r with
  | Err true => dret CapUnsupported
  | Err false => dret CapOther
  | Ok _ =>
      r <| dattempt (rename_child_no_replace (it_target it) (capture_name it)) ;;
      match r with
      | Err true => dret CapUnsupported
      | Err false => dret CapOther
      | Ok _ =>
          r <| dattempt (identity_at (capture_name it)) ;;
          match r with
          | Err _ => dret CapOther
          | Ok captured => dret (if bool_decide (captured = it_expected it) then CapExpected else CapOther)
          end
      end
  end.

Definition ready (footprint : nat) : Dm (option TxnOutcome) :=
  d <| get_debt ;;
  if d : bool then dret (Some NtProtectiveDebt)
  else dcatch
    (prove_route ;| names <| enumerate_directory_names ;;
     match names with
     | None => put_debt true ;| dret (Some NtProtectiveDebt)
     | Some names =>
         prove_route ;| d <| get_debt ;;
         if d || existsb is_reserved_target names || (CHILD_CAP <? length names + footprint)%nat
         then put_debt true ;| dret (Some NtProtectiveDebt) else dret None
     end)
    (fun u => dret (Some (protect u))).
Definition finish (it : CustodyIntent) (intent_snap : FileContentSnapshot) (expectation : option (FileContentSnapshot * bytes)) : Dm TxnOutcome :=
  dcatch
    (v <| snapshot (capture_name it) ;; held <| dlift v ;; drequire (bool_decide (sn_object (snd held) = it_expected it)) ;|
     match expectation with Some (staged, commitment) => verify_target (it_target it) staged commitment | None => dret tt end ;|
     remove (capture_name it) (snd held) ;| clear_intent it intent_snap ;| dret (NtComplete (ticket it)))
    (fun u => dret (debt (ticket it) u)).

Definition decide_replace (again : Dm TxnOutcome) (it : CustodyIntent) (intent_snap : FileContentSnapshot) (commitment : bytes)
    (target stage swap del : option FileContentSnapshot) : Dm TxnOutcome :=
  let at_expected v := bool_decide (sn_object <$> v = Some (it_expected it)) in
  match del with
  | Some _ => dfail false
  | None =>
      if at_expected target && bool_decide (swap = None) then
        match stage with
        | Some v => drequire (bool_decide (v = it_staged it)) ;| remove (reserved_name it Staging) v
        | None => dret tt
        end ;| clear_intent it intent_snap ;| dret (NtNoEffect (ticket it))
      else if bool_decide (target = None) && at_expected swap && bool_decide (stage = Some (it_staged it)) then
        move_new (reserved_name it ReplacementCapture) (it_target it) ;| again
      else if bool_decide (target = Some (it_staged it)) && at_expected swap && bool_decide (stage = None) then
        verify_target (it_target it) (it_staged it) commitment ;| finish it intent_snap (Some (it_staged it, commitment))
      else if bool_decide (target = None) && bool_decide (is_Some swap) && negb (at_expected swap) then
        move_new (reserved_name it ReplacementCapture) (it_target it) ;| dfail false
      else dfail false
  end.
Definition decide_retire (it : CustodyIntent) (intent_snap : FileContentSnapshot) (target stage swap del : option FileContentSnapshot) : Dm TxnOutcome :=
  let at_expected v := bool_decide (sn_object <$> v = Some (it_expected it)) in
  if bool_decide (is_Some stage) || bool_decide (is_Some swap) then dfail false
  else if at_expected target && bool_decide (del = None) then clear_intent it intent_snap ;| dret (NtNoEffect (ticket it))
  else if bool_decide (target = None) && at_expected del then finish it intent_snap None
  else dfail false.
Definition recover_run (again : Dm TxnOutcome) : Dm TxnOutcome :=
  dcatch
    (prove_route ;| names <| enumerate_directory_names ;; names <| dlift names ;;
     let residue := List.filter is_reserved_target names in
     if existsb (fun n => match child_name_from_bytes n with Some _ => false | None => true end) residue then dret NtProtectiveDebt
     else
       let intents := List.filter (fun n => match parse_reserved TransactionIntent n with Some _ => true | None => false end) residue in
       match residue, intents with
       | [], _ => sync_root ;| prove_route ;| put_debt false ;| dret NtReady
       | _, [intent_name] =>
           r <| read_intent intent_name ;;
           let '(it, intent_snap, commitment) := r in
           if negb (bool_decide (intent_name = reserved_name it TransactionIntent)) || existsb (fun n => negb (bool_decide (n ∈ reserved_name it <$> ns_all))) residue
           then dret NtProtectiveDebt
           else dcatch
             (target <| snapshot_value (it_target it) ;; stage <| snapshot_value (reserved_name it Staging) ;;
              swap <| snapshot_value (reserved_name it ReplacementCapture) ;; del <| snapshot_value (reserved_name it RetirementCapture) ;;
              match it_operation it with
              | OpReplace => decide_replace again it intent_snap (default [] commitment) target stage swap del
              | OpRetire => decide_retire it intent_snap target stage swap del
              end)
             (fun u => dret (debt (ticket it) u))
       | _, _ => dret NtProtectiveDebt
       end)
    (fun u => dret (protect u)).
(** Recovery starts over after it has moved a capture back; the second round finds no capture, so it does not start
    a third, and the innermost outcome is never given. *)
Definition recover_with : Dm TxnOutcome := record (recover_run (record (recover_run (dret NtProtectiveDebt)))).
Definition rollback_unsupported : Dm TxnOutcome :=
  o <| recover_with ;; dret match o with NtReady | NtNoEffect _ => NtUnsupported | _ => NtProtectiveDebt end.

Definition inspect_captured_replace_predecessor (target : bytes) (max_bytes : nat) : Dm (option bytes) :=
  dcatch
    (prove_route ;| names <| enumerate_directory_names ;; names <| dlift names ;;
     let residue := List.filter is_reserved_target names in
     drequire (negb (existsb (fun n => match child_name_from_bytes n with Some _ => false | None => true end) residue)) ;|
     let intents := List.filter (fun n => match parse_reserved TransactionIntent n with Some _ => true | None => false end) residue in
     match intents with
     | [intent_name] =>
         r <| read_intent intent_name ;;
         let '(it, _, commitment) := r in
         drequire (bool_decide (it_operation it = OpReplace) && bool_decide (it_target it = target)) ;|
         drequire (bool_decide (intent_name = reserved_name it TransactionIntent) && forallb (fun n => bool_decide (n ∈ reserved_name it <$> ns_all)) residue) ;|
         v <| snapshot target ;; drequire (match v with None => true | Some _ => false end) ;|
         v <| snapshot (reserved_name it RetirementCapture) ;; drequire (match v with None => true | Some _ => false end) ;|
         v <| snapshot (capture_name it) ;; held <| dlift v ;; let captured := snd held in
         drequire (bool_decide (sn_object captured = it_expected it) && (sn_len captured <=? max_bytes)%nat) ;|
         v <| snapshot (reserved_name it Staging) ;;
         match v with
         | Some (file, staged) =>
             drequire (bool_decide (staged = it_staged it)) ;| bs <| read_file file ;; c <| dlift commitment ;; drequire (bool_decide (sha256 bs = c))
         | None => dret tt
         end ;|
         bs <| read_file (fst held) ;; drequire (length bs =? sn_len captured)%nat ;|
         s <| file_snapshot (fst held) ;; drequire (bool_decide (s = captured)) ;| dret (Some bs)
     | _ => dret None
     end)
    (fun _ => dret None).

Definition check_predecessor (target : bytes) (expected : Object) (k : FileContentSnapshot -> Dm TxnOutcome) (op : CustodyOperationKind) : Dm TxnOutcome :=
  v <| snapshot target ;;
  match v with
  | Some (_, s) => if bool_decide (sn_object s = expected) then k s else dret (NtNoEffect (mkTicket op target))
  | None => dret (NtNoEffect (mkTicket op target))
  end.
Definition replace_run (target : bytes) (expected : Object) (successor : bytes) : Dm TxnOutcome :=
  r <| ready 2 ;;
  match r with
  | Some o => dret o
  | None =>
      if is_reserved_target target then dret (NtNoEffect (mkTicket OpReplace target))
      else dcatch
        (check_predecessor target expected (fun _ =>
           stage_name <| dlift (reserved Staging target) ;; prove_route ;|
           stage <| create_new_regular_child stage_name ;; write_all_file stage successor ;| sync_file stage ;|
           staged <| file_snapshot stage ;; let commitment := sha256 successor in sync_root ;|
           it <| dlift (intent_new OpReplace target expected staged) ;; intent_snap <| create_intent it (Some commitment) ;;
           prove_route ;| c <| capture it ;;
           match c with
           | CapUnsupported => rollback_unsupported
           | CapOther => dattempt sync_root ;| recover_with
           | CapExpected =>
               sync_root ;| v <| dcatch (snapshot_value (reserved_name it Staging)) (fun _ => dret None) ;; drequire (bool_decide (v = Some staged)) ;|
               move_new (reserved_name it Staging) target ;| verify_target target staged commitment ;|
               finish it intent_snap (Some (staged, commitment))
           end) OpReplace)
        (fun u => dret (debt (mkTicket OpReplace target) u))
  end.
Definition replace (target : bytes) (expected : Object) (successor : bytes) : Dm TxnOutcome := record (replace_run target expected successor).
Definition retire_run (target : bytes) (expected : Object) : Dm TxnOutcome :=
  r <| ready 1 ;;
  match r with
  | Some o => dret o
  | None =>
      if is_reserved_target target then dret (NtNoEffect (mkTicket OpRetire target))
      else dcatch
        (check_predecessor target expected (fun observed =>
           it <| dlift (intent_new OpRetire target expected observed) ;; intent_snap <| create_intent it None ;;
           prove_route ;| c <| capture it ;;
           match c with
           | CapUnsupported => rollback_unsupported
           | CapOther => dattempt sync_root ;| recover_with
           | CapExpected => sync_root ;| finish it intent_snap None
           end) OpRetire)
        (fun u => dret (debt (mkTicket OpRetire target) u))
  end.
Definition retire (target : bytes) (expected : Object) : Dm TxnOutcome := record (retire_run target expected).
End Transaction.
