(* ===== verification/DirLogic.v ===== *)
(** * Phases of a directory transaction and a program logic with crashes

    The states a root directory goes through while one name is replaced or retired,
    as layouts of the name and its four reserved siblings, with what the files hold
    in each. [Inv] says that the directory and every state a crash may return it to
    is in one of these phases; it is closed under crashes. [wp] is a weakest
    precondition whose exits by failure and by crash are kept apart. [calm] runs meet
    no faults; for them the logic also proves that nothing fails. *)
From Stdlib Require Import Strings.Byte.
From S2P Require Import Prelude Domain Framing DirTxn.
Open Scope Z_scope.
Open Scope bridge_scope.

Inductive Slot := STarget | SRes (n : ReservedNameNamespace).
#[global] Instance namespace_eq_dec : EqDecision ReservedNameNamespace.
Proof. solve_decision. Defined.
#[global] Instance slot_eq_dec : EqDecision Slot.
Proof. solve_decision. Defined.
Definition slots : list Slot := STarget :: (SRes <$> ns_all).
Lemma slot_in s : s ∈ slots.
Proof. destruct s as [|[]]; unfold slots, ns_all; set_solver. Qed.
Definition Layout := Slot -> option Object.
Definition upd (l : Layout) (s : Slot) (v : option Object) : Layout := fun s' => if decide (s' = s) then v else l s'.

(** ** Layouts *)
Section Layouts.
Context (t : bytes) (rest : Directory).
Definition rname (n : ReservedNameNamespace) : bytes := ns_prefix n ++ t.
Definition slot_name (s : Slot) : bytes := match s with STarget => t | SRes n => rname n end.
Definition place (l : Layout) (s : Slot) (d : Directory) : Directory := match l s with Some x => <[slot_name s := x]> d | None => d end.
Definition dir_of (l : Layout) : Directory := foldr (place l) rest slots.
Context (t_plain : is_reserved_target t = false) (rest_target : rest !! t = None).
Context (rest_plain : forall n, is_reserved_target n = true -> rest !! n = None).

Lemma rname_reserved n : is_reserved_target (rname n) = true.
Proof. by destruct n. Qed.
Lemma slot_name_inj s s' : slot_name s = slot_name s' -> s = s'.
Proof.
  destruct s as [|n], s' as [|n']; simpl; intros E; [done| | |].
  - rewrite E, rname_reserved in t_plain. done.
  - rewrite <- E, rname_reserved in t_plain. done.
  - f_equal. destruct n, n'; try done.
Qed.
Lemma rest_slot s : rest !! slot_name s = None.
Proof. destruct s; [done|]. apply rest_plain, rname_reserved. Qed.
Lemma lookup_foldr l ss s : NoDup ss -> foldr (place l) rest ss !! slot_name s = if bool_decide (s ∈ ss) then l s else None.
Proof.
  induction ss as [|s' ss IH]; intros Hnd; simpl; [by rewrite rest_slot|]. inversion_clear Hnd as [|? ? Hni Hnd']. specialize (IH Hnd'). set (d := foldr (place l) rest ss) in *. unfold place. destruct (decide (s = s')) as [->|Hne].
  - rewrite bool_decide_eq_true_2 by set_solver. destruct (l s') as [x|]; [by rewrite lookup_insert_eq|]. rewrite IH. by rewrite bool_decide_eq_false_2.
  - assert (slot_name s' <> slot_name s) by (intros E; by apply Hne, slot_name_inj).
    transitivity (d !! slot_name s); [destruct (l s'); [by rewrite lookup_insert_ne|done]|]. rewrite IH.
    destruct (decide (s ∈ ss)); [rewrite !bool_decide_eq_true_2 by set_solver|rewrite !bool_decide_eq_false_2 by set_solver]; done.
Qed.
Lemma slots_nodup : NoDup slots.
Proof. unfold slots, ns_all; simpl. repeat constructor; set_solver. Qed.
Lemma lookup_slot l s : dir_of l !! slot_name s = l s.
Proof. unfold dir_of. rewrite lookup_foldr by apply slots_nodup. by rewrite bool_decide_eq_true_2 by apply slot_in. Qed.
Lemma lookup_rest l n : (forall s, n <> slot_name s) -> dir_of l !! n = rest !! n.
Proof.
  intros Hn. unfold dir_of. induction slots as [|s ss IH]; simpl; [done|]. set (d := foldr (place l) rest ss) in *. unfold place. destruct (l s); [|done]. by rewrite lookup_insert_ne.
Qed.
Lemma slot_dec n : {s | n = slot_name s} + {forall s, n <> slot_name s}.
Proof.
  destruct (decide (n = t)) as [->|H]; [left; by exists STarget|].
  destruct (decide (n = rname TransactionIntent)) as [->|H1]; [left; by exists (SRes TransactionIntent)|].
  destruct (decide (n = rname Staging)) as [->|H2]; [left; by exists (SRes Staging)|].
  destruct (decide (n = rname ReplacementCapture)) as [->|H3]; [left; by exists (SRes ReplacementCapture)|].
  destruct (decide (n = rname RetirementCapture)) as [->|H4]; [left; by exists (SRes RetirementCapture)|].
  right. intros [|[]]; done.
Defined.
Lemma dir_ext l l' : (forall s, l s = l' s) -> dir_of l = dir_of l'.
Proof.
  intros Hl. apply map_eq. intros n. destruct (slot_dec n) as [[s ->]|Hn]; [by rewrite !lookup_slot|by rewrite !lookup_rest].
Qed.
Lemma insert_slot l s x : <[slot_name s := x]> (dir_of l) = dir_of (upd l s (Some x)).
Proof.
  apply map_eq. intros n. destruct (slot_dec n) as [[s' ->]|Hn].
  - rewrite lookup_slot. unfold upd. destruct (decide (s' = s)) as [->|Hne]; [by rewrite lookup_insert_eq|].
    rewrite lookup_insert_ne by (intros E; by apply Hne, slot_name_inj). apply lookup_slot.
  - rewrite lookup_insert_ne by (by intros E; apply (Hn s)). by rewrite !lookup_rest.
Qed.
Lemma delete_slot l s : delete (slot_name s) (dir_of l) = dir_of (upd l s None).
Proof.
  apply map_eq. intros n. destruct (slot_dec n) as [[s' ->]|Hn].
  - rewrite lookup_slot. unfold upd. destruct (decide (s' = s)) as [->|Hne]; [by rewrite lookup_delete_eq|].
    rewrite lookup_delete_ne by (intros E; by apply Hne, slot_name_inj). apply lookup_slot.
  - rewrite lookup_delete_ne by (by intros E; apply (Hn s)). by rewrite !lookup_rest.
Qed.
End Layouts.

(** ** Phases *)
Inductive Step := Drafted | Intended | Unstaged | Captured | Published | Committed.
(** An object with its content. *)
Definition Held : Type := Object * bytes.
(** No transaction; a staging file without an intent (its content, once it is settled); a transaction with its
    predecessor, its successor (for a retirement the predecessor again), the intent's object and the step. *)
Inductive Phase :=
| Quiet (v : option Held)
| Stage (o : Held) (s : Object) (c : option bytes)
| Txn (op : CustodyOperationKind) (o s : Held) (i : Object) (st : Step).
Definition lay (p : Phase) : Layout := fun slot =>
  match p, slot with
  | Quiet v, STarget => fst <$> v
  | Stage o _ _, STarget => Some (fst o)
  | Stage _ s _, SRes Staging => Some s
  | Txn _ _ _ i _, SRes TransactionIntent => Some i
  | Txn OpReplace o _ _ (Drafted | Intended | Unstaged), STarget => Some (fst o)
  | Txn OpReplace _ s _ (Published | Committed), STarget => Some (fst s)
  | Txn OpReplace _ s _ (Drafted | Intended | Captured), SRes Staging => Some (fst s)
  | Txn OpReplace o _ _ (Captured | Published), SRes ReplacementCapture => Some (fst o)
  | Txn OpRetire o _ _ (Drafted | Intended), STarget => Some (fst o)
  | Txn OpRetire o _ _ Captured, SRes RetirementCapture => Some (fst o)
  | _, _ => None
  end.

(** What a run is set in: the JSON library and SHA-256, the name at stake, the other entries of the directory, the
    contents that were asked for, whether its removal was, whether its files have no other links, and whether the run
    meets no faults. *)
Class Setting := mkSetting {
  to_json : IntentWire -> bytes; from_json : bytes -> option IntentWire; sha256 : bytes -> bytes;
  target_name : bytes; others : Directory; asked : bytes -> Prop; may_vanish : Prop; sole : bool; calm : bool }.
(** The name is an ordinary one that leaves room for the reserved prefixes, and no other entry is reserved; JSON reads
    back what it wrote and nothing less; a calm directory is within its capacity and shares no file. *)
Class SettingOk (X : Setting) : Prop := {
  name_valid : child_name_from_bytes target_name = Some target_name;
  name_plain : is_reserved_target target_name = false;
  name_room n : reserved n target_name = Some (rname target_name n);
  others_target : others !! target_name = None;
  others_plain n : is_reserved_target n = true -> others !! n = None;
  json_reads w : from_json (to_json w) = Some w;
  json_prefix w k : (k < length (to_json w))%nat -> from_json (take k (to_json w)) = None;
  calm_sole : calm = true -> sole = true;
  calm_room : calm = true -> (size others + 5 <= CHILD_CAP)%nat }.
Section Logic.
Context {X : Setting} {ok : SettingOk X}.
Notation t := target_name.
Notation rest := others.
Notation DirOf p := (dir_of t rest (lay p)).

Definition the_intent (op : CustodyOperationKind) (o s : Held) : CustodyIntent :=
  mkIntent op t (fst o) (mkSnapshot (fst s) (length (snd s)))
    (mkNames (rname t TransactionIntent) (rname t Staging) (rname t ReplacementCapture) (rname t RetirementCapture)).
Definition commitment_of (op : CustodyOperationKind) (s : Held) : option bytes := match op with OpReplace => Some (sha256 (snd s)) | OpRetire => None end.
Definition intent_bytes (op : CustodyOperationKind) (o s : Held) : bytes := to_json (to_wire (the_intent op o s) (commitment_of op s)).
(** A file whose content is on disk, with no link from elsewhere where [sole] says so. *)
Definition settled_file (w : World) (f : Held) : Prop := exists x, wd_inodes w !! fst f = Some (mkInode KRegular (snd f) (snd f) x) /\
  (sole = true -> x = 0%nat /\ forall n, rest !! n <> Some (fst f)).
(** A file that holds a beginning of [bs], all of it perhaps not yet on disk. *)
Definition fits_cap (bs : bytes) : Prop := (length bs <= INTENT_CAP)%nat.
Definition drafted_file (w : World) (i : Object) (bs : bytes) : Prop := exists k sy x, wd_inodes w !! i = Some (mkInode KRegular (take k bs) sy x) /\
  ((0 < k)%nat -> fits_cap bs) /\ (sole = true -> x = 0%nat /\ forall n, rest !! n <> Some i).
Definition facts (p : Phase) (w : World) : Prop :=
  match p with
  | Quiet v => match v with Some o => settled_file w o /\ asked (snd o) | None => may_vanish end
  | Stage o s c => settled_file w o /\ asked (snd o) /\ fst o <> s /\
      match c with Some c => settled_file w (s, c) /\ asked c | None => exists x sy, wd_inodes w !! s = Some (mkInode KRegular x sy 0) end
  | Txn op o s i st => settled_file w o /\ asked (snd o) /\ settled_file w s /\ asked (snd s) /\ i <> fst o /\ i <> fst s /\
      match op with OpReplace => fst o <> fst s | OpRetire => s = o /\ may_vanish /\ st <> Unstaged /\ st <> Published end /\
      match st with Drafted | Unstaged => drafted_file w i (intent_bytes op o s)
      | _ => settled_file w (i, intent_bytes op o s) /\ fits_cap (intent_bytes op o s) end
  end.
Definition bounded (w : World) : Prop := (forall id i, wd_inodes w !! id = Some i -> (id < wd_next w)%nat) /\ (forall n id, rest !! n = Some id -> (id < wd_next w)%nat).
Definition phase_of (w : World) (d : Directory) : Prop := exists p, d = DirOf p /\ facts p w.
Record St (p : Phase) (w : World) : Prop := {
  st_dir : wd_dir w = DirOf p;
  st_facts : facts p w;
  st_cuts : Forall (phase_of w) (wd_cuts w);
  st_bounded : bounded w;
  st_calm : calm = true -> wd_faults w = [] }.
Definition Inv (w : World) : Prop := exists p, St p w.

(** *** Crashes *)
Lemma cut_settled kept w f : settled_file w f -> settled_file (mkWorld (wd_dir w) (wd_cuts w) (cut_inode kept <$> wd_inodes w) (wd_next w) (wd_debt w) (wd_faults w)) f.
Proof.
  intros (x & Hi & Hx). exists x. simpl. rewrite lookup_fmap, Hi. split; [|done]. simpl. unfold cut_inode. simpl. by rewrite take_ge by lia.
Qed.
Definition same_files (w w' : World) : Prop := wd_inodes w' = wd_inodes w.
Lemma facts_same p w w' : same_files w w' -> facts p w -> facts p w'.
Proof.
  unfold same_files. intros E. unfold facts, settled_file, drafted_file. rewrite E. done.
Qed.
Lemma facts_cut kept p w : facts p w -> facts p (set_inodes (cut_inode kept <$> wd_inodes w) w).
Proof.
  assert (forall f, settled_file w f -> settled_file (set_inodes (cut_inode kept <$> wd_inodes w) w) f) as Hs by (intros f; apply (cut_settled kept)).
  destruct p as [[o|]|o s c|op o s i st]; simpl; [naive_solver|done| |].
  - intros (? & ? & ? & Hc). split_and!; auto. destruct c as [c|]; [naive_solver|]. destruct Hc as (x & sy & Hi). rewrite lookup_fmap, Hi. by eexists _, _.
  - intros (? & ? & ? & ? & ? & ? & ? & Hi). split_and!; auto. destruct st; [| | |naive_solver..]; [|naive_solver|];
      (destruct Hi as (k & sy & x & Hi & Hk & Hx); exists (Nat.min (Nat.max kept (length sy)) k); eexists _, x; simpl; rewrite lookup_fmap, Hi;
       split; [simpl; unfold cut_inode; simpl; by rewrite take_take|split; [intros; apply Hk; lia|done]]).
Qed.
Lemma crash_inv cut kept w : calm = false -> Inv w -> Inv (crash cut kept w).
Proof.
  intros Hcalm [p [Hd Hf Hc [Hb Hb2] _]]. assert (phase_of w (default (wd_dir w) ((wd_dir w :: wd_cuts w) !! cut))) as (p' & Hp' & Hf').
  { destruct ((wd_dir w :: wd_cuts w) !! cut) as [d|] eqn:E; simpl; [|by exists p]. apply list_elem_of_lookup_2 in E.
    apply elem_of_cons in E as [->|E]; [by exists p|]. rewrite Forall_forall in Hc. by apply Hc. }
  exists p'. split; simpl; [done|by eapply facts_same, facts_cut|constructor| |congruence]. split; simpl; [|done].
  intros id i. rewrite lookup_fmap. intros (j & Hj & ->)%fmap_Some. by eapply Hb.
Qed.
Lemma faults_st p w fs : (calm = true -> fs = []) -> St p w -> St p (set_faults fs w).
Proof. intros Hfs [H1 H2 H3 H4 H5]. split; [done|by eapply facts_same| |done|done]. eapply Forall_impl; [exact H3|]. intros d (q & -> & Hq). exists q. split; [done|by eapply facts_same]. Qed.
Lemma faults_inv w fs : (calm = true -> fs = []) -> Inv w -> Inv (set_faults fs w).
Proof. intros Hfs [p Hp]. exists p. by apply faults_st. Qed.

(** *** Weakest preconditions *)
Definition wp {A} (m : Dm A) (Q : A -> World -> Prop) (E : bool -> World -> Prop) (w : World) : Prop :=
  match m w with
  | (Done a, w') => Q a w'
  | (Failed u, w') => E u w'
  | (Crashed, w') => calm = false /\ Inv w'
  end.
(** A failure that faults cause may leave any phase. *)
Definition exits (E : bool -> World -> Prop) : Prop := forall u w, calm = false -> Inv w -> E u w.
(** Assertions that do not depend on the faults to come. *)
Definition stable (P : World -> Prop) : Prop := forall w fs, (calm = true -> fs = []) -> P w -> P (set_faults fs w).
Lemma wp_ret {A} (a : A) Q E w : Q a w -> wp (dret a) Q E w.
Proof. done. Qed.
Lemma wp_bind {A B} (m : Dm A) (k : A -> Dm B) Q E w : wp m (fun a => wp (k a) Q E) E w -> wp (dbind m k) Q E w.
Proof. unfold wp, dbind. by destruct (m w) as [[a|u|] w']. Qed.
Lemma wp_catch {A} (m : Dm A) k Q E w : wp m Q (fun u => wp (k u) Q E) w -> wp (dcatch m k) Q E w.
Proof. unfold wp, dcatch. by destruct (m w) as [[a|u|] w']. Qed.
Lemma wp_attempt {A} (m : Dm A) Q E w : wp m (fun a => Q (Ok a)) (fun u => Q (Err u)) w -> wp (dattempt m) Q E w.
Proof. unfold wp, dattempt. by destruct (m w) as [[a|u|] w']. Qed.
Lemma wp_conseq {A} (m : Dm A) (Q Q' : A -> World -> Prop) (E E' : bool -> World -> Prop) w :
  (forall a w', Q a w' -> Q' a w') -> (forall u w', E u w' -> E' u w') -> wp m Q E w -> wp m Q' E' w.
Proof. intros HQ HE. unfold wp. destruct (m w) as [[a|u|] w']; auto. Qed.
Lemma wp_require (b : bool) Q E w : (b = true -> Q tt w) -> (b = false -> E false w) -> wp (drequire b) Q E w.
Proof. destruct b; unfold wp; simpl; auto. Qed.
(** A system call from [P]: its effect leads to [P'], a failed or interrupted call to a phase. *)
Lemma wp_sys_exact {A} up (run : World -> Run A * World) part (P : World -> Prop) (Q : A -> World -> Prop) (E : bool -> World -> Prop) w :
  stable P -> (forall u w, calm = false -> P w -> E u w /\ forall n, E u (part n w)) -> P w -> (forall w, P w -> Inv w /\ forall n, Inv (part n w)) ->
  (forall w, P w -> match run w with (Done a, w') => Q a w' | (Failed u, w') => E u w' | (Crashed, _) => False end) -> wp (sys up run part) Q E w.
Proof.
  intros HP HE Hw Hinv Hrun. unfold wp, sys.
  assert (forall f fs, wd_faults w = f :: fs -> calm = false) as Hcalm.
  { intros f fs Ef. destruct calm eqn:Ec; [|done]. destruct (Hinv w Hw) as [[p Hp] _]. rewrite (st_calm _ _ Hp Ec) in Ef. done. }
  assert (forall fs, calm = false -> P (set_faults fs w)) as HPf by (intros fs Hc; apply HP; [congruence|done]).
  destruct (wd_faults w) as [|f fs] eqn:Ef.
  - specialize (Hrun w Hw). destruct (run w) as [[a|u|] w']; done.
  - specialize (Hcalm f fs eq_refl). pose proof (HPf fs Hcalm) as Hw'. destruct (Hinv _ Hw') as [Hi Hp]. destruct f as [|u pf n|pf n cut kept].
    + specialize (Hrun _ Hw'). destruct (run (set_faults fs w)) as [[a|u|] w']; done.
    + destruct (HE (u && up) _ Hcalm Hw') as [He Hn]. by destruct (pf && negb (u && up)).
    + split; [done|]. apply crash_inv; [done|]. destruct pf; auto.
Qed.
Lemma wp_sys {A} up (run : World -> Run A * World) part (P : World -> Prop) (Q : A -> World -> Prop) E w :
  stable P -> exits E -> P w -> (forall w, P w -> Inv w /\ forall n, Inv (part n w)) ->
  (forall w, P w -> match run w with (Done a, w') => Q a w' | (Failed u, w') => E u w' | (Crashed, _) => False end) -> wp (sys up run part) Q E w.
Proof. intros HP HE Hw Hinv. apply (wp_sys_exact _ _ _ P); [done| |done|done]. intros u w' Hc Hw'. destruct (Hinv w' Hw') as [Hi Hn]. split; [by apply HE|]. intros n. by apply HE. Qed.
Lemma wp_ask_exact {A} up (f : World -> Run A) (P : World -> Prop) (Q : A -> World -> Prop) (E : bool -> World -> Prop) w :
  stable P -> (forall u w, calm = false -> P w -> E u w) -> P w -> (forall w, P w -> Inv w) ->
  (forall w, P w -> match f w with Done a => Q a w | Failed u => E u w | Crashed => False end) -> wp (ask up f) Q E w.
Proof.
  intros HP HE Hw Hi Hf. apply (wp_sys_exact _ _ _ P); [done|by intros u w' Hc Hw'; split; [|intros _]; apply HE|done|by intros w' Hw'; split; [|intros _]; apply Hi|].
  intros w' Hw'. specialize (Hf w' Hw'). by destruct (f w').
Qed.
Lemma wp_ask {A} up (f : World -> Run A) (P : World -> Prop) (Q : A -> World -> Prop) E w :
  stable P -> exits E -> P w -> (forall w, P w -> Inv w) ->
  (forall w, P w -> match f w with Done a => Q a w | Failed u => E u w | Crashed => False end) -> wp (ask up f) Q E w.
Proof. intros HP HE Hw Hi Hf. apply (wp_ask_exact _ _ P); [done|intros u w' Hc Hw'; apply HE; auto|done|done|done]. Qed.
End Logic.
