(* ===== verification/DirSteps.v ===== *)
(** * The steps of a directory transaction, phase by phase

    Specifications in the logic of [DirLogic] of snapshots, moves, removals, target
    verification, the end of a transaction and the reading of an intent. *)
From Stdlib Require Import Strings.Byte.
From S2P Require Import Prelude Domain Framing DirTxn DirLogic.
Open Scope Z_scope.
Open Scope bridge_scope.

Section Steps.
Context {X : Setting} {ok : SettingOk X}.
Notation DirOf p := (dir_of target_name others (lay p)).
Notation slot_nm := (slot_name target_name).

Lemma st_lookup p w s : St p w -> wd_dir w !! slot_nm s = lay p s.
Proof. intros [-> _ _ _ _]. apply lookup_slot; apply ok. Qed.
Lemma st_inv p w : St p w -> Inv w.
Proof. intros H. by exists p. Qed.
(** What is on disk when the machine stops now. *)
Definition durable (p : Phase) (w : World) : Prop := St p w /\ wd_cuts w = [].
Lemma stable_st p : stable (St p).
Proof. intros w fs Hfs Hw. by apply faults_st. Qed.
Lemma stable_durable p : stable (durable p).
Proof. intros w fs Hfs [Hw Hc]. split; [by apply faults_st|done]. Qed.
Lemma stable_and P Q : stable P -> stable Q -> stable (fun w => P w /\ Q w).
Proof. intros HP HQ w fs Hfs [? ?]. split; [by apply HP|by apply HQ]. Qed.
(** A file under a name, or nothing. *)
Definition regular_with (w : World) (f : Held) : Prop := exists sy x, wd_inodes w !! fst f = Some (mkInode KRegular (snd f) sy x).
Definition shows (name : bytes) (v : option Held) (w : World) : Prop :=
  match v with None => wd_dir w !! name = None | Some f => wd_dir w !! name = Some (fst f) /\ regular_with w f end.
Lemma stable_regular f : stable (fun w => regular_with w f).
Proof. by intros w fs _ Hf. Qed.
Lemma settled_regular w f : settled_file w f -> regular_with w f.
Proof. intros (x & Hi & _). by eexists _, _. Qed.
Lemma regular_content w f : regular_with w f -> content_of w (fst f) = snd f.
Proof. intros (sy & x & Hi). unfold content_of. by rewrite Hi. Qed.
Definition snap_of (f : Held) : FileContentSnapshot := mkSnapshot (fst f) (length (snd f)).

(** ** Reads *)
Section Reads.
Context (P : World -> Prop) (HP : stable P) (Hinv : forall w, P w -> Inv w).
Lemma wp_prove_route Q E w : exits E -> P w -> (forall w, P w -> Q tt w) -> wp prove_route Q E w.
Proof. intros HE Hw HQ. by apply (wp_ask _ _ P). Qed.
Lemma wp_snapshot name v Q E w : exits E -> (forall w, P w -> shows name v w) -> P w ->
  (forall w, P w -> Q ((fun f => (fst f, snap_of f)) <$> v) w) -> wp (snapshot name) Q E w.
Proof.
  intros HE Hv Hw HQ. apply wp_bind, (wp_ask _ _ P); [done..|]. clear w Hw. intros w Hw. pose proof (Hv w Hw) as Hs. destruct v as [f|]; simpl in Hs |- *.
  - destruct Hs as [Hd _]. rewrite bool_decide_eq_true_2 by (by rewrite Hd). apply wp_bind, (wp_ask _ _ P); [done..|]. clear w Hd Hw. intros w Hw.
    destruct (Hv w Hw) as [Hd (sy & x & Hi)]. rewrite Hd, Hi. simpl. apply wp_bind, (wp_ask _ _ P); [done..|]. clear w Hd Hi Hw. intros w Hw.
    destruct (Hv w Hw) as [_ Hr]. rewrite (regular_content w f Hr). apply wp_ret. by apply HQ.
  - rewrite bool_decide_eq_false_2 by (rewrite Hs; by intros []). apply wp_ret. by apply HQ.
Qed.
Lemma wp_snapshot_value name v Q E w : exits E -> (forall w, P w -> shows name v w) -> P w ->
  (forall w, P w -> Q (snap_of <$> v) w) -> wp (snapshot_value name) Q E w.
Proof.
  intros HE Hv Hw HQ. apply wp_bind. eapply wp_snapshot; [done|exact Hv|done|]. intros w' Hw'. apply wp_ret. destruct v; by apply HQ.
Qed.
Lemma wp_identity_at name f Q (E : bool -> World -> Prop) w : (forall u w, calm = false -> P w -> E u w) -> (forall w, P w -> shows name (Some f) w) -> P w ->
  (forall w, P w -> Q (fst f) w) -> wp (identity_at name) Q E w.
Proof.
  intros HE Hv Hw HQ. apply wp_bind, (wp_ask_exact _ _ P); [done..|]. clear w Hw. intros w Hw. destruct (Hv w Hw) as [Hd (sy & x & Hi)]. rewrite Hd, Hi. simpl.
  apply wp_bind, (wp_ask_exact _ _ P); [done..|]. clear w Hd Hi Hw. intros w Hw. apply wp_ret. by apply HQ.
Qed.
(** A settled target stays as it is when it is verified. *)
Lemma wp_verify_target f name Q E w : exits E -> (forall w, P w -> shows name (Some f) w /\ settled_file w f) -> P w -> (forall w, P w -> Q tt w) ->
  wp (verify_target sha256 name (snap_of f) (sha256 (snd f))) Q E w.
Proof.
  intros HE Hv Hw HQ. apply wp_bind. eapply (wp_snapshot _ (Some f)); [done|intros; by apply Hv|done|]. clear w Hw. intros w Hw. apply wp_bind, wp_ret, wp_bind, wp_require; simpl; [|by rewrite bool_decide_eq_true_2].
  intros _. assert (forall w, P w -> on_inode settle_content (fst f) w = w) as Hsame.
  { intros w' Hw'. destruct (Hv w' Hw') as [_ (x & Hi & _)]. unfold on_inode, set_inodes. destruct w' as [d c i n b fs]. simpl in *. f_equal. apply map_eq. intros k.
    destruct (decide (k = fst f)) as [->|]; [by rewrite lookup_alter_eq, Hi|by rewrite lookup_alter_ne]. }
  apply wp_bind, (wp_sys _ _ _ P); [done..| |].
  { intros w' Hw'. split; [auto|]. intros _. rewrite Hsame by done. auto. }
  clear w Hw. intros w Hw. simpl. rewrite Hsame by done. apply wp_bind, (wp_ask _ _ P); [done..|]. clear w Hw. intros w Hw.
  rewrite (regular_content w f) by (apply settled_regular, Hv, Hw). apply wp_bind, wp_require; [intros _|by rewrite bool_decide_eq_true_2].
  apply wp_bind, (wp_ask _ _ P); [done..|]. clear w Hw. intros w Hw. rewrite (regular_content w f) by (apply settled_regular, Hv, Hw).
  apply wp_require; [intros _; by apply HQ|by rewrite bool_decide_eq_true_2].
Qed.
End Reads.

(** ** Changes of phase *)
Lemma st_step p p' w : St p w -> facts p' w -> St p' (set_dir (DirOf p') w).
Proof.
  intros [H1 H2 H3 H4 H5] Hf. split; simpl; [done|by eapply facts_same| |done|done]. constructor; [exists p; split; [done|by eapply facts_same]|].
  eapply Forall_impl; [exact H3|]. intros d (q & -> & Hq). exists q. split; [done|by eapply facts_same].
Qed.
(** Assertions on files only. *)
Definition framed (R : World -> Prop) : Prop := forall w w', same_files w w' -> R w -> R w'.
Lemma framed_stable R : framed R -> stable R.
Proof. intros HR w fs _. by apply (HR w). Qed.
Lemma wp_sync_root_with (R : World -> Prop) p Q E w : framed R -> exits E -> St p w -> R w -> (forall w, durable p w -> R w -> Q tt w) -> wp sync_root Q E w.
Proof.
  assert (forall w, St p w -> durable p (sync_dir w)) as Hsync.
  { intros w' [H1 H2 H3 H4 H5]. split; [|done]. split; simpl; [done|by eapply facts_same|constructor|done|done]. }
  intros HR HE Hw Hr HQ. apply (wp_sys _ _ _ (fun w => St p w /\ R w)); [apply stable_and; [apply stable_st|by apply framed_stable]|done|done| |].
  - intros w' [Hw' _]. split; [by eapply st_inv|]. intros _. eapply st_inv. by apply Hsync.
  - intros w' [Hw' Hr']. apply HQ; [by apply Hsync|]. by apply (HR w').
Qed.
Lemma wp_sync_root p Q E w : exits E -> St p w -> (forall w, durable p w -> Q tt w) -> wp sync_root Q E w.
Proof. intros HE Hw HQ. apply (wp_sync_root_with (fun _ => True) p); [done|done|done|done|]. intros w' Hw' _. by apply HQ. Qed.
(** Removing or moving an entry takes one phase to the next. *)
Definition drops (a : Slot) (p p' : Phase) : Prop := is_Some (lay p a) /\ (forall s, lay p' s = upd (lay p) a None s) /\ (forall w, facts p w -> facts p' w).
Definition moves (a b : Slot) (p p' : Phase) : Prop :=
  exists id, lay p a = Some id /\ lay p b = None /\ a <> b /\ (forall s, lay p' s = upd (upd (lay p) a None) b (Some id) s) /\ (forall w, facts p w -> facts p' w).
Lemma unlink_step a p p' w : drops a p p' -> St p w -> unlink_child (slot_nm a) w = (Done tt, set_dir (DirOf p') w) /\ St p' (set_dir (DirOf p') w).
Proof.
  intros ([id Hid] & Hl & Hf) Hw. pose proof (st_lookup _ _ a Hw) as Ha. rewrite Hid in Ha. split; [|by eapply st_step; [done|apply Hf, Hw]].
  unfold unlink_child. rewrite Ha. do 2 f_equal. rewrite (st_dir _ _ Hw), delete_slot by apply ok. apply dir_ext; [apply ok..|]. intros s. by rewrite Hl.
Qed.
Lemma rename_step a b p p' w : moves a b p p' -> St p w -> rename_child (slot_nm a) (slot_nm b) w = (Done tt, set_dir (DirOf p') w) /\ St p' (set_dir (DirOf p') w).
Proof.
  intros (id & Ha & Hb & Hab & Hl & Hf) Hw. split; [|by eapply st_step; [done|apply Hf, Hw]].
  unfold rename_child. rewrite (st_lookup _ _ a Hw), (st_lookup _ _ b Hw), Ha, Hb. do 2 f_equal.
  rewrite (st_dir _ _ Hw), delete_slot, insert_slot by apply ok. apply dir_ext; [apply ok..|]. intros s. by rewrite Hl.
Qed.
Lemma wp_rename_exact a b p p' Q (E : bool -> World -> Prop) w : moves a b p p' -> (forall u w, calm = false -> St p w \/ St p' w -> E u w) -> St p w ->
  (forall w, St p' w -> Q tt w) -> wp (rename_child_no_replace (slot_nm a) (slot_nm b)) Q E w.
Proof.
  intros Hm HE Hw HQ. apply (wp_sys_exact _ _ _ (St p)); [apply stable_st| |done| |].
  - intros u w' Hc Hw'. destruct (rename_step _ _ _ _ _ Hm Hw') as [-> Hs]. split; [|intros _]; apply HE; auto.
  - intros w' Hw'. destruct (rename_step _ _ _ _ _ Hm Hw') as [-> Hs]. split; [by eapply st_inv|]. intros _. by eapply st_inv.
  - intros w' Hw'. destruct (rename_step _ _ _ _ _ Hm Hw') as [-> Hs]. by apply HQ.
Qed.
Lemma wp_rename a b p p' Q E w : exits E -> moves a b p p' -> St p w -> (forall w, St p' w -> Q tt w) -> wp (rename_child_no_replace (slot_nm a) (slot_nm b)) Q E w.
Proof. intros HE Hm. apply wp_rename_exact; [done|]. intros u w' Hc [H|H]; (apply HE; [done|by eapply st_inv]). Qed.
(** What is known of a file's links does not depend on the directory. *)
Definition sole_link (id : Object) (w : World) : Prop :=
  calm = true -> (forall i, wd_inodes w !! id = Some i -> in_extra i = 0%nat) /\ forall n, others !! n <> Some id.
Lemma framed_sole id : framed (sole_link id).
Proof. intros w w' Hf H. unfold sole_link. by rewrite Hf. Qed.
Lemma framed_and R R' : framed R -> framed R' -> framed (fun w => R w /\ R' w).
Proof. intros HR HR' w w' Hf [? ?]. split; [by apply (HR w)|by apply (HR' w)]. Qed.
Lemma framed_regular f : framed (fun w => regular_with w f).
Proof. intros w w' Hf H. unfold regular_with. by rewrite Hf. Qed.
Lemma wp_unlinkat (R : World -> Prop) a p p' Q E w : framed R -> exits E -> drops a p p' -> St p w -> R w -> (forall w, St p' w -> R w -> Q tt w) ->
  wp (unlinkat (slot_nm a)) Q E w.
Proof.
  intros HR HE Hm Hw Hs HQ. apply (wp_sys _ _ _ (fun w => St p w /\ R w)); [apply stable_and; [apply stable_st|by apply framed_stable]|done|done| |].
  - intros w' [Hw' _]. destruct (unlink_step _ _ _ _ Hm Hw') as [-> Hst]. split; [by eapply st_inv|]. intros _. by eapply st_inv.
  - intros w' [Hw' Hs']. destruct (unlink_step _ _ _ _ Hm Hw') as [-> Hst]. apply HQ; [done|by apply (HR w')].
Qed.
Lemma wp_move_new a b p p' Q E w : exits E -> moves a b p p' -> St p w -> (forall w, durable p' w -> Q tt w) -> wp (move_new (slot_nm a) (slot_nm b)) Q E w.
Proof.
  intros HE Hm Hw HQ. apply wp_bind, (wp_prove_route (St p)); [apply stable_st|apply st_inv|done|done|]. intros w1 Hw1.
  apply wp_bind, (wp_rename a b p p'); [done..|]. intros w2 Hw2. by apply (wp_sync_root p').
Qed.
Lemma links_none p w id : St p w -> sole_link id w -> (forall s, lay p s <> Some id) -> calm = true -> links id w = 0%nat.
Proof.
  intros Hw Hc Hl Hcalm. destruct (Hc Hcalm) as [Hx Hr]. unfold links. assert (filter (fun '(_, i) => i = id) (wd_dir w) = ∅) as ->.
  { apply map_empty. intros n. apply map_lookup_filter_None. right. intros i Hn ->. rewrite (st_dir _ _ Hw) in Hn.
    destruct (slot_dec target_name n) as [[s ->]|Hns]; [rewrite lookup_slot in Hn by apply ok; by eapply Hl|]. rewrite lookup_rest in Hn by done. by eapply Hr. }
  rewrite map_size_empty. destruct (wd_inodes w !! id) as [i|] eqn:E; [|done]. by rewrite (Hx i).
Qed.
(** Removing a file [f] of known content, with [R] known of other files. *)
Lemma wp_remove_with (R : World -> Prop) a f p p' Q E w : framed R -> exits E -> (forall w, St p w -> R w -> regular_with w f /\ sole_link (fst f) w) ->
  lay p a = Some (fst f) -> drops a p p' -> (forall s, lay p' s <> Some (fst f)) -> St p w -> R w -> (forall w, durable p' w -> R w -> Q tt w) ->
  wp (remove (slot_nm a) (snap_of f)) Q E w.
Proof.
  intros HR HE Hv Ha Hd Hl Hw Hr HQ. set (P := fun w => St p w /\ R w).
  assert (stable P) as HP by (apply stable_and; [apply stable_st|by apply framed_stable]). assert (forall w, P w -> Inv w) as Hinv by (intros w' [Hw' _]; by eapply st_inv).
  assert (forall w, P w -> shows (slot_nm a) (Some f) w) as Hsh by (intros w' [Hw' Hr']; split; [by rewrite (st_lookup _ _ a Hw')|by apply Hv]).
  assert (framed (fun w => sole_link (fst f) w /\ R w)) as HR' by (apply framed_and; [apply framed_sole|done]).
  apply wp_bind, (wp_snapshot P HP Hinv _ (Some f)); [done|done|done|]. clear w Hw Hr. intros w Hw. apply wp_bind, wp_ret, wp_bind, wp_require; simpl; [intros _|by rewrite bool_decide_eq_true_2].
  apply wp_bind, (wp_snapshot P HP Hinv _ (Some f)); [done|done|done|]. clear w Hw. intros w Hw. apply wp_bind, wp_ret, wp_bind, wp_require; simpl; [intros _|by rewrite bool_decide_eq_true_2].
  apply wp_bind, (wp_prove_route P HP Hinv); [done|done|]. clear w Hw. intros w [Hw Hr].
  apply wp_bind, (wp_unlinkat _ a p p' _ _ _ HR'); [done|done|done|by split; [apply Hv|]|]. clear w Hw Hr. intros w Hw Hs.
  apply wp_bind, (wp_ask _ _ (fun w => St p' w /\ (sole_link (fst f) w /\ R w))); [apply stable_and; [apply stable_st|by apply framed_stable]|done|done|intros ? [? _]; by eapply st_inv|].
  clear w Hw Hs. intros w [Hw [Hs Hr]]. apply wp_bind, wp_require; [intros _; by apply (wp_sync_root_with R p')|]. intros Hn. apply HE; [|by eapply st_inv].
  apply not_true_is_false. intros Ec. by rewrite (links_none p' w (fst f) Hw Hs Hl Ec) in Hn.
Qed.
Lemma settled_sole w f : settled_file w f -> sole_link (fst f) w.
Proof. intros (x & Hi & Hx) Hc. destruct (Hx (calm_sole Hc)) as [-> Hr]. split; [|done]. intros i. rewrite Hi. by intros [= <-]. Qed.
Lemma drafted_sole w i bs : drafted_file w i bs -> sole_link i w.
Proof. intros (k & sy & x & Hi & _ & Hx) Hc. destruct (Hx (calm_sole Hc)) as [-> Hr]. split; [|done]. intros j. rewrite Hi. by intros [= <-]. Qed.
End Steps.
