(* ===== verification/DirRecover.v ===== *)
(** * Recovery of a directory transaction

    What recovery does from each phase: it ends a published replacement or a captured
    retirement, undoes everything before that, and leaves what it cannot decide. *)
From Stdlib Require Import Strings.Byte.
From S2P Require Import Prelude Domain Framing DirTxn DirLogic DirSteps.
Open Scope Z_scope.
Open Scope bridge_scope.

Section Recover.
Context {X : Setting} {ok : SettingOk X}.
Notation slot_nm := (slot_name target_name).
Notation int := TransactionIntent.

(** ** The residue of a phase *)
Lemma elem_of_keys (m : gmap bytes Object) n : n ∈ (map_to_list m).*1 <-> is_Some (m !! n).
Proof.
  rewrite list_elem_of_fmap. split.
  - intros ([k x] & -> & Hk%elem_of_map_to_list). simpl. by rewrite Hk.
  - intros [x Hx]. exists (n, x). split; [done|by apply elem_of_map_to_list].
Qed.
Definition residue_of (w : World) : list bytes := List.filter is_reserved_target (map_to_list (wd_dir w)).*1.
Lemma elem_filter (f : bytes -> bool) l n : n ∈ List.filter f l <-> n ∈ l /\ f n = true.
Proof. rewrite !list_elem_of_In. apply List.filter_In. Qed.
Lemma residue_spec p w n : St p w -> n ∈ residue_of w <-> exists ns, n = rname target_name ns /\ is_Some (lay p (SRes ns)).
Proof.
  intros Hw. unfold residue_of. rewrite elem_filter, elem_of_keys, (st_dir _ _ Hw). split.
  - intros [[x Hx] Hr]. destruct (slot_dec target_name n) as [[s ->]|Hn].
    + rewrite lookup_slot in Hx by apply ok. destruct s as [|ns]; [simpl in Hr; by rewrite name_plain in Hr|]. exists ns. by rewrite Hx.
    + rewrite lookup_rest in Hx by done. by rewrite others_plain in Hx.
  - intros (ns & -> & Hx). split; [|apply rname_reserved]. change (rname target_name ns) with (slot_nm (SRes ns)). by rewrite lookup_slot by apply ok.
Qed.
Lemma nodup_filter (f : bytes -> bool) l : NoDup l -> NoDup (List.filter f l).
Proof. intros Hl. apply NoDup_ListNoDup, List.NoDup_filter. by apply NoDup_ListNoDup. Qed.
Lemma residue_nodup w : NoDup (residue_of w).
Proof. apply nodup_filter, NoDup_fst_map_to_list. Qed.
Lemma nodup_singleton (l : list bytes) a : NoDup l -> (forall n, n ∈ l <-> n = a) -> l = [a].
Proof.
  intros Hnd Hl. destruct l as [|b [|c l]].
  - exfalso. by apply (not_elem_of_nil (A := bytes) a), Hl.
  - f_equal. apply Hl. set_solver.
  - exfalso. assert (b = a) by (apply Hl; set_solver). assert (c = a) by (apply Hl; set_solver). subst. inversion Hnd. set_solver.
Qed.
Definition is_intent_name (n : bytes) : bool := match parse_reserved int n with Some _ => true | None => false end.
Lemma is_intent_rname ns : is_intent_name (rname target_name ns) = bool_decide (ns = int).
Proof.
  unfold is_intent_name, parse_reserved, rname. destruct ns; try reflexivity.
  change (Framing.strip_prefix (ns_prefix int) (ns_prefix int ++ target_name)) with (Some target_name). cbn iota. by rewrite name_valid.
Qed.
Lemma intents_spec p w i : St p w -> lay p (SRes int) = Some i -> List.filter is_intent_name (residue_of w) = [rname target_name int].
Proof.
  intros Hw Hi. apply nodup_singleton; [apply nodup_filter, residue_nodup|]. intros n. rewrite elem_filter, (residue_spec p) by done. split.
  - intros [(ns & -> & _) Hn]. rewrite is_intent_rname in Hn. by apply bool_decide_eq_true in Hn as ->.
  - intros ->. rewrite is_intent_rname. split; [|done]. exists int. by rewrite Hi.
Qed.
Lemma residue_valid p w : St p w -> existsb (fun n => match child_name_from_bytes n with Some _ => false | None => true end) (residue_of w) = false.
Proof.
  intros Hw. apply not_true_is_false. intros (n & Hn & E)%List.existsb_exists. apply list_elem_of_In, (residue_spec p w n Hw) in Hn as (ns & -> & _).
  pose proof (name_room ns) as Hr. unfold reserved in Hr. unfold rname in E. by rewrite Hr in E.
Qed.
Lemma residue_own p w op o s : St p w -> existsb (fun n => negb (bool_decide (n ∈ reserved_name (the_intent op o s) <$> ns_all))) (residue_of w) = false.
Proof.
  intros Hw. apply not_true_is_false. intros (n & Hn & E)%List.existsb_exists. apply list_elem_of_In, (residue_spec p w n Hw) in Hn as (ns & -> & _).
  apply negb_true_iff, bool_decide_eq_false in E. apply E. simpl. destruct ns; set_solver.
Qed.
Lemma keys_room p w : calm = true -> St p w -> (length (map_to_list (wd_dir w)).*1 <= CHILD_CAP)%nat.
Proof.
  intros Hc Hw. rewrite length_fmap, length_map_to_list, (st_dir _ _ Hw). pose proof (calm_room Hc). unfold dir_of, slots, ns_all. simpl.
  assert (forall s (d : Directory), (size (place target_name (lay p) s d) <= S (size d))%nat) as Hp.
  { intros s d. unfold place. destruct (lay p s); [|lia]. rewrite map_size_insert. destruct (d !! slot_nm s); simpl; lia. }
  pose proof (Hp STarget (place target_name (lay p) (SRes int) (place target_name (lay p) (SRes Staging) (place target_name (lay p) (SRes ReplacementCapture) (place target_name (lay p) (SRes RetirementCapture) others))))).
  pose proof (Hp (SRes int) (place target_name (lay p) (SRes Staging) (place target_name (lay p) (SRes ReplacementCapture) (place target_name (lay p) (SRes RetirementCapture) others)))).
  pose proof (Hp (SRes Staging) (place target_name (lay p) (SRes ReplacementCapture) (place target_name (lay p) (SRes RetirementCapture) others))).
  pose proof (Hp (SRes ReplacementCapture) (place target_name (lay p) (SRes RetirementCapture) others)). pose proof (Hp (SRes RetirementCapture) others). lia.
Qed.

(** ** Intents *)
Lemma reserved_intent op o s n : reserved_name (the_intent op o s) n = slot_nm (SRes n).
Proof. by destruct n. Qed.
Lemma lay_intent op o s i st : lay (Txn op o s i st) (SRes int) = Some i.
Proof. by destruct op, st. Qed.
Definition intent_held (op : CustodyOperationKind) (o s : Held) (i : Object) : Held := (i, intent_bytes op o s).
(** A transaction whose intent can be read. *)
Definition InTxn op o s i st (w : World) : Prop := St (Txn op o s i st) w /\ regular_with w (intent_held op o s i).
Lemma stable_intxn op o s i st : stable (InTxn op o s i st).
Proof. apply stable_and; [apply stable_st|apply stable_regular]. Qed.
Lemma intxn_inv op o s i st w : InTxn op o s i st w -> Inv w.
Proof. intros [H _]. by eapply st_inv. Qed.
Definition drafting (st : Step) : bool := match st with Drafted | Unstaged => true | _ => false end.
Lemma settled_intxn op o s i st w : drafting st = false -> St (Txn op o s i st) w -> InTxn op o s i st w.
Proof. intros Hd Hw. split; [done|]. apply settled_regular. destruct Hw as [_ (_ & _ & _ & _ & _ & _ & _ & Hi) _ _ _]. destruct st; try done; apply Hi. Qed.
Lemma intent_sole op o s i st w : facts (Txn op o s i st) w -> sole_link i w.
Proof.
  intros (_ & _ & _ & _ & _ & _ & _ & Hi). destruct st; (by eapply drafted_sole) || (destruct Hi as [Hi _]; by apply settled_sole in Hi).
Qed.
Lemma decode_own op o s : decode_intent from_json (intent_bytes op o s) = Some (the_intent op o s, commitment_of op s).
Proof.
  unfold decode_intent, intent_bytes. rewrite json_reads. simpl. replace (negb (Bool.eqb _ _)) with false by (by destruct op). rewrite name_valid.
  unfold intent_new. rewrite !name_room. by rewrite bool_decide_eq_true_2.
Qed.
(** The intent has not been written in full. *)
Definition torn op o s i (w : World) : Prop := exists k, (k < length (intent_bytes op o s))%nat /\ regular_with w (i, take k (intent_bytes op o s)).
Lemma torn_unreadable op o s i w : torn op o s i w -> regular_with w (intent_held op o s i) -> False.
Proof.
  intros (k & Hk & Hr) Hr'. apply regular_content in Hr, Hr'. simpl in *. rewrite Hr in Hr'. apply (f_equal length) in Hr'. rewrite length_take in Hr'. lia.
Qed.
Lemma wp_read_at (P : World -> Prop) i bs Q (E : bool -> World -> Prop) w : stable P -> exits E ->
  (forall w, P w -> Inv w /\ wd_dir w !! slot_nm (SRes int) = Some i /\ regular_with w (i, bs)) -> (length bs <= INTENT_CAP)%nat -> P w ->
  (forall w, P w -> match decode_intent from_json bs with Some d => Q (fst d, snap_of (i, bs), snd d) w | None => E false w end) -> wp (read_intent from_json (slot_nm (SRes int))) Q E w.
Proof.
  intros HP HE Hv Hcap Hw HQ. assert (forall w, P w -> Inv w) as Hinv by (intros w' Hw'; by apply Hv). assert (forall w, P w -> content_of w i = bs) as Hcon by (intros w' Hw'; apply (regular_content w' (i, bs)); by apply Hv).
  apply wp_bind, (wp_ask _ _ P); [done..|]. clear w Hw. intros w Hw. destruct (Hv w Hw) as (_ & Hd & sy & x & Hi). simpl in Hi. rewrite Hd, Hi. simpl.
  apply wp_bind, (wp_ask _ _ P); [done..|]. clear w Hw Hd Hi. intros w Hw. rewrite Hcon by done. apply wp_bind, wp_require; [intros _|by intros Hx%Nat.leb_gt; lia].
  apply wp_bind, (wp_ask _ _ P); [done..|]. clear w Hw. intros w Hw. rewrite Hcon by done. apply wp_bind, (wp_ask _ _ P); [done..|]. clear w Hw. intros w Hw. rewrite Hcon by done.
  specialize (HQ w Hw). destruct (decode_intent from_json bs) as [d|]; [by apply wp_bind, wp_ret, wp_ret|done].
Qed.
Lemma decode_torn op o s k : (k < length (intent_bytes op o s))%nat -> decode_intent from_json (take k (intent_bytes op o s)) = None.
Proof. intros Hk. unfold decode_intent, intent_bytes. by rewrite json_prefix. Qed.
(** What an intent file holds. *)
Lemma intent_content op o s i st w : facts (Txn op o s i st) w -> exists k, regular_with w (i, take k (intent_bytes op o s)) /\ (length (take k (intent_bytes op o s)) <= INTENT_CAP)%nat.
Proof.
  intros (_ & _ & _ & _ & _ & _ & _ & Hi). set (bs := intent_bytes op o s) in *.
  assert (drafted_file w i bs -> exists k, regular_with w (i, take k bs) /\ (length (take k bs) <= INTENT_CAP)%nat) as Hdraft.
  { intros (k & sy & x & Hk & Hc & _). exists k. split; [by eexists _, _|]. destruct k; [simpl; lia|]. specialize (Hc ltac:(lia)). unfold fits_cap in Hc. rewrite length_take. lia. }
  assert (settled_file w (i, bs) /\ fits_cap bs -> exists k, regular_with w (i, take k bs) /\ (length (take k bs) <= INTENT_CAP)%nat) as Hset.
  { intros [Hs Hc]. exists (length bs). rewrite take_ge by lia. split; [by apply settled_regular|done]. }
  destruct st; auto.
Qed.
Lemma torn_or_intact op o s i st w : facts (Txn op o s i st) w -> torn op o s i w \/ regular_with w (intent_held op o s i).
Proof.
  intros Hf. destruct (intent_content _ _ _ _ _ _ Hf) as (k & Hr & _). destruct (Nat.lt_ge_cases k (length (intent_bytes op o s))) as [Hlt|Hge]; [left; by exists k|right]. by rewrite take_ge in Hr by lia.
Qed.
Lemma wp_read_intent op o s i st Q E w : exits E -> St (Txn op o s i st) w -> (forall w, InTxn op o s i st w -> Q (the_intent op o s, snap_of (intent_held op o s i), commitment_of op s) w) ->
  (torn op o s i w -> forall w', St (Txn op o s i st) w' -> E false w') -> wp (read_intent from_json (slot_nm (SRes int))) Q E w.
Proof.
  intros HE Hw HQ Ht. destruct (intent_content _ _ _ _ _ _ (st_facts _ _ Hw)) as (k & Hr & Hcap).
  apply (wp_read_at (fun w => St (Txn op o s i st) w /\ regular_with w (i, take k (intent_bytes op o s))) i (take k (intent_bytes op o s)));
    [apply stable_and; [apply stable_st|apply stable_regular]|done| |done|done|].
  - intros w' [Hw' Hr']. split_and!; [by eapply st_inv|by rewrite (st_lookup _ _ (SRes int) Hw'), lay_intent|done].
  - intros w' [Hw' Hr']. destruct (Nat.lt_ge_cases k (length (intent_bytes op o s))) as [Hlt|Hge].
    + rewrite decode_torn by done. apply Ht; [by exists k|done].
    + rewrite take_ge in Hr' |- * by lia. rewrite decode_own. by apply HQ.
Qed.
(** A torn intent is not read. *)
Lemma wp_read_torn op o s i st Q (E : bool -> World -> Prop) w : exits E -> St (Txn op o s i st) w -> torn op o s i w -> (forall w, St (Txn op o s i st) w -> E false w) ->
  wp (read_intent from_json (slot_nm (SRes int))) Q E w.
Proof.
  intros HE Hw Ht HF. destruct (intent_content _ _ _ _ _ _ (st_facts _ _ Hw)) as (k & Hr & Hcap). destruct Ht as (k' & Hk' & Hr').
  assert (take k (intent_bytes op o s) = take k' (intent_bytes op o s)) as Ek by (apply regular_content in Hr, Hr'; simpl in *; congruence). rewrite Ek in Hr, Hcap. clear Hr Ek k.
  apply (wp_read_at (fun w => St (Txn op o s i st) w /\ regular_with w (i, take k' (intent_bytes op o s))) i (take k' (intent_bytes op o s)));
    [apply stable_and; [apply stable_st|apply stable_regular]|done| |done|done|].
  - intros w' [Hw' Hr2]. split_and!; [by eapply st_inv|by rewrite (st_lookup _ _ (SRes int) Hw'), lay_intent|done].
  - intros w' [Hw' _]. rewrite decode_torn by done. by apply HF.
Qed.

(** ** Ends of a transaction *)
Definition quiet_after (op : CustodyOperationKind) (o s : Held) (st : Step) : option (option Held) :=
  match op, st with
  | OpReplace, Unstaged | OpRetire, (Drafted | Intended) => Some (Some o)
  | OpReplace, Committed => Some (Some s)
  | OpRetire, Committed => Some None
  | _, _ => None
  end.
Lemma drop_intent op o s i st v : quiet_after op o s st = Some v -> drops (SRes int) (Txn op o s i st) (Quiet v).
Proof.
  intros Hv. split_and!; [by destruct op, st| |].
  - intros [|[]]; destruct op, st; simplify_eq/=; done.
  - intros w Hf. destruct op, st; simplify_eq/=; try done; tauto.
Qed.
Lemma wp_clear_intent op o s i st v Q E w : exits E -> quiet_after op o s st = Some v -> InTxn op o s i st w -> (forall w, durable (Quiet v) w -> Q tt w) ->
  wp (clear_intent (the_intent op o s) (snap_of (intent_held op o s i))) Q E w.
Proof.
  intros HE Hv Hw HQ. unfold clear_intent. rewrite reserved_intent.
  assert (forall w, durable (Quiet v) w -> wp (sync_root ;| prove_route) Q E w) as Hlast.
  { intros w1 [Hw1 _]. apply wp_bind, (wp_sync_root (Quiet v)); [done..|]. intros w2 Hw2.
    apply (wp_prove_route (durable (Quiet v))); [apply stable_durable|intros ? [? _]; by eapply st_inv|done|done|done]. }
  destruct Hw as [Hw Hr]. apply wp_bind, (wp_remove_with _ (SRes int) (intent_held op o s i) (Txn op o s i st) (Quiet v) _ _ _ (framed_regular (intent_held op o s i)));
    [done| |by rewrite lay_intent|by apply drop_intent| |done|done|by intros w1 Hw1 _; apply Hlast].
  - intros w1 Hw1 Hr1. split; [done|]. by eapply intent_sole, st_facts.
  - intros [|[]]; simpl; try done. destruct Hw as [_ (_ & _ & _ & _ & Hio & His & _) _ _ _]. destruct op, st; simplify_eq/=; congruence.
Qed.

(** The step from which a transaction can only go forward, where its predecessor is then, and what it leaves. *)
Definition late (op : CustodyOperationKind) : Step := match op with OpReplace => Published | OpRetire => Captured end.
Definition capture_slot (op : CustodyOperationKind) : Slot := SRes match op with OpReplace => ReplacementCapture | OpRetire => RetirementCapture end.
Definition final (op : CustodyOperationKind) (s : Held) : option Held := match op with OpReplace => Some s | OpRetire => None end.
Lemma drop_capture op o s i : drops (capture_slot op) (Txn op o s i (late op)) (Txn op o s i Committed).
Proof.
  split_and!; [by destruct op|by intros [|[]]; destruct op|]. intros w Hf. destruct op; simpl in *; naive_solver.
Qed.
Lemma lay_capture op o s i : lay (Txn op o s i (late op)) (capture_slot op) = Some (fst o).
Proof. by destruct op. Qed.
Lemma facts_o op o s i st w : facts (Txn op o s i st) w -> settled_file w o.
Proof. by intros [? _]. Qed.
Lemma wp_finish op o s i (Q : TxnOutcome -> World -> Prop) E w : St (Txn op o s i (late op)) w ->
  (forall w, durable (Quiet (final op s)) w -> Q (NtComplete (mkTicket op target_name)) w) -> (forall u w, calm = false -> Inv w -> Q (debt (mkTicket op target_name) u) w) ->
  wp (finish sha256 (the_intent op o s) (snap_of (intent_held op o s i)) match op with OpReplace => Some (snap_of s, sha256 (snd s)) | OpRetire => None end) Q E w.
Proof.
  intros Hw HQ HD. set (p := Txn op o s i (late op)) in *. assert (capture_name (the_intent op o s) = slot_nm (capture_slot op)) as Hcap by (by destruct op).
  unfold finish. rewrite Hcap. apply wp_catch. set (E' := fun u => wp (dret (debt _ u)) Q E). assert (exits E') as HE by (intros u w' Hc Hi; by apply HD).
  assert (forall w, St p w -> shows (slot_nm (capture_slot op)) (Some o) w) as Hsh.
  { intros w' Hw'. split; [rewrite (st_lookup _ _ _ Hw'); apply lay_capture|]. apply settled_regular. by eapply facts_o, st_facts. }
  apply wp_bind, (wp_snapshot (St p) (stable_st p) (st_inv p) _ (Some o)); [done..|]. clear w Hw. intros w Hw. apply wp_bind, wp_ret, wp_bind, wp_require; simpl; [intros _|by rewrite bool_decide_eq_true_2].
  assert (forall w, St p w -> wp (remove (slot_nm (capture_slot op)) (snap_of o) ;| clear_intent (the_intent op o s) (snap_of (intent_held op o s i)) ;| dret (NtComplete (ticket (the_intent op o s)))) Q E' w) as Hrest.
  { clear w Hw. intros w Hw. apply wp_bind, (wp_remove_with (fun _ => True) (capture_slot op) o p (Txn op o s i Committed)); [done|done| |apply lay_capture|apply drop_capture| |done|done|].
    - intros w' Hw' _. split; [by apply Hsh|]. by eapply settled_sole, facts_o, st_facts.
    - destruct Hw as [_ (_ & _ & _ & _ & Hio & His & Hop & _) _ _ _]. intros [|[]]; destruct op; simpl in *; congruence.
    - clear w Hw. intros w [Hw _] _. apply wp_bind, (wp_clear_intent op o s i Committed (final op s)); [done|by destruct op|by apply settled_intxn|].
      intros w' Hw'. by apply wp_ret, HQ. }
  destruct op; simpl.
  - apply wp_bind, (wp_verify_target (St p) (stable_st p) (st_inv p) s target_name); [done| |done|exact Hrest].
    intros w' Hw'. pose proof (st_facts _ _ Hw') as (_ & _ & Hs & _). split; [|done]. split; [|by apply settled_regular]. by apply (st_lookup _ _ STarget Hw').
  - apply wp_bind, wp_ret. by apply Hrest.
Qed.

(** ** What recovery decides *)
Definition tk (op : CustodyOperationKind) : Ticket := mkTicket op target_name.
Definition resolve (p : Phase) : TxnOutcome * Phase :=
  match p with
  | Quiet v => (NtReady, Quiet v)
  | Stage _ _ _ => (NtProtectiveDebt, p)
  | Txn op _ _ _ Committed => (NtRetained (tk op), p)
  | Txn OpReplace _ s _ Published => (NtComplete (tk OpReplace), Quiet (Some s))
  | Txn OpRetire _ _ _ Captured => (NtComplete (tk OpRetire), Quiet None)
  | Txn op o _ _ _ => (NtNoEffect (tk op), Quiet (Some o))
  end.
(** The outcomes that say how the directory is left. *)
Definition decided (out : TxnOutcome) : bool := match out with NtReady | NtComplete _ | NtNoEffect _ => true | _ => false end.
(** The intent of the phase can be read. *)
Definition intact (p : Phase) (w : World) : Prop := match p with Txn op o s i _ => regular_with w (intent_held op o s i) | _ => True end.
Definition recovered (p : Phase) (out : TxnOutcome) (w : World) : Prop :=
  Inv w /\ (decided out = true -> out = fst (resolve p) /\ durable (snd (resolve p)) w) /\ (calm = true -> out = fst (resolve p) /\ St (snd (resolve p)) w).
Lemma recovered_hit p out v w : resolve p = (out, v) -> durable v w -> recovered p out w.
Proof. intros Hr Hw. unfold recovered. rewrite Hr. destruct Hw as [Hw Hc]. split_and!; [by eapply st_inv|done|done]. Qed.
Lemma recovered_miss p out w : decided out = false -> calm = false -> Inv w -> recovered p out w.
Proof. intros Hd Hc Hi. split_and!; [done|congruence|congruence]. Qed.
Lemma recovered_stuck p out w : resolve p = (out, p) -> decided out = false -> St p w -> recovered p out w.
Proof. intros Hr Hd Hw. unfold recovered. rewrite Hr. split_and!; [by eapply st_inv|congruence|done]. Qed.
Lemma debt_undecided t u : decided (debt t u) = false.
Proof. by destruct u. Qed.
Lemma protect_undecided u : decided (protect u) = false.
Proof. by destruct u. Qed.

(** The files of a transaction under its names, its intent apart. *)
Definition files (op : CustodyOperationKind) (o s : Held) (st : Step) (slot : Slot) : option Held :=
  match op, st, slot with
  | OpReplace, (Drafted | Intended | Unstaged), STarget => Some o
  | OpReplace, (Published | Committed), STarget => Some s
  | OpReplace, (Drafted | Intended | Captured), SRes Staging => Some s
  | OpReplace, (Captured | Published), SRes ReplacementCapture => Some o
  | OpRetire, (Drafted | Intended), STarget => Some o
  | OpRetire, Captured, SRes RetirementCapture => Some o
  | _, _, _ => None
  end.
Lemma txn_shows op o s i st slot w : slot <> SRes int -> St (Txn op o s i st) w -> shows (slot_nm slot) (files op o s st slot) w.
Proof.
  intros Hs Hw. pose proof (st_facts _ _ Hw) as (Ho%settled_regular & _ & Hs'%settled_regular & _). pose proof (st_lookup _ _ slot Hw) as Hl.
  destruct op, st, slot as [|[]]; try done.
Qed.
Lemma drop_stage o s i st : (st = Drafted \/ st = Intended) -> drops (SRes Staging) (Txn OpReplace o s i st) (Txn OpReplace o s i Unstaged).
Proof.
  intros Hst. split_and!; [by destruct Hst as [-> | ->]|by intros [|[]]; destruct Hst as [-> | ->]|].
  intros w (? & ? & ? & ? & ? & ? & ? & Hi). split_and!; [done..|]. destruct Hst as [-> | ->]; [done|]. destruct Hi as [(x & Hi & Hx) Hc].
  eexists (length (intent_bytes OpReplace o s)), _, x. by rewrite take_ge by lia.
Qed.
Lemma restore_capture o s i : moves (SRes ReplacementCapture) STarget (Txn OpReplace o s i Captured) (Txn OpReplace o s i Intended).
Proof. exists (fst o). split_and!; [done|done|done|by intros [|[]]|done]. Qed.
End Recover.
