(* ===== verification/DirDecide.v ===== *)
(** * Recovery decides every phase

    From each phase of a transaction, under any faults, recovery ends in the outcome
    and the directory that [resolve] gives, or reports debt and leaves a phase; without
    faults it always ends as [resolve] says. *)
From Stdlib Require Import Strings.Byte.
From S2P Require Import Prelude Domain Framing DirTxn DirLogic DirSteps DirRecover.
Open Scope Z_scope.
Open Scope bridge_scope.

Section Decide.
Context {X : Setting} {ok : SettingOk X}.
Notation slot_nm := (slot_name target_name).
Notation int := TransactionIntent.
Ltac yes := rewrite (bool_decide_eq_true_2 _) by done.
Ltac no := rewrite (bool_decide_eq_false_2 _) by (done || congruence).

(** ** The decision once the intent is read *)
(** Failures of the decision are debt; those that [resolve] does not foresee come from faults. *)
Definition owed (op : CustodyOperationKind) (o s : Held) (i : Object) (st : Step) (u : bool) (w : World) : Prop := recovered (Txn op o s i st) (debt (tk op) u) w.
Lemma exits_owed op o s i st : exits (owed op o s i st).
Proof. intros u w Hc Hi. apply recovered_miss; [apply debt_undecided|done|done]. Qed.
Lemma wp_undo op o s i st w : resolve (Txn op o s i st) = (NtNoEffect (tk op), Quiet (Some o)) -> quiet_after op o s st = Some (Some o) -> InTxn op o s i st w ->
  wp (clear_intent (the_intent op o s) (snap_of (intent_held op o s i)) ;| dret (NtNoEffect (ticket (the_intent op o s)))) (recovered (Txn op o s i st)) (owed op o s i st) w.
Proof.
  intros Hr Hq Hw. apply wp_bind, (wp_clear_intent op o s i st (Some o)); [apply exits_owed|done|done|]. intros w' Hw'. apply wp_ret. by eapply recovered_hit.
Qed.
Lemma wp_undo_staged o s i st w : (st = Drafted \/ st = Intended) -> InTxn OpReplace o s i st w ->
  wp (remove (slot_nm (SRes Staging)) (snap_of s)) (fun _ => wp (clear_intent (the_intent OpReplace o s) (snap_of (intent_held OpReplace o s i)) ;|
    dret (NtNoEffect (ticket (the_intent OpReplace o s)))) (recovered (Txn OpReplace o s i st)) (owed OpReplace o s i st)) (owed OpReplace o s i st) w.
Proof.
  intros Hst [Hw Hr]. assert (lay (Txn OpReplace o s i st) (SRes Staging) = Some (fst s)) as Hl by (by destruct Hst as [-> | ->]).
  apply (wp_remove_with _ (SRes Staging) s (Txn OpReplace o s i st) (Txn OpReplace o s i Unstaged) _ _ _ (framed_regular (intent_held OpReplace o s i)));
    [apply exits_owed| |done|by apply drop_stage| |done|done|].
  - intros w' Hw' _. pose proof (st_facts _ _ Hw') as (_ & _ & Hs & _). split; [by apply settled_regular|by apply settled_sole].
  - destruct Hw as [_ (_ & _ & _ & _ & _ & His & Hos & _) _ _ _]. simpl in Hos. intros [|[]]; simpl; congruence.
  - clear w Hw Hr. intros w [Hw _] Hr. eapply wp_conseq; [| |apply (wp_undo OpReplace o s i Unstaged w); [done|done|by split]]; unfold owed, recovered; by destruct Hst as [-> | ->].
Qed.
Lemma wp_decide_replace o s i st again w :
  (forall w, st = Captured -> St (Txn OpReplace o s i Intended) w -> wp again (recovered (Txn OpReplace o s i st)) (owed OpReplace o s i st) w) -> InTxn OpReplace o s i st w ->
  wp (decide_replace sha256 again (the_intent OpReplace o s) (snap_of (intent_held OpReplace o s i)) (sha256 (snd s))
    (snap_of <$> files OpReplace o s st STarget) (snap_of <$> files OpReplace o s st (SRes Staging))
    (snap_of <$> files OpReplace o s st (SRes ReplacementCapture)) (snap_of <$> files OpReplace o s st (SRes RetirementCapture)))
    (recovered (Txn OpReplace o s i st)) (owed OpReplace o s i st) w.
Proof.
  intros Hagain Hw. assert (fst o <> fst s) as Hne by (destruct Hw as [[_ (_ & _ & _ & _ & _ & _ & Hos & _) _ _ _] _]; done).
  unfold decide_replace. destruct st; simpl; repeat (yes || no); simpl; repeat (yes || no); simpl.
  - apply wp_bind, wp_bind, wp_ret. apply wp_undo_staged; auto.
  - apply wp_bind, wp_bind, wp_ret. apply wp_undo_staged; auto.
  - apply wp_bind, wp_ret. by apply wp_undo.
  - apply wp_bind, (wp_move_new (SRes ReplacementCapture) STarget (Txn OpReplace o s i Captured) (Txn OpReplace o s i Intended)); [apply exits_owed|apply restore_capture|by destruct Hw|].
    intros w' [Hw' _]. by apply Hagain.
  - destruct Hw as [Hw _]. set (p := Txn OpReplace o s i Published) in *. apply wp_bind, (wp_verify_target (St p) (stable_st p) (st_inv p) s target_name); [apply exits_owed| |done|].
    + intros w' Hw'. pose proof (st_facts _ _ Hw') as (_ & _ & Hs & _). split; [|done]. by apply (txn_shows OpReplace o s i Published STarget).
    + intros w' Hw'. apply (wp_finish OpReplace o s i); [done| |].
      * intros w2 Hw2. by eapply recovered_hit.
      * intros u w2 Hc Hi. apply recovered_miss; [apply debt_undecided|done|done].
  - destruct Hw as [Hw _]. unfold wp; simpl. by apply recovered_stuck.
Qed.
Lemma wp_decide_retire o s i st w : InTxn OpRetire o s i st w ->
  wp (decide_retire sha256 (the_intent OpRetire o s) (snap_of (intent_held OpRetire o s i))
    (snap_of <$> files OpRetire o s st STarget) (snap_of <$> files OpRetire o s st (SRes Staging))
    (snap_of <$> files OpRetire o s st (SRes ReplacementCapture)) (snap_of <$> files OpRetire o s st (SRes RetirementCapture)))
    (recovered (Txn OpRetire o s i st)) (owed OpRetire o s i st) w.
Proof.
  intros Hw. assert (st <> Unstaged /\ st <> Published) as [Hu Hp] by (destruct Hw as [[_ (_ & _ & _ & _ & _ & _ & Hos & _) _ _ _] _]; simpl in Hos; tauto).
  unfold decide_retire. destruct st; try done; simpl; repeat (yes || no); simpl; repeat (yes || no); simpl.
  - by apply wp_undo.
  - by apply wp_undo.
  - apply (wp_finish OpRetire o s i); [by destruct Hw| |].
    + intros w2 Hw2. by eapply recovered_hit.
    + intros u w2 Hc Hi. apply recovered_miss; [apply debt_undecided|done|done].
  - destruct Hw as [Hw _]. unfold wp; simpl. by apply recovered_stuck.
Qed.

(** ** Recovery *)
Lemma debt_st b p w : St p w -> St p (set_debt b w).
Proof. intros [H1 H2 H3 H4 H5]. split; [done|by eapply facts_same| |done|done]. eapply Forall_impl; [exact H3|]. intros d (q & -> & Hq). exists q. split; [done|by eapply facts_same]. Qed.
Lemma debt_durable b p w : durable p w -> durable p (set_debt b w).
Proof. intros [Hw Hc]. split; [by apply debt_st|done]. Qed.
Lemma debt_inv b w : Inv w -> Inv (set_debt b w).
Proof. intros [p Hp]. exists p. by apply debt_st. Qed.
Lemma debt_recovered b p out w : recovered p out w -> recovered p out (set_debt b w).
Proof.
  intros (Hi & Hd & Hc). split_and!; [by apply debt_inv| |].
  - intros H. destruct (Hd H). split; [done|by apply debt_durable].
  - intros H. destruct (Hc H). split; [done|by apply debt_st].
Qed.
Lemma wp_record m Q E w : (forall out w b, Q out w -> Q out (set_debt b w)) -> wp m Q E w -> wp (record m) Q E w.
Proof. intros HQ Hm. apply wp_bind. eapply wp_conseq; [|by intros u w' H; exact H|exact Hm]. intros out w' Ho. destruct out; unfold wp; simpl; auto. Qed.
Lemma wp_names {A} (P : World -> Prop) p (k : list bytes -> Dm A) Q E w : stable P -> (forall w, P w -> St p w) -> exits E -> P w -> (forall w, P w -> wp (k (map_to_list (wd_dir w)).*1) Q E w) ->
  wp (names <| enumerate_directory_names ;; names <| dlift names ;; k names) Q E w.
Proof.
  intros HP HS HE Hw HQ. apply wp_bind, (wp_ask _ _ P); [done|done|done|intros w' Hw'; by eapply st_inv, HS|]. clear w Hw. intros w Hw. cbv zeta iota. destruct (Nat.ltb_spec CHILD_CAP (length (map_to_list (wd_dir w)).*1)) as [Hlt|Hle].
  - unfold wp; simpl. apply HE; [|by eapply st_inv, HS]. apply not_true_is_false. intros Hc. pose proof (keys_room p w Hc (HS w Hw)). lia.
  - apply wp_bind, wp_ret. by apply HQ.
Qed.
Lemma residue_quiet v w : St (Quiet v) w -> residue_of w = [].
Proof.
  intros Hw. destruct (residue_of w) as [|n l] eqn:E; [done|]. exfalso. assert (n ∈ residue_of w) as Hn by (rewrite E; set_solver).
  apply (residue_spec _ _ _ Hw) in Hn as (ns & _ & [x Hx]). by destruct ns.
Qed.
Lemma residue_some p w n : St p w -> is_Some (lay p (SRes n)) -> exists a l, residue_of w = a :: l.
Proof.
  intros Hw Hn. assert (rname target_name n ∈ residue_of w) as Hin by (apply (residue_spec _ _ _ Hw); eauto). destruct (residue_of w); [set_solver|eauto].
Qed.
Lemma intents_stage o s c w : St (Stage o s c) w -> List.filter is_intent_name (residue_of w) = [].
Proof.
  intros Hw. destruct (List.filter is_intent_name (residue_of w)) as [|n l] eqn:E; [done|]. exfalso.
  assert (n ∈ List.filter is_intent_name (residue_of w)) as Hn by (rewrite E; set_solver). apply elem_filter in Hn as [Hn Hi].
  apply (residue_spec _ _ _ Hw) in Hn as (ns & -> & [x Hx]). rewrite is_intent_rname in Hi. by apply bool_decide_eq_true in Hi as ->.
Qed.
Definition guarded (u : bool) (p : Phase) (w : World) : Prop := recovered p (protect u) w.
Lemma exits_guarded p : exits (fun u => guarded u p).
Proof. intros u w Hc Hi. apply recovered_miss; [apply protect_undecided|done|done]. Qed.
(** Once the intent is read, the files under the names of the transaction decide. *)
Lemma wp_decide op o s i st again E w :
  (forall w, op = OpReplace -> st = Captured -> St (Txn op o s i Intended) w -> wp again (recovered (Txn op o s i st)) (owed op o s i st) w) -> InTxn op o s i st w ->
  wp (dcatch
    (target <| snapshot_value (it_target (the_intent op o s)) ;; stage <| snapshot_value (reserved_name (the_intent op o s) Staging) ;;
     swap <| snapshot_value (reserved_name (the_intent op o s) ReplacementCapture) ;; del <| snapshot_value (reserved_name (the_intent op o s) RetirementCapture) ;;
     match it_operation (the_intent op o s) with
     | OpReplace => decide_replace sha256 again (the_intent op o s) (snap_of (intent_held op o s i)) (default [] (commitment_of op s)) target stage swap del
     | OpRetire => decide_retire sha256 (the_intent op o s) (snap_of (intent_held op o s i)) target stage swap del
     end) (fun u => dret (debt (ticket (the_intent op o s)) u))) (recovered (Txn op o s i st)) E w.
Proof.
  intros Hagain Hw. apply wp_catch. set (P := InTxn op o s i st). assert (forall w, P w -> Inv w) as Hinv by apply intxn_inv. assert (stable P) as HP by apply stable_intxn.
  assert (forall slot w, slot <> SRes int -> P w -> shows (slot_nm slot) (files op o s st slot) w) as Hsh by (intros slot w' Hn [Hw' _]; by apply (txn_shows op o s i st slot w' Hn)).
  change (fun u => wp (dret (debt (ticket (the_intent op o s)) u)) (recovered (Txn op o s i st)) E) with (owed op o s i st). rewrite !reserved_intent.
  apply wp_bind, (wp_snapshot_value P HP Hinv _ (files op o s st STarget)); [apply exits_owed|intros w' Hw'; by apply (Hsh STarget)|done|]. clear w Hw. intros w Hw.
  apply wp_bind, (wp_snapshot_value P HP Hinv _ (files op o s st (SRes Staging))); [apply exits_owed|intros w' Hw'; by apply Hsh|done|]. clear w Hw. intros w Hw.
  apply wp_bind, (wp_snapshot_value P HP Hinv _ (files op o s st (SRes ReplacementCapture))); [apply exits_owed|intros w' Hw'; by apply Hsh|done|]. clear w Hw. intros w Hw.
  apply wp_bind, (wp_snapshot_value P HP Hinv _ (files op o s st (SRes RetirementCapture))); [apply exits_owed|intros w' Hw'; by apply Hsh|done|]. clear w Hw. intros w Hw.
  destruct op; simpl; [apply wp_decide_replace; auto|by apply wp_decide_retire].
Qed.
(** The rest of recovery once the names of the directory are known. *)
Definition recover_named (again : Dm TxnOutcome) (found : list bytes) : Dm TxnOutcome :=
  let residue := found in
  let intents := List.filter is_intent_name residue in
  match residue, intents with
  | [], _ => sync_root ;| prove_route ;| put_debt false ;| dret NtReady
  | _, [intent_name] =>
      r <| read_intent from_json intent_name ;;
      let '(it, intent_snap, commitment) := r in
      if negb (bool_decide (intent_name = reserved_name it int)) || existsb (fun n => negb (bool_decide (n ∈ reserved_name it <$> ns_all))) residue
      then dret NtProtectiveDebt
      else dcatch
        (target <| snapshot_value (it_target it) ;; stage <| snapshot_value (reserved_name it Staging) ;;
         swap <| snapshot_value (reserved_name it ReplacementCapture) ;; del <| snapshot_value (reserved_name it RetirementCapture) ;;
         match it_operation it with
         | OpReplace => decide_replace sha256 again it intent_snap (default [] commitment) target stage swap del
         | OpRetire => decide_retire sha256 it intent_snap target stage swap del
         end)
        (fun u => dret (debt (ticket it) u))
  | _, _ => dret NtProtectiveDebt
  end.
Lemma wp_recover_front (P : World -> Prop) p again (Q : TxnOutcome -> World -> Prop) E w : stable P -> (forall w, P w -> St p w) -> exits (fun u => Q (protect u)) -> P w ->
  (forall w, P w -> wp (recover_named again (residue_of w)) Q (fun u => Q (protect u)) w) -> wp (recover_run from_json sha256 again) Q E w.
Proof.
  intros HP HS HE Hw HQ. apply wp_catch. change (fun u => wp (dret (protect u)) Q E) with (fun u => Q (protect u)).
  apply wp_bind, (wp_prove_route P HP); [intros w' Hw'; by eapply st_inv, HS|done|done|]. clear w Hw. intros w Hw.
  apply (wp_names P p); [done|done|done|done|]. clear w Hw. intros w Hw.
  pose proof (residue_valid p w (HS w Hw)) as Hv. unfold residue_of in Hv. cbv zeta. rewrite Hv. exact (HQ w Hw).
Qed.
Lemma wp_recover_named p again w w0 :
  (forall o s i w, p = Txn OpReplace o s i Captured -> St (Txn OpReplace o s i Intended) w -> wp again (recovered p) (fun u => recovered p (debt (tk OpReplace) u)) w) ->
  St p w0 -> St p w -> (calm = true -> intact p w) -> wp (recover_named again (residue_of w0)) (recovered p) (fun u => guarded u p) w.
Proof.
  unfold recover_named. cbv zeta. intros Hagain Hw0 Hw Hint. pose proof (exits_guarded p) as HE. destruct p as [v|o s c|op o s i st].
  - rewrite (residue_quiet v w0 Hw0). apply wp_bind, (wp_sync_root (Quiet v)); [done|done|]. clear w Hw Hint. intros w Hw.
    apply wp_bind, (wp_prove_route (durable (Quiet v))); [apply stable_durable|intros ? [? _]; by eapply st_inv|done|done|]. clear w Hw. intros w Hw.
    unfold wp; simpl. eapply recovered_hit; [done|by apply debt_durable].
  - rewrite (intents_stage _ _ _ _ Hw0). destruct (residue_some _ _ Staging Hw0) as (a & l & ->); [done|]. by apply wp_ret, recovered_stuck.
  - rewrite (intents_spec _ _ i Hw0) by apply lay_intent. destruct (residue_some _ _ int Hw0) as (a & l & El); [by rewrite lay_intent|].
    pose proof (residue_own _ _ op o s Hw0) as Hown. rewrite El in Hown |- *. change (rname target_name int) with (slot_nm (SRes int)). apply wp_bind, (wp_read_intent op o s i st); [done|done| |].
    + clear w Hw Hint. intros w Hw. rewrite Hown. rewrite bool_decide_eq_true_2 by done. simpl negb. cbv iota. simpl orb. cbv iota. apply wp_decide; [|done].
      intros w' -> ->. by apply Hagain.
    + intros Ht w' Hw'. apply recovered_miss; [done| |by eapply st_inv]. apply not_true_is_false. intros Hc. by eapply torn_unreadable, Hint.
Qed.
Lemma wp_recover_run p again E w :
  (forall o s i w, p = Txn OpReplace o s i Captured -> St (Txn OpReplace o s i Intended) w -> wp again (recovered p) (fun u => recovered p (debt (tk OpReplace) u)) w) ->
  St p w -> (calm = true -> intact p w) -> wp (recover_run from_json sha256 again) (recovered p) E w.
Proof.
  intros Hagain Hw Hint. apply (wp_recover_front (fun w => St p w /\ (calm = true -> intact p w)) p); [|by intros w' [? _]|apply exits_guarded|done|].
  - apply stable_and; [apply stable_st|]. intros w' fs _ Hi Hc. by destruct p; try apply Hi.
  - intros w' [Hw' Hi']. by apply wp_recover_named.
Qed.
Lemma wp_recover p E w : St p w -> (calm = true -> intact p w) -> wp (recover_with from_json sha256) (recovered p) E w.
Proof.
  intros Hw Hint. apply wp_record; [intros; by apply debt_recovered|]. apply wp_recover_run; [|done|done]. clear w Hw Hint. intros o s i w -> Hw.
  apply wp_record; [intros; by apply debt_recovered|]. apply (wp_recover_run (Txn OpReplace o s i Intended)); [done|done|]. intros _.
  by apply (settled_intxn OpReplace o s i Intended w eq_refl) in Hw as [_ ?].
Qed.
(** Without faults, a transaction whose intent is torn is left as it is. *)
Lemma wp_recover_torn op o s i st (Q : TxnOutcome -> World -> Prop) E w : calm = true -> St (Txn op o s i st) w -> torn op o s i w ->
  (forall w, St (Txn op o s i st) w -> Q NtProtectiveDebt w) -> wp (recover_with from_json sha256) Q E w.
Proof.
  intros Hcalm Hw Ht HQ. apply wp_bind. set (Q' := fun out => wp _ Q E). assert (exits (fun u => Q' (protect u))) as HE by (intros u w' Hc; congruence).
  assert (forall w, St (Txn op o s i st) w -> Q' NtProtectiveDebt w) as HQ' by (intros w' Hw'; by apply HQ, debt_st).
  apply (wp_recover_front (fun w => St (Txn op o s i st) w /\ torn op o s i w) (Txn op o s i st)); [apply stable_and; [apply stable_st|by intros w' fs _ Hn]|by intros w' [? _]|done|done|].
  clear w Hw Ht. intros w [Hw Ht]. unfold recover_named. cbv zeta. rewrite (intents_spec _ _ i Hw) by apply lay_intent.
  destruct (residue_some _ _ int Hw) as (a & l & El); [by rewrite lay_intent|]. rewrite El. apply wp_bind, (wp_read_torn op o s i st); [done|done|done|]. intros w' Hw'. by apply HQ'.
Qed.
End Decide.
