(* ===== verification/DirCreate.v ===== *)
(** * New files of a directory transaction

    The staging file and the intent: created under a free reserved name, written in
    full, synced, and only then part of the next phase. No state that a crash may
    return to mentions the new object otherwise. *)
From Stdlib Require Import Strings.Byte.
From S2P Require Import Prelude Domain Framing DirTxn DirLogic DirSteps DirRecover DirDecide.
Open Scope Z_scope.
Open Scope bridge_scope.

Section Create.
Context {X : Setting} {ok : SettingOk X}.
Notation slot_nm := (slot_name target_name).
Notation int := TransactionIntent.
Notation DirOf p := (dir_of target_name others (lay p)).

Definition mentions (p : Phase) (x : Object) : Prop :=
  match p with
  | Quiet None => False
  | Quiet (Some o) => x = fst o
  | Stage o s _ => x = fst o \/ x = s
  | Txn _ o s i _ => x = fst o \/ x = fst s \/ x = i
  end.
Lemma facts_exist p w x : facts p w -> mentions p x -> is_Some (wd_inodes w !! x).
Proof.
  assert (forall f, settled_file w f -> is_Some (wd_inodes w !! fst f)) as Hs by (intros f (y & Hy & _); by rewrite Hy).
  destruct p as [[o|]|o s c|op o s i st]; simpl; [|done| |].
  - intros [Ho _] ->. auto.
  - intros (Ho & _ & _ & Hc) [-> | ->]; [auto|]. destruct c as [c|]; [apply (Hs (s, c)), Hc|]. destruct Hc as (y & sy & Hy). by rewrite Hy.
  - intros (Ho & _ & Hs' & _ & _ & _ & _ & Hi) [-> | [-> | ->]]; [auto|auto|].
    destruct st; try (destruct Hi as [Hi _]; by apply (Hs (i, intent_bytes op o s))); destruct Hi as (k & sy & y & Hy & _); by rewrite Hy.
Qed.
Lemma facts_others p w w' : (forall x, mentions p x -> wd_inodes w' !! x = wd_inodes w !! x) -> facts p w -> facts p w'.
Proof.
  intros Hx. assert (forall f, mentions p (fst f) -> settled_file w f -> settled_file w' f) as Hs by (intros f Hm; unfold settled_file; by rewrite Hx).
  destruct p as [[o|]|o s c|op o s i st]; simpl in *; [|done| |].
  - intros [? ?]. auto.
  - intros (? & ? & ? & Hc). split_and!; auto. destruct c as [c|]; [destruct Hc; split; [apply Hs|]; auto|]. by rewrite Hx by auto.
  - intros (? & ? & ? & ? & ? & ? & ? & Hi). split_and!; auto.
    destruct st; try (destruct Hi; split; [apply Hs|]; auto); unfold drafted_file in *; by rewrite Hx by auto.
Qed.

Section NewFile.
Context (a : Slot) (p : Phase) (mid fin : Object -> Phase) (bs : bytes) (guard : Prop).
(** [s] is the new object, with what was written to it and what is on disk of it. *)
Record New (s : Object) (c sy : bytes) (w : World) : Prop := {
  nw_dir : wd_dir w = DirOf (mid s);
  nw_facts : facts p w;
  nw_fresh : ~ mentions p s;
  nw_file : wd_inodes w !! s = Some (mkInode KRegular c sy 0);
  nw_sole n : others !! n <> Some s;
  nw_cuts : Forall (fun d => d = DirOf (mid s) \/ exists q, d = DirOf q /\ facts q w /\ ~ mentions q s) (wd_cuts w);
  nw_bounded : bounded w;
  nw_calm : calm = true -> wd_faults w = [] }.
Context (Hfree : lay p a = None) (Hmid : forall s x, lay (mid s) x = upd (lay p) a (Some s) x) (Hfin : forall s x, lay (fin s) x = lay (mid s) x).
Context (Fmid : forall w s k sy, facts p w -> ~ mentions p s -> (forall n, others !! n <> Some s) -> wd_inodes w !! s = Some (mkInode KRegular (take k bs) sy 0) ->
  ((0 < k)%nat -> guard) -> facts (mid s) w).
Context (Ffin : forall w s, facts p w -> ~ mentions p s -> (forall n, others !! n <> Some s) -> wd_inodes w !! s = Some (mkInode KRegular bs bs 0) -> guard -> facts (fin s) w).

Lemma new_st s k sy w : ((0 < k)%nat -> guard) -> New s (take k bs) sy w -> St (mid s) w.
Proof.
  intros Hg [H1 H2 H3 H4 H5 H6 H7 H8]. assert (facts (mid s) w) as Hf by (by eapply Fmid). split; [done|done| |done|done].
  eapply Forall_impl; [exact H6|]. intros d [-> |(q & -> & Hq & _)]; [by exists (mid s)|by exists q].
Qed.
Lemma new_fin s w : guard -> New s bs bs w -> St (fin s) w.
Proof.
  intros Hg [H1 H2 H3 H4 H5 H6 H7 H8]. assert (facts (fin s) w) as Hf by (by eapply Ffin). assert (DirOf (mid s) = DirOf (fin s)) as Hd by (apply dir_ext; [apply ok..|done]).
  split; [congruence|done| |done|done]. eapply Forall_impl; [exact H6|]. intros d [-> |(q & -> & Hq & _)]; [by exists (fin s)|by exists q].
Qed.
Lemma stable_new s c sy : stable (New s c sy).
Proof.
  intros w fs Hfs [H1 H2 H3 H4 H5 H6 H7 H8]. split; [done|by eapply facts_same|done|done|done| |done|done].
  eapply Forall_impl; [exact H6|]. intros d [-> |(q & -> & Hq & Hn)]; [by left|]. right. exists q. split_and!; [done|by eapply facts_same|done].
Qed.
Lemma new_create w : St p w -> exists w', create_child (slot_nm a) w = (Done (wd_next w), w') /\ New (wd_next w) [] [] w'.
Proof.
  intros Hw. set (s := wd_next w). destruct (st_bounded _ _ Hw) as [Hb Ho].
  set (w' := mkWorld (DirOf (mid s)) (wd_dir w :: wd_cuts w) (<[s := mkInode KRegular [] [] 0]> (wd_inodes w)) (S s) (wd_debt w) (wd_faults w)). exists w'. split.
  { unfold create_child. rewrite (st_lookup _ _ a Hw), Hfree. unfold set_dir; simpl. unfold w'. fold s. do 2 f_equal.
    rewrite (st_dir _ _ Hw), insert_slot by apply ok. apply dir_ext; [apply ok..|]. intros x. by rewrite Hmid. }
  assert (forall q, facts q w -> ~ mentions q s /\ facts q w') as Hq.
  { intros q Hq. assert (~ mentions q s) as Hn by (intros Hm; destruct (facts_exist q w s Hq Hm) as [j Hj]; pose proof (Hb s j Hj); unfold s in *; lia). split; [done|].
    apply (facts_others q w); [|done]. intros x Hx. simpl. rewrite lookup_insert_ne; [done|]. by intros <-. }
  destruct (Hq p (st_facts _ _ Hw)) as [Hn Hf]. split; simpl; [done|done|done|by rewrite lookup_insert_eq| | | |by apply Hw].
  - intros n Hs. pose proof (Ho n s Hs). unfold s in *. lia.
  - constructor; [right; exists p; split; [by rewrite (st_dir _ _ Hw)|done]|]. eapply Forall_impl; [exact (st_cuts _ _ Hw)|]. intros d (q & -> & Hfq). right. exists q. destruct (Hq q Hfq). done.
  - split; simpl.
    + intros id j. destruct (decide (id = s)) as [-> |Hne]; [intros _; lia|]. rewrite lookup_insert_ne by done. intros Hj. pose proof (Hb id j Hj). unfold s. lia.
    + intros n id Hj. pose proof (Ho n id Hj). unfold s. lia.
Qed.
Lemma new_alter f s c sy c' sy' w : f (mkInode KRegular c sy 0) = mkInode KRegular c' sy' 0 -> New s c sy w -> New s c' sy' (on_inode f s w).
Proof.
  intros Hf [H1 H2 H3 H4 H5 H6 [H7 H7'] H8].
  assert (forall q, ~ mentions q s -> facts q w -> facts q (on_inode f s w)) as Hq by (intros q Hn; apply facts_others; intros x Hx; simpl; rewrite lookup_alter_ne; [done|]; by intros <-).
  split; simpl; [done|by apply Hq|done|by rewrite lookup_alter_eq, H4; simpl; rewrite Hf|done| | |done].
  - eapply Forall_impl; [exact H6|]. intros d [-> |(q & -> & Hfq & Hn)]; [by left|]. right. exists q. split_and!; [done|by apply Hq|done].
  - split; [|done]. intros id j. simpl. destruct (decide (id = s)) as [-> |Hne]; [|rewrite lookup_alter_ne by done; apply H7]. intros _. by apply (H7 s _ H4).
Qed.
Lemma new_inv s k sy w : ((0 < k)%nat -> guard) -> New s (take k bs) sy w -> Inv w.
Proof. intros Hg Hn. by eapply st_inv, new_st. Qed.
Lemma wp_create_new n Q E w : exits E -> St p w -> wd_next w = n -> (forall w, New n [] [] w -> Q n w) -> wp (create_new_regular_child (slot_nm a)) Q E w.
Proof.
  intros HE Hw Hnx HQ. assert (forall s w, New s [] [] w -> Inv w) as Hi by (intros s w' Hn; apply (new_inv s 0 []); [lia|done]).
  apply wp_bind, (wp_sys _ _ _ (fun w => St p w /\ wd_next w = n)); [apply stable_and; [apply stable_st|by intros w1 fs1 _ Hn1]|done|done| |].
  - intros w' [Hw' _]. split; [by eapply st_inv|]. intros _. destruct (new_create w' Hw') as (w2 & -> & Hn). by eapply Hi.
  - clear w Hw Hnx. intros w [Hw <-]. destruct (new_create w Hw) as (w2 & -> & Hn). set (s := wd_next w) in *. apply wp_bind, (wp_ask _ _ (New s [] [])); [apply stable_new|done|done|apply Hi|]. intros w3 Hw3. by apply wp_ret, HQ.
Qed.
Lemma wp_write s Q E w : guard -> exits E -> New s [] [] w -> (forall w, New s bs [] w -> Q tt w) -> wp (write_all_file s bs) Q E w.
Proof.
  intros Hg HE Hw HQ. apply (wp_sys _ _ _ (New s [] [])); [apply stable_new|done|done| |].
  - intros w' Hw'. split; [apply (new_inv s 0 []); [lia|done]|]. intros n. apply (new_inv s n []); [done|]. by apply (new_alter _ s [] []).
  - intros w' Hw'. apply HQ. by apply (new_alter _ s [] []).
Qed.
Lemma wp_sync_new s Q E w : guard -> exits E -> New s bs [] w -> (forall w, St (fin s) w -> Q tt w) -> wp (sync_file s) Q E w.
Proof.
  intros Hg HE Hw HQ. apply (wp_sys _ _ _ (New s bs [])); [apply stable_new|done|done| |].
  - intros w' Hw'. split.
    + apply (new_inv s (length bs) []); [done|]. by rewrite take_ge by lia.
    + intros _. eapply st_inv, new_fin; [done|]. by apply (new_alter _ s bs []).
  - intros w' Hw'. apply HQ, new_fin; [done|]. by apply (new_alter _ s bs []).
Qed.
End NewFile.

(** ** The staging file and the intent *)
Lemma wp_stage o c (k : Object -> FileContentSnapshot -> Dm TxnOutcome) Q E w : asked c -> exits E -> St (Quiet (Some o)) w ->
  (let s := wd_next w in forall w, durable (Stage o s (Some c)) w -> wp (k s (snap_of (s, c))) Q E w) ->
  wp (stage <| create_new_regular_child (slot_nm (SRes Staging)) ;; write_all_file stage c ;| sync_file stage ;|
      staged <| file_snapshot stage ;; sync_root ;| k stage staged) Q E w.
Proof.
  intros Hc HE Hw HQ. set (mid := fun s => Stage o s None). set (fin := fun s => Stage o s (Some c)).
  assert (forall s x, lay (mid s) x = upd (lay (Quiet (Some o))) (SRes Staging) (Some s) x) as Hmid by (by intros s [|[]]). assert (forall s x, lay (fin s) x = lay (mid s) x) as Hfin by (by intros s [|[]]).
  assert (forall w s k sy, facts (Quiet (Some o)) w -> ~ mentions (Quiet (Some o)) s -> (forall n, others !! n <> Some s) -> wd_inodes w !! s = Some (mkInode KRegular (take k c) sy 0) ->
    ((0 < k)%nat -> True) -> facts (mid s) w) as Fmid by (intros w' s kk sy [H1 H2] Hn Hs Hi _; simpl in *; split_and!; [done|done|congruence|eauto]).
  assert (forall w s, facts (Quiet (Some o)) w -> ~ mentions (Quiet (Some o)) s -> (forall n, others !! n <> Some s) -> wd_inodes w !! s = Some (mkInode KRegular c c 0) -> True -> facts (fin s) w) as Ffin.
  { intros w' s [H1 H2] Hn Hs Hi _. simpl in *. split_and!; [done|done|congruence|by exists 0%nat|done]. }
  apply wp_bind, (wp_create_new (SRes Staging) (Quiet (Some o)) mid c True eq_refl Hmid Fmid (wd_next w)); [done|done|done|]. cbv zeta in HQ. set (s := wd_next w) in *. clearbody s. clear w Hw. intros w Hw.
  apply wp_bind, (wp_write (Quiet (Some o)) mid c True Fmid); [done|done|done|]. clear w Hw. intros w Hw.
  apply wp_bind, (wp_sync_new (Quiet (Some o)) mid fin c True Hfin Fmid Ffin); [done|done|done|]. clear w Hw. intros w Hw.
  apply wp_bind, (wp_ask _ _ (St (fin s))); [apply stable_st|done|done|apply st_inv|]. clear w Hw. intros w Hw.
  pose proof (st_facts _ _ Hw) as (_ & _ & _ & Hs%settled_regular & _). apply regular_content in Hs. simpl in Hs. rewrite Hs.
  apply wp_bind, (wp_sync_root (fin s)); [done|done|]. intros w' Hw'. by apply HQ.
Qed.
(** The phase a transaction starts from. *)
Definition before (op : CustodyOperationKind) (o s : Held) : Phase := match op with OpReplace => Stage o (fst s) (Some (snd s)) | OpRetire => Quiet (Some o) end.
Lemma wp_create_intent op o s (Q : FileContentSnapshot -> World -> Prop) E w : (op = OpRetire -> s = o /\ may_vanish) -> exits E -> St (before op o s) w ->
  (calm = true -> fits_cap (intent_bytes op o s)) ->
  (forall i w, durable (Txn op o s i Intended) w -> Q (snap_of (intent_held op o s i)) w) ->
  wp (create_intent to_json (the_intent op o s) (commitment_of op s)) Q E w.
Proof.
  intros Hop HE Hw Hfit HQ. set (mid := fun i => Txn op o s i Drafted). set (fin := fun i => Txn op o s i Intended). set (p := before op o s) in *. set (bs := intent_bytes op o s) in *.
  assert (lay p (SRes int) = None) as Hfree by (by destruct op). assert (forall i x, lay (mid i) x = upd (lay p) (SRes int) (Some i) x) as Hmid by (intros i [|[]]; by destruct op).
  assert (forall i x, lay (fin i) x = lay (mid i) x) as Hfin by (intros i [|[]]; by destruct op).
  assert (forall w i, facts p w -> ~ mentions p i -> settled_file w o /\ asked (snd o) /\ settled_file w s /\ asked (snd s) /\ i <> fst o /\ i <> fst s /\
    match op with OpReplace => fst o <> fst s | OpRetire => s = o /\ may_vanish end) as Hp.
  { intros w' i Hf Hn. destruct op; simpl in *; [destruct s; simpl in *; naive_solver|]. destruct (Hop eq_refl) as [-> Hv]. naive_solver. }
  assert (forall w i k sy, facts p w -> ~ mentions p i -> (forall n, others !! n <> Some i) -> wd_inodes w !! i = Some (mkInode KRegular (take k bs) sy 0) ->
    ((0 < k)%nat -> fits_cap bs) -> facts (mid i) w) as Fmid.
  { intros w' i k sy Hf Hn Hr Hi Hk. destruct (Hp w' i Hf Hn) as (? & ? & ? & ? & ? & ? & ?). simpl. split_and!; [done..| |by exists k, sy, 0%nat]. destruct op; [done|naive_solver]. }
  assert (forall w i, facts p w -> ~ mentions p i -> (forall n, others !! n <> Some i) -> wd_inodes w !! i = Some (mkInode KRegular bs bs 0) -> fits_cap bs -> facts (fin i) w) as Ffin.
  { intros w' i Hf Hn Hr Hi Hk. destruct (Hp w' i Hf Hn) as (? & ? & ? & ? & ? & ? & ?). simpl. split_and!; [done..| |by exists 0%nat|done]. destruct op; [done|naive_solver]. }
  apply wp_bind, (wp_prove_route (St p)); [apply stable_st|apply st_inv|done|done|]. clear w Hw. intros w Hw. rewrite reserved_intent.
  apply wp_bind, (wp_create_new (SRes int) p mid bs (fits_cap bs) Hfree Hmid Fmid (wd_next w)); [done|done|done|]. set (i := wd_next w). clearbody i. clear w Hw. intros w Hw. cbv zeta.
  apply wp_bind, wp_require.
  2: { intros Hl%Nat.leb_gt. apply HE; [|eapply (new_inv p mid bs (fits_cap bs) Fmid i 0); [lia|done]]. apply not_true_is_false. intros Hc%Hfit. unfold fits_cap, bs, intent_bytes in Hc. lia. }
  intros Hg%Nat.leb_le. apply wp_bind, (wp_write p mid bs (fits_cap bs) Fmid); [done|done|done|]. clear w Hw. intros w Hw.
  apply wp_bind, (wp_sync_new p mid fin bs (fits_cap bs) Hfin Fmid Ffin); [done|done|done|]. clear w Hw. intros w Hw.
  apply wp_bind, (wp_sync_root (fin i)); [done|done|]. clear w Hw. intros w Hw.
  apply (wp_ask _ _ (durable (fin i))); [apply stable_durable|done|done|intros ? [? _]; by eapply st_inv|]. clear w Hw. intros w Hw.
  destruct (settled_intxn op o s i Intended w eq_refl (proj1 Hw)) as [_ Hr%regular_content]. simpl in Hr. rewrite Hr. by apply HQ.
Qed.
End Create.
