(* ===== verification/DirCalls.v ===== *)
(** * Replacement and retirement under faults

    What a call of [replace] or [retire] may answer from any phase, with any faults,
    and how it then leaves the directory; without faults, what it always answers. *)
From Stdlib Require Import Strings.Byte.
From S2P Require Import Prelude Domain Framing DirTxn DirLogic DirSteps DirRecover DirDecide DirCreate.
Open Scope Z_scope.
Open Scope bridge_scope.

Section Calls.
Context {X : Setting} {ok : SettingOk X}.
Notation slot_nm := (slot_name target_name).
Notation int := TransactionIntent.

(** ** Capture *)
Lemma capture_moves op o s i : moves STarget (capture_slot op) (Txn op o s i Intended) (Txn op o s i Captured).
Proof.
  exists (fst o). split_and!; [by destruct op|by destruct op|by destruct op|by intros [|[]]; destruct op|]. intros w Hf. destruct op; simpl in *; naive_solver.
Qed.
Lemma publish_moves o s i : moves (SRes Staging) STarget (Txn OpReplace o s i Captured) (Txn OpReplace o s i Published).
Proof. exists (fst s). split_and!; [done|done|done|by intros [|[]]|done]. Qed.
(** Before or after the capture. *)
Definition AtCapture op o s i (w : World) : Prop := St (Txn op o s i Intended) w \/ St (Txn op o s i Captured) w.
Lemma wp_capture op o s i (Q : CaptureOutcome -> World -> Prop) E w : St (Txn op o s i Intended) w -> (forall w, St (Txn op o s i Captured) w -> Q CapExpected w) ->
  (forall c w, c <> CapExpected -> calm = false -> AtCapture op o s i w -> Q c w) -> wp (capture (the_intent op o s)) Q E w.
Proof.
  intros Hw HQ HO. set (p1 := Txn op o s i Intended) in *. set (p2 := Txn op o s i Captured) in *. assert (capture_name (the_intent op o s) = slot_nm (capture_slot op)) as Hcap by (by destruct op).
  unfold capture. rewrite Hcap. apply wp_bind, wp_attempt, (wp_identity_at (St p1) (stable_st p1) (st_inv p1) _ o).
  - intros u w' Hc Hw'. destruct u; (apply HO; [done|done|by left]).
  - intros w' Hw'. pose proof (txn_shows op o s i Intended STarget w' ltac:(done) Hw') as Hsh. by destruct op.
  - done.
  - clear w Hw. intros w Hw. apply wp_bind, wp_attempt, (wp_rename_exact STarget (capture_slot op) p1 p2); [apply capture_moves| |done|].
    { intros u w' Hc Hw'. destruct u; apply HO; done. }
    clear w Hw. intros w Hw. apply wp_bind, wp_attempt, (wp_identity_at (St p2) (stable_st p2) (st_inv p2) _ o).
    + intros u w' Hc Hw'. (apply HO; [done|done|by right]).
    + intros w' Hw'. assert (capture_slot op <> SRes int) as Hn by (by destruct op). pose proof (txn_shows op o s i Captured _ w' Hn Hw') as Hsh. by destruct op.
    + done.
    + intros w' Hw'. rewrite bool_decide_eq_true_2 by done. by apply HQ.
Qed.

(** ** What a call answers *)
Definition result_of (op : CustodyOperationKind) (s : Object) (c : bytes) : option Held := match op with OpReplace => Some (s, c) | OpRetire => None end.
Definition expected_out (op : CustodyOperationKind) (e : Object) (v : option Held) : TxnOutcome :=
  match v with Some o => if decide (fst o = e) then NtComplete (tk op) else NtNoEffect (tk op) | None => NtNoEffect (tk op) end.
(** A call for object [e] and content [c] that began in phase [p], with the debt flag [b]. *)
Definition transacted (op : CustodyOperationKind) (e : Object) (c : bytes) (p : Phase) (b : bool) (out : TxnOutcome) (w : World) : Prop :=
  Inv w /\
  match out with
  | NtReady => False
  | NtComplete t => t = tk op /\ exists o s, p = Quiet (Some o) /\ fst o = e /\ durable (Quiet (result_of op s c)) w
  | NtNoEffect t => t = tk op /\ exists v, p = Quiet v /\ St (Quiet v) w
  | _ => True
  end /\
  (calm = true -> b = false -> forall v, p = Quiet v -> out = expected_out op e v).
Lemma transacted_miss op e c p b out w : decided out = false -> calm = false -> Inv w -> transacted op e c p b out w.
Proof. intros Hd Hc Hi. split_and!; [done|by destruct out|congruence]. Qed.
Lemma debt_transacted op e c p b out w d : transacted op e c p b out w -> transacted op e c p b out (set_debt d w).
Proof.
  intros (Hi & Ho & Hc). split_and!; [by apply debt_inv| |done]. destruct out; try done.
  - destruct Ho as (? & o & s & ? & ? & ?). split; [done|]. exists o, s. split_and!; [done|done|by apply debt_durable].
  - destruct Ho as (? & v & ? & ?). split; [done|]. exists v. split; [done|by apply debt_st].
Qed.
(** Failures of a call. *)
Definition failed op e c p b (u : bool) : World -> Prop := transacted op e c p b (debt (tk op) u).
Lemma exits_failed op e c p b : exits (failed op e c p b).
Proof. intros u w Hc Hi. apply transacted_miss; [apply debt_undecided|done|done]. Qed.

(** ** After the intent *)
Lemma wp_sync_exact p Q (E : bool -> World -> Prop) w : (forall u w, calm = false -> St p w -> E u w) -> St p w -> (forall w, St p w -> Q tt w) -> wp sync_root Q E w.
Proof.
  assert (forall w, St p w -> St p (sync_dir w)) as Hsync by (intros w' [H1 H2 H3 H4 H5]; split; simpl; [done|by eapply facts_same|constructor|done|done]).
  intros HE Hw HQ. apply (wp_sys_exact _ _ _ (St p)); [apply stable_st| |done| |by auto].
  - intros u w' Hc Hw'. split; [|intros _]; apply HE; auto.
  - intros w' Hw'. split; [by eapply st_inv|]. intros _. eapply st_inv. by apply Hsync.
Qed.
Lemma wp_rollback op e c o s i b E w : calm = false -> AtCapture op o s i w -> wp (rollback_unsupported from_json sha256) (transacted op e c (Quiet (Some o)) b) E w.
Proof.
  intros Hc Hw. assert (exists p, St p w) as [p Hp] by (destruct Hw; eauto). apply wp_bind. eapply wp_conseq; [| |apply (wp_recover p)]; [|by intros u w' H; exact H|done|congruence].
  intros out w' (Hi & _). apply wp_ret. by destruct out; apply transacted_miss.
Qed.
Lemma recovered_transacted op e c o s i p b out w : calm = false -> p = Txn op o s i Intended \/ p = Txn op o s i Captured -> fst o = e -> recovered p out w ->
  transacted op e c (Quiet (Some o)) b out w.
Proof.
  intros Hc Hp He (Hi & Hd & _). split_and!; [done| |congruence]. destruct out; try done; destruct (Hd eq_refl) as [E Hw]; destruct Hp as [-> | ->], op; simpl in E; simplify_eq/=.
  - split; [done|]. by exists o, (fst s).
  - split; [done|]. exists (Some o). split; [done|apply Hw].
  - split; [done|]. exists (Some o). split; [done|apply Hw].
  - split; [done|]. exists (Some o). split; [done|apply Hw].
Qed.
Lemma wp_settle op e c o s i b E w : calm = false -> fst o = e -> AtCapture op o s i w ->
  wp (dattempt sync_root ;| recover_with from_json sha256) (transacted op e c (Quiet (Some o)) b) E w.
Proof.
  intros Hc He Hw. assert (exists p, St p w /\ (p = Txn op o s i Intended \/ p = Txn op o s i Captured)) as (p & Hp & Hpp) by (destruct Hw; eauto).
  assert (forall w, St p w -> wp (recover_with from_json sha256) (transacted op e c (Quiet (Some o)) b) E w) as Hrec.
  { intros w' Hw'. eapply wp_conseq; [| |apply (wp_recover p)]; [intros out w2; by eapply recovered_transacted|by intros u w2 H; exact H|done|congruence]. }
  apply wp_bind, wp_attempt, (wp_sync_exact p); auto.
Qed.

(** ** Before a call *)
Definition At (p : Phase) (b : bool) (n : Object) (w : World) : Prop := St p w /\ wd_debt w = b /\ wd_next w = n.
Lemma stable_at p b n : stable (At p b n).
Proof. intros w fs Hfs (Hw & Hb & Hn). split_and!; [by apply faults_st|done|done]. Qed.
Lemma at_inv p b n w : At p b n w -> Inv w.
Proof. intros [Hw _]. by eapply st_inv. Qed.
Lemma residue_exists w : existsb is_reserved_target (map_to_list (wd_dir w)).*1 = negb (bool_decide (residue_of w = [])).
Proof.
  unfold residue_of. induction (map_to_list (wd_dir w)).*1 as [|n l IH]; simpl; [done|]. destruct (is_reserved_target n); done.
Qed.
Lemma residue_none p w : St p w -> residue_of w = [] -> exists v, p = Quiet v.
Proof.
  intros Hw Hr. destruct p as [v|o s c|op o s i st]; [eauto| |].
  - destruct (residue_some _ _ Staging Hw) as (a & l & E); [done|congruence].
  - destruct (residue_some _ _ int Hw) as (a & l & E); [by rewrite lay_intent|congruence].
Qed.
Lemma quiet_room v w n : calm = true -> (n <= 2)%nat -> St (Quiet v) w -> (length (map_to_list (wd_dir w)).*1 + n <= CHILD_CAP)%nat.
Proof.
  intros Hc Hn Hw. rewrite length_fmap, length_map_to_list, (st_dir _ _ Hw). pose proof (calm_room Hc). unfold dir_of, slots, ns_all, place; simpl.
  destruct v as [o|]; simpl; [rewrite map_size_insert; destruct (others !! target_name); simpl|]; lia.
Qed.
Lemma wp_ready fp p b n (Q : option TxnOutcome -> World -> Prop) E w : (fp <= 2)%nat -> At p b n w ->
  (forall out w, decided out = false -> Inv w -> (calm = true -> b = true \/ forall v, p <> Quiet v) -> Q (Some out) w) ->
  (forall v w, p = Quiet v -> At p b n w -> Q None w) -> wp (ready fp) Q E w.
Proof.
  intros Hfp Hw HS HN. apply wp_bind. unfold wp at 1; simpl. destruct (wd_debt w) eqn:Eb.
  { apply wp_ret, HS; [done|by eapply at_inv|]. destruct Hw as (_ & <- & _). by left. }
  apply wp_catch. set (E' := fun u => wp (dret (Some (protect u))) Q E). assert (exits E') as HE by (intros u w' Hc Hi; apply wp_ret, HS; [apply protect_undecided|done|congruence]).
  apply wp_bind, (wp_prove_route (At p b n) (stable_at p b n) (at_inv p b n)); [done|done|]. clear w Hw Eb. intros w Hw.
  apply wp_bind, (wp_ask _ _ (At p b n)); [apply stable_at|done|done|apply at_inv|]. clear w Hw. intros w Hw. cbv zeta iota.
  destruct (Nat.ltb_spec CHILD_CAP (length (map_to_list (wd_dir w)).*1)) as [Hlt|Hle].
  { unfold wp; simpl. apply HS; [done|by eapply debt_inv, at_inv|]. intros Hc. pose proof (keys_room p w Hc (proj1 Hw)). lia. }
  set (names := (map_to_list (wd_dir w)).*1). assert (existsb is_reserved_target names = false -> exists v, p = Quiet v) as Hq.
  { unfold names. rewrite residue_exists. intros Hr%negb_false_iff%bool_decide_eq_true. eapply residue_none; [apply Hw|done]. }
  assert (forall v, p = Quiet v -> existsb is_reserved_target names = false) as Hq'.
  { intros v ->. unfold names. rewrite residue_exists, (residue_quiet v) by apply Hw. by rewrite bool_decide_eq_true_2. }
  assert (calm = true -> forall v, p = Quiet v -> (CHILD_CAP <? length names + fp)%nat = false) as Hroom by (intros Hc v ->; apply Nat.ltb_ge; eapply quiet_room; [done|done|apply Hw]).
  clearbody names. apply wp_bind, (wp_prove_route (At p b n) (stable_at p b n) (at_inv p b n)); [done|done|]. clear w Hw Hle. intros w Hw.
  apply wp_bind. unfold wp at 1; simpl. destruct (wd_debt w || existsb is_reserved_target names || (CHILD_CAP <? length names + fp)%nat) eqn:Er.
  - unfold wp; simpl. apply HS; [done|by eapply debt_inv, at_inv|]. intros Hc. destruct b eqn:Eb; [by left|]. right. intros v Hv. rewrite (Hq' v Hv), (Hroom Hc v Hv) in Er.
    destruct Hw as (_ & Hb & _). rewrite Hb in Er. done.
  - apply orb_false_iff in Er as [[_ Er]%orb_false_iff _]. destruct (Hq Er) as [v Hv]. apply wp_ret. by eapply HN.
Qed.
Lemma wp_check_predecessor op e c v b n k w : At (Quiet v) b n w ->
  (forall o w, v = Some o -> fst o = e -> At (Quiet v) b n w -> wp (k (snap_of o)) (transacted op e c (Quiet v) b) (failed op e c (Quiet v) b) w) ->
  wp (check_predecessor target_name e k op) (transacted op e c (Quiet v) b) (failed op e c (Quiet v) b) w.
Proof.
  intros Hw Hk. assert (forall w, At (Quiet v) b n w -> shows target_name v w) as Hsh.
  { intros w' [Hw' _]. pose proof (st_lookup _ _ STarget Hw') as Hl. destruct v as [o|]; [|done]. split; [done|]. apply settled_regular. apply (st_facts _ _ Hw'). }
  assert (forall w, At (Quiet v) b n w -> (forall o, v = Some o -> fst o <> e) -> transacted op e c (Quiet v) b (NtNoEffect (mkTicket op target_name)) w) as Hno.
  { intros w' [Hw' _] Hv. split_and!; [by eapply st_inv|done|by exists v|]. intros _ _ v' [= <-]. destruct v as [o|]; [|done]. simpl. rewrite decide_False by auto. done. }
  apply wp_bind, (wp_snapshot (At (Quiet v) b n) (stable_at _ b n) (at_inv _ b n) _ v); [apply exits_failed|done|done|]. clear w Hw. intros w Hw.
  destruct v as [o|]; simpl; [|by apply wp_ret, Hno]. destruct (decide (fst o = e)) as [He|He].
  - rewrite bool_decide_eq_true_2 by done. by apply (Hk o).
  - rewrite bool_decide_eq_false_2 by done. apply wp_ret, Hno; [done|]. by intros ? [= <-].
Qed.

(** ** The calls *)
Lemma intent_is op o s e staged : fst o = e -> staged = snap_of s -> intent_new op target_name e staged = Some (the_intent op o s).
Proof. intros <- ->. unfold intent_new. by rewrite !name_room. Qed.
(** A finished call. *)
Lemma transacted_done op e c o s b w : fst o = e -> durable (Quiet (result_of op s c)) w -> transacted op e c (Quiet (Some o)) b (NtComplete (tk op)) w.
Proof. intros He Hw. split_and!; [destruct Hw; by eapply st_inv|done|by exists o, s|]. intros _ _ v [= <-]. simpl. by rewrite decide_True. Qed.
Lemma wp_finish_call op e c o s i b E w : fst o = e -> (op = OpReplace -> snd s = c) -> St (Txn op o s i (late op)) w ->
  wp (finish sha256 (the_intent op o s) (snap_of (intent_held op o s i)) match op with OpReplace => Some (snap_of s, sha256 (snd s)) | OpRetire => None end)
    (transacted op e c (Quiet (Some o)) b) E w.
Proof.
  intros He Hc Hw. apply wp_finish; [done| |].
  - intros w' Hw'. apply (transacted_done op e c o (fst s)); [done|]. destruct op; [|done]. rewrite <- (Hc eq_refl). by destruct s.
  - intros u w' Hcalm Hi. apply transacted_miss; [apply debt_undecided|done|done].
Qed.
Lemma wp_replace_captured e o s i b w : fst o = e -> St (Txn OpReplace o s i Captured) w ->
  wp (sync_root ;| v <| dcatch (snapshot_value (slot_nm (SRes Staging))) (fun _ => dret None) ;; drequire (bool_decide (v = Some (snap_of s))) ;|
      move_new (slot_nm (SRes Staging)) target_name ;| verify_target sha256 target_name (snap_of s) (sha256 (snd s)) ;|
      finish sha256 (the_intent OpReplace o s) (snap_of (intent_held OpReplace o s i)) (Some (snap_of s, sha256 (snd s))))
    (transacted OpReplace e (snd s) (Quiet (Some o)) b) (failed OpReplace e (snd s) (Quiet (Some o)) b) w.
Proof.
  intros He Hw. set (p := Txn OpReplace o s i Captured) in *. pose proof (exits_failed OpReplace e (snd s) (Quiet (Some o)) b) as HE.
  apply wp_bind, (wp_sync_root p); [done|done|]. clear w Hw. intros w [Hw _]. apply wp_bind, wp_catch, (wp_snapshot_value (St p) (stable_st p) (st_inv p) _ (Some s)).
  { intros u w' Hc Hi. by apply HE. }
  { intros w' Hw'. by apply (txn_shows OpReplace o s i Captured (SRes Staging)). }
  { done. }
  clear w Hw. intros w Hw. apply wp_bind, wp_require; [intros _|by rewrite bool_decide_eq_true_2].
  apply wp_bind, (wp_move_new (SRes Staging) STarget p (Txn OpReplace o s i Published)); [done|apply publish_moves|done|]. clear w Hw. intros w [Hw _].
  apply wp_bind, (wp_verify_target (St (Txn OpReplace o s i Published)) (stable_st _) (st_inv _) s target_name); [done| |done|].
  - intros w' Hw'. split; [by apply (txn_shows OpReplace o s i Published STarget)|]. by pose proof (st_facts _ _ Hw') as (_ & _ & Hs & _).
  - intros w' Hw'. by apply (wp_finish_call OpReplace).
Qed.
Lemma wp_replace e c p b E w : asked c -> At p b (wd_next w) w -> (calm = true -> forall o, p = Quiet (Some o) -> fits_cap (intent_bytes OpReplace o (wd_next w, c))) ->
  wp (replace to_json from_json sha256 target_name e c) (transacted OpReplace e c p b) E w.
Proof.
  intros Hask Hw Hfit. set (n := wd_next w) in *. clearbody n. apply wp_record; [intros; by apply debt_transacted|].
  apply wp_bind, (wp_ready 2 p b n); [lia|done|intros out w' Hd Hi Hc; apply wp_ret; split_and!; [done|by destruct out|naive_solver]|].
  clear w Hw. intros v w -> Hw. rewrite name_plain. apply wp_catch. fold (failed OpReplace e c (Quiet v) b).
  apply (wp_check_predecessor OpReplace e c v b n); [done|]. clear w Hw. intros o w -> He Hw. pose proof (exits_failed OpReplace e c (Quiet (Some o)) b) as HE.
  rewrite name_room. apply wp_bind, wp_ret, wp_bind, (wp_prove_route (At (Quiet (Some o)) b n) (stable_at _ b n) (at_inv _ b n)); [done|done|]. clear w Hw. intros w (Hw & Hb & <-).
  cbv zeta. apply (wp_stage o c (fun stage staged => it <| dlift (intent_new OpReplace target_name e staged) ;; _)); [done|done|done|]. cbv zeta. set (n := wd_next w) in *. clearbody n.
  clear w Hw Hb. intros w [Hw _]. rewrite (intent_is OpReplace o (n, c)) by done. apply wp_bind, wp_ret.
  apply wp_bind, (wp_create_intent OpReplace o (n, c)); [done|done|done|by intros; apply Hfit|]. clear w Hw. intros i w [Hw _].
  apply wp_bind, (wp_prove_route (St (Txn OpReplace o (n, c) i Intended))); [apply stable_st|apply st_inv|done|done|]. clear w Hw. intros w Hw.
  apply wp_bind, (wp_capture OpReplace o (n, c) i); [done| |].
  - clear w Hw. intros w Hw. by apply (wp_replace_captured e o (n, c) i).
  - clear w Hw. intros cc w Hcc Hc Hw. destruct cc; [done|by eapply wp_rollback|by eapply wp_settle].
Qed.
Lemma wp_retire e p b E w : may_vanish -> At p b (wd_next w) w -> (calm = true -> forall o, p = Quiet (Some o) -> fits_cap (intent_bytes OpRetire o o)) ->
  wp (retire to_json from_json sha256 target_name e) (transacted OpRetire e [] p b) E w.
Proof.
  intros Hask Hw Hfit. set (n := wd_next w) in *. clearbody n. apply wp_record; [intros; by apply debt_transacted|].
  apply wp_bind, (wp_ready 1 p b n); [lia|done|intros out w' Hd Hi Hc; apply wp_ret; split_and!; [done|by destruct out|naive_solver]|].
  clear w Hw. intros v w -> Hw. rewrite name_plain. apply wp_catch. fold (failed OpRetire e [] (Quiet v) b).
  apply (wp_check_predecessor OpRetire e [] v b n); [done|]. clear w Hw. intros o w -> He (Hw & _). pose proof (exits_failed OpRetire e [] (Quiet (Some o)) b) as HE.
  rewrite (intent_is OpRetire o o) by done. apply wp_bind, wp_ret.
  apply wp_bind, (wp_create_intent OpRetire o o); [done|done|done|by intros; apply Hfit|]. clear w Hw. intros i w [Hw _].
  apply wp_bind, (wp_prove_route (St (Txn OpRetire o o i Intended))); [apply stable_st|apply st_inv|done|done|]. clear w Hw. intros w Hw.
  apply wp_bind, (wp_capture OpRetire o o i); [done| |].
  - clear w Hw. intros w Hw. apply wp_bind, (wp_sync_root (Txn OpRetire o o i Captured)); [done|done|]. intros w' [Hw' _]. by apply (wp_finish_call OpRetire e [] o o).
  - clear w Hw. intros cc w Hcc Hc Hw. destruct cc; [done|by eapply wp_rollback|by eapply wp_settle].
Qed.
End Calls.
