(* ===== verification/DirSafety.v ===== *)
(** * Crash safety of directory transactions

    Sequences of replacements, retirements and recoveries of one name, each with its
    own faults and perhaps ended by a crash: the name keeps one of its versions,
    outcomes tell the truth, and a recovery without faults brings the name back. *)
From Stdlib Require Import Strings.Byte.
From S2P Require Import Prelude Domain Framing DirTxn DirLogic DirSteps DirRecover DirDecide DirCreate DirCalls.
Open Scope Z_scope.
Open Scope bridge_scope.

(** ** Calls and their histories *)
Inductive Call := CReplace (expected : Object) (successor : bytes) | CRetire (expected : Object) | CRecover.
#[global] Instance call_eq_dec : EqDecision Call.
Proof. solve_decision. Defined.
Definition is_retire (c : Call) : bool := match c with CRetire _ => true | _ => false end.
Definition successors (cs : list Call) : list bytes := omap (fun c => match c with CReplace _ s => Some s | _ => None end) cs.
(** JSON reads back what it wrote, and not a proper beginning of it. *)
Class Codec (enc : IntentWire -> bytes) (dec : bytes -> option IntentWire) : Prop := {
  codec_reads w : dec (enc w) = Some w;
  codec_prefix w k : (k < length (enc w))%nat -> dec (take k (enc w)) = None }.
(** An ordinary name with room for the reserved prefixes. *)
Definition usable (t : bytes) : bool :=
  bool_decide (child_name_from_bytes t = Some t) && negb (is_reserved_target t) && forallb (fun n => bool_decide (reserved n t = Some (rname t n))) ns_all.
Definition on_disk (w : World) (id : Object) (c : bytes) : Prop := exists x, wd_inodes w !! id = Some (mkInode KRegular c c x).
Definition holds (w : World) (n c : bytes) : Prop := exists id, wd_dir w !! n = Some id /\ on_disk w id c.
Definition clean (w : World) : Prop := forall n, is_reserved_target n = true -> wd_dir w !! n = None.
(** A directory with no transaction whose target holds [v], all of it on disk. *)
Record rests (t : bytes) (v : option bytes) (w : World) : Prop := {
  rs_durable : wd_cuts w = [];
  rs_clean : clean w;
  rs_target : match v with Some c => holds w t c | None => wd_dir w !! t = None end;
  rs_inodes id i : wd_inodes w !! id = Some i -> (id < wd_next w)%nat;
  rs_entries n id : wd_dir w !! n = Some id -> (id < wd_next w)%nat }.
(** The target has no other link, here or elsewhere. *)
Definition unshared (t : bytes) (w : World) : Prop := forall id i, wd_dir w !! t = Some id -> wd_inodes w !! id = Some i ->
  in_extra i = 0%nat /\ forall n, n <> t -> wd_dir w !! n <> Some id.

(** ** The target of a phase *)
Definition target_of (p : Phase) : option Held :=
  match p with Quiet v => v | Stage o _ _ => Some o | Txn op o s _ st => files op o s st STarget end.
Section Target.
Context {X : Setting} {ok : SettingOk X}.
Lemma settled_on_disk w f : settled_file w f -> on_disk w (fst f) (snd f).
Proof. intros (x & Hx & _). by exists x. Qed.
Lemma target_is p w : St p w -> wd_dir w !! target_name = fst <$> target_of p.
Proof. intros Hw. pose proof (st_lookup _ _ STarget Hw) as Hl. simpl in Hl. rewrite Hl. by destruct p as [v|o s c|[] o s i []]. Qed.
Lemma target_holds p f w : St p w -> target_of p = Some f -> holds w target_name (snd f) /\ asked (snd f).
Proof.
  intros Hw Hf. assert (settled_file w f /\ asked (snd f)) as [Hs Ha].
  { pose proof (st_facts _ _ Hw) as H. destruct p as [v|o s c|[] o s i []]; simplify_eq/=; tauto. }
  split; [|done]. exists (fst f). split; [by rewrite (target_is p w Hw), Hf|by apply settled_on_disk].
Qed.
Lemma target_missing p w : St p w -> target_of p = None -> may_vanish \/ exists o s i, p = Txn OpReplace o s i Captured.
Proof.
  intros Hw Hf. pose proof (st_facts _ _ Hw) as H. destruct p as [v|o s c|[] o s i []]; simplify_eq/=; try tauto; eauto.
Qed.
Lemma captured_holds o s i w : St (Txn OpReplace o s i Captured) w -> wd_dir w !! target_name = None /\ holds w (rname target_name ReplacementCapture) (snd o) /\ asked (snd o).
Proof.
  intros Hw. pose proof (st_facts _ _ Hw) as (Ho & Ha & _). split_and!; [by apply (st_lookup _ _ STarget Hw)| |done]. exists (fst o). split; [by apply (st_lookup _ _ (SRes ReplacementCapture) Hw)|].
  by apply settled_on_disk.
Qed.
Lemma plain_entries p w n : St p w -> n <> target_name -> is_reserved_target n = false -> wd_dir w !! n = others !! n.
Proof.
  intros Hw Hn Hr. rewrite (st_dir _ _ Hw). apply lookup_rest. intros [|ns]; [done|]. intros ->. simpl in Hr. by rewrite rname_reserved in Hr.
Qed.
Lemma quiet_clean v w : St (Quiet v) w -> clean w.
Proof.
  intros Hw n Hn. rewrite (st_dir _ _ Hw). destruct (slot_dec target_name n) as [[s ->]|Hs].
  - rewrite lookup_slot by apply ok. destruct s as [|ns]; [simpl in Hn; by rewrite name_plain in Hn|by destruct ns].
  - rewrite lookup_rest by done. by apply others_plain.
Qed.
Lemma quiet_insert f v w w' : St (Quiet v) w -> St (Quiet (Some f)) w' -> wd_dir w' = <[target_name := fst f]> (wd_dir w).
Proof.
  intros Hw Hw'. rewrite (st_dir _ _ Hw), (st_dir _ _ Hw'). symmetry. etransitivity; [apply (insert_slot target_name others name_plain others_target others_plain (lay (Quiet v)) STarget)|]. apply dir_ext; [apply ok..|by intros [|[]]].
Qed.
Lemma quiet_delete v w w' : St (Quiet v) w -> St (Quiet None) w' -> wd_dir w' = delete target_name (wd_dir w).
Proof.
  intros Hw Hw'. rewrite (st_dir _ _ Hw), (st_dir _ _ Hw'). symmetry. etransitivity; [apply (delete_slot target_name others name_plain others_target others_plain (lay (Quiet v)) STarget)|]. apply dir_ext; [apply ok..|by intros [|[]]].
Qed.
(** Where the predecessor of an undone replacement was. *)
Lemma undone_target p out o w w' : St p w -> resolve p = (out, Quiet (Some o)) -> (forall tkt, out <> NtComplete tkt) -> St (Quiet (Some o)) w' ->
  wd_dir w' !! target_name = match wd_dir w !! target_name with Some x => Some x | None => wd_dir w !! rname target_name ReplacementCapture end.
Proof.
  intros Hw Hr Hn Hw'. rewrite (target_is _ _ Hw'), (target_is _ _ Hw). pose proof (st_lookup _ _ (SRes ReplacementCapture) Hw) as Hc. simpl in Hc |- *. rewrite Hc.
  destruct p as [v|o' s c|[] o' s i []]; simplify_eq/=; try done; first [by destruct (Hn _ eq_refl)|pose proof (st_facts _ _ Hw) as Hf; simpl in Hf; naive_solver].
Qed.
End Target.
(** What a history may leave: the contents it names, and whether it may remove the name. *)
Definition versions (v : option bytes) (cs : list Call) : list bytes := option_list v ++ successors cs.
Definition vanishes (v : option bytes) (cs : list Call) : Prop := v = None \/ existsb is_retire cs = true.
(** ** Histories *)
Section Histories.
Context (enc : IntentWire -> bytes) (dec : bytes -> option IntentWire) (sha : bytes -> bytes) (t : bytes).
Definition run_call (c : Call) : Dm TxnOutcome :=
  match c with
  | CReplace e s => replace enc dec sha t e s
  | CRetire e => retire enc dec sha t e
  | CRecover => recover_with dec sha
  end.
(** A call with the faults it meets; what a crash leaves is what the next call finds. *)
Definition invoke (x : Call * list Fault) (w : World) : Run TxnOutcome * World := run_call (fst x) (set_faults (snd x) w).
Definition history (xs : list (Call * list Fault)) (w : World) : World := fold_left (fun w x => snd (invoke x w)) xs w.

Section Setup.
Context {codec : Codec enc dec} (Ht : usable t = true) (rest : Directory) (asks : bytes -> Prop) (gone : Prop) (alone : bool).
Context (rest_t : rest !! t = None) (rest_clean : forall n, is_reserved_target n = true -> rest !! n = None).
Definition faulty : Setting := mkSetting enc dec sha t rest asks gone alone false.
Definition faultless : Setting := mkSetting enc dec sha t rest asks gone true true.
Lemma usable_parts : child_name_from_bytes t = Some t /\ is_reserved_target t = false /\ forall n, reserved n t = Some (rname t n).
Proof.
  apply andb_true_iff in Ht as [[H1%bool_decide_eq_true H2%negb_true_iff]%andb_true_iff H3]. split_and!; [done|done|]. intros n. rewrite forallb_forall in H3.
  assert (In n ns_all) as Hn by (destruct n; simpl; auto). specialize (H3 n Hn). by apply bool_decide_eq_true in H3.
Qed.
Lemma faulty_ok : SettingOk faulty.
Proof. destruct usable_parts as (H1 & H2 & H3). split; simpl; [done|done|done|done|done|apply codec_reads|apply codec_prefix|done|done]. Qed.
Lemma faultless_ok : (size rest + 5 <= CHILD_CAP)%nat -> SettingOk faultless.
Proof. intros Hr. destruct usable_parts as (H1 & H2 & H3). split; simpl; [done|done|done|done|done|apply codec_reads|apply codec_prefix|done|done]. Qed.
Definition permitted (c : Call) : Prop := match c with CReplace _ s => asks s | CRetire _ => gone | CRecover => True end.
(** What a call that began in phase [p] with the debt flag [b] answers. *)
Definition answered {X : Setting} (c : Call) (p : Phase) (b : bool) (out : TxnOutcome) (w : World) : Prop :=
  match c with
  | CReplace e s => transacted OpReplace e s p b out w
  | CRetire e => transacted OpRetire e [] p b out w
  | CRecover => recovered p out w
  end.
Lemma answered_inv {X : Setting} c p b out w : answered c p b out w -> Inv w.
Proof. by destruct c; intros [? _]. Qed.
Lemma call_spec c p fs w : permitted c -> St (X := faulty) p w -> wp (X := faulty) (run_call c) (answered (X := faulty) c p (wd_debt w)) (fun _ _ => False) (set_faults fs w).
Proof.
  intros Hc Hw. pose proof faulty_ok as ok. assert (St (X := faulty) p (set_faults fs w)) as Hw' by (by apply faults_st). destruct c as [e s|e|].
  - by apply (wp_replace (X := faulty) e s p (wd_debt w)).
  - by apply (wp_retire (X := faulty) e p (wd_debt w)).
  - by apply (wp_recover (X := faulty) p).
Qed.
Lemma invoke_inv x w : permitted (fst x) -> Inv (X := faulty) w -> Inv (X := faulty) (snd (invoke x w)).
Proof.
  intros Hc [p Hp]. pose proof (call_spec (fst x) p (snd x) w Hc Hp) as H. unfold wp in H. unfold invoke. destruct (run_call (fst x) (set_faults (snd x) w)) as [[out|u|] w']; simpl.
  - by eapply answered_inv.
  - done.
  - apply H.
Qed.
Lemma history_inv xs w : Forall (fun x => permitted (fst x)) xs -> Inv (X := faulty) w -> Inv (X := faulty) (history xs w).
Proof.
  intros Hx. revert w. induction xs as [|x xs IH]; intros w Hw; [done|]. inversion_clear Hx. simpl. apply IH; [done|]. by apply invoke_inv.
Qed.
End Setup.

Definition rest_of (w : World) : Directory := delete t (wd_dir w).
Lemma rest_of_t w : rest_of w !! t = None.
Proof. apply lookup_delete_eq. Qed.
Lemma rest_of_clean w : clean w -> forall n, is_reserved_target n = true -> rest_of w !! n = None.
Proof. intros Hc n Hn. unfold rest_of. apply lookup_delete_None. right. by apply Hc. Qed.
Lemma rests_quiet asks gone alone v w : usable t = true -> rests t v w -> (alone = true -> unshared t w) -> match v with Some c => asks c | None => gone end ->
  exists h, snd <$> h = v /\ durable (X := mkSetting enc dec sha t (rest_of w) asks gone alone false) (Quiet h) w.
Proof.
  intros Hu Hr Ha Hv. destruct (usable_parts Hu) as (_ & Hp & _).
  assert (exists h, snd <$> h = v /\ fst <$> h = wd_dir w !! t /\ match h with Some o => on_disk w (fst o) (snd o) | None => True end) as (h & Eh & Hd & Hf).
  { destruct v as [c|]; [|exists None; split_and!; [done|by rewrite (rs_target _ _ _ Hr)|done]]. destruct (rs_target _ _ _ Hr) as (id & Hid & Hc). exists (Some (id, c)). by rewrite Hid. }
  exists h. split; [done|]. split; [|apply Hr]. split; simpl; [| | |split|done].
  - apply map_eq. intros n. destruct (slot_dec t n) as [[s ->]|Hn].
    + rewrite lookup_slot; [|done|apply rest_of_t|by apply rest_of_clean, Hr]. destruct s as [|ns]; [done|]. simpl. apply (rs_clean _ _ _ Hr), rname_reserved.
    + rewrite lookup_rest by done. unfold rest_of. rewrite lookup_delete_ne; [done|]. intros <-. by apply (Hn STarget).
  - destruct h as [o|]; simpl in *; [|by subst v]. subst v. split; [|done]. destruct Hf as (x & Hx). exists x. split; [done|]. intros Hal. destruct (Ha Hal (fst o) _ (eq_sym Hd) Hx) as [Hx0 Hn]. split; [done|].
    intros n. change (rest_of w !! n <> Some (fst o)). unfold rest_of. destruct (decide (n = t)) as [-> |Hne]; [by rewrite lookup_delete_eq|]. rewrite lookup_delete_ne by done. by apply Hn.
  - rewrite (rs_durable _ _ _ Hr). constructor.
  - apply Hr.
  - intros n id. simpl. unfold rest_of. intros [_ Hn]%lookup_delete_Some. by eapply (rs_entries _ _ _ Hr).
Qed.

End Histories.
Lemma permitted_all v cs (xs : list (Call * list Fault)) : (forall x, x ∈ xs -> fst x ∈ cs) -> Forall (fun x => permitted (fun c => c ∈ versions v cs) (vanishes v cs) (fst x)) xs.
Proof.
  intros Hin. rewrite Forall_forall. intros x Hx%Hin. destruct (fst x) as [e s|e|]; simpl; [|right; apply existsb_exists; exists (CRetire e); split; [by apply list_elem_of_In|done]|done].
  unfold versions. apply elem_of_app. right. unfold successors. apply list_elem_of_omap. by exists (CReplace e s).
Qed.
