(* ===== verification/DirCodec.v ===== *)
(** * A codec for intents and a directory to run the transactions on

    A self-delimiting encoding of intents, which meets the class [Codec] that the
    theorems ask of JSON, decision procedures for the shape of a directory, and a
    small journal directory. *)
From Stdlib Require Import Strings.Byte.
From S2P Require Import Prelude Domain Framing DirTxn DirLogic DirSteps DirRecover DirDecide DirCreate DirCalls DirSafety.
Open Scope Z_scope.
Open Scope bridge_scope.

(** ** Self-delimiting encodings *)
Class Delimited (A : Type) := {
  put : A -> bytes;
  get : bytes -> option (A * bytes);
  get_put a rest : get (put a ++ rest) = Some (a, rest);
  get_prefix a k : (k < length (put a))%nat -> get (take k (put a)) = None }.
#[global, refine] Instance delimited_unit : Delimited unit := {| put _ := []; get bs := Some (tt, bs) |}.
Proof.
  - by intros [].
  - simpl. lia.
Defined.
#[global, refine] Instance delimited_byte : Delimited byte := {| put b := [b]; get bs := match bs with b :: r => Some (b, r) | [] => None end |}.
Proof.
  - done.
  - intros b [|k]; simpl; [done|lia].
Defined.
#[global, refine] Instance delimited_prod {A B} `{Delimited A, Delimited B} : Delimited (A * B) :=
  {| put x := put (fst x) ++ put (snd x);
     get bs := match get bs with Some (a, r) => match get r with Some (b, r') => Some ((a, b), r') | None => None end | None => None end |}.
Proof.
  - intros [a b] rest. simpl. by rewrite <- app_assoc, !get_put.
  - intros [a b] k. simpl. rewrite length_app. intros Hk. destruct (Nat.lt_ge_cases k (length (put a))) as [Hlt|Hge].
    + by rewrite take_app_le, get_prefix by lia.
    + rewrite take_app_ge, get_put by lia. by rewrite get_prefix by lia.
Defined.
Section Lists.
Context {A : Type} `{Delimited A}.
Fixpoint put_list (l : list A) : bytes := match l with [] => [x00] | a :: l => x01 :: put a ++ put_list l end.
Fixpoint get_list (fuel : nat) (bs : bytes) : option (list A * bytes) :=
  match fuel with
  | O => None
  | S fuel =>
      match bs with
      | x00 :: r => Some ([], r)
      | x01 :: r => match get r with Some (a, r') => match get_list fuel r' with Some (l, r'') => Some (a :: l, r'') | None => None end | None => None end
      | _ => None
      end
  end.
Lemma get_put_list l rest fuel : (length l < fuel)%nat -> get_list fuel (put_list l ++ rest) = Some (l, rest).
Proof.
  revert fuel. induction l as [|a l IH]; intros [|fuel] Hf; simpl in *; try lia; [done|]. rewrite <- app_assoc, get_put. by rewrite IH by lia.
Qed.
Lemma get_prefix_list l k fuel : (k < length (put_list l))%nat -> get_list fuel (take k (put_list l)) = None.
Proof.
  revert k fuel. induction l as [|a l IH]; intros [|k] [|fuel] Hk; simpl in *; try done; [lia|]. rewrite length_app in Hk. destruct (Nat.lt_ge_cases k (length (put a))) as [Hlt|Hge].
  - by rewrite take_app_le, get_prefix by lia.
  - rewrite take_app_ge, get_put by lia. by rewrite IH by lia.
Qed.
Lemma length_put_list l : (length l < length (put_list l))%nat.
Proof. induction l as [|a l IH]; simpl; [lia|]. rewrite length_app. lia. Qed.
#[export, refine] Instance delimited_list : Delimited (list A) := {| put := put_list; get bs := get_list (S (length bs)) bs |}.
Proof.
  - intros l rest. apply get_put_list. rewrite length_app. pose proof (length_put_list l). lia.
  - intros l k Hk. by apply get_prefix_list.
Defined.
End Lists.
(** Encoding through another type. *)
Definition delimited_inj {A B} `{Delimited B} (f : A -> B) (g : B -> option A) (gf : forall a, g (f a) = Some a) : Delimited A.
Proof.
  refine {| put a := put (f a); get bs := match get bs with Some (b, r) => match g b with Some a => Some (a, r) | None => None end | None => None end |}.
  - intros a rest. by rewrite get_put, gf.
  - intros a k Hk. by rewrite get_prefix.
Defined.
#[global] Instance delimited_nat : Delimited nat := delimited_inj (fun n => replicate n tt) (fun l => Some (length l)) (fun n => f_equal Some (length_replicate n tt)).
#[global, refine] Instance delimited_Z : Delimited Z := delimited_inj (fun z => (Z.to_nat z, Z.to_nat (- z))) (fun '(a, b) => Some (Z.of_nat a - Z.of_nat b)) _.
Proof. intros z. simpl. f_equal. lia. Defined.
#[global, refine] Instance delimited_option {A} `{Delimited A} : Delimited (option A) := delimited_inj option_list (fun l => Some (head l)) _.
Proof. by intros [a|]. Defined.
#[global, refine] Instance delimited_wire : Delimited IntentWire :=
  delimited_inj
    (fun w => (iw_schema w, match iw_operation w with OpReplace => x00 | OpRetire => x01 end, iw_target w, iw_expected w,
               (sn_object (iw_staged w), sn_len (iw_staged w)), iw_sha256 w, iw_reserved w))
    (fun '(sc, op, tg, ex, (ob, ln), sh, rs) => Some (mkWire sc (match op with x00 => OpReplace | _ => OpRetire end) tg ex (mkSnapshot ob ln) sh rs)) _.
Proof. by intros [sc [] tg ex [ob ln] sh rs]. Defined.
Definition toy_enc (w : IntentWire) : bytes := put w.
Definition toy_dec (bs : bytes) : option IntentWire := match get bs with Some (w, []) => Some w | _ => None end.
#[global] Instance toy_codec : Codec toy_enc toy_dec.
Proof.
  split; unfold toy_enc, toy_dec.
  - intros w. rewrite <- (app_nil_r (put w)). by rewrite get_put.
  - intros w k Hk. by rewrite get_prefix.
Qed.

(** ** Deciding the shape of a directory *)
Definition rests_b (t : bytes) (v : option bytes) (w : World) : bool :=
  match wd_cuts w with [] => true | _ => false end &&
  forallb (fun x => negb (is_reserved_target (fst x))) (map_to_list (wd_dir w)) &&
  match v, wd_dir w !! t with
  | Some c, Some id => match wd_inodes w !! id with Some (mkInode KRegular a b _) => bool_decide (a = c) && bool_decide (b = c) | _ => false end
  | None, None => true
  | _, _ => false
  end &&
  forallb (fun x => (fst x <? wd_next w)%nat) (map_to_list (wd_inodes w)) && forallb (fun x => (snd x <? wd_next w)%nat) (map_to_list (wd_dir w)).
Definition unshared_b (t : bytes) (w : World) : bool :=
  match wd_dir w !! t with
  | Some id => match wd_inodes w !! id with Some i => (in_extra i =? 0)%nat | None => true end &&
      forallb (fun x => bool_decide (fst x = t) || negb (bool_decide (snd x = id))) (map_to_list (wd_dir w))
  | None => true
  end.
Lemma forall_entries `{Countable K} {A} (f : K * A -> bool) (m : gmap K A) k x : forallb f (map_to_list m) = true -> m !! k = Some x -> f (k, x) = true.
Proof. intros Hf Hk. rewrite forallb_forall in Hf. apply Hf, list_elem_of_In. by apply elem_of_map_to_list. Qed.
Lemma rests_b_sound t v w : rests_b t v w = true -> rests t v w.
Proof.
  intros [[[[Hc Hr]%andb_true_iff Ht]%andb_true_iff Hi]%andb_true_iff Hd]%andb_true_iff. split.
  - by destruct (wd_cuts w).
  - intros n Hn. destruct (wd_dir w !! n) as [id|] eqn:E; [|done]. pose proof (forall_entries _ _ n id Hr E) as Hx. simpl in Hx. by rewrite Hn in Hx.
  - destruct v as [c|], (wd_dir w !! t) as [id|] eqn:E; try done. exists id. split; [done|]. destruct (wd_inodes w !! id) as [[[] a b x]|] eqn:Ei; try done.
    apply andb_true_iff in Ht as [->%bool_decide_eq_true ->%bool_decide_eq_true]. by exists x.
  - intros id i E. apply Nat.ltb_lt. by apply (forall_entries _ _ id i Hi E).
  - intros n id E. apply Nat.ltb_lt. by apply (forall_entries _ _ n id Hd E).
Qed.
Lemma unshared_b_sound t w : unshared_b t w = true -> unshared t w.
Proof.
  unfold unshared_b. intros Hb id i E Ei. rewrite E, Ei in Hb. apply andb_true_iff in Hb as [Hx%Nat.eqb_eq Hd]. split; [done|]. intros n Hn En. pose proof (forall_entries _ _ n id Hd En) as Hf. simpl in Hf.
  rewrite bool_decide_eq_false_2, bool_decide_eq_true_2 in Hf by done. done.
Qed.

(** ** A journal directory *)
Definition journal : bytes := of_str "j".
Definition old_bytes : bytes := of_str "one".
Definition new_bytes : bytes := of_str "two".
Definition small_world : World :=
  mkWorld {[journal := 1%nat; of_str "k" := 0%nat]} [] {[1%nat := mkInode KRegular old_bytes old_bytes 0; 0%nat := mkInode KRegular [] [] 0]} 2%nat false [].
Definition toy_sha (b : bytes) : bytes := rev b.
