(* ===== verification/DirTheorems.v ===== *)
(** * Theorems on directory transactions

    Versions survive crashes, outcomes are truthful, recovery restores the name, calls without faults complete; with
    runs on a small directory that show that the hypotheses can hold. *)
From Stdlib Require Import Strings.Byte.
From S2P Require Import Prelude Domain Framing DirTxn DirLogic DirSteps DirRecover DirDecide DirCreate DirCalls DirSafety DirCodec.
Open Scope Z_scope.
Open Scope bridge_scope.

(** What the outcome of a call says of the world before and after. *)
Definition truthful (t : bytes) (c : Call) (w : World) (out : TxnOutcome) (w' : World) : Prop :=
  match c, out with
  | CReplace e s, NtComplete tkt =>
      tkt = mkTicket OpReplace t /\ wd_dir w !! t = Some e /\ clean w' /\ wd_cuts w' = [] /\ exists id, wd_dir w' = <[t := id]> (wd_dir w) /\ on_disk w' id s
  | CRetire e, NtComplete tkt => tkt = mkTicket OpRetire t /\ wd_dir w !! t = Some e /\ clean w' /\ wd_cuts w' = [] /\ wd_dir w' = delete t (wd_dir w)
  | (CReplace _ _ | CRetire _), NtNoEffect _ => clean w' /\ wd_dir w' = wd_dir w
  | (CReplace _ _ | CRetire _), NtReady => False
  | CRecover, NtReady => clean w' /\ wd_cuts w' = [] /\ wd_dir w' = wd_dir w
  | CRecover, NtComplete _ => clean w' /\ wd_cuts w' = [] /\ wd_dir w' !! t = wd_dir w !! t
  | CRecover, NtNoEffect _ => clean w' /\ wd_cuts w' = [] /\
      wd_dir w' !! t = match wd_dir w !! t with Some x => Some x | None => wd_dir w !! rname t ReplacementCapture end
  | _, (NtRetained _ | NtProtectiveDebt) => wd_debt w' = true
  | _, NtUnsupported => True
  end.
Section Answers.
Context {X : Setting} {ok : SettingOk X}.
Lemma transacted_truthful op e c p b out w w' : St p w -> transacted op e c p b out w' -> match out with NtRetained _ | NtProtectiveDebt => wd_debt w' = true | _ => True end ->
  truthful target_name match op with OpReplace => CReplace e c | OpRetire => CRetire e end w out w'.
Proof.
  intros Hw (_ & Ho & _) Hd.  destruct out as [|tkt|tkt|tkt| |]; [by destruct op| | |by destruct op|by destruct op|by destruct op].
  - destruct Ho as (-> & o & s & -> & <- & Hw' & Hcut). pose proof (target_is _ _ Hw) as Ht. simpl in Ht. destruct op; simpl.
    + split_and!; [done|done|by eapply quiet_clean|done|]. exists s. split; [by apply (quiet_insert (s, c) (Some o))|]. apply (settled_on_disk w' (s, c)), (st_facts _ _ Hw').
    + split_and!; [done|done|by eapply quiet_clean|done|]. by apply (quiet_delete (Some o)).
  - destruct Ho as (_ & v & -> & Hw'). destruct op; (split; [by eapply quiet_clean|by rewrite (st_dir _ _ Hw), (st_dir _ _ Hw')]).
Qed.
Lemma recovered_truthful p out w w' : St p w -> recovered p out w' -> match out with NtRetained _ | NtProtectiveDebt => wd_debt w' = true | _ => True end -> truthful target_name CRecover w out w'.
Proof.
  intros Hw (_ & Ho & _) Hd.  destruct out as [|tkt|tkt|tkt| |]; try done; destruct (Ho eq_refl) as [Er [Hw' Hcut]].
  - destruct p as [v|o s c|[] o s i []]; simplify_eq/=. split_and!; [by eapply quiet_clean|done|by rewrite (st_dir _ _ Hw), (st_dir _ _ Hw')].
  - destruct p as [v|o s c|[] o s i []]; simplify_eq/=; (split_and!; [by eapply quiet_clean|done|by rewrite (target_is _ _ Hw'), (target_is _ _ Hw)]).
  - assert (exists o, resolve p = (NtNoEffect tkt, Quiet (Some o))) as (o & Ep) by (destruct p as [v|o s c|[] o s i []]; simplify_eq/=; eauto). rewrite Ep in Hw'. simpl in Hw'.
    split_and!; [by eapply quiet_clean|done|]. by eapply (undone_target p _ o).
Qed.
End Answers.

Section Theorems.
Context (enc : IntentWire -> bytes) (dec : bytes -> option IntentWire) (sha : bytes -> bytes) (t : bytes) {codec : Codec enc dec}.
Notation history := (history enc dec sha t).
Notation invoke := (invoke enc dec sha t).

(** The setting of a history of calls [cs] from the world [w]. *)
Definition within (v : option bytes) (cs : list Call) (alone : bool) (w : World) : Setting :=
  faulty enc dec sha t (rest_of t w) (fun c => c ∈ versions v cs) (vanishes v cs) alone.
Lemma within_ok v cs alone w : usable t = true -> clean w -> SettingOk (within v cs alone w).
Proof. intros Hu Hc. apply faulty_ok; [done|done|apply rest_of_t|by apply rest_of_clean]. Qed.
Lemma history_within v cs alone xs w : usable t = true -> rests t v w -> (alone = true -> unshared t w) -> (forall x, x ∈ xs -> fst x ∈ cs) ->
  Inv (X := within v cs alone w) (history xs w).
Proof.
  intros Hu Hr Ha Hin. apply history_inv; [done|done|apply rest_of_t|by apply rest_of_clean, Hr|by apply permitted_all|].
  destruct (rests_quiet enc dec sha t (fun c => c ∈ versions v cs) (vanishes v cs) alone v w Hu Hr Ha) as (h & _ & Hq & _).
  - destruct v as [c|]; [unfold versions; simpl; set_solver|by left].
  - by eapply st_inv.
Qed.

(** C9: whatever replacements, retirements and recoveries of one name are run, each with any failures of its system
    calls and perhaps ended by a crash that loses what was not synced, the name holds in full and on disk one of the
    contents it was ever given, or a replacement's capture holds it while the name is absent, or the name was absent
    or retired; no other entry of the directory changes. *)
Theorem crash_keeps_a_version xs v w : usable t = true -> rests t v w ->
  let w' := history xs w in
  (forall n, n <> t -> is_reserved_target n = false -> wd_dir w' !! n = wd_dir w !! n) /\
  ((exists c, c ∈ versions v xs.*1 /\ (holds w' t c \/ (wd_dir w' !! t = None /\ holds w' (rname t ReplacementCapture) c))) \/
   (wd_dir w' !! t = None /\ vanishes v xs.*1)).
Proof.
  intros Hu Hr w'. pose proof (within_ok v xs.*1 false w Hu (rs_clean _ _ _ Hr)) as ok.
  destruct (history_within v xs.*1 false xs w Hu Hr) as [p Hp]; [done|intros x Hx; by apply list_elem_of_fmap_2|]. fold w' in Hp. split.
  - intros n Hn Hres. etransitivity; [by apply (plain_entries (X := within v xs.*1 false w) p)|]. simpl. unfold rest_of. by rewrite lookup_delete_ne.
  - destruct (target_of p) as [f|] eqn:Ef.
    + left. exists (snd f). destruct (target_holds (X := within v xs.*1 false w) p f w' Hp Ef) as [Hh Ha]. split; [done|by left].
    + destruct (target_missing (X := within v xs.*1 false w) p w' Hp Ef) as [Hv|(o & s & i & ->)].
      * right. split; [|done]. etransitivity; [by apply (target_is (X := within v xs.*1 false w) p)|]. by rewrite Ef.
      * left. exists (snd o). destruct (captured_holds (X := within v xs.*1 false w) o s i w' Hp) as (H1 & H2 & H3). split; [done|by right].
Qed.

Lemma record_debt m w out w' : record m w = (Done out, w') -> match out with NtRetained _ | NtProtectiveDebt => wd_debt w' = true | _ => True end.
Proof. unfold record, dbind. destruct (m w) as [[o|u|] w1]; [|done|done]. by destruct o; intros [= <- <-]. Qed.
Lemma call_debt c w out w' : run_call enc dec sha t c w = (Done out, w') -> match out with NtRetained _ | NtProtectiveDebt => wd_debt w' = true | _ => True end.
Proof. destruct c; apply record_debt. Qed.
(** C10: after any such history, a call that returns tells the truth: a completed replacement put the new content under
    the name, on disk and beyond the reach of a crash, in place of the expected object; a completed retirement removed
    it; a call without effect left every entry as it was; a recovery that is ready, complete or without effect leaves
    no reserved entry, with the successor in place or the predecessor back; and a call that retains debt remembers it. *)
Theorem outcomes_are_truthful xs c fs v w out w' : usable t = true -> rests t v w -> invoke (c, fs) (history xs w) = (Done out, w') -> truthful t c (history xs w) out w'.
Proof.
  intros Hu Hr Hi. set (cs := c :: xs.*1). set (X := within v cs false w). pose proof (within_ok v cs false w Hu (rs_clean _ _ _ Hr)) as ok.
  destruct (history_within v cs false xs w Hu Hr) as [p Hp]; [done|intros x Hx; right; by apply list_elem_of_fmap_2|]. fold X in ok, Hp.
  assert (permitted (fun c => c ∈ versions v cs) (vanishes v cs) c) as Hc.
  { assert (Forall (fun x => permitted (fun c => c ∈ versions v cs) (vanishes v cs) (fst x)) [(c, fs)]) as Hall by (apply permitted_all; intros x ->%list_elem_of_singleton; by left). by inversion_clear Hall. }
  pose proof (call_spec enc dec sha t Hu (rest_of t w) _ _ false (rest_of_t t w) (rest_of_clean t w (rs_clean _ _ _ Hr)) c p fs _ Hc Hp) as H.
  unfold wp in H. unfold DirSafety.invoke in Hi. simpl in Hi. pose proof (call_debt c _ _ _ Hi) as Hd. rewrite Hi in H. destruct c as [e s|e|]; simpl in H.
  - by eapply (transacted_truthful (X := X) OpReplace e s p).
  - by eapply (transacted_truthful (X := X) OpRetire e [] p).
  - by eapply (recovered_truthful (X := X) p).
Qed.

(** The same setting for a call that meets no faults. *)
Definition calmly (v : option bytes) (cs : list Call) (w : World) : Setting := faultless enc dec sha t (rest_of t w) (fun c => c ∈ versions v cs) (vanishes v cs).
Lemma calmly_ok v cs w : usable t = true -> clean w -> (size (wd_dir w) + 5 <= CHILD_CAP)%nat -> SettingOk (calmly v cs w).
Proof.
  intros Hu Hc Hs. apply faultless_ok; [done|done|apply rest_of_t|by apply rest_of_clean|]. unfold rest_of. pose proof (map_size_delete t (wd_dir w)) as Hd. destruct (wd_dir w !! t); simpl in Hd; lia.
Qed.
Lemma calm_st v cs w0 p w : St (X := within v cs true w0) p w -> St (X := calmly v cs w0) p (set_faults [] w).
Proof.
  intros Hw. apply (faults_st (X := within v cs true w0) p w []) in Hw as [H1 H2 H3 H4 _]; [|done]. split; [exact H1|exact H2|exact H3|exact H4|done].
Qed.
(** Without faults, recovery ends in a decision or leaves the phase it found; only a replacement's capture keeps the
    name absent, and recovery puts it back. *)
Lemma calm_recovery {X : Setting} {ok : SettingOk X} p w : calm = true -> St p w -> ~ may_vanish ->
  exists out w', recover_with from_json DirLogic.sha256 w = (Done out, w') /\ (exists c, asked c /\ holds w' target_name c) /\
    (if decided out then clean w' /\ wd_cuts w' = [] else wd_dir w' = wd_dir w).
Proof.
  intros Hcalm Hw Hv. set (Q := fun out w' => (exists c, asked c /\ holds w' target_name c) /\ (if decided out then clean w' /\ wd_cuts w' = [] else wd_dir w' = wd_dir w)).
  assert (wp (recover_with from_json DirLogic.sha256) Q (fun _ _ => False) w) as H.
  { assert (forall q w', St q w' -> (forall o s i, q <> Txn OpReplace o s i Captured) -> exists c, asked c /\ holds w' target_name c) as Hhold.
    { intros q w' Hq Hn. destruct (target_of q) as [f|] eqn:Ef; [exists (snd f); by destruct (target_holds q f w' Hq Ef)|]. destruct (target_missing q w' Hq Ef) as [?|(o & s & i & ->)]; [done|by destruct (Hn o s i)]. }
    assert ((exists op o s i st, p = Txn op o s i st /\ torn op o s i w) \/ intact p w) as [(op & o & s & i & st & -> & Ht)|Hi].
    { destruct p as [v|o s c|op o s i st]; [by right|by right|]. destruct (torn_or_intact _ _ _ _ _ _ (st_facts _ _ Hw)); [left|by right]. by exists op, o, s, i, st. }
    - apply (wp_recover_torn op o s i st); [done|done|done|]. intros w' Hw'. split; [|simpl; by rewrite (st_dir _ _ Hw), (st_dir _ _ Hw')]. apply (Hhold _ _ Hw'). intros o' s' i' [= -> -> -> -> ->].
      apply (settled_intxn OpReplace o' s' i' Captured w eq_refl) in Hw as [_ Hr]. by eapply torn_unreadable.
    - eapply wp_conseq; [| |apply (wp_recover p)]; [|by intros u w' H; exact H|done|done]. intros out w' (_ & Hd & Hc). destruct (Hc Hcalm) as [Eo Hw']. split.
      + apply (Hhold _ _ Hw'). by destruct p as [v|o s c|[] o s i []].
      + destruct (decided out) eqn:Ed.
        * destruct (Hd eq_refl) as [_ [_ Hcut]]. split; [|done]. destruct p as [v|o s c|[] o s i []]; simplify_eq/=; by eapply quiet_clean.
        * destruct p as [v|o s c|[] o s i []]; simplify_eq/=; by rewrite (st_dir _ _ Hw), (st_dir _ _ Hw'). }
  unfold wp in H. destruct (recover_with from_json DirLogic.sha256 w) as [[out|u|] w']; [|done|destruct H; congruence]. by exists out, w'.
Qed.
(** C11: after any history of replacements and recoveries, with any faults and crashes, a recovery that meets no faults
    returns with the name present and holding in full one of its versions: it ends the transaction and leaves no
    reserved entry, or leaves the directory as it is where the staging file has no intent, the intent is torn or the
    predecessor is already gone. *)
Theorem recovery_restores_target xs c0 w : usable t = true -> rests t (Some c0) w -> unshared t w -> (size (wd_dir w) + 5 <= CHILD_CAP)%nat -> existsb is_retire xs.*1 = false ->
  exists out w', invoke (CRecover, []) (history xs w) = (Done out, w') /\ (exists c, c ∈ versions (Some c0) xs.*1 /\ holds w' t c) /\
    (if decided out then clean w' /\ wd_cuts w' = [] else wd_dir w' = wd_dir (history xs w)).
Proof.
  intros Hu Hr Hs Hroom Hnr. pose proof (calmly_ok (Some c0) xs.*1 w Hu (rs_clean _ _ _ Hr) Hroom) as ok.
  destruct (history_within (Some c0) xs.*1 true xs w Hu Hr) as [p Hp]; [done|intros x Hx; by apply list_elem_of_fmap_2|]. apply calm_st in Hp.
  apply (calm_recovery (X := calmly (Some c0) xs.*1 w) p _ eq_refl Hp). intros [?|?]; [done|congruence].
Qed.

(** The intent a call writes. *)
Definition intent_fits (op : CustodyOperationKind) (e : Object) (s c : bytes) (w : World) : Prop := forall it,
  intent_new op t e (match op with OpReplace => mkSnapshot (wd_next w) (length s) | OpRetire => mkSnapshot e (length c) end) = Some it ->
  (length (enc (to_wire it (match op with OpReplace => Some (sha s) | OpRetire => None end))) <= INTENT_CAP)%nat.
Definition call_of (op : CustodyOperationKind) (e : Object) (s : bytes) : Call := match op with OpReplace => CReplace e s | OpRetire => CRetire e end.
(** C12: without faults, from a quiet directory within its capacity and free of debt, a replacement or retirement of
    the object that is under the name completes, when its intent is within the size limit of intents. *)
Theorem faultless_calls_complete op e s c w : usable t = true -> rests t (Some c) w -> unshared t w -> (size (wd_dir w) + 5 <= CHILD_CAP)%nat -> wd_debt w = false ->
  intent_fits op e s c w -> wd_dir w !! t = Some e ->
  exists w', invoke (call_of op e s, []) w = (Done (NtComplete (mkTicket op t)), w') /\ truthful t (call_of op e s) w (NtComplete (mkTicket op t)) w'.
Proof.
  intros Hu Hr Hs Hroom Hb Hfit He. set (cs := [call_of op e s]). set (X := calmly (Some c) cs w). pose proof (calmly_ok (Some c) cs w Hu (rs_clean _ _ _ Hr) Hroom) as ok. fold X in ok.
  destruct (rests_quiet enc dec sha t (fun c0 => c0 ∈ versions (Some c) cs) (vanishes (Some c) cs) true (Some c) w Hu Hr) as ([o|] & Eo & Hq & _); [done|unfold versions; simpl; set_solver| |done].
  apply calm_st in Hq. fold X in Hq. simpl in Eo. injection Eo as Eo. pose proof (target_is (X := X) _ _ Hq) as Ho. simpl in Ho. rewrite He in Ho. injection Ho as Ho.
  assert (At (X := X) (Quiet (Some o)) false (wd_next w) (set_faults [] w)) as Hat by done.
  assert (wp (X := X) (run_call enc dec sha t (call_of op e s)) (transacted (X := X) op e (match op with OpReplace => s | OpRetire => [] end) (Quiet (Some o)) false) (fun _ _ => False) (set_faults [] w)) as H.
  { destruct op.
    - apply (wp_replace (X := X) e s (Quiet (Some o)) false); [simpl; unfold versions; simpl; set_solver|done|]. intros _ o' [= <-]. unfold fits_cap. apply (Hfit (the_intent (X := X) OpReplace o (wd_next w, s))).
      by apply (intent_is (X := X)).
    - apply (wp_retire (X := X) e (Quiet (Some o)) false); [by right|done|]. intros _ o' [= <-]. unfold fits_cap. apply (Hfit (the_intent (X := X) OpRetire o o)).
      apply (intent_is (X := X)); [done|]. unfold snap_of. by rewrite <- Ho, Eo. }
  unfold wp in H. unfold DirSafety.invoke. simpl. destruct (run_call enc dec sha t (call_of op e s) (set_faults [] w)) as [[out|u|] w'] eqn:Er; [|done|by destruct H].
  pose proof H as (_ & _ & Hout). rewrite (Hout eq_refl eq_refl (Some o) eq_refl) in H |- *. unfold expected_out in *. rewrite decide_True in H |- * by done. exists w'. split; [done|].
  apply (transacted_truthful (X := X) op e _ _ _ _ _ _ Hq) in H; [|done]. by destruct op.
Qed.
End Theorems.

(** ** Runs on a small directory *)
Notation toy_history := (history toy_enc toy_dec toy_sha journal).
Lemma small_rests : rests journal (Some old_bytes) small_world.
Proof. apply rests_b_sound. vm_compute. reflexivity. Qed.
Lemma small_unshared : unshared journal small_world.
Proof. apply unshared_b_sound. vm_compute. reflexivity. Qed.
Notation toy_invoke := (invoke toy_enc toy_dec toy_sha journal).
(** A replacement that crashes once the predecessor is captured, with the directory not yet synced. *)
Definition interrupted : list (Call * list Fault) := [(CReplace 1%nat new_bytes, replicate 23 FNone ++ [FCrash true 0 0 0])].
Lemma crash_keeps_a_version_witness :
  let w' := toy_history interrupted small_world in
  (wd_dir w' !! journal = None /\ holds w' (rname journal ReplacementCapture) old_bytes) /\
  (forall n, n <> journal -> is_reserved_target n = false -> wd_dir w' !! n = wd_dir small_world !! n) /\
  ((exists c, c ∈ versions (Some old_bytes) interrupted.*1 /\ (holds w' journal c \/ (wd_dir w' !! journal = None /\ holds w' (rname journal ReplacementCapture) c))) \/
   (wd_dir w' !! journal = None /\ vanishes (Some old_bytes) interrupted.*1)).
Proof.
  split; [split; [vm_compute; reflexivity|exists 1%nat; split; [vm_compute; reflexivity|exists 0%nat; vm_compute; reflexivity]]|].
  exact (crash_keeps_a_version toy_enc toy_dec toy_sha journal interrupted (Some old_bytes) small_world ltac:(vm_compute; reflexivity) small_rests).
Defined.
Lemma outcomes_are_truthful_witness :
  truthful journal CRecover (toy_history interrupted small_world) (NtNoEffect (mkTicket OpReplace journal)) (snd (toy_invoke (CRecover, []) (toy_history interrupted small_world))).
Proof.
  exact (outcomes_are_truthful toy_enc toy_dec toy_sha journal interrupted CRecover [] (Some old_bytes) small_world _ _ ltac:(vm_compute; reflexivity) small_rests ltac:(vm_compute; reflexivity)).
Defined.
Lemma recovery_restores_target_witness :
  exists out w', toy_invoke (CRecover, []) (toy_history interrupted small_world) = (Done out, w') /\ (exists c, c ∈ versions (Some old_bytes) interrupted.*1 /\ holds w' journal c) /\
    (if decided out then clean w' /\ wd_cuts w' = [] else wd_dir w' = wd_dir (toy_history interrupted small_world)).
Proof.
  exact (recovery_restores_target toy_enc toy_dec toy_sha journal interrupted old_bytes small_world ltac:(vm_compute; reflexivity) small_rests small_unshared
    ltac:(apply Nat.leb_le; vm_compute; reflexivity) ltac:(vm_compute; reflexivity)).
Defined.
Lemma faultless_calls_complete_witness :
  exists w', toy_invoke (CReplace 1%nat new_bytes, []) small_world = (Done (NtComplete (mkTicket OpReplace journal)), w') /\
    truthful journal (CReplace 1%nat new_bytes) small_world (NtComplete (mkTicket OpReplace journal)) w'.
Proof.
  exact (faultless_calls_complete toy_enc toy_dec toy_sha journal OpReplace 1%nat new_bytes old_bytes small_world ltac:(vm_compute; reflexivity) small_rests small_unshared
    ltac:(apply Nat.leb_le; vm_compute; reflexivity) ltac:(vm_compute; reflexivity) ltac:(intros it E; vm_compute in E; injection E as <-; apply Nat.leb_le; vm_compute; reflexivity)
    ltac:(vm_compute; reflexivity)).
Defined.
