(* ===== verification/DirInspect.v ===== *)
(** * Reading a captured predecessor

    While a replacement is between capture and publication, readers may ask for the
    captured predecessor; they get its content in exactly that phase. *)
From Stdlib Require Import Strings.Byte.
From S2P Require Import Prelude Domain Framing DirTxn DirLogic DirSteps DirRecover DirDecide DirCreate DirCalls DirSafety DirCodec DirTheorems.
Open Scope Z_scope.
Open Scope bridge_scope.

Section Inspect.
Context {X : Setting} {ok : SettingOk X}.
Notation slot_nm := (slot_name target_name).
Notation int := TransactionIntent.
(** The content is that of the capture; without faults it is given whenever there is one within the limit. *)
Definition captured_bytes (p : Phase) (max : nat) : option bytes :=
  match p with Txn OpReplace o _ _ Captured => if (length (snd o) <=? max)%nat then Some (snd o) else None | _ => None end.
Definition inspected (p : Phase) (max : nat) (r : option bytes) (w : World) : Prop :=
  Inv w /\ (forall bs, r = Some bs -> captured_bytes p max = Some bs /\ St p w) /\ (calm = true -> r = captured_bytes p max).
Definition unseen (p : Phase) (max : nat) (u : bool) : World -> Prop := inspected p max None.
Lemma exits_unseen p max : exits (unseen p max).
Proof. intros u w Hc Hi. split_and!; [done|done|congruence]. Qed.
Lemma inspected_none p max w : Inv w -> captured_bytes p max = None -> inspected p max None w.
Proof. intros Hw Hc. split_and!; [done|done|done]. Qed.
(** From the snapshots on, in the phase that has a capture. *)
Lemma wp_inspect_captured o s i max w : let p := Txn OpReplace o s i Captured in St p w ->
  wp (v <| snapshot (capture_name (the_intent OpReplace o s)) ;; held <| dlift v ;; let captured := snd held in
      drequire (bool_decide (sn_object captured = it_expected (the_intent OpReplace o s)) && (sn_len captured <=? max)%nat) ;|
      v <| snapshot (reserved_name (the_intent OpReplace o s) Staging) ;;
      match v with
      | Some (file, staged) =>
          drequire (bool_decide (staged = it_staged (the_intent OpReplace o s))) ;| bs <| read_file file ;; c <| dlift (commitment_of OpReplace s) ;; drequire (bool_decide (DirLogic.sha256 bs = c))
      | None => dret tt
      end ;|
      bs <| read_file (fst held) ;; drequire (length bs =? sn_len captured)%nat ;|
      s' <| file_snapshot (fst held) ;; drequire (bool_decide (s' = captured)) ;| dret (Some bs)) (inspected p max) (unseen p max) w.
Proof.
  intros p Hw. pose proof (exits_unseen p max) as HE. assert (forall slot w, slot <> SRes int -> St p w -> shows (slot_nm slot) (files OpReplace o s Captured slot) w) as Hsh by (intros slot w' Hn Hw'; by apply (txn_shows OpReplace o s i Captured)).
  assert (forall w, St p w -> content_of w (fst o) = snd o /\ content_of w (fst s) = snd s) as Hcon.
  { intros w' Hw'. pose proof (st_facts _ _ Hw') as (Ho%settled_regular & _ & Hs%settled_regular & _). split; by apply regular_content. }
  apply wp_bind, (wp_snapshot (St p) (stable_st p) (st_inv p) _ (Some o)); [done|intros w' Hw'; by apply (Hsh (SRes ReplacementCapture))|done|]. clear w Hw. intros w Hw.
  apply wp_bind, wp_ret. cbv zeta. simpl. rewrite bool_decide_eq_true_2 by done. apply wp_bind, wp_require.
  2: { intros Hl. simpl in Hl. apply inspected_none; [by eapply st_inv|]. simpl. by rewrite Hl. }
  intros Hl. simpl in Hl. apply wp_bind, (wp_snapshot (St p) (stable_st p) (st_inv p) _ (Some s)); [done|intros w' Hw'; by apply (Hsh (SRes Staging))|done|]. clear w Hw. intros w Hw.
  simpl. rewrite bool_decide_eq_true_2 by done. apply wp_bind, wp_bind, wp_ret, wp_bind, (wp_ask _ _ (St p)); [apply stable_st|done|done|apply st_inv|]. clear w Hw. intros w Hw.
  destruct (Hcon w Hw) as [_ ->]. apply wp_bind, wp_ret. rewrite bool_decide_eq_true_2 by done. apply wp_ret.
  apply wp_bind, (wp_ask _ _ (St p)); [apply stable_st|done|done|apply st_inv|]. clear w Hw. intros w Hw. destruct (Hcon w Hw) as [-> _]. rewrite Nat.eqb_refl. apply wp_bind, wp_ret.
  apply wp_bind, (wp_ask _ _ (St p)); [apply stable_st|done|done|apply st_inv|]. clear w Hw. intros w Hw. destruct (Hcon w Hw) as [-> _]. rewrite bool_decide_eq_true_2 by done. apply wp_bind, wp_ret, wp_ret.
  split_and!; [by eapply st_inv| |]; simpl; rewrite Hl; [|done]. by intros bs [= <-].
Qed.
Lemma residue_own_all p w op o s : St p w -> forallb (fun n => bool_decide (n ∈ reserved_name (the_intent op o s) <$> ns_all)) (residue_of w) = true.
Proof.
  intros Hw. apply forallb_forall. intros n Hn. destruct (bool_decide (n ∈ reserved_name (the_intent op o s) <$> ns_all)) eqn:E; [done|]. pose proof (residue_own p w op o s Hw) as Hx.
  assert (existsb (fun n => negb (bool_decide (n ∈ reserved_name (the_intent op o s) <$> ns_all))) (residue_of w) = true) as Hy by (apply existsb_exists; exists n; by rewrite E). congruence.
Qed.
Lemma wp_inspect p max E w : St p w -> (calm = true -> intact p w) -> wp (inspect_captured_replace_predecessor from_json DirLogic.sha256 target_name max) (inspected p max) E w.
Proof.
  intros Hw Hint. apply wp_catch. change (fun u : bool => wp (dret None) (inspected p max) E) with (unseen p max). pose proof (exits_unseen p max) as HE.
  set (P := fun w => St p w /\ (calm = true -> intact p w)). assert (stable P) as HP by (apply stable_and; [apply stable_st|intros w' fs _ Hi Hc; by destruct p; try apply Hi]).
  assert (P w) as HPw by done. clear Hw Hint. apply wp_bind, (wp_prove_route P HP); [by intros w' [Hw' _]; eapply st_inv|done|done|]. clear w HPw. intros w Hw.
  apply (wp_names P p); [done|by intros w' [? _]|done|done|]. clear w Hw. intros w [Hw Hint]. cbv zeta. change (List.filter is_reserved_target (map_to_list (wd_dir w)).*1) with (residue_of w).
  rewrite (residue_valid p w Hw). apply wp_bind, wp_ret. change (fun n => match parse_reserved int n with Some _ => true | None => false end) with is_intent_name.
  destruct p as [v|o s c|op o s i st].
  - rewrite (residue_quiet v w Hw). apply wp_ret, inspected_none; [by eapply st_inv|done].
  - rewrite (intents_stage _ _ _ _ Hw). apply wp_ret, inspected_none; [by eapply st_inv|done].
  - rewrite (intents_spec _ _ i Hw) by apply lay_intent. pose proof (residue_own_all _ _ op o s Hw) as Hown. set (residue := residue_of w) in *. clearbody residue.
    change (rname target_name int) with (slot_nm (SRes int)). apply wp_bind, (wp_read_intent op o s i st); [done|done| |].
    2: { intros Ht w' Hw'. apply HE; [|by eapply st_inv]. apply not_true_is_false. intros Hc. by eapply torn_unreadable, Hint. }
    clear w Hw Hint. intros w [Hw _]. set (p := Txn op o s i st) in *. apply wp_bind, wp_require.
    2: { intros Ho. apply inspected_none; [by eapply st_inv|]. simpl in Ho. rewrite (bool_decide_eq_true_2 (target_name = target_name)) in Ho by done. by destruct op. }
    intros [Ho%bool_decide_eq_true _]%andb_true_iff. simpl in Ho. subst op. rewrite bool_decide_eq_true_2, Hown by done. apply wp_bind, wp_ret.
    assert (forall slot w, slot <> SRes int -> St p w -> shows (slot_nm slot) (files OpReplace o s st slot) w) as Hsh by (intros slot w' Hn Hw'; by apply (txn_shows OpReplace o s i st)).
    apply wp_bind, (wp_snapshot (St p) (stable_st p) (st_inv p) _ (files OpReplace o s st STarget)); [done|intros w' Hw'; by apply (Hsh STarget)|done|]. clear w Hw. intros w Hw.
    apply wp_bind, wp_require; [|intros Ht; apply inspected_none; [by eapply st_inv|by destruct st]]. intros Ht. assert (st = Captured) as -> by (by destruct st).
    apply wp_bind, (wp_snapshot (St p) (stable_st p) (st_inv p) _ None); [done|intros w' Hw'; by apply (Hsh (SRes RetirementCapture))|done|]. clear w Hw. intros w Hw.
    apply wp_bind, wp_ret. by apply (wp_inspect_captured o s i max w).
Qed.
End Inspect.

(** After any history of calls, with any faults and crashes and whatever faults it meets itself, an inspection that
    returns a content found the name absent and read, in full, the version that a replacement's capture holds; it
    changes nothing in the directory. *)
Theorem inspection_reads_the_capture enc dec sha t {codec : Codec enc dec} xs v w max fs bs w' : usable t = true -> rests t v w ->
  inspect_captured_replace_predecessor dec sha t max (set_faults fs (history enc dec sha t xs w)) = (Done (Some bs), w') ->
  let w1 := history enc dec sha t xs w in
  bs ∈ versions v xs.*1 /\ (length bs <= max)%nat /\ wd_dir w1 !! t = None /\ holds w1 (rname t ReplacementCapture) bs /\ wd_dir w' = wd_dir w1.
Proof.
  intros Hu Hr Hi w1. set (X := within enc dec sha t v xs.*1 false w). pose proof (within_ok enc dec sha t v xs.*1 false w Hu (rs_clean _ _ _ Hr)) as ok. fold X in ok.
  destruct (history_within enc dec sha t v xs.*1 false xs w Hu Hr) as [p Hp]; [done|intros x Hx; by apply list_elem_of_fmap_2|]. fold X w1 in Hp.
  assert (St (X := X) p (set_faults fs w1)) as Hp' by (by apply faults_st). pose proof (wp_inspect (X := X) p max (fun _ _ => False) _ Hp' ltac:(done)) as H. unfold wp in H. simpl in H. fold w1 in Hi. rewrite Hi in H.
  destruct H as (_ & Hs & _). destruct (Hs bs eq_refl) as [Hc Hw']. destruct p as [v'|o s c|[] o s i []]; simplify_eq/=. destruct (length (snd o) <=? max)%nat eqn:El; [|done]. injection Hc as <-.
  destruct (captured_holds (X := X) o s i w1 Hp) as (H1 & H2 & H3). split_and!; [done|by apply Nat.leb_le|done|done|]. etransitivity; [apply (st_dir (X := X) _ _ Hw')|]. symmetry. apply (st_dir (X := X) _ _ Hp).
Qed.
Lemma inspection_reads_the_capture_witness :
  let w1 := history toy_enc toy_dec toy_sha journal interrupted small_world in
  old_bytes ∈ versions (Some old_bytes) interrupted.*1 /\ (length old_bytes <= 10)%nat /\ wd_dir w1 !! journal = None /\ holds w1 (rname journal ReplacementCapture) old_bytes /\
    wd_dir (snd (inspect_captured_replace_predecessor toy_dec toy_sha journal 10 (set_faults [] w1))) = wd_dir w1.
Proof.
  exact (inspection_reads_the_capture toy_enc toy_dec toy_sha journal interrupted (Some old_bytes) small_world 10 [] old_bytes
    (snd (inspect_captured_replace_predecessor toy_dec toy_sha journal 10 (set_faults [] (history toy_enc toy_dec toy_sha journal interrupted small_world)))) ltac:(vm_compute; reflexivity) small_rests ltac:(vm_compute; reflexivity)).
Defined.
