(* ===== verification/Marker.v ===== *)
(** * Commit markers in an agent's text
      ([bin/a2a-bridge/src/acp/attested_wrapper.rs], the marker grammar)

    An agent marks where its deliverable begins by a marker with a fresh nonce; a
    marker after an odd run of backslashes is text. The wrapper resolves the markers
    of a turn over all its text chunks at once, keeping for every byte the chunk it
    came from. Bytes are [Byte.byte]; lengths and offsets are naturals. *)
From Stdlib Require Import Strings.Byte.
From S2P Require Import Prelude Domain Framing.
Open Scope Z_scope.
Open Scope bridge_scope.

Definition SLASH : byte := x5c.
Definition MARKER_PREFIX : bytes := of_str "<|b2a_apc_commit_v1:".
Definition MARKER_SUFFIX : bytes := of_str "|>".
(** [starts_with] of slices. *)
Definition begins (p bs : bytes) : bool := bool_decide (take (length p) bs = p).

Inductive WrapperStatus := Attested | Unavailable (reason : string).
#[global] Instance wrapper_status_eq_dec : EqDecision WrapperStatus.
Proof. solve_decision. Defined.
(** A byte with the index of its chunk. *)
Notation tagged := (nat * byte)%type.
Inductive Piece := PBytes (bs : list tagged) | PCandidate (sources : list nat).
Record MarkerFrameResolution := mkResolution { rs_chunks : list bytes; rs_body : bytes; rs_status : WrapperStatus; rs_prefix_bytes : nat }.

(** The bytes of all chunks with their sources. *)
Definition tag_chunks (chunks : list bytes) : list tagged := concat (imap (fun i c => pair i <$> c) chunks).
Fixpoint take_while {A} (f : A -> bool) (l : list A) : list A := match l with [] => [] | x :: l => if f x then x :: take_while f l else [] end.
Definition is_slash (x : tagged) : bool := bool_decide (snd x = SLASH).
Definition trailing_pending_backslashes (pending : list tagged) : nat := length (take_while is_slash (rev pending)).

(** The state of the loop of [resolve_marker_chunks]. *)
Record Scan := mkScan { sc_pieces : list Piece; sc_pending : list tagged; sc_candidates : nat; sc_prefix : nat; sc_decoded : nat }.
Definition push_pending (xs : list tagged) (s : Scan) : Scan := mkScan (sc_pieces s) (sc_pending s ++ xs) (sc_candidates s) (sc_prefix s) (sc_decoded s).
(** The marker is at the head of the input, its bytes tagged as [at_marker]. *)
Definition meet_marker (marker : bytes) (at_marker : list tagged) (s : Scan) : Scan :=
  let slash_run := trailing_pending_backslashes (sc_pending s) in
  let keep_len := (length (sc_pending s) - slash_run)%nat in
  let slash_sources := fst <$> drop keep_len (sc_pending s) in
  let kept := take keep_len (sc_pending s) in
  if Nat.odd slash_run then
    mkScan (sc_pieces s) (kept ++ ((fun i => (i, SLASH)) <$> take ((slash_run - 1) / 2) slash_sources) ++ zip (fst <$> at_marker) marker)
      (sc_candidates s) (sc_prefix s) (sc_decoded s)
  else
    let pending := kept ++ ((fun i => (i, SLASH)) <$> take (slash_run / 2) slash_sources) in
    let '(pieces, decoded) := match pending with [] => (sc_pieces s, sc_decoded s) | _ => (sc_pieces s ++ [PBytes pending], (sc_decoded s + length pending)%nat) end in
    let prefix := if (sc_candidates s =? 0)%nat then decoded else sc_prefix s in
    mkScan (pieces ++ [PCandidate (fst <$> at_marker)]) [] (S (sc_candidates s)) prefix decoded.
(** The loop; [fuel] bounds its rounds. *)
Fixpoint scan (fuel : nat) (marker : bytes) (rest : list tagged) (s : Scan) : option Scan :=
  match rest with
  | [] => Some s
  | x :: rest' =>
      match fuel with
      | O => None
      | S fuel =>
          if begins marker (snd <$> rest)
          then scan fuel marker (drop (length marker) rest) (meet_marker marker (take (length marker) rest) s)
          else scan fuel marker rest' (push_pending [x] s)
      end
  end.
(** A byte goes to its chunk and to the body. *)
Definition emit_byte (out : list bytes * bytes) (x : tagged) : list bytes * bytes := (alter (fun c => c ++ [snd x]) (fst x) (fst out), snd out ++ [snd x]).
Definition candidate_bytes (marker : bytes) (sources : list nat) : list tagged :=
  imap (fun offset b => (default (default 0%nat (head sources)) (sources !! offset), b)) marker.
Definition piece_bytes (marker : bytes) (include_candidates : bool) (p : Piece) : list tagged :=
  match p with PBytes bs => bs | PCandidate sources => if include_candidates then candidate_bytes marker sources else [] end.
Definition materialize (pieces : list Piece) (marker : bytes) (chunk_count : nat) (include_candidates : bool) : list bytes * bytes :=
  fold_left (fun out p => fold_left emit_byte (piece_bytes marker include_candidates p) out) pieces (replicate chunk_count [], []).
Definition resolve_scanned (chunk_count : nat) (marker : bytes) (s : Scan) : MarkerFrameResolution :=
  let pieces := match sc_pending s with [] => sc_pieces s | pending => sc_pieces s ++ [PBytes pending] end in
  let keep reason := let '(chunks, body) := materialize pieces marker chunk_count true in mkResolution chunks body (Unavailable reason) 0 in
  match sc_candidates s with
  | 0%nat => keep "turn_missing_deliverable_boundary"
  | 1%nat =>
      let '(chunks, body) := materialize pieces marker chunk_count false in
      if (length body - sc_prefix s =? 0)%nat then keep "turn_ended_without_deliverable" else mkResolution chunks body Attested (sc_prefix s)
  | _ => keep "multiple_commit_markers"
  end.
(** [None]: the fuel is used up. *)
Definition resolve_marker_chunks (chunks : list bytes) (marker : bytes) : option MarkerFrameResolution :=
  let bs := tag_chunks chunks in resolve_scanned (length chunks) marker <$> scan (length bs) marker bs (mkScan [] [] 0 0 0).

(** ** The grammar *)
(** What a text means: bytes, and places where the deliverable begins. *)
Inductive Item := Lit (b : byte) | Commit.
#[global] Instance item_eq_dec : EqDecision Item.
Proof. solve_decision. Defined.
(** [r] backslashes are read and not yet decided; [skip] bytes of a marker are still to be passed. *)
Fixpoint meaning (marker : bytes) (r skip : nat) (bs : bytes) : list Item :=
  match bs with
  | [] => replicate r (Lit SLASH)
  | b :: bs' =>
      match skip with
      | S k => meaning marker r k bs'
      | O =>
          if begins marker bs then replicate (r / 2) (Lit SLASH) ++ (if Nat.odd r then Lit <$> marker else [Commit]) ++ meaning marker 0 (length marker - 1) bs'
          else if bool_decide (b = SLASH) then meaning marker (S r) 0 bs'
          else replicate r (Lit SLASH) ++ Lit b :: meaning marker 0 0 bs'
      end
  end.
Definition commits (items : list Item) : nat := length (List.filter (fun x => bool_decide (x = Commit)) items).
(** The text of items, a commit read as [c]. *)
Definition text_of (c : bytes) (items : list Item) : bytes := concat ((fun x => match x with Lit b => [b] | Commit => c end) <$> items).
Fixpoint before_commit (items : list Item) : list Item := match items with [] => [] | Commit :: _ => [] | x :: l => x :: before_commit l end.
(** Body, status and prefix length that a text stands for. *)
Definition denotes (marker text : bytes) : bytes * WrapperStatus * nat :=
  let items := meaning marker 0 0 text in
  let kept := text_of marker items in
  match commits items with
  | 0%nat => (kept, Unavailable "turn_missing_deliverable_boundary", 0%nat)
  | 1%nat =>
      let body := text_of [] items in let prefix := length (before_commit items) in
      if (length body - prefix =? 0)%nat then (kept, Unavailable "turn_ended_without_deliverable", 0%nat) else (body, Attested, prefix)
  | _ => (kept, Unavailable "multiple_commit_markers", 0%nat)
  end.
