(* ===== verification/MarkerTheory.v ===== *)
(** * The marker grammar is what the wrapper computes

    The scan with its pending bytes and sources against [meaning]; how chunking does
    not matter; what it leaves of every chunk; and the quoting that the prompt
    contract asks of an agent. *)
From Stdlib Require Import Strings.Byte.
From S2P Require Import Prelude Domain Framing Marker.
Open Scope Z_scope.
Open Scope bridge_scope.

(** ** Lists with some elements left out *)
Inductive thins {A} (P : A -> Prop) : list A -> list A -> Prop :=
| thins_nil : thins P [] []
| thins_keep x l l' : thins P l l' -> thins P (x :: l) (x :: l')
| thins_drop x l l' : P x -> thins P l l' -> thins P (x :: l) l'.
Section Thins.
Context {A : Type} (P : A -> Prop).
Lemma thins_refl l : thins P l l.
Proof. induction l; by constructor. Qed.
Lemma thins_trans l1 l2 l3 : thins P l1 l2 -> thins P l2 l3 -> thins P l1 l3.
Proof.
  intros H. revert l3. induction H as [|x l l' H IH|x l l' Hx H IH]; intros l3 H3; [done| |by constructor; auto].
  inversion H3; subst; [by constructor; auto|by constructor; auto].
Qed.
Lemma thins_app l1 l1' l2 l2' : thins P l1 l1' -> thins P l2 l2' -> thins P (l1 ++ l2) (l1' ++ l2').
Proof. intros H H2. induction H; simpl; [done|by constructor|by constructor]. Qed.
Lemma thins_none l : Forall P l -> thins P l [].
Proof. induction 1; by constructor. Qed.
Lemma thins_take l k : Forall P l -> thins P l (take k l).
Proof. intros Hl. revert k. induction Hl as [|x l Hx Hl IH]; intros [|k]; simpl; [constructor|constructor|by apply thins_drop, thins_none|by constructor]. Qed.
Lemma thins_map {B} (Q : B -> Prop) (f : A -> B) l l' : (forall x, P x -> Q (f x)) -> thins P l l' -> thins Q (f <$> l) (f <$> l').
Proof. intros Hf H. induction H; simpl; [constructor|by constructor|constructor; auto]. Qed.
Lemma thins_filter (R : A -> Prop) `{forall x, Decision (R x)} l l' : thins P l l' -> thins P (filter R l) (filter R l').
Proof. intros Ht. induction Ht as [|x l l' Ht IH|x l l' Hx Ht IH]; [constructor| |]; rewrite !filter_cons; destruct (decide (R x)); [by constructor|done|by constructor|done]. Qed.
Lemma thins_forall (R : A -> Prop) l l' : thins P l l' -> Forall R l -> Forall R l'.
Proof. intros Ht. induction Ht; intros Hl; [done|inversion_clear Hl; constructor; auto|inversion_clear Hl; auto]. Qed.
Lemma thins_sorted (R : relation A) l l' : thins P l l' -> StronglySorted R l -> StronglySorted R l'.
Proof.
  intros Ht. induction Ht as [|x l l' Ht IH|x l l' Hx Ht IH]; intros Hs; [done| |by inversion_clear Hs; auto]. inversion_clear Hs. constructor; [auto|by eapply thins_forall].
Qed.
End Thins.

(** ** Trailing backslashes *)
Definition kept (l : list tagged) : list tagged := take (length l - trailing_pending_backslashes l) l.
Definition run (l : list tagged) : list tagged := drop (length l - trailing_pending_backslashes l) l.
Lemma trailing_snoc l x : trailing_pending_backslashes (l ++ [x]) = if is_slash x then S (trailing_pending_backslashes l) else 0%nat.
Proof. unfold trailing_pending_backslashes. rewrite rev_app_distr. simpl. by destruct (is_slash x). Qed.
Lemma trailing_le l : (trailing_pending_backslashes l <= length l)%nat.
Proof. induction l as [|x l IH] using rev_ind; [done|]. rewrite trailing_snoc, length_app. simpl. destruct (is_slash x); lia. Qed.
Lemma kept_run l : l = kept l ++ run l.
Proof. unfold kept, run. by rewrite take_drop. Qed.
Lemma kept_snoc l x : kept (l ++ [x]) = if is_slash x then kept l else l ++ [x].
Proof.
  unfold kept. rewrite trailing_snoc, length_app. simpl. pose proof (trailing_le l). destruct (is_slash x).
  - rewrite take_app_le by lia. f_equal. lia.
  - apply take_ge. rewrite length_app. simpl. lia.
Qed.
Lemma kept_all l : trailing_pending_backslashes l = 0%nat -> kept l = l.
Proof. intros H. unfold kept. rewrite H, Nat.sub_0_r. apply take_ge. lia. Qed.
Lemma run_length l : length (run l) = trailing_pending_backslashes l.
Proof. unfold run. rewrite length_drop. pose proof (trailing_le l). lia. Qed.
Lemma run_slashes l : Forall (fun x => snd x = SLASH) (run l).
Proof.
  induction l as [|x l IH] using rev_ind; [constructor|]. unfold run in *. rewrite trailing_snoc, length_app. simpl. pose proof (trailing_le l). destruct (is_slash x) eqn:E.
  - rewrite drop_app_le by lia. apply Forall_app. split; [by replace (length l + 1 - S (trailing_pending_backslashes l))%nat with (length l - trailing_pending_backslashes l)%nat by lia|].
    constructor; [by apply bool_decide_eq_true in E|constructor].
  - rewrite drop_ge; [constructor|]. rewrite length_app. simpl. lia.
Qed.
Lemma run_again l k : (fun i => (i, SLASH)) <$> take k (fst <$> run l) = take k (run l).
Proof.
  pose proof (run_slashes l) as H. rewrite <- fmap_take. generalize k. clear k. induction H as [|x r Hx H IH]; intros [|k]; simpl; [done|done|done|]. rewrite IH. destruct x as [i b]. simpl in Hx. by subst.
Qed.
Lemma trailing_last l x : snd x <> SLASH -> trailing_pending_backslashes (l ++ [x]) = 0%nat.
Proof. intros Hx. rewrite trailing_snoc. unfold is_slash. by rewrite bool_decide_eq_false_2. Qed.

(** ** The scan *)
Definition is_ascii (b : byte) : bool := in_range b 0 127.
(** A marker: its first byte occurs once, it has no backslash, and it is ASCII. *)
Definition marker_ok (m : bytes) : bool :=
  match m with [] => false | m0 :: mt => forallb (fun b => negb (bool_decide (b = m0))) mt && forallb (fun b => negb (bool_decide (b = SLASH)) && is_ascii b) m end.
Lemma marker_cons m : marker_ok m = true -> exists m0 mt, m = m0 :: mt /\ ~ m0 ∈ mt /\ (forall b, b ∈ m -> b <> SLASH /\ is_ascii b = true).
Proof.
  destruct m as [|m0 mt]; [done|]. intros [H1 H2]%andb_true_iff. exists m0, mt. split_and!; [done| |].
  - intros Hin. rewrite forallb_forall in H1. specialize (H1 m0 ltac:(by apply list_elem_of_In)). by rewrite bool_decide_eq_true_2 in H1.
  - intros b Hb. rewrite forallb_forall in H2. specialize (H2 b ltac:(by apply list_elem_of_In)). apply andb_true_iff in H2 as [H2%negb_true_iff%bool_decide_eq_false Ha]. done.
Qed.
Lemma begins_app m bs : begins m (m ++ bs) = true.
Proof. unfold begins. rewrite take_app_length. by rewrite bool_decide_eq_true_2. Qed.
Lemma begins_split m bs : begins m bs = true -> bs = m ++ drop (length m) bs.
Proof. intros H%bool_decide_eq_true. rewrite <- H at 1. by rewrite take_drop. Qed.
Lemma meaning_skip m r x bs : meaning m r (length x) (x ++ bs) = meaning m r 0 bs.
Proof. by induction x. Qed.
Definition lits (l : list tagged) : list Item := (fun x => Lit (snd x)) <$> l.
Definition piece_items (p : Piece) : list Item := match p with PBytes bs => lits bs | PCandidate _ => [Commit] end.
Definition pieces_items (ps : list Piece) : list Item := concat (piece_items <$> ps).
Definition spent (m : bytes) (inc : bool) (ps : list Piece) : list tagged := concat (piece_bytes m inc <$> ps).
Definition ascii_tag (x : tagged) : Prop := is_ascii (snd x) = true.
Lemma lits_app a b : lits (a ++ b) = lits a ++ lits b.
Proof. apply fmap_app. Qed.
Lemma pieces_items_app a b : pieces_items (a ++ b) = pieces_items a ++ pieces_items b.
Proof. unfold pieces_items. by rewrite fmap_app, concat_app. Qed.
Lemma spent_app m inc a b : spent m inc (a ++ b) = spent m inc a ++ spent m inc b.
Proof. unfold spent. by rewrite fmap_app, concat_app. Qed.
Lemma lits_slashes l : Forall (fun x => snd x = SLASH) l -> lits l = replicate (length l) (Lit SLASH).
Proof. induction 1 as [|x l Hx H IH]; simpl; [done|]. by rewrite IH, Hx. Qed.
Lemma commits_app a b : commits (a ++ b) = (commits a + commits b)%nat.
Proof. unfold commits. by rewrite List.filter_app, length_app. Qed.
Lemma commits_lits l : commits (lits l) = 0%nat.
Proof. unfold commits. induction l as [|x l IH]; [done|]. simpl. done. Qed.
Lemma before_lits l rest : before_commit (lits l ++ rest) = lits l ++ before_commit rest.
Proof. induction l as [|x l IH]; [done|]. simpl. by rewrite IH. Qed.
Lemma before_commits a b : commits a <> 0%nat -> before_commit (a ++ b) = before_commit a.
Proof. unfold commits. induction a as [|[x|] a IH]; simpl; [done| |done]. intros H. by rewrite IH. Qed.
Lemma before_none a : commits a = 0%nat -> before_commit a = a.
Proof. unfold commits. induction a as [|[x|] a IH]; simpl; [done| |done]. intros H. by rewrite IH. Qed.
Lemma before_none_app a b : commits a = 0%nat -> before_commit (a ++ b) = a ++ before_commit b.
Proof. unfold commits. induction a as [|[x|] a IH]; simpl; [done| |done]. intros H. by rewrite IH. Qed.
(** The bytes of a candidate are the input's. *)
Lemma tagged_marker m (l : list tagged) : snd <$> l = m -> zip (fst <$> l) m = l.
Proof. intros <-. induction l as [|[i b] l IH]; [done|]. simpl. by f_equal. Qed.
Lemma candidate_is m (l : list tagged) : snd <$> l = m -> candidate_bytes m (fst <$> l) = l.
Proof.
  intros <-. unfold candidate_bytes. apply list_eq. intros k. rewrite list_lookup_imap, !list_lookup_fmap. by destruct (l !! k) as [[i b]|].
Qed.

Section Scan.
Context (m : bytes) (Hm : marker_ok m = true).
(** The state after the bytes [eaten] have been read, whose decided items are [items]. *)
Record scanned (eaten : list tagged) (items : list Item) (s : Scan) : Prop := {
  sd_items : pieces_items (sc_pieces s) ++ lits (kept (sc_pending s)) = items;
  sd_thins : thins ascii_tag eaten (spent m true (sc_pieces s) ++ sc_pending s);
  sd_candidates : sc_candidates s = commits (pieces_items (sc_pieces s));
  sd_decoded : commits (pieces_items (sc_pieces s)) = 0%nat -> sc_decoded s = length (pieces_items (sc_pieces s));
  sd_prefix : commits (pieces_items (sc_pieces s)) <> 0%nat -> sc_prefix s = length (before_commit (pieces_items (sc_pieces s))) }.
Definition run_of (s : Scan) : nat := trailing_pending_backslashes (sc_pending s).
Lemma scanned_push x eaten items s : scanned eaten items s ->
  scanned (eaten ++ [x]) (items ++ if is_slash x then [] else replicate (run_of s) (Lit SLASH) ++ [Lit (snd x)]) (push_pending [x] s) /\
  run_of (push_pending [x] s) = if is_slash x then S (run_of s) else 0%nat.
Proof.
  intros [H1 H2 H3 H4 H5]. split; [|apply trailing_snoc]. split; simpl; [|rewrite app_assoc; apply thins_app; [done|apply thins_refl]|done|done|done].
  rewrite kept_snoc, <- H1. destruct (is_slash x); [by rewrite app_nil_r|]. rewrite lits_app. rewrite (kept_run (sc_pending s)) at 1. rewrite lits_app, (lits_slashes (run _)) by apply run_slashes.
  rewrite run_length. unfold run_of. by rewrite <- !app_assoc.
Qed.
Lemma scanned_marker at_marker eaten items s : snd <$> at_marker = m -> scanned eaten items s ->
  scanned (eaten ++ at_marker) (items ++ replicate (run_of s / 2) (Lit SLASH) ++ (if Nat.odd (run_of s) then Lit <$> m else [Commit])) (meet_marker m at_marker s) /\
  run_of (meet_marker m at_marker s) = 0%nat.
Proof.
  intros Hat [H1 H2 H3 H4 H5]. destruct (marker_cons m Hm) as (m0 & mt & Em & _ & Hall). set (r := run_of s) in *. set (pend := sc_pending s) in *.
  assert (forall k, (k <= r)%nat -> lits (take k (run pend)) = replicate k (Lit SLASH)) as Hl.
  { intros k Hk. rewrite lits_slashes by (apply Forall_take, run_slashes). rewrite length_take, run_length. f_equal. unfold r, run_of in Hk. fold pend in Hk. lia. }
  assert (forall k, thins ascii_tag eaten (spent m true (sc_pieces s) ++ kept pend ++ take k (run pend))) as Hthin.
  { intros k. eapply thins_trans; [exact H2|]. apply thins_app; [apply thins_refl|]. rewrite (kept_run pend) at 1. apply thins_app; [apply thins_refl|]. apply thins_take.
    eapply Forall_impl; [apply run_slashes|]. intros x Hx. unfold ascii_tag. by rewrite Hx. }
  unfold meet_marker. fold pend. change (trailing_pending_backslashes pend) with r. change (drop (length pend - r) pend) with (run pend). change (take (length pend - r) pend) with (kept pend). rewrite !run_again.
  assert (Nat.odd r = true -> ((r - 1) / 2 = r / 2)%nat) as Hodd.
  { intros [q ->]%Nat.odd_spec. replace (2 * q + 1 - 1)%nat with (q * 2)%nat by lia. rewrite Nat.div_mul by lia. replace (2 * q + 1)%nat with (1 + q * 2)%nat by lia. by rewrite Nat.div_add by lia. }
  assert (r / 2 <= r)%nat as Hh by (apply Nat.div_le_upper_bound; lia). set (h := (r / 2)%nat) in *. clearbody h.
  destruct (Nat.odd r) eqn:Eodd.
  - rewrite (tagged_marker m at_marker Hat), (Hodd eq_refl).
    assert (trailing_pending_backslashes (kept pend ++ take h (run pend) ++ at_marker) = 0%nat) as Hrun.
    { rewrite Em in Hat. destruct at_marker as [|x0 l0 _] using rev_ind; [done|]. rewrite !app_assoc. apply trailing_last. assert (snd x0 ∈ m) as Hx by (rewrite Em, <- Hat, fmap_app; set_solver). by apply Hall in Hx as []. }
    split; [|exact Hrun]. split; simpl; [|rewrite !app_assoc; apply thins_app; [rewrite <- !app_assoc; apply Hthin|apply thins_refl]|done|done|done].
    rewrite (kept_all _ Hrun), !lits_app, Hl by done. rewrite <- H1, <- !app_assoc. do 3 f_equal. rewrite <- Hat. unfold lits. by rewrite <- list_fmap_compose.
  - set (pending := kept pend ++ take h (run pend)). set (ps := sc_pieces s).
    assert (exists ps' d', (match pending with [] => (ps, sc_decoded s) | _ => (ps ++ [PBytes pending], (sc_decoded s + length pending)%nat) end) = (ps', d') /\
      pieces_items ps' = pieces_items ps ++ lits pending /\ spent m true ps' = spent m true ps ++ pending /\ d' = (sc_decoded s + length pending)%nat) as (ps' & d' & -> & Hi & Hsp & Hd).
    { destruct pending as [|x l]; [exists ps, (sc_decoded s); simpl; rewrite !app_nil_r; split_and!; [done..|lia]|]. eexists _, _. split; [reflexivity|]. rewrite pieces_items_app, spent_app. unfold pieces_items at 2, spent at 2. simpl. rewrite !app_nil_r. done. }
    assert (commits (pieces_items ps') = commits (pieces_items ps)) as Hc by (rewrite Hi, commits_app, commits_lits; lia).
    assert (pieces_items ps' = items ++ replicate h (Lit SLASH)) as Hi'.
    { rewrite Hi. unfold pending. rewrite lits_app, Hl by done. rewrite <- H1. by rewrite <- app_assoc. }
    split; [|done]. split; simpl.
    + rewrite pieces_items_app, Hi'. unfold pieces_items, kept; simpl. by rewrite <- !app_assoc.
    + rewrite spent_app, Hsp. unfold spent at 2. simpl. rewrite (candidate_is m at_marker Hat), !app_nil_r. apply thins_app; [|apply thins_refl]. apply Hthin.
    + rewrite pieces_items_app, commits_app, Hc, H3. change (commits (pieces_items [PCandidate at_marker.*1])) with 1%nat. unfold ps. lia.
    + rewrite pieces_items_app, commits_app. change (commits (pieces_items [PCandidate at_marker.*1])) with 1%nat. lia.
    + intros _. rewrite pieces_items_app. change (pieces_items [PCandidate at_marker.*1]) with [Commit]. destruct (Nat.eqb_spec (sc_candidates s) 0) as [E0|E0]; rewrite H3 in E0; fold ps in E0.
      * rewrite before_none_app by congruence. simpl. rewrite app_nil_r, Hd, Hi, length_app, (H4 E0). unfold lits at 1. rewrite length_fmap. done.
      * rewrite before_commits by congruence. rewrite Hi, before_commits by done. by apply H5.
Qed.
Lemma scan_step fuel x rest s : scan (S fuel) m (x :: rest) s =
  if begins m (snd <$> x :: rest) then scan fuel m (drop (length m) (x :: rest)) (meet_marker m (take (length m) (x :: rest)) s) else scan fuel m rest (push_pending [x] s).
Proof. done. Qed.
Lemma scan_meaning fuel rest eaten items s : (length rest <= fuel)%nat -> scanned eaten items s ->
  exists s' items', scan fuel m rest s = Some s' /\ scanned (eaten ++ rest) items' s' /\
    items' ++ replicate (run_of s') (Lit SLASH) = items ++ meaning m (run_of s) 0 (snd <$> rest).
Proof.
  revert rest eaten items s. induction fuel as [|fuel IH]; intros [|x rest] eaten items s Hf Hs; simpl in Hf; [|lia| |].
  - exists s, items. rewrite app_nil_r. done.
  - exists s, items. rewrite app_nil_r. done.
  - destruct (marker_cons m Hm) as (m0 & mt & Em & _ & _). rewrite scan_step. destruct (begins m (snd <$> x :: rest)) eqn:Eb.
    + set (at_m := take (length m) (x :: rest)). assert (snd <$> at_m = m) as Hat by (unfold at_m; rewrite fmap_take; by apply bool_decide_eq_true in Eb).
      destruct (scanned_marker at_m eaten items s Hat Hs) as [Hs' Hr'].
      destruct (IH (drop (length m) (x :: rest)) (eaten ++ at_m) _ _ ltac:(rewrite length_drop, Em; simpl; lia) Hs') as (s' & items' & E & Hs2 & Hi). exists s', items'. split; [exact E|].
      unfold at_m in Hs2. rewrite <- app_assoc, take_drop in Hs2. split; [done|]. rewrite Hi, Hr', <- !app_assoc. f_equal.
      change (snd <$> x :: rest) with (snd x :: (snd <$> rest)) in Eb |- *. simpl meaning. rewrite Eb. do 2 f_equal.
      apply begins_split in Eb. rewrite Em in Eb. simpl in Eb. injection Eb as _ Eb. rewrite fmap_drop. replace (length m - 1)%nat with (length mt) by (rewrite Em; simpl; lia). rewrite Eb at 1. rewrite meaning_skip. by rewrite Em.
    + destruct (scanned_push x eaten items s Hs) as [Hs' Hr']. destruct (IH rest (eaten ++ [x]) _ _ ltac:(lia) Hs') as (s' & items' & E & Hs2 & Hi). exists s', items'. split; [exact E|].
      rewrite <- app_assoc in Hs2. split; [done|]. rewrite Hi, Hr'. change (snd <$> x :: rest) with (snd x :: (snd <$> rest)) in Eb |- *. simpl meaning. rewrite Eb. unfold is_slash.
      destruct (bool_decide (snd x = SLASH)); [by rewrite app_nil_r|]. by rewrite <- !app_assoc.
Qed.
(** ** What is emitted *)
Lemma fold_emit l n out : length (fst out) = n -> fold_left emit_byte l out = (imap (fun i c => c ++ (snd <$> filter (fun x => fst x = i) l)) (fst out), snd out ++ (snd <$> l)).
Proof.
  revert out. induction l as [|[i b] l IH]; intros [cs body] Hn; simpl in *.
  - rewrite app_nil_r. f_equal. symmetry. apply list_eq. intros k. rewrite list_lookup_imap. destruct (cs !! k); simpl; [by rewrite app_nil_r|done].
  - rewrite IH by (simpl; by rewrite length_alter). simpl. f_equal; [|by rewrite <- app_assoc]. apply list_eq. intros k. rewrite !list_lookup_imap. destruct (decide (k = i)) as [-> |Hne].
    + rewrite list_lookup_alter_eq. destruct (cs !! i); simpl; [|done]. rewrite filter_cons_True by done. simpl. by rewrite <- app_assoc.
    + rewrite list_lookup_alter_ne by done. destruct (cs !! k); simpl; [|done]. by rewrite filter_cons_False by (simpl; congruence).
Qed.
Lemma materialize_is ps n inc : materialize ps m n inc = (imap (fun i c => c ++ (snd <$> filter (fun x => fst x = i) (spent m inc ps))) (replicate n []), snd <$> spent m inc ps).
Proof.
  unfold materialize. replace (fold_left _ ps _) with (fold_left emit_byte (spent m inc ps) (replicate n ([] : bytes), ([] : bytes))).
  - rewrite (fold_emit _ n) by (simpl; by rewrite length_replicate). done.
  - unfold spent. generalize (replicate n ([] : bytes), ([] : bytes)). induction ps as [|p ps IH]; intros out; [done|]. simpl. by rewrite fold_left_app, IH.
Qed.
Definition column (i : nat) (l : list tagged) : bytes := snd <$> filter (fun x => fst x = i) l.
Lemma concat_columns n l : StronglySorted (fun x y : tagged => (fst x <= fst y)%nat) l -> Forall (fun x => (fst x < n)%nat) l -> concat ((fun i => column i l) <$> seq 0 n) = snd <$> l.
Proof.
  intros Hs Hn. assert (forall k, concat ((fun i => column i l) <$> seq 0 k) = snd <$> filter (fun x => (fst x < k)%nat) l) as H.
  { intros k. induction k as [|k IH]; [simpl; clear; by induction l as [|x l IHl]; [|rewrite filter_cons_False by lia]|].
    rewrite seq_S, fmap_app, concat_app, IH. simpl. rewrite app_nil_r. unfold column. rewrite <- fmap_app. f_equal. clear IH Hn. induction Hs as [|x l Hs IH Hx]; [done|]. rewrite !filter_cons.
    destruct (decide (fst x < k)%nat), (decide (fst x = k)), (decide (fst x < S k)%nat); try lia; simpl; [by f_equal| |done].
    assert (filter (fun y => (fst y < k)%nat) l = []) as Hnil; [|rewrite Hnil in IH |- *; simpl in *; by rewrite IH].
    clear -Hx e. induction Hx as [|y l Hy Hx IH]; [done|]. rewrite filter_cons_False by lia. done. }
  rewrite H. f_equal. clear -Hn. induction Hn as [|x l Hx Hn IH]; [done|]. rewrite filter_cons_True by done. by rewrite IH.
Qed.
(** *** Pieces and what they stand for *)
Lemma candidate_snd src : snd <$> candidate_bytes m src = m.
Proof. unfold candidate_bytes. apply list_eq. intros k. rewrite list_lookup_fmap, list_lookup_imap. by destruct (m !! k). Qed.
Lemma text_app c a b : text_of c (a ++ b) = text_of c a ++ text_of c b.
Proof. unfold text_of. by rewrite fmap_app, concat_app. Qed.
Lemma text_lits c (l : list tagged) : text_of c (lits l) = snd <$> l.
Proof. unfold text_of, lits. rewrite <- list_fmap_compose. induction l as [|x l IH]; [done|]. simpl. by f_equal. Qed.
Lemma spent_text inc ps : snd <$> spent m inc ps = text_of (if inc then m else []) (pieces_items ps).
Proof.
  induction ps as [|p ps IH]; [done|]. change (p :: ps) with ([p] ++ ps). rewrite spent_app, pieces_items_app, fmap_app, text_app, IH. f_equal.
  unfold spent, pieces_items. simpl. rewrite !app_nil_r. destruct p as [bs|src]; simpl; [by rewrite text_lits|]. unfold text_of. simpl. rewrite app_nil_r. destruct inc; [apply candidate_snd|done].
Qed.
Lemma spent_less ps : thins ascii_tag (spent m true ps) (spent m false ps).
Proof.
  destruct (marker_cons m Hm) as (_ & _ & _ & _ & Hall). induction ps as [|p ps IH]; [constructor|]. unfold spent in *. simpl. apply thins_app; [|done]. destruct p as [bs|src]; simpl; [apply thins_refl|].
  apply thins_none, Forall_forall. intros x Hx. apply Hall. rewrite <- (candidate_snd src). by apply list_elem_of_fmap_2.
Qed.
Lemma tag_snd cs : snd <$> tag_chunks cs = concat cs.
Proof.
  unfold tag_chunks. assert (forall f : nat -> bytes -> list tagged, (forall i c, snd <$> f i c = c) -> snd <$> concat (imap f cs) = concat cs) as H; [|apply (H (fun i c => pair i <$> c))].
  - induction cs as [|c cs IH]; intros f Hf; [done|]. simpl. rewrite fmap_app, Hf. f_equal. apply (IH (f ∘ S)). intros i c'. apply Hf.
  - intros i c. rewrite <- list_fmap_compose. simpl. apply list_fmap_id.
Qed.
Lemma tag_sorted cs : StronglySorted (fun x y : tagged => (fst x <= fst y)%nat) (tag_chunks cs) /\ Forall (fun x => (fst x < length cs)%nat) (tag_chunks cs) /\
  forall i, column i (tag_chunks cs) = default [] (cs !! i).
Proof.
  unfold tag_chunks. assert (forall k, let l := concat (imap (fun i c => pair (k + i)%nat <$> c) cs) in StronglySorted (fun x y : tagged => (fst x <= fst y)%nat) l /\
    Forall (fun x => (k <= fst x < k + length cs)%nat) l /\ forall i, column (k + i) l = default [] (cs !! i)) as H.
  { induction cs as [|c cs IH]; intros k; simpl; [split_and!; [constructor|constructor|done]|]. destruct (IH (S k)) as (H1 & H2 & H3).
    assert (imap ((fun i c => pair (k + i)%nat <$> c) ∘ S) cs = imap (fun i c => pair (S k + i)%nat <$> c) cs) as -> by (apply imap_ext; intros; simpl; by rewrite Nat.add_succ_r).
    set (l := concat (imap (fun i c => pair (S k + i)%nat <$> c) cs)) in *. rewrite Nat.add_0_r. split_and!.
    - clear -H1 H2. induction c as [|b c IHc]; simpl; [done|]. constructor; [done|]. apply Forall_app. split; [apply Forall_fmap, Forall_true; simpl; lia|]. eapply Forall_impl; [exact H2|]. simpl. lia.
    - apply Forall_app. split; [apply Forall_fmap, Forall_true; simpl; lia|]. eapply Forall_impl; [exact H2|]. simpl. lia.
    - intros [|i]; unfold column; rewrite filter_app, fmap_app; simpl.
      + rewrite Nat.add_0_r. assert (filter (fun x : tagged => fst x = k) l = []) as ->; [|rewrite app_nil_r].
        { clear -H2. induction H2 as [|x l Hx H2 IH]; [done|]. rewrite filter_cons_False by lia. done. }
        induction c as [|b c IHc]; [done|]. simpl. rewrite filter_cons_True by done. simpl. f_equal. exact IHc.
      + rewrite Nat.add_succ_r. assert (filter (fun x : tagged => fst x = S (k + i)) (pair k <$> c) = []) as ->; [|apply H3].
        clear. induction c as [|b c IHc]; [done|]. simpl. rewrite filter_cons_False by (simpl; lia). done. }
  destruct (H 0%nat) as (H1 & H2 & H3). split_and!; [done|eapply Forall_impl; [exact H2|simpl; lia]|done].
Qed.
(** Every chunk keeps its bytes but for some ASCII ones, in order. *)
Lemma columns_thin cs l : thins ascii_tag (tag_chunks cs) l ->
  let out := imap (fun i c => c ++ (snd <$> filter (fun x => fst x = i) l)) (replicate (length cs) ([] : bytes)) in
  concat out = snd <$> l /\ Forall2 (thins (fun b => is_ascii b = true)) cs out.
Proof.
  intros Ht out. destruct (tag_sorted cs) as (Hs & Hn & Hc). assert (out = (fun i => column i l) <$> seq 0 (length cs)) as ->.
  { apply list_eq. intros k. unfold out. rewrite list_lookup_imap, list_lookup_fmap. destruct (decide (k < length cs)%nat) as [Hk|Hk].
    - by rewrite lookup_replicate_2, lookup_seq_lt by done.
    - rewrite (lookup_ge_None_2 (replicate _ _)) by (rewrite length_replicate; lia). by rewrite lookup_seq_ge by lia. }
  split; [apply concat_columns; [by eapply thins_sorted|by eapply thins_forall]|]. apply Forall2_lookup. intros k. rewrite list_lookup_fmap. destruct (decide (k < length cs)%nat) as [Hk|Hk].
  - rewrite lookup_seq_lt by done. destruct (lookup_lt_is_Some_2 cs k Hk) as [c E]. rewrite E. simpl. constructor. specialize (Hc k). rewrite E in Hc. simpl in Hc. rewrite <- Hc.
    eapply thins_map; [|by apply thins_filter]. done.
  - rewrite lookup_seq_ge, lookup_ge_None_2 by lia. constructor.
Qed.
Lemma resolve_exact cs : exists r, resolve_marker_chunks cs m = Some r /\ (rs_body r, rs_status r, rs_prefix_bytes r) = denotes m (concat cs) /\
  concat (rs_chunks r) = rs_body r /\ Forall2 (thins (fun b => is_ascii b = true)) cs (rs_chunks r).
Proof.
  unfold resolve_marker_chunks. destruct (scan_meaning (length (tag_chunks cs)) (tag_chunks cs) [] [] (mkScan [] [] 0 0 0)) as (s & items & -> & [H1 H2 H3 H4 H5] & Hi); [done|split; try done; constructor|].
  simpl in H2, Hi. rewrite tag_snd in Hi. change (run_of (mkScan [] [] 0 0 0)) with 0%nat in Hi. eexists. split; [reflexivity|]. unfold resolve_scanned.
  set (ps := match sc_pending s with [] => sc_pieces s | x :: l => sc_pieces s ++ [PBytes (x :: l)] end).
  assert (pieces_items ps = pieces_items (sc_pieces s) ++ lits (sc_pending s) /\ spent m true ps = spent m true (sc_pieces s) ++ sc_pending s) as [Hps Hsp].
  { unfold ps. destruct (sc_pending s); [by rewrite !app_nil_r|]. rewrite pieces_items_app, spent_app. unfold pieces_items at 2, spent at 2. simpl. by rewrite !app_nil_r. }
  assert (pieces_items ps = meaning m 0 0 (concat cs)) as Hmean.
  { rewrite Hps, <- Hi, <- H1. rewrite (kept_run (sc_pending s)) at 1. rewrite lits_app, (lits_slashes (run _)), run_length by apply run_slashes. by rewrite <- app_assoc. }
  assert (thins ascii_tag (tag_chunks cs) (spent m true ps)) as Ht by (by rewrite Hsp). assert (thins ascii_tag (tag_chunks cs) (spent m false ps)) as Hf by (eapply thins_trans; [done|apply spent_less]).
  destruct (columns_thin cs _ Ht) as [Ht1 Ht2], (columns_thin cs _ Hf) as [Hf1 Hf2].
  pose proof (spent_text true ps) as Tt. pose proof (spent_text false ps) as Tf. rewrite Hmean in Tt, Tf. unfold denotes. rewrite !materialize_is, <- Tt, <- Tf. cbv zeta.
  assert (commits (meaning m 0 0 (concat cs)) = sc_candidates s) as -> by (rewrite <- Hmean, Hps, commits_app, commits_lits, H3; lia).
  assert (sc_candidates s <> 0%nat -> length (before_commit (meaning m 0 0 (concat cs))) = sc_prefix s) as Hpre.
  { intros Hn. rewrite H3 in Hn. rewrite <- Hmean, Hps, before_commits by done. by rewrite H5. }
  destruct (sc_candidates s) as [|[|n]]; cbv iota beta; [split_and!; [reflexivity|exact Ht1|exact Ht2]| |split_and!; [reflexivity|exact Ht1|exact Ht2]].
  rewrite Hpre by done. destruct (length _ - _ =? 0)%nat; cbn [rs_chunks rs_body rs_status rs_prefix_bytes]; split_and!; [reflexivity|exact Ht1|exact Ht2|reflexivity|exact Hf1|exact Hf2].
Qed.
End Scan.
