(* ===== verification/MarkerQuote.v ===== *)
(** * Quoting, and the encoding of resolved text
      ([bridge-core/src/attestation.rs], the prompt contract;
       [bin/a2a-bridge/src/acp/attested_wrapper.rs], markers and nonces)

    What the contract asks of an agent, as a function on the text it means to write;
    that a wrapper reads quoted text back, however it is cut into chunks; and that
    removing marker bytes and backslashes leaves well-formed UTF-8. *)
From Stdlib Require Import Strings.Byte.
From S2P Require Import Prelude Domain Framing Marker MarkerTheory.
Open Scope Z_scope.
Open Scope bridge_scope.

(** [valid_nonce] and [format!("{MARKER_PREFIX}{marker_nonce}{MARKER_SUFFIX}")]; the bridge's
    [commit_marker] writes the same bytes. *)
Definition hex_lower_byte (b : byte) : bool := in_range b 48 57 || in_range b 97 102.
Definition valid_nonce (raw : bytes) : bool := (length raw =? 32)%nat && forallb hex_lower_byte raw.
Definition commit_marker (nonce : bytes) : bytes := MARKER_PREFIX ++ nonce ++ MARKER_SUFFIX.
(** The contract: a run of [r] backslashes before a literal marker is written [2r+1] times; at the
    end of the text a run is written [e * r] times, [e] being 2 before a commit and 1 otherwise. *)
Fixpoint quote (e : nat) (marker : bytes) (r skip : nat) (bs : bytes) : bytes :=
  match bs with
  | [] => replicate (e * r) SLASH
  | b :: bs' =>
      match skip with
      | S k => quote e marker r k bs'
      | O =>
          if begins marker bs then replicate (2 * r + 1) SLASH ++ marker ++ quote e marker 0 (length marker - 1) bs'
          else if bool_decide (b = SLASH) then quote e marker (S r) 0 bs'
          else replicate r SLASH ++ b :: quote e marker 0 0 bs'
      end
  end.
(** A turn: process text, the marker, the deliverable. *)
Definition committed_text (marker process deliverable : bytes) : bytes := quote 2 marker 0 0 process ++ marker ++ quote 1 marker 0 0 deliverable.

Lemma hex_not_special b : hex_lower_byte b = true -> b <> x3c /\ b <> SLASH /\ is_ascii b = true.
Proof. by destruct b; intros [=]. Qed.
Lemma commit_marker_ok nonce : forallb hex_lower_byte nonce = true -> marker_ok (commit_marker nonce) = true.
Proof.
  intros H. unfold commit_marker, MARKER_PREFIX. cbn [of_str String.list_byte_of_string app marker_ok].
  assert (forall f tail, (forall b, hex_lower_byte b = true -> f b = true) -> forallb f tail = true -> forallb f (nonce ++ tail) = true) as Ha.
  { intros f tail Hf Ht. rewrite forallb_app, Ht, andb_true_r. clear Ht. induction nonce as [|b n IH]; [done|]. simpl in *. apply andb_true_iff in H as [H1 H2]. by rewrite Hf, IH. }
  apply andb_true_iff. split.
  - vm_compute (of_str _). simpl. apply Ha; [|done]. intros b (H1 & _)%hex_not_special. by rewrite bool_decide_eq_false_2.
  - simpl. apply Ha; [|done]. intros b (_ & H1 & H2)%hex_not_special. by rewrite bool_decide_eq_false_2.
Qed.

Section Quote.
Context (m : bytes) (Hm : marker_ok m = true).
Lemma quote_skip e r x bs : quote e m r (length x) (x ++ bs) = quote e m r 0 bs.
Proof. by induction x. Qed.
Lemma quote_marker e r bs : begins m bs = true -> quote e m r 0 bs = replicate (2 * r + 1) SLASH ++ m ++ quote e m 0 0 (drop (length m) bs).
Proof.
  intros Hb. pose proof (begins_split _ _ Hb) as Es. destruct (marker_cons m Hm) as (m0 & mt & Em & _). set (rest := drop (length m) bs) in *.
  assert (exists bs', bs = m0 :: bs' /\ bs' = mt ++ rest) as (bs' & -> & E') by (rewrite Es, Em; eauto). cbn [quote]. rewrite Hb. do 2 f_equal. rewrite E'.
  replace (length m - 1)%nat with (length mt) by (rewrite Em; simpl; lia). apply quote_skip.
Qed.
Lemma meaning_slashes r k rest : meaning m r 0 (replicate k SLASH ++ rest) = meaning m (r + k) 0 rest.
Proof.
  revert r. induction k as [|k IH]; intros r; [by rewrite Nat.add_0_r|]. cbn [replicate app meaning].
  destruct (begins m (SLASH :: replicate k SLASH ++ rest)) eqn:Hb.
  { exfalso. destruct (marker_cons m Hm) as (m0 & mt & Em & _ & Hs). apply begins_split in Hb. rewrite Em in Hb. injection Hb as <- _. destruct (Hs SLASH) as [[] _]; [rewrite Em; left|done]. }
  rewrite bool_decide_eq_true_2, IH by done. f_equal. lia.
Qed.
Lemma meaning_marker r rest : meaning m r 0 (m ++ rest) = replicate (r / 2) (Lit SLASH) ++ (if Nat.odd r then Lit <$> m else [Commit]) ++ meaning m 0 0 rest.
Proof.
  pose proof (begins_app m rest) as Hb. destruct (marker_cons m Hm) as (m0 & mt & Em & _). rewrite Em at 2. cbn [app meaning]. change (m0 :: mt ++ rest) with ((m0 :: mt) ++ rest).
  rewrite <- Em, Hb. do 2 f_equal. replace (length m - 1)%nat with (length mt) by (rewrite Em; simpl; lia). apply meaning_skip.
Qed.
Lemma quote_slash e r bs : (0 < e)%nat -> (0 < r)%nat -> exists l, quote e m r 0 bs = SLASH :: l.
Proof.
  intros He. revert r. induction bs as [|b bs IH]; intros r Hr; cbn [quote].
  - destruct (e * r)%nat eqn:E; [nia|]. simpl. eauto.
  - destruct (begins m (b :: bs)); [rewrite Nat.add_1_r; simpl; eauto|]. destruct (bool_decide _); [apply IH; lia|]. destruct r; [lia|]. simpl. eauto.
Qed.
(** What may follow quoted text. *)
Definition no_tail (T : bytes) : Prop := T = [] \/ exists T', T = m ++ T'.
Lemma quote_begins e w bs T : (0 < e)%nat -> no_tail T -> (forall b, b ∈ w -> b <> SLASH /\ head m <> Some b) -> begins w (quote e m 0 0 bs ++ T) = true -> begins w bs = true.
Proof.
  intros He HT. revert bs. induction w as [|x w IH]; intros bs Hw Hb; [done|]. destruct (Hw x) as [Hx1 Hx2]; [left|]. apply begins_split in Hb. simpl in Hb. destruct bs as [|c bs].
  { exfalso. cbn [quote] in Hb. rewrite Nat.mul_0_r in Hb. simpl in Hb. destruct HT as [->|[T' ->]]; [done|]. destruct (marker_cons m Hm) as (m0 & mt & -> & _). simpl in Hb. injection Hb as <- _. done. }
  destruct (begins m (c :: bs)) eqn:Eb; [rewrite quote_marker in Hb by done; simpl in Hb; injection Hb; intros; congruence|]. cbn [quote] in Hb. rewrite Eb in Hb. case_bool_decide as Es.
  { destruct (quote_slash e 1 bs He) as [l El]; [lia|]. rewrite El in Hb. injection Hb; intros; congruence. }
  simpl in Hb. injection Hb as -> Hb. unfold begins. apply bool_decide_eq_true. simpl. f_equal.
  assert (begins w bs = true) as Hd by (apply IH; [intros b Hin; apply Hw; by right|rewrite Hb; apply begins_app]). by apply bool_decide_eq_true in Hd.
Qed.
Lemma quote_meaning e r bs T rest : (0 < e)%nat -> no_tail T -> (forall r, meaning m (e * r) 0 T = replicate r (Lit SLASH) ++ rest) ->
  meaning m 0 0 (quote e m r 0 bs ++ T) = replicate r (Lit SLASH) ++ (Lit <$> bs) ++ rest.
Proof.
  intros He HT Hr. revert r. induction bs as [bs IH] using (induction_ltof1 _ length). unfold ltof in IH. intros r. destruct (begins m bs) eqn:Eb.
  { pose proof (begins_split _ _ Eb) as Es. rewrite quote_marker, <- !app_assoc, meaning_slashes, Nat.add_0_l, meaning_marker by done.
    replace (2 * r + 1)%nat with (1 + r * 2)%nat by lia. rewrite Nat.div_add, Nat.add_0_l by lia. replace (Nat.odd (1 + r * 2)) with true by (symmetry; apply Nat.odd_spec; exists r; lia).
    destruct (marker_cons m Hm) as (m0 & mt & Em & _). rewrite IH by (rewrite Es at 2; rewrite length_app, Em; simpl; lia). simpl. f_equal. rewrite Es at 2. by rewrite fmap_app, <- app_assoc. }
  destruct bs as [|b bs]; [cbn [quote]; by rewrite meaning_slashes, Nat.add_0_l, Hr|]. cbn [quote]. rewrite Eb. case_bool_decide as Es.
  { rewrite IH by (simpl; lia). subst b. simpl. clear. induction r as [|r IHr]; [done|]. simpl. by f_equal. }
  rewrite <- !app_assoc, meaning_slashes. simpl. destruct (begins m (b :: quote e m 0 0 bs ++ T)) eqn:Eb2.
  { exfalso. destruct (marker_cons m Hm) as (m0 & mt & Em & Hnot & Hs). remember (quote e m 0 0 bs ++ T) as Q eqn:EQ. pose proof (begins_split _ _ Eb2) as E2. rewrite Em in E2. simpl in E2. injection E2 as -> E2.
    assert (begins mt bs = true) as Hmt. { eapply (quote_begins e); [done|done| |rewrite <- EQ, E2; apply begins_app]. intros x Hx. split; [apply Hs; rewrite Em; by right|rewrite Em; intros [= ->]; done]. }
    apply bool_decide_eq_true in Hmt. apply bool_decide_eq_false in Eb. apply Eb. rewrite Em. simpl. by rewrite Hmt. }
  rewrite bool_decide_eq_false_2 by done. by rewrite IH by (simpl; lia).
Qed.
Lemma committed_meaning p d : meaning m 0 0 (committed_text m p d) = (Lit <$> p) ++ Commit :: (Lit <$> d).
Proof.
  assert (meaning m 0 0 (quote 1 m 0 0 d) = Lit <$> d) as Hd.
  { rewrite <- (app_nil_r (quote 1 m 0 0 d)). rewrite (quote_meaning 1 0 d [] []); [by rewrite app_nil_r|lia|by left|]. intros r. by rewrite Nat.mul_1_l, app_nil_r. }
  unfold committed_text. rewrite (quote_meaning 2 0 p (m ++ quote 1 m 0 0 d) (Commit :: (Lit <$> d))); [done|lia|right; eauto|].
  intros r. rewrite meaning_marker. replace (2 * r)%nat with (r * 2)%nat by lia. rewrite Nat.div_mul by lia.
  replace (Nat.odd (r * 2)) with false by (symmetry; rewrite <- Nat.negb_even, negb_false_iff; apply Nat.even_spec; exists r; lia). by rewrite Hd.
Qed.
Lemma commits_map l : commits (Lit <$> l) = 0%nat.
Proof. unfold commits. by induction l. Qed.
Lemma text_map c l : text_of c (Lit <$> l) = l.
Proof. unfold text_of. induction l as [|b l IH]; [done|]. simpl. by f_equal. Qed.
Lemma committed_denotes p d : d <> [] -> denotes m (committed_text m p d) = (p ++ d, Attested, length p).
Proof.
  intros Hd. unfold denotes. rewrite committed_meaning. change (Commit :: (Lit <$> d)) with ([Commit] ++ (Lit <$> d)). rewrite !commits_app, !commits_map, !text_app, !text_map.
  rewrite before_none_app by apply commits_map. simpl. rewrite length_app, app_nil_r, length_fmap. change (text_of [] [Commit]) with ([] : bytes). simpl.
  destruct d as [|x d]; [done|]. simpl. by replace (length p + S (length d) - length p =? 0)%nat with false by (symmetry; apply Nat.eqb_neq; lia).
Qed.
End Quote.

(** ** UTF-8 *)
Lemma range_facts b lo hi : in_range b lo hi = true <-> (lo <= Byte.to_N b /\ Byte.to_N b <= hi)%N.
Proof. unfold in_range. by rewrite andb_true_iff, !N.leb_le. Qed.
Ltac high := unfold is_ascii; apply not_true_iff_false; intros ?%range_facts; lia.
Lemma continuation_high b : continuation b = true -> is_ascii b = false.
Proof. intros ?%range_facts. high. Qed.
Lemma three_tail b0 b1 : three_byte_start b0 b1 = true -> continuation b1 = true.
Proof. unfold three_byte_start, continuation. rewrite !orb_true_iff, !andb_true_iff, orb_true_iff, !range_facts. lia. Qed.
Lemma four_tail b0 b1 : four_byte_start b0 b1 = true -> continuation b1 = true.
Proof. unfold four_byte_start, continuation. rewrite !orb_true_iff, !andb_true_iff, !range_facts. lia. Qed.
(** A scalar value beyond ASCII is made of bytes beyond ASCII, continuation bytes but for the first. *)
Lemma utf8_scalar c a r : is_ascii c = false -> utf8_next (c :: a) = Some r ->
  exists t, a = t ++ r /\ Forall (fun b => continuation b = true) t /\ forall r', utf8_next (c :: t ++ r') = Some r'.
Proof.
  intros Hc. unfold utf8_next. pose proof Hc as Hc'. unfold is_ascii in Hc'. rewrite Hc'. destruct a as [|b1 r1]; [done|]. destruct (in_range c 194 223) eqn:E2.
  { destruct (continuation b1) eqn:E1; [|done]. intros [= ->]. exists [b1]. split_and!; [done|by repeat constructor|]. intros r'. simpl. by rewrite E1. }
  destruct r1 as [|b2 r2]; [done|]. destruct (three_byte_start c b1) eqn:E3.
  { destruct (continuation b2) eqn:E1; [|done]. intros [= ->]. exists [b1; b2]. split_and!; [done|repeat constructor; [by eapply three_tail|done]|]. intros r'. simpl. by rewrite E3, E1. }
  destruct r2 as [|b3 r3]; [done|]. destruct (four_byte_start c b1 && continuation b2 && continuation b3) eqn:E4; [|done]. intros [= ->]. pose proof E4 as [[H1 H2]%andb_true_iff H3]%andb_true_iff.
  exists [b1; b2; b3]. split_and!; [done|repeat constructor; [by eapply four_tail|done|done]|]. intros r'. simpl. by rewrite E3, E4.
Qed.
Lemma thins_high (s r l' : bytes) : Forall (fun b => is_ascii b = false) s -> thins (fun b => is_ascii b = true) (s ++ r) l' -> exists r', l' = s ++ r' /\ thins (fun b => is_ascii b = true) r r'.
Proof.
  intros Hs. revert l'. induction Hs as [|b s Hb Hs IH]; intros l' Ht; [eauto|]. simpl in Ht. inversion Ht as [|x l l2 H1|x l l2 Hx H1]; subst; [|by rewrite Hb in Hx].
  destruct (IH _ H1) as (r' & -> & Hr). exists r'. by split.
Qed.
(** Bytes below 128 can be left out. *)
Lemma thins_utf8 (l l' : bytes) : thins (fun b => is_ascii b = true) l l' -> utf8_valid l = true -> utf8_valid l' = true.
Proof.
  revert l'. induction l as [l IH] using (induction_ltof1 _ length). unfold ltof in IH. intros l' Ht. destruct l as [|c a]; [by inversion Ht|]. destruct (is_ascii c) eqn:Ec.
  { cbn [utf8_valid]. unfold is_ascii in Ec. rewrite Ec. intros Hv. inversion Ht; subst; [|eapply (IH a); [simpl; lia|done|done]]. cbn [utf8_valid]. rewrite Ec. eapply (IH a); [simpl; lia|done|done]. }
  rewrite utf8_valid_next. destruct (utf8_next (c :: a)) as [r|] eqn:En; [|done]. intros Hv. destruct (utf8_scalar _ _ _ Ec En) as (t & -> & Hs & Hall). pose proof (utf8_next_length _ _ En) as Hl.
  destruct (thins_high (c :: t) r l') as (r' & -> & Hr); [|exact Ht|rewrite utf8_valid_next; cbn [app]; rewrite Hall; by eapply IH].
  constructor; [done|]. eapply Forall_impl; [exact Hs|]. simpl. apply continuation_high.
Qed.
(** A suffix that does not start with a continuation byte is well-formed. *)
Lemma utf8_suffix (l : bytes) k : utf8_valid l = true -> (forall b, l !! k = Some b -> continuation b = false) -> utf8_valid (drop k l) = true.
Proof.
  revert k. induction l as [l IH] using (induction_ltof1 _ length). unfold ltof in IH. intros k Hv Hk. destruct l as [|c a]; [by rewrite drop_nil|]. destruct k as [|k]; [done|]. simpl. simpl in Hk. destruct (is_ascii c) eqn:Ec.
  { cbn [utf8_valid] in Hv. unfold is_ascii in Ec. rewrite Ec in Hv. apply IH; [simpl; lia|done|done]. }
  rewrite utf8_valid_next in Hv. destruct (utf8_next (c :: a)) as [r|] eqn:En; [|done]. destruct (utf8_scalar _ _ _ Ec En) as (t & -> & Hs & _). pose proof (utf8_next_length _ _ En) as Hl.
  destruct (decide (k < length t)%nat) as [Hlt|Hge].
  - exfalso. destruct (lookup_lt_is_Some_2 t k Hlt) as [b Eb]. specialize (Hk b ltac:(by rewrite lookup_app_l)). rewrite Forall_lookup in Hs. by rewrite (Hs _ _ Eb) in Hk.
  - rewrite drop_app_ge by lia. apply IH; [done|done|]. intros b Hb. apply Hk. by rewrite lookup_app_r by lia.
Qed.

(** ** The wrapper's resolution *)
(** C19: Resolving markers always yields a result, and it is what the grammar says of the text as a whole,
    however the text is cut into chunks: body, status and prefix length are those that
    [denotes] reads off the concatenation; the resolved chunks, one for each, make up the
    body, and every chunk that was UTF-8 stays UTF-8, so that no rewritten frame is refused. *)
Theorem resolution_is_the_grammar nonce chunks : valid_nonce nonce = true -> exists r, resolve_marker_chunks chunks (commit_marker nonce) = Some r /\
  (rs_body r, rs_status r, rs_prefix_bytes r) = denotes (commit_marker nonce) (concat chunks) /\ concat (rs_chunks r) = rs_body r /\
  Forall2 (fun c c' => utf8_valid c = true -> utf8_valid c' = true) chunks (rs_chunks r).
Proof.
  intros [_ Hn]%andb_true_iff. destruct (resolve_exact _ (commit_marker_ok _ Hn) chunks) as (r & E & Hd & Hc & Ht). exists r. split_and!; [done|done|done|]. eapply Forall2_impl; [exact Ht|]. intros c c'. apply thins_utf8.
Qed.
Definition sample_nonce : bytes := of_str "6f0d8e2b7c9145a1b3d74f26e8c0aa59".
Lemma resolution_is_the_grammar_witness : exists r, resolve_marker_chunks [of_str "go "; take 10 (commit_marker sample_nonce); drop 10 (commit_marker sample_nonce) ++ of_str "42"] (commit_marker sample_nonce) = Some r /\
  (rs_body r, rs_status r, rs_prefix_bytes r) = (of_str "go 42", Attested, 3%nat).
Proof.
  destruct (resolution_is_the_grammar sample_nonce [of_str "go "; take 10 (commit_marker sample_nonce); drop 10 (commit_marker sample_nonce) ++ of_str "42"] ltac:(vm_compute; reflexivity)) as (r & E & Hd & _).
  exists r. split; [exact E|]. rewrite Hd. vm_compute. reflexivity.
Defined.
(** Quoting is read back: process text and a non-empty deliverable, with any backslashes and literal
    markers in them, written as the contract asks and cut anywhere, resolve to exactly
    the two texts, attested, with the boundary between them. *)
Theorem quoted_text_is_read_back nonce chunks process deliverable : valid_nonce nonce = true -> deliverable <> [] -> concat chunks = committed_text (commit_marker nonce) process deliverable ->
  exists r, resolve_marker_chunks chunks (commit_marker nonce) = Some r /\ rs_body r = process ++ deliverable /\ rs_status r = Attested /\ rs_prefix_bytes r = length process.
Proof.
  intros [_ Hn]%andb_true_iff Hd Hc. pose proof (commit_marker_ok _ Hn) as Hm. destruct (resolve_exact _ Hm chunks) as (r & E & Hr & _). rewrite Hc, committed_denotes in Hr by done. injection Hr as H1 H2 H3. by exists r.
Qed.
Lemma quoted_text_is_read_back_witness : exists r, resolve_marker_chunks [committed_text (commit_marker sample_nonce) (of_str "a\") (commit_marker sample_nonce ++ of_str "\\x")] (commit_marker sample_nonce) = Some r /\
  rs_body r = of_str "a\" ++ commit_marker sample_nonce ++ of_str "\\x" /\ rs_status r = Attested /\ rs_prefix_bytes r = 2%nat.
Proof.
  exact (quoted_text_is_read_back sample_nonce [committed_text (commit_marker sample_nonce) (of_str "a\") (commit_marker sample_nonce ++ of_str "\\x")] (of_str "a\") (commit_marker sample_nonce ++ of_str "\\x")
    ltac:(vm_compute; reflexivity) ltac:(discriminate) ltac:(vm_compute; reflexivity)).
Defined.
