(* ===== verification/Json.v ===== *)
(** * JSON values ([serde_json::Value], the metadata filter of
      [bin/a2a-bridge/src/acp/attested_wrapper.rs])

    Values as the sources use them: accessors, assignment through a path, equality,
    and the removal of reserved metadata. An object is its entries in insertion
    order, whose [remove] moves the last entry into the hole; keys are distinct
    and text is UTF-8 in every value a parser or [json!] makes ([value_ok]). *)
From Stdlib Require Import Strings.Byte.
From S2P Require Import Prelude Domain Framing.
Open Scope Z_scope.
Open Scope bridge_scope.

Inductive Number := NPos (n : N) | NNeg (n : Z) | NFloat (bits : Z).
Inductive Value := JNull | JBool (b : bool) | JNum (n : Number) | JStr (s : bytes) | JArr (items : list Value) | JObj (fields : list (string * Value)).
Notation Map := (list (string * Value)).
(** [json!] of a string. *)
Definition js (s : string) : Value := JStr (of_str s).

Section Induction.
Context (P : Value -> Prop) (Hnull : P JNull) (Hbool : forall b, P (JBool b)) (Hnum : forall n, P (JNum n)) (Hstr : forall s, P (JStr s)).
Context (Harr : forall l, Forall P l -> P (JArr l)) (Hobj : forall o, Forall (fun kv => P (snd kv)) o -> P (JObj o)).
Fixpoint value_nested_ind (v : Value) : P v :=
  match v with
  | JNull => Hnull | JBool b => Hbool b | JNum n => Hnum n | JStr s => Hstr s
  | JArr l => Harr l ((fix go l := match l return Forall P l with [] => Forall_nil_2 _ | x :: l => Forall_cons_2 _ _ _ (value_nested_ind x) (go l) end) l)
  | JObj o => Hobj o ((fix go (o : Map) := match o return Forall (fun kv => P (snd kv)) o with [] => Forall_nil_2 _ | kv :: o => Forall_cons_2 _ _ _ (value_nested_ind (snd kv)) (go o) end) o)
  end.
End Induction.

(** ** Objects *)
Fixpoint field (k : string) (o : Map) : option Value := match o with [] => None | (k', v) :: o => if String.eqb k k' then Some v else field k o end.
(** Assignment to the entry of a key, where it is present. *)
Fixpoint assign (k : string) (w : Value) (o : Map) : Map := match o with [] => [] | (k', v) :: o => if String.eqb k k' then (k', w) :: o else (k', v) :: assign k w o end.
(** [Map::remove]: [None] where the key is absent. *)
Fixpoint position (k : string) (o : Map) : option nat := match o with [] => None | (k', _) :: o => if String.eqb k k' then Some 0%nat else S <$> position k o end.
Definition swap_remove (k : string) (o : Map) : option Map :=
  i ← position k o; l ← last o; Some (take (length o - 1) (<[i := l]> o)).

(** ** Accessors *)
Definition get (k : string) (v : Value) : option Value := match v with JObj o => field k o | _ => None end.
Definition as_str (v : Value) : option bytes := match v with JStr s => Some s | _ => None end.
Definition as_bool (v : Value) : option bool := match v with JBool b => Some b | _ => None end.
Definition as_u64 (v : Value) : option N := match v with JNum (NPos n) => Some n | _ => None end.
Definition as_object (v : Value) : option Map := match v with JObj o => Some o | _ => None end.
(** [get_mut] along a path, then an assignment through the reference. *)
Fixpoint set_path (path : list string) (w v : Value) : Value :=
  match path with
  | [] => w
  | k :: path => match v with JObj o => match field k o with Some v' => JObj (assign k (set_path path w v') o) | None => v end | _ => v end
  end.
Definition str_is (s : string) (v : option Value) : bool := match v with Some v => bool_decide (as_str v = Some (of_str s)) | None => false end.

(** ** Equality *)
Definition number_eqb (a b : Number) : bool :=
  match a, b with
  | NPos x, NPos y => (x =? y)%N
  | NNeg x, NNeg y => (x =? y)%Z
  | NFloat x, NFloat y => (x =? y)%Z || ((x mod 2 ^ 63 =? 0)%Z && (y mod 2 ^ 63 =? 0)%Z)
  | _, _ => false
  end.
(** Of objects, without regard to the order of the entries. *)
Fixpoint value_eqb (a b : Value) : bool :=
  match a, b with
  | JNull, JNull => true
  | JBool x, JBool y => Bool.eqb x y
  | JNum x, JNum y => number_eqb x y
  | JStr x, JStr y => bool_decide (x = y)
  | JArr x, JArr y => (fix go x y := match x, y with [], [] => true | u :: x, v :: y => value_eqb u v && go x y | _, _ => false end) x y
  | JObj x, JObj y =>
      (length x =? length y)%nat && (fix go (x : Map) := match x with [] => true | (k, u) :: x => match field k y with Some v => value_eqb u v | None => false end && go x end) x
  | _, _ => false
  end.

(** ** Reserved metadata *)
Definition META_KEY : string := "dev.b2a.attested_prefix".
Fixpoint depth (v : Value) : nat :=
  match v with
  | JArr l => S (foldr (fun x n => Nat.max (depth x) n) 0%nat l)
  | JObj o => S (foldr (fun kv n => Nat.max (depth (snd kv)) n) 0%nat o)
  | _ => 1%nat
  end.
(** The [_meta] entry of an object without the reserved key, and whether it was there. *)
Definition strip_meta (o : Map) : Map * bool :=
  match field "_meta" o with
  | Some (JObj meta) => match swap_remove META_KEY meta with Some meta' => (assign "_meta" (JObj meta') o, true) | None => (o, false) end
  | _ => (o, false)
  end.
(** [fuel] bounds the nesting. *)
Fixpoint strip (fuel : nat) (v : Value) : Value * bool :=
  match fuel with
  | O => (v, false)
  | S fuel =>
      match v with
      | JObj o =>
          let '(o, removed) := strip_meta o in
          let children := (fun kv => (fst kv, strip fuel (snd kv))) <$> o in
          (JObj ((fun kv => (fst kv, fst (snd kv))) <$> children), removed || existsb (fun kv => snd (snd kv)) children)
      | JArr l => let items := strip fuel <$> l in (JArr (fst <$> items), existsb snd items)
      | _ => (v, false)
      end
  end.
Definition strip_reserved_meta (v : Value) : Value * bool := strip (depth v) v.

(** Distinct keys and well-formed text, at any depth. *)
Fixpoint value_ok (v : Value) : bool :=
  match v with
  | JStr s => utf8_valid s
  | JArr l => forallb value_ok l
  | JObj o => bool_decide (NoDup (fst <$> o)) && forallb (fun kv => value_ok (snd kv)) o
  | _ => true
  end.
(** No object, at any depth, has an entry [_meta] with the reserved key. *)
Definition meta_clean (o : Map) : bool := match field "_meta" o with Some (JObj meta) => match field META_KEY meta with Some _ => false | None => true end | _ => true end.
Fixpoint reserved_free (v : Value) : bool :=
  match v with
  | JArr l => forallb reserved_free l
  | JObj o => meta_clean o && forallb (fun kv => reserved_free (snd kv)) o
  | _ => true
  end.

(** ** Facts *)
Lemma field_in k v o : field k o = Some v -> (k, v) ∈ o.
Proof. induction o as [|[k' v'] o IH]; simpl; [done|]. destruct (String.eqb_spec k k') as [->|]; [intros [= ->]; left|intros H; right; auto]. Qed.
Lemma field_none k (o : Map) : field k o = None <-> k ∉ fst <$> o.
Proof. induction o as [|[k' v'] o IH]; simpl; [split; [intros _ H; inversion H|done]|]. rewrite not_elem_of_cons. destruct (String.eqb_spec k k'); [split; [done|tauto]|]. rewrite IH. tauto. Qed.
Lemma field_nodup k v (o : Map) : NoDup (fst <$> o) -> (k, v) ∈ o -> field k o = Some v.
Proof.
  induction o as [|[k' v'] o IH]; simpl; intros Hn Hi; [by apply elem_of_nil in Hi|]. apply NoDup_cons in Hn as [Hk Hn]. apply elem_of_cons in Hi as [[= -> ->]|Hi]; [by rewrite String.eqb_refl|].
  destruct (String.eqb_spec k k') as [->|]; [|auto]. destruct Hk. by apply (list_elem_of_fmap_2 fst _ (k', v)).
Qed.
Lemma assign_keys k w o : fst <$> assign k w o = fst <$> o.
Proof. induction o as [|[k' v] o IH]; simpl; [done|]. destruct (String.eqb k k'); simpl; by f_equal. Qed.
Lemma field_assign k w k' o : field k' (assign k w o) = if String.eqb k' k then (fun _ => w) <$> field k' o else field k' o.
Proof.
  induction o as [|[k2 v] o IH]; simpl; [by destruct (String.eqb k' k)|]. destruct (String.eqb_spec k k2) as [->|Hk]; simpl.
  - by destruct (String.eqb_spec k' k2).
  - rewrite IH. destruct (String.eqb_spec k' k2) as [->|]; [|done]. destruct (String.eqb_spec k2 k); [congruence|done].
Qed.
Lemma field_fmap (f : Value -> Value) k o : field k ((fun kv => (fst kv, f (snd kv))) <$> o) = f <$> field k o.
Proof. induction o as [|[k' v] o IH]; simpl; [done|]. by destruct (String.eqb k k'). Qed.
Lemma position_none k o : position k o = None <-> field k o = None.
Proof. induction o as [|[k' v] o IH]; simpl; [done|]. destruct (String.eqb k k'); [done|]. rewrite <- IH. by destruct (position k o). Qed.
Lemma position_some k o i : position k o = Some i -> exists v, o !! i = Some (k, v).
Proof.
  revert i. induction o as [|[k' v] o IH]; simpl; intros i; [done|]. destruct (String.eqb_spec k k') as [->|]; [intros [= <-]; eauto|].
  destruct (position k o) as [j|]; [|done]. intros [= <-]. eauto.
Qed.
(** The entries that stay are those of the other keys. *)
Lemma swap_remove_perm k (o o' : Map) : swap_remove k o = Some o' -> exists v, o ≡ₚ (k, v) :: o'.
Proof.
  unfold swap_remove. destruct (position k o) as [i|] eqn:Ei; [|done]. simpl. destruct (position_some _ _ _ Ei) as [v Hv]. destruct (last o) as [l|] eqn:El; [|done]. simpl. intros [= <-]. exists v.
  destruct (proj1 (last_Some o l) El) as [o1 ->]. rewrite length_app, Nat.add_sub. destruct (decide (i < length o1)%nat) as [Hi|Hi].
  - rewrite insert_app_l, take_app_le, take_ge by (rewrite ?length_insert; lia). rewrite lookup_app_l in Hv by done. pose proof (take_drop_middle _ _ _ Hv) as E.
    rewrite insert_take_drop by done. rewrite <- E at 1. rewrite Permutation_app_comm. simpl. rewrite <- Permutation_middle. solve_Permutation.
  - rewrite lookup_app_r in Hv by lia. destruct (i - length o1)%nat eqn:Ed; [|done]. injection Hv as ->. rewrite insert_app_r_alt by lia. rewrite Ed. simpl. rewrite take_app_length. by rewrite Permutation_app_comm.
Qed.
Lemma swap_remove_none k o : swap_remove k o = None <-> field k o = None.
Proof.
  rewrite <- position_none. unfold swap_remove. destruct (position k o) as [i|] eqn:E; [|done]. destruct (position_some _ _ _ E) as [v Hv]. simpl. destruct (last o) eqn:El; [done|].
  apply last_None in El. by subst.
Qed.
Lemma perm_keys (o o' : Map) : o ≡ₚ o' -> fst <$> o ≡ₚ fst <$> o'.
Proof. apply fmap_Permutation. Qed.
Lemma swap_remove_keys k o o' : NoDup (fst <$> o) -> swap_remove k o = Some o' -> field k o' = None /\ NoDup (fst <$> o') /\ forall kv, kv ∈ o' -> kv ∈ o.
Proof.
  intros Hn [v Hp]%swap_remove_perm. rewrite (perm_keys _ _ Hp) in Hn. simpl in Hn. apply NoDup_cons in Hn as [Hk Hn]. split_and!; [by apply field_none|done|]. intros kv Hi. rewrite Hp. by right.
Qed.
Lemma depth_arr n l : (depth (JArr l) <= S n)%nat <-> Forall (fun v => (depth v <= n)%nat) l.
Proof. induction l as [|v l IH]; simpl in *; [split; [by constructor|lia]|]. rewrite Forall_cons, <- IH. lia. Qed.
Lemma depth_obj n (o : Map) : (depth (JObj o) <= S n)%nat <-> Forall (fun kv => (depth (snd kv) <= n)%nat) o.
Proof. induction o as [|v o IH]; simpl in *; [split; [by constructor|lia]|]. rewrite Forall_cons, <- IH. lia. Qed.
Lemma assign_forall (P : Value -> Prop) k w (o : Map) : P w -> Forall (fun kv => P (snd kv)) o -> Forall (fun kv => P (snd kv)) (assign k w o).
Proof. intros Hw. induction 1 as [|[k' v] o Hv Ho IH]; simpl; [constructor|]. destruct (String.eqb k k'); by constructor. Qed.
Lemma forall_forallb {A} (f : A -> bool) l : forallb f l = true <-> Forall (fun x => f x = true) l.
Proof. rewrite forallb_forall, Forall_forall. by setoid_rewrite list_elem_of_In. Qed.
(** What the filter does to one object. *)
Lemma strip_meta_spec o n : value_ok (JObj o) = true -> (depth (JObj o) <= n)%nat -> let '(o', removed) := strip_meta o in
  value_ok (JObj o') = true /\ (depth (JObj o') <= n)%nat /\ meta_clean o' = true /\ removed = negb (meta_clean o) /\ (removed = false -> o' = o) /\ fst <$> o' = fst <$> o /\
  forall k, k <> "_meta" -> field k o' = field k o.
Proof.
  intros Hok Hd. unfold strip_meta, meta_clean. destruct (field "_meta" o) as [[]|] eqn:E; rewrite ?E; [by split_and!..| |by split_and!]. destruct (swap_remove META_KEY fields) as [meta'|] eqn:Er.
  2: { pose proof Er as Er'. apply swap_remove_none in Er'. rewrite E, Er'. by split_and!. }
  destruct n as [|n]; [simpl in Hd; lia|]. cbn [value_ok] in Hok. apply andb_true_iff in Hok as [Hn%bool_decide_eq_true Hall%forall_forallb]. rewrite depth_obj in Hd.
  pose proof (field_in _ _ _ E) as Hin. pose proof (proj1 (Forall_forall _ _) Hall _ Hin) as Hm. pose proof (proj1 (Forall_forall _ _) Hd _ Hin) as Hdm. cbn [snd value_ok] in Hm. apply andb_true_iff in Hm as [Hnm%bool_decide_eq_true Hallm%forall_forallb].
  destruct (swap_remove_keys _ _ _ Hnm Er) as (Hk & Hn' & Hsub). assert (value_ok (JObj meta') = true) as Hok'.
  { cbn [value_ok]. apply andb_true_iff. split; [by apply bool_decide_eq_true|]. apply forall_forallb, Forall_forall. intros kv Hi. by apply (proj1 (Forall_forall _ _) Hallm), Hsub. }
  assert (depth (JObj meta') <= n)%nat as Hd'. { destruct n as [|n]; [simpl in Hdm; lia|]. simpl snd in Hdm. rewrite depth_obj in *. apply Forall_forall. intros kv Hi. by apply (proj1 (Forall_forall _ _) Hdm), Hsub. }
  assert (field META_KEY fields <> None) as Hsome by (intros Hno%swap_remove_none; congruence).
  rewrite field_assign, E. simpl. rewrite Hk. split_and!; [|by apply depth_obj, (assign_forall (fun v => (depth v <= n)%nat))|done|by destruct (field META_KEY fields)|done|apply assign_keys|].
  - apply andb_true_iff. split; [by rewrite assign_keys; apply bool_decide_eq_true|]. by apply forall_forallb, (assign_forall (fun v => value_ok v = true)).
  - intros k Hk'. rewrite field_assign. by destruct (String.eqb_spec k "_meta").
Qed.
Lemma strip_keys n v o : fst (strip n v) = JObj o -> exists o0, v = JObj o0 /\ fst <$> o = fst <$> o0.
Proof.
  destruct n as [|n]; simpl; [intros ->; eauto|]. destruct v; try done. destruct (strip_meta fields) as [o1 r] eqn:E. simpl. intros [= <-]. exists fields. split; [done|].
  rewrite <- !list_fmap_compose. simpl. change (fst ∘ _ ∘ _) with (fst : string * Value -> string). unfold strip_meta in E. repeat case_match; simplify_eq; [done..|apply assign_keys|done|done].
Qed.
(** The filter leaves no reserved metadata, says whether there was any, and does nothing otherwise. *)
Lemma strip_spec n v : value_ok v = true -> (depth v <= n)%nat ->
  value_ok (fst (strip n v)) = true /\ reserved_free (fst (strip n v)) = true /\ snd (strip n v) = negb (reserved_free v) /\ (snd (strip n v) = false -> fst (strip n v) = v).
Proof.
  revert v. induction n as [|n IH]; intros v Hok Hd; [destruct v; simpl in Hd; lia|]. destruct v as [| | | |l|o]; [by split_and!..| |].
  - apply depth_arr in Hd. cbn [value_ok] in Hok. apply forall_forallb in Hok. cbn [strip fst snd value_ok reserved_free].
    assert (Forall (fun v => value_ok v = true /\ (depth v <= n)%nat) l) as H by (by apply Forall_and). clear Hok Hd. induction H as [|v l [H1 H2] H IHl]; [by split_and!|].
    destruct (IH v H1 H2) as (A1 & A2 & A3 & A4), IHl as (B1 & B2 & B3 & B4). rewrite !fmap_cons. cbn [forallb existsb]. rewrite A1, A2, A3, B1, B2, B3, negb_andb. split_and!; [done..|]. intros [H3 H4]%orb_false_iff. rewrite A3 in A4. rewrite A4 by done. rewrite B3 in B4. f_equal. by injection (B4 H4) as ->.
  - pose proof (strip_meta_spec o (S n) Hok Hd) as Hs. cbn [strip]. destruct (strip_meta o) as [o1 r0]. destruct Hs as (Hok1 & Hd1 & Hc & Hr & Hsame & Hkeys & _). cbn [fst snd].
    apply depth_obj in Hd1. cbn [value_ok] in Hok1. apply andb_true_iff in Hok1 as [Hn1%bool_decide_eq_true Hall1%forall_forallb].
    rewrite <- list_fmap_compose. set (o2 := (_ ∘ _) <$> o1). assert (o2 = (fun kv => (fst kv, fst (strip n (snd kv)))) <$> o1) as Eo2 by done.
    assert (fst <$> o2 = fst <$> o1) as Hk2 by (rewrite Eo2, <- list_fmap_compose; by apply list_fmap_ext).
    assert (forallb (fun kv => value_ok (snd kv)) o2 = true /\ forallb (fun kv => reserved_free (snd kv)) o2 = true /\
      existsb (fun kv : string * (Value * bool) => snd (snd kv)) ((fun kv => (fst kv, strip n (snd kv))) <$> o1) = negb (forallb (fun kv => reserved_free (snd kv)) o1) /\ (forallb (fun kv => reserved_free (snd kv)) o1 = true -> o2 = o1)) as (C1 & C2 & C3 & C4).
    { rewrite Eo2. clear -IH Hall1 Hd1. induction o1 as [|[k v] o1 IHo]; [by split_and!|]. apply Forall_cons in Hall1 as [H1 Hall1], Hd1 as [H2 Hd1]. destruct (IH v H1 H2) as (A1 & A2 & A3 & A4), (IHo Hall1 Hd1) as (B1 & B2 & B3 & B4).
      rewrite !fmap_cons. cbn [forallb existsb fst snd]. rewrite A1, A2, A3, B1, B2, B3, negb_andb. split_and!; [done..|]. intros [H3 H4]%andb_true_iff. rewrite A3 in A4. rewrite A4 by (by rewrite H3). f_equal. auto. }
    assert (meta_clean o2 = true) as C5.
    { unfold meta_clean in *. rewrite Eo2, (field_fmap (fun v => fst (strip n v))). destruct (field "_meta" o1) as [v|]; [|done]. simpl. destruct (fst (strip n v)) as [| | | |l|om] eqn:Ef; [done..|].
      destruct (strip_keys _ _ _ Ef) as (o0 & -> & Hk0). destruct (field META_KEY o0) eqn:E0; [done|]. apply field_none in E0. rewrite <- Hk0 in E0. apply field_none in E0. by rewrite E0. }
    cbn [value_ok reserved_free]. rewrite C1, C2, C3, C5, Hr. split_and!; [by rewrite bool_decide_eq_true_2 by (by rewrite Hk2)|done|by destruct (meta_clean o) eqn:Em; [rewrite (Hsame Hr)|]|].
    destruct (meta_clean o) eqn:Em; [|done]. simpl in *. rewrite (Hsame Hr) in *. intros H%negb_false_iff. f_equal. by apply C4.
Qed.

(** ** Assignment through a path *)
Lemma get_set k path w v : get k (set_path (k :: path) w v) = set_path path w <$> get k v.
Proof. destruct v as [| | | | |o]; try done. simpl. destruct (field k o) as [v'|] eqn:E; simpl; [|by rewrite E]. rewrite field_assign, String.eqb_refl, E. done. Qed.
Lemma get_set_ne k k' path w v : k' <> k -> get k' (set_path (k :: path) w v) = get k' v.
Proof. intros Hk. destruct v as [| | | | |o]; try done. simpl. destruct (field k o) as [v'|] eqn:E; simpl; [|done]. rewrite field_assign. by destruct (String.eqb_spec k' k). Qed.
Lemma set_path_ok path w v : value_ok w = true -> value_ok v = true -> value_ok (set_path path w v) = true.
Proof.
  intros Hw. revert v. induction path as [|k path IH]; intros v Hv; [done|]. simpl. destruct v as [| | | | |o]; try done. destruct (field k o) as [v'|] eqn:E; [|done]. cbn [value_ok] in *.
  apply andb_true_iff in Hv as [Hn Hall%forall_forallb]. rewrite assign_keys. apply andb_true_iff. split; [done|]. apply forall_forallb, (assign_forall (fun v => value_ok v = true)); [|done].
  apply IH. by apply (proj1 (Forall_forall _ _) Hall (k, v')), field_in.
Qed.
Lemma set_path_free path w v : ~ "_meta" ∈ path -> reserved_free w = true -> reserved_free v = true -> reserved_free (set_path path w v) = true.
Proof.
  intros Hp Hw. revert v. induction path as [|k path IH]; intros v Hv; [done|]. apply not_elem_of_cons in Hp as [Hk Hp]. simpl. destruct v as [| | | | |o]; try done. destruct (field k o) as [v'|] eqn:E; [|done]. cbn [reserved_free] in *.
  apply andb_true_iff in Hv as [Hn Hall%forall_forallb]. apply andb_true_iff. split.
  - unfold meta_clean in *. rewrite field_assign. by destruct (String.eqb_spec "_meta" k).
  - apply forall_forallb, (assign_forall (fun v => reserved_free v = true)); [|done]. apply IH; [done|]. by apply (proj1 (Forall_forall _ _) Hall (k, v')), field_in.
Qed.
#[global] Arguments set_path : simpl never.
#[global] Arguments get : simpl never.
