(* ===== verification/Harvest.v ===== *)
(** * Attested completions: statuses, validation and audit
      ([bridge-core/src/attestation.rs], [bridge-core/src/harvest.rs], the audit rows of
       [MemoryTaskStore] in [bridge-core/src/task_store.rs])

    Text is its bytes and a byte count is an [N]. SHA-256 and the JSON writer are
    parameters. The audit store is an interface with its law, which the memory store
    satisfies. *)
From Stdlib Require Import Strings.Byte.
From S2P Require Import Prelude Domain WorkflowGraph Framing FramePath CustodyFrame Json.
Open Scope Z_scope.
Open Scope bridge_scope.

#[global] Instance byte_countable : Countable byte := inj_countable Byte.to_N Byte.of_N Byte.of_to_N.
#[global] Instance sanitization_mode_eq_dec : EqDecision HarvestSanitizationMode.
Proof. solve_decision. Defined.

(** ** Statuses ([attestation.rs]) *)
Definition ATTESTED_PREFIX_ISSUER_V1 : bytes := of_str "bridge.acp.codex.commit-wrapper.v1".
Inductive PrefixBoundaryScheme := CodexCommitMarkerV1.
Inductive CapabilityUnavailableReason := CapBackendDeclaredIncapable | CapProtocolDowngrade.
Inductive PrefixAttestationCapability :=
| SupportedV1 (issuer_id : bytes) (boundary_scheme : PrefixBoundaryScheme)
| Unsupported (reason : CapabilityUnavailableReason).
Inductive NoAttestationReason :=
| BackendDeclaredIncapable | ProtocolDowngrade | SanitizationNotRequested | TurnMissingDeliverableBoundary | TurnEndedWithoutDeliverable
| MultipleCommitMarkers | BackendProtocolViolation | ControlDrainTimeout | NaSyntheticStreamError | NaSyntheticMissingDone
| NaSyntheticCancellation | NaSyntheticEmptyFinal | NaSyntheticTwinDeath | NaStopReasonWithoutText.
Inductive InvalidAttestationReason :=
| UnsupportedVersion | MalformedMetadata | DuplicateControlMetadata | BackendCapabilityMismatch | UntrustedIssuer | ProducerMismatch
| TurnMismatch | NonceMismatch | LengthMismatch | DigestMismatch | OffsetOverflow | OffsetOutOfBounds | EmptyDeliverable | OffsetNotUtf8Boundary.
Record AttestedPrefix := mkAttested {
  ap_issuer_id : bytes; ap_producer_id : bytes; ap_turn_id : bytes; ap_body_len_bytes : N; ap_body_sha256 : bytes; ap_process_prefix_bytes : N }.
Record NoAttestationV1 := mkNoAttestation { na_producer_id : bytes; na_turn_id : bytes; na_reason : NoAttestationReason }.
Record RejectedAttestation := mkRejected { rj_producer_id : bytes; rj_turn_id : bytes; rj_reason : InvalidAttestationReason }.
Inductive PrefixAttestationStatus := AttestedV1 (a : AttestedPrefix) | UnavailableV1 (n : NoAttestationV1) | Rejected (r : RejectedAttestation).
#[global] Instance boundary_scheme_eq_dec : EqDecision PrefixBoundaryScheme.
Proof. solve_decision. Defined.
#[global] Instance capability_reason_eq_dec : EqDecision CapabilityUnavailableReason.
Proof. solve_decision. Defined.
#[global] Instance capability_eq_dec : EqDecision PrefixAttestationCapability.
Proof. solve_decision. Defined.
#[global] Instance no_attestation_reason_eq_dec : EqDecision NoAttestationReason.
Proof. solve_decision. Defined.
#[global] Instance invalid_reason_eq_dec : EqDecision InvalidAttestationReason.
Proof. solve_decision. Defined.
#[global] Instance attested_eq_dec : EqDecision AttestedPrefix.
Proof. solve_decision. Defined.
#[global] Instance no_attestation_eq_dec : EqDecision NoAttestationV1.
Proof. solve_decision. Defined.
#[global] Instance rejected_eq_dec : EqDecision RejectedAttestation.
Proof. solve_decision. Defined.
#[global] Instance status_eq_dec : EqDecision PrefixAttestationStatus.
Proof. solve_decision. Defined.
Definition codex_commit_marker_v1 : PrefixAttestationCapability := SupportedV1 ATTESTED_PREFIX_ISSUER_V1 CodexCommitMarkerV1.
Definition is_supported_v1 (c : PrefixAttestationCapability) : bool :=
  match c with SupportedV1 issuer_id CodexCommitMarkerV1 => bool_decide (issuer_id = ATTESTED_PREFIX_ISSUER_V1) | Unsupported _ => false end.
Definition unavailable (producer_id turn_id : bytes) (reason : NoAttestationReason) : PrefixAttestationStatus := UnavailableV1 (mkNoAttestation producer_id turn_id reason).
Definition rejected (producer_id turn_id : bytes) (reason : InvalidAttestationReason) : PrefixAttestationStatus := Rejected (mkRejected producer_id turn_id reason).

(** The request of a turn; [None]: no random bytes. *)
Inductive PrefixAttestationRequest := RequestDisabled | RequestCommitMarkerV1 (marker_nonce : bytes).
Definition prefix_attestation_request_for_capability (mode : HarvestSanitizationMode) (capability : PrefixAttestationCapability) (nonce : option bytes) : result PrefixAttestationRequest BridgeError :=
  if bool_decide (mode = AttestedPrefixV1) && is_supported_v1 capability then
    match nonce with Some n => Ok (RequestCommitMarkerV1 n) | None => Err (ConfigInvalid "secure random nonce generation failed") end
  else Ok RequestDisabled.

(** ** Validation ([harvest.rs]) *)
Inductive CompletionBodyOrigin :=
| ModelText | SyntheticStreamError | SyntheticMissingDone | SyntheticCancellation | SyntheticEmptyFinal | SyntheticTwinDeath | StopReasonWithoutText.
Definition synthetic_reason (o : CompletionBodyOrigin) : option NoAttestationReason :=
  match o with
  | ModelText => None
  | SyntheticStreamError => Some NaSyntheticStreamError
  | SyntheticMissingDone => Some NaSyntheticMissingDone
  | SyntheticCancellation => Some NaSyntheticCancellation
  | SyntheticEmptyFinal => Some NaSyntheticEmptyFinal
  | SyntheticTwinDeath => Some NaSyntheticTwinDeath
  | StopReasonWithoutText => Some NaStopReasonWithoutText
  end.
Inductive HarvestDecision := KeptOff | KeptNoAttestation | KeptInvalidAttestation | KeptSuspiciousAttestation | KeptZeroPrefix | CutAttested.
#[global] Instance harvest_decision_eq_dec : EqDecision HarvestDecision.
Proof. solve_decision. Defined.
Definition reason_for_no_attestation (r : NoAttestationReason) : string :=
  match r with
  | BackendDeclaredIncapable => "backend_declared_incapable" | ProtocolDowngrade => "protocol_downgrade"
  | SanitizationNotRequested => "sanitization_not_requested" | TurnMissingDeliverableBoundary => "turn_missing_deliverable_boundary"
  | TurnEndedWithoutDeliverable => "turn_ended_without_deliverable" | MultipleCommitMarkers => "multiple_commit_markers"
  | BackendProtocolViolation => "backend_protocol_violation" | ControlDrainTimeout => "control_drain_timeout"
  | NaSyntheticStreamError => "bridge_synthetic_stream_error" | NaSyntheticMissingDone => "bridge_synthetic_missing_done"
  | NaSyntheticCancellation => "bridge_synthetic_cancellation" | NaSyntheticEmptyFinal => "bridge_synthetic_empty_final"
  | NaSyntheticTwinDeath => "bridge_synthetic_twin_death" | NaStopReasonWithoutText => "bridge_stop_reason_without_text"
  end.
Definition reason_for_invalid (r : InvalidAttestationReason) : string :=
  match r with
  | UnsupportedVersion => "unsupported_version" | MalformedMetadata => "malformed_metadata" | DuplicateControlMetadata => "duplicate_control_metadata"
  | BackendCapabilityMismatch => "backend_capability_mismatch" | UntrustedIssuer => "untrusted_issuer" | ProducerMismatch => "producer_mismatch"
  | TurnMismatch => "turn_mismatch" | NonceMismatch => "nonce_mismatch" | LengthMismatch => "length_mismatch" | DigestMismatch => "digest_mismatch"
  | OffsetOverflow => "offset_overflow" | OffsetOutOfBounds => "offset_out_of_bounds" | EmptyDeliverable => "empty_deliverable"
  | OffsetNotUtf8Boundary => "offset_not_utf8_boundary"
  end.
Record SanitizationOutcome := mkOutcome {
  so_effective_body : bytes; so_status : PrefixAttestationStatus; so_decision : HarvestDecision; so_reason : option string;
  so_cut_byte_offset : option N; so_issuer_id : option bytes }.
Definition blen (b : bytes) : N := N.of_nat (length b).
(** [usize::try_from] of a [u64]. *)
Definition to_usize (n : N) : option N := if (n <=? Lsp.usize_max)%N then Some n else None.
(** [str::is_char_boundary]. *)
Definition is_char_boundary (s : bytes) (k : N) : bool :=
  if (k =? 0)%N then true
  else if (blen s <=? k)%N then (k =? blen s)%N
  else match s !! N.to_nat k with Some b => negb (continuation b) | None => false end.

Section Hash.
Context (sha256 : bytes -> bytes) (to_vec : Value -> result bytes string).

Definition invalid_status (raw_body producer_id turn_id : bytes) (reason : InvalidAttestationReason) : SanitizationOutcome :=
  mkOutcome raw_body (rejected producer_id turn_id reason) KeptInvalidAttestation (Some (reason_for_invalid reason)) None None.
Definition validate_attested (capability : PrefixAttestationCapability) (expected_producer_id expected_turn_id raw_body : bytes) (attested : AttestedPrefix) : SanitizationOutcome :=
  let invalid := invalid_status raw_body expected_producer_id expected_turn_id in
  if negb (is_supported_v1 capability) then invalid BackendCapabilityMismatch
  else if negb (bool_decide (ap_issuer_id attested = ATTESTED_PREFIX_ISSUER_V1)) then invalid UntrustedIssuer
  else if negb (bool_decide (ap_producer_id attested = expected_producer_id)) then invalid ProducerMismatch
  else if negb (bool_decide (ap_turn_id attested = expected_turn_id)) then invalid TurnMismatch
  else
    let n := blen raw_body in
    match to_usize (ap_body_len_bytes attested) with
    | None => invalid LengthMismatch
    | Some body_len =>
        if negb (body_len =? n)%N then invalid LengthMismatch
        else if negb (bool_decide (ap_body_sha256 attested = sha256 raw_body)) then invalid DigestMismatch
        else match to_usize (ap_process_prefix_bytes attested) with
        | None => invalid OffsetOverflow
        | Some k =>
            if (n <? k)%N then invalid OffsetOutOfBounds
            else if (k =? n)%N then invalid EmptyDeliverable
            else if negb (is_char_boundary raw_body k) then invalid OffsetNotUtf8Boundary
            else if (n * 90 <? k * 100)%N then
              mkOutcome raw_body (AttestedV1 attested) KeptSuspiciousAttestation (Some "process_prefix_exceeds_90_percent") None (Some (ap_issuer_id attested))
            else if (k =? 0)%N then mkOutcome raw_body (AttestedV1 attested) KeptZeroPrefix None (Some 0%N) (Some (ap_issuer_id attested))
            else mkOutcome (drop (N.to_nat k) raw_body) (AttestedV1 attested) CutAttested None (Some (ap_process_prefix_bytes attested)) (Some (ap_issuer_id attested))
        end
    end.
Definition sanitize_harvest (mode : HarvestSanitizationMode) (origin : CompletionBodyOrigin) (capability : PrefixAttestationCapability)
  (expected_producer_id expected_turn_id raw_body : bytes) (status : PrefixAttestationStatus) : SanitizationOutcome :=
  match mode with
  | HarvestOff => mkOutcome raw_body status KeptOff None None None
  | AttestedPrefixV1 =>
      match synthetic_reason origin with
      | Some reason => mkOutcome raw_body (unavailable expected_producer_id expected_turn_id reason) KeptNoAttestation (Some (reason_for_no_attestation reason)) None None
      | None =>
          match status with
          | UnavailableV1 no => mkOutcome raw_body (UnavailableV1 no) KeptNoAttestation (Some (reason_for_no_attestation (na_reason no))) None None
          | Rejected r => mkOutcome raw_body (Rejected r) KeptInvalidAttestation (Some (reason_for_invalid (rj_reason r))) None None
          | AttestedV1 attested => validate_attested capability expected_producer_id expected_turn_id raw_body attested
          end
      end
  end.

(** ** Audit records *)
Definition HARVEST_SCHEMA_VERSION : N := 1.
Definition SUSPICIOUS_THRESHOLD_PERCENT : N := 90.
Record HarvestRawRecordV1 := mkRaw {
  hr_schema_version : N; hr_audit_id : bytes; hr_task_id : bytes; hr_run_id : bytes; hr_node_id : bytes; hr_attempt_id : N; hr_turn_id : bytes;
  hr_backend_id : bytes; hr_producer_id : bytes; hr_declared_capability : PrefixAttestationCapability; hr_raw_body : bytes; hr_raw_len_bytes : N;
  hr_raw_body_sha256 : bytes; hr_prefix_attestation : PrefixAttestationStatus; hr_provenance_sha256 : bytes }.
Record HarvestSanitizationDecisionV1 := mkDecision {
  hd_schema_version : N; hd_audit_id : bytes; hd_mode : HarvestSanitizationMode; hd_decision : HarvestDecision; hd_reason : option string; hd_node_id : bytes;
  hd_producer_id : bytes; hd_issuer_id : option bytes; hd_raw_body_sha256 : bytes; hd_effective_body_sha256 : bytes; hd_raw_len_bytes : N;
  hd_effective_len_bytes : N; hd_cut_byte_offset : option N; hd_provenance_sha256 : bytes; hd_suspicious_threshold_percent : N }.
Record HarvestAuditBundleV1 := mkBundle { hb_raw : HarvestRawRecordV1; hb_decision : HarvestSanitizationDecisionV1; hb_created_at_ms : Z }.
Inductive HarvestAuditCommit := Inserted | AlreadyPresentIdentical.
Inductive HarvestAuditStoreError := Persistence (cause : string) | IntegrityConflict (audit_id : bytes) | Encoding (cause : string) | LookupFailed (cause : string).
(** The one error of a completion: the audit id and its cause. *)
Record CompletionCommitError := mkCommitError { ce_audit_id : bytes; ce_source : HarvestAuditStoreError }.
Record CommittedHarvest := mkCommitted { ch_audit_id : bytes; ch_effective_body : bytes; ch_decision : HarvestSanitizationDecisionV1 }.
#[global] Instance raw_record_eq_dec : EqDecision HarvestRawRecordV1.
Proof. solve_decision. Defined.
#[global] Instance decision_record_eq_dec : EqDecision HarvestSanitizationDecisionV1.
Proof. solve_decision. Defined.

Record TurnContext := mkTurnContext {
  tc_turn_id : bytes; tc_session_id : bytes; tc_task_id : option bytes; tc_workflow : option bytes; tc_node : option bytes; tc_attempt : N; tc_agent : bytes;
  tc_model : option bytes; tc_effort : option bytes; tc_mode : option bytes; tc_prompt_id : option bytes; tc_traceparent : option bytes }.
Definition context_task_id (c : TurnContext) : bytes := default (tc_session_id c) (tc_task_id c).
Definition context_node_id (c : TurnContext) : bytes := default (of_str "direct") (tc_node c).

(** [format!("{byte:02x}")] of every byte. *)
Definition hex_nibble (n : N) : byte := default x00 (Byte.of_N (if (n <? 10)%N then 48 + n else 87 + n))%N.
Definition hex_lower (bs : bytes) : bytes := concat ((fun b => [hex_nibble (Byte.to_N b / 16); hex_nibble (Byte.to_N b mod 16)]) <$> bs)%N.
Definition to_be (w : nat) (n : N) : bytes := rev (to_le w (Z.of_N n)).
Definition lp (bs : bytes) : result bytes HarvestAuditStoreError :=
  if (blen bs <=? 4294967295)%N then Ok (to_be 4 (blen bs) ++ bs) else Err (Encoding "audit id component exceeds u32 length").
(** The bytes that are hashed. *)
Definition audit_id_bytes (run_id node_id : bytes) (attempt_id : N) (turn_id : bytes) : result bytes HarvestAuditStoreError :=
  let? r := lp run_id in let? n := lp node_id in let? t := lp turn_id in
  Ok (of_str "APC-AUDIT-ID-V1" ++ r ++ n ++ to_be 4 attempt_id ++ t).
Definition audit_id_for (run_id node_id : bytes) (attempt_id : N) (turn_id : bytes) : result bytes HarvestAuditStoreError :=
  let? b := audit_id_bytes run_id node_id attempt_id turn_id in Ok (of_str "apc1_" ++ hex_lower (sha256 b)).

(** The fields of the provenance, as the [Serialize] of their types writes them. *)
Definition opt_str (s : option bytes) : Value := match s with Some s => JStr s | None => JNull end.
Definition mode_value (m : HarvestSanitizationMode) : Value := match m with HarvestOff => js "off" | AttestedPrefixV1 => js "attested_prefix_v1" end.
Definition capability_value (c : PrefixAttestationCapability) : Value :=
  match c with
  | SupportedV1 issuer_id CodexCommitMarkerV1 => JObj [("supported_v1", JObj [("issuer_id", JStr issuer_id); ("boundary_scheme", js "codex_commit_marker_v1")])]
  | Unsupported r => JObj [("unsupported", JObj [("reason", match r with CapBackendDeclaredIncapable => js "backend_declared_incapable" | CapProtocolDowngrade => js "protocol_downgrade" end)])]
  end.
Definition provenance_value (c : TurnContext) (mode : HarvestSanitizationMode) (capability : PrefixAttestationCapability) (producer_id : bytes) : Value :=
  JObj [("task_id", opt_str (tc_task_id c)); ("run_id", JStr (tc_session_id c)); ("node_id", opt_str (tc_node c)); ("attempt", JNum (NPos (tc_attempt c)));
        ("turn_id", JStr (tc_turn_id c)); ("agent", JStr (tc_agent c)); ("model", opt_str (tc_model c)); ("effort", opt_str (tc_effort c));
        ("mode", mode_value mode); ("capability", capability_value capability); ("producer_id", JStr producer_id); ("prompt_id", opt_str (tc_prompt_id c))].
Definition provenance_sha256 (c : TurnContext) (mode : HarvestSanitizationMode) (capability : PrefixAttestationCapability) (producer_id : bytes) : result bytes HarvestAuditStoreError :=
  match to_vec (provenance_value c mode capability producer_id) with Ok b => Ok (sha256 b) | Err e => Err (Encoding e) end.

(** ** The store's interface ([HarvestAuditStore]) *)
Record HarvestAuditStore (S : Type) := mkAuditStore {
  retains_audit_records : bool;
  commit_bundle : HarvestRawRecordV1 -> HarvestSanitizationDecisionV1 -> S -> result HarvestAuditCommit HarvestAuditStoreError * S;
  get_by_audit_id : bytes -> S -> option HarvestAuditBundleV1 }.
Arguments retains_audit_records {S}.
Arguments commit_bundle {S}.
Arguments get_by_audit_id {S}.
(** What a store that retains records promises: a bundle it acknowledged is there, every
    bundle it had stays, and a refusal changes nothing. *)
Class RetainsBundles {S} (st : HarvestAuditStore S) : Prop := {
  rb_retains : retains_audit_records st = true;
  rb_commit : forall raw d s c s', commit_bundle st raw d s = (Ok c, s') ->
    exists b, get_by_audit_id st (hr_audit_id raw) s' = Some b /\ hb_raw b = raw /\ hb_decision b = d;
  rb_keep : forall raw d s r s' id b, commit_bundle st raw d s = (r, s') -> get_by_audit_id st id s = Some b -> get_by_audit_id st id s' = Some b;
  rb_refuse : forall raw d s e s', commit_bundle st raw d s = (Err e, s') -> s' = s }.
(** [NoopHarvestAuditStore]. *)
Definition noop_store : HarvestAuditStore unit := mkAuditStore unit false (fun _ _ s => (Ok Inserted, s)) (fun _ _ => None).

Definition commit_harvested_completion {S} (context : TurnContext) (mode : HarvestSanitizationMode) (capability : PrefixAttestationCapability)
  (producer_id : bytes) (origin : CompletionBodyOrigin) (raw_body : bytes) (status : PrefixAttestationStatus) (store : HarvestAuditStore S) (s : S)
  : result CommittedHarvest CompletionCommitError * S :=
  let task_id := context_task_id context in
  let run_id := tc_session_id context in
  let node_id := context_node_id context in
  let turn_id := tc_turn_id context in
  match audit_id_for run_id node_id (tc_attempt context) turn_id with
  | Err source => (Err (mkCommitError (of_str "apc1_encoding_failed") source), s)
  | Ok audit_id =>
      let outcome := sanitize_harvest mode origin capability producer_id turn_id raw_body status in
      let raw_len_bytes := blen raw_body in
      let raw_body_sha256 := sha256 raw_body in
      match provenance_sha256 context mode capability producer_id with
      | Err source => (Err (mkCommitError audit_id source), s)
      | Ok provenance =>
          let decision := mkDecision HARVEST_SCHEMA_VERSION audit_id mode (so_decision outcome) (so_reason outcome) node_id producer_id (so_issuer_id outcome)
            raw_body_sha256 (sha256 (so_effective_body outcome)) raw_len_bytes (blen (so_effective_body outcome)) (so_cut_byte_offset outcome) provenance
            SUSPICIOUS_THRESHOLD_PERCENT in
          let committed := mkCommitted audit_id (so_effective_body outcome) decision in
          if bool_decide (mode = HarvestOff) && negb (retains_audit_records store) then (Ok committed, s)
          else
            let raw := mkRaw HARVEST_SCHEMA_VERSION audit_id task_id run_id node_id (tc_attempt context) turn_id (tc_agent context) producer_id capability
              raw_body raw_len_bytes raw_body_sha256 (so_status outcome) provenance in
            match commit_bundle store raw decision s with
            | (Err source, s) => (Err (mkCommitError audit_id source), s)
            | (Ok _, s) => (Ok committed, s)
            end
      end
  end.
End Hash.
Arguments retains_audit_records {S}.
Arguments commit_bundle {S}.
Arguments get_by_audit_id {S}.
(** [BridgeError::from]. *)
Definition bridge_error (e : CompletionCommitError) : BridgeError := HarvestAuditPersistFailed (String.string_of_list_byte (ce_audit_id e)).

(** ** The memory store *)
Notation HarvestAttemptKey := (bytes * bytes * N * bytes)%type.
Record HarvestMemoryState := mkMemory { hm_by_audit_id : gmap bytes HarvestAuditBundleV1; hm_by_attempt_key : gmap HarvestAttemptKey bytes }.
Definition harvest_attempt_key (raw : HarvestRawRecordV1) : HarvestAttemptKey := (hr_run_id raw, hr_node_id raw, hr_attempt_id raw, hr_turn_id raw).
Definition validate_harvest_bundle_shape (raw : HarvestRawRecordV1) (d : HarvestSanitizationDecisionV1) : result unit HarvestAuditStoreError :=
  if negb (bool_decide (hr_audit_id raw = hd_audit_id d)) then Err (Encoding "raw and decision audit_id differ")
  else if negb (hr_schema_version raw =? HARVEST_SCHEMA_VERSION)%N || negb (hd_schema_version d =? HARVEST_SCHEMA_VERSION)%N then Err (Encoding "unsupported harvest audit schema version")
  else Ok tt.
Definition mem_commit (now : Z) (raw : HarvestRawRecordV1) (d : HarvestSanitizationDecisionV1) (s : HarvestMemoryState) : result HarvestAuditCommit HarvestAuditStoreError * HarvestMemoryState :=
  match validate_harvest_bundle_shape raw d with
  | Err e => (Err e, s)
  | Ok _ =>
      let key := harvest_attempt_key raw in
      if match hm_by_attempt_key s !! key with Some existing_id => negb (bool_decide (existing_id = hr_audit_id raw)) | None => false end
      then (Err (IntegrityConflict (hr_audit_id raw)), s)
      else match hm_by_audit_id s !! hr_audit_id raw with
      | Some existing =>
          if bool_decide (hb_raw existing = raw) && bool_decide (hb_decision existing = d) then (Ok AlreadyPresentIdentical, s)
          else (Err (IntegrityConflict (hr_audit_id raw)), s)
      | None => (Ok Inserted, mkMemory (<[hr_audit_id raw := mkBundle raw d now]> (hm_by_audit_id s)) (<[key := hr_audit_id raw]> (hm_by_attempt_key s)))
      end
  end.
Definition memory_store (now : Z) : HarvestAuditStore HarvestMemoryState := mkAuditStore _ true (mem_commit now) (fun id s => hm_by_audit_id s !! id).
Definition mem_by_attempt_key (key : HarvestAttemptKey) (s : HarvestMemoryState) : option HarvestAuditBundleV1 := id ← hm_by_attempt_key s !! key; hm_by_audit_id s !! id.
