(* ===== verification/HarvestTheory.v ===== *)
(** * What validation and audit guarantee

    A body is cut only by an attestation that passes every check; the cut keeps UTF-8
    and at least a tenth of the text; nothing is released before its audit is in the
    store; and the memory store keeps its promise. *)
From Stdlib Require Import Strings.Byte.
From S2P Require Import Prelude Domain WorkflowGraph Framing FramePath CustodyFrame FrameDecode Marker MarkerTheory MarkerQuote Json Harvest.
Open Scope Z_scope.
Open Scope bridge_scope.

Section Hash.
Context (sha256 : bytes -> bytes) (to_vec : Value -> result bytes string).
(** The attestation of a body that may be cut at its offset. *)
Record warranted (capability : PrefixAttestationCapability) (producer_id turn_id raw_body : bytes) (a : AttestedPrefix) : Prop := {
  wr_capability : capability = codex_commit_marker_v1;
  wr_issuer : ap_issuer_id a = ATTESTED_PREFIX_ISSUER_V1;
  wr_producer : ap_producer_id a = producer_id;
  wr_turn : ap_turn_id a = turn_id;
  wr_length : ap_body_len_bytes a = blen raw_body;
  wr_word : (blen raw_body <= Lsp.usize_max)%N;
  wr_digest : ap_body_sha256 a = sha256 raw_body;
  wr_prefix : (0 < ap_process_prefix_bytes a < blen raw_body)%N;
  wr_boundary : is_char_boundary raw_body (ap_process_prefix_bytes a) = true;
  wr_share : (ap_process_prefix_bytes a * 100 <= blen raw_body * 90)%N }.
Lemma supported_is c : is_supported_v1 c = true <-> c = codex_commit_marker_v1.
Proof. destruct c as [i []|r]; simpl; [|done]. rewrite bool_decide_eq_true. unfold codex_commit_marker_v1. split; [by intros ->|by intros [= ->]]. Qed.
Lemma to_usize_some n k : to_usize n = Some k <-> k = n /\ (n <= Lsp.usize_max)%N.
Proof. unfold to_usize. destruct (N.leb_spec n Lsp.usize_max); split; [intros [= ->]; done|intros [-> _]; done|done|intros [_ ?]; lia]. Qed.
Lemma validate_cut c p t raw a : so_decision (validate_attested sha256 c p t raw a) = CutAttested <-> warranted c p t raw a.
Proof.
  unfold validate_attested. split.
  - repeat (case_match; try done); intros _. repeat match goal with H : negb _ = false |- _ => apply negb_false_iff in H end.
    repeat match goal with H : bool_decide _ = true |- _ => apply bool_decide_eq_true in H end.
    repeat match goal with H : to_usize _ = Some _ |- _ => apply to_usize_some in H as [-> ?] end. repeat match goal with H : is_supported_v1 _ = true |- _ => apply supported_is in H end.
    repeat match goal with H : (_ =? _)%N = _ |- _ => first [apply N.eqb_eq in H | apply N.eqb_neq in H] | H : (_ <? _)%N = _ |- _ => apply N.ltb_ge in H end. split; try done; lia.
  - intros [-> Hi Hp Ht Hl Hw Hd Hk Hb Hs]. rewrite !bool_decide_eq_true_2, (proj2 (supported_is _)) by done. cbn [negb].
    rewrite (proj2 (to_usize_some _ (blen raw))) by (by rewrite Hl). rewrite N.eqb_refl. cbn [negb]. rewrite (proj2 (to_usize_some _ (ap_process_prefix_bytes a))) by (split; [done|lia]).
    rewrite Hb. rewrite (proj2 (N.ltb_ge _ _)), (proj2 (N.eqb_neq _ _)), (proj2 (N.ltb_ge _ _)), (proj2 (N.eqb_neq _ _)) by lia. done.
Qed.
Lemma validate_body c p t raw a : let o := validate_attested sha256 c p t raw a in
  so_effective_body o = if bool_decide (so_decision o = CutAttested) then drop (N.to_nat (ap_process_prefix_bytes a)) raw else raw.
Proof.
  simpl. unfold validate_attested. repeat (case_match; try done). repeat match goal with H : to_usize _ = Some _ |- _ => apply to_usize_some in H as [-> ?] end. done.
Qed.
Lemma utf8_head_not_continuation b l : utf8_valid (b :: l) = true -> continuation b = false.
Proof.
  intros Hv. destruct (continuation b) eqn:Ec; [|done]. pose proof (continuation_high b Ec) as Hh. rewrite utf8_valid_next in Hv. destruct (utf8_next (b :: l)) as [r|] eqn:En; [|done]. exfalso. clear -Ec Hh En.
  unfold utf8_next, three_byte_start, four_byte_start in En. unfold is_ascii in Hh. rewrite Hh in En. unfold continuation in *. apply range_facts in Ec.
  assert (forall lo hi, (191 < lo)%N -> in_range b lo hi = false) as Hr by (intros lo hi Hlo; apply not_true_iff_false; rewrite range_facts; lia).
  rewrite !Hr in En by done. simpl in En. by destruct l as [|? [|? [|]]].
Qed.
Lemma boundary_suffix raw k : utf8_valid raw = true -> is_char_boundary raw k = true -> (k < blen raw)%N -> utf8_valid (drop (N.to_nat k) raw) = true.
Proof.
  intros Hv Hb Hk. apply utf8_suffix; [done|]. intros b Hl. unfold is_char_boundary in Hb. destruct (N.eqb_spec k 0) as [->|Hk0].
  - destruct raw as [|c raw]; [done|]. simpl in Hl. injection Hl as ->. by eapply utf8_head_not_continuation.
  - rewrite (proj2 (N.leb_gt _ _)), Hl in Hb by done. by apply negb_true_iff in Hb.
Qed.

(** C16: A completion's body is cut if and only if the mode is on, the body is the model's text, and
    the wrapper's status is an attestation that passes every check (capability, issuer,
    producer, turn, length, digest, an offset inside the body at a character boundary,
    at most nine tenths); what is released is then the text after the offset, and the
    whole body in every other case; released text is well-formed UTF-8 and at least a
    tenth of the body. *)
Theorem cut_only_when_attested mode origin c p t raw status : utf8_valid raw = true -> let o := sanitize_harvest sha256 mode origin c p t raw status in
  (so_decision o = CutAttested <-> mode = AttestedPrefixV1 /\ origin = ModelText /\ exists a, status = AttestedV1 a /\ warranted c p t raw a) /\
  (forall a, status = AttestedV1 a -> so_decision o = CutAttested -> so_effective_body o = drop (N.to_nat (ap_process_prefix_bytes a)) raw /\ so_cut_byte_offset o = Some (ap_process_prefix_bytes a)) /\
  (so_decision o <> CutAttested -> so_effective_body o = raw) /\
  utf8_valid (so_effective_body o) = true /\ (blen raw <= 10 * blen (so_effective_body o))%N.
Proof.
  intros Hv o. unfold o, sanitize_harvest. destruct mode; [split_and!; try done; [split; [done|intros (? & _); done]|cbn [so_effective_body]; lia]|].
  destruct (synthetic_reason origin) as [reason|] eqn:Eo; [split_and!; try done; [split; [done|intros (_ & -> & _); done]|cbn [so_effective_body]; lia]|].
  assert (origin = ModelText) as -> by (by destruct origin). destruct status as [a|no|r].
  2,3: split_and!; try done; [split; [done|intros (_ & _ & ? & ? & _); done]|cbn [so_effective_body]; lia].
  pose proof (validate_cut c p t raw a) as Hc. pose proof (validate_body c p t raw a) as Hb. set (v := validate_attested sha256 c p t raw a) in *. cbv zeta in Hb. case_bool_decide as Hd.
  - pose proof (proj1 Hc Hd) as W. split_and!; [split; [by eauto 6|done]| |done| |].
    + intros a' [= <-] _. split; [done|]. clear -Hd. unfold v, validate_attested in *. repeat (case_match; try done).
    + rewrite Hb. apply boundary_suffix; [done|apply W|apply W].
    + rewrite Hb. unfold blen. rewrite length_drop. pose proof (wr_prefix _ _ _ _ _ W) as Hp. pose proof (wr_share _ _ _ _ _ W) as Hs. unfold blen in *. lia.
  - split_and!; [split; [done|intros (_ & _ & a' & [= <-] & W); by apply Hc]|done|done|by rewrite Hb|rewrite Hb; lia].
Qed.

(** ** Audit before release *)
Lemma sanitize_suffix mode origin c p t raw status : let o := sanitize_harvest sha256 mode origin c p t raw status in so_effective_body o = drop (N.to_nat (default 0%N (so_cut_byte_offset o))) raw.
Proof.
  simpl. unfold sanitize_harvest. destruct mode; [done|]. destruct (synthetic_reason origin); [done|]. destruct status as [a| |]; [|done|done]. unfold validate_attested.
  repeat (case_match; try done). repeat match goal with H : to_usize _ = Some _ |- _ => apply to_usize_some in H as [-> ?] end. done.
Qed.
(** The two records of a completion, and the call as one commit of them. *)
Definition decision_of (ctx : TurnContext) mode cap p origin raw status (id pv : bytes) : HarvestSanitizationDecisionV1 :=
  let o := sanitize_harvest sha256 mode origin cap p (tc_turn_id ctx) raw status in
  mkDecision HARVEST_SCHEMA_VERSION id mode (so_decision o) (so_reason o) (context_node_id ctx) p (so_issuer_id o) (sha256 raw) (sha256 (so_effective_body o)) (blen raw) (blen (so_effective_body o))
    (so_cut_byte_offset o) pv SUSPICIOUS_THRESHOLD_PERCENT.
Definition raw_of (ctx : TurnContext) mode cap p origin raw status (id pv : bytes) : HarvestRawRecordV1 :=
  mkRaw HARVEST_SCHEMA_VERSION id (context_task_id ctx) (tc_session_id ctx) (context_node_id ctx) (tc_attempt ctx) (tc_turn_id ctx) (tc_agent ctx) p cap raw (blen raw) (sha256 raw)
    (so_status (sanitize_harvest sha256 mode origin cap p (tc_turn_id ctx) raw status)) pv.
Definition id_of (ctx : TurnContext) : result bytes HarvestAuditStoreError := audit_id_for sha256 (tc_session_id ctx) (context_node_id ctx) (tc_attempt ctx) (tc_turn_id ctx).
Lemma commit_is {S} (st : HarvestAuditStore S) ctx mode cap p origin raw status s : retains_audit_records st = true ->
  commit_harvested_completion sha256 to_vec ctx mode cap p origin raw status st s =
  match id_of ctx with
  | Err e => (Err (mkCommitError (of_str "apc1_encoding_failed") e), s)
  | Ok id =>
      match provenance_sha256 sha256 to_vec ctx mode cap p with
      | Err e => (Err (mkCommitError id e), s)
      | Ok pv =>
          let d := decision_of ctx mode cap p origin raw status id pv in
          match commit_bundle st (raw_of ctx mode cap p origin raw status id pv) d s with
          | (Err e, s) => (Err (mkCommitError id e), s)
          | (Ok _, s) => (Ok (mkCommitted id (so_effective_body (sanitize_harvest sha256 mode origin cap p (tc_turn_id ctx) raw status)) d), s)
          end
      end
  end.
Proof. intros H. unfold commit_harvested_completion, id_of. rewrite H, andb_false_r. done. Qed.
(** What an audited release looks like. *)
Record audited (mode : HarvestSanitizationMode) (raw : bytes) (c : CommittedHarvest) (b : HarvestAuditBundleV1) : Prop := {
  au_decision : hb_decision b = ch_decision c;
  au_ids : hr_audit_id (hb_raw b) = ch_audit_id c /\ hd_audit_id (hb_decision b) = ch_audit_id c;
  au_raw : hr_raw_body (hb_raw b) = raw;
  au_mode : hd_mode (hb_decision b) = mode;
  au_release : ch_effective_body c = drop (N.to_nat (default 0%N (hd_cut_byte_offset (hb_decision b)))) raw;
  au_digests : hd_raw_body_sha256 (hb_decision b) = sha256 raw /\ hd_effective_body_sha256 (hb_decision b) = sha256 (ch_effective_body c);
  au_lengths : hd_raw_len_bytes (hb_decision b) = blen raw /\ hd_effective_len_bytes (hb_decision b) = blen (ch_effective_body c) }.
Lemma commit_ok {S} (st : HarvestAuditStore S) `{!RetainsBundles st} ctx mode cap p origin raw status s c s' :
  commit_harvested_completion sha256 to_vec ctx mode cap p origin raw status st s = (Ok c, s') -> exists b, get_by_audit_id st (ch_audit_id c) s' = Some b /\ audited mode raw c b.
Proof.
  rewrite (commit_is st) by apply rb_retains. cbv zeta. destruct (id_of ctx) as [id|e]; [|done]. destruct (provenance_sha256 _ _ _ _ _ _) as [pv|e]; [|done].
  destruct (commit_bundle st _ _ s) as [[k|e] s1] eqn:E; [|done]. intros [= <- <-]. destruct (rb_commit _ _ _ _ _ E) as (b & Hb & Hr & Hd). exists b. split; [done|].
  split; rewrite ?Hr, ?Hd; try done. apply sanitize_suffix.
Qed.
(** C17: With a store that retains its records, no completion is released before its audit is in
    the store: the bundle under the returned id holds the whole raw body and the
    returned decision, the released text is the raw body from the recorded cut on, and
    lengths and digests are those of the two texts; a refused commit leaves the store
    as it was; and no earlier bundle is lost either way. *)
Theorem release_is_audited {S} (st : HarvestAuditStore S) `{!RetainsBundles st} ctx mode cap p origin raw status s r s' :
  commit_harvested_completion sha256 to_vec ctx mode cap p origin raw status st s = (r, s') ->
  match r with Ok c => exists b, get_by_audit_id st (ch_audit_id c) s' = Some b /\ audited mode raw c b | Err _ => s' = s end /\
  forall id b, get_by_audit_id st id s = Some b -> get_by_audit_id st id s' = Some b.
Proof.
  intros H. split; [destruct r as [c|e]; [by eapply commit_ok|]|intros id b Hb]; revert H; rewrite (commit_is st) by apply rb_retains; cbv zeta;
    (destruct (id_of ctx); [|by intros [= _ ->]]); (destruct (provenance_sha256 _ _ _ _ _ _); [|by intros [= _ ->]]); destruct (commit_bundle st _ _ s) as [[k|x] s1] eqn:E; try done; intros [= _ ->];
    [by eapply rb_refuse|by eapply rb_keep|by eapply rb_keep].
Qed.

(** ** The memory store *)
#[global] Instance memory_retains now : RetainsBundles (memory_store now).
Proof.
  split; [done|..]; unfold memory_store; cbn [commit_bundle get_by_audit_id]; unfold mem_commit.
  - intros raw d s c s'. destruct (validate_harvest_bundle_shape raw d); [|done]. case_match; [done|]. destruct (hm_by_audit_id s !! hr_audit_id raw) as [b|] eqn:E.
    + destruct (bool_decide (hb_raw b = raw)) eqn:H1; [|done]. destruct (bool_decide (hb_decision b = d)) eqn:H2; [|done]. apply bool_decide_eq_true in H1, H2. intros [= _ <-]. eauto.
    + intros [= _ <-]. simpl. rewrite lookup_insert_eq. eauto.
  - intros raw d s r s' id b H Hb. repeat (case_match; simplify_eq/=; try done). all: by rewrite lookup_insert_ne by congruence.
  - intros raw d s e s' H. repeat (case_match; simplify_eq/=; try done).
Qed.
(** Any sequence of commits. *)
Definition mem_run (ops : list (Z * HarvestRawRecordV1 * HarvestSanitizationDecisionV1)) (s : HarvestMemoryState) : HarvestMemoryState :=
  fold_left (fun s op => snd (mem_commit (fst (fst op)) (snd (fst op)) (snd op) s)) ops s.
Definition mem_empty : HarvestMemoryState := mkMemory ∅ ∅.
(** Every bundle is filed under its own id and under its attempt. *)
Definition mem_ok (s : HarvestMemoryState) : Prop :=
  forall id b, hm_by_audit_id s !! id = Some b -> hr_audit_id (hb_raw b) = id /\ hm_by_attempt_key s !! harvest_attempt_key (hb_raw b) = Some id.
Lemma mem_commit_cases now raw d s r s' : mem_commit now raw d s = (r, s') ->
  s' = s \/ r = Ok Inserted /\ hm_by_audit_id s !! hr_audit_id raw = None /\ (forall e, hm_by_attempt_key s !! harvest_attempt_key raw = Some e -> e = hr_audit_id raw) /\
    s' = mkMemory (<[hr_audit_id raw := mkBundle raw d now]> (hm_by_audit_id s)) (<[harvest_attempt_key raw := hr_audit_id raw]> (hm_by_attempt_key s)).
Proof.
  unfold mem_commit. destruct (validate_harvest_bundle_shape raw d); [|intros [= _ <-]; by left].
  destruct (match hm_by_attempt_key s !! harvest_attempt_key raw with Some _ => _ | None => _ end) eqn:Ek; [intros [= _ <-]; by left|].
  destruct (hm_by_audit_id s !! hr_audit_id raw) as [b0|]; [destruct (bool_decide _ && bool_decide _); intros [= _ <-]; by left|]. intros [= <- <-]. right. split_and!; [done|done| |done]. intros e He. rewrite He in Ek. by apply negb_false_iff, bool_decide_eq_true in Ek.
Qed.
Lemma mem_commit_ok now raw d s : mem_ok s -> mem_ok (snd (mem_commit now raw d s)).
Proof.
  intros Hs. destruct (mem_commit now raw d s) as [r s'] eqn:E. destruct (mem_commit_cases _ _ _ _ _ _ E) as [->|(_ & Hn & Hk & ->)]; [done|]. intros id b. simpl.
  destruct (decide (hr_audit_id raw = id)) as [<-|Hne]; [rewrite lookup_insert_eq; intros [= <-]; simpl; by rewrite lookup_insert_eq|]. rewrite lookup_insert_ne by done. intros Hb. destruct (Hs _ _ Hb) as [H1 H2]. split; [done|].
  rewrite lookup_insert_ne; [done|]. intros Eq. rewrite <- Eq in H2. apply Hk in H2. congruence.
Qed.
Lemma mem_commit_keeps now raw d s id b : hm_by_audit_id s !! id = Some b -> hm_by_audit_id (snd (mem_commit now raw d s)) !! id = Some b.
Proof. intros H. destruct (mem_commit now raw d s) as [r s'] eqn:E. by eapply (rb_keep (st := memory_store now)). Qed.
Lemma mem_run_ok ops s : mem_ok s -> mem_ok (mem_run ops s).
Proof. revert s. induction ops as [|op ops IH]; intros s Hs; [done|]. simpl. by apply IH, mem_commit_ok. Qed.
Lemma mem_run_keeps ops s id b : hm_by_audit_id s !! id = Some b -> hm_by_audit_id (mem_run ops s) !! id = Some b.
Proof. revert s. induction ops as [|op ops IH]; intros s Hs; [done|]. simpl. by apply IH, mem_commit_keeps. Qed.
(** A bundle that is filed decides later commits of its attempt. *)
Lemma mem_commit_again now raw d s b : mem_ok s -> hm_by_audit_id s !! hr_audit_id raw = Some b -> harvest_attempt_key (hb_raw b) = harvest_attempt_key raw -> validate_harvest_bundle_shape raw d = Ok tt ->
  mem_commit now raw d s = (if bool_decide (hb_raw b = raw) && bool_decide (hb_decision b = d) then Ok AlreadyPresentIdentical else Err (IntegrityConflict (hr_audit_id raw)), s).
Proof.
  intros Hs Hb Hk Hv. destruct (Hs _ _ Hb) as [_ H2]. unfold mem_commit. rewrite Hv, <- Hk, H2, Hb. rewrite bool_decide_eq_true_2 by done. simpl. by case_match.
Qed.
(** C18: In the memory store the first completion of an attempt stands. Whatever commits came before
    it and between, completing the same attempt again changes nothing: with the same
    inputs it returns the same release, and where the raw record or the decision would
    differ it is refused; so an attempt never has two releases. *)
Theorem first_completion_stands now now' before between ctx mode cap p origin raw status c s1 mode' cap' p' origin' raw' status' :
  commit_harvested_completion sha256 to_vec ctx mode cap p origin raw status (memory_store now) (mem_run before mem_empty) = (Ok c, s1) ->
  let again := commit_harvested_completion sha256 to_vec ctx mode' cap' p' origin' raw' status' (memory_store now') (mem_run between s1) in
  snd again = mem_run between s1 /\
  match fst again with Ok c' => c' = c /\ raw' = raw | Err e => ce_audit_id e = ch_audit_id c end /\
  (mode' = mode -> cap' = cap -> p' = p -> origin' = origin -> raw' = raw -> status' = status -> fst again = Ok c).
Proof.
  set (s := mem_run before mem_empty). assert (mem_ok s) as Hs by (apply mem_run_ok; intros id b Hb; done). rewrite !(commit_is (memory_store _)) by done. cbv zeta.
  destruct (id_of ctx) as [id|]; [|done]. destruct (provenance_sha256 sha256 to_vec ctx mode cap p) as [pv|] eqn:Epv; [|done]. cbn [memory_store commit_bundle].
  destruct (mem_commit now _ _ s) as [[k|x] s1'] eqn:E; [|done]. intros [= <- <-]. destruct (rb_commit (st := memory_store now) _ _ _ _ _ E) as (b & Hb & Hr & Hd). cbn [memory_store get_by_audit_id] in Hb.
  pose proof (mem_commit_ok now (raw_of ctx mode cap p origin raw status id pv) (decision_of ctx mode cap p origin raw status id pv) s Hs) as Hs1. rewrite E in Hs1. cbn [snd] in Hs1.
  pose proof (mem_run_keeps between _ _ _ Hb) as Hb2. pose proof (mem_run_ok between _ Hs1) as Hs2. destruct (provenance_sha256 sha256 to_vec ctx mode' cap' p') as [pv'|e'] eqn:Epv'.
  2: { split_and!; [done|done|]. intros -> -> -> _ _ _. congruence. }
  rewrite (mem_commit_again now' (raw_of ctx mode' cap' p' origin' raw' status' id pv') (decision_of ctx mode' cap' p' origin' raw' status' id pv') _ b Hs2 Hb2 ltac:(by rewrite Hr) ltac:(unfold validate_harvest_bundle_shape; cbn; by rewrite bool_decide_eq_true_2)).
  rewrite Hr, Hd. destruct (bool_decide (raw_of _ _ _ _ _ _ _ _ _ = _) && _) eqn:Eq.
  - apply andb_true_iff in Eq as [E1%bool_decide_eq_true E2%bool_decide_eq_true]. cbn [fst snd]. pose proof (f_equal hr_raw_body E1) as Er. pose proof (f_equal hd_cut_byte_offset E2) as Ec. simpl in Er, Ec. split_and!; [done| |done|].
    + by rewrite <- E2, !sanitize_suffix, Ec, Er.
    + intros -> -> -> -> -> ->. by rewrite <- E2.
  - split_and!; [done|done|]. intros -> -> -> -> -> ->. rewrite Epv in Epv'. injection Epv' as <-. by rewrite !bool_decide_eq_true_2 in Eq.
Qed.
End Hash.
Definition pad_sha (b : bytes) : bytes := take 32 (b ++ replicate 32 x00).
Definition demo_body : bytes := of_str "thinking... done: 42".
Definition demo_attested : AttestedPrefix := mkAttested ATTESTED_PREFIX_ISSUER_V1 (of_str "codex") (of_str "turn_1") 20 (pad_sha demo_body) 12.
Definition demo_context : TurnContext := mkTurnContext (of_str "turn_1") (of_str "run") None None None 0 (of_str "codex") None None None None None.
Lemma cut_only_when_attested_witness : so_effective_body (sanitize_harvest pad_sha AttestedPrefixV1 ModelText codex_commit_marker_v1 (of_str "codex") (of_str "turn_1") demo_body (AttestedV1 demo_attested)) = of_str "done: 42" /\
  utf8_valid (so_effective_body (sanitize_harvest pad_sha AttestedPrefixV1 ModelText codex_commit_marker_v1 (of_str "codex") (of_str "turn_1") demo_body (AttestedV1 demo_attested))) = true.
Proof.
  split; [vm_compute; reflexivity|].
  exact (proj1 (proj2 (proj2 (proj2 (cut_only_when_attested pad_sha AttestedPrefixV1 ModelText codex_commit_marker_v1 (of_str "codex") (of_str "turn_1") demo_body (AttestedV1 demo_attested) ltac:(vm_compute; reflexivity)))))).
Defined.
Definition demo_json (v : Value) : result bytes string := Ok [].
Definition demo_commit : result CommittedHarvest CompletionCommitError * HarvestMemoryState :=
  commit_harvested_completion pad_sha demo_json demo_context AttestedPrefixV1 codex_commit_marker_v1 (of_str "codex") ModelText demo_body (AttestedV1 demo_attested) (memory_store 5) (mem_run [] mem_empty).
Lemma release_is_audited_witness :
  match fst demo_commit with Ok c => exists b, get_by_audit_id (memory_store 5) (ch_audit_id c) (snd demo_commit) = Some b /\ audited pad_sha AttestedPrefixV1 demo_body c b | Err _ => snd demo_commit = mem_empty end /\
  match fst demo_commit with Ok c => ch_effective_body c = of_str "done: 42" | Err _ => False end.
Proof.
  split; [|vm_compute; reflexivity].
  exact (proj1 (release_is_audited pad_sha demo_json (memory_store 5) demo_context AttestedPrefixV1 codex_commit_marker_v1 (of_str "codex") ModelText demo_body (AttestedV1 demo_attested) mem_empty (fst demo_commit) (snd demo_commit) ltac:(vm_compute; reflexivity))).
Defined.
Definition demo_released : CommittedHarvest := match fst demo_commit with Ok c => c | Err _ => mkCommitted [] [] (decision_of pad_sha demo_context HarvestOff codex_commit_marker_v1 [] ModelText [] (AttestedV1 demo_attested) [] []) end.
Lemma first_completion_stands_witness :
  snd (commit_harvested_completion pad_sha demo_json demo_context AttestedPrefixV1 codex_commit_marker_v1 (of_str "codex") ModelText (of_str "another text") (AttestedV1 demo_attested) (memory_store 9) (mem_run [] (snd demo_commit))) = snd demo_commit.
Proof.
  exact (proj1 (first_completion_stands pad_sha demo_json 5 9 [] [] demo_context AttestedPrefixV1 codex_commit_marker_v1 (of_str "codex") ModelText demo_body (AttestedV1 demo_attested) demo_released (snd demo_commit)
    AttestedPrefixV1 codex_commit_marker_v1 (of_str "codex") ModelText (of_str "another text") (AttestedV1 demo_attested) ltac:(vm_compute; reflexivity))).
Defined.
