(* ===== verification/Wrapper.v ===== *)
(** * The attesting wrapper ([bin/a2a-bridge/src/acp/attested_wrapper.rs])

    A proxy between the bridge and an agent process: private methods, one turn per
    session, the buffer of a turn with its spool, the flush of a finished turn, and
    the two proxy loops as steps over shared state. The JSON reader and writer and
    SHA-256 are parameters; a frame is its bytes with their delimiter. *)
From Stdlib Require Import Strings.Byte.
From S2P Require Import Prelude Domain WorkflowGraph Framing FramePath CustodyFrame Marker MarkerQuote Json Harvest.
Open Scope Z_scope.
Open Scope bridge_scope.

Notation DynError := string.
(** ** The buffer of a turn *)
Definition FRAME_MEMORY_LIMIT_BYTES : N := 1024 * 1024.
Record SpoolFile := mkSpool { sp_file : bytes; sp_count : nat }.
Record FrameBuffer := mkBuffer { fb_frames : list bytes; fb_memory_bytes : N; fb_spool : option SpoolFile }.
Definition buffer_new : FrameBuffer := mkBuffer [] 0 None.
Definition spool_write_frame (frame : bytes) (sp : SpoolFile) : SpoolFile := mkSpool (sp_file sp ++ to_le 8 (Z.of_N (blen frame)) ++ frame) (S (sp_count sp)).
(** [usize::checked_add]. *)
Definition checked_add (a b : N) : option N := if (a + b <=? Lsp.usize_max)%N then Some (a + b)%N else None.
(** [fault]: the file system refuses an operation on the spool. *)
Definition push_frame (fault : option DynError) (frame : bytes) (b : FrameBuffer) : result FrameBuffer DynError :=
  let entry_bytes := blen frame in
  match fb_spool b with
  | None =>
      if match checked_add (fb_memory_bytes b) entry_bytes with Some n => (n <=? FRAME_MEMORY_LIMIT_BYTES)%N | None => false end
      then Ok (mkBuffer (fb_frames b ++ [frame]) (fb_memory_bytes b + entry_bytes) None)
      else match fault with
      | Some e => Err e
      | None => Ok (mkBuffer [] 0 (Some (spool_write_frame frame (fold_left (fun sp buffered => spool_write_frame buffered sp) (fb_frames b) (mkSpool [] 0)))))
      end
  | Some sp => match fault with Some e => Err e | None => Ok (mkBuffer (fb_frames b) (fb_memory_bytes b) (Some (spool_write_frame frame sp))) end
  end.
(** [rest]: what of the file is not read yet. *)
Fixpoint read_loop (count : nat) (rest : bytes) : result (list bytes) DynError :=
  match count with
  | O => match rest with [] => Ok [] | _ => Err "attested-prefix spool frame count mismatch" end
  | S count =>
      if (length rest <? 8)%nat then Err "attested-prefix spool frame count mismatch"
      else
        let frame_len := from_le (take 8 rest) in
        let rest := drop 8 rest in
        if Z.of_nat (length rest) <? frame_len then Err "attested-prefix spool frame truncated"
        else let? frames := read_loop count (drop (Z.to_nat frame_len) rest) in Ok (take (Z.to_nat frame_len) rest :: frames)
  end.
Definition into_frames (fault : option DynError) (b : FrameBuffer) : result (list bytes) DynError :=
  match fb_spool b with
  | Some sp => match fault with Some e => Err e | None => read_loop (sp_count sp) (sp_file sp) end
  | None => Ok (fb_frames b)
  end.

(** ** State *)
Record TurnConfig := mkTurn { tn_session_id : bytes; tn_turn_id : bytes; tn_marker_nonce : bytes; tn_marker : bytes; tn_enabled : bool }.
Record PromptBuffer := mkPrompt { pb_request_id : Value; pb_session_id : bytes; pb_turn : TurnConfig; pb_frames : FrameBuffer }.
Record PerSessionState := mkSession { ps_active_turn : option TurnConfig; ps_prompt : option PromptBuffer }.
Definition session_default : PerSessionState := mkSession None None.
(** The sessions; the map iterates over them in any order. *)
Notation WrapperState := (list (bytes * PerSessionState)).
Fixpoint session (id : bytes) (w : WrapperState) : option PerSessionState :=
  match w with [] => None | (k, s) :: w => if bool_decide (k = id) then Some s else session id w end.
(** [entry(id).or_default()], then an assignment. *)
Fixpoint put_session (id : bytes) (s : PerSessionState) (w : WrapperState) : WrapperState :=
  match w with [] => [(id, s)] | (k, s0) :: w => if bool_decide (k = id) then (k, s) :: w else (k, s0) :: put_session id s w end.

(** ** Frames *)
Definition agent_text_chunk (v : Value) : option bytes :=
  update ← (get "params" v ≫= get "update");
  kind ← (get "sessionUpdate" update ≫= as_str);
  if bool_decide (kind = of_str "agent_message_chunk") then
    content ← get "content" update;
    type ← (get "type" content ≫= as_str);
    if bool_decide (type = of_str "text") then get "text" content ≫= as_str else None
  else None.
Definition set_agent_text_chunk (v : Value) (text : bytes) : Value := set_path ["params"; "update"; "content"; "text"] (JStr text) v.
Definition has_id (id v : Value) : bool := match get "id" v with Some w => value_eqb w id | None => false end.
Definition present (v : option Value) : bool := match v with Some _ => true | None => false end.
Definition is_prompt_terminal (v id : Value) : bool := has_id id v && (present (get "result" v) || present (get "error" v)).
Definition is_successful_prompt_terminal (v id : Value) : bool :=
  has_id id v && match (get "result" v ≫= get "stopReason") ≫= as_str with Some _ => true | None => false end.
Definition should_buffer_prompt_frame (v : Value) : bool := str_is "session/update" (get "method" v) && negb (present (get "id" v)).
Definition frame_session_id (v : Value) : option bytes := (get "params" v ≫= get "sessionId") ≫= as_str.
Definition ends_with (tail bs : bytes) : bool := bool_decide (drop (length bs - length tail) bs = tail).
Definition frame_delimiter (frame : bytes) : bytes := if ends_with [CR; NL] frame then [CR; NL] else if ends_with [NL] frame then [NL] else [].
Definition valid_turn_id (raw : bytes) : bool := (length raw =? 37)%nat && begins (of_str "turn_") raw && forallb hex_lower_byte (drop 5 raw).
Definition rpc_error (id : Value) (code : Z) (message : string) : Value :=
  JObj [("jsonrpc", js "2.0"); ("id", id); ("error", JObj [("code", JNum (if code <? 0 then NNeg code else NPos (Z.to_N code))); ("message", js message)])].
Definition request_id (v : Value) : Value := default JNull (get "id" v).

(** ** Turns *)
Definition parse_begin_turn_params (params : Map) : option TurnConfig :=
  if negb (bool_decide (field "schema_version" params ≫= as_u64 = Some 1%N)) then None
  else
    session_id ← (match field "session_id" params with Some v => Some v | None => field "sessionId" params end) ≫= as_str;
    turn_id ← field "turn_id" params ≫= as_str;
    enabled ← field "enabled" params ≫= as_bool;
    marker_nonce ← field "marker_nonce" params ≫= as_str;
    if bool_decide (session_id = []) || negb (valid_turn_id turn_id) || negb (valid_nonce marker_nonce) then None
    else Some (mkTurn session_id turn_id marker_nonce (commit_marker marker_nonce) enabled).
(** The reply, the state, and the turn that was accepted. *)
Definition handle_begin_turn (v : Value) (w : WrapperState) : Value * WrapperState * option TurnConfig :=
  let id := request_id v in
  match (get "params" v ≫= as_object) ≫= parse_begin_turn_params with
  | None => (rpc_error id (-32602) "invalid attested-prefix beginTurn params", w, None)
  | Some turn =>
      let s := default session_default (session (tn_session_id turn) w) in
      if match ps_active_turn s, ps_prompt s with None, None => false | _, _ => true end
      then (rpc_error id (-32000) "attested-prefix turn already active", put_session (tn_session_id turn) s w, None)
      else (JObj [("jsonrpc", js "2.0"); ("id", id); ("result", JObj [("schema_version", JNum (NPos 1)); ("turn_id", JStr (tn_turn_id turn)); ("accepted", JBool true)])],
            put_session (tn_session_id turn) (mkSession (Some turn) (ps_prompt s)) w, Some turn)
  end.
Definition maybe_start_prompt_buffer (v : Value) (w : WrapperState) : WrapperState :=
  match get "id" v with
  | None => w
  | Some id =>
      match (get "params" v ≫= get "sessionId") ≫= as_str with
      | None => w
      | Some session_id =>
          match session session_id w with
          | None => w
          | Some s =>
              match ps_active_turn s with
              | None => w
              | Some turn =>
                  if bool_decide (tn_session_id turn = session_id)
                  then put_session session_id (mkSession None (Some (mkPrompt id session_id turn buffer_new))) w
                  else put_session session_id (mkSession (Some turn) (ps_prompt s)) w
              end
          end
      end
  end.

Section Proxy.
Context (parse : bytes -> option Value) (print : Value -> bytes) (sha256 : bytes -> bytes).
Definition serialize_json_frame (v : Value) (original : bytes) : bytes := print v ++ frame_delimiter original.
Definition json_line (v : Value) : bytes := print v ++ [NL].

(** ** The flush of a turn *)
(** A frame on its way to the bridge: a reply of the wrapper, a frame of the child, or the
    control frame of a turn. *)
Inductive Written := Reply (frame : bytes) | FromChild (frame : bytes) | ControlOf (turn : TurnConfig) (status : WrapperStatus) (frame : bytes).
Definition ISSUER_ID : string := "bridge.acp.codex.commit-wrapper.v1".
Definition control_meta (turn : TurnConfig) (body : bytes) (status : WrapperStatus) (prefix_bytes : nat) : Value :=
  match status with
  | Attested =>
      JObj [("schema_version", JNum (NPos 1)); ("kind", js "attested"); ("issuer_id", js ISSUER_ID); ("turn_id", JStr (tn_turn_id turn)); ("marker_nonce", JStr (tn_marker_nonce turn));
            ("process_prefix_bytes", JStr (Lsp.decimal (N.of_nat prefix_bytes))); ("body_len_bytes", JStr (Lsp.decimal (blen body))); ("body_sha256", JStr (hex_lower (sha256 body)))]
  | Unavailable reason =>
      JObj [("schema_version", JNum (NPos 1)); ("kind", js "unavailable"); ("issuer_id", js ISSUER_ID); ("turn_id", JStr (tn_turn_id turn)); ("marker_nonce", JStr (tn_marker_nonce turn)); ("reason", js reason)]
  end.
Definition control_params (p : PromptBuffer) (body : bytes) (status : WrapperStatus) (prefix_bytes : nat) : Value :=
  JObj [("sessionId", JStr (pb_session_id p));
        ("update", JObj [("sessionUpdate", js "agent_message_chunk"); ("messageId", JStr (of_str "_b2a_apc_control/" ++ tn_turn_id (pb_turn p)));
                         ("content", JObj [("type", js "text"); ("text", js "")]); ("_meta", JObj [(META_KEY, control_meta (pb_turn p) body status prefix_bytes)])])].
Definition control_frame (p : PromptBuffer) (body : bytes) (status : WrapperStatus) (prefix_bytes : nat) : Value :=
  JObj [("jsonrpc", js "2.0"); ("method", js "session/update"); ("params", control_params p body status prefix_bytes)].
Fixpoint parse_frames (frames : list bytes) : result (list (bytes * Value)) DynError :=
  match frames with
  | [] => Ok []
  | raw :: frames => match parse raw with None => Err "attested-prefix buffered frame corrupted" | Some v => let? fs := parse_frames frames in Ok ((raw, v) :: fs) end
  end.
(** The frames with their text, the others left alone. *)
Definition text_positions (frames : list (bytes * Value)) : list nat := omap (fun i => i) (imap (fun i f => match agent_text_chunk (snd f) with Some _ => Some i | None => None end) frames).
Definition text_chunks (frames : list (bytes * Value)) : list bytes := omap (fun f => agent_text_chunk (snd f)) frames.
Definition rewrite_frame (frames : list (bytes * Value)) (frame_idx : nat) (resolved original : bytes) : result (list (bytes * Value)) DynError :=
  if bool_decide (resolved = original) then Ok frames
  else match frames !! frame_idx with
  | None => Err "index out of bounds"
  | Some (raw, v) =>
      match from_utf8 resolved with
      | None => Err "invalid utf-8 sequence"
      | Some text => let v := set_agent_text_chunk v text in Ok (<[frame_idx := (serialize_json_frame v raw, v)]> frames)
      end
  end.
Fixpoint rewrite_frames (frames : list (bytes * Value)) (todo : list (nat * bytes * bytes)) : result (list (bytes * Value)) DynError :=
  match todo with
  | [] => Ok frames
  | (frame_idx, resolved, original) :: todo => let? frames := rewrite_frame frames frame_idx resolved original in rewrite_frames frames todo
  end.
(** [resolve_marker_chunks], or the text as it is where the turn does not ask for marker recognition. *)
Definition resolve_turn (turn : TurnConfig) (chunks : list bytes) : result MarkerFrameResolution DynError :=
  if tn_enabled turn then match resolve_marker_chunks chunks (tn_marker turn) with Some r => Ok r | None => Err "scan" end
  else Ok (mkResolution chunks (concat chunks) (Unavailable "sanitization_not_requested") 0).
Definition flush_prompt_buffer (fault : option DynError) (p : PromptBuffer) (terminal_raw : bytes) : result (list Written * WrapperStatus) DynError :=
  let? buffered := into_frames fault (pb_frames p) in
  let? frames := parse_frames buffered in
  let chunks := text_chunks frames in
  let? r := resolve_turn (pb_turn p) chunks in
  let? frames := rewrite_frames frames (zip (zip (text_positions frames) (rs_chunks r)) chunks) in
  Ok ((FromChild ∘ fst <$> frames) ++ [ControlOf (pb_turn p) (rs_status r) (json_line (control_frame p (rs_body r) (rs_status r) (rs_prefix_bytes r))); FromChild terminal_raw], rs_status r).

(** ** The proxy loops *)
(** One frame of the bridge: state, replies to the bridge, frames for the child, and the turn it began. *)
Definition bridge_frame (frame : bytes) (w : WrapperState) : WrapperState * list bytes * list bytes * option TurnConfig :=
  match parse frame with
  | None => (w, [], [frame], None)
  | Some v =>
      let method := get "method" v in
      if str_is "_b2a/apc-prefix/capabilities" method then
        (w, [json_line (JObj [("jsonrpc", js "2.0"); ("id", request_id v); ("result", JObj [("protocol_version", JNum (NPos 1)); ("issuer_id", js ISSUER_ID)])])], [], None)
      else if str_is "_b2a/apc-prefix/beginTurn" method then
        let '(reply, w, begun) := handle_begin_turn v w in (w, [json_line reply], [], begun)
      else if str_is "session/prompt" method then (maybe_start_prompt_buffer v w, [], [frame], None)
      else (w, [], [frame], None)
  end.
(** The child's frame as it is passed on, with its value. *)
Definition filter_frame (frame : bytes) (v : Value) : Value * bytes :=
  let '(v, removed) := strip_reserved_meta v in (v, if removed then serialize_json_frame v frame else frame).
Definition terminal_session (v : Value) (w : WrapperState) : option bytes :=
  fst <$> head (List.filter (fun e => match ps_prompt (snd e) with Some p => is_prompt_terminal v (pb_request_id p) | None => false end) w).
(** What a proxied frame leads to: frames for the bridge, and the turn that ended with how it
    ended ([None]: without an attestation). *)
Record ChildOut := mkOut { co_state : WrapperState; co_frames : list Written; co_ended : option (TurnConfig * option WrapperStatus) }.
(** [session.prompt.take()]. *)
Definition take_prompt (found : option bytes) (w : WrapperState) : WrapperState :=
  match found with Some id => match session id w with Some s => put_session id (mkSession (ps_active_turn s) None) w | None => w end | None => w end.
Definition child_act (fault : option DynError) (v : Value) (raw : bytes) (found : option bytes) (w : WrapperState) : result ChildOut DynError :=
  match found with
  | Some session_id =>
      match session session_id w with
      | Some s =>
          let w := take_prompt found w in
          match ps_prompt s with
          | None => Ok (mkOut w [] None)
          | Some p =>
              if is_successful_prompt_terminal v (pb_request_id p)
              then let? flushed := flush_prompt_buffer fault p raw in Ok (mkOut w (fst flushed) (Some (pb_turn p, Some (snd flushed))))
              else let? frames := into_frames fault (pb_frames p) in Ok (mkOut w ((FromChild <$> frames) ++ [FromChild raw]) (Some (pb_turn p, None)))
          end
      | None => Ok (mkOut w [] None)
      end
  | None =>
      match frame_session_id v with
      | None => Ok (mkOut w [FromChild raw] None)
      | Some session_id =>
          match session session_id w with
          | Some s =>
              match ps_prompt s with
              | Some p =>
                  if should_buffer_prompt_frame v
                  then let? b := push_frame fault raw (pb_frames p) in
                       Ok (mkOut (put_session session_id (mkSession (ps_active_turn s) (Some (mkPrompt (pb_request_id p) (pb_session_id p) (pb_turn p) b))) w) [] None)
                  else Ok (mkOut w [FromChild raw] None)
              | None => Ok (mkOut w [FromChild raw] None)
              end
          | None => Ok (mkOut w [FromChild raw] None)
          end
      end
  end.

(** ** The two loops together *)
(** Where the child's loop is: before a read, between the search for a finished turn and what it
    does then, or writing. *)
Inductive ChildPc := Reading | Found (v : Value) (raw : bytes) (found : option bytes) | Writing (frames : list Written) | Died (e : DynError).
Inductive Happened := Accepted (turn : TurnConfig) | Ended (turn : TurnConfig) (status : option WrapperStatus).
Record Sys := mkSys { sy_state : WrapperState; sy_pc : ChildPc; sy_replies : list bytes; sy_out : list Written; sy_child_in : list bytes; sy_history : list Happened }.
Definition sys_init : Sys := mkSys [] Reading [] [] [] [].
Definition accepted_event (t : option TurnConfig) : list Happened := match t with Some t => [Accepted t] | None => [] end.
Definition ended_event (t : option (TurnConfig * option WrapperStatus)) : list Happened := match t with Some (t, s) => [Ended t s] | None => [] end.
(** The length of a [Vec]. *)
Definition vec_ok (b : bytes) : bool := (blen b <=? Lsp.isize_max)%N.
Inductive step : Sys -> Sys -> Prop :=
| step_bridge w pc out ci h frame w' replies ci' begun : bridge_frame frame w = (w', replies, ci', begun) ->
    step (mkSys w pc [] out ci h) (mkSys w' pc replies out (ci ++ ci') (h ++ accepted_event begun))
| step_reply w pc f replies out ci h : step (mkSys w pc (f :: replies) out ci h) (mkSys w pc replies (out ++ [Reply f]) ci h)
| step_unparsed w rp out ci h frame : parse frame = None -> step (mkSys w Reading rp out ci h) (mkSys w (Writing [FromChild frame]) rp out ci h)
| step_find w iter rp out ci h frame v v' raw : parse frame = Some v -> filter_frame frame v = (v', raw) -> vec_ok raw = true -> iter ≡ₚ w ->
    step (mkSys w Reading rp out ci h) (mkSys w (Found v' raw (terminal_session v' iter)) rp out ci h)
| step_act w v raw found rp out ci h fault o : child_act fault v raw found w = Ok o ->
    step (mkSys w (Found v raw found) rp out ci h) (mkSys (co_state o) (Writing (co_frames o)) rp out ci (h ++ ended_event (co_ended o)))
| step_fail w v raw found rp out ci h fault e : child_act fault v raw found w = Err e ->
    step (mkSys w (Found v raw found) rp out ci h) (mkSys (take_prompt found w) (Died e) rp out ci h)
| step_write w f fs rp out ci h : step (mkSys w (Writing (f :: fs)) rp out ci h) (mkSys w (Writing fs) rp (out ++ [f]) ci h)
| step_written w rp out ci h : step (mkSys w (Writing []) rp out ci h) (mkSys w Reading rp out ci h).
Inductive reachable : Sys -> Prop :=
| reach_init : reachable sys_init
| reach_step s s' : reachable s -> step s s' -> reachable s'.
End Proxy.
