(* ===== verification/WrapperSystem.v ===== *)
(** * The wrapper's loops together

    Invariants of every reachable state of the two proxy loops, in any interleaving:
    what the child sends is passed on without reserved metadata, and turns are
    neither lost nor ended twice. *)
From Stdlib Require Import Strings.Byte.
From S2P Require Import Prelude Domain WorkflowGraph Framing FramePath CustodyFrame FrameDecode Marker MarkerTheory MarkerQuote Json Harvest Wrapper WrapperTheory.
Open Scope Z_scope.
Open Scope bridge_scope.

(** What the JSON library promises: text it parses is well-formed, and it reads back what it
    writes, whatever line end follows. *)
Class JsonCodec (parse : bytes -> option Value) (print : Value -> bytes) : Prop := {
  jc_ok : forall f v, parse f = Some v -> value_ok v = true;
  jc_print : forall v d, value_ok v = true -> d ∈ [[]; [NL]; [CR; NL]] -> parse (print v ++ d) = Some v }.

(** ** Sessions *)
Definition prompts (w : WrapperState) : list PromptBuffer := omap (fun e => ps_prompt (snd e)) w.
Definition turns_of (s : PerSessionState) : list TurnConfig := match ps_active_turn s with Some t => [t] | None => [] end ++ match ps_prompt s with Some p => [pb_turn p] | None => [] end.
Definition live (w : WrapperState) : list TurnConfig := concat ((fun e => turns_of (snd e)) <$> w).
Definition turn_ok (t : TurnConfig) : Prop := tn_marker t = commit_marker (tn_marker_nonce t) /\ valid_nonce (tn_marker_nonce t) = true.
Lemma session_split id s w : session id w = Some s -> exists a b, w = a ++ (id, s) :: b /\ forall s', put_session id s' w = a ++ (id, s') :: b.
Proof.
  induction w as [|[k s0] w IH]; simpl; [done|]. case_bool_decide as E; [intros [= ->]; subst; by exists [], w|]. intros H. destruct (IH H) as (a & b & -> & Hput). exists ((k, s0) :: a), b. split; [done|]. intros s'. by rewrite Hput.
Qed.
Lemma session_new id s' w : session id w = None -> put_session id s' w = w ++ [(id, s')].
Proof. induction w as [|[k s0] w IH]; simpl; [done|]. case_bool_decide; [done|]. intros Hn. by rewrite IH. Qed.
Lemma live_app a b : live (a ++ b) = live a ++ live b.
Proof. unfold live. by rewrite fmap_app, concat_app. Qed.
Lemma live_cons e w : live (e :: w) = turns_of (snd e) ++ live w.
Proof. done. Qed.
Lemma terminal_session_some v w id : terminal_session v w = Some id -> exists s p, (id, s) ∈ w /\ ps_prompt s = Some p /\ is_prompt_terminal v (pb_request_id p) = true.
Proof.
  unfold terminal_session. destruct (List.filter _ w) as [|[k s] l] eqn:E; [done|]. intros [= <-]. assert (In (k, s) (List.filter (fun e => match ps_prompt (snd e) with Some p => is_prompt_terminal v (pb_request_id p) | None => false end) w)) as Hin by (rewrite E; by left).
  apply filter_In in Hin as [Hin H]. simpl in H. destruct (ps_prompt s) as [p|] eqn:Ep; [|done]. exists s, p. split_and!; [by apply list_elem_of_In|done|done].
Qed.

Lemma delimiter_known f : frame_delimiter f ∈ [[]; [NL]; [CR; NL]].
Proof. unfold frame_delimiter. repeat case_match; set_solver. Qed.

Section System.
Context (parse : bytes -> option Value) (print : Value -> bytes) (sha256 : bytes -> bytes) `{!JsonCodec parse print}.
Local Abbreviation reachable := (reachable parse print sha256).
Local Abbreviation step := (step parse print sha256).

(** ** Reserved metadata *)
(** A frame that parses without reserved metadata. *)
Definition clean (f : bytes) : Prop := exists v, parse f = Some v /\ reserved_free v = true.
Definition harmless (f : bytes) : Prop := forall v, parse f = Some v -> reserved_free v = true.
Lemma clean_harmless f : clean f -> harmless f.
Proof. intros (v & H1 & H2) v' H3. congruence. Qed.
Lemma filter_clean frame v v' raw : parse frame = Some v -> filter_frame print frame v = (v', raw) -> parse raw = Some v' /\ reserved_free v' = true /\ value_ok v' = true.
Proof.
  intros Hp. pose proof (jc_ok _ _ Hp) as Hok. unfold filter_frame, strip_reserved_meta. destruct (strip_spec (depth v) v Hok ltac:(done)) as (H1 & H2 & _ & H4). destruct (strip (depth v) v) as [v1 removed]. simpl in *. intros [= <- <-].
  split_and!; [|done|done]. destruct removed; [by apply jc_print; [|apply delimiter_known]|]. by rewrite H4.
Qed.
Definition buffer_clean (b : FrameBuffer) : Prop := exists fs, holds b fs /\ Forall (fun f => clean f /\ frame_ok f) fs.
Definition prompt_clean (e : bytes * PerSessionState) : Prop := match ps_prompt (snd e) with Some p => buffer_clean (pb_frames p) /\ turn_ok (pb_turn p) | None => True end /\ match ps_active_turn (snd e) with Some t => turn_ok t | None => True end.
Definition written_clean (x : Written) : Prop := match x with FromChild f => harmless f | _ => True end.
Definition pc_clean (pc : ChildPc) : Prop :=
  match pc with Found v raw _ => parse raw = Some v /\ reserved_free v = true /\ frame_ok raw | Writing fs => Forall written_clean fs | _ => True end.
Record clean_sys (s : Sys) : Prop := { cs_state : Forall prompt_clean (sy_state s); cs_pc : pc_clean (sy_pc s); cs_out : Forall written_clean (sy_out s) }.
Lemma put_clean id s w : Forall prompt_clean w -> prompt_clean (id, s) -> Forall prompt_clean (put_session id s w).
Proof. intros Hw Hs. induction Hw as [|[k s0] w H Hw IH]; simpl; [constructor; [exact Hs|constructor]|]. case_bool_decide; [subst|]; by constructor. Qed.
Lemma session_clean id s w : Forall prompt_clean w -> session id w = Some s -> prompt_clean (id, s).
Proof. intros Hw (a & b & -> & _)%session_split. apply Forall_app in Hw as [_ Hw]. by apply Forall_cons in Hw as [? _]. Qed.
Lemma begin_params_ok params t : parse_begin_turn_params params = Some t -> turn_ok t.
Proof.
  unfold parse_begin_turn_params. case_match; [done|]. repeat (match goal with |- context [?x ≫= ?f] => destruct x; simpl; [|done] end). case_match eqn:E; [done|]. intros [= <-]. simpl.
  apply orb_false_iff in E as [_ E%negb_false_iff]. by split.
Qed.
Lemma bridge_clean frame w w' rp ci t : Forall prompt_clean w -> bridge_frame parse print frame w = (w', rp, ci, t) -> Forall prompt_clean w'.
Proof.
  intros Hw. unfold bridge_frame. destruct (parse frame) as [v|]; [|by intros [= <- _ _ _]]. case_match; [by intros [= <- _ _ _]|]. case_match; [|case_match; [|by intros [= <- _ _ _]]].
  - destruct (handle_begin_turn v w) as [[reply w1] b] eqn:E. intros [= <- _ _ _]. revert E. unfold handle_begin_turn. destruct (_ ≫= parse_begin_turn_params) as [t'|] eqn:Et; [|by intros [= _ <- _]].
    assert (turn_ok t') as Ht' by (destruct (get "params" v ≫= as_object); [by eapply begin_params_ok|done]).
    assert (prompt_clean (tn_session_id t', default session_default (session (tn_session_id t') w))) as Hs by (destruct (session (tn_session_id t') w) eqn:Es; [by eapply session_clean|done]).
    destruct Hs as [Hs1 Hs2]. match goal with |- context [if ?b then _ else _] => destruct b end; intros [= _ <- _]; apply put_clean; by try split.
  - intros [= <- _ _ _]. unfold maybe_start_prompt_buffer. destruct (get "id" v); [|done]. destruct (_ ≫= as_str) as [sid|]; [|done]. destruct (session sid w) as [s|] eqn:Es; [|done]. destruct (session_clean _ _ _ Hw Es) as [Hp Ha].
    cbn [snd] in *. destruct (ps_active_turn s) as [t'|] eqn:Ea; [|done]. case_bool_decide; apply put_clean; try done. split; [|done]. simpl. split; [|done]. exists []. split; [apply holds_new|constructor].
Qed.
Lemma take_clean found w : Forall prompt_clean w -> Forall prompt_clean (take_prompt found w).
Proof. intros Hw. unfold take_prompt. destruct found as [id|]; [|done]. destruct (session id w) as [s|] eqn:Es; [|done]. apply put_clean; [done|]. destruct (session_clean _ _ _ Hw Es) as [_ Ha]. by split. Qed.
Lemma clean_values fs : Forall (fun f => clean f /\ frame_ok f) fs -> exists vs, Forall2 (fun f v => parse f = Some v) fs vs /\ Forall (fun v => value_ok v = true /\ reserved_free v = true) vs.
Proof.
  induction 1 as [|f fs [(v & H1 & H2) _] _ (vs & H3 & H4)]; [by exists []|]. exists (v :: vs). split; constructor; try done. split; [by eapply jc_ok|done].
Qed.
Lemma retext_harmless fs vs chunks : Forall2 (fun f v => parse f = Some v) fs vs -> Forall (fun v => value_ok v = true /\ reserved_free v = true) vs -> Forall (fun c => utf8_valid c = true) chunks ->
  Forall written_clean (FromChild ∘ fst <$> retext print (zip fs vs) chunks).
Proof.
  intros Hp. revert chunks. induction Hp as [|f v fs vs Hf Hp IH]; intros chunks Hv Hu; [constructor|]. apply Forall_cons in Hv as [[Hok Hfree] Hv]. cbn [zip zip_with retext snd].
  assert (harmless f) as Hh by (intros v' E; congruence).
  destruct (agent_text_chunk v) as [t|]; [|constructor; [done|by apply IH]]. destruct chunks as [|c chunks]; [constructor; [done|by apply IH]|]. apply Forall_cons in Hu as [Hc Hu]. constructor; [|by apply IH].
  simpl. unfold new_text. case_bool_decide; [done|]. simpl. unfold serialize_json_frame. intros v' E. rewrite jc_print in E; [|by apply set_path_ok|apply delimiter_known]. injection E as <-.
  apply set_path_free; [set_solver|done|done].
Qed.
Lemma act_clean fault v raw found w o : Forall prompt_clean w -> parse raw = Some v -> reserved_free v = true -> frame_ok raw -> child_act parse print sha256 fault v raw found w = Ok o -> Forall prompt_clean (co_state o) /\ Forall written_clean (co_frames o).
Proof.
  intros Hw Hp Hfree Hlen. assert (harmless raw) as Hh by (intros v' E; congruence). assert (Forall written_clean [FromChild raw]) as Hraw by (by repeat constructor). unfold child_act. destruct found as [sid|].
  - destruct (session sid w) as [s|] eqn:Es; [|by intros [= <-]]. destruct (session_clean _ _ _ Hw Es) as [Hp' _]. cbn [snd] in Hp'. pose proof (take_clean (Some sid) w Hw) as Ht. destruct (ps_prompt s) as [p|]; [|intros [= <-]; by split].
    destruct Hp' as [(fs & Hh1 & Hfs) [Hmk Hn]]. destruct (clean_values _ Hfs) as (vs & Hpv & Hvs). assert (Forall frame_ok fs) as Hfk by (eapply Forall_impl; [exact Hfs|by intros ? [_ ?]]). assert (Forall (fun v => value_ok v = true) vs) as Hvk by (eapply Forall_impl; [exact Hvs|by intros ? [? _]]).
    case_match.
    + destruct (flush_prompt_buffer parse print sha256 fault p raw) as [out|] eqn:Ef; [|done]. intros [= <-]. split; [done|]. assert (marker_ok (tn_marker (pb_turn p)) = true) as Hm by (rewrite Hmk; apply commit_marker_ok; by apply andb_true_iff in Hn as [_ ?]).
      destruct (flush_is parse print sha256 fault p raw fs vs out Hh1 Hfk Hpv Hvk Hm ltac:(by left)) as (r & Er & Ef'). rewrite Ef in Ef'. injection Ef' as ->. cbn [co_frames fst]. unfold flushed. apply Forall_app. split; [|by repeat constructor].
      destruct (resolve_turn_ok _ _ Hm (text_chunks_utf8 fs vs Hvk)) as (r' & Er' & _ & Hu & _). rewrite Er in Er'. injection Er' as <-. by apply retext_harmless.
    + destruct (into_frames fault (pb_frames p)) as [r|] eqn:Ei; [|done]. intros [= <-]. split; [done|]. rewrite (into_holds _ _ _ _ Hh1 Hfk Ei). cbn [co_frames]. apply Forall_app. split; [|done]. apply Forall_fmap. eapply Forall_impl; [exact Hfs|]. intros f [Hc _]. by apply clean_harmless.
  - destruct (frame_session_id v) as [sid|]; [|intros [= <-]; by split]. destruct (session sid w) as [s|] eqn:Es; [|intros [= <-]; by split]. destruct (session_clean _ _ _ Hw Es) as [Hp' Ha]. cbn [snd] in *. destruct (ps_prompt s) as [p|]; [|intros [= <-]; by split].
    destruct (should_buffer_prompt_frame v); [|intros [= <-]; by split]. destruct (push_frame fault raw (pb_frames p)) as [b|] eqn:Eb; [|done]. intros [= <-]. split; [|constructor]. destruct Hp' as [(fs & Hh1 & Hfs) Ht]. apply put_clean; [done|]. split; [|done]. simpl. split; [|done].
    exists (fs ++ [raw]). split; [by eapply push_holds|]. apply Forall_app. split; [done|]. repeat constructor; [|done]. by exists v.
Qed.
Lemma reachable_clean s : reachable s -> clean_sys s.
Proof.
  induction 1 as [|s s' _ [Hst Hpc Hout] Hs]; [by split|].
  destruct Hs as [w pc out ci h frame w' replies ci' begun Hb|w pc f replies out ci h|w rp out ci h frame Hn|w iter rp out ci h frame v v' raw Hp Hf Hl Hit|w v raw found rp out ci h fault o Ha|w v raw found rp out ci h fault e He|w f fs rp out ci h|w rp out ci h];
    cbn [sy_state sy_pc sy_out] in *; split; cbn [sy_state sy_pc sy_out]; try done.
  - by eapply bridge_clean.
  - apply Forall_app. by repeat constructor.
  - constructor; [|constructor]. intros v E. congruence.
  - destruct (filter_clean _ _ _ _ Hp Hf) as (E1 & E2 & E3). split_and!; [done|done|]. unfold vec_ok in Hl. apply N.leb_le in Hl. unfold frame_ok. change Lsp.isize_max with 9223372036854775807%N in Hl. lia.
  - destruct Hpc as (E1 & E2 & E3). by eapply act_clean.
  - destruct Hpc as (E1 & E2 & E3). by eapply act_clean.
  - by apply take_clean.
  - by apply Forall_cons in Hpc as [_ ?].
  - apply Forall_cons in Hpc as [? _]. apply Forall_app. split; [done|by constructor; [|constructor]].
Qed.
(** No frame that comes from the child reaches the bridge with reserved metadata in it, at any
    depth, however the two loops interleave and whatever either side sends: only the
    wrapper's own control frames carry it. *)
Theorem child_metadata_is_filtered s f v : reachable s -> FromChild f ∈ sy_out s -> parse f = Some v -> reserved_free v = true.
Proof. intros Hr Hin Hp. pose proof (cs_out _ (reachable_clean _ Hr)) as H. rewrite Forall_forall in H. by apply (H _ Hin). Qed.

(** ** Turns *)
Definition accepted (h : list Happened) : list TurnConfig := omap (fun x => match x with Accepted t => Some t | _ => None end) h.
Definition ended (h : list Happened) : list TurnConfig := omap (fun x => match x with Ended t _ => Some t | _ => None end) h.
Definition settled (h : list Happened) : list (TurnConfig * WrapperStatus) := omap (fun x => match x with Ended t (Some st) => Some (t, st) | _ => None end) h.
Definition controls (ws : list Written) : list (TurnConfig * WrapperStatus) := omap (fun x => match x with ControlOf t st _ => Some (t, st) | _ => None end) ws.
Definition to_write (pc : ChildPc) : list Written := match pc with Writing fs => fs | _ => [] end.
Definition one_turn (e : bytes * PerSessionState) : Prop := ps_active_turn (snd e) = None \/ ps_prompt (snd e) = None.
Definition died (pc : ChildPc) : bool := match pc with Died _ => true | _ => false end.
Record tokens (s : Sys) : Prop := {
  tk_turns : exists lost, accepted (sy_history s) ≡ₚ ended (sy_history s) ++ live (sy_state s) ++ lost /\ (length lost <= if died (sy_pc s) then 1 else 0)%nat;
  tk_controls : controls (sy_out s ++ to_write (sy_pc s)) = settled (sy_history s);
  tk_one : Forall one_turn (sy_state s) }.
Lemma controls_app a b : controls (a ++ b) = controls a ++ controls b.
Proof. apply omap_app. Qed.
Lemma controls_child {A} (g : A -> bytes) l : controls (FromChild ∘ g <$> l) = [].
Proof. induction l as [|x l IH]; [done|]. exact IH. Qed.
(** Replacing a session's state replaces its turns. *)
Lemma live_put id s' w : Forall one_turn w -> one_turn (id, s') -> let old := match session id w with Some s => turns_of s | None => [] end in
  exists rest, live w ≡ₚ old ++ rest /\ live (put_session id s' w) ≡ₚ turns_of s' ++ rest /\ Forall one_turn (put_session id s' w).
Proof.
  intros Hw Hs. destruct (session id w) as [s|] eqn:Es.
  - destruct (session_split _ _ _ Es) as (a & b & -> & Hput). rewrite Hput, !live_app, !live_cons. cbn [snd]. exists (live a ++ live b). split_and!; [solve_Permutation|solve_Permutation|].
    apply Forall_app in Hw as [H1 [_ H2]%Forall_cons]. apply Forall_app. split; [done|]. by constructor.
  - rewrite session_new by done. rewrite live_app. exists (live w). split_and!; [done|unfold live at 2; simpl; rewrite app_nil_r; solve_Permutation|]. apply Forall_app. split; [done|]. by constructor; [|constructor].
Qed.
Lemma session_one id s w : Forall one_turn w -> session id w = Some s -> one_turn (id, s).
Proof. intros Hw (a & b & -> & _)%session_split. apply Forall_app in Hw as [_ Hw]. by apply Forall_cons in Hw as [? _]. Qed.
Lemma bridge_turns frame w w' rp ci t : Forall one_turn w -> bridge_frame parse print frame w = (w', rp, ci, t) -> Forall one_turn w' /\ live w' ≡ₚ match t with Some t => [t] | None => [] end ++ live w.
Proof.
  intros Hw. unfold bridge_frame. destruct (parse frame) as [v|]; [|by intros [= <- _ _ <-]]. destruct (str_is _ _); [by intros [= <- _ _ <-]|]. destruct (str_is _ _); [|destruct (str_is _ _); [|by intros [= <- _ _ <-]]].
  - destruct (handle_begin_turn v w) as [[reply w1] b] eqn:E. intros [= <- _ _ <-]. revert E. unfold handle_begin_turn. destruct (_ ≫= parse_begin_turn_params) as [t'|]; [|by intros [= _ <- <-]].
    set (s := default session_default (session (tn_session_id t') w)). assert (match session (tn_session_id t') w with Some s => turns_of s | None => [] end = turns_of s) as Eold by (unfold s; by destruct (session _ w)).
    assert (one_turn (tn_session_id t', s)) as Hone by (unfold s; destruct (session (tn_session_id t') w) eqn:Es; [by eapply session_one|by left]).
    destruct (ps_active_turn s) as [t0|] eqn:Ea; [|destruct (ps_prompt s) as [p0|] eqn:Ep].
    1,2: intros [= _ <- <-]; destruct (live_put (tn_session_id t') s w Hw Hone) as (rest & H1 & H2 & H3); rewrite Eold in H1; split; [done|]; simpl; by rewrite H1, H2.
    intros [= _ <- <-]. destruct (live_put (tn_session_id t') (mkSession (Some t') None) w Hw ltac:(by right)) as (rest & H1 & H2 & H3). rewrite Eold in H1. unfold turns_of in H1, H2. rewrite Ea, Ep in H1. simpl in H1, H2. split; [done|]. by rewrite H1, H2.
  - intros [= <- _ _ <-]. unfold maybe_start_prompt_buffer. destruct (get "id" v); [|done]. destruct (_ ≫= as_str) as [sid|]; [|done]. destruct (session sid w) as [s|] eqn:Es; [|done]. destruct (ps_active_turn s) as [t'|] eqn:Ea; [|done].
    destruct (session_one _ _ _ Hw Es) as [Hn|Hn]; cbn [snd] in Hn; [congruence|]. destruct s as [act pr]. cbn [ps_active_turn ps_prompt] in *. subst act pr. case_bool_decide.
    + destruct (live_put sid (mkSession None (Some (mkPrompt v0 sid t' buffer_new))) w Hw ltac:(by left)) as (rest & H1 & H2 & H3). rewrite Es in H1. cbn in H1, H2. split; [done|]. by rewrite H1, H2.
    + destruct (live_put sid (mkSession (Some t') None) w Hw ltac:(by right)) as (rest & H1 & H2 & H3). rewrite Es in H1. cbn in H1, H2. split; [done|]. by rewrite H1, H2.
Qed.
Definition found_turn (found : option bytes) (w : WrapperState) : list TurnConfig := match found with Some id => match session id w with Some s => match ps_prompt s with Some p => [pb_turn p] | None => [] end | None => [] end | None => [] end.
Lemma take_turns found w : Forall one_turn w -> Forall one_turn (take_prompt found w) /\ live w ≡ₚ found_turn found w ++ live (take_prompt found w).
Proof.
  intros Hw. unfold take_prompt, found_turn. destruct found as [id|]; [|done]. destruct (session id w) as [s|] eqn:Es; [|done]. destruct (live_put id (mkSession (ps_active_turn s) None) w Hw ltac:(by right)) as (rest & H1 & H2 & H3).
  rewrite Es in H1. unfold turns_of in H1, H2. cbn [ps_active_turn ps_prompt] in H2. rewrite app_nil_r in H2. split; [done|]. rewrite H1, H2. solve_Permutation.
Qed.
Lemma flush_controls fault p raw out : flush_prompt_buffer parse print sha256 fault p raw = Ok out -> controls (fst out) = [(pb_turn p, snd out)].
Proof.
  unfold flush_prompt_buffer. destruct (into_frames _ _); [|done]. cbn [result_bind]. destruct (parse_frames _ _); [|done]. cbn [result_bind]. destruct (resolve_turn _ _); [|done]. cbn [result_bind]. destruct (rewrite_frames _ _ _); [|done]. cbn [result_bind].
  intros [= <-]. cbn [fst snd]. by rewrite controls_app, controls_child.
Qed.
(** A step of the child's loop ends the turn it found, with the control frame it says. *)
Lemma act_turns fault v raw found w o : Forall one_turn w -> child_act parse print sha256 fault v raw found w = Ok o ->
  Forall one_turn (co_state o) /\ live w ≡ₚ ended (ended_event (co_ended o)) ++ live (co_state o) /\ controls (co_frames o) = settled (ended_event (co_ended o)).
Proof.
  intros Hw. unfold child_act. destruct found as [sid|].
  - destruct (take_turns (Some sid) w Hw) as [H1 H2]. unfold found_turn in H2. destruct (session sid w) as [s|]; [|by intros [= <-]]. destruct (ps_prompt s) as [p|]; [|intros [= <-]; by split_and!]. destruct (is_successful_prompt_terminal _ _).
    + destruct (flush_prompt_buffer _ _ _ _ _ _) as [out|] eqn:Ef; [|done]. intros [= <-]. cbn [co_state co_frames co_ended]. split_and!; [done|done|by eapply flush_controls].
    + destruct (into_frames _ _) as [r|]; [|done]. intros [= <-]. cbn [co_state co_frames co_ended]. split_and!; [done|done|]. rewrite controls_app. by rewrite (controls_child id).
  - destruct (frame_session_id v) as [sid|]; [|intros [= <-]; by split_and!]. destruct (session sid w) as [s|] eqn:Es; [|intros [= <-]; by split_and!]. destruct (ps_prompt s) as [p|] eqn:Ep; [|intros [= <-]; by split_and!].
    destruct (should_buffer_prompt_frame v); [|intros [= <-]; by split_and!]. destruct (push_frame _ _ _) as [b|]; [|done]. intros [= <-]. cbn [co_state co_frames co_ended ended_event].
    destruct (session_one _ _ _ Hw Es) as [Hn|Hn]; cbn [snd] in Hn; [|congruence].
    destruct s as [act pr]. cbn [ps_active_turn ps_prompt] in *. subst act pr.
    destruct (live_put sid (mkSession None (Some (mkPrompt (pb_request_id p) (pb_session_id p) (pb_turn p) b))) w Hw ltac:(by left)) as (rest & H1 & H2 & H3).
    rewrite Es in H1. cbn in H1, H2. split_and!; [done|by rewrite H1, H2|done].
Qed.
Lemma history_app {A} (g : Happened -> option A) a b : omap g (a ++ b) = omap g a ++ omap g b.
Proof. apply omap_app. Qed.
Lemma fail_turns fault v raw found w e : Forall one_turn w -> child_act parse print sha256 fault v raw found w = Err e -> Forall one_turn (take_prompt found w) /\
  exists lost, live w ≡ₚ live (take_prompt found w) ++ lost /\ (length lost <= 1)%nat.
Proof.
  intros Hw _. destruct (take_turns found w Hw) as [H1 H2]. split; [done|]. exists (found_turn found w). split; [by rewrite H2, Permutation_app_comm|]. unfold found_turn. repeat case_match; simpl; lia.
Qed.
Lemma reachable_tokens s : reachable s -> tokens s.
Proof.
  induction 1 as [|s s' _ [(lost & Hl & Hn) Hc Ho] Hs]; [split; [by exists []|done|constructor]|].
  destruct Hs as [w pc out ci h frame w' replies ci' begun Hb|w pc f replies out ci h|w rp out ci h frame Hp|w iter rp out ci h frame v v' raw Hp Hf Hv Hit|w v raw found rp out ci h fault o Ha|w v raw found rp out ci h fault e He|w f fs rp out ci h|w rp out ci h];
    cbn [sy_state sy_pc sy_out sy_history to_write died] in *.
  - destruct (bridge_turns _ _ _ _ _ _ Ho Hb) as [H1 H2]. split; cbn [sy_state sy_pc sy_out sy_history]; [|by rewrite Hc; unfold settled; rewrite history_app; destruct begun; simpl; rewrite app_nil_r|done].
    exists lost. split; [|done]. unfold accepted, ended in *. rewrite !history_app, Hl, H2. destruct begun as [t|]; simpl; rewrite ?app_nil_r; solve_Permutation.
  - split; cbn [sy_state sy_pc sy_out sy_history]; [eauto| |done]. rewrite <- Hc, !controls_app. simpl. by rewrite app_nil_r.
  - split; cbn [sy_state sy_pc sy_out sy_history to_write died]; [eauto| |done]. rewrite <- Hc, !controls_app. done.
  - split; cbn [sy_state sy_pc sy_out sy_history to_write died]; eauto.
  - destruct (act_turns _ _ _ _ _ _ Ho Ha) as (H1 & H2 & H3). split; cbn [sy_state sy_pc sy_out sy_history to_write died]; [|rewrite app_nil_r in Hc; unfold settled; rewrite controls_app, Hc, H3, history_app; done|done].
    exists lost. split; [|done]. unfold accepted, ended in *. rewrite !history_app, Hl, H2. destruct (co_ended o) as [[t st]|]; simpl; rewrite ?app_nil_r; solve_Permutation.
  - destruct (fail_turns _ _ _ _ _ _ Ho He) as (H1 & l2 & H2 & H3). destruct lost as [|]; [|simpl in Hn; lia]. split; cbn [sy_state sy_pc sy_out sy_history to_write died]; [|done|done]. exists l2. split; [|done]. rewrite Hl, H2, app_nil_r. done.
  - split; cbn [sy_state sy_pc sy_out sy_history to_write died]; [eauto| |done]. rewrite <- app_assoc. exact Hc.
  - split; cbn [sy_state sy_pc sy_out sy_history to_write died]; eauto.
Qed.
(** C15: Turns are linear, however the two loops interleave: the turns that were accepted are, with
    multiplicity, those that ended and those still held by a session, except for the one
    a dying loop had taken; no session holds two; and the control frames written or
    about to be are exactly those of the turns that ended with a status, in that order,
    each with the status its turn got. *)
Theorem turns_are_linear s : reachable s ->
  (exists lost, accepted (sy_history s) ≡ₚ ended (sy_history s) ++ live (sy_state s) ++ lost /\ (length lost <= if died (sy_pc s) then 1 else 0)%nat) /\
  controls (sy_out s ++ to_write (sy_pc s)) = settled (sy_history s) /\ Forall (fun e => (length (turns_of (snd e)) <= 1)%nat) (sy_state s).
Proof.
  intros [Ht Hc Ho]%reachable_tokens. split_and!; [done|done|]. eapply Forall_impl; [exact Ho|]. intros e He. unfold turns_of. destruct He as [->| ->]; repeat case_match; simpl; lia.
Qed.
End System.

(** ** A JSON codec for the witnesses *)
Module Toy.
Notation leaf := (bool + (N + Z + Z) + bytes + string)%type.
Fixpoint tree (v : Value) : gen_tree leaf :=
  match v with
  | JNull => GenNode 0 []
  | JBool b => GenLeaf (inl (inl (inl b)))
  | JNum (NPos n) => GenLeaf (inl (inl (inr (inl (inl n)))))
  | JNum (NNeg n) => GenLeaf (inl (inl (inr (inl (inr n)))))
  | JNum (NFloat n) => GenLeaf (inl (inl (inr (inr n))))
  | JStr s => GenLeaf (inl (inr s))
  | JArr l => GenNode 1 (tree <$> l)
  | JObj o => GenNode 2 ((fun kv => GenNode 3 [GenLeaf (inr (fst kv)); tree (snd kv)]) <$> o)
  end.
Fixpoint value (t : gen_tree leaf) : Value :=
  match t with
  | GenLeaf (inl (inl (inl b))) => JBool b
  | GenLeaf (inl (inl (inr (inl (inl n))))) => JNum (NPos n)
  | GenLeaf (inl (inl (inr (inl (inr n))))) => JNum (NNeg n)
  | GenLeaf (inl (inl (inr (inr n)))) => JNum (NFloat n)
  | GenLeaf (inl (inr s)) => JStr s
  | GenNode 1 l => JArr (value <$> l)
  | GenNode 2 l => JObj ((fun e => match e with GenNode _ [GenLeaf (inr k); t] => (k, value t) | _ => (""%string, JNull) end) <$> l)
  | _ => JNull
  end.
Lemma value_tree v : value (tree v) = v.
Proof.
  induction v as [| | [] | |l IH|o IH] using value_nested_ind; try done; simpl; f_equal.
  - induction IH as [|v l H IH IHl]; [done|]. simpl. f_equal; [exact H|exact IHl].
  - induction IH as [|[k v] l H IH IHl]; [done|]. simpl in *. f_equal; [by rewrite H|exact IHl].
Qed.
Fixpoint bits (p : positive) : bytes := match p with xH => [x31] | xO p => x30 :: bits p | xI p => x31 :: bits p end.
Fixpoint unbits (bs : bytes) : option positive :=
  match bs with
  | x30 :: bs => xO <$> unbits bs
  | x31 :: bs => Some (match unbits bs with Some p => xI p | None => xH end)
  | _ => None
  end.
Lemma unbits_bits p d : (forall b, head d = Some b -> b <> x30 /\ b <> x31) -> unbits (bits p ++ d) = Some p.
Proof.
  intros Hd. assert (unbits d = None) as Hn by (destruct d as [|b d]; [done|]; destruct (Hd b eq_refl); by destruct b). induction p as [p IH|p IH|]; simpl; [by rewrite IH|by rewrite IH|by rewrite Hn].
Qed.
Definition print (v : Value) : bytes := bits (countable.encode (tree v)).
Definition parse (f : bytes) : option Value := p ← unbits f; t ← countable.decode p; if value_ok (value t) then Some (value t) else None.
#[global] Instance codec : JsonCodec parse print.
Proof.
  split.
  - intros f v. unfold parse. destruct (unbits f) as [p|]; [|done]. simpl. destruct (countable.decode p) as [t|]; [|done]. simpl. destruct (value_ok (value t)) eqn:E; [|done]. by intros [= <-].
  - intros v d Hv Hd. unfold parse, print. rewrite unbits_bits; [|intros b; rewrite !elem_of_cons, elem_of_nil in Hd; destruct_or! Hd; subst; simpl; intros [= <-]; done]. simpl. rewrite countable.decode_encode. simpl. by rewrite value_tree, Hv.
Qed.
End Toy.

(** ** Witnesses *)
Definition forged : Value := JObj [("jsonrpc", js "2.0"); ("_meta", JObj [(META_KEY, JBool true); ("x", JNull)])].
Definition forged_frame : bytes := Toy.print forged ++ [NL].
Definition passed : Value * bytes := filter_frame Toy.print forged_frame forged.
Definition toy_hash (b : bytes) : bytes := take 32 (b ++ replicate 32 x00).
Lemma forged_parses : Toy.parse forged_frame = Some forged.
Proof. apply jc_print; [done|set_solver]. Qed.
(** A frame that no session waits for goes through. *)
Lemma relayed v : value_ok v = true -> let f := filter_frame Toy.print (Toy.print v ++ [NL]) v in vec_ok (snd f) = true -> Wrapper.reachable Toy.parse Toy.print toy_hash (mkSys [] (Writing []) [] [FromChild (snd f)] [] []).
Proof.
  intros Hv f Hl. eapply reach_step; [eapply reach_step; [eapply reach_step; [apply reach_init|]|]|].
  - eapply (step_find _ _ _ [] [] [] [] [] [] (Toy.print v ++ [NL]) v (fst f) (snd f)); [apply jc_print; [done|set_solver]|apply surjective_pairing|done|done].
  - eapply (step_act _ _ _ [] _ _ _ [] [] [] [] None (mkOut [] [FromChild (snd f)] None)). unfold child_act. replace (terminal_session _ _) with (@None bytes) by done. by destruct (frame_session_id _).
  - apply (step_write _ _ _ [] (FromChild (snd f)) [] [] [] [] []).
Qed.
Lemma child_metadata_is_filtered_witness : reserved_free forged = false /\ exists v, Toy.parse (snd passed) = Some v /\ reserved_free v = true.
Proof.
  split; [vm_compute; reflexivity|]. exists (fst passed). assert (Toy.parse (snd passed) = Some (fst passed)) as Hp by (eapply filter_clean; [apply _|apply forged_parses|apply surjective_pairing]). split; [exact Hp|].
  exact (child_metadata_is_filtered Toy.parse Toy.print toy_hash _ (snd passed) (fst passed) (relayed forged ltac:(vm_compute; reflexivity) ltac:(vm_compute; reflexivity)) (list_elem_of_here _ _) Hp).
Defined.
Definition demo_nonce : bytes := of_str "6f0d8e2b7c9145a1b3d74f26e8c0aa59".
Definition demo_turn_id : bytes := of_str "turn_6f0d8e2b7c9145a1b3d74f26e8c0aa59".
Definition demo_turn : TurnConfig := mkTurn (of_str "s1") demo_turn_id demo_nonce (commit_marker demo_nonce) true.
Definition demo_begin : Value :=
  JObj [("id", JNum (NPos 7)); ("method", js "_b2a/apc-prefix/beginTurn"); ("params", JObj [("schema_version", JNum (NPos 1)); ("session_id", js "s1"); ("turn_id", JStr demo_turn_id); ("enabled", JBool true); ("marker_nonce", JStr demo_nonce)])].
Lemma turns_are_linear_witness : exists s, Wrapper.reachable Toy.parse Toy.print toy_hash s /\ accepted (sy_history s) = [demo_turn] /\ controls (sy_out s ++ to_write (sy_pc s)) = settled (sy_history s).
Proof.
  eexists. split; [|split]; [eapply reach_step; [apply reach_init|]; eapply (step_bridge _ _ _ [] Reading [] [] [] (Toy.print demo_begin ++ [NL]) [(of_str "s1", mkSession (Some demo_turn) None)] [json_line Toy.print _] [] (Some demo_turn))|reflexivity|].
  - unfold bridge_frame. rewrite (jc_print demo_begin [NL]) by (try set_solver; done). reflexivity.
  - refine (proj1 (proj2 (turns_are_linear Toy.parse Toy.print toy_hash _ _))). eapply reach_step; [apply reach_init|]. eapply step_bridge. unfold bridge_frame. rewrite (jc_print demo_begin [NL]) by (try set_solver; done). reflexivity.
Defined.
Definition text_frame (t : bytes) : Value :=
  JObj [("method", js "session/update"); ("params", JObj [("sessionId", js "s1"); ("update", JObj [("sessionUpdate", js "agent_message_chunk"); ("content", JObj [("type", js "text"); ("text", JStr t)])])])].
Definition demo_values : list Value := [text_frame (of_str "thinking"); text_frame (commit_marker demo_nonce ++ of_str "42")].
Definition demo_ops : list (option DynError * bytes) := (fun v => (None, Toy.print v ++ [NL])) <$> demo_values.
Definition demo_buffer : FrameBuffer := mkBuffer (snd <$> demo_ops) (total (snd <$> demo_ops)) None.
Definition demo_prompt : PromptBuffer := mkPrompt (JNum (NPos 8)) (of_str "s1") demo_turn demo_buffer.
Lemma flush_conserves_frames_witness : exists (frames' : list (bytes * Value)) body status prefix, flush_prompt_buffer Toy.parse Toy.print toy_hash None demo_prompt (of_str "done") =
      Ok ((FromChild ∘ fst <$> frames') ++ [ControlOf demo_turn status (json_line Toy.print (control_frame toy_hash demo_prompt body status prefix)); FromChild (of_str "done")], status) /\
    (body, status, prefix) = (of_str "thinking42", Attested, 8%nat).
Proof.
  assert (Forall2 (fun f v => Toy.parse f = Some v) (snd <$> demo_ops) demo_values) as Hp by (repeat constructor; apply jc_print; done || set_solver).
  destruct (flush_conserves_frames Toy.parse Toy.print toy_hash demo_prompt (of_str "done") demo_ops demo_values ltac:(vm_compute; reflexivity) ltac:(repeat constructor) Hp ltac:(repeat constructor) ltac:(reflexivity) ltac:(vm_compute; reflexivity)) as (fr & b & st & pr & H1 & H2 & H3 & H4).
  exists fr, b, st, pr. split; [exact H1|]. rewrite H4. vm_compute. reflexivity.
Defined.
