(* ===== verification/PrefixControl.v ===== *)
(** * Control frames at the bridge ([bridge-acp/src/acp_backend.rs], [PrefixTurnState] and
      [parse_prefix_control_notification])

    The bridge's side of a turn's attestation. A notification is the value that the
    protocol library makes of a frame's parameters and serialises again. *)
From Stdlib Require Import Strings.Byte.
From S2P Require Import Prelude Domain WorkflowGraph Framing FramePath CustodyFrame Marker MarkerQuote Json Harvest.
Open Scope Z_scope.
Open Scope bridge_scope.

(** ** The contract in the prompt ([attestation.rs]) *)
Definition nonce_hex (nonce : bytes) : bytes := hex_lower nonce.
Definition prompt_contract_block (nonce : bytes) : bytes :=
  of_str "[B2A ATTESTED PREFIX PROTOCOL — REQUIRED]

You may produce process or status text before the deliverable.

Immediately before the first byte of the non-empty deliverable, emit the following
ASCII control marker exactly once:

" ++ commit_marker (nonce_hex nonce) ++ of_str "

Do not quote it, put it in a code fence, add whitespace to it, or add a newline
between the marker and the first deliverable byte. The marker itself is not part
of the deliverable.

Do not emit the marker until a non-empty deliverable is ready. After emitting it,
treat every later text byte as part of the deliverable.

If your intended response must literally contain the exact marker, escape it with
backslash parity: a literal marker uses one backslash immediately before it; a
literal backslash plus a literal marker uses three. A commit marker preceded by
one literal backslash uses two.

If you cannot determine a valid non-empty deliverable boundary, do not emit the
marker.".
Definition append_prompt_contract (rendered_prompt : bytes) (c : PrefixAttestationCapability) (r : PrefixAttestationRequest) : bytes :=
  match r with
  | RequestCommitMarkerV1 marker_nonce => if is_supported_v1 c then rendered_prompt ++ [NL; NL] ++ prompt_contract_block marker_nonce else rendered_prompt
  | RequestDisabled => rendered_prompt
  end.
(** The texts of the parts. *)
Fixpoint append_attestation_contract_to_last_part (parts : list bytes) (c : PrefixAttestationCapability) (r : PrefixAttestationRequest) : list bytes :=
  match parts with
  | [] => []
  | [p] => [append_prompt_contract p c r]
  | p :: parts => p :: append_attestation_contract_to_last_part parts c r
  end.

(** ** Fields of the metadata *)
Definition is_ascii_digit_byte (b : byte) : bool := in_range b 48 57.
(** [raw.parse::<u64>()]; digits only, so that the optional sign does not occur. *)
Definition parse_canonical_u64 (raw : bytes) : option N :=
  if bool_decide (raw = []) || ((1 <? length raw)%nat && begins [x30] raw) then None
  else if negb (forallb is_ascii_digit_byte raw) then None
  else Lsp.parse_usize raw.
Definition hex_value (b : byte) : option N :=
  let n := Byte.to_N b in
  if in_range b 48 57 then Some (n - 48)%N else if in_range b 97 102 then Some (n - 87)%N else if in_range b 65 70 then Some (n - 55)%N else None.
(** [u8::from_str_radix(&raw[start..start + 2], 16)] for every pair. *)
Fixpoint from_hex (bs : bytes) : option bytes :=
  match bs with
  | [] => Some []
  | a :: b :: r => hi ← hex_value a; lo ← hex_value b; x ← Byte.of_N (hi * 16 + lo)%N; rest ← from_hex r; Some (x :: rest)
  | _ => None
  end.
(** [is_ascii_hexdigit() && !is_ascii_uppercase()] is a digit or a lower-case letter up to [f]. *)
Definition parse_sha256_hex (raw : bytes) : option bytes := if negb (length raw =? 64)%nat || negb (forallb hex_lower_byte raw) then None else from_hex raw.
Definition no_attestation_reason_from_wire (raw : bytes) : option NoAttestationReason :=
  if bool_decide (raw = of_str "sanitization_not_requested") then Some SanitizationNotRequested
  else if bool_decide (raw = of_str "turn_missing_deliverable_boundary") then Some TurnMissingDeliverableBoundary
  else if bool_decide (raw = of_str "turn_ended_without_deliverable") then Some TurnEndedWithoutDeliverable
  else if bool_decide (raw = of_str "multiple_commit_markers") then Some MultipleCommitMarkers
  else None.

(** ** The state of a turn *)
Record PrefixTurnState := mkPrefix {
  px_producer_id : bytes; px_turn_id : bytes; px_marker_nonce_hex : bytes; px_capability : PrefixAttestationCapability;
  px_observed : option PrefixAttestationStatus; px_control_closed : bool }.
Definition prefix_new (producer_id turn_id nonce_hex : bytes) (c : PrefixAttestationCapability) : PrefixTurnState := mkPrefix producer_id turn_id nonce_hex c None false.
Definition px_rejected (s : PrefixTurnState) (r : InvalidAttestationReason) : PrefixAttestationStatus := rejected (px_producer_id s) (px_turn_id s) r.
Definition record_control (status : PrefixAttestationStatus) (s : PrefixTurnState) : PrefixTurnState :=
  mkPrefix (px_producer_id s) (px_turn_id s) (px_marker_nonce_hex s) (px_capability s)
    (Some (match px_observed s with Some _ => px_rejected s DuplicateControlMetadata | None => status end)) (px_control_closed s).
Definition close_control (s : PrefixTurnState) : PrefixTurnState := mkPrefix (px_producer_id s) (px_turn_id s) (px_marker_nonce_hex s) (px_capability s) (px_observed s) true.
Definition terminal_status (requested : bool) (s : PrefixTurnState) : PrefixAttestationStatus :=
  match px_observed s with
  | Some status => status
  | None =>
      if requested then
        unavailable (px_producer_id s) (px_turn_id s)
          (match px_capability s with SupportedV1 _ _ => BackendProtocolViolation | Unsupported CapProtocolDowngrade => ProtocolDowngrade | Unsupported _ => BackendDeclaredIncapable end)
      else unavailable (px_producer_id s) (px_turn_id s) SanitizationNotRequested
  end.
(** [later]: the state when the wait ends, [timed_out] whether by its bound. *)
Definition terminal_status_after_control_quiescence (requested timed_out : bool) (s later : PrefixTurnState) : PrefixAttestationStatus :=
  let open (x : PrefixTurnState) := match px_observed x with None => negb (px_control_closed x) | Some _ => false end in
  if requested && open s then
    if timed_out && open later then unavailable (px_producer_id s) (px_turn_id s) ControlDrainTimeout else terminal_status requested later
  else terminal_status requested s.
Definition prefix_turn_state_for_meta (requested_mode : HarvestSanitizationMode) (request : PrefixAttestationRequest) (turn_id producer_id : bytes) (c : PrefixAttestationCapability) : bool * PrefixTurnState :=
  (bool_decide (requested_mode = AttestedPrefixV1),
   prefix_new producer_id turn_id (match request with RequestCommitMarkerV1 nonce => nonce_hex nonce | RequestDisabled => [] end) c).

(** ** Control notifications *)
Definition text_is (s : bytes) (v : option Value) : bool := bool_decide (v ≫= as_str = Some s).
(** The fields of the reserved entry. *)
Definition parse_control_fields (s : PrefixTurnState) (obj : Map) : PrefixAttestationStatus :=
  let malformed := px_rejected s MalformedMetadata in
  match field "kind" obj ≫= as_str with
  | None => malformed
  | Some kind =>
      let attested := bool_decide (kind = of_str "attested") in
      if negb (attested || bool_decide (kind = of_str "unavailable")) then malformed
      else if negb (length obj =? (if attested then 8 else 6))%nat then malformed
      else if negb (bool_decide (field "schema_version" obj ≫= as_u64 = Some 1%N)) then px_rejected s UnsupportedVersion
      else if negb (text_is ATTESTED_PREFIX_ISSUER_V1 (field "issuer_id" obj)) then px_rejected s UntrustedIssuer
      else if negb (text_is (px_turn_id s) (field "turn_id" obj)) then px_rejected s TurnMismatch
      else if negb (text_is (px_marker_nonce_hex s) (field "marker_nonce" obj)) then px_rejected s NonceMismatch
      else if attested then
        match (field "process_prefix_bytes" obj ≫= as_str) ≫= parse_canonical_u64 with
        | None => malformed
        | Some process_prefix_bytes =>
            match (field "body_len_bytes" obj ≫= as_str) ≫= parse_canonical_u64 with
            | None => malformed
            | Some body_len_bytes =>
                match (field "body_sha256" obj ≫= as_str) ≫= parse_sha256_hex with
                | None => malformed
                | Some body_sha256 => AttestedV1 (mkAttested ATTESTED_PREFIX_ISSUER_V1 (px_producer_id s) (px_turn_id s) body_len_bytes body_sha256 process_prefix_bytes)
                end
            end
        end
      else
        match (field "reason" obj ≫= as_str) ≫= no_attestation_reason_from_wire with
        | None => malformed
        | Some reason => unavailable (px_producer_id s) (px_turn_id s) reason
        end
  end.
(** [None]: not a control notification. *)
Definition parse_prefix_control_notification (notif : Value) (s : PrefixTurnState) : option PrefixAttestationStatus :=
  update ← get "update" notif;
  if negb (text_is (of_str "agent_message_chunk") (get "sessionUpdate" update)) then None
  else
    let content_text := (get "content" update ≫= get "text") ≫= as_str in
    let meta := get "_meta" update ≫= as_object in
    if negb (text_is (of_str "_b2a_apc_control/" ++ px_turn_id s) (get "messageId" update)) then None
    else Some (
      match meta with
      | None => px_rejected s MalformedMetadata
      | Some m =>
          match field META_KEY m with
          | None => px_rejected s MalformedMetadata
          | Some entry =>
              if negb (is_supported_v1 (px_capability s)) then px_rejected s BackendCapabilityMismatch
              else if negb (bool_decide (content_text = Some [])) then px_rejected s MalformedMetadata
              else if negb (length m =? 1)%nat then px_rejected s MalformedMetadata
              else match as_object entry with
              | None => px_rejected s MalformedMetadata
              | Some obj => parse_control_fields s obj
              end
          end
      end).
(** The notification handler: a control notification is recorded while the turn's route is live. *)
Definition on_notification (route_live : bool) (notif : Value) (s : PrefixTurnState) : PrefixTurnState * bool :=
  match parse_prefix_control_notification notif s with
  | Some status => (if route_live then record_control status s else s, true)
  | None => (s, false)
  end.

(** ** What the fields round-trip *)
Lemma decimal_head fuel n acc : (n < 2 ^ N.of_nat (S fuel))%N -> (0 < n)%N -> exists d r, Lsp.decimal_loop (S fuel) n acc = d :: r /\ d <> x30.
Proof.
  assert (forall k, (0 < k < 10)%N -> Lsp.digit k <> x30) as Hd.
  { intros k Hk. assert (k ∈ [1;2;3;4;5;6;7;8;9]%N) as Hin by (rewrite !elem_of_cons; lia). rewrite !elem_of_cons, elem_of_nil in Hin. destruct_or! Hin; by subst. }
  revert n acc. induction fuel as [|fuel IH]; intros n acc Hf Hn; cbn [Lsp.decimal_loop]; destruct (N.ltb_spec n 10) as [H|H].
  1,3: exists (Lsp.digit (n mod 10)), acc; split; [done|]; rewrite N.mod_small by done; apply Hd; lia.
  { simpl in Hf. lia. }
  assert (n / 10 <= n / 2)%N as H2 by (apply N.div_le_compat_l; lia). assert (0 < n / 10)%N as H3 by (apply N.div_str_pos; lia).
  assert (n / 2 < 2 ^ N.of_nat (S fuel))%N as H4 by (apply N.Div0.div_lt_upper_bound; rewrite <- N.pow_succ_r', <- Nat2N.inj_succ; done).
  apply (IH (n / 10)%N); lia.
Qed.
Lemma canonical_decimal n : (n <= Lsp.usize_max)%N -> parse_canonical_u64 (Lsp.decimal n) = Some n.
Proof.
  intros Hn. destruct (LspFacts.decimal_parses n Hn) as (Hne & Hd & Hp). unfold parse_canonical_u64. rewrite bool_decide_eq_false_2 by done. simpl orb.
  assert ((1 <? length (Lsp.decimal n))%nat && begins [x30] (Lsp.decimal n) = false) as ->.
  { destruct (decide (n = 0%N)) as [->|Hz]; [done|]. unfold Lsp.decimal. destruct (decimal_head (N.to_nat (N.log2 n)) n []) as (d & r & -> & Hd0); [rewrite Nat2N.inj_succ, N2Nat.id; apply N.log2_spec; lia|lia|].
    apply andb_false_iff. right. unfold begins. apply bool_decide_eq_false_2. simpl. congruence. }
  rewrite (proj2 (forall_forallb _ _)) by (eapply Forall_impl; [exact Hd|done]). simpl. by rewrite LspFacts.parse_usize_digits.
Qed.
Lemma nibble_value n : (n < 16)%N -> hex_value (hex_nibble n) = Some n /\ hex_lower_byte (hex_nibble n) = true.
Proof.
  intros Hn. assert (n ∈ [0;1;2;3;4;5;6;7;8;9;10;11;12;13;14;15]%N) as Hin by (rewrite !elem_of_cons; lia). rewrite !elem_of_cons, elem_of_nil in Hin. destruct_or! Hin; by subst.
Qed.
Lemma byte_nibbles b : (Byte.to_N b / 16 < 16)%N /\ (Byte.to_N b mod 16 < 16)%N /\ Byte.of_N (Byte.to_N b / 16 * 16 + Byte.to_N b mod 16) = Some b.
Proof. split_and!; [by destruct b|by destruct b|]. rewrite N.mul_comm, <- N.Div0.div_mod. apply Byte.of_to_N. Qed.
Lemma hex_back bs : from_hex (hex_lower bs) = Some bs /\ length (hex_lower bs) = (2 * length bs)%nat /\ forallb hex_lower_byte (hex_lower bs) = true.
Proof.
  induction bs as [|b bs (IH1 & IH2 & IH3)]; [done|]. destruct (byte_nibbles b) as (H1 & H2 & H3). destruct (nibble_value _ H1) as [A1 A2], (nibble_value _ H2) as [B1 B2].
  change (hex_lower (b :: bs)) with (hex_nibble (Byte.to_N b / 16) :: hex_nibble (Byte.to_N b mod 16) :: hex_lower bs). cbn [from_hex length forallb]. rewrite A1, B1, A2, B2. cbn [mbind option_bind]. rewrite H3. cbn [mbind option_bind]. rewrite IH1. simpl.
  split_and!; [done|lia|done].
Qed.
Lemma sha_back h : length h = 32%nat -> parse_sha256_hex (hex_lower h) = Some h.
Proof. intros Hl. destruct (hex_back h) as (H1 & H2 & H3). unfold parse_sha256_hex. rewrite H2, H3, Hl. done. Qed.
(** A minted nonce is one the wrapper accepts: the marker of the prompt is the marker of the turn. *)
Lemma minted_nonce_valid nonce : length nonce = 16%nat -> valid_nonce (nonce_hex nonce) = true.
Proof. intros Hl. destruct (hex_back nonce) as (_ & H2 & H3). unfold valid_nonce, nonce_hex. by rewrite H2, H3, Hl. Qed.
