(* ===== verification/Translator.v ===== *)
(** * Translation of an agent's updates ([bridge-core/src/translator.rs], [Translator])

    The stream of a backend's updates becomes the stream of events that a caller sees:
    text in chunks, usage, and one artifact at the end or one error. The stream starts
    after the backend accepted the prompt; strings are their UTF-8 bytes, and [chars]
    cuts them into characters. Policy, session store and audit store are arguments. *)
From Stdlib Require Import Strings.Byte.
From S2P Require Import Prelude Domain WorkflowGraph Framing FramePath CustodyFrame FrameDecode Permission Fallback Marker MarkerTheory MarkerQuote Json Harvest HarvestTheory.
Open Scope Z_scope.
Open Scope bridge_scope.

(** [str::chars]; [fuel] bounds the characters, and a string is well-formed UTF-8. *)
Fixpoint chars_loop (fuel : nat) (s : bytes) : list bytes :=
  match fuel, s with
  | S fuel, _ :: _ => match utf8_next s with Some r => take (length s - length r) s :: chars_loop fuel r | None => [s] end
  | _, _ => []
  end.
Definition chars (s : bytes) : list bytes := chars_loop (length s) s.

Section Translator.
Context {Usage St : Type} (sha256 : bytes -> bytes) (to_vec : Value -> result bytes string).
(** ** Updates and events *)
Inductive Update :=
| UText (t : bytes) | UFinalAnswer (t : bytes) | UPermission (req : PermissionRequest) | UUsage (snap : Usage)
| UDone (stop_reason : bytes) (prefix_attestation : PrefixAttestationStatus).
Inductive EventKind := EkStatus | EkArtifact | EkTerminal | EkUsage.
Inductive TaskOutcome := OutcomeCompleted | OutcomeFailed | OutcomeCanceled.
Record Event := mkEv { ev_kind : EventKind; ev_text : bytes; ev_source : option string; ev_outcome : option TaskOutcome; ev_usage : option Usage; ev_metadata : list (string * Value) }.
Definition status_event (t : bytes) : Event := mkEv EkStatus t None None None [].
Definition artifact_event (t : bytes) : Event := mkEv EkArtifact t None None None [].
Definition terminal_event (o : TaskOutcome) : Event := mkEv EkTerminal [] None (Some o) None [].
Definition usage_event (snap : Usage) : Event := mkEv EkUsage [] None None (Some snap) [].

(** ** The loop *)
Definition max_chunk : nat := 1200.
Definition STOP_REASON_CANCELLED : bytes := of_str "cancelled".
(** [while acc.chars().count() >= max_chunk]; [fuel] bounds the rounds. *)
Fixpoint flush_full (fuel : nat) (acc : bytes) : list Event * bytes :=
  match fuel with
  | O => ([], acc)
  | S fuel =>
      let cs := chars acc in
      if (max_chunk <=? length cs)%nat
      then let '(events, rest) := flush_full fuel (concat (drop max_chunk cs)) in (status_event (concat (take max_chunk cs)) :: events, rest)
      else ([], acc)
  end.
Definition flush_rest (acc : bytes) : list Event := match acc with [] => [] | _ => [status_event acc] end.
Record Translation := mkTr { tr_acc : bytes; tr_artifact_text : bytes; tr_saw_text_delta : bool }.
Definition tr_init : Translation := mkTr [] [] false.
Definition push_text (t : bytes) (st : Translation) : list Event * Translation :=
  let '(events, acc) := flush_full (length (tr_acc st ++ t)) (tr_acc st ++ t) in (events, mkTr acc (tr_artifact_text st ++ t) true).
(** What the run leaves: its events, the pending requests it stored, the non-empty final answers it
    reported, how it ended, and the audit store. *)
Record RunOut := mkRun { ro_events : list Event; ro_pending : list string; ro_finals : nat; ro_result : result unit AccountingFailure; ro_store : St }.
Definition emit_events (events : list Event) (o : RunOut) : RunOut := mkRun (events ++ ro_events o) (ro_pending o) (ro_finals o) (ro_result o) (ro_store o).
Definition report_final (o : RunOut) : RunOut := mkRun (ro_events o) (ro_pending o) (S (ro_finals o)) (ro_result o) (ro_store o).

Context (policy : PermissionRequest -> result PermissionDecision BridgeError) (put_pending : string -> result unit BridgeError)
  (turn_context : TurnContext) (capability : PrefixAttestationCapability) (audit : HarvestAuditStore St).
Definition on_done (stop_reason : bytes) (att : PrefixAttestationStatus) (st : Translation) (s : St) : RunOut :=
  let cancelled := bool_decide (stop_reason = STOP_REASON_CANCELLED) in
  let '(payload, origin) := if tr_saw_text_delta st then (tr_artifact_text st, ModelText) else (stop_reason, StopReasonWithoutText) in
  match commit_harvested_completion sha256 to_vec turn_context HarvestOff capability (tc_agent turn_context) origin payload att audit s with
  | (Err e, s) => mkRun [] [] 0 (Err (failure_from (bridge_error e))) s
  | (Ok committed, s) => mkRun (artifact_event (ch_effective_body committed) :: (if cancelled then [terminal_event OutcomeCanceled] else [])) [] 0 (Ok tt) s
  end.
Fixpoint translate (items : list (result Update BridgeError)) (st : Translation) (s : St) : RunOut :=
  match items with
  | [] => emit_events (flush_rest (tr_acc st)) (mkRun [] [] 0 (Err (failure_from MissingTerminal)) s)
  | Ok (UText t) :: items => let '(events, st) := push_text t st in emit_events events (translate items st s)
  | Ok (UFinalAnswer t) :: items =>
      let '(events, st) := push_text t st in
      let o := emit_events events (translate items st s) in match t with [] => o | _ => report_final o end
  | Ok (UPermission req) :: items =>
      let events := flush_rest (tr_acc st) in
      let st := mkTr [] (tr_artifact_text st) (tr_saw_text_delta st) in
      emit_events events
        match policy req with
        | Ok _ => translate items st s
        | Err _ =>
            match put_pending (rq_request_id req) with
            | Err e => mkRun [] [] 0 (Err (failure_from e)) s
            | Ok _ => mkRun [] [rq_request_id req] 0 (Err (failure_from (PermissionRequired (rq_request_id req)))) s
            end
        end
  | Ok (UUsage snap) :: items => emit_events [usage_event snap] (translate items st s)
  | Ok (UDone stop_reason att) :: _ => emit_events (flush_rest (tr_acc st)) (on_done stop_reason att st s)
  | Err e :: _ => emit_events (flush_rest (tr_acc st)) (mkRun [] [] 0 (Err (failure_from e)) s)
  end.
Definition run (items : list (result Update BridgeError)) (s : St) : RunOut := translate items tr_init s.

(** ** What a stream of updates says *)
Inductive Ending := AtDone (stop_reason : bytes) (att : PrefixAttestationStatus) | AtError (e : BridgeError) | AtDenied (req : PermissionRequest) | AtEof.
(** The updates that are heard, and what ends them. *)
Fixpoint heard (items : list (result Update BridgeError)) : list Update * Ending :=
  match items with
  | [] => ([], AtEof)
  | Err e :: _ => ([], AtError e)
  | Ok (UDone r att) :: _ => ([], AtDone r att)
  | Ok (UPermission req) :: items => match policy req with Ok _ => let '(us, e) := heard items in (UPermission req :: us, e) | Err _ => ([], AtDenied req) end
  | Ok u :: items => let '(us, e) := heard items in (u :: us, e)
  end.
Definition text_of_update (u : Update) : option bytes := match u with UText t | UFinalAnswer t => Some t | _ => None end.
Definition said (us : list Update) : bytes := concat (omap text_of_update us).
Definition spoke (us : list Update) : bool := match omap text_of_update us with [] => false | _ => true end.
Definition status_text (e : Event) : option bytes := match ev_kind e with EkStatus => Some (ev_text e) | _ => None end.
Definition told (events : list Event) : bytes := concat (omap status_text events).
(** A status is not empty and has at most [max_chunk] characters. *)
Definition fair_status (e : Event) : bool := match ev_kind e with EkStatus => (0 <? length (chars (ev_text e)))%nat && (length (chars (ev_text e)) <=? max_chunk)%nat | _ => true end.
Definition snapshots (events : list Event) : list Usage := omap ev_usage events.
Definition reported (us : list Update) : list Usage := omap (fun u => match u with UUsage s => Some s | _ => None end) us.
Definition closing (e : Event) : bool := match ev_kind e with EkArtifact | EkTerminal => true | _ => false end.
End Translator.

(** ** Characters *)
(** The encoding of one character. *)
Definition scalar (s : bytes) : Prop := s <> [] /\ forall r, utf8_next (s ++ r) = Some r.
Lemma utf8_cut (b : byte) (l : bytes) : utf8_valid (b :: l) = true -> exists s r, b :: l = s ++ r /\ scalar s /\ utf8_valid r = true.
Proof.
  intros Hv. pose proof Hv as Hv'. rewrite utf8_valid_next in Hv. destruct (utf8_next (b :: l)) as [r|] eqn:En; [|done]. destruct (is_ascii b) eqn:Ea.
  - exists [b], l. assert (forall r, utf8_next (b :: r) = Some r) as Hb by (intros r0; unfold utf8_next; unfold is_ascii in Ea; by rewrite Ea). split_and!; [done|done|]. rewrite Hb in En. by injection En as ->.
  - destruct (utf8_scalar _ _ _ Ea En) as (t & -> & _ & Hall). by exists (b :: t), r.
Qed.
Lemma chars_loop_cons s r fuel : scalar s -> chars_loop (S fuel) (s ++ r) = s :: chars_loop fuel r.
Proof.
  intros [Hne Hs]. destruct s as [|b s]; [done|]. cbn [chars_loop app]. change (b :: s ++ r) with ((b :: s) ++ r). rewrite Hs, length_app, Nat.add_sub, take_app_length. done.
Qed.
Lemma chars_loop_scalars fuel l : Forall scalar l -> (length (concat l) <= fuel)%nat -> chars_loop fuel (concat l) = l.
Proof.
  intros Hl. revert fuel. induction Hl as [|s l Hs Hl IH]; intros fuel Hf; [by destruct fuel|]. simpl in *. rewrite length_app in Hf. destruct fuel as [|fuel]; [destruct s; [by destruct Hs|simpl in Hf; lia]|].
  rewrite chars_loop_cons by done. f_equal. apply IH. destruct s; [by destruct Hs|simpl in Hf; lia].
Qed.
Lemma chars_scalars l : Forall scalar l -> chars (concat l) = l.
Proof. intros Hl. by apply chars_loop_scalars. Qed.
Lemma utf8_scalars (s : bytes) : utf8_valid s = true -> exists l, s = concat l /\ Forall scalar l.
Proof.
  induction s as [s IH] using (induction_ltof1 _ length). unfold ltof in IH. intros Hv. destruct s as [|b s]; [by exists []|]. destruct (utf8_cut _ _ Hv) as (c & r & E & Hc & Hr). rewrite E in *. destruct (IH r) as (l & -> & Hl); [|done|].
  - rewrite length_app. destruct c; [by destruct Hc|simpl; lia].
  - exists (c :: l). split; [done|by constructor].
Qed.

(** ** The loop against what is said *)
Section Facts.
Context {Usage St : Type} (sha256 : bytes -> bytes) (to_vec : Value -> result bytes string).
Context (policy : PermissionRequest -> result PermissionDecision BridgeError) (put_pending : string -> result unit BridgeError)
  (turn_context : TurnContext) (capability : PrefixAttestationCapability) (audit : HarvestAuditStore St).
Local Abbreviation translate := (translate (Usage := Usage) sha256 to_vec policy put_pending turn_context capability audit).
Local Abbreviation on_done := (on_done (Usage := Usage) sha256 to_vec turn_context capability audit).
(** Events that only carry text and usage, and how they change what was told. *)
Record plain (events : list (Event (Usage := Usage))) : Prop := { pl_fair : Forall (fun e => fair_status e = true) events; pl_open : Forall (fun e => closing e = false) events }.
Lemma plain_app a b : plain a -> plain b -> plain (a ++ b).
Proof. intros [H1 H2] [H3 H4]. split; by apply Forall_app. Qed.
Lemma told_app (a b : list (Event (Usage := Usage))) : told (a ++ b) = told a ++ told b.
Proof. unfold told. by rewrite omap_app, concat_app. Qed.
Lemma snapshots_app (a b : list (Event (Usage := Usage))) : snapshots (a ++ b) = snapshots a ++ snapshots b.
Proof. apply omap_app. Qed.
Lemma status_plain l : Forall scalar l -> (0 < length l <= max_chunk)%nat -> plain [status_event (concat l)].
Proof.
  intros Hl Hn. split; repeat constructor. unfold fair_status. simpl. rewrite chars_scalars by done. apply andb_true_iff. split; [apply Nat.ltb_lt; lia|apply Nat.leb_le; lia].
Qed.
Lemma flush_full_spec fuel l : Forall scalar l -> (length l <= fuel)%nat -> exists events l', flush_full fuel (concat l) = (events, concat l') /\ Forall scalar l' /\ (length l' < max_chunk)%nat /\
  plain events /\ told events ++ concat l' = concat l /\ snapshots events = [].
Proof.
  revert l. induction fuel as [|fuel IH]; intros l Hl Hf.
  { destruct l; [|simpl in Hf; lia]. exists [], []. split_and!; try done. unfold max_chunk. simpl. lia. }
  cbn [flush_full]. rewrite chars_scalars by done. destruct (Nat.leb_spec max_chunk (length l)) as [H|H].
  - destruct (IH (drop max_chunk l)) as (events & l' & E & H1 & H2 & H3 & H4 & H5); [by apply Forall_drop|rewrite length_drop; unfold max_chunk in *; lia|]. rewrite E. exists (status_event (concat (take max_chunk l)) :: events), l'. split_and!; [done|done|done| | |done].
    + change (?x :: events) with ([x] ++ events). apply plain_app; [|done]. apply status_plain; [by apply Forall_take|]. rewrite length_take. unfold max_chunk in *. lia.
    + change (told (status_event (concat (take max_chunk l)) :: events)) with (concat (take max_chunk l) ++ told events). rewrite <- app_assoc, H4, <- concat_app. by rewrite take_drop.
  - exists [], l. split_and!; try done.
Qed.
Lemma flush_rest_spec l : Forall scalar l -> (length l < max_chunk)%nat -> plain (flush_rest (Usage := Usage) (concat l)) /\ told (flush_rest (Usage := Usage) (concat l)) = concat l /\ snapshots (flush_rest (Usage := Usage) (concat l)) = [].
Proof.
  intros Hl Hn. unfold flush_rest. destruct l as [|s l]; [done|]. destruct (concat (s :: l)) as [|b bs] eqn:E; [done|]. rewrite <- E. split_and!; [|unfold told; simpl; by rewrite app_nil_r|done].
  apply status_plain; [done|simpl in *; lia].
Qed.
(** The state of the loop: less than a chunk is held back. *)
Definition held (st : Translation) (l : list bytes) : Prop := tr_acc st = concat l /\ Forall scalar l /\ (length l < max_chunk)%nat.
Lemma push_text_spec t st l : held st l -> utf8_valid t = true -> exists events st' l', push_text (Usage := Usage) t st = (events, st') /\ held st' l' /\ tr_artifact_text st' = tr_artifact_text st ++ t /\ tr_saw_text_delta st' = true /\
  plain events /\ told events ++ tr_acc st' = tr_acc st ++ t /\ snapshots events = [].
Proof.
  intros (Ha & Hl & Hn) Ht. destruct (utf8_scalars _ Ht) as (lt & -> & Hlt). unfold push_text. rewrite Ha, <- concat_app. assert (Forall scalar (l ++ lt)) as Hall by (by apply Forall_app).
  assert (length (l ++ lt) <= length (concat (l ++ lt)))%nat as Hle by (clear -Hall; induction Hall as [|s k Hs Hk IH]; simpl; [lia|]; rewrite length_app; destruct s; [by destruct Hs|simpl; lia]).
  destruct (flush_full_spec (length (concat (l ++ lt))) (l ++ lt) Hall Hle) as (events & l' & -> & H1 & H2 & H3 & H4 & H5). by exists events, (mkTr (concat l') (tr_artifact_text st ++ concat lt) true), l'.
Qed.
Definition texts_ok (items : list (result (Update (Usage := Usage)) BridgeError)) : Prop := Forall (fun i => match i with Ok u => match text_of_update u with Some t => utf8_valid t = true | None => True end | Err _ => True end) items.
(** How a run ends, from what was said. *)
Definition ending_of (e : Ending) (text : bytes) (saw : bool) (s : St) : RunOut (Usage := Usage) :=
  match e with
  | AtDone r att => on_done r att (mkTr [] text saw) s
  | AtError x => mkRun [] [] 0 (Err (failure_from x)) s
  | AtDenied req => match put_pending (rq_request_id req) with Err x => mkRun [] [] 0 (Err (failure_from x)) s | Ok _ => mkRun [] [rq_request_id req] 0 (Err (failure_from (PermissionRequired (rq_request_id req)))) s end
  | AtEof => mkRun [] [] 0 (Err (failure_from MissingTerminal)) s
  end.
(** Events before the end: what they tell continues what is held back. *)
Record runs_to (o : RunOut (Usage := Usage)) (st : Translation) (us : list (Update (Usage := Usage))) (fin : RunOut (Usage := Usage) (St := St)) : Prop := {
  rt_events : exists pre, ro_events o = pre ++ ro_events fin /\ plain pre /\ told pre = tr_acc st ++ said us /\ snapshots pre = reported us;
  rt_rest : ro_pending o = ro_pending fin /\ ro_result o = ro_result fin /\ ro_store o = ro_store fin }.
Lemma runs_emit events o st st' us us' fin : runs_to o st' us fin -> plain events -> told events ++ tr_acc st' ++ said us = tr_acc st ++ said us' -> snapshots events ++ reported us = reported us' -> runs_to (emit_events events o) st us' fin.
Proof.
  intros [(pre & E & Hp & Ht & Hs) Hr] Hpl Htold Hsnap. split; [|done]. exists (events ++ pre). split_and!; [simpl; by rewrite E, app_assoc|by apply plain_app|by rewrite told_app, Ht|by rewrite snapshots_app, Hs].
Qed.
Lemma runs_end events o fin st us : plain events -> told events = tr_acc st -> snapshots events = [] -> ro_events o = ro_events fin -> ro_pending o = ro_pending fin -> ro_result o = ro_result fin -> ro_store o = ro_store fin -> us = [] -> runs_to (emit_events events o) st us fin.
Proof. intros Hp Ht Hs H1 H2 H3 H4 ->. split; [|done]. exists events. split_and!; [simpl; by rewrite H1|done|unfold said; simpl; by rewrite app_nil_r|done]. Qed.
Lemma translate_spec items st s l : held st l -> texts_ok items -> let '(us, e) := heard policy items in
  runs_to (translate items st s) st us (ending_of e (tr_artifact_text st ++ said us) (tr_saw_text_delta st || spoke us) s).
Proof.
  revert st l. induction items as [|i items IH]; intros st l (Ha & Hl & Hn) Hok; destruct (flush_rest_spec l Hl Hn) as (F1 & F2 & F3); rewrite <- Ha in F1, F2, F3.
  { cbn [heard Translator.translate]. by apply runs_end. }
  apply Forall_cons in Hok as [Hi Hok]. destruct i as [u|x]; [|cbn [heard Translator.translate]; by apply runs_end].
  assert (held st l) as Hh by done. assert (forall t, (u = UText t \/ u = UFinalAnswer t) -> utf8_valid t = true -> let '(us, e) := heard policy items in let '(events, st') := push_text t st in
    runs_to (emit_events events (translate items st' s)) st (u :: us) (ending_of e (tr_artifact_text st ++ said (u :: us)) (tr_saw_text_delta st || spoke (u :: us)) s)) as Htext.
  { intros t Hu Ht. destruct (push_text_spec t st l Hh Ht) as (events & st' & l' & -> & Hh' & E1 & E2 & Hp & Htold & Hs). specialize (IH st' l' Hh' Hok). destruct (heard policy items) as [us e].
    assert (said (u :: us) = t ++ said us) as Es by (by destruct Hu as [->| ->]). assert (spoke (u :: us) = true) as Esp by (by destruct Hu as [->| ->]). assert (reported (u :: us) = reported us) as Er by (by destruct Hu as [->| ->]).
    rewrite E1, E2 in IH. rewrite Es, Esp, orb_true_r, app_assoc. eapply runs_emit; [exact IH|done|by rewrite Es, app_assoc, Htold, <- app_assoc|by rewrite Hs, Er]. }
  destruct u as [t|t|req|snap|r att]; cbn [heard Translator.translate].
  - specialize (Htext t ltac:(by left) Hi). by destruct (heard policy items) as [us e], (push_text t st) as [events st'].
  - specialize (Htext t ltac:(by right) Hi). destruct (heard policy items) as [us e], (push_text t st) as [events st']. destruct t; [done|]. destruct Htext as [H1 H2]. by split.
  - destruct (policy req) as [d|x].
    + specialize (IH (mkTr [] (tr_artifact_text st) (tr_saw_text_delta st)) [] ltac:(split_and!; [done|constructor|unfold max_chunk; simpl; lia]) Hok). destruct (heard policy items) as [us e]. eapply runs_emit; [exact IH|done|by rewrite F2|by rewrite F3].
    + apply runs_end; try done; unfold ending_of; by destruct (put_pending (rq_request_id req)).
  - specialize (IH st l Hh Hok). destruct (heard policy items) as [us e]. eapply runs_emit; [exact IH| |done|done]. split; by repeat constructor.
  - apply runs_end; try done; unfold ending_of, said, spoke; simpl; rewrite app_nil_r, orb_false_r; unfold Translator.on_done; done.
Qed.
Lemma commit_off ctx cap p origin raw att s c s' : commit_harvested_completion sha256 to_vec ctx HarvestOff cap p origin raw att audit s = (Ok c, s') -> ch_effective_body c = raw.
Proof.
  unfold commit_harvested_completion. destruct (audit_id_for _ _ _ _ _); [|done]. destruct (provenance_sha256 _ _ _ _ _ _); [|done]. destruct (_ && _); [by intros [= <- _]|]. destruct (commit_bundle _ _ _ _) as [[]]; [by intros [= <- _]|done].
Qed.
(** C22: A translated stream loses, repeats and reorders no text and ends exactly once. The statuses
    together are the text of the updates up to the one that ends the stream, in
    order, each of one to twelve hundred characters, and every usage snapshot comes
    through in order. Ended by [Done], the stream closes with one artifact that holds
    all the text, or the stop reason where there was none, followed by a terminal event
    only if the turn was cancelled; or, if its audit could not be stored, with that
    error. A backend error, a denied permission and the end of the updates without
    [Done] are errors of the stream, without an artifact: the backend's own error, a
    suspension whose request was stored (or the error of storing it), and a missing
    terminal. *)
Theorem translation_ends_once items s : texts_ok items -> let o := run sha256 to_vec policy put_pending turn_context capability audit items s in let '(us, e) := heard policy items in
  told (ro_events o) = said us /\ Forall (fun e => fair_status e = true) (ro_events o) /\ snapshots (ro_events o) = reported us /\
  exists pre last, ro_events o = pre ++ last /\ Forall (fun e => closing e = false) pre /\
  match e with
  | AtDone r _ =>
      (ro_result o = Ok tt /\ last = artifact_event (if spoke us then said us else r) :: (if bool_decide (r = STOP_REASON_CANCELLED) then [terminal_event OutcomeCanceled] else [])) \/
      (exists id, ro_result o = Err (failure_from (HarvestAuditPersistFailed id)) /\ last = [])
  | AtError x => ro_result o = Err (failure_from x) /\ last = []
  | AtDenied req => last = [] /\ match put_pending (rq_request_id req) with
      | Ok _ => ro_result o = Err (failure_from (PermissionRequired (rq_request_id req))) /\ ro_pending o = [rq_request_id req]
      | Err x => ro_result o = Err (failure_from x) /\ ro_pending o = [] end
  | AtEof => ro_result o = Err (failure_from MissingTerminal) /\ last = []
  end.
Proof.
  intros Hok. cbv zeta. unfold run. pose proof (translate_spec items tr_init s [] ltac:(split_and!; [done|constructor|unfold max_chunk; simpl; lia]) Hok) as H. destruct (heard policy items) as [us e].
  destruct H as [(pre & E & [Hf Hc] & Ht & Hs) (Hp & Hr & _)]. set (fin := ending_of e _ _ s) in *. change (tr_artifact_text tr_init ++ said us) with (said us) in fin. change (tr_saw_text_delta tr_init || spoke us) with (spoke us) in fin.
  assert (told (ro_events fin) = [] /\ Forall (fun e => fair_status e = true) (ro_events fin) /\ snapshots (ro_events fin) = []) as (H1 & H2 & H3).
  { unfold fin, ending_of. destruct e as [r att|x|req|]; [|done|by destruct (put_pending _)|done]. unfold Translator.on_done. destruct (if tr_saw_text_delta _ then _ else _) as [payload origin]. destruct (commit_harvested_completion _ _ _ _ _ _ _ _ _ _ _) as [[c|ce] s']; [|done].
    case_bool_decide; split_and!; by repeat constructor. }
  rewrite E, told_app, snapshots_app, Ht, Hs, H1, H3, !app_nil_r. split_and!; [done|by apply Forall_app|done|]. exists pre, (ro_events fin). split_and!; [done|done|]. rewrite Hr, Hp. clear -H1. unfold fin, ending_of.
  destruct e as [r att|x|req|]; [|done|by destruct (put_pending _)|done]. unfold Translator.on_done. cbn [tr_saw_text_delta tr_artifact_text]. destruct (spoke us).
  all: destruct (commit_harvested_completion _ _ _ _ _ _ _ _ _ _ _) as [[c|ce] s'] eqn:Ec; [left; split; [done|]; by rewrite (commit_off _ _ _ _ _ _ _ _ _ Ec)|right; by eexists].
Qed.
End Facts.

Definition allow_none (req : PermissionRequest) : result PermissionDecision BridgeError := Err PermissionDenied.
Definition demo_items : list (result (Update (Usage := N)) BridgeError) := [Ok (UText (of_str "hello ")); Ok (UUsage 3%N); Ok (UText (of_str "world"))].
Lemma translation_ends_once_witness : told (ro_events (run (Usage := N) pad_sha demo_json allow_none (fun _ => Ok tt) demo_context codex_commit_marker_v1 noop_store demo_items tt)) = of_str "hello world" /\
  ro_result (run (Usage := N) pad_sha demo_json allow_none (fun _ => Ok tt) demo_context codex_commit_marker_v1 noop_store demo_items tt) = Err (failure_from MissingTerminal).
Proof.
  split; [|vm_compute; reflexivity].
  exact (proj1 (translation_ends_once (Usage := N) pad_sha demo_json allow_none (fun _ => Ok tt) demo_context codex_commit_marker_v1 noop_store demo_items tt ltac:(repeat constructor))).
Defined.
(** Usage is passed on at once: it overtakes text that is held back. *)
Lemma usage_overtakes_text : ev_kind <$> ro_events (run (Usage := N) pad_sha demo_json allow_none (fun _ => Ok tt) demo_context codex_commit_marker_v1 noop_store demo_items tt) = [EkUsage; EkStatus].
Proof. vm_compute. reflexivity. Qed.
