(* ===== verification/TurnStream.v ===== *)
(** * From a session notification to a node's completion body
      ([bridge-acp/src/acp_backend.rs], the notification handler and the turn's stream;
      [bridge-workflow/src/executor.rs], the loop of a warm node's turn)

    The handler routes a notification to the turn of its session: terminal evidence and
    prefix control frames are taken out, text, usage and rich updates become events of the
    turn's channel. The stream hands the events on, and the node collects the text. A
    notification is what the protocol library reads from a frame's parameters, with what
    [serde_json::to_value] makes of it again. *)
From Stdlib Require Import Strings.Byte.
From S2P Require Import Prelude Domain WorkflowGraph Framing FramePath CustodyFrame FrameDecode Permission Fallback Marker MarkerTheory MarkerQuote Json Harvest HarvestTheory PrefixControl Translator.
Open Scope Z_scope.
Open Scope bridge_scope.

(** [PrefixAttestationStatus::default]. *)
Definition default_status : PrefixAttestationStatus := unavailable [] [] BackendDeclaredIncapable.

Section Stream.
Context {Usage Rich : Type}.
Local Abbreviation Update := (Update (Usage := Usage)).

(** ** Notifications *)
Inductive ContentBlock := CbText (text : bytes) | CbOther.
(** [SuRich]: a plan, a tool call or an update of one. *)
Inductive SessionUpdate :=
| SuAgentMessageChunk (meta : option Map) (content : ContentBlock)
| SuUsage (snap : Usage)
| SuRich (r : Rich)
| SuOther.
Record SessionNotification := mkNotification { sn_session_id : bytes; sn_update : SessionUpdate; sn_value : Value }.

Definition final_answer (meta : option Map) : bool :=
  match meta with Some m => str_is "final_answer" (field "codex.phase" m) | None => false end.
Definition map_session_update (n : SessionNotification) : option Update :=
  match sn_update n with
  | SuAgentMessageChunk meta (CbText t) => Some (if final_answer meta then UFinalAnswer t else UText t)
  | SuUsage snap => Some (UUsage snap)
  | _ => None
  end.
(** The bounds on the strings of a rich update are left out. *)
Definition map_session_update_rich (n : SessionNotification) : option Rich :=
  match sn_update n with SuRich r => Some r | _ => None end.
Definition thought_delta_len (n : SessionNotification) : option nat :=
  update ← get "update" (sn_value n);
  if text_is (of_str "agent_thought_chunk") (get "sessionUpdate" update)
  then length <$> ((get "content" update ≫= get "text") ≫= as_str) else None.

Definition TURN_EVIDENCE_CONTROL_PREFIX : bytes := of_str "_a2a_bridge_turn_evidence/".
Definition TURN_EVIDENCE_META_KEY : string := "a2a_bridge.turn_evidence".
(** [Some]: the notification is terminal evidence of the turn; [Err]: malformed. The entry is
    decoded by the evidence's own reader. *)
Definition parse_terminal_evidence_notification (n : SessionNotification) (turn_id : bytes) : option (result Value unit) :=
  update ← get "update" (sn_value n);
  if negb (text_is (of_str "agent_message_chunk") (get "sessionUpdate" update)) then None
  else if negb (text_is (TURN_EVIDENCE_CONTROL_PREFIX ++ turn_id) (get "messageId" update)) then None
  else
    let content_text := (get "content" update ≫= get "text") ≫= as_str in
    match get "_meta" update ≫= as_object with
    | None => Some (Err tt)
    | Some meta =>
        if negb (bool_decide (content_text = Some [])) || negb (length meta =? 1)%nat then Some (Err tt)
        else match field TURN_EVIDENCE_META_KEY meta with None => Some (Err tt) | Some envelope => Some (Ok envelope) end
    end.
Definition is_evidence (n : SessionNotification) (turn_id : bytes) : bool :=
  match parse_terminal_evidence_notification n turn_id with Some _ => true | None => false end.

(** ** The notification handler *)
Inductive TurnEvent :=
| TeText (t : bytes) | TeFinalAnswer (t : bytes) | TeUsage (snap : Usage) | TeRich (r : Rich)
| TeDone (stop_reason : bytes) (att : PrefixAttestationStatus) | TeFailed (e : BridgeError).
(** The route of a turn: its attestation, the turn its evidence is bound to, the events sent. *)
Record TurnRoute := mkRoute { tr_prefix : option PrefixTurnState; tr_evidence : option bytes; tr_sent : list TurnEvent }.
Definition turn_event (n : SessionNotification) : option TurnEvent :=
  match map_session_update_rich n with
  | Some r => Some (TeRich r)
  | None =>
      match map_session_update n with
      | Some (UText t) => Some (TeText t)
      | Some (UFinalAnswer t) => Some (TeFinalAnswer t)
      | Some (UUsage snap) => Some (TeUsage snap)
      | _ => None
      end
  end.
(** The end of the handler: a control frame is recorded, a thought is only counted, anything else
    is sent to the turn. *)
Definition route_notification (n : SessionNotification) (r : TurnRoute) : TurnRoute :=
  let deliver :=
    match thought_delta_len n with
    | Some _ => r
    | None => match turn_event n with Some te => mkRoute (tr_prefix r) (tr_evidence r) (tr_sent r ++ [te]) | None => r end
    end in
  match tr_prefix r with
  | Some ps => let (ps', taken) := on_notification true (sn_value n) ps in
               if taken then mkRoute (Some ps') (tr_evidence r) (tr_sent r) else deliver
  | None => deliver
  end.
(** [tombstones]: the finished turns, by session, that may still get evidence. *)
Definition on_receive_notification (tombstones : list (bytes * bytes)) (session : bytes) (n : SessionNotification)
    (route : option TurnRoute) : option TurnRoute :=
  if negb (bool_decide (sn_session_id n = session)) then route
  else if match route ≫= tr_evidence with Some turn => is_evidence n turn | None => false end then route
  else if existsb (fun '(s, turn) => bool_decide (s = session) && is_evidence n turn) tombstones then route
  else route_notification n <$> route.

(** ** The turn's driver and stream *)
(** The events at the end of a turn: [before] and [after] are the first errors of the records that
    the driver makes up to the usage of the response and after it. *)
Definition driver_events (requested : bool) (prefix : option PrefixTurnState) (before after : option BridgeError)
    (outcome : result (bytes * option Usage) BridgeError) : list TurnEvent :=
  match before, outcome with
  | Some e, _ => [TeFailed e]
  | None, Err e => [TeFailed e]
  | None, Ok (stop_reason, usage) =>
      option_list (TeUsage <$> usage) ++
      [match after with
       | Some e => TeFailed e
       | None =>
           TeDone stop_reason
             (match close_control <$> prefix with
              | Some s => terminal_status_after_control_quiescence requested false s s
              | None => default_status
              end)
       end]
  end.
Fixpoint turn_stream (events : list TurnEvent) : list (result Update BridgeError) :=
  match events with
  | [] => []
  | TeRich _ :: events => turn_stream events
  | TeText t :: events => Ok (UText t) :: turn_stream events
  | TeFinalAnswer t :: events => Ok (UFinalAnswer t) :: turn_stream events
  | TeUsage snap :: events => Ok (UUsage snap) :: turn_stream events
  | TeDone stop att :: _ => [Ok (UDone stop att)]
  | TeFailed e :: _ => [Err e]
  end.

(** ** The node *)
Inductive NodeTurnExit := ExNormal | ExCanceled | ExError (e : BridgeError).
Record NodeTurn := mkNode { nt_text : bytes; nt_ok : bool; nt_saw_done : bool; nt_done_cancelled : bool;
  nt_attestation : PrefixAttestationStatus; nt_exit : NodeTurnExit }.
Context (debug : BridgeError -> bytes) (node : bytes).
Definition node_canceled : bytes := of_str "[node " ++ node ++ of_str " canceled]".
Definition node_failed (what : string) (e : BridgeError) : bytes := of_str "[node " ++ node ++ of_str what ++ debug e ++ of_str "]".
Definition stream_dropped_error : BridgeError := AgentCrashed "backend stream ended before terminal Done".
(** An item of the stream, with whether the cancellation is observed once it is taken; [None]: the
    cancellation came while the stream was pending. *)
Fixpoint collect_turn (items : list (option (result Update BridgeError * bool))) (text : bytes) : NodeTurn :=
  let canceled := mkNode node_canceled false false false default_status ExCanceled in
  match items with
  | [] => mkNode (node_failed " failed: " stream_dropped_error) false false false default_status (ExError stream_dropped_error)
  | None :: _ => canceled
  | Some (Ok (UText t), c) :: items | Some (Ok (UFinalAnswer t), c) :: items => if c then canceled else collect_turn items (text ++ t)
  | Some (Ok (UPermission _), c) :: items | Some (Ok (UUsage _), c) :: items => if c then canceled else collect_turn items text
  | Some (Ok (UDone stop att), _) :: _ =>
      let cancelled := bool_decide (stop = STOP_REASON_CANCELLED) in mkNode text (negb cancelled) true cancelled att ExNormal
  | Some (Err e, _) :: _ => mkNode (node_failed " failed: " e) false false false default_status (ExError e)
  end.
Definition blank (b : bytes) : bool := all_white_space (String.string_of_list_byte b).
Definition check_empty_final (t : NodeTurn) : NodeTurn :=
  if nt_saw_done t && nt_ok t && blank (nt_text t)
  then mkNode (node_failed " failed: " EmptyFinal) false true (nt_done_cancelled t) (nt_attestation t) (ExError EmptyFinal)
  else t.
(** The rich sink is flushed, then the operation's cleanup settles; an error of either fails the node
    unless an earlier failure did. *)
Definition after_flush (flush_error : option BridgeError) (t : NodeTurn) : NodeTurn :=
  match flush_error, nt_ok t, nt_exit t with
  | Some e, true, ExNormal => mkNode (node_failed " rich-flush failed: " e) false (nt_saw_done t) (nt_done_cancelled t) (nt_attestation t) (ExError e)
  | _, _, _ => t
  end.
Record NodeRunOutput := mkOutput { no_text : bytes; no_ok : bool; no_attestation : PrefixAttestationStatus; no_origin : CompletionBodyOrigin }.
Definition finish_node (cleanup_error : option BridgeError) (t : NodeTurn) : NodeRunOutput :=
  let failed := match nt_exit t with ExError _ => true | _ => false end in
  let '(text, ok, canceled) :=
    match cleanup_error with
    | Some e => if failed then (nt_text t, nt_ok t, false) else (node_failed " cleanup failed: " e, false, false)
    | None => (nt_text t, nt_ok t, match nt_exit t with ExCanceled => true | _ => false end)
    end in
  mkOutput text ok (nt_attestation t)
    (if canceled then SyntheticCancellation
     else if match nt_exit t with ExError EmptyFinal => true | _ => false end then SyntheticEmptyFinal
     else if negb (nt_saw_done t) then SyntheticMissingDone
     else if nt_done_cancelled t then SyntheticCancellation
     else if ok && match nt_exit t with ExNormal => true | _ => false end then ModelText
     else if match nt_exit t with ExError (AgentCrashed _) => true | _ => false end then SyntheticMissingDone
     else SyntheticStreamError).
Definition run_node (items : list (option (result Update BridgeError * bool))) (flush_error cleanup_error : option BridgeError) : NodeRunOutput :=
  finish_node cleanup_error (after_flush flush_error (check_empty_final (collect_turn items []))).

(** ** What the node collects *)
Definition text_of (te : TurnEvent) : bytes := match te with TeText t | TeFinalAnswer t => t | _ => [] end.
Definition texts (events : list TurnEvent) : bytes := concat (text_of <$> events).
Definition ends (te : TurnEvent) : bool := match te with TeDone _ _ | TeFailed _ => true | _ => false end.
(** The stream with no cancellation observed. *)
Definition uncanceled (items : list (result Update BridgeError)) : list (option (result Update BridgeError * bool)) :=
  (fun i => Some (i, false)) <$> items.

Lemma texts_app a b : texts (a ++ b) = texts a ++ texts b.
Proof. unfold texts. by rewrite fmap_app, concat_app. Qed.
Lemma collect_text events stop att acc :
  Forall (fun te => ends te = false) events ->
  collect_turn (uncanceled (turn_stream (events ++ [TeDone stop att]))) acc =
    let cancelled := bool_decide (stop = STOP_REASON_CANCELLED) in mkNode (acc ++ texts events) (negb cancelled) true cancelled att ExNormal.
Proof.
  intros He. revert acc. induction He as [|te events Hte He IH]; intros acc; [by rewrite app_nil_r|].
  unfold uncanceled in *. unfold texts. cbn [fmap list_fmap concat app]. fold (texts events). destruct te; try done; cbn [turn_stream fmap list_fmap collect_turn text_of app]; rewrite IH; by rewrite ?app_assoc, ?app_nil_l.
Qed.
(** A completed turn whose text is not blank, with nothing failing after it, is the model's own text. *)
Lemma node_keeps_text events stop att :
  Forall (fun te => ends te = false) events -> stop <> STOP_REASON_CANCELLED -> blank (texts events) = false ->
  run_node (uncanceled (turn_stream (events ++ [TeDone stop att]))) None None = mkOutput (texts events) true att ModelText.
Proof.
  intros He Hs Hb. unfold run_node. rewrite collect_text by done. cbn zeta. rewrite bool_decide_eq_false_2 by done.
  unfold check_empty_final. cbn [nt_saw_done nt_ok nt_text negb andb]. simpl app. rewrite Hb. done.
Qed.
End Stream.
