(* ===== verification/AttestedTurn.v ===== *)
(** * A turn from the agent's text to the released deliverable

    The wrapper, the protocol library and the bridge composed: what the bridge makes of
    the frames the wrapper writes, that a child cannot attest anything itself, and what
    the bridge releases for an agent that follows the contract. *)
From Stdlib Require Import Strings.Byte.
From S2P Require Import Prelude Domain WorkflowGraph Framing FramePath CustodyFrame FrameDecode Permission Fallback Marker MarkerTheory MarkerQuote Json Harvest HarvestTheory Wrapper WrapperTheory WrapperSystem PrefixControl Translator TurnStream.
Open Scope Z_scope.
Open Scope bridge_scope.

(** What the protocol library promises of a notification that it read from a frame's parameters and
    serialises again: the metadata of its update is that of the frame. *)
Class NotificationCodec {Usage Rich} (decode : Value -> option (SessionNotification (Usage := Usage) (Rich := Rich))) : Prop := {
  nc_meta : forall p n u m, decode p = Some n -> get "update" (sn_value n) = Some u -> get "_meta" u ≫= as_object = Some m -> exists u0, get "update" p = Some u0 /\ get "_meta" u0 ≫= as_object = Some m }.

(** The text of the parameters of a message chunk. *)
Definition chunk_text (p : Value) : option bytes :=
  update ← get "update" p;
  kind ← (get "sessionUpdate" update ≫= as_str);
  if bool_decide (kind = of_str "agent_message_chunk") then
    content ← get "content" update;
    type ← (get "type" content ≫= as_str);
    if bool_decide (type = of_str "text") then get "text" content ≫= as_str else None
  else None.
(** The parameters of a message chunk with an id and metadata. *)
Definition chunk_params (session id text : bytes) (meta : Map) : Value :=
  JObj [("sessionId", JStr session);
        ("update", JObj [("sessionUpdate", js "agent_message_chunk"); ("messageId", JStr id); ("content", JObj [("type", js "text"); ("text", JStr text)]); ("_meta", JObj meta)])].
Definition update_str (k : string) (v : Value) : option bytes := (get "update" v ≫= get k) ≫= as_str.
(** The schema of a session notification, as far as a turn depends on it: the session is required; the
    kind of the update is kept and selects its reading, so that text chunks, and only they,
    are read as text; no message id is invented; any text is accepted where one is; and a
    message chunk with an id and metadata is read and keeps them. *)
Class AcpSchema {Usage Rich} (decode : Value -> option (SessionNotification (Usage := Usage) (Rich := Rich))) : Prop := {
  as_codec :: NotificationCodec decode;
  as_session : forall p n, decode p = Some n -> get "sessionId" p ≫= as_str = Some (sn_session_id n);
  as_text : forall p n t, decode p = Some n -> chunk_text p = Some t <-> exists meta, sn_update n = SuAgentMessageChunk meta (CbText t);
  as_kind : forall p n, decode p = Some n -> update_str "sessionUpdate" (sn_value n) = update_str "sessionUpdate" p;
  as_message_id : forall p n id, decode p = Some n -> update_str "messageId" (sn_value n) = Some id -> update_str "messageId" p = Some id;
  as_any_text : forall p n t c, decode p = Some n -> chunk_text p = Some t -> utf8_valid c = true -> is_Some (decode (set_path ["update"; "content"; "text"] (JStr c) p));
  as_chunk : forall session id text meta, value_ok (chunk_params session id text meta) = true -> exists n u, decode (chunk_params session id text meta) = Some n /\ get "update" (sn_value n) = Some u /\
    get "messageId" u ≫= as_str = Some id /\ (get "content" u ≫= get "text") ≫= as_str = Some text /\ get "_meta" u ≫= as_object = Some meta }.

Section Turn.
Context {Usage Rich : Type}.
Local Abbreviation Notif := (SessionNotification (Usage := Usage) (Rich := Rich)).
Local Abbreviation Route := (TurnRoute (Usage := Usage) (Rich := Rich)).
Context (parse : bytes -> option Value) (print : Value -> bytes) (sha256 : bytes -> bytes) (decode : Value -> option Notif) `{!JsonCodec parse print}.
Definition frame_of (w : Written) : bytes := match w with Reply f | FromChild f | ControlOf _ _ f => f end.
(** The notification a frame is for the bridge. *)
Definition notification (w : Written) : option Notif :=
  v ← parse (frame_of w); if str_is "session/update" (get "method" v) then get "params" v ≫= decode else None.
(** The protocol library gives the frames' notifications to the handler, in order. *)
Definition bridge_reads (tombstones : list (bytes * bytes)) (session : bytes) (out : list Written) (route : option Route) : option Route :=
  fold_left (fun r w => match notification w with Some n => on_receive_notification tombstones session n r | None => r end) out route.

(** ** Forgery *)
Lemma free_get k v x : reserved_free v = true -> get k v = Some x -> reserved_free x = true.
Proof.
  destruct v as [| | | | |o]; try done. unfold get. cbn [reserved_free]. intros [_ Hall%forall_forallb]%andb_true_iff Hx%field_in. by apply (proj1 (Forall_forall _ _) Hall (k, x)).
Qed.
Lemma free_meta v m : reserved_free v = true -> get "_meta" v ≫= as_object = Some m -> field META_KEY m = None.
Proof.
  destruct v as [| | | | |o]; try done. unfold get. cbn [reserved_free]. intros [Hc _]%andb_true_iff. unfold meta_clean in Hc. destruct (field "_meta" o) as [[]|]; try done. simpl. intros [= ->]. by destruct (field META_KEY m).
Qed.
Lemma free_refused `{!NotificationCodec decode} p n s : reserved_free p = true -> decode p = Some n ->
  parse_prefix_control_notification (sn_value n) s = None \/ parse_prefix_control_notification (sn_value n) s = Some (px_rejected s MalformedMetadata).
Proof.
  intros Hf Hs. unfold parse_prefix_control_notification. destruct (get "update" (sn_value n)) as [u|] eqn:Eu; [|by left]. simpl. destruct (negb _); [by left|]. destruct (negb _); [by left|]. right. destruct (get "_meta" u ≫= as_object) as [m|] eqn:Em; [|done].
  destruct (nc_meta _ _ _ _ Hs Eu Em) as (u0 & Eu0 & Em0). by rewrite (free_meta u0 m (free_get _ _ _ Hf Eu0) Em0).
Qed.
(** C14: A child cannot attest anything: whatever it and the bridge send and however the wrapper's loops
    interleave, a frame of the child that reaches the bridge is either no control
    notification or is rejected as malformed, for every turn state. *)
Theorem child_cannot_attest `{!NotificationCodec decode} s f n st : reachable parse print sha256 s -> FromChild f ∈ sy_out s -> notification (FromChild f) = Some n ->
  parse_prefix_control_notification (sn_value n) st = None \/ parse_prefix_control_notification (sn_value n) st = Some (px_rejected st MalformedMetadata).
Proof.
  intros Hr Hin. unfold notification. simpl. destruct (parse f) as [v|] eqn:Ep; [|done]. simpl. destruct (str_is _ _); [|done]. destruct (get "params" v) as [p|] eqn:Epa; [|done]. simpl. intros Hs.
  pose proof (cs_out _ _ (reachable_clean _ _ _ _ Hr)) as H. rewrite Forall_forall in H. apply (free_refused p); [|done]. eapply free_get; [|exact Epa]. exact (H _ Hin v Ep).
Qed.

(** ** Recording *)
Lemma record_same status s n : parse_prefix_control_notification n (record_control status s) = parse_prefix_control_notification n s.
Proof. done. Qed.
(** The status of a turn is a control frame's only when there was exactly one: after none it says why
    there is no attestation, and after two or more it is a rejection as duplicate, whatever
    they said and in whatever order; once a status is settled by two, nothing changes it. *)
Theorem one_control_or_none requested producer turn nonce c sts :
  let s := fold_left (fun s st => record_control st s) sts (prefix_new producer turn nonce c) in
  terminal_status requested (close_control s) =
    match sts with
    | [] => unavailable producer turn (if requested then match c with SupportedV1 _ _ => BackendProtocolViolation | Unsupported CapProtocolDowngrade => ProtocolDowngrade | Unsupported _ => BackendDeclaredIncapable end else SanitizationNotRequested)
    | [st] => st
    | _ => rejected producer turn DuplicateControlMetadata
    end.
Proof.
  destruct sts as [|st1 [|st2 sts]]; [by destruct requested|done|]. cbn [fold_left]. set (s0 := record_control st2 _).
  assert (forall s, px_observed s = Some (rejected producer turn DuplicateControlMetadata) -> px_producer_id s = producer -> px_turn_id s = turn ->
    px_observed (fold_left (fun s st => record_control st s) sts s) = Some (rejected producer turn DuplicateControlMetadata)) as H.
  { clear. induction sts as [|st sts IH]; intros s H1 H2 H3; [done|]. simpl. apply IH; [|done|done]. unfold record_control. simpl. rewrite H1. unfold px_rejected. by rewrite H2, H3. }
  unfold terminal_status, close_control. simpl. by rewrite (H s0).
Qed.

(** ** The control frame of a turn *)
Section Schema.
Context `{!AcpSchema decode}.
Lemma control_reads (p : PromptBuffer) body prefix s : value_ok (control_frame sha256 p body Attested prefix) = true -> (forall b, length (sha256 b) = 32%nat) -> (blen body <= Lsp.usize_max)%N -> (prefix <= length body)%nat -> px_turn_id s = tn_turn_id (pb_turn p) -> px_marker_nonce_hex s = tn_marker_nonce (pb_turn p) ->
  px_capability s = codex_commit_marker_v1 -> exists n, decode (control_params sha256 p body Attested prefix) = Some n /\ sn_session_id n = pb_session_id p /\ update_str "messageId" (sn_value n) = Some (of_str "_b2a_apc_control/" ++ tn_turn_id (pb_turn p)) /\
  parse_prefix_control_notification (sn_value n) s = Some (AttestedV1 (mkAttested ATTESTED_PREFIX_ISSUER_V1 (px_producer_id s) (px_turn_id s) (blen body) (sha256 body) (N.of_nat prefix))).
Proof.
  intros Hok Hsha Hb Hp Ht Hn Hc. assert (value_ok (control_params sha256 p body Attested prefix) = true) as Hok' by (change (value_ok (control_frame sha256 p body Attested prefix)) with (true && (true && (true && (value_ok (control_params sha256 p body Attested prefix) && true)))) in Hok; by rewrite andb_true_r in Hok).
  destruct (as_chunk (pb_session_id p) (of_str "_b2a_apc_control/" ++ tn_turn_id (pb_turn p)) [] [(META_KEY, control_meta sha256 (pb_turn p) body Attested prefix)] Hok') as (n & u & Hs & Hu & H2 & H3 & H4).
  exists n. split; [exact Hs|]. split; [pose proof (as_session _ _ Hs) as E; cbn in E; by injection E|]. split; [unfold update_str; by rewrite Hu|].
  assert (get "sessionUpdate" u ≫= as_str = Some (of_str "agent_message_chunk")) as H1 by (pose proof (as_kind _ _ Hs) as E; unfold update_str in E; rewrite Hu in E; exact E).
  unfold parse_prefix_control_notification. rewrite Hu. cbn [mbind option_bind]. unfold text_is. rewrite H1, H2, H3, H4, Ht, Hc. rewrite !bool_decide_eq_true_2 by done. cbn [negb].
  cbn [field]. rewrite String.eqb_refl. cbn [negb is_supported_v1 codex_commit_marker_v1 length Nat.eqb]. rewrite bool_decide_eq_true_2 by done. cbn [negb as_object control_meta].
  unfold parse_control_fields. cbn [field String.eqb Ascii.eqb Bool.eqb mbind option_bind as_str]. unfold js. cbn [as_str]. rewrite (bool_decide_eq_true_2 (of_str "attested" = of_str "attested")) by done. cbn [orb negb length Nat.eqb as_u64].
  unfold text_is. cbn [mbind option_bind as_str]. rewrite Ht, Hn, !bool_decide_eq_true_2 by done. cbn [negb]. rewrite !canonical_decimal by (unfold blen in *; lia). cbn. by rewrite sha_back.
Qed.
End Schema.
Lemma control_value_ok (p : PromptBuffer) body prefix : utf8_valid (pb_session_id p) = true -> utf8_valid (tn_turn_id (pb_turn p)) = true -> valid_nonce (tn_marker_nonce (pb_turn p)) = true ->
  (blen body <= Lsp.usize_max)%N -> (prefix <= length body)%nat -> value_ok (control_frame sha256 p body Attested prefix) = true.
Proof.
  intros Hs Ht [_ Hn%forall_forallb]%andb_true_iff Hb Hp. assert (forall n, (n <= Lsp.usize_max)%N -> utf8_valid (Lsp.decimal n) = true) as Hdec.
  { intros n Hn'. destruct (LspFacts.decimal_parses n Hn') as (_ & Hd & _). apply LspFacts.utf8_ascii. eapply Forall_impl; [exact Hd|]. intros b Hb'. by destruct (LspFacts.digit_facts b Hb') as [? _]. }
  assert (forall l, Forall (fun b => hex_lower_byte b = true) l -> utf8_valid l = true) as Hhex.
  { intros l Hl. apply LspFacts.utf8_ascii. eapply Forall_impl; [exact Hl|]. intros b Hb'. by destruct (hex_not_special b Hb') as (_ & _ & ?). }
  assert (utf8_valid (of_str "_b2a_apc_control/" ++ tn_turn_id (pb_turn p)) = true) as Hid by exact Ht.
  assert (utf8_valid (hex_lower (sha256 body)) = true) as Hh by (apply Hhex, forall_forallb; by destruct (hex_back (sha256 body)) as (_ & _ & ?)).
  unfold control_frame, control_params, control_meta. cbn [value_ok fmap list_fmap fst snd forallb]. rewrite Hs, Ht, (Hhex _ Hn), Hid, Hh, !Hdec by (unfold blen in *; lia). vm_compute. reflexivity.
Qed.
Lemma retext_parses fs vs chunks : Forall2 (fun f v => parse f = Some v) fs vs -> Forall (fun v => value_ok v = true) vs -> Forall (fun c => utf8_valid c = true) chunks ->
  Forall (fun fv => parse (fst fv) = Some (snd fv)) (retext print (zip fs vs) chunks).
Proof.
  intros Hp. revert chunks. induction Hp as [|f v fs vs Hf Hp IH]; intros chunks Hv Hu; [constructor|]. apply Forall_cons in Hv as [Hok Hv]. cbn [zip zip_with retext snd].
  destruct (agent_text_chunk v) as [t|]; [|constructor; [done|by apply IH]]. destruct chunks as [|c chunks]; [constructor; [done|by apply IH]|]. apply Forall_cons in Hu as [Hc Hu]. constructor; [|by apply IH].
  unfold new_text. case_bool_decide; [done|]. cbn [fst snd]. unfold serialize_json_frame. apply jc_print; [by apply set_path_ok|apply delimiter_known].
Qed.
(** ** What the bridge makes of the child's frames *)
Section Reads.
Context `{!AcpSchema decode}.
Context (tombstones : list (bytes * bytes)) (session : bytes).
(** The child does not use the message ids of the bridge's own frames. *)
Definition plain_id (p : Value) : bool :=
  match update_str "messageId" p with Some id => negb (begins (of_str "_b2a_apc_control/") id) && negb (begins TURN_EVIDENCE_CONTROL_PREFIX id) | None => true end.
(** A frame of the session's turn as the wrapper buffers it, with a plain id and, if it is a text chunk,
    one that the protocol library reads. *)
Definition turn_frame (v : Value) : Prop :=
  should_buffer_prompt_frame v = true /\ frame_session_id v = Some session /\
  exists p, get "params" v = Some p /\ plain_id p = true /\ (chunk_text p <> None -> is_Some (decode p)).
Lemma agent_chunk_params v : agent_text_chunk v = get "params" v ≫= chunk_text.
Proof. unfold agent_text_chunk, chunk_text. by destruct (get "params" v). Qed.
Lemma plain_differs p n prefix turn : decode p = Some n -> plain_id p = true -> (prefix = of_str "_b2a_apc_control/" \/ prefix = TURN_EVIDENCE_CONTROL_PREFIX) -> update_str "messageId" (sn_value n) <> Some (prefix ++ turn).
Proof.
  intros Hd Hp Hpre E. unfold plain_id in Hp. rewrite (as_message_id _ _ _ Hd E) in Hp. apply andb_true_iff in Hp as [H1%negb_true_iff H2%negb_true_iff]. by destruct Hpre as [->| ->]; rewrite begins_app in H1 || rewrite begins_app in H2.
Qed.
Lemma other_id_not_evidence n turn : (forall t, update_str "messageId" (sn_value n) <> Some (TURN_EVIDENCE_CONTROL_PREFIX ++ t)) -> is_evidence (Usage := Usage) (Rich := Rich) n turn = false.
Proof.
  intros H. unfold is_evidence, parse_terminal_evidence_notification. specialize (H turn). unfold update_str in H. destruct (get "update" (sn_value n)) as [u|]; [|done]. simpl in *. destruct (negb _); [done|]. unfold text_is. by rewrite bool_decide_eq_false_2.
Qed.
Lemma other_id_not_control n s : update_str "messageId" (sn_value n) <> Some (of_str "_b2a_apc_control/" ++ px_turn_id s) -> parse_prefix_control_notification (sn_value (Usage := Usage) (Rich := Rich) n) s = None.
Proof.
  intros H. unfold parse_prefix_control_notification. unfold update_str in H. destruct (get "update" (sn_value n)) as [u|]; [|done]. simpl in *. destruct (negb _); [done|]. unfold text_is. by rewrite bool_decide_eq_false_2.
Qed.
(** A notification of the session that is no evidence reaches the end of the handler. *)
Lemma handler_routes n r : sn_session_id n = session -> (forall t, update_str "messageId" (sn_value n) <> Some (TURN_EVIDENCE_CONTROL_PREFIX ++ t)) -> on_receive_notification tombstones session n (Some r) = Some (route_notification (Usage := Usage) (Rich := Rich) n r).
Proof.
  intros Hs He. unfold on_receive_notification. rewrite bool_decide_eq_true_2 by done. cbn [negb mbind option_bind]. assert (match tr_evidence r with Some turn => is_evidence n turn | None => false end = false) as -> by (destruct (tr_evidence r); [by apply other_id_not_evidence|done]).
  assert (existsb (fun '(s, turn) => bool_decide (s = session) && is_evidence n turn) tombstones = false) as ->; [|done]. induction tombstones as [|[s t] l IH]; [done|]. simpl. by rewrite other_id_not_evidence, andb_false_r.
Qed.
(** A text chunk is no thought. *)
Lemma text_is_no_thought p n t : decode p = Some n -> chunk_text p = Some t -> thought_delta_len n = None.
Proof.
  intros Hd Ht. pose proof (as_kind _ _ Hd) as Hk. unfold update_str in Hk. unfold thought_delta_len. destruct (get "update" (sn_value n)) as [u|]; [|done]. simpl in *. unfold text_is. rewrite Hk. unfold chunk_text in Ht.
  destruct (get "update" p) as [u0|]; [|done]. simpl in *. destruct (get "sessionUpdate" u0 ≫= as_str) as [k|]; [|done]. simpl in Ht. case_bool_decide; [|done]. subst. by rewrite bool_decide_eq_false_2.
Qed.
(** What is sent for a frame: its text if it is a text chunk, and otherwise nothing with text. *)
Lemma frame_is_sent f v s ev sent : parse f = Some v -> turn_frame v -> exists evs,
  bridge_reads tombstones session [FromChild f] (Some (mkRoute (Some s) ev sent)) = Some (mkRoute (Some s) ev (sent ++ evs)) /\ texts evs = default [] (agent_text_chunk v) /\ Forall (fun te => ends te = false) evs.
Proof.
  intros Hf ([Hm _]%andb_true_iff & Hsid & p & Hp & Hid & Hacc). unfold bridge_reads, notification. cbn [fold_left frame_of]. rewrite Hf. cbn [mbind option_bind]. rewrite Hm, Hp, agent_chunk_params, Hp. cbn [mbind option_bind]. unfold frame_session_id in Hsid. rewrite Hp in Hsid. simpl in Hsid.
  destruct (decode p) as [n|] eqn:Hd; [|exists []; rewrite app_nil_r; destruct (chunk_text p); [by destruct (Hacc ltac:(done))|done]].
  pose proof (as_session _ _ Hd) as E. rewrite Hsid in E. injection E as E. rewrite handler_routes by (try done; intros t; eapply plain_differs; eauto). unfold route_notification. cbn [tr_prefix tr_evidence tr_sent].
  unfold on_notification. rewrite other_id_not_control by (eapply plain_differs; eauto). pose proof (as_text p n) as Htext. destruct (chunk_text p) as [t|] eqn:Et.
  - rewrite (text_is_no_thought p n t Hd Et). destruct (proj1 (Htext t Hd) eq_refl) as [meta Hu]. unfold turn_event, map_session_update_rich, map_session_update. rewrite Hu.
    exists [if final_answer meta then TeFinalAnswer t else TeText t]. destruct (final_answer meta); (split; [done|]); (split; [unfold texts; simpl; by rewrite app_nil_r|by repeat constructor]).
  - assert (forall meta t, sn_update n <> SuAgentMessageChunk meta (CbText t)) as Hno by (intros meta t E'; discriminate (proj2 (Htext t Hd) (ex_intro _ meta E'))).
    destruct (thought_delta_len n); [exists []; by rewrite app_nil_r|]. unfold turn_event, map_session_update_rich, map_session_update. destruct (sn_update n) as [meta [t|]|snap|r|] eqn:Eu; [by destruct (Hno meta t)|exists []; by rewrite app_nil_r|exists [TeUsage snap]|exists [TeRich r]|exists []; by rewrite app_nil_r];
      (split; [done|split; [done|by repeat constructor]]).
Qed.
Lemma reads_app a b r : bridge_reads tombstones session (a ++ b) r = bridge_reads tombstones session b (bridge_reads tombstones session a r).
Proof. apply fold_left_app. Qed.
Lemma frames_are_sent fr s ev sent : Forall (fun fv => parse (fst fv) = Some (snd fv) /\ turn_frame (snd fv)) fr -> exists evs,
  bridge_reads tombstones session (FromChild ∘ fst <$> fr) (Some (mkRoute (Some s) ev sent)) = Some (mkRoute (Some s) ev (sent ++ evs)) /\ texts evs = concat (text_chunks fr) /\ Forall (fun te => ends te = false) evs.
Proof.
  intros H. revert sent. induction H as [|[f v] fr [Hf Ht] _ IH]; intros sent; [exists []; by rewrite app_nil_r|]. destruct (frame_is_sent f v s ev sent Hf Ht) as (e1 & H1 & T1 & N1). destruct (IH (sent ++ e1)) as (e2 & H2 & T2 & N2).
  exists (e1 ++ e2). pose proof (reads_app [FromChild f] (FromChild ∘ fst <$> fr) (Some (mkRoute (Some s) ev sent))) as E. rewrite H1, H2 in E. rewrite app_assoc, texts_app, T1, T2. split; [exact E|]. split; [|by apply Forall_app]. unfold text_chunks. cbn [omap list_omap snd]. by destruct (agent_text_chunk v).
Qed.
(** A new text keeps a frame one of the turn. *)
Lemma set_text_keeps v t c : agent_text_chunk v = Some t -> utf8_valid c = true -> turn_frame v -> turn_frame (set_agent_text_chunk v c).
Proof.
  intros Ht Hc (Hb & Hsid & p & Hp & Hid & Hacc). rewrite agent_chunk_params, Hp in Ht. simpl in Ht. unfold set_agent_text_chunk, turn_frame, should_buffer_prompt_frame, frame_session_id. rewrite !(get_set_ne "params") by done.
  split; [done|]. rewrite get_set, Hp. cbn [fmap option_fmap option_map mbind option_bind]. rewrite get_set_ne by done. split; [unfold frame_session_id in Hsid; by rewrite Hp in Hsid|]. eexists. split; [reflexivity|]. split.
  - unfold plain_id, update_str in *. rewrite get_set. destruct (get "update" p) as [u|]; [|done]. cbn [fmap option_fmap option_map mbind option_bind]. rewrite get_set_ne by done. exact Hid.
  - intros _. destruct (Hacc ltac:(by rewrite Ht)) as [n Hn]. by eapply as_any_text.
Qed.
Lemma retext_turn fs vs chunks : Forall turn_frame vs -> Forall (fun c => utf8_valid c = true) chunks -> Forall (fun fv => turn_frame (snd fv)) (retext print (zip fs vs) chunks).
Proof.
  intros Hv. revert fs chunks. induction Hv as [|v vs Hv _ IH]; intros [|f fs] chunks Hu; [constructor..|]. cbn [zip zip_with retext snd]. destruct (agent_text_chunk v) as [t|] eqn:Et; [|constructor; [done|by apply IH]]. destruct chunks as [|c chunks]; [constructor; [done|by apply IH]|].
  apply Forall_cons in Hu as [Hc Hu]. constructor; [|by apply IH]. unfold new_text. case_bool_decide; [done|]. by eapply set_text_keeps.
Qed.
End Reads.
(** An attestation of the body itself decides by its offset. *)
Lemma validate_honest producer turn process deliverable : deliverable <> [] -> utf8_valid deliverable = true -> (blen (process ++ deliverable) <= Lsp.usize_max)%N ->
  let body := process ++ deliverable in
  so_effective_body (validate_attested sha256 codex_commit_marker_v1 producer turn body (mkAttested ATTESTED_PREFIX_ISSUER_V1 producer turn (blen body) (sha256 body) (N.of_nat (length process)))) =
  if (0 <? length process)%nat && (length process * 100 <=? (length process + length deliverable) * 90)%nat then deliverable else body.
Proof.
  intros Hd Hv Hw body. assert (length deliverable <> 0%nat) as Hl by (by destruct deliverable). assert (is_char_boundary body (N.of_nat (length process)) = true) as Hb.
  { unfold is_char_boundary, body, blen. rewrite length_app. destruct (N.eqb_spec (N.of_nat (length process)) 0); [done|]. rewrite (proj2 (N.leb_gt _ _)) by lia. rewrite Nat2N.id, lookup_app_r, Nat.sub_diag by done. destruct deliverable as [|c d]; [done|]. simpl.
    destruct (continuation c) eqn:Ec; [|done]. by rewrite (utf8_head_not_continuation c d Hv) in Ec. }
  unfold validate_attested. cbn [ap_issuer_id ap_producer_id ap_turn_id ap_body_len_bytes ap_body_sha256 ap_process_prefix_bytes]. rewrite (proj2 (supported_is _)), !bool_decide_eq_true_2 by done. cbn [negb].
  rewrite (proj2 (to_usize_some (blen body) (blen body))) by done. rewrite N.eqb_refl. cbn [negb]. unfold body, blen in *. rewrite length_app in *. rewrite (proj2 (to_usize_some _ (N.of_nat (length process)))) by (split; [done|lia]).
  rewrite (proj2 (N.ltb_ge _ _)), (proj2 (N.eqb_neq (N.of_nat (length process)) _)), Hb by lia. cbn [negb].
  destruct (N.ltb_spec (N.of_nat (length process + length deliverable) * 90) (N.of_nat (length process) * 100)).
  { rewrite (proj2 (Nat.leb_gt _ _)), andb_false_r by lia. done. }
  rewrite (proj2 (Nat.leb_le _ _)), andb_true_r by lia. destruct (N.eqb_spec (N.of_nat (length process)) 0) as [H0|H0].
  - by rewrite (proj2 (Nat.ltb_ge _ _)) by lia.
  - rewrite (proj2 (Nat.ltb_lt _ _)) by lia. cbn [so_effective_body]. by rewrite Nat2N.id, drop_app_length.
Qed.

(** The bridge's view of a flushed turn: the events of its text, and the status its control frame leaves. *)
Lemma flushed_view `{!AcpSchema decode} tombstones p terminal tv fs vs r s ev : holds (pb_frames p) fs -> Forall frame_ok fs -> Forall2 (fun f v => parse f = Some v) fs vs -> Forall (turn_frame (pb_session_id p)) vs -> marker_ok (tn_marker (pb_turn p)) = true -> resolve_turn (pb_turn p) (text_chunks (zip fs vs)) = Ok r ->
  rs_status r = Attested -> (rs_prefix_bytes r <= length (rs_body r))%nat -> (blen (rs_body r) <= Lsp.usize_max)%N -> (forall b, length (sha256 b) = 32%nat) ->
  utf8_valid (pb_session_id p) = true -> utf8_valid (tn_turn_id (pb_turn p)) = true -> valid_nonce (tn_marker_nonce (pb_turn p)) = true ->
  px_turn_id s = tn_turn_id (pb_turn p) -> px_marker_nonce_hex s = tn_marker_nonce (pb_turn p) -> px_capability s = codex_commit_marker_v1 -> px_observed s = None ->
  parse terminal = Some tv -> get "params" tv = None ->
  exists evs, bridge_reads tombstones (pb_session_id p) (flushed print sha256 p terminal (zip fs vs) r) (Some (mkRoute (Some s) ev [])) =
      Some (mkRoute (Some (record_control (AttestedV1 (mkAttested ATTESTED_PREFIX_ISSUER_V1 (px_producer_id s) (px_turn_id s) (blen (rs_body r)) (sha256 (rs_body r)) (N.of_nat (rs_prefix_bytes r)))) s)) ev evs) /\
    texts evs = rs_body r /\ Forall (fun te => ends te = false) evs.
Proof.
  intros Hb Hf Hp Htf Hm Hr Hst Hpre Hw Hsha Hs1 Hs2 Hs3 Ht Hn Hc Ho Htv Hnp.
  assert (Forall (fun v => value_ok v = true) vs) as Hv by (clear -Hp JsonCodec0; induction Hp; constructor; [by eapply jc_ok|done]). destruct (resolve_turn_ok _ _ Hm (text_chunks_utf8 fs vs Hv)) as (r' & Er & Hl & Hu & Hcat & _). rewrite Hr in Er. injection Er as <-.
  destruct (frames_are_sent tombstones (pb_session_id p) (retext print (zip fs vs) (rs_chunks r)) s ev []) as (evs & H1 & H2 & H3); [apply Forall_and; split; [by apply retext_parses|by apply retext_turn]|].
  exists evs. rewrite retext_chunks in H2 by done. rewrite H2. split; [|done]. unfold flushed. rewrite reads_app, H1. pose proof (control_value_ok p (rs_body r) (rs_prefix_bytes r) Hs1 Hs2 Hs3 Hw Hpre) as Hok.
  destruct (control_reads p (rs_body r) (rs_prefix_bytes r) s Hok Hsha Hw Hpre Ht Hn Hc) as (n & Hn1 & Hn2 & Hn3 & Hn4). set (cf := control_frame sha256 p (rs_body r) (rs_status r) (rs_prefix_bytes r)).
  assert (notification (ControlOf (pb_turn p) (rs_status r) (json_line print cf)) = Some n) as Hc1 by (unfold notification, cf; cbn [frame_of]; unfold json_line; rewrite Hst, jc_print by (done || set_solver); exact Hn1).
  assert (notification (FromChild terminal) = None) as Hc2 by (unfold notification; cbn [frame_of]; rewrite Htv; cbn [mbind option_bind]; rewrite Hnp; by destruct (str_is _ _)).
  unfold bridge_reads. cbn [fold_left]. rewrite Hc2, Hc1, handler_routes by (try done; intros t E; rewrite Hn3 in E; by injection E). unfold route_notification, on_notification. cbn [tr_prefix tr_evidence tr_sent]. by rewrite Hn4.
Qed.
(** C13: What the bridge releases for an agent that follows the contract. It writes process text, the
    marker of the turn and a deliverable, quoted as the contract says and cut into any
    chunks among other updates; the wrapper flushes the turn; the bridge reads the frames,
    routes their notifications, records the control frame, streams the events to the node,
    which collects the text and completes; and the harvest releases the deliverable without
    a byte of the process text or the marker, if there is process text and it is at most
    nine tenths of the body, and otherwise the whole text without the marker. Hypotheses:
    the child's frames are updates of the session that do not use the bridge's own message
    ids, its text chunks fit the protocol's schema, texts fit a machine word and are not
    all white space, and nothing else fails the turn. *)
Theorem deliverable_is_released `{!AcpSchema decode} debug node tombstones ev p terminal tv ops vs process deliverable producer stop usage :
  pushes ops buffer_new = Ok (pb_frames p) -> Forall (fun op => (blen (snd op) < 2 ^ 64)%N) ops -> Forall2 (fun f v => parse f = Some v) (snd <$> ops) vs -> Forall (turn_frame (pb_session_id p)) vs ->
  tn_marker (pb_turn p) = commit_marker (tn_marker_nonce (pb_turn p)) -> valid_nonce (tn_marker_nonce (pb_turn p)) = true -> tn_enabled (pb_turn p) = true ->
  utf8_valid (pb_session_id p) = true -> utf8_valid (tn_turn_id (pb_turn p)) = true -> parse terminal = Some tv -> get "params" tv = None -> (forall b, length (sha256 b) = 32%nat) ->
  concat (omap agent_text_chunk vs) = committed_text (tn_marker (pb_turn p)) process deliverable -> deliverable <> [] -> utf8_valid deliverable = true -> (blen (process ++ deliverable) <= Lsp.usize_max)%N ->
  blank (process ++ deliverable) = false -> stop <> STOP_REASON_CANCELLED ->
  let s := prefix_new producer (tn_turn_id (pb_turn p)) (tn_marker_nonce (pb_turn p)) codex_commit_marker_v1 in
  exists out route, flush_prompt_buffer parse print sha256 None p terminal = Ok (out, Attested) /\
    bridge_reads tombstones (pb_session_id p) out (Some (mkRoute (Some s) ev [])) = Some route /\
    let o := run_node debug node (uncanceled (turn_stream (tr_sent route ++ driver_events true (tr_prefix route) None None (Ok (stop, usage))))) None None in
    no_ok o = true /\
    so_effective_body (sanitize_harvest sha256 AttestedPrefixV1 (no_origin o) codex_commit_marker_v1 producer (tn_turn_id (pb_turn p)) (no_text o) (no_attestation o)) =
    if (0 <? length process)%nat && (length process * 100 <=? (length process + length deliverable) * 90)%nat then deliverable else process ++ deliverable.
Proof.
  intros Hops Hlen Hp Htf Hmk Hnon Hen Hs1 Hs2 Htv Hnp Hsha Htext Hd Hu Hw Hbl Hstop s. pose proof (pushes_holds _ _ [] _ holds_new Hops) as Hb. simpl in Hb.
  assert (marker_ok (tn_marker (pb_turn p)) = true) as Hm by (rewrite Hmk; apply commit_marker_ok; by apply andb_true_iff in Hnon as [_ ?]). assert (Forall frame_ok (snd <$> ops)) as Hf by (by apply Forall_fmap).
  assert (Forall (fun v => value_ok v = true) vs) as Hv by (clear -Hp JsonCodec0; induction Hp; constructor; [by eapply jc_ok|done]).
  destruct (flush_is parse print sha256 None p terminal _ _ ([], Attested) Hb Hf Hp Hv Hm ltac:(by right)) as (r & Er & Ef). destruct (resolve_turn_ok _ _ Hm (text_chunks_utf8 (snd <$> ops) vs Hv)) as (r' & Er' & _ & _ & _ & Hden). rewrite Er in Er'. injection Er' as <-.
  assert (text_chunks (zip (snd <$> ops) vs) = omap agent_text_chunk vs) as Etx by (clear -Hp; unfold text_chunks; induction Hp as [|f v fs vs H Hp IH]; [done|]; cbn [zip zip_with omap list_omap snd]; destruct (agent_text_chunk v); by rewrite IH).
  rewrite Hen, Etx, Htext, committed_denotes in Hden by done. injection Hden as Hbody Hstat Hpre.
  destruct (flushed_view tombstones p terminal tv _ vs r s ev Hb Hf Hp Htf Hm Er Hstat) as (evs & Hread & Hcol & Hno); try done; [rewrite Hpre, Hbody, length_app; lia|by rewrite Hbody|].
  rewrite Hstat in Ef. eexists _, _. split; [exact Ef|]. split; [exact Hread|]. cbn [tr_sent tr_prefix driver_events fmap option_fmap option_map]. rewrite app_assoc, node_keeps_text.
  - cbn [no_ok no_origin no_text no_attestation]. split; [done|]. rewrite texts_app, Hcol, Hbody, Hpre. replace (texts (option_list (TeUsage <$> usage))) with (@nil byte) by (by destruct usage). rewrite app_nil_r. by apply validate_honest.
  - apply Forall_app. split; [done|]. destruct usage; by repeat constructor.
  - done.
  - rewrite texts_app, Hcol, Hbody. replace (texts (option_list (TeUsage <$> usage))) with (@nil byte) by (by destruct usage). by rewrite app_nil_r.
Qed.
End Turn.

(** ** Witnesses *)
Definition toy_decode (p : Value) : option (SessionNotification (Usage := unit) (Rich := unit)) :=
  sid ← (get "sessionId" p ≫= as_str); u ← get "update" p;
  Some (mkNotification sid (match chunk_text p with Some t => SuAgentMessageChunk (get "_meta" u ≫= as_object) (CbText t) | None => SuOther end) p).
Lemma toy_decode_is p n : toy_decode p = Some n -> get "sessionId" p ≫= as_str = Some (sn_session_id n) /\ sn_value n = p /\ exists meta, sn_update n = match chunk_text p with Some t => SuAgentMessageChunk meta (CbText t) | None => SuOther end.
Proof.
  unfold toy_decode. destruct (get "sessionId" p ≫= as_str) as [sid|]; [|done]. destruct (get "update" p) as [u|]; [|done]. simpl. intros [= <-]. split_and!; [done|done|]. by eexists.
Qed.
#[global] Instance toy_schema : AcpSchema toy_decode.
Proof.
  split.
  - split. intros p n u m (_ & -> & _)%toy_decode_is. eauto.
  - intros p n H. apply (toy_decode_is p n H).
  - intros p n t (_ & _ & meta & ->)%toy_decode_is. split; [intros ->; by eexists|]. intros [meta' E]. destruct (chunk_text p); [congruence|discriminate].
  - by intros p n (_ & -> & _)%toy_decode_is.
  - by intros p n id (_ & -> & _)%toy_decode_is.
  - intros p n t c H _ _. unfold toy_decode in *. rewrite (get_set_ne "update" "sessionId") by done. rewrite get_set. destruct (get "sessionId" p ≫= as_str) as [sid|]; [|done]. destruct (get "update" p) as [u|]; [|done]. by eexists.
  - intros session id text meta _. by eexists _, _.
Qed.
(** A child that writes a control frame of its own. *)
Definition forged_control : Value := control_frame toy_hash demo_prompt (of_str "forged") Attested 3.
Definition relayed_control : bytes := snd (filter_frame Toy.print (Toy.print forged_control ++ [NL]) forged_control).
Definition demo_notification : SessionNotification (Usage := unit) (Rich := unit) := default (mkNotification [] SuOther JNull) (notification Toy.parse toy_decode (FromChild relayed_control)).
Definition demo_state : PrefixTurnState := prefix_new (of_str "codex") demo_turn_id demo_nonce codex_commit_marker_v1.
Lemma child_cannot_attest_witness : (parse_prefix_control_notification (sn_value demo_notification) demo_state = None \/ parse_prefix_control_notification (sn_value demo_notification) demo_state = Some (px_rejected demo_state MalformedMetadata)) /\
  parse_prefix_control_notification (sn_value demo_notification) demo_state <> None.
Proof.
  split; [|vm_compute; discriminate].
  exact (child_cannot_attest Toy.parse Toy.print toy_hash toy_decode _ relayed_control demo_notification demo_state (relayed forged_control ltac:(vm_compute; reflexivity) ltac:(vm_compute; reflexivity)) (list_elem_of_here _ _) ltac:(vm_compute; reflexivity)).
Defined.
Definition demo_terminal_value : Value := JObj [("id", JNum (NPos 8)); ("result", JObj [("stopReason", js "end_turn")])].
Definition demo_terminal : bytes := Toy.print demo_terminal_value ++ [NL].
Lemma toy_hash_length b : length (toy_hash b) = 32%nat.
Proof. unfold toy_hash. rewrite length_take, length_app, length_replicate. lia. Qed.
Lemma demo_turn_frames : Forall (turn_frame toy_decode (pb_session_id demo_prompt)) demo_values.
Proof. repeat constructor; (eexists; split; [reflexivity|]; split; [reflexivity|]; intros _; by eexists). Qed.
Definition demo_node (route : TurnRoute (Usage := unit) (Rich := unit)) : NodeRunOutput :=
  run_node (fun _ => []) (of_str "n1") (uncanceled (turn_stream (tr_sent route ++ driver_events true (tr_prefix route) None None (Ok (of_str "end_turn", Some tt))))) None None.
Lemma deliverable_is_released_witness : exists out route, flush_prompt_buffer Toy.parse Toy.print toy_hash None demo_prompt demo_terminal = Ok (out, Attested) /\
  bridge_reads Toy.parse toy_decode [(of_str "s1", of_str "turn_old")] (of_str "s1") out (Some (mkRoute (Some demo_state) (Some demo_turn_id) [])) = Some route /\ no_ok (demo_node route) = true /\
  so_effective_body (sanitize_harvest toy_hash AttestedPrefixV1 (no_origin (demo_node route)) codex_commit_marker_v1 (of_str "codex") demo_turn_id (no_text (demo_node route)) (no_attestation (demo_node route))) = of_str "42".
Proof.
  assert (Forall2 (fun f v => Toy.parse f = Some v) (snd <$> demo_ops) demo_values) as Hp by (repeat constructor; apply jc_print; done || set_solver).
  exact (deliverable_is_released Toy.parse Toy.print toy_hash toy_decode (fun _ => []) (of_str "n1") [(of_str "s1", of_str "turn_old")] (Some demo_turn_id) demo_prompt demo_terminal demo_terminal_value demo_ops demo_values (of_str "thinking") (of_str "42") (of_str "codex") (of_str "end_turn") (Some tt)
    ltac:(vm_compute; reflexivity) ltac:(repeat constructor) Hp demo_turn_frames ltac:(reflexivity) ltac:(vm_compute; reflexivity) ltac:(reflexivity) ltac:(vm_compute; reflexivity) ltac:(vm_compute; reflexivity) ltac:(vm_compute; reflexivity) ltac:(reflexivity) toy_hash_length
    ltac:(vm_compute; reflexivity) ltac:(discriminate) ltac:(vm_compute; reflexivity) ltac:(vm_compute; discriminate) ltac:(vm_compute; reflexivity) ltac:(vm_compute; discriminate)).
Defined.
